(* ===== verification/_CoqProject ===== *)
-Q . S2P
Prelude.v
Sorting.v
Errors.v
Redis.v
Events.v
Envelope.v
Codec.v
Queue.v
Keys.v
Scripts.v
Storage.v
Transitions.v
Promotion.v
JobState.v
Queries.v
Enqueue.v
EnqueueScript.v
Delivery.v
Contention.v
Client.v
Metrics.v
MetricsFacts.v
Stats.v
StatsStorage.v
Resilience.v
Recovery.v
RecoveryFacts.v
Durability.v
Places.v
Moves.v
Peers.v
Permits.v
Throttle.v
Typing.v
Executor.v
ExecutorFacts.v
Registry.v
Dispatcher.v
Coordinator.v
CoordinatorFacts.v
Exclusive.v
Workers.v
World.v
WorldTypes.v
LifeCycle.v
Progress.v
Pipeline.v
Collector.v
Runtime.v
Node.v
Api.v
Builder.v
Worker.v
Failure.v
Prometheus.v
ReadOnly.v
WebConfig.v
Derives.v
WebTree.v
WebJobs.v
WebQueues.v
WebFacts.v
WebMetrics.v
WebFormat.v
WebRoutes.v
Mcp.v
Cron.v
Startup.v
TestKit.v
EnqueueTests.v
TransitionTests.v
StorageTests.v
StatsTests.v
WebTests.v
DataTests.v
RuntimeTests.v
WorkerTests.v
McpTests.v
Witnesses.v
WebWitnesses.v
