(* ===== verification/Prelude.v ===== *)
(** * Oxana: a Redis-backed job queue, modelled and verified

    Oxana (crate [src/oxana]) runs background jobs. A client serializes a job
    into an envelope and stores it in Redis; workers claim job IDs from queues,
    run the job, and acknowledge it, schedule a retry or bury it. All durable
    state is in Redis: a hash of payloads, a list per queue, a list of claims
    per process, sorted sets for the schedule, the retries and the processes, a
    list of dead letters. The processes share nothing else, so what matters is
    what every method does to these keys, in what atomic steps, and what is
    left when a step fails, loses its reply or is the last of its process.

    ** How the program is modelled

    - Redis ([Redis.v]) is a parameter: a class [RedisServer] of what executes
      commands and hands out connections. [keyspace] and [documented] write out
      the documented behaviour of the commands the code uses, and
      [LawfulRedis] says that a server behaves so; theorems about one method are
      proved for every lawful server. [MemRedis] is the documented behaviour as
      a server of its own.
    - A method is a program ([prog], [rprog] when it returns a [Result]) whose
      events are the round trips of the code: checking out a connection, one
      command, a pipeline, a MULTI, a script. Scripts are terms of a small Lua
      monad ([lua]) and run as one event, without undoing the writes before an
      error. [yields p d r post] is the outcome of a run on a server. For
      concurrency and faults, [clients_step] interleaves the events of any
      number of programs; an event may be answered, act and lose its reply, or
      not be sent, and a program may stop anywhere.
    - serde_json ([Serde] in [Envelope.v]; [ConfigSerde], [ProcessSerde]),
      cron's parser, clocks, random values and user code are parameters or
      arguments. [LawfulSerde] is the documented round trip; [Codec.v] has an
      instance, so that no theorem about a codec is empty.
    - Integers are [Z] with the wrap-around or saturation of their Rust type
      written out ([u64_wrap], [u64_sat_add], ...). Time is in the unit of the
      code (scores in microseconds, heartbeats in milliseconds); f64 scores and
      rates are exact numbers here, so rounding is not modelled. HashMap and
      HashSet are [gmap] and [gset]: iteration order is not relied on.
    - A Rust panic is [None] of an option, an error a [Result] value.

    ** Files and the code they model (under [src/oxana/src] unless named)

    - [Errors] (error.rs), [Envelope] (job_envelope.rs, worker.rs's [Job]),
      [Queue] (queue.rs), [Keys] (storage_keys.rs and the key functions of
      storage_internal.rs).
    - [Scripts]: finish_success.lua, finish_dead.lua, retry_failed.lua,
      promote_scheduled.lua, resurrect_claim.lua, with the effect of each.
    - [Storage]: the methods of [StorageInternal] on jobs. [Transitions],
      [Promotion], [Queries], [JobState] (job_state.rs) prove what they do.
    - [Enqueue]: enqueue.lua and the enqueue methods; [EnqueueScript] has the
      sequential specification of the script and its refinement, [Delivery] the
      guarantees from enqueueing to claiming, [Contention] what becomes of an
      enqueue while others write. [Client]: storage.rs.
    - [Metrics], [MetricsFacts] (metrics.rs), [Stats] (stats.rs,
      storage_internal/queue_stats.rs), [StatsStorage] (their Redis side).
    - [Resilience]: failure tolerance and checkouts of claimed connections
      (storage_internal.rs, pool_retry_config.rs).
    - [Recovery], [RecoveryFacts]: heartbeats, dead processes, resurrection,
      cleanup, the statistics report (storage_internal.rs).
    - [Durability] and [Typing]: the interleaving theorems over all of the above;
      [Events] has the judgements about the events of a program they and
      [ReadOnly] use. [Sorting] has sorts by a comparison.
    - [Places] counts the places a job occupies and says where it is, [Moves] what
      each script does to that, [Peers] which programs leave the claims of others
      alone; [Exclusive] follows a worker's hold on a job through its program,
      [Workers] composes dispatcher, loading and execution to the programs a
      process runs, [World] runs any number of these in many processes,
      [WorldTypes] types its keyspace, [LifeCycle] is the abstract life cycle of a
      job which that world refines, and [Progress] completes a job from wherever
      that world has left it.
    - [Permits] (semaphores_map.rs), [Throttle] (throttler.rs), [Executor],
      [ExecutorFacts] (executor.rs), [Registry] (worker_registry.rs, config.rs),
      [Worker] (worker.rs: the trait, jobs bound to their worker), [Failure]
      (failure.rs), [Dispatcher] (dispatcher.rs, drainer.rs, the loading of jobs in
      coordinator.rs), [Coordinator], [CoordinatorFacts] (coordinator.rs: the
      batcher, invalid jobs, discovery), [Pipeline] (coordinator.rs and
      dispatcher.rs: their tasks and channels together), [Collector]
      (result_collector.rs), [Runtime] (config.rs, runtime.rs, launcher.rs),
      [Node] (launcher.rs: the launcher with its coordinators, a whole process),
      [Builder] (storage_builder.rs, the methods of runtime.rs, registry.rs),
      [Cron] (cron_job_loop), [Startup] (the loops of launcher.rs and
      storage_internal.rs, and the registration they wait for), [Prometheus]
      (prometheus.rs).
    - [Api]: every method of [Storage] (storage.rs) that its clients call.
    - [WebConfig], [WebTree], [WebJobs], [WebQueues], [WebMetrics], [WebFormat],
      [WebRoutes] (src/oxana-web/src: handlers.rs, templates.rs, pagination.rs,
      filters.rs, lib.rs, error.rs) and [WebFacts]; [Mcp]
      (src/oxana-mcp/src). They are programs over [Api].
    - [Derives] (src/oxana-macros/src): what the derived implementations mean.
    - [EnqueueTests], [TransitionTests], [StorageTests], [StatsTests] (the tests of
      storage_internal.rs and its two test files), [DataTests] (those of the data
      and of single components), [RuntimeTests] (config.rs, runtime.rs,
      storage.rs, coordinator.rs and the two connection_tests.rs), [WorkerTests]
      (worker.rs with the derive macros, failure.rs), [WebTests] (oxana-web),
      [McpTests] (oxana-mcp): the crates' own tests, translated under their names and
      evaluated; [TestKit] is the bench they run on, with test_helper.rs and its
      proxy.
    - [Witnesses], [WebWitnesses]: concrete inputs at which the theorems with
      hypotheses apply.

    ** What is shown

    - At-least-once delivery: [job_never_lost]. A stored and waiting job stays
      stored and waiting under every interleaving, fault and crash, until
      something finishes, kills, deletes or wipes it.
    - Exclusive execution: [job_held_once]. While processes are taken for dead only
      once they have stopped, a job is held by at most one task, waits nowhere
      while it is, and unique enqueues do not duplicate it. The whole system
      refines the life cycle of a job ([job_life_cycle]).
    - No dead end: [job_never_stuck]. From every state the system reaches, a job
      that is anywhere can still be completed by ordinary steps of a process.
    - Enqueueing under contention ends: [enqueue_rounds_bounded].
    - The atomic transitions: what enqueue.lua, retry, death, acknowledgement,
      claiming, promotion and recovery do to every key, on each branch
      ([enqueue_lua_sequential], [retry_in_branches], [kill_buries],
      [finish_batch_acknowledges], [dequeue_claims_oldest],
      [delete_job_removes], [due_jobs_promoted], [dead_process_recovered]), and that one that fails
      has done nothing ([claimed_transition_all_or_nothing]).
    - From those, whole behaviours: FIFO delivery, uniqueness, the settling of a
      failed batch, the splitting of a batch with invalid jobs, resumed
      iterations, exclusive cron occurrences.
    - The types of the keyspace under whole workers and other programs:
      [every_key_keeps_its_type].
    - The in-process machines as step relations with invariants: permits without
      lost wake-ups, the batcher, a whole coordinator with its dispatchers,
      channels, batchers and executions ([claims_accounted],
      [queue_limit_respected], [coordinator_stops]), the start
      ([claims_wait_for_registration]), the launcher, and a process as the launcher
      with its coordinators, which stays registered until every claim is accounted
      for ([process_outlives_claims]) and can always end ([process_can_answer]).
    - Configuration: whatever a builder is called with ([built_runtime_sound],
      [started_runtime_runs_selection]), what the derive macros generate
      ([derived_queue_found], [derived_unique_id], [derived_worker_runs]), that a
      batch is run job by job as itself ([batch_items_aligned]), and that a failed
      execution is reported once ([failure_reported_once]).
    - The dashboard and the MCP server: they agree with the workers about a
      queue's configuration, their pages tile the lists, GET requests and tools
      change nothing, the token is required and arguments stay hidden.
    - That the model is the program its authors test: every translated test passes
      on it ([enqueue_tests_pass], [transition_tests_pass], [storage_tests_pass],
      [stats_tests_pass], [data_tests_pass], [runtime_tests_pass],
      [worker_tests_pass], [web_tests_pass], [mcp_tests_pass]).
    - Bounds, round trips and accounting of throttling, metrics, statistics,
      failure tolerance, checkout deadlines, retry delays, number formatting, the
      Prometheus export.

    ** Hypotheses that recur

    - [job_store]: the five aggregates a transition reads have their types (they
      may be absent). Queue names do not start with the namespace, where a
      theorem says so: [namespace_queue] uses such names verbatim.
    - Payloads parse where a theorem says so ([recoverable], [stored_as]).

    ** Fuel

    [enqueue_loop] retries while snapshots change: it needs at most one round more
    than a payload of its jobs is changed by others ([enqueue_rounds_bounded]),
    and [Delivery]'s theorems hold for every fuel above one;
    [drain_queue] is bounded by the number of jobs, [scan_cleanable] by the
    pages of HSCAN, where the documented scan returns one. [chunks] takes the
    length of its list, which is always enough. Loops that wait for a clock take
    the list of their ticks, and the checkout loop the list of its attempts;
    [checkout_loop_deadline] bounds how many it can use.

    ** Not modelled

    HTML, axum, rmcp, the text encodings of Sentry and Prometheus, deadpool's
    pools, darling, heck and syn are third-party: parameters, or left out where
    nothing depends on them. Tracing output and re-exports are left out. tokio's
    scheduling is the freedom of the step relations; real time is the ticks and
    deadlines they are given. Tests about those (rendered HTML, sockets and bytes
    sent, real time, compile errors) have nothing to run on and are left out. *)
From stdpp Require Export base tactics numbers list option gmap strings pretty sorting.
From Stdlib Require Export ZArith Lia Bool.
From Stdlib Require Export Ascii.

#[export] Set Warnings "-register-all,-clear-no-such-hyp".
Open Scope string_scope.
Open Scope list_scope.

(** ** Results

    Rust's [Result<A, E>]; [?] is [res_bind]. *)
Inductive result (E A : Type) : Type :=
| Ok (a : A)
| Err (e : E).
Arguments Ok {E A} a.
Arguments Err {E A} e.

#[export] Instance result_eq_dec `{EqDecision E, EqDecision A} : EqDecision (result E A).
Proof. solve_decision. Defined.

Definition res_bind {E A B : Type} (r : result E A) (f : A -> result E B) : result E B :=
  match r with Ok a => f a | Err e => Err e end.

Definition res_map {E A B : Type} (f : A -> B) (r : result E A) : result E B :=
  match r with Ok a => Ok (f a) | Err e => Err e end.

Definition map_err {E F A : Type} (f : E -> F) (r : result E A) : result F A :=
  match r with Ok a => Ok a | Err e => Err (f e) end.

Definition is_ok {E A : Type} (r : result E A) : bool :=
  match r with Ok _ => true | Err _ => false end.

Definition res_ok {E A : Type} (r : result E A) : option A :=
  match r with Ok a => Some a | Err _ => None end.

(** [Option<Result<A, E>>::transpose]. *)
Definition transpose {E A : Type} (o : option (result E A)) : result E (option A) :=
  match o with
  | None => Ok None
  | Some (Ok a) => Ok (Some a)
  | Some (Err e) => Err e
  end.

(** [Iterator::collect::<Result<Vec<_>, _>>]. *)
Fixpoint collect {E A : Type} (l : list (result E A)) : result E (list A) :=
  match l with
  | [] => Ok []
  | r :: l' => res_bind r (fun a => res_map (cons a) (collect l'))
  end.

(** ** Machine integers

    Rust's fixed-width integers are [Z]; the operations below write out the
    wrap-around, the saturation and the fallible conversions. *)
Definition u16_max : Z := 2 ^ 16 - 1.
Definition u32_max : Z := 2 ^ 32 - 1.
Definition u64_max : Z := 2 ^ 64 - 1.
Definition i64_max : Z := 2 ^ 63 - 1.
Definition i64_min : Z := - 2 ^ 63.

Definition u64_sat_add (a b : Z) : Z := Z.min (a + b) u64_max.
Definition u64_sat_sub (a b : Z) : Z := Z.max (a - b) 0.
Definition i64_sat (a : Z) : Z := Z.max i64_min (Z.min a i64_max).
Definition i64_sat_add (a b : Z) : Z := i64_sat (a + b).
Definition i64_sat_sub (a b : Z) : Z := i64_sat (a - b).
(** Overflow in release builds wraps. *)
Definition u32_wrap (a : Z) : Z := a mod 2 ^ 32.
Definition u64_wrap (a : Z) : Z := a mod 2 ^ 64.
(** [i64::try_from(u64)], [u64::try_from(i64)]. *)
Definition i64_try_from (a : Z) : option Z := if decide (a <= i64_max)%Z then Some a else None.
Definition u64_try_from (a : Z) : option Z := if decide (0 <= a)%Z then Some a else None.

Lemma u64_sat_add_bounds a b :
  (0 <= a)%Z -> (0 <= b)%Z -> (0 <= u64_sat_add a b <= u64_max)%Z.
Proof. unfold u64_sat_add, u64_max. lia. Qed.

Lemma u64_wrap_small a : (0 <= a <= u64_max)%Z -> u64_wrap a = a.
Proof. unfold u64_wrap, u64_max. intros. apply Z.mod_small. lia. Qed.

Lemma u32_wrap_small a : (0 <= a <= u32_max)%Z -> u32_wrap a = a.
Proof. unfold u32_wrap, u32_max. intros. apply Z.mod_small. lia. Qed.

(** ** Durations

    [std::time::Duration] in nanoseconds; at most [u64::MAX] seconds and
    999999999 nanoseconds. *)
Abbreviation Duration := Z (only parsing).
Definition from_millis (n : Z) : Duration := n * 1000000.
Definition from_secs (n : Z) : Duration := n * 1000000000.
Definition as_millis (d : Duration) : Z := d / 1000000.
Definition duration_max : Duration := (u64_max + 1) * 1000000000 - 1.
Definition duration_sat_mul (d : Duration) (n : Z) : Duration := Z.min (d * n) duration_max.

(** ** Strings

    Rust's [str] methods on byte strings; separators are single characters. *)
Fixpoint strip_prefix (p s : string) : option string :=
  match p, s with
  | EmptyString, _ => Some s
  | String a p', String b s' => if decide (a = b) then strip_prefix p' s' else None
  | _, _ => None
  end.

Definition starts_with (p s : string) : bool := bool_decide (is_Some (strip_prefix p s)).

Fixpoint has_char (c : ascii) (s : string) : bool :=
  match s with
  | EmptyString => false
  | String a s' => bool_decide (a = c) || has_char c s'
  end.

(** [str::split_once], [str::rsplit_once]. *)
Fixpoint split_once (c : ascii) (s : string) : option (string * string) :=
  match s with
  | EmptyString => None
  | String a s' =>
      if decide (a = c) then Some ("", s')
      else (λ p, (String a p.1, p.2)) <$> split_once c s'
  end.

Fixpoint rsplit_once (c : ascii) (s : string) : option (string * string) :=
  match s with
  | EmptyString => None
  | String a s' =>
      match rsplit_once c s' with
      | Some p => Some (String a p.1, p.2)
      | None => if decide (a = c) then Some ("", s') else None
      end
  end.

(** [s.rsplit(c).next()]: the part after the last [c], or all of [s]. *)
Definition rsplit_first (c : ascii) (s : string) : string :=
  match rsplit_once c s with Some (_, r) => r | None => s end.

(** [n.to_string()] on integers. *)
Definition z_to_string (n : Z) : string := pretty n.

(** [s.parse::<i64>()] on decimal digits with an optional minus sign. *)
Definition digit_of (a : ascii) : option Z :=
  let n := Z.of_nat (nat_of_ascii a) in
  if decide (48 <= n <= 57)%Z then Some (n - 48)%Z else None.
Fixpoint digits_value (acc : Z) (s : string) : option Z :=
  match s with
  | EmptyString => Some acc
  | String a s' => d ← digit_of a; digits_value (10 * acc + d) s'
  end.
Definition n_of_string (s : string) : option Z :=
  match s with EmptyString => None | _ => digits_value 0 s end.
Definition z_of_string (s : string) : option Z :=
  match s with
  | String a s' => if decide (a = "-"%char) then Z.opp <$> n_of_string s' else n_of_string s
  | EmptyString => None
  end.

(** [s.parse::<usize>()]: digits with an optional plus sign, in range. *)
Definition parse_usize (s : string) : option nat :=
  let digits := match s with
                | String a s' => if decide (a = "+"%char) then s' else s
                | EmptyString => s
                end in
  n ← n_of_string digits; if decide (n <= u64_max)%Z then Some (Z.to_nat n) else None.

(** [str::is_char_boundary] on UTF-8 bytes: not before a continuation byte. *)
Definition is_char_boundary (n : nat) (s : string) : bool :=
  bool_decide (n <= String.length s) &&
  match String.get n s with
  | Some a => negb (bool_decide (128 <= nat_of_ascii a < 192))
  | None => true
  end.

(** [slice.join(sep)]. *)
Fixpoint join (sep : string) (l : list string) : string :=
  match l with
  | [] => ""
  | [s] => s
  | s :: l' => s +:+ sep +:+ join sep l'
  end.

Lemma string_app_cons a s t : String a s +:+ t = String a (s +:+ t).
Proof. done. Qed.
Lemma string_app_nil_l s : "" +:+ s = s.
Proof. done. Qed.

Create Rewrite HintDb strings.
#[export] Hint Rewrite string_app_cons string_app_nil_l : strings.

Lemma string_app_nil_r s : s +:+ "" = s.
Proof. induction s as [|a s IH]; [done|]. by rewrite string_app_cons, IH. Qed.

Lemma string_app_inj_l p s t : p +:+ s = p +:+ t -> s = t.
Proof. induction p as [|a p IH]; [done|]. rewrite !string_app_cons. intros H. injection H. exact IH. Qed.

Lemma strip_prefix_app p s : strip_prefix p (p +:+ s) = Some s.
Proof. induction p as [|a p IH]; [done|]. rewrite string_app_cons. cbn. by rewrite decide_True. Qed.

Lemma strip_prefix_Some p s r : strip_prefix p s = Some r -> s = p +:+ r.
Proof.
  revert s. induction p as [|a p IH]; intros [|b s]; cbn; intros H; simplify_eq; [done|done|].
  case_decide; [|done]. subst. rewrite string_app_cons. f_equal. by apply IH.
Qed.

Lemma starts_with_app p s : starts_with p (p +:+ s) = true.
Proof. unfold starts_with. rewrite strip_prefix_app. by apply bool_decide_eq_true. Qed.

Lemma starts_with_true p s : starts_with p s = true <-> exists r, s = p +:+ r.
Proof.
  unfold starts_with. rewrite bool_decide_eq_true. split.
  - intros [r Hr]. exists r. by apply strip_prefix_Some.
  - intros [r ->]. by rewrite strip_prefix_app.
Qed.

Lemma has_char_app c s t : has_char c (s +:+ t) = has_char c s || has_char c t.
Proof. induction s as [|a s IH]; [done|]. rewrite string_app_cons. cbn. by rewrite IH, orb_assoc. Qed.

Lemma split_once_app c l r :
  has_char c l = false -> split_once c (l +:+ String c r) = Some (l, r).
Proof.
  induction l as [|a l IH]; [rewrite string_app_nil_l; cbn; by rewrite decide_True|]. rewrite string_app_cons. cbn.
  intros [Ha Hl]%orb_false_iff. apply bool_decide_eq_false in Ha.
  rewrite decide_False by done. by rewrite IH.
Qed.

Lemma split_once_None c s : has_char c s = false -> split_once c s = None.
Proof.
  induction s as [|a s IH]; cbn; [done|].
  intros [Ha Hs]%orb_false_iff. apply bool_decide_eq_false in Ha.
  rewrite decide_False by done. by rewrite IH.
Qed.

Lemma rsplit_once_None c s : has_char c s = false -> rsplit_once c s = None.
Proof.
  induction s as [|a s IH]; cbn; [done|].
  intros [Ha Hs]%orb_false_iff. apply bool_decide_eq_false in Ha.
  rewrite IH by done. by rewrite decide_False.
Qed.

Lemma rsplit_once_app c l r :
  has_char c r = false -> rsplit_once c (l +:+ String c r) = Some (l, r).
Proof.
  intros Hr. induction l as [|a l IH]; [|rewrite string_app_cons]; cbn.
  - rewrite string_app_nil_l. cbn. rewrite rsplit_once_None by done. by rewrite decide_True.
  - by rewrite IH.
Qed.

Lemma rsplit_first_app c l r :
  has_char c r = false -> rsplit_first c (l +:+ String c r) = r.
Proof. intros Hr. unfold rsplit_first. by rewrite rsplit_once_app. Qed.

Lemma string_app_assoc s t u : (s +:+ t) +:+ u = s +:+ (t +:+ u).
Proof. induction s as [|a s IH]; [done|]. by rewrite !string_app_cons, IH. Qed.

(** ** Integers and their decimal text *)

Lemma digit_of_pretty x : (x < 10)%N -> digit_of (pretty_N_char x) = Some (Z.of_N x).
Proof.
  intros Hx. assert (Hn : (N.to_nat x < 10)%nat) by lia.
  rewrite <- (N2Nat.id x). remember (N.to_nat x) as n eqn:En. clear x Hx En.
  do 10 (destruct n as [|n]; [reflexivity|]). lia.
Qed.

Lemma digits_value_pretty x s : digits_value 0 (pretty_N_go x s) = digits_value (Z.of_N x) s.
Proof.
  revert s. induction (N.lt_wf_0 x) as [x _ IH]; intros s.
  destruct (decide (x = 0)%N) as [->|Hx]; [by rewrite pretty_N_go_0|].
  rewrite pretty_N_go_step by lia. rewrite IH by (apply N.div_lt; lia).
  cbn [digits_value]. rewrite digit_of_pretty by (apply N.mod_lt; done).
  cbn [mbind option_bind]. f_equal.
  pose proof (N.div_mod x 10). lia.
Qed.

Lemma n_of_string_pretty (x : N) : n_of_string (pretty x) = Some (Z.of_N x).
Proof.
  unfold pretty, pretty_N. destruct (decide (x = 0)%N) as [->|Hx]; [done|].
  unfold n_of_string. destruct (pretty_N_go x "") eqn:E.
  - pose proof (digits_value_pretty x "") as H. rewrite E in H. cbn in H. injection H. lia.
  - rewrite <- E. by rewrite digits_value_pretty.
Qed.

(** Printing and parsing an integer. *)
Lemma z_of_string_to_string n : z_of_string (z_to_string n) = Some n.
Proof.
  unfold z_to_string. destruct n as [|p|p]; [done| |].
  - change (pretty (Z.pos p)) with (pretty (N.pos p)).
    pose proof (n_of_string_pretty (N.pos p)) as H. unfold z_of_string.
    destruct (pretty (N.pos p)) as [|a s] eqn:E; [done|].
    rewrite decide_False; [done|]. intros ->.
    unfold pretty, pretty_N in E. cbn in E.
    by apply (pretty_N_go_ne_dash (N.pos p) "" s) in E.
  - change (pretty (Z.neg p)) with ("-" +:+ pretty (N.pos p)).
    rewrite string_app_cons, string_app_nil_l. cbn [z_of_string].
    rewrite decide_True by done. by rewrite n_of_string_pretty.
Qed.

Lemma digits_value_no_char c acc s v :
  digit_of c = None -> digits_value acc s = Some v -> has_char c s = false.
Proof.
  intros Hc. revert acc. induction s as [|a s IH]; intros acc; cbn; [done|].
  destruct (digit_of a) as [x|] eqn:Ha; cbn [mbind option_bind]; [|done]. intros H.
  rewrite (IH _ H), orb_false_r. apply bool_decide_eq_false. congruence.
Qed.

Lemma nat_to_string_no_char c n : digit_of c = None -> has_char c (z_to_string (Z.of_nat n)) = false.
Proof.
  intros Hc. rewrite <- nat_N_Z. unfold z_to_string.
  assert (pretty (Z.of_N (N.of_nat n)) = pretty (N.of_nat n)) as -> by by destruct (N.of_nat n).
  pose proof (n_of_string_pretty (N.of_nat n)) as H. unfold n_of_string in H.
  destruct (pretty (N.of_nat n)) eqn:E; [done|]. by eapply digits_value_no_char.
Qed.

Lemma parse_usize_to_string n : (Z.of_nat n <= u64_max)%Z -> parse_usize (z_to_string (Z.of_nat n)) = Some n.
Proof.
  intros Hn. pose proof (nat_to_string_no_char "+" n eq_refl) as Hp. unfold parse_usize.
  assert (n_of_string (z_to_string (Z.of_nat n)) = Some (Z.of_nat n)) as Hv.
  { rewrite <- nat_N_Z. unfold z_to_string.
    assert (pretty (Z.of_N (N.of_nat n)) = pretty (N.of_nat n)) as -> by by destruct (N.of_nat n).
    by rewrite n_of_string_pretty. }
  destruct (z_to_string (Z.of_nat n)) as [|a s]; [done|].
  cbn in Hp. apply orb_false_iff in Hp as [Ha _]. apply bool_decide_eq_false in Ha.
  rewrite decide_False by done. rewrite Hv. cbn. rewrite decide_True by done. by rewrite Nat2Z.id.
Qed.

Lemma substring_all s : String.substring 0 (String.length s) s = s.
Proof. induction s as [|a s IH]; cbn; [done|]. by rewrite IH. Qed.

Lemma char_boundary_end s : is_char_boundary (String.length s) s = true.
Proof.
  unfold is_char_boundary. rewrite bool_decide_true by lia. cbn [andb].
  assert (String.get (String.length s) s = None) as ->; [|done].
  by induction s as [|a s IH].
Qed.

(** ** Chunks *)

Fixpoint chunks_fuel {A} (fuel n : nat) (l : list A) : list (list A) :=
  match fuel, l with
  | S fuel', _ :: _ => take n l :: chunks_fuel fuel' n (drop n l)
  | _, _ => []
  end.
(** [slice::chunks]. *)
Definition chunks {A} (n : nat) (l : list A) : list (list A) := chunks_fuel (length l) n l.


Lemma concat_chunks {A} n (l : list A) : 0 < n -> concat (chunks n l) = l.
Proof.
  intros Hn. unfold chunks. assert (forall fuel (l : list A), length l <= fuel -> concat (chunks_fuel fuel n l) = l) as H.
  { induction fuel as [|fuel IH]; intros [|a m] Hm; cbn [chunks_fuel concat] in *; try done; cbn in Hm; [lia|].
    rewrite IH; [apply take_drop|]. rewrite length_drop. cbn [length]. lia. }
  by apply H.
Qed.
Lemma Forall_chunks {A} (P : A -> Prop) n l : Forall P l -> Forall (Forall P) (chunks n l).
Proof.
  unfold chunks. generalize (length l). intros fuel. revert l.
  induction fuel as [|fuel IH]; intros [|a l] Hl; cbn [chunks_fuel]; try done.
  constructor; [by apply Forall_take|]. apply IH. by apply Forall_drop.
Qed.
