(* ===== verification/Sorting.v ===== *)
(** * Comparators and stable sorting

    Rust's [Ordering] is [comparison]; [reverse] and [then_with] combine
    comparators. [TotalCmp] is what [sort_by] asks of a comparator, with
    instances for the combinators, so that every comparator of the program is
    one by instance search. [sort_by] is the stable sort of [slice::sort_by]. *)
From Stdlib Require Import QArith.
From S2P Require Import Prelude.
Open Scope nat_scope.

Definition cmp_reverse (c : comparison) : comparison := CompOpp c.
Definition cmp_then (c d : comparison) : comparison := match c with Eq => d | _ => c end.

(** [Option]'s order: [None] first. *)
Definition option_compare {A} (cmp : A -> A -> comparison) (a b : option A) : comparison :=
  match a, b with
  | None, None => Eq | None, Some _ => Lt | Some _, None => Gt | Some x, Some y => cmp x y
  end.

Class TotalCmp {A} (cmp : A -> A -> comparison) : Prop := {
  cmp_sym : forall x y, cmp y x = CompOpp (cmp x y);
  cmp_trans : forall x y z, cmp x y <> Gt -> cmp y z <> Gt -> cmp x z <> Gt;
}.

Section Comparators.
Context {A B : Type}.

#[export] Instance total_cmp_on (cmp : B -> B -> comparison) (f : A -> B) :
  TotalCmp cmp -> TotalCmp (fun a b => cmp (f a) (f b)).
Proof. intros [Hs Ht]. split; eauto. Qed.

#[export] Instance total_cmp_reverse (cmp : A -> A -> comparison) :
  TotalCmp cmp -> TotalCmp (fun a b => cmp_reverse (cmp a b)).
Proof.
  intros [Hs Ht]. unfold cmp_reverse. split; intros x y; [by rewrite Hs|]. intros z Hxy Hyz.
  rewrite <- Hs in *. eauto.
Qed.

Lemma cmp_refl (cmp : A -> A -> comparison) `{!TotalCmp cmp} x : cmp x x = Eq.
Proof. pose proof (cmp_sym x x) as H. by destruct (cmp x x). Qed.

Lemma cmp_eq_l (cmp : A -> A -> comparison) `{!TotalCmp cmp} x y z : cmp x y = Eq -> cmp x z = cmp y z.
Proof.
  pose proof (@cmp_sym _ cmp _) as Hs. pose proof (@cmp_trans _ cmp _) as Ht.
  intros E. assert (cmp y x = Eq) as E' by (by rewrite Hs, E).
  pose proof (Ht x y z) as H1. pose proof (Ht y x z) as H2. pose proof (Ht z x y) as H3. pose proof (Ht z y x) as H4.
  rewrite (Hs x z), (Hs y z) in H3. rewrite (Hs x z), (Hs y z) in H4.
  rewrite E in *. rewrite E' in *. destruct (cmp x z), (cmp y z); cbn in *; naive_solver.
Qed.

Lemma cmp_eq_r (cmp : A -> A -> comparison) `{!TotalCmp cmp} x y z : cmp y z = Eq -> cmp x y = cmp x z.
Proof.
  intros E. rewrite (cmp_sym y x), (cmp_sym z x). f_equal. by apply cmp_eq_l.
Qed.

#[export] Instance total_cmp_then (c d : A -> A -> comparison) :
  TotalCmp c -> TotalCmp d -> TotalCmp (fun a b => cmp_then (c a b) (d a b)).
Proof.
  intros Hc Hd. unfold cmp_then. split.
  - intros x y. rewrite (cmp_sym (cmp := c) x y), (cmp_sym (cmp := d) x y). by destruct (c x y).
  - intros x y z. pose proof (cmp_trans (cmp := c) x y z) as Ht.
    destruct (c x y) eqn:Exy; [rewrite (cmp_eq_l c x y z Exy)| |done].
    + destruct (c y z); [|done..]. apply cmp_trans.
    + intros _. destruct (c y z) eqn:Eyz; [rewrite <- (cmp_eq_r c x y z Eyz), Exy; done| |done].
      intros _. destruct (c x z) eqn:Exz; [|done|by intros ?; apply Ht].
      exfalso. rewrite (cmp_eq_l c x z y Exz), (cmp_sym y z), Eyz in Exy. done.
Qed.

#[export] Instance total_cmp_option (cmp : A -> A -> comparison) :
  TotalCmp cmp -> TotalCmp (option_compare cmp).
Proof.
  intros Hc. split; [intros [x|] [y|]; cbn; try done; apply cmp_sym|].
  intros [x|] [y|] [z|]; cbn; try done. apply cmp_trans.
Qed.
End Comparators.

#[export] Instance total_cmp_Z : TotalCmp Z.compare.
Proof. split; [intros; apply Z.compare_antisym|]. intros x y z. rewrite !Z.compare_ngt_iff. lia. Qed.
#[export] Instance total_cmp_nat : TotalCmp Nat.compare.
Proof. split; [intros; apply Nat.compare_antisym|]. intros x y z. rewrite !Nat.compare_ngt_iff. lia. Qed.

Lemma Qcompare_ngt x y : Qcompare x y <> Gt <-> Qle x y.
Proof. symmetry. apply Qle_alt. Qed.
#[export] Instance total_cmp_Q : TotalCmp Qcompare.
Proof.
  split; [intros x y; symmetry; apply Qcompare_antisym|].
  intros x y z. rewrite !Qcompare_ngt. apply Qle_trans.
Qed.

#[export] Instance total_cmp_ascii : TotalCmp Ascii.compare.
Proof.
  unfold Ascii.compare. split; [intros; apply N.compare_antisym|].
  intros x y z. rewrite !N.compare_ngt_iff. lia.
Qed.
Lemma string_compare_cons a s b t : String.compare (String a s) (String b t) =
  cmp_then (Ascii.compare a b) (String.compare s t).
Proof. cbn. by destruct (Ascii.compare a b). Qed.
#[export] Instance total_cmp_string : TotalCmp String.compare.
Proof.
  split; [intros; apply String.compare_antisym|].
  intros x. induction x as [|a x IH]; intros [|b y] [|c z]; try done.
  rewrite !string_compare_cons. unfold cmp_then. pose proof (cmp_trans a b c) as Ht.
  destruct (Ascii.compare a b) eqn:Eab; [rewrite (cmp_eq_l Ascii.compare a b c Eab)| |done].
  - destruct (Ascii.compare b c); [|done..]. apply IH.
  - intros _. destruct (Ascii.compare b c) eqn:Ebc; [rewrite <- (cmp_eq_r Ascii.compare a b c Ebc), Eab; done| |done].
    intros _. destruct (Ascii.compare a c) eqn:Eac; [|done|by intros ?; apply Ht].
    exfalso. rewrite (cmp_eq_l Ascii.compare a c b Eac), (cmp_sym b c), Ebc in Eab. done.
Qed.
Lemma string_compare_Eq s t : String.compare s t = Eq -> s = t.
Proof. apply String.compare_eq_iff. Qed.

(** ** Sorting *)
Section SortBy.
Context {A : Type} (cmp : A -> A -> comparison).

Fixpoint insert_by (x : A) (l : list A) : list A :=
  match l with
  | [] => [x]
  | y :: l' => match cmp x y with Gt => y :: insert_by x l' | _ => x :: y :: l' end
  end.
Definition sort_by (l : list A) : list A := foldr insert_by [] l.

Definition cmp_le (a b : A) : Prop := cmp a b <> Gt.

Lemma insert_by_perm x l : insert_by x l ≡ₚ x :: l.
Proof.
  induction l as [|y l IH]; cbn; [done|]. destruct (cmp x y); [done..|]. rewrite IH. constructor.
Qed.
Lemma sort_by_perm l : sort_by l ≡ₚ l.
Proof. induction l as [|x l IH]; cbn; [done|]. by rewrite insert_by_perm, IH. Qed.

Context `{!TotalCmp cmp}.

#[local] Instance cmp_le_trans : Transitive cmp_le.
Proof. intros x y z. apply cmp_trans. Qed.

Lemma insert_by_sorted x l : StronglySorted cmp_le l -> StronglySorted cmp_le (insert_by x l).
Proof.
  induction 1 as [|y l Hs IH Hy]; cbn; [repeat constructor|].
  destruct (cmp x y) eqn:E.
  1,2: constructor; [by constructor|]; constructor; [by unfold cmp_le; rewrite E|];
    eapply Forall_impl; [exact Hy|]; intros z Hz; etrans; [|exact Hz]; unfold cmp_le; by rewrite E.
  constructor; [done|]. rewrite insert_by_perm. constructor; [|done].
  unfold cmp_le. by rewrite cmp_sym, E.
Qed.
Lemma sort_by_sorted l : StronglySorted cmp_le (sort_by l).
Proof. induction l as [|x l IH]; cbn; [constructor|by apply insert_by_sorted]. Qed.

(** When no two elements tie, the result does not depend on the input's order. *)
Lemma sort_by_unique l l' : (forall a b, a ∈ l -> b ∈ l -> cmp a b = Eq -> a = b) ->
  l ≡ₚ l' -> sort_by l = sort_by l'.
Proof.
  intros Htie Hp. apply (StronglySorted_unique_strong cmp_le); [|apply sort_by_sorted..|by rewrite !sort_by_perm].
  intros a b Ha Hb Hab Hba. rewrite sort_by_perm in Ha. rewrite sort_by_perm, <- Hp in Hb.
  apply Htie; [done..|]. unfold cmp_le in *. rewrite cmp_sym in Hba. by destruct (cmp a b).
Qed.

(** Elements that tie keep their order. *)
Lemma insert_by_stable x l y : filter (fun z => cmp y z = Eq) (insert_by x l) = filter (fun z => cmp y z = Eq) (x :: l).
Proof.
  induction l as [|z l IH]; cbn [insert_by]; [done|]. destruct (cmp x z) eqn:E; [done..|].
  rewrite !filter_cons, IH, filter_cons.
  destruct (decide (cmp y z = Eq)) as [Ez|Ez], (decide (cmp y x = Eq)) as [Ex|Ex]; try done.
  exfalso. rewrite <- (cmp_eq_l cmp y x z Ex), Ez in E. done.
Qed.
Lemma sort_by_stable l y : filter (fun z => cmp y z = Eq) (sort_by l) = filter (fun z => cmp y z = Eq) l.
Proof.
  induction l as [|x l IH]; cbn [sort_by foldr]; [done|]. rewrite insert_by_stable, !filter_cons.
  fold (sort_by l). by rewrite IH.
Qed.
End SortBy.

(** [Vec::dedup]: consecutive repetitions. *)
Fixpoint dedup {A} `{EqDecision A} (l : list A) : list A :=
  match l with
  | [] => []
  | x :: l' =>
      match l' with
      | [] => [x]
      | y :: _ => if decide (x = y) then dedup l' else x :: dedup l'
      end
  end.

Lemma elem_of_dedup {A} `{EqDecision A} (l : list A) a : a ∈ dedup l <-> a ∈ l.
Proof.
  induction l as [|x l IH]; [done|]. destruct l as [|y l]; [done|].
  change (dedup (x :: y :: l)) with (if decide (x = y) then dedup (y :: l) else x :: dedup (y :: l)).
  case_decide as E.
  - subst. rewrite IH, !elem_of_cons. tauto.
  - rewrite !(elem_of_cons _ a x), IH. tauto.
Qed.
