(* ===== verification/Errors.v ===== *)
(** * Errors ([oxana/src/error.rs]) and the error values of the Redis client

    The third-party error types are kept at the detail the program inspects:
    whether a Redis error is an I/O error and which server error kind it has
    ([transient_payload_read_error]), and whether a pool error is a checkout
    timeout or carries a backend error. *)
From S2P Require Import Prelude.

(** The [redis::ErrorKind::Server] kinds the program matches on. *)
Inductive ServerErrorKind :=
| BusyLoading
| TryAgain
| ClusterDown
| MasterDown
| OtherServerError.

Record RedisError := {
  is_io_error : bool;
  error_kind : option ServerErrorKind;   (* [None]: not a [Server] kind *)
}.

(** The reply to a command on a key that holds another type. *)
Definition wrongtype : RedisError :=
  {| is_io_error := false; error_kind := Some OtherServerError |}.

Inductive PoolError :=
| PoolTimeout
| PoolBackend (e : RedisError)
| PoolOther.

Inductive OxanaError :=
| ShutdownTimeout
| GenericError (msg : string)
| JobNotFound
| JsonError (msg : string)
| SemaphoreError
| JobFactoryError (msg : string)
| TokioJoinError (cancelled : bool)
| TryFromIntError
| StdIoError
| DeadpoolRedisError (e : RedisError)
| DeadpoolRedisPoolError (e : PoolError)
| DeadpoolRedisCreatePoolError
| DeadpoolRedisConfigError
| DeadpoolRedisBuildError
| ConfigError (msg : string)
| JobStateJsonError (msg : string)
(** Not a value of the program: a bounded loop of the model that has used up
    its rounds and is still running. *)
| StillRunning.

#[export] Instance server_error_kind_eq_dec : EqDecision ServerErrorKind.
Proof. solve_decision. Defined.
#[export] Instance redis_error_eq_dec : EqDecision RedisError.
Proof. solve_decision. Defined.
#[export] Instance pool_error_eq_dec : EqDecision PoolError.
Proof. solve_decision. Defined.
#[export] Instance oxana_error_eq_dec : EqDecision OxanaError.
Proof. solve_decision. Defined.

(** [transient_payload_read_error] of [storage_internal.rs]. *)
Definition transient_redis_error (e : RedisError) : bool :=
  is_io_error e
  || match error_kind e with
     | Some (BusyLoading | TryAgain | ClusterDown | MasterDown) => true
     | _ => false
     end.

Definition transient_payload_read_error (error : OxanaError) : bool :=
  match error with
  | DeadpoolRedisPoolError PoolTimeout => true
  | DeadpoolRedisError e | DeadpoolRedisPoolError (PoolBackend e) => transient_redis_error e
  | _ => false
  end.
