(* ===== verification/Redis.v ===== *)
(** * Redis: the server the program runs against, and client programs

    Redis and its connection pool are not part of the program. They enter the
    development as a parameter: a [RedisServer] is any state type with an
    execution function for the commands the program sends, and
    [LawfulRedis] states the documented behaviour the program relies on: what
    each command answers and how it changes the keyspace ([documented]).
    Programs are values of [prog], a free monad over the events they issue, so
    that the same definition can be run on any server ([run]), be stepped one
    atomic event at a time ([client_step]), and be inspected
    ([safe], and [guarded] of [Events]). [run_documented] transfers every fact about a run on the
    documented keyspace to every lawful server. *)
From S2P Require Import Prelude Errors.

(** ** The keyspace *)

Inductive rtype := TNone | TString | THash | TList | TZset.

#[export] Instance rtype_eq_dec : EqDecision rtype.
Proof. solve_decision. Defined.

(** Scores are the integers the program stores: microsecond timestamps (far
    below 2^53, which Redis's doubles represent exactly) in the schedule and
    retry sets, milliseconds in the process set (the program stores seconds
    with a millisecond fraction). A string the program uses as an array of
    16-bit counters (BITFIELD) is [VBits]. *)
Inductive rval :=
| VString (s : string)
| VBits (fields : gmap nat Z)
| VHash (h : gmap string string)
| VList (l : list string)
| VZset (z : gmap string Z).

#[export] Instance rval_eq_dec : EqDecision rval.
Proof. solve_decision. Defined.

Abbreviation keyspace := (gmap string rval).

Definition type_at (ks : keyspace) (k : string) : rtype :=
  match ks !! k with
  | None => TNone
  | Some (VString _ | VBits _) => TString
  | Some (VHash _) => THash
  | Some (VList _) => TList
  | Some (VZset _) => TZset
  end.

(** The aggregate at a key; a missing key reads as the empty aggregate and a
    key of another type as [None] (WRONGTYPE). *)
Definition hash_at (ks : keyspace) (k : string) : option (gmap string string) :=
  match ks !! k with None => Some ∅ | Some (VHash h) => Some h | Some _ => None end.
Definition list_at (ks : keyspace) (k : string) : option (list string) :=
  match ks !! k with None => Some [] | Some (VList l) => Some l | Some _ => None end.
Definition zset_at (ks : keyspace) (k : string) : option (gmap string Z) :=
  match ks !! k with None => Some ∅ | Some (VZset z) => Some z | Some _ => None end.

Definition bits_at (ks : keyspace) (k : string) : option (gmap nat Z) :=
  match ks !! k with None => Some ∅ | Some (VBits b) => Some b | Some _ => None end.

(** Writing an aggregate back: Redis removes a key whose aggregate is empty. *)
Definition put_hash (k : string) (h : gmap string string) (ks : keyspace) : keyspace :=
  if decide (h = ∅) then delete k ks else <[k := VHash h]> ks.
Definition put_list (k : string) (l : list string) (ks : keyspace) : keyspace :=
  match l with [] => delete k ks | _ => <[k := VList l]> ks end.
Definition put_zset (k : string) (z : gmap string Z) (ks : keyspace) : keyspace :=
  if decide (z = ∅) then delete k ks else <[k := VZset z]> ks.

(** ** Documented list and sorted-set operations *)

(** LREM removes the first [n] occurrences; [n = 0] removes all of them. *)
Fixpoint lrem_first (n : nat) (x : string) (l : list string) : list string :=
  match n, l with
  | O, _ => l
  | _, [] => []
  | S n', y :: l' => if decide (y = x) then lrem_first n' x l' else y :: lrem_first n x l'
  end.

Definition lrem (n : nat) (x : string) (l : list string) : list string :=
  match n with O => filter (λ y, y ≠ x) l | _ => lrem_first n x l end.

(** LRANGE and LTRIM indices: inclusive, negative from the end. *)
Definition lrange (start stop : Z) (l : list string) : list string :=
  let len := Z.of_nat (length l) in
  let s := if (start <? 0)%Z then Z.max 0 (len + start) else start in
  let e := if (stop <? 0)%Z then (len + stop)%Z else stop in
  if ((e <? s) || (len <=? s))%Z then []
  else take (Z.to_nat (e - s + 1)) (drop (Z.to_nat s) l).

Definition lindex (i : Z) (l : list string) : option string :=
  let len := Z.of_nat (length l) in
  let j := if (i <? 0)%Z then (len + i)%Z else i in
  if ((j <? 0) || (len <=? j))%Z then None else l !! Z.to_nat j.

(** RPOPLPUSH as LMOVE src dst RIGHT LEFT: the tail of [src]. *)
Definition unsnoc (l : list string) : option (list string * string) :=
  match reverse l with [] => None | x :: r => Some (reverse r, x) end.

(** Sorted sets are ordered by score, then by member. *)
Definition zle (a b : string * Z) : Prop :=
  (a.2 < b.2)%Z ∨ (a.2 = b.2 ∧ String.leb a.1 b.1 = true).
#[export] Instance zle_dec : RelDecision zle.
Proof. intros a b. unfold zle. apply _. Defined.

Definition zset_sorted (z : gmap string Z) : list (string * Z) :=
  merge_sort zle (map_to_list z).

(** ZRANGE by index; as [lrange] on the ordered members. *)
Definition zrange_pairs (start stop : Z) (z : gmap string Z) : list (string * Z) :=
  let l := zset_sorted z in
  let len := Z.of_nat (length l) in
  let s := if (start <? 0)%Z then Z.max 0 (len + start) else start in
  let e := if (stop <? 0)%Z then (len + stop)%Z else stop in
  if ((e <? s) || (len <=? s))%Z then []
  else take (Z.to_nat (e - s + 1)) (drop (Z.to_nat s) l).

Definition zrangebyscore_pairs (lo hi : Z) (z : gmap string Z) : list (string * Z) :=
  filter (λ p : string * Z, (lo <= p.2)%Z ∧ (p.2 <= hi)%Z) (zset_sorted z).

(** BITFIELD OVERFLOW SAT INCRBY u16: unsigned saturation. *)
Definition sat_incr (b : gmap nat Z) (p : nat * Z) : gmap nat Z :=
  <[p.1 := Z.max 0 (Z.min (2 ^ 16 - 1) (default 0%Z (b !! p.1) + p.2))]> b.

(** Glob patterns of SCAN: a star matches any text, a question mark any one
    character, a backslash quotes the next character; bracketed classes are
    not used by the program's own patterns and are taken literally. *)
Fixpoint glob_match (p s : string) {struct p} : bool :=
  match p with
  | EmptyString => bool_decide (s = EmptyString)
  | String c p' =>
      if decide (c = "*"%char) then
        (fix star (s : string) : bool :=
           glob_match p' s || match s with EmptyString => false | String _ s' => star s' end) s
      else if decide (c = "?"%char) then
        match s with EmptyString => false | String _ s' => glob_match p' s' end
      else if decide (c = "\"%char) then
        match p' with
        | EmptyString => bool_decide (s = p)
        | String q p'' =>
            match s with
            | EmptyString => false
            | String a s' => bool_decide (a = q) && glob_match p'' s'
            end
        end
      else match s with
           | EmptyString => false
           | String a s' => bool_decide (a = c) && glob_match p' s'
           end
  end.

Lemma length_zset_sorted (z : gmap string Z) : length (zset_sorted z) = size z.
Proof. unfold zset_sorted. by rewrite merge_sort_Permutation, length_map_to_list. Qed.

(** ** Commands, scripts and client events *)

(** The commands the program and its Lua scripts send, indexed by the type of
    the reply they decode. *)
Inductive rcmd : Type -> Type :=
| TYPE (k : string) : rcmd rtype
| EXISTS (k : string) : rcmd bool
| DEL (k : string) : rcmd unit
| RENAME (k k' : string) : rcmd unit
| HGET (k f : string) : rcmd (option string)
| HMGET (k : string) (fs : list string) : rcmd (list (option string))
| HEXISTS (k f : string) : rcmd bool
| HSET (k f v : string) : rcmd unit
| HSETM (k : string) (fvs : list (string * string)) : rcmd unit
| HDEL (k : string) (fs : list string) : rcmd unit
| HLEN (k : string) : rcmd nat
| HGETALL (k : string) : rcmd (list (string * string))
| LPUSH (k v : string) : rcmd unit
| RPUSH (k : string) (vs : list string) : rcmd unit
| LRANGE (k : string) (start stop : Z) : rcmd (list string)
| LLEN (k : string) : rcmd nat
| LINDEX (k : string) (i : Z) : rcmd (option string)
| LREM (k : string) (n : nat) (v : string) : rcmd unit
| LTRIM (k : string) (start stop : Z) : rcmd unit
| LPOS (k v : string) : rcmd bool
| LMOVE (src dst : string) : rcmd (option string)
| ZADD (k : string) (score : Z) (m : string) : rcmd unit
| ZREM (k m : string) : rcmd unit
| ZSCORE (k m : string) : rcmd (option Z)
| ZCARD (k : string) : rcmd nat
| ZRANGE (k : string) (start stop : Z) : rcmd (list (string * Z))
| ZRANGEBYSCORE (k : string) (lo hi : Z) : rcmd (list (string * Z))
| ZADDM (k : string) (members : list (Z * string)) : rcmd nat
| ZREMRANGEBYSCORE (k : string) (lo hi : Z) : rcmd unit
| PEXPIRE (k : string) (ms : Z) : rcmd unit
| HINCRBY (k f : string) (n : Z) : rcmd unit
| HSCAN (k : string) (cursor : Z) : rcmd (Z * list (string * string))
| BITFIELD_INCR (k : string) (incrs : list (nat * Z)) : rcmd unit
| BITFIELD_GET (k : string) (fields : list nat) : rcmd (list Z)
| EXPIRE (k : string) (secs : Z) : rcmd unit
| SCAN (pattern : string) : rcmd (list string).

(** A Lua script: [redis.call] raises on an error reply and the script stops,
    keeping the writes it has made; [LError] is [return redis.error_reply]. *)
Inductive lua (A : Type) : Type :=
| LRet (a : A)
| LError (e : RedisError)
| LCall {X : Type} (c : rcmd X) (k : X -> lua A).
Arguments LRet {A} a.
Arguments LError {A} e.
Arguments LCall {A X} c k.

Fixpoint lbind {A B} (s : lua A) (f : A -> lua B) : lua B :=
  match s with
  | LRet a => f a
  | LError e => LError e
  | LCall c k => LCall c (fun x => lbind (k x) f)
  end.

(** Which pool checkout an operation makes: [connection], [stats_connection]
    or [claimed_connection] with its operation name. *)
Inductive checkout := Primary | StatsPool | Claimed (operation : string).

(** What a client issues, each atomic on the server: a pool checkout, one
    command, an EVALSHA, or a MULTI/EXEC block of commands whose replies are
    ignored. *)
Inductive event : Type -> Type :=
| Checkout (c : checkout) : event unit
| Cmd {X : Type} (c : rcmd X) : event X
| Script {X : Type} (s : lua X) : event X
| Multi (cs : list (rcmd unit)) : event unit.

Inductive prog (A : Type) : Type :=
| Ret (a : A)
| Op {X : Type} (e : event X) (k : result OxanaError X -> prog A).
Arguments Ret {A} a.
Arguments Op {A X} e k.

Fixpoint pbind {A B} (p : prog A) (f : A -> prog B) : prog B :=
  match p with
  | Ret a => f a
  | Op e k => Op e (fun r => pbind (k r) f)
  end.

(** A fallible program; [try] is [.await?]. *)
Abbreviation rprog A := (prog (result OxanaError A)).

Definition try {A B} (p : rprog A) (f : A -> rprog B) : rprog B :=
  pbind p (fun r => match r with Ok a => f a | Err e => Ret (Err e) end).

Definition lift {A} (r : result OxanaError A) : rprog A := Ret r.
Definition perform {X} (e : event X) : rprog X := Op e Ret.
Definition call {X} (c : rcmd X) : rprog X := perform (Cmd c).

Declare Scope prog_scope.
Delimit Scope prog_scope with prog.
Notation "x <- c ;; k" := (pbind c (fun x => k))
  (at level 100, c at next level, right associativity) : prog_scope.
Notation "x <-? c ;; k" := (try c (fun x => k))
  (at level 100, c at next level, right associativity) : prog_scope.

Declare Scope lua_scope.
Delimit Scope lua_scope with lua.
Notation "x <~ c ;; k" := (LCall c (fun x => k))
  (at level 100, c at next level, right associativity) : lua_scope.
Notation "c ;;~ k" := (LCall c (fun _ => k))
  (at level 100, right associativity) : lua_scope.

(** A non-atomic pipeline: every command is sent and executed, each one its
    own event, and the first error reply is the pipeline's result. *)
Fixpoint pipe (cs : list (rcmd unit)) : rprog unit :=
  match cs with
  | [] => Ret (Ok tt)
  | c :: cs' =>
      Op (Cmd c) (fun r =>
        pbind (pipe cs') (fun r' =>
          Ret (match r with Ok _ => r' | Err e => Err e end)))
  end.

(** A non-atomic pipeline of queries, their replies in order. *)
Fixpoint pipe_query {X} (cs : list (rcmd X)) : rprog (list X) :=
  match cs with
  | [] => Ret (Ok [])
  | c :: cs' =>
      Op (Cmd c) (fun r =>
        pbind (pipe_query cs') (fun r' => Ret (res_bind r (fun x => res_map (cons x) r'))))
  end.

(** ** The documented behaviour of the commands *)

Definition read_hash {X} (k : string) (ks : keyspace) (f : gmap string string -> X)
    : result RedisError X * keyspace :=
  match hash_at ks k with None => (Err wrongtype, ks) | Some h => (Ok (f h), ks) end.
Definition read_list {X} (k : string) (ks : keyspace) (f : list string -> X)
    : result RedisError X * keyspace :=
  match list_at ks k with None => (Err wrongtype, ks) | Some l => (Ok (f l), ks) end.
Definition read_zset {X} (k : string) (ks : keyspace) (f : gmap string Z -> X)
    : result RedisError X * keyspace :=
  match zset_at ks k with None => (Err wrongtype, ks) | Some z => (Ok (f z), ks) end.

Definition write_hash (k : string) (ks : keyspace) (f : gmap string string -> gmap string string)
    : result RedisError unit * keyspace :=
  match hash_at ks k with
  | None => (Err wrongtype, ks) | Some h => (Ok tt, put_hash k (f h) ks) end.
Definition write_list (k : string) (ks : keyspace) (f : list string -> list string)
    : result RedisError unit * keyspace :=
  match list_at ks k with
  | None => (Err wrongtype, ks) | Some l => (Ok tt, put_list k (f l) ks) end.
Definition write_zset (k : string) (ks : keyspace) (f : gmap string Z -> gmap string Z)
    : result RedisError unit * keyspace :=
  match zset_at ks k with
  | None => (Err wrongtype, ks) | Some z => (Ok tt, put_zset k (f z) ks) end.

(** The reply to RENAME of a missing key. *)
Definition no_such_key : RedisError :=
  {| is_io_error := false; error_kind := Some OtherServerError |}.

(** The reply to HINCRBY on a field that is not an integer. *)
Definition not_an_integer : RedisError :=
  {| is_io_error := false; error_kind := Some OtherServerError |}.

(** The number a hash field holds; a missing field counts as 0. *)
Definition hash_int (v : option string) : option Z :=
  match v with None => Some 0%Z | Some s => z_of_string s end.

Definition hset_all (fvs : list (string * string)) (h : gmap string string) : gmap string string :=
  foldl (λ h p, <[p.1 := p.2]> h) h fvs.
Definition hdel_all (fs : list string) (h : gmap string string) : gmap string string :=
  foldl (λ h f, delete f h) h fs.

Definition lmove (src dst : string) (ks : keyspace) : result RedisError (option string) * keyspace :=
  match list_at ks src with
  | None => (Err wrongtype, ks)
  | Some l =>
      match unsnoc l with
      | None => (Ok None, ks)
      | Some (l', x) =>
          let ks' := put_list src l' ks in
          match list_at ks' dst with
          | None => (Err wrongtype, ks)
          | Some m => (Ok (Some x), put_list dst (x :: m) ks')
          end
      end
  end.

Definition documented {X} (c : rcmd X) (ks : keyspace) : result RedisError X * keyspace :=
  match c in rcmd X return result RedisError X * keyspace with
  | TYPE k => (Ok (type_at ks k), ks)
  | EXISTS k => (Ok (bool_decide (is_Some (ks !! k))), ks)
  | DEL k => (Ok tt, delete k ks)
  | RENAME k k' =>
      match ks !! k with
      | None => (Err no_such_key, ks)
      | Some v => (Ok tt, <[k' := v]> (delete k ks))
      end
  | HGET k f => read_hash k ks (λ h, h !! f)
  | HMGET k fs => read_hash k ks (λ h, (λ f, h !! f) <$> fs)
  | HEXISTS k f => read_hash k ks (λ h, bool_decide (is_Some (h !! f)))
  | HSET k f v => write_hash k ks (<[f := v]>)
  | HSETM k fvs => write_hash k ks (hset_all fvs)
  | HDEL k fs => write_hash k ks (hdel_all fs)
  | HLEN k => read_hash k ks size
  | HGETALL k => read_hash k ks map_to_list
  | LPUSH k v => write_list k ks (cons v)
  | RPUSH k vs => write_list k ks (λ l, l ++ vs)
  | LRANGE k start stop => read_list k ks (lrange start stop)
  | LLEN k => read_list k ks length
  | LINDEX k i => read_list k ks (lindex i)
  | LREM k n v => write_list k ks (lrem n v)
  | LTRIM k start stop => write_list k ks (lrange start stop)
  | LPOS k v => read_list k ks (λ l, bool_decide (v ∈ l))
  | LMOVE src dst => lmove src dst ks
  | ZADD k score m => write_zset k ks (<[m := score]>)
  | ZREM k m => write_zset k ks (delete m)
  | ZSCORE k m => read_zset k ks (λ z, z !! m)
  | ZCARD k => read_zset k ks size
  | ZRANGE k start stop => read_zset k ks (zrange_pairs start stop)
  | ZRANGEBYSCORE k lo hi => read_zset k ks (zrangebyscore_pairs lo hi)
  | ZADDM k members =>
      match zset_at ks k with
      | None => (Err wrongtype, ks)
      | Some z =>
          let z' := foldl (λ z p, <[p.2 := p.1]> z) z members in
          (Ok (size z' - size z), put_zset k z' ks)
      end
  | ZREMRANGEBYSCORE k lo hi =>
      write_zset k ks (filter (λ p : string * Z, ¬ ((lo <= p.2)%Z ∧ (p.2 <= hi)%Z)))
  | PEXPIRE k ms => (Ok tt, ks)
  | HINCRBY k f n =>
      match hash_at ks k with
      | None => (Err wrongtype, ks)
      | Some h =>
          match hash_int (h !! f) with
          | None => (Err not_an_integer, ks)
          | Some v => (Ok tt, put_hash k (<[f := z_to_string (v + n)]> h) ks)
          end
      end
  | HSCAN k cursor => read_hash k ks (λ h, (0%Z, map_to_list h))
  | BITFIELD_INCR k incrs =>
      match bits_at ks k with
      | None => (Err wrongtype, ks)
      | Some b => (Ok tt, <[k := VBits (foldl sat_incr b incrs)]> ks)
      end
  | BITFIELD_GET k fields =>
      match bits_at ks k with
      | None => (Err wrongtype, ks)
      | Some b => (Ok ((λ i, default 0%Z (b !! i)) <$> fields), ks)
      end
  | EXPIRE k secs => (Ok tt, ks)
  | SCAN p => (Ok (filter (λ k, glob_match p k = true) (map_to_list ks).*1), ks)
  end.

(** ** Servers *)

Class RedisServer := {
  db : Type;
  view : db -> keyspace;
  exec : forall X, rcmd X -> db -> result RedisError X * db;
  take_connection : checkout -> db -> result OxanaError unit * db;
}.
Arguments exec {_ X} c d.

(** What the program relies on: commands answer and act as documented, and a
    checkout hands out a connection and leaves the data alone. *)
Class LawfulRedis (R : RedisServer) : Prop := {
  exec_documented : forall X (c : rcmd X) (d : db),
    (fst (exec c d), view (snd (exec c d))) = documented c (view d);
  checkout_succeeds : forall c (d : db), fst (take_connection c d) = Ok tt;
  checkout_view : forall c (d : db), view (snd (take_connection c d)) = view d;
}.

(** The documented keyspace as a server of its own. *)
#[export] Instance MemRedis : RedisServer := {|
  db := keyspace;
  view := id;
  exec := fun X c ks => documented c ks;
  take_connection := fun _ ks => (Ok tt, ks);
|}.

#[export] Instance mem_lawful : LawfulRedis MemRedis.
Proof.
  constructor; [|done|done].
  intros X c d. cbn. by destruct (documented c d).
Qed.

(** ** Running programs *)

Section Running.
Context {R : RedisServer}.

Fixpoint run_lua {A} (s : lua A) (d : db) : result RedisError A * db :=
  match s with
  | LRet a => (Ok a, d)
  | LError e => (Err e, d)
  | LCall c k =>
      match exec c d with
      | (Ok x, d') => run_lua (k x) d'
      | (Err e, d') => (Err e, d')
      end
  end.

Fixpoint run_multi (cs : list (rcmd unit)) (d : db) : result RedisError unit * db :=
  match cs with
  | [] => (Ok tt, d)
  | c :: cs' =>
      let '(r, d') := exec c d in
      let '(r', d'') := run_multi cs' d' in
      (match r with Ok _ => r' | Err e => Err e end, d'')
  end.

Definition run_event {X} (e : event X) : db -> result OxanaError X * db :=
  match e in event X return db -> result OxanaError X * db with
  | Checkout c => take_connection c
  | Cmd c => fun d => let '(r, d') := exec c d in (map_err DeadpoolRedisError r, d')
  | Script s => fun d => let '(r, d') := run_lua s d in (map_err DeadpoolRedisError r, d')
  | Multi cs => fun d => let '(r, d') := run_multi cs d in (map_err DeadpoolRedisError r, d')
  end.

Fixpoint run {A} (p : prog A) (d : db) : A * db :=
  match p with
  | Ret a => (a, d)
  | Op e k => let '(r, d') := run_event e d in run (k r) d'
  end.
End Running.

(** Runs on the documented keyspace. *)
Abbreviation run_doc := (@run MemRedis _).
Abbreviation script_doc := (@run_lua MemRedis _).

(** ** Faulty, interleaved execution

  [client_step] is one atomic event of one client on the documented
  keyspace. The event may take effect and answer, take effect and lose its
  answer, or fail before it is executed; a client that stops stepping has
  crashed. *)
Definition lost_reply : OxanaError :=
DeadpoolRedisError {| is_io_error := true; error_kind := None |}.

Inductive client_step {A} : prog A * keyspace -> prog A * keyspace -> Prop :=
| step_answered X (e : event X) k ks r ks' :
  @run_event MemRedis _ e ks = (r, ks') ->
  client_step (Op e k, ks) (k r, ks')
| step_reply_lost X (e : event X) k ks r ks' :
  @run_event MemRedis _ e ks = (r, ks') ->
  client_step (Op e k, ks) (k (Err lost_reply), ks')
| step_not_sent X (e : event X) k ks :
  client_step (Op e k, ks) (k (Err lost_reply), ks).

(** A system of clients over one keyspace: any client may take the next step,
  clients come and go. *)
Inductive clients_step {A} : list (prog A) * keyspace -> list (prog A) * keyspace -> Prop :=
| clients_one ps1 p p' ps2 ks ks' :
  client_step (p, ks) (p', ks') ->
  clients_step (ps1 ++ p :: ps2, ks) (ps1 ++ p' :: ps2, ks')
| clients_crash ps1 p ps2 ks :
  clients_step (ps1 ++ p :: ps2, ks) (ps1 ++ ps2, ks).

(** ** Programs that keep an invariant

    [preserves I e]: the event takes keyspaces with [I] to keyspaces with [I].
    [safe I p]: so does every event [p] issues, for every reply it may have
    received: one the server can give in a keyspace with [I], or a lost one. *)
Definition preserves (I : keyspace -> Prop) {X : Type} (e : event X) : Prop :=
  forall ks, I ks -> I (snd (@run_event MemRedis _ e ks)).

Definition possible_reply (I : keyspace -> Prop) {X : Type} (e : event X) (r : result OxanaError X) : Prop :=
  r = Err lost_reply \/ exists ks, I ks /\ r = fst (@run_event MemRedis _ e ks).

Fixpoint safe (I : keyspace -> Prop) {A} (p : prog A) : Prop :=
  match p with
  | Ret _ => True
  | Op e k => preserves I e /\ forall r, possible_reply I e r -> safe I (k r)
  end.

(** ** Lemmas *)

Section RunLemmas.
Context {R : RedisServer}.

Lemma run_pbind {A B} (p : prog A) (f : A -> prog B) d :
run (pbind p f) d = let '(a, d') := run p d in run (f a) d'.
Proof.
revert d. induction p as [a|X e k IH]; intros d; cbn; [done|].
destruct (run_event e d) as [r d']. apply IH.
Qed.

Lemma run_try {A B} (p : rprog A) (f : A -> rprog B) d :
run (try p f) d =
  match run p d with (Ok a, d') => run (f a) d' | (Err e, d') => (Err e, d') end.
Proof. unfold try. rewrite run_pbind. by destruct (run p d) as [[a|e] d']. Qed.

Lemma run_lua_lbind {A B} (s : lua A) (f : A -> lua B) d :
run_lua (lbind s f) d =
  match run_lua s d with (Ok a, d') => run_lua (f a) d' | (Err e, d') => (Err e, d') end.
Proof.
revert d. induction s as [a|e|X c k IH]; intros d; cbn; [done|done|].
destruct (exec c d) as [[x|e] d']; [apply IH | done].
Qed.

Context {L : LawfulRedis R}.

Lemma exec_ok_view {X} (c : rcmd X) d :
exec c d = (fst (documented c (view d)), snd (exec c d)) /\
view (snd (exec c d)) = snd (documented c (view d)).
Proof.
pose proof (exec_documented X c d) as H.
destruct (exec c d) as [r d'], (documented c (view d)) as [r' ks'].
cbn in *. by simplify_eq.
Qed.

Lemma run_lua_documented {A} (s : lua A) d :
(fst (run_lua s d), view (snd (run_lua s d))) = script_doc s (view d).
Proof.
revert d. induction s as [a|e|X c k IH]; intros d; cbn; [done|done|].
destruct (exec_ok_view c d) as [Heq Hv].
destruct (exec c d) as [r d'], (documented c (view d)) as [r' ks']. cbn in *.
simplify_eq. destruct r'; [apply IH | done].
Qed.

Lemma run_multi_documented cs d :
(fst (run_multi cs d), view (snd (run_multi cs d))) = @run_multi MemRedis cs (view d).
Proof.
revert d. induction cs as [|c cs IH]; intros d; cbn; [done|].
destruct (exec_ok_view c d) as [Heq Hv].
destruct (exec c d) as [r d'], (documented c (view d)) as [r' ks']. cbn in *.
simplify_eq. specialize (IH d').
destruct (run_multi cs d') as [s d''], (@run_multi MemRedis cs (view d')) as [s' ks''].
cbn in *. by simplify_eq.
Qed.

Lemma run_event_documented {X} (e : event X) d :
(fst (run_event e d), view (snd (run_event e d))) = @run_event MemRedis _ e (view d).
Proof.
destruct e as [c|X c|X s|cs]; cbn.
- pose proof (checkout_succeeds c d) as H1. pose proof (checkout_view c d) as H2.
  destruct (take_connection c d) as [r d']. cbn in *. by rewrite H1, H2.
- destruct (exec_ok_view c d) as [Heq Hv].
  destruct (exec c d), (documented c (view d)). cbn in *. by simplify_eq.
- pose proof (run_lua_documented s d) as H.
  destruct (run_lua s d), (script_doc s (view d)). cbn in *. by simplify_eq.
- pose proof (run_multi_documented cs d) as H.
  destruct (run_multi cs d), (@run_multi MemRedis cs (view d)). cbn in *. by simplify_eq.
Qed.

(** Every run on a lawful server is the run on the documented keyspace. *)
Lemma run_documented {A} (p : prog A) d :
(fst (run p d), view (snd (run p d))) = run_doc p (view d).
Proof.
revert d. induction p as [a|X e k IH]; intros d; cbn; [done|].
pose proof (run_event_documented e d) as H.
destruct (run_event e d) as [r d'], (@run_event MemRedis _ e (view d)) as [r' ks'].
cbn in *. simplify_eq. apply IH.
Qed.

Lemma run_transfer {A} (p : prog A) d a ks' :
run_doc p (view d) = (a, ks') -> exists d', run p d = (a, d') /\ view d' = ks'.
Proof.
intros H. rewrite <- run_documented in H. injection H as <- <-.
exists (snd (run p d)). split; [by destruct (run p d) | done].
Qed.
End RunLemmas.

Section Safe.
Variable I : keyspace -> Prop.

Lemma safe_pbind {A B} (p : prog A) (f : A -> prog B) :
  safe I p -> (forall a, safe I (f a)) -> safe I (pbind p f).
Proof. intros Hp Hf. induction p as [a|X e k IH]; cbn in *; [done|]. naive_solver. Qed.

Lemma safe_try {A B} (p : rprog A) (f : A -> rprog B) :
  safe I p -> (forall a, safe I (f a)) -> safe I (try p f).
Proof. intros Hp Hf. apply safe_pbind; [done|]. intros [a|e]; [apply Hf | done]. Qed.

Lemma safe_perform {X} (e : event X) : preserves I e -> safe I (perform e).
Proof. done. Qed.

(** A step whose answer carries information about the keyspaces with [I]. *)
Lemma safe_perform_try {X B} (e : event X) (f : X -> rprog B) :
  preserves I e ->
  (forall x ks, I ks -> fst (@run_event MemRedis _ e ks) = Ok x -> safe I (f x)) ->
  safe I (try (perform e) f).
Proof.
  intros He Hf. cbn. split; [done|]. intros r [->|(ks & HI & ->)]; [done|].
  destruct (fst (@run_event MemRedis _ e ks)) eqn:E; [by eapply Hf | done].
Qed.

Lemma preserves_checkout c : preserves I (Checkout c).
Proof. by intros ks HI. Qed.

(** A command that leaves the keyspace alone. *)
Definition reads {X} (c : rcmd X) : Prop := forall ks, snd (documented c ks) = ks.

Lemma preserves_read {X} (c : rcmd X) : reads c -> preserves I (Cmd c).
Proof.
  intros Hc ks HI. cbn. specialize (Hc ks). destruct (documented c ks) as [r ks'].
  cbn in *. by subst.
Qed.

Lemma safe_pipe cs : Forall (fun c => preserves I (Cmd c)) cs -> safe I (pipe cs).
Proof.
  induction 1 as [|c cs Hc _ IH]; cbn; [done|]. split; [done|]. intros r _.
  by apply safe_pbind.
Qed.

(** A client whose every event preserves an invariant keeps it along every
    interleaving, with lost replies, unsent commands and crashes. *)
Lemma client_step_safe {A} (p p' : prog A) ks ks' :
  safe I p -> I ks -> client_step (p, ks) (p', ks') -> I ks' /\ safe I p'.
Proof.
  intros Hp HI Hc. inversion Hc as [X e k ? r ? Hrun|X e k ? r ? Hrun|X e k ?]; subst; cbn in Hp;
    destruct Hp as [He Hk].
  1,2: pose proof (He ks HI) as HI'; rewrite Hrun in HI'; split; [done|]; apply Hk.
  - right. exists ks. by rewrite Hrun.
  - by left.
  - split; [done|]. apply Hk. by left.
Qed.

Lemma clients_invariant {A} (ps ps' : list (prog A)) ks ks' :
  Forall (safe I) ps -> I ks ->
  rtc clients_step (ps, ks) (ps', ks') ->
  I ks' /\ Forall (safe I) ps'.
Proof.
  intros Hps HI Hrtc. remember (ps, ks) as s eqn:Es. remember (ps', ks') as s' eqn:Es'.
  revert ps ks Es Hps HI. induction Hrtc as [s|s s1 s2 Hstep _ IH]; intros ps ks -> Hps HI.
  { by simplify_eq. }
  destruct s1 as [ps1 ks1].
  assert (I ks1 /\ Forall (safe I) ps1) as [? ?]; [|by eapply IH].
  inversion Hstep as [psl p p' psr ? ? Hc|psl p psr ?]; subst;
    apply Forall_app in Hps as [Hl [Hp Hr]%Forall_cons].
  - destruct (client_step_safe _ _ _ _ Hp HI Hc). split; [done|].
    apply Forall_app. split; [done|]. by constructor.
  - split; [done|]. by apply Forall_app.
Qed.
End Safe.

(** A run without faults is one of the interleavings. *)
Lemma run_is_interleaving {A} (p : prog A) ks :
  rtc clients_step ([p], ks) ([Ret (fst (run_doc p ks))], snd (run_doc p ks)).
Proof.
  revert ks. induction p as [a|X e k IH]; intros ks; cbn; [apply rtc_refl|].
  destruct (@run_event MemRedis _ e ks) as [r ks'] eqn:E. eapply rtc_l; [|apply IH].
  apply (clients_one [] _ _ []). by apply step_answered.
Qed.

Lemma reads_read_hash {X} k (f : gmap string string -> X) ks : snd (read_hash k ks f) = ks.
Proof. unfold read_hash. by destruct (hash_at ks k). Qed.
Lemma reads_read_list {X} k (f : list string -> X) ks : snd (read_list k ks f) = ks.
Proof. unfold read_list. by destruct (list_at ks k). Qed.
Lemma reads_read_zset {X} k (f : gmap string Z -> X) ks : snd (read_zset k ks f) = ks.
Proof. unfold read_zset. by destruct (zset_at ks k). Qed.

(** ** Evaluating programs on the documented keyspace *)

Lemma run_call {X} (c : rcmd X) ks :
  run_doc (call c) ks = (map_err DeadpoolRedisError (fst (documented c ks)), snd (documented c ks)).
Proof. cbn. by destruct (documented c ks). Qed.

Lemma run_script {X} (s : lua X) ks :
  run_doc (perform (Script s)) ks =
    (map_err DeadpoolRedisError (fst (script_doc s ks)), snd (script_doc s ks)).
Proof. cbn. by destruct (script_doc s ks). Qed.

Lemma run_checkout c ks : run_doc (perform (Checkout c)) ks = (Ok tt, ks).
Proof. done. Qed.

Lemma script_call {A X} (c : rcmd X) (k : X -> lua A) ks :
  script_doc (LCall c k) ks =
    match documented c ks with
    | (Ok x, ks') => script_doc (k x) ks'
    | (Err e, ks') => (Err e, ks')
    end.
Proof. done. Qed.

Section Replies.
Implicit Types (ks : keyspace) (k : string).

Lemma read_hash_ok {X} k ks (f : _ -> X) h : hash_at ks k = Some h -> read_hash k ks f = (Ok (f h), ks).
Proof. unfold read_hash. by intros ->. Qed.
Lemma read_list_ok {X} k ks (f : _ -> X) l : list_at ks k = Some l -> read_list k ks f = (Ok (f l), ks).
Proof. unfold read_list. by intros ->. Qed.
Lemma read_zset_ok {X} k ks (f : _ -> X) z : zset_at ks k = Some z -> read_zset k ks f = (Ok (f z), ks).
Proof. unfold read_zset. by intros ->. Qed.
Lemma write_hash_ok k ks f h : hash_at ks k = Some h -> write_hash k ks f = (Ok tt, put_hash k (f h) ks).
Proof. unfold write_hash. by intros ->. Qed.
Lemma write_list_ok k ks f l : list_at ks k = Some l -> write_list k ks f = (Ok tt, put_list k (f l) ks).
Proof. unfold write_list. by intros ->. Qed.
Lemma write_zset_ok k ks f z : zset_at ks k = Some z -> write_zset k ks f = (Ok tt, put_zset k (f z) ks).
Proof. unfold write_zset. by intros ->. Qed.
End Replies.

(** ** Reading back what was written *)

Section PutLookup.
Implicit Types (ks : keyspace) (k : string).

Lemma lookup_put_hash_ne k k' h ks : k <> k' -> put_hash k h ks !! k' = ks !! k'.
Proof. intros. unfold put_hash. case_decide; by simplify_map_eq. Qed.
Lemma lookup_put_list_ne k k' l ks : k <> k' -> put_list k l ks !! k' = ks !! k'.
Proof. intros. unfold put_list. destruct l; by simplify_map_eq. Qed.
Lemma lookup_put_zset_ne k k' z ks : k <> k' -> put_zset k z ks !! k' = ks !! k'.
Proof. intros. unfold put_zset. case_decide; by simplify_map_eq. Qed.

Lemma hash_at_put_hash k h ks : hash_at (put_hash k h ks) k = Some h.
Proof. unfold hash_at, put_hash. case_decide; simplify_map_eq; done. Qed.
Lemma list_at_put_list k l ks : list_at (put_list k l ks) k = Some l.
Proof. unfold list_at, put_list. destruct l; by simplify_map_eq. Qed.
Lemma zset_at_put_zset k z ks : zset_at (put_zset k z ks) k = Some z.
Proof. unfold zset_at, put_zset. case_decide; simplify_map_eq; done. Qed.

Lemma at_lookup k ks ks' :
ks !! k = ks' !! k ->
hash_at ks k = hash_at ks' k /\ list_at ks k = list_at ks' k /\
zset_at ks k = zset_at ks' k /\ type_at ks k = type_at ks' k.
Proof. intros H. unfold hash_at, list_at, zset_at, type_at. by rewrite H. Qed.

Section Ne.
Context (k k' : string) (Hne : k <> k') (h : gmap string string) (l : list string)
(z : gmap string Z) (ks : keyspace).

Lemma hash_at_put_hash_ne : hash_at (put_hash k h ks) k' = hash_at ks k'.
Proof. by apply at_lookup, lookup_put_hash_ne. Qed.
Lemma hash_at_put_list_ne : hash_at (put_list k l ks) k' = hash_at ks k'.
Proof. by apply at_lookup, lookup_put_list_ne. Qed.
Lemma hash_at_put_zset_ne : hash_at (put_zset k z ks) k' = hash_at ks k'.
Proof. by apply at_lookup, lookup_put_zset_ne. Qed.
Lemma list_at_put_hash_ne : list_at (put_hash k h ks) k' = list_at ks k'.
Proof. by apply at_lookup, lookup_put_hash_ne. Qed.
Lemma list_at_put_list_ne : list_at (put_list k l ks) k' = list_at ks k'.
Proof. by apply at_lookup, lookup_put_list_ne. Qed.
Lemma list_at_put_zset_ne : list_at (put_zset k z ks) k' = list_at ks k'.
Proof. by apply at_lookup, lookup_put_zset_ne. Qed.
Lemma zset_at_put_hash_ne : zset_at (put_hash k h ks) k' = zset_at ks k'.
Proof. by apply at_lookup, lookup_put_hash_ne. Qed.
Lemma zset_at_put_list_ne : zset_at (put_list k l ks) k' = zset_at ks k'.
Proof. by apply at_lookup, lookup_put_list_ne. Qed.
Lemma zset_at_put_zset_ne : zset_at (put_zset k z ks) k' = zset_at ks k'.
Proof. by apply at_lookup, lookup_put_zset_ne. Qed.
End Ne.

(** The type test of the scripts' preflight. *)
Definition type_ok (actual expected : rtype) : bool :=
bool_decide (actual = TNone \/ actual = expected).

Lemma type_ok_hash ks k : type_ok (type_at ks k) THash = true <-> is_Some (hash_at ks k).
Proof.
unfold type_ok, type_at, hash_at. rewrite bool_decide_eq_true.
destruct (ks !! k) as [[]|]; split; (intros [?|?] || intros [? ?] || intros ?); simplify_eq; eauto.
Qed.
Lemma type_ok_list ks k : type_ok (type_at ks k) TList = true <-> is_Some (list_at ks k).
Proof.
unfold type_ok, type_at, list_at. rewrite bool_decide_eq_true.
destruct (ks !! k) as [[]|]; split; (intros [?|?] || intros [? ?] || intros ?); simplify_eq; eauto.
Qed.
Lemma type_ok_zset ks k : type_ok (type_at ks k) TZset = true <-> is_Some (zset_at ks k).
Proof.
unfold type_ok, type_at, zset_at. rewrite bool_decide_eq_true.
destruct (ks !! k) as [[]|]; split; (intros [?|?] || intros [? ?] || intros ?); simplify_eq; eauto.
Qed.
End PutLookup.

Create HintDb keys.

(** [ks_simp] evaluates reads after writes; distinctness of keys comes from the
hint database [keys] and the context. *)
Ltac key_ne := first [ assumption | apply not_eq_sym; assumption
             | solve [auto with keys] | solve [apply not_eq_sym; auto with keys] ].
Ltac ks_simp :=
repeat first
[ rewrite hash_at_put_hash | rewrite list_at_put_list | rewrite zset_at_put_zset
| rewrite hash_at_put_hash_ne by key_ne | rewrite hash_at_put_list_ne by key_ne
| rewrite hash_at_put_zset_ne by key_ne | rewrite list_at_put_hash_ne by key_ne
| rewrite list_at_put_list_ne by key_ne | rewrite list_at_put_zset_ne by key_ne
| rewrite zset_at_put_hash_ne by key_ne | rewrite zset_at_put_list_ne by key_ne
| rewrite zset_at_put_zset_ne by key_ne
| rewrite lookup_put_hash_ne by key_ne | rewrite lookup_put_list_ne by key_ne
| rewrite lookup_put_zset_ne by key_ne ].

(** ** List facts *)

Lemma elem_of_lrem_first n x y l : y <> x -> y ∈ lrem_first n x l <-> y ∈ l.
Proof.
intros Hne. revert n. induction l as [|z l IH]; intros [|n]; cbn; try done.
case_decide; subst; rewrite ?elem_of_cons, ?IH; naive_solver.
Qed.

Lemma elem_of_lrem n x y l : y <> x -> y ∈ lrem n x l <-> y ∈ l.
Proof.
intros Hne. destruct n; cbn [lrem]; [|by apply elem_of_lrem_first].
rewrite list_elem_of_filter. naive_solver.
Qed.

Lemma elem_of_lrem_all x y l : y ∈ lrem 0 x l <-> y <> x /\ y ∈ l.
Proof. cbn [lrem]. by rewrite list_elem_of_filter. Qed.

Lemma lrem_not_elem n x l : x ∉ l -> lrem n x l = l.
Proof.
intros Hx. destruct n; cbn [lrem].
- induction l as [|z l IH]; [done|]. rewrite filter_cons_True by set_solver. f_equal. set_solver.
- revert n Hx. induction l as [|z l IH]; intros n Hx; cbn; [done|].
rewrite decide_False by set_solver. f_equal. set_solver.
Qed.

Lemma unsnoc_Some l l' x : unsnoc l = Some (l', x) -> l = l' ++ [x].
Proof.
unfold unsnoc. destruct (reverse l) as [|y r] eqn:E; intros H; simplify_eq.
apply (f_equal reverse) in E. by rewrite reverse_involutive, reverse_cons in E.
Qed.

Lemma unsnoc_None l : unsnoc l = None -> l = [].
Proof.
unfold unsnoc. destruct (reverse l) as [|y r] eqn:E; intros H; simplify_eq.
apply (f_equal reverse) in E. by rewrite reverse_involutive in E.
Qed.

Lemma unsnoc_snoc l x : unsnoc (l ++ [x]) = Some (l, x).
Proof. unfold unsnoc. rewrite reverse_snoc. by rewrite reverse_involutive. Qed.

(** A count of occurrences. *)
Definition occurrences (x : string) (l : list string) : nat := length (filter (λ y, y = x) l).

Lemma occurrences_cons x y l :
occurrences x (y :: l) = (if decide (y = x) then 1 else 0) + occurrences x l.
Proof. unfold occurrences. rewrite filter_cons. by case_decide. Qed.

Lemma occurrences_app x l l' : occurrences x (l ++ l') = occurrences x l + occurrences x l'.
Proof. unfold occurrences. by rewrite filter_app, length_app. Qed.

Lemma occurrences_pos x l : x ∈ l <-> 0 < occurrences x l.
Proof.
induction l as [|y l IH]; [split; [by intros ?%elem_of_nil | cbn; lia]|].
rewrite occurrences_cons, elem_of_cons. case_decide; [split; [lia|by left] | naive_solver].
Qed.

Lemma occurrences_lrem1 x y l :
occurrences y (lrem 1 x l) = occurrences y l - (if decide (x = y) then 1 else 0).
Proof.
cbn [lrem]. induction l as [|z l IH]; cbn [lrem_first]; [by case_decide|].
destruct (decide (z = x)) as [->|Hzx]; cbn [lrem_first].
- rewrite occurrences_cons. destruct l; cbn [lrem_first]; repeat case_decide; simplify_eq; lia.
- rewrite !occurrences_cons, IH. repeat case_decide; simplify_eq; lia.
Qed.

Lemma occurrences_foldl_lrem x ids l :
occurrences x (foldl (λ l id, lrem 1 id l) l ids) = occurrences x l - occurrences x ids.
Proof.
revert l. induction ids as [|y ids IH]; intros l; cbn [foldl]; [cbn; lia|].
rewrite IH, occurrences_lrem1, occurrences_cons. lia.
Qed.

Lemma hdel_all_lookup fs f (h : gmap string string) :
  hdel_all fs h !! f = if decide (f ∈ fs) then None else h !! f.
Proof.
  unfold hdel_all. revert h. induction fs as [|x fs IH]; intros h; cbn; [done|]. rewrite IH.
  repeat case_decide; try done; try set_solver.
  - destruct (decide (f = x)) as [->|]; [by simplify_map_eq|set_solver].
  - rewrite lookup_delete_ne; [done|set_solver].
Qed.

Lemma length_lrange_le start stop l : length (lrange start stop l) <= length l.
Proof.
unfold lrange. case_match; [cbn; lia|]. rewrite length_take, length_drop. lia.
Qed.

(** LTRIM 0 (n-1) keeps the first [n]. *)
Lemma lrange_prefix n l : (0 < n)%Z -> lrange 0 (n - 1) l = take (Z.to_nat n) l.
Proof.
intros Hn. unfold lrange. cbn [Z.ltb Z.compare].
replace (n - 1 <? 0)%Z with false by (symmetry; apply Z.ltb_ge; lia).
replace (n - 1 - 0 + 1)%Z with n by lia. cbn [Z.to_nat drop].
destruct l as [|x l]; [by rewrite orb_true_r, take_nil|].
replace (Z.of_nat (length (x :: l)) <=? 0)%Z with false
by (symmetry; apply Z.leb_gt; cbn; lia).
by replace (n - 1 <? 0)%Z with false by (symmetry; apply Z.ltb_ge; lia).
Qed.

Lemma lrange_all l : lrange 0 (-1) l = l.
Proof.
unfold lrange. cbn [Z.ltb Z.compare]. destruct l as [|x l]; [done|].
set (len := Z.of_nat (length (x :: l))).
assert (1 <= len)%Z by (unfold len; cbn; lia).
replace ((len + -1 <? 0) || (len <=? 0))%Z with false
by (symmetry; apply orb_false_iff; split; [apply Z.ltb_ge | apply Z.leb_gt]; lia).
cbn [Z.to_nat drop]. apply take_ge. unfold len. lia.
Qed.

(** ** Stepping through scripts and programs

    [doc_cmd] evaluates the command at the head of the goal from the facts
    about the aggregates in the context; [lua_step] enters a script's next
    call first. *)
Ltac at_fact := solve [ks_simp; first [eassumption | reflexivity]].
Ltac doc_cmd :=
  first [ erewrite read_hash_ok by at_fact | erewrite read_list_ok by at_fact
        | erewrite read_zset_ok by at_fact | erewrite write_hash_ok by at_fact
        | erewrite write_list_ok by at_fact | erewrite write_zset_ok by at_fact ].
Ltac lua_step := rewrite script_call; cbn [documented]; doc_cmd.

(** Two keyspaces that differ only at some keys. *)
Definition same_except (touched : list string) (ks ks' : keyspace) : Prop :=
  forall k, k ∉ touched -> ks' !! k = ks !! k.

Lemma same_except_refl l ks : same_except l ks ks.
Proof. done. Qed.
Lemma same_except_trans l ks1 ks2 ks3 :
  same_except l ks1 ks2 -> same_except l ks2 ks3 -> same_except l ks1 ks3.
Proof. intros H1 H2 k Hk. by rewrite H2, H1. Qed.
Lemma same_except_weaken l l' ks ks' : same_except l ks ks' -> l ⊆ l' -> same_except l' ks ks'.
Proof. intros H Hl k Hk. apply H. set_solver. Qed.
Lemma same_except_hash k h l ks ks' :
  k ∈ l -> same_except l ks ks' -> same_except l ks (put_hash k h ks').
Proof. intros Hk H k' Hk'. rewrite lookup_put_hash_ne by set_solver. by apply H. Qed.
Lemma same_except_list k x l ks ks' :
  k ∈ l -> same_except l ks ks' -> same_except l ks (put_list k x ks').
Proof. intros Hk H k' Hk'. rewrite lookup_put_list_ne by set_solver. by apply H. Qed.
Lemma same_except_zset k z l ks ks' :
  k ∈ l -> same_except l ks ks' -> same_except l ks (put_zset k z ks').
Proof. intros Hk H k' Hk'. rewrite lookup_put_zset_ne by set_solver. by apply H. Qed.

(** [frame] closes goals about which keys a sequence of writes touches. *)
Ltac frame :=
  repeat first [ apply same_except_refl
               | apply same_except_hash; [set_solver|]
               | apply same_except_list; [set_solver|]
               | apply same_except_zset; [set_solver|]
               | eassumption ].

(** ** Runs on any server

    [yields p d a post]: on the server in state [d], [p] answers [a] and
    leaves a keyspace with [post]. *)
Definition yields {R : RedisServer} {A} (p : prog A) (d : db) (a : A) (post : keyspace -> Prop) : Prop :=
  exists d', run p d = (a, d') /\ post (view d').

Lemma yields_doc {R : RedisServer} {L : LawfulRedis R} {A} (p : prog A) d a (post : keyspace -> Prop) :
  (exists ks', run_doc p (view d) = (a, ks') /\ post ks') -> yields p d a post.
Proof.
  intros (ks' & Hrun & Hpost). destruct (run_transfer p d a ks' Hrun) as (d' & Hd & Hv).
  exists d'. by rewrite Hv.
Qed.

Lemma yields_bind {R : RedisServer} {A B} (p : prog A) (f : A -> prog B) d a b (post post' : keyspace -> Prop) :
  yields p d a post -> (forall d', post (view d') -> yields (f a) d' b post') -> yields (pbind p f) d b post'.
Proof.
  intros (d1 & Hrun & Hpost) Hf. destruct (Hf d1 Hpost) as (d2 & Hrun2 & Hpost2).
  exists d2. split; [|done]. by rewrite run_pbind, Hrun.
Qed.

Lemma yields_ret {R : RedisServer} {A} (a : A) d (post : keyspace -> Prop) : post (view d) -> yields (Ret a) d a post.
Proof. intros H. by exists d. Qed.

Lemma run_lift {A} (r : result OxanaError A) (ks : keyspace) : run_doc (lift r) ks = (r, ks).
Proof. done. Qed.

Lemma run_perform {X} (e : event X) (ks : keyspace) : run_doc (perform e) ks = @run_event MemRedis _ e ks.
Proof. cbn. by destruct (@run_event MemRedis _ e ks). Qed.

(** [run_simp] runs a program to its next script or branch; commands on
    aggregates the context knows are evaluated. *)
Ltac run_simp :=
  repeat first
    [ rewrite run_try | rewrite run_checkout | rewrite run_lift
    | progress cbn [fst snd map_err documented res_map res_bind default from_option]
    | rewrite run_call; cbn [documented]; doc_cmd | rewrite run_script ].
