(* ===== verification/Events.v ===== *)
(** * Judgements about the events of a program

    [guarded I ok p]: every event [p] issues satisfies [ok], for every reply
    that may have come before: one the server can give in a keyspace with [I],
    or a lost one. Instances are read-only programs ([read_only]) and programs
    that respect the types of the keys (module Typing). *)
From S2P Require Import Prelude Errors Redis.

Section Guarded.
Variables (I : keyspace -> Prop) (ok : forall X, event X -> Prop).

Fixpoint guarded {A} (p : prog A) : Prop :=
  match p with
  | Ret _ => True
  | Op e k => ok _ e /\ forall r, possible_reply I e r -> guarded (k r)
  end.

Lemma guarded_ret {A} (a : A) : guarded (Ret a).
Proof. done. Qed.
Lemma guarded_lift {A} (r : result OxanaError A) : guarded (lift r).
Proof. done. Qed.
Lemma guarded_pbind {A B} (p : prog A) (f : A -> prog B) :
  guarded p -> (forall a, guarded (f a)) -> guarded (pbind p f).
Proof. intros Hp Hf. induction p as [a|X e k IH]; cbn in *; [done|]. naive_solver. Qed.
Lemma guarded_try {A B} (p : rprog A) (f : A -> rprog B) :
  guarded p -> (forall a, guarded (f a)) -> guarded (try p f).
Proof. intros Hp Hf. apply guarded_pbind; [done|]. intros [a|e]; [apply Hf|done]. Qed.
Lemma guarded_lift_try {A B} (r : result OxanaError A) (f : A -> rprog B) :
  (forall a, r = Ok a -> guarded (f a)) -> guarded (try (lift r) f).
Proof. intros Hf. destruct r; [by apply Hf|done]. Qed.
Lemma guarded_perform {X} (e : event X) : ok X e -> guarded (perform e).
Proof. done. Qed.
Lemma guarded_call {X} (c : rcmd X) : ok X (Cmd c) -> guarded (call c).
Proof. done. Qed.

(** What a reply tells about the keyspaces with [I]. *)
Lemma guarded_reply {X B} (e : event X) (f : result OxanaError X -> prog B) (Q : X -> Prop) :
  ok X e -> (forall x ks, I ks -> fst (@run_event MemRedis _ e ks) = Ok x -> Q x) ->
  (forall r, (forall x, r = Ok x -> Q x) -> guarded (f r)) -> guarded (pbind (perform e) f).
Proof.
  intros He HQ Hf. cbn. split; [done|]. intros r [->|(ks & HI & ->)]; apply Hf; [done|]. eauto.
Qed.
Lemma guarded_reply_try {X B} (e : event X) (f : X -> rprog B) (Q : X -> Prop) :
  ok X e -> (forall x ks, I ks -> fst (@run_event MemRedis _ e ks) = Ok x -> Q x) ->
  (forall x, Q x -> guarded (f x)) -> guarded (try (perform e) f).
Proof. intros He HQ Hf. apply (guarded_reply _ _ Q); [done..|]. intros [x|err] H; [by apply Hf, H|done]. Qed.

Lemma guarded_pipe cs : Forall (fun c => ok unit (Cmd c)) cs -> guarded (pipe cs).
Proof. induction 1 as [|c cs Hc _ IH]; cbn; [done|]. split; [done|]. intros r _. by apply guarded_pbind. Qed.
Lemma guarded_pipe_query {X} (cs : list (rcmd X)) : Forall (fun c => ok X (Cmd c)) cs -> guarded (pipe_query cs).
Proof. induction 1 as [|c cs Hc _ IH]; cbn; [done|]. split; [done|]. intros r _. by apply guarded_pbind. Qed.

(** When such events keep [I], it holds in every interleaving, and every
    client's next event is one of them. *)
Hypothesis ok_preserves : forall X (e : event X), ok X e -> preserves I e.

Lemma client_step_guarded {A} (p p' : prog A) ks ks' :
  guarded p -> I ks -> client_step (p, ks) (p', ks') -> I ks' /\ guarded p'.
Proof.
  intros Hp HI Hc. inversion Hc as [X e k ? r ? Hrun|X e k ? r ? Hrun|X e k ?]; subst; cbn in Hp; destruct Hp as [He Hk].
  1,2: pose proof (ok_preserves _ e He ks HI) as HI'; rewrite Hrun in HI'; split; [done|]; apply Hk.
  - right. exists ks. by rewrite Hrun.
  - by left.
  - split; [done|]. apply Hk. by left.
Qed.

Lemma clients_guarded {A} (s s' : list (prog A) * keyspace) :
  rtc clients_step s s' -> Forall guarded s.1 -> I s.2 -> Forall guarded s'.1 /\ I s'.2.
Proof.
  induction 1 as [s|s s1 s2 Hstep _ IH]; [done|]. intros Hps HI.
  assert (Forall guarded s1.1 /\ I s1.2) as [? ?]; [|by apply IH].
  inversion Hstep as [psl p p' psr ? ? Hc|psl p psr ?]; subst; cbn in *;
    apply Forall_app in Hps as [Hl [Hp Hr]%Forall_cons].
  - destruct (client_step_guarded _ _ _ _ Hp HI Hc). split; [|done]. apply Forall_app. split; [done|by constructor].
  - split; [|done]. by apply Forall_app.
Qed.
End Guarded.

Lemma guarded_impl (I : keyspace -> Prop) (ok ok' : forall X, event X -> Prop) {A} (p : prog A) :
  (forall X (e : event X), ok X e -> ok' X e) -> guarded I ok p -> guarded I ok' p.
Proof. intros H. induction p as [a|X e k IH]; cbn; [done|]. naive_solver. Qed.

(** [guarded] with what holds of the answer: [Q], at every end of the program. *)
Section Ensures.
Variables (I : keyspace -> Prop) (ok : forall X, event X -> Prop).

Fixpoint ensures {A} (p : prog A) (Q : A -> Prop) : Prop :=
  match p with
  | Ret a => Q a
  | Op e k => ok _ e /\ forall r, possible_reply I e r -> ensures (k r) Q
  end.

Lemma ensures_guarded {A} (p : prog A) Q : ensures p Q -> guarded I ok p.
Proof. induction p as [a|X e k IH]; cbn; naive_solver. Qed.
Lemma guarded_ensures {A} (p : prog A) (Q : A -> Prop) : guarded I ok p -> (forall a, Q a) -> ensures p Q.
Proof. intros Hp HQ. induction p as [a|X e k IH]; cbn in *; [done|]. naive_solver. Qed.
Lemma ensures_bind {A B} (p : prog A) (f : A -> prog B) Q Q' :
  ensures p Q -> (forall a, Q a -> ensures (f a) Q') -> ensures (pbind p f) Q'.
Proof. intros Hp Hf. induction p as [a|X e k IH]; cbn in *; [auto|]. naive_solver. Qed.
Lemma ensures_weaken {A} (p : prog A) (Q Q' : A -> Prop) : ensures p Q -> (forall a, Q a -> Q' a) -> ensures p Q'.
Proof. intros Hp HQ. induction p as [a|X e k IH]; cbn in *; [auto|]. naive_solver. Qed.
(** An error ends a [try]: of it, [Q'] must hold anyway. *)
Lemma ensures_try {A B} (p : rprog A) (f : A -> rprog B) Q Q' :
  ensures p Q -> (forall a, Q (Ok a) -> ensures (f a) Q') -> (forall e, Q' (Err e)) -> ensures (try p f) Q'.
Proof. intros Hp Hf He. eapply ensures_bind; [exact Hp|]. intros [a|e] Ha; [by apply Hf|by cbn]. Qed.
Lemma guarded_after {A B} (p : prog A) (f : A -> prog B) Q :
  ensures p Q -> (forall a, Q a -> guarded I ok (f a)) -> guarded I ok (pbind p f).
Proof. intros Hp Hf. induction p as [a|X e k IH]; cbn in *; [auto|]. naive_solver. Qed.
Lemma guarded_after_try {A B} (p : rprog A) (f : A -> rprog B) Q :
  ensures p Q -> (forall a, Q (Ok a) -> guarded I ok (f a)) -> guarded I ok (try p f).
Proof. intros Hp Hf. eapply guarded_after; [exact Hp|]. intros [a|e] Ha; [by apply Hf|done]. Qed.
End Ensures.

(** [walk side op] goes through a program: sequences, branches, the events
    [side] accepts and the operations [op] knows. *)
Ltac walk_step side op :=
  match goal with
  | |- guarded _ _ (Ret _) => done
  | |- guarded _ _ (lift _) => done
  | |- guarded _ _ (try (lift _) _) => apply guarded_lift_try; intros
  | |- guarded _ _ (try _ _) => apply guarded_try; [|intros]
  | |- guarded _ _ (pbind _ _) => apply guarded_pbind; [|intros]
  | |- guarded _ _ (perform _) => apply guarded_perform; side
  | |- guarded _ _ (call _) => apply guarded_call; side
  | |- guarded _ _ (pipe _) => apply guarded_pipe; side
  | |- guarded _ _ (pipe_query _) => apply guarded_pipe_query; side
  | |- guarded _ _ (match ?x with _ => _ end) => destruct x eqn:?
  | |- guarded _ _ _ => op
  end.
Ltac walk side op := repeat walk_step side op.

(** ** Programs that only read *)

Definition is_read {X} (c : rcmd X) : bool :=
  match c with
  | TYPE _ | EXISTS _ | HGET _ _ | HMGET _ _ | HEXISTS _ _ | HLEN _ | HGETALL _ | LRANGE _ _ _ | LLEN _ | LINDEX _ _
  | LPOS _ _ | ZSCORE _ _ | ZCARD _ | ZRANGE _ _ _ | ZRANGEBYSCORE _ _ _ | HSCAN _ _ | BITFIELD_GET _ _ | SCAN _ => true
  | _ => false
  end.

Lemma is_read_reads {X} (c : rcmd X) : is_read c = true -> reads c.
Proof.
  destruct c; try discriminate; intros _ ks; cbn;
    rewrite ?reads_read_hash, ?reads_read_list, ?reads_read_zset; try done. by destruct (bits_at ks k).
Qed.

Definition event_reads {X} (e : event X) : Prop :=
  match e with Checkout _ => True | Cmd c => is_read c = true | Script _ | Multi _ => False end.

Definition read_only {A} (p : prog A) : Prop := guarded (fun _ => True) (@event_reads) p.

Lemma event_reads_same {X} (e : event X) ks : event_reads e -> snd (@run_event MemRedis _ e ks) = ks.
Proof.
  destruct e as [c|X c|X s|cs]; cbn; try done. intros Hc%is_read_reads. specialize (Hc ks).
  destruct (documented c ks). by cbn in *.
Qed.

(** A read-only program leaves every lawful server's data alone. *)
Lemma read_only_keeps {R : RedisServer} {L : LawfulRedis R} {A} (p : prog A) (d : db) :
  read_only p -> view (snd (run p d)) = view d.
Proof.
  intros Hp. pose proof (run_documented p d) as H. apply (f_equal snd) in H. cbn in H. rewrite H. clear H.
  generalize (view d) as ks. unfold read_only in Hp. induction p as [a|X e k IH]; intros ks; cbn [run]; [done|].
  destruct Hp as [He Hk]. pose proof (event_reads_same e ks He) as Hs.
  destruct (@run_event MemRedis _ e ks) as [r ks'] eqn:E. cbn in Hs. subst ks'. apply IH, Hk.
  right. exists ks. by rewrite E.
Qed.

Create HintDb read_only.
Ltac read_only_side := idtac; first [reflexivity | done | solve [repeat constructor]
  | solve [apply Forall_fmap, Forall_true; done]].
(** [reads] proves that a program only reads, given its operations' lemmas. *)
Ltac known_read_only := idtac; match goal with |- guarded _ _ ?p => change (read_only p); solve [eauto with read_only] end.
Ltac reads := unfold read_only; walk read_only_side known_read_only.
