(* ===== verification/Envelope.v ===== *)
(** * Jobs and their envelopes ([job_envelope.rs], the [Job] trait of [worker.rs])

    A job type enters as a [Job]: the values its trait implementation
    returns. Clock readings and fresh UUIDs are arguments of the functions
    that take them. The JSON codec (serde and serde_json) is the parameter
    [Serde] with the documented facts [LawfulSerde]. *)
From S2P Require Import Prelude Errors.

(** ** JSON values *)

(** [serde_json::Value]; a number is an integer or the text of a float. *)
Inductive Number := NumInt (n : Z) | NumFloat (text : string).

Inductive Value :=
| VNull
| VBool (b : bool)
| VNumber (n : Number)
| VStr (s : string)
| VArray (l : list Value)
| VObject (fields : list (string * Value)).

(** [Value::get] with a string index, and [Value::as_str]. *)
Fixpoint field_of (name : string) (fields : list (string * Value)) : option Value :=
  match fields with
  | [] => None
  | (k, v) :: rest => if decide (k = name) then Some v else field_of name rest
  end.
Definition value_get (name : string) (v : Value) : option Value :=
  match v with VObject fields => field_of name fields | _ => None end.
Definition value_as_str (v : Value) : option string :=
  match v with VStr s => Some s | _ => None end.

(** ** The data *)

Abbreviation JobId := string.

Inductive JobConflictStrategy := Skip | Replace.

#[export] Instance job_conflict_strategy_eq_dec : EqDecision JobConflictStrategy.
Proof. solve_decision. Defined.

Record JobData := { name : string; args : Value }.

(** [JobMeta]; its [id] is [meta_id] here. *)
Record JobMeta := {
  meta_id : JobId;
  on_demand : option bool;
  retries : Z;                (* u32 *)
  unique : bool;
  on_conflict : option JobConflictStrategy;
  created_at : Z;             (* i64, microseconds *)
  scheduled_at : Z;           (* i64, microseconds *)
  started_at : option Z;
  state : option Value;
  resurrect : bool;
  error : option string;
  throttle_cost : option Z;   (* u64 *)
}.

Record JobEnvelope := {
  id : JobId;
  job : JobData;
  queue : string;
  meta : JobMeta;
}.

Definition default_resurrect : bool := true.

(** Field updates, [envelope.meta.field = v]. *)
Definition map_meta (f : JobMeta -> JobMeta) (e : JobEnvelope) : JobEnvelope :=
  {| id := id e; job := job e; queue := queue e; meta := f (meta e) |}.
Definition set_scheduled_at (v : Z) (m : JobMeta) : JobMeta :=
  {| meta_id := meta_id m; on_demand := on_demand m; retries := retries m; unique := unique m;
     on_conflict := on_conflict m; created_at := created_at m; scheduled_at := v;
     started_at := started_at m; state := state m; resurrect := resurrect m;
     error := error m; throttle_cost := throttle_cost m |}.
Definition set_started_at (v : option Z) (m : JobMeta) : JobMeta :=
  {| meta_id := meta_id m; on_demand := on_demand m; retries := retries m; unique := unique m;
     on_conflict := on_conflict m; created_at := created_at m; scheduled_at := scheduled_at m;
     started_at := v; state := state m; resurrect := resurrect m;
     error := error m; throttle_cost := throttle_cost m |}.
Definition set_state (v : option Value) (m : JobMeta) : JobMeta :=
  {| meta_id := meta_id m; on_demand := on_demand m; retries := retries m; unique := unique m;
     on_conflict := on_conflict m; created_at := created_at m; scheduled_at := scheduled_at m;
     started_at := started_at m; state := v; resurrect := resurrect m;
     error := error m; throttle_cost := throttle_cost m |}.
Definition set_error (v : option string) (m : JobMeta) : JobMeta :=
  {| meta_id := meta_id m; on_demand := on_demand m; retries := retries m; unique := unique m;
     on_conflict := on_conflict m; created_at := created_at m; scheduled_at := scheduled_at m;
     started_at := started_at m; state := state m; resurrect := resurrect m;
     error := v; throttle_cost := throttle_cost m |}.
Definition set_on_demand (v : option bool) (m : JobMeta) : JobMeta :=
  {| meta_id := meta_id m; on_demand := v; retries := retries m; unique := unique m;
     on_conflict := on_conflict m; created_at := created_at m; scheduled_at := scheduled_at m;
     started_at := started_at m; state := state m; resurrect := resurrect m;
     error := error m; throttle_cost := throttle_cost m |}.

(** ** The [Job] trait

    What a job value's implementation answers; [job_value] is
    [serde_json::to_value(&job)]. *)
Record Job := {
  job_name : string;                       (* T::name() *)
  job_value : result string Value;
  job_unique_id : option string;
  job_on_conflict : JobConflictStrategy;
  job_should_resurrect : bool;             (* T::should_resurrect() *)
  job_should_resume : bool;                (* T::should_resume() *)
  job_throttle_cost : option Z;
  job_on_demand_args_template : option Value;
}.

(** A job that overrides none of the trait's provided methods. *)
Definition default_job (type_name : string) (value : result string Value) : Job := {|
  job_name := type_name;
  job_value := value;
  job_unique_id := None;
  job_on_conflict := Skip;
  job_should_resurrect := true;
  job_should_resume := true;
  job_throttle_cost := None;
  job_on_demand_args_template := None;
|}.

(** [impl UniqueJobId for T: Job], [impl UniqueJobId for JobId]. *)
Definition unique_job_id (j : Job) : option JobId :=
  (λ unique_id, job_name j +:+ "/" +:+ unique_id) <$> job_unique_id j.
Definition unique_job_id_of_id (i : JobId) : option JobId := Some i.

(** ** Construction *)

(** [JobEnvelope::new]; [uuid] is [Uuid::new_v4()], and the two clock readings
    are taken in field order. *)
Definition new_envelope (queue_key : string) (j : Job) (uuid : string) (now_created now_scheduled : Z)
    : result OxanaError JobEnvelope :=
  let unique_id := unique_job_id j in
  let is_unique := bool_decide (is_Some unique_id) in
  let jid := default uuid unique_id in
  res_bind (map_err JsonError (job_value j)) (fun value =>
  Ok {| id := jid;
        queue := queue_key;
        job := {| name := job_name j; args := value |};
        meta := {| meta_id := jid;
                   on_demand := None;
                   retries := 0;
                   unique := is_unique;
                   on_conflict := if is_unique then Some (job_on_conflict j) else None;
                   created_at := now_created;
                   scheduled_at := now_scheduled;
                   started_at := None;
                   state := None;
                   resurrect := job_should_resurrect j;
                   error := None;
                   throttle_cost := job_throttle_cost j |} |}).

(** [with_scheduled_at]; [at_micros] is the DateTime's [timestamp_micros]. *)
Definition with_scheduled_at (at_micros now : Z) (e : JobEnvelope) : JobEnvelope :=
  map_meta (set_scheduled_at (Z.max at_micros now)) e.

Definition new_scheduled (queue_key : string) (j : Job) (at_micros : Z) (uuid : string)
    (now_created now_scheduled now : Z) : result OxanaError JobEnvelope :=
  res_map (with_scheduled_at at_micros now) (new_envelope queue_key j uuid now_created now_scheduled).

(** [JobEnvelope::new_cron]. *)
Definition new_cron (queue_key : string) (occurrence_id : string) (j : Job) (at_micros : Z)
    (resurrect_flag : bool) (now : Z) : result OxanaError (JobEnvelope * bool) :=
  match job_on_conflict j with
  | Replace =>
      Err (GenericError (job_name j +:+
        ": cron jobs do not support `on_conflict = Replace`; use `Skip`"))
  | Skip =>
      let '(jid, conflict, declared_unique) :=
        match unique_job_id j with
        | Some unique_id => (unique_id, job_on_conflict j, true)
        | None => (occurrence_id, Skip, false)
        end in
      res_bind (map_err JsonError (job_value j)) (fun value =>
      Ok ({| id := jid;
             queue := queue_key;
             job := {| name := job_name j; args := value |};
             meta := {| meta_id := jid;
                        on_demand := None;
                        retries := 0;
                        unique := true;
                        on_conflict := Some conflict;
                        created_at := now;
                        scheduled_at := Z.max at_micros now;
                        started_at := None;
                        state := None;
                        resurrect := resurrect_flag;
                        error := None;
                        throttle_cost := None |} |},
          declared_unique))
  end.

Definition with_error (err : string) (e : JobEnvelope) : JobEnvelope :=
  map_meta (set_error (Some err)) e.

(** [with_retries_incremented]; [retries + 1] is a u32 addition. *)
Definition with_retries_incremented (err : string) (e : JobEnvelope) : JobEnvelope :=
  {| id := id e;
     queue := queue e;
     job := job e;
     meta := {| meta_id := id e;
                on_demand := on_demand (meta e);
                retries := u32_wrap (retries (meta e) + 1);
                unique := unique (meta e);
                on_conflict := on_conflict (meta e);
                created_at := created_at (meta e);
                scheduled_at := scheduled_at (meta e);
                started_at := None;
                state := state (meta e);
                resurrect := resurrect (meta e);
                error := Some err;
                throttle_cost := throttle_cost (meta e) |} |}.

(** ** Times *)

(** i64 division truncates. *)
Definition created_at_secs (m : JobMeta) : Z := Z.quot (created_at m) 1000000.

Definition effective_scheduled_at_micros (m : JobMeta) : Z :=
  if (0 <? scheduled_at m)%Z then scheduled_at m else created_at m.

Definition latency_micros (now : Z) (m : JobMeta) : Z :=
  Z.max (default now (started_at m) - effective_scheduled_at_micros m) 0.

Definition latency_millis (now : Z) (m : JobMeta) : Z := Z.quot (latency_micros now m) 1000.

(** ** The codec *)

(** [to_string] and [from_str] are serde_json's on [JobEnvelope];
    [value_from_str] is [from_str::<Value>(..).ok()]; [raw_queue] is the
    borrowed [RawValue] parse of the root [queue] field: the byte offset and
    length of its text in the payload, and the string it denotes. *)
Class Serde := {
  to_string : JobEnvelope -> result string string;
  from_str : string -> result string JobEnvelope;
  value_from_str : string -> option Value;
  raw_queue : string -> result string (nat * nat * string);
}.

(** Documented behaviour: an envelope serializes, to a non-empty object text
    that parses back to it; a text that parses as an envelope parses as a value
    and as a raw queue, with the envelope's queue; the empty text is not JSON. *)
Class LawfulSerde (S : Serde) : Prop := {
  to_string_total : forall e, exists s, to_string e = Ok s /\ from_str s = Ok e /\ s <> "";
  value_queue : forall s e, from_str s = Ok e ->
    (value_from_str s ≫= value_get "queue") ≫= value_as_str = Some (queue e);
  raw_queue_parses : forall s e, from_str s = Ok e ->
    exists off len, raw_queue s = Ok (off, len, queue e);
  empty_not_json : forall e, from_str "" <> Ok e;
}.
