(* ===== verification/Codec.v ===== *)
(** * A concrete codec

    serde_json is a parameter of the development ([Serde] in Envelope). This
    file builds one implementation of it and proves the documented facts of
    [LawfulSerde], so that statements about every lawful codec can be applied
    at concrete inputs. It is not a model of serde_json's text format: an
    envelope is written as the binary digits of its [Countable] code and an
    end mark. *)

From S2P Require Import Prelude Errors Envelope.

(** ** Induction and equality on JSON values *)

Section ValueInd.
Variable P : Value -> Prop.
Hypothesis HNull : P VNull.
Hypothesis HBool : forall b, P (VBool b).
Hypothesis HNumber : forall n, P (VNumber n).
Hypothesis HStr : forall s, P (VStr s).
Hypothesis HArray : forall l, Forall P l -> P (VArray l).
Hypothesis HObject : forall fs, Forall (fun f => P f.2) fs -> P (VObject fs).

Fixpoint value_induction (v : Value) : P v :=
  match v with
  | VNull => HNull
  | VBool b => HBool b
  | VNumber n => HNumber n
  | VStr s => HStr s
  | VArray l => HArray l
      ((fix go l : Forall P l :=
         match l with [] => Forall_nil_2 P | v :: l' => Forall_cons_2 P v l' (value_induction v) (go l') end) l)
  | VObject fs => HObject fs
      ((fix go fs : Forall (fun f => P f.2) fs :=
         match fs with
         | [] => Forall_nil_2 _
         | f :: fs' => Forall_cons_2 _ f fs' (value_induction f.2) (go fs')
         end) fs)
  end.
End ValueInd.

#[export] Instance number_eq_dec : EqDecision Number.
Proof. solve_decision. Defined.

(** ** Trees of leaves *)

Abbreviation leaf := (bool + Z + string)%type.

Fixpoint value_tree (v : Value) : gen_tree leaf :=
match v with
| VNull => GenNode 0 []
| VBool b => GenLeaf (inl (inl b))
| VNumber (NumInt n) => GenLeaf (inl (inr n))
| VNumber (NumFloat t) => GenNode 1 [GenLeaf (inr t)]
| VStr s => GenLeaf (inr s)
| VArray l => GenNode 2 (value_tree <$> l)
| VObject fs => GenNode 3 ((fun f => GenNode 4 [GenLeaf (inr f.1); value_tree f.2]) <$> fs)
end.

Fixpoint tree_value (t : gen_tree leaf) : Value :=
match t with
| GenLeaf (inl (inl b)) => VBool b
| GenLeaf (inl (inr n)) => VNumber (NumInt n)
| GenLeaf (inr s) => VStr s
| GenNode 1 [GenLeaf (inr t)] => VNumber (NumFloat t)
| GenNode 2 l => VArray (tree_value <$> l)
| GenNode 3 fs =>
    VObject ((fun f => match f with
                       | GenNode _ [GenLeaf (inr k); v] => (k, tree_value v)
                       | _ => ("", VNull)
                       end) <$> fs)
| _ => VNull
end.

Lemma tree_value_value_tree v : tree_value (value_tree v) = v.
Proof.
induction v as [| |[]| |l IH|fs IH] using value_induction; cbn; try done; f_equal.
- induction IH as [|v l Hv _ IHl]; cbn; [done|]. by rewrite Hv, IHl.
- induction IH as [|[k v] fs Hv _ IHl]; cbn in *; [done|]. by rewrite Hv, IHl.
Qed.

Definition opt_tree {A} (f : A -> gen_tree leaf) (o : option A) : gen_tree leaf :=
match o with None => GenNode 0 [] | Some a => GenNode 1 [f a] end.
Definition tree_opt {A} (f : gen_tree leaf -> A) (t : gen_tree leaf) : option A :=
match t with GenNode 1 [a] => Some (f a) | _ => None end.

Definition of_str (s : string) : gen_tree leaf := GenLeaf (inr s).
Definition of_z (n : Z) : gen_tree leaf := GenLeaf (inl (inr n)).
Definition of_bool (b : bool) : gen_tree leaf := GenLeaf (inl (inl b)).
Definition to_str (t : gen_tree leaf) : string := match t with GenLeaf (inr s) => s | _ => "" end.
Definition to_z (t : gen_tree leaf) : Z := match t with GenLeaf (inl (inr n)) => n | _ => 0 end.
Definition to_bool (t : gen_tree leaf) : bool :=
match t with GenLeaf (inl (inl b)) => b | _ => false end.
Definition of_conflict (c : JobConflictStrategy) : gen_tree leaf :=
of_bool (match c with Skip => true | Replace => false end).
Definition to_conflict (t : gen_tree leaf) : JobConflictStrategy :=
if to_bool t then Skip else Replace.

Definition envelope_tree (e : JobEnvelope) : gen_tree leaf :=
let m := meta e in
GenNode 0 [of_str (id e); of_str (name (job e)); value_tree (args (job e)); of_str (queue e);
  of_str (meta_id m); opt_tree of_bool (on_demand m); of_z (retries m); of_bool (unique m);
  opt_tree of_conflict (on_conflict m); of_z (created_at m); of_z (scheduled_at m);
  opt_tree of_z (started_at m); opt_tree value_tree (state m); of_bool (resurrect m);
  opt_tree of_str (error m); opt_tree of_z (throttle_cost m)].

Definition tree_envelope (t : gen_tree leaf) : option JobEnvelope :=
match t with
| GenNode 0 [i; n; a; q; mi; od; re; u; oc; ca; sa; st; ste; rs; er; tc] =>
    Some {| id := to_str i; job := {| name := to_str n; args := tree_value a |}; queue := to_str q;
      meta := {| meta_id := to_str mi; on_demand := tree_opt to_bool od; retries := to_z re;
        unique := to_bool u; on_conflict := tree_opt to_conflict oc; created_at := to_z ca;
        scheduled_at := to_z sa; started_at := tree_opt to_z st; state := tree_opt tree_value ste;
        resurrect := to_bool rs; error := tree_opt to_str er; throttle_cost := tree_opt to_z tc |} |}
| _ => None
end.

Lemma tree_opt_opt_tree {A} (f : A -> gen_tree leaf) g o :
(forall a, g (f a) = a) -> tree_opt g (opt_tree f o) = o.
Proof. intros H. destruct o; cbn; [by rewrite H | done]. Qed.

Lemma tree_envelope_envelope_tree e : tree_envelope (envelope_tree e) = Some e.
Proof.
destruct e as [? [] ? []]. cbn.
rewrite !tree_opt_opt_tree; try done; auto using tree_value_value_tree.
- by rewrite tree_value_value_tree.
- by intros [].
Qed.

(** ** Texts

    The bits of a number, least significant first, eight to a character; the last
    one is a one, so the zeros that fill the last character are not part of it. *)

Fixpoint pos_bits (p : positive) : list bool :=
  match p with
  | xH => [true]
  | xO q => false :: pos_bits q
  | xI q => true :: pos_bits q
  end.

Fixpoint bits_pos (bs : list bool) : option positive :=
  match bs with
  | [] => None
  | b :: bs' =>
      match bits_pos bs' with
      | Some q => Some (if b then xI q else xO q)
      | None => if b then Some xH else None
      end
  end.

Fixpoint pack (bs : list bool) : string :=
  match bs with
  | [] => ""
  | b0 :: b1 :: b2 :: b3 :: b4 :: b5 :: b6 :: b7 :: rest => String (Ascii b0 b1 b2 b3 b4 b5 b6 b7) (pack rest)
  | _ =>
      let bit := fun i => default false (bs !! i) in
      String (Ascii (bit 0) (bit 1) (bit 2) (bit 3) (bit 4) (bit 5) (bit 6) (bit 7)) ""
  end.

Fixpoint unpack (s : string) : list bool :=
  match s with
  | "" => []
  | String (Ascii b0 b1 b2 b3 b4 b5 b6 b7) s' => b0 :: b1 :: b2 :: b3 :: b4 :: b5 :: b6 :: b7 :: unpack s'
  end.

Definition digits (p : positive) : string := pack (pos_bits p).
Definition undigits (s : string) : option positive := bits_pos (unpack s).

Lemma unpack_pack bs : exists k, unpack (pack bs) = bs ++ replicate k false.
Proof.
  induction bs as [bs IH] using (induction_ltof1 _ length); unfold ltof in IH.
  do 8 (destruct bs as [|? bs]; [by (exists 0 + exists 1 + exists 2 + exists 3 + exists 4 + exists 5 + exists 6 + exists 7)|]).
  destruct (IH bs) as [k Hk]; [cbn; lia|]. exists k. cbn. by rewrite Hk.
Qed.

Lemma bits_pos_bits p k : bits_pos (pos_bits p ++ replicate k false) = Some p.
Proof.
  assert (bits_pos (replicate k false) = None) as Hk by (induction k as [|k IH]; cbn; [|rewrite IH]; done).
  induction p as [p IH|p IH|]; cbn; rewrite ?IH, ?Hk; done.
Qed.

Lemma undigits_digits p : undigits (digits p) = Some p.
Proof. unfold undigits, digits. destruct (unpack_pack (pos_bits p)) as [k ->]. apply bits_pos_bits. Qed.

Lemma digits_nonempty p : digits p <> "".
Proof. intros H. assert (undigits (digits p) = None) as Hn by by rewrite H. by rewrite undigits_digits in Hn. Qed.

Definition bits_to_string (e : JobEnvelope) : result string string :=
Ok (digits (encode (envelope_tree e))).
Definition bits_from_str (s : string) : result string JobEnvelope :=
match (undigits s ≫= decode) ≫= tree_envelope with
| Some e => Ok e | None => Err "invalid" end.

#[export] Instance BitsSerde : Serde := {|
to_string := bits_to_string;
from_str := bits_from_str;
value_from_str s :=
  (fun e => VObject [("id", VStr (id e)); ("queue", VStr (queue e))]) <$> res_ok (bits_from_str s);
raw_queue s := res_map (fun e => (0, String.length s, queue e)) (bits_from_str s);
|}.

#[export] Instance bits_lawful : LawfulSerde BitsSerde.
Proof.
constructor.
- intros e. eexists. split; [done|]. split; [|apply digits_nonempty].
  change (bits_from_str (digits (encode (envelope_tree e))) = Ok e). unfold bits_from_str.
  rewrite undigits_digits. cbn [mbind option_bind]. rewrite decode_encode. cbn [mbind option_bind].
  by rewrite tree_envelope_envelope_tree.
- intros s e H. cbn in *. by rewrite H.
- intros s e H. cbn in *. rewrite H. cbn. eauto.
- done.
Qed.

(** A sample envelope for concrete inputs. *)
Definition sample_envelope (i q : JobId) (u : bool) (c : option JobConflictStrategy) : JobEnvelope :=
{| id := i; job := {| name := "w"; args := VNull |}; queue := q;
   meta := {| meta_id := i; on_demand := None; retries := 0; unique := u; on_conflict := c;
     created_at := 1; scheduled_at := 1; started_at := None; state := None; resurrect := true;
     error := None; throttle_cost := None |} |}.

(** The payload text of an envelope under [BitsSerde]. *)
Definition sample_payload (e : JobEnvelope) : string := digits (encode (envelope_tree e)).
