(* ===== verification/Queue.v ===== *)
(** * Queues and their configuration ([queue.rs])

    A function that panics is an option: [None] is the panic. *)
From S2P Require Import Prelude Errors Envelope.

Inductive QueueKind :=
| Static (key : string)
| Dynamic (prefix : string) (discovery_interval : Duration).

Inductive QueueConcurrency := FixedConcurrency (n : nat) | DynamicConcurrency (default : nat).

Record QueueThrottle := { window_ms : Z; limit : Z }.

Record QueueConfig := {
  kind : QueueKind;
  concurrency : QueueConcurrency;
  throttle : option QueueThrottle;
}.

Inductive QueueState := Active | Paused.

Record QueueRuntimeConfig := {
  rt_concurrency : option nat;
  rt_state : QueueState;
}.

#[export] Instance queue_state_eq_dec : EqDecision QueueState.
Proof. solve_decision. Defined.
#[export] Instance queue_runtime_config_eq_dec : EqDecision QueueRuntimeConfig.
Proof. solve_decision. Defined.

(** ** [QueueConfig] *)

Definition as_dynamic (prefix : string) : QueueConfig :=
  {| kind := Dynamic prefix (from_millis 500); concurrency := FixedConcurrency 1; throttle := None |}.

Definition as_static (key : string) : QueueConfig :=
  {| kind := Static key; concurrency := FixedConcurrency 1; throttle := None |}.

(** [QueueConfig::concurrency]: asserts a positive limit. *)
Definition with_concurrency (n : nat) (c : QueueConfig) : option QueueConfig :=
  if decide (0 < n) then
    Some {| kind := kind c; concurrency := FixedConcurrency n; throttle := throttle c |}
  else None.

Definition dynamic_concurrency (default_concurrency : nat) (c : QueueConfig) : QueueConfig :=
  {| kind := kind c; concurrency := DynamicConcurrency default_concurrency; throttle := throttle c |}.

Definition with_throttle (t : QueueThrottle) (c : QueueConfig) : QueueConfig :=
  {| kind := kind c; concurrency := concurrency c; throttle := Some t |}.

Definition require_non_zero_duration (d : Duration) : option Duration :=
  if decide (d = 0%Z) then None else Some d.

Definition with_discovery_interval (interval : Duration) (c : QueueConfig) : option QueueConfig :=
  interval ← require_non_zero_duration interval;
  match kind c with
  | Dynamic prefix _ =>
      Some {| kind := Dynamic prefix interval; concurrency := concurrency c; throttle := throttle c |}
  | Static _ => None
  end.

Definition static_key (c : QueueConfig) : option string :=
  match kind c with Static key => Some key | Dynamic _ _ => None end.

Definition key_or_prefix (c : QueueConfig) : string :=
  match kind c with Static key => key | Dynamic prefix _ => prefix end.

(** [Queue::key] as provided: a dynamic queue must override it. *)
Definition queue_key_default (c : QueueConfig) : option string := static_key c.

(** [PartialEq for QueueKind] and [for QueueConfig]: the discovery interval,
    the concurrency and the throttle do not count. *)
Definition queue_kind_eq (a b : QueueKind) : bool :=
  match a, b with
  | Static k1, Static k2 => bool_decide (k1 = k2)
  | Dynamic p1 _, Dynamic p2 _ => bool_decide (p1 = p2)
  | _, _ => false
  end.

Definition queue_config_eq (a b : QueueConfig) : bool := queue_kind_eq (kind a) (kind b).

(** What [Hash for QueueKind] feeds the hasher. *)
Definition queue_kind_hash (k : QueueKind) : string :=
  match k with Static key => key | Dynamic prefix _ => prefix end.

Definition is_dynamic_kind (k : QueueKind) : bool :=
  match k with Dynamic _ _ => true | Static _ => false end.
Definition is_static_kind (k : QueueKind) : bool :=
  match k with Static _ => true | Dynamic _ _ => false end.

(** ** [QueueConcurrency] *)

Definition default_concurrency (c : QueueConcurrency) : nat :=
  match c with FixedConcurrency n => n | DynamicConcurrency n => n end.

Definition is_dynamic (c : QueueConcurrency) : bool :=
  match c with DynamicConcurrency _ => true | FixedConcurrency _ => false end.

Definition stored_runtime_default (c : QueueConcurrency) : QueueRuntimeConfig :=
  {| rt_concurrency := if is_dynamic c then Some (default_concurrency c) else None;
     rt_state := Active |}.

Definition effective_runtime_config (c : QueueConcurrency) (runtime_config : QueueRuntimeConfig)
    : QueueRuntimeConfig :=
  let n := match c with
           | FixedConcurrency n => n
           | DynamicConcurrency d => default d (rt_concurrency runtime_config)
           end in
  {| rt_concurrency := Some n; rt_state := rt_state runtime_config |}.

(** ** Runtime configuration *)

Definition is_active (s : QueueState) : bool := match s with Active => true | Paused => false end.
Definition state_label (s : QueueState) : string :=
  match s with Active => "Active" | Paused => "Paused" end.

(** [QueueRuntimeConfig::default] and [::new]. *)
Definition default_runtime_config : QueueRuntimeConfig :=
  {| rt_concurrency := None; rt_state := Active |}.
Definition new_runtime_config (n : nat) : QueueRuntimeConfig :=
  {| rt_concurrency := Some n; rt_state := Active |}.

Definition with_defaults (c defaults : QueueRuntimeConfig) : QueueRuntimeConfig :=
  {| rt_concurrency := match rt_concurrency c with Some n => Some n | None => rt_concurrency defaults end;
     rt_state := rt_state c |}.

(** The JSON text of a stored configuration (serde_json, a parameter). *)
Class ConfigSerde := {
  config_to_string : QueueRuntimeConfig -> result string string;
  config_from_str : string -> result string QueueRuntimeConfig;
}.
Class LawfulConfigSerde (C : ConfigSerde) : Prop := {
  config_round_trip : forall c, exists s, config_to_string c = Ok s /\ config_from_str s = Ok c;
}.

(** A concrete codec, for concrete inputs. *)
#[export] Instance SimpleConfigSerde : ConfigSerde := {|
  config_to_string c := Ok (String (match rt_state c with Active => "a" | Paused => "p" end)%char
    (match rt_concurrency c with None => "" | Some n => z_to_string (Z.of_nat n) end));
  config_from_str s :=
    match s with
    | String a s' =>
        let st := if decide (a = "a"%char) then Active else Paused in
        if decide (s' = "") then Ok {| rt_concurrency := None; rt_state := st |}
        else match z_of_string s' with
             | Some n => Ok {| rt_concurrency := Some (Z.to_nat n); rt_state := st |}
             | None => Err "invalid"
             end
    | EmptyString => Err "invalid"
    end;
|}.

(** ** [value_to_queue_key] *)

Definition number_to_string (n : Number) : string :=
  match n with NumInt z => z_to_string z | NumFloat t => t end.

Fixpoint value_to_queue_key (value : Value) : string :=
  match value with
  | VNull => ""
  | VStr s => s
  | VNumber n => number_to_string n
  | VBool b => if b then "true" else "false"
  | VArray a => join ":" (map value_to_queue_key a)
  | VObject object => join ":" (map (fun f => f.1 +:+ "=" +:+ value_to_queue_key f.2) object)
  end.

(** ** Facts *)

(** A fixed limit cannot be changed at run time; a dynamic one follows the
    stored configuration and falls back to its default. *)
Lemma effective_concurrency c r :
  rt_concurrency (effective_runtime_config c r) =
    Some (match c with FixedConcurrency n => n | DynamicConcurrency d => default d (rt_concurrency r) end).
Proof. done. Qed.

Lemma effective_state c r : rt_state (effective_runtime_config c r) = rt_state r.
Proof. done. Qed.

Lemma with_defaults_stored c r :
  rt_concurrency (effective_runtime_config c (with_defaults r (stored_runtime_default c))) =
    rt_concurrency (effective_runtime_config c r).
Proof. destruct c; cbn; [done|]. by destruct (rt_concurrency r). Qed.

Lemma queue_kind_eq_hash a b : queue_kind_eq a b = true -> queue_kind_hash a = queue_kind_hash b.
Proof. destruct a, b; cbn; intros H; try done; by apply bool_decide_eq_true in H. Qed.

Lemma z_to_string_nonempty n : z_to_string n <> "".
Proof. intros H. pose proof (z_of_string_to_string n) as E. rewrite H in E. done. Qed.

#[export] Instance simple_config_lawful : LawfulConfigSerde SimpleConfigSerde.
Proof.
  constructor. intros [n st]. eexists. split; [done|]. cbn.
  destruct n as [n|], st; cbn; repeat (rewrite decide_False by apply z_to_string_nonempty);
    rewrite ?z_of_string_to_string, ?Nat2Z.id; done.
Qed.
