(* ===== verification/Keys.v ===== *)
(** * Redis keys ([storage_keys.rs], the key helpers of [storage_internal.rs],
    [Process::id] of [stats.rs]) *)
From S2P Require Import Prelude Errors Redis.

Record StorageKeys := {
  namespace : string;
  jobs : string;
  dead : string;
  schedule : string;
  retry : string;
  queue_prefix : string;
  processing_queue_prefix : string;
  processes : string;
  processes_data : string;
  stats : string;
  queue_configs : string;
  metrics_prefix : string;
}.

(** [StorageKeys::new]. *)
Definition new_keys (requested : string) : StorageKeys :=
  let ns := if decide (requested = "") then "oxanus" else requested in
  {| namespace := ns;
     jobs := ns +:+ ":jobs";
     dead := ns +:+ ":dead";
     schedule := ns +:+ ":schedule";
     retry := ns +:+ ":retry";
     queue_prefix := ns +:+ ":queue";
     processing_queue_prefix := ns +:+ ":processing";
     processes := ns +:+ ":processes";
     processes_data := ns +:+ ":processes_data";
     stats := ns +:+ ":stats";
     queue_configs := ns +:+ ":queue_configs";
     metrics_prefix := ns +:+ ":metrics" |}.

(** [namespace_queue]: a queue key that already starts with the namespace is
    taken as a full key. *)
Definition namespace_queue (ks : StorageKeys) (queue : string) : string :=
  if starts_with (namespace ks) queue then queue
  else queue_prefix ks +:+ ":" +:+ queue.

Definition processing_queue (ks : StorageKeys) (process_id : string) : string :=
  processing_queue_prefix ks +:+ ":" +:+ process_id.

(** The filter of [queues_w_conn]: a scanned key without the queue prefix. *)
Definition queue_of_key (ks : StorageKeys) (key : string) : option string :=
  strip_prefix (queue_prefix ks +:+ ":") key.

(** The process a processing list belongs to, as [dead_process_ids_in] reads
    it from the key. *)
Definition process_id_of_key (processing_queue : string) : string :=
  rsplit_first ":" processing_queue.

(** Metrics keys. *)
Definition metrics_counter_key (ks : StorageKeys) (minute : Z) : string :=
  metrics_prefix ks +:+ ":j:" +:+ z_to_string minute.
Definition metrics_queue_length_key (ks : StorageKeys) (minute : Z) : string :=
  metrics_prefix ks +:+ ":q:" +:+ z_to_string minute.
Definition metrics_queue_counter_key (ks : StorageKeys) (minute : Z) : string :=
  metrics_prefix ks +:+ ":qc:" +:+ z_to_string minute.
Definition metrics_histogram_key (ks : StorageKeys) (identity_field_key : string) (minute : Z) : string :=
  metrics_prefix ks +:+ ":h:" +:+ identity_field_key +:+ ":" +:+ z_to_string minute.

(** ** Processes *)

Record Process := {
  hostname : string;
  pid : Z;                (* u32 *)
  instance_id : string;
  heartbeat_at : Z;
  proc_started_at : Z;
}.

(** [Process::id]. *)
Definition process_id (p : Process) : string :=
  if decide (instance_id p = "")
  then hostname p +:+ "-" +:+ z_to_string (pid p)
  else hostname p +:+ "-" +:+ z_to_string (pid p) +:+ "-" +:+ instance_id p.

(** ** Facts about keys *)

(** The keys one namespace's transitions use are pairwise distinct. *)
Section Distinct.
Variable requested : string.
Let ks := new_keys requested.

Lemma jobs_ne_dead : jobs ks <> dead ks.
Proof. intros H%string_app_inj_l. done. Qed.
Lemma jobs_ne_schedule : jobs ks <> schedule ks.
Proof. intros H%string_app_inj_l. done. Qed.
Lemma jobs_ne_retry : jobs ks <> retry ks.
Proof. intros H%string_app_inj_l. done. Qed.
Lemma schedule_ne_retry : schedule ks <> retry ks.
Proof. intros H%string_app_inj_l. done. Qed.
Lemma dead_ne_retry : dead ks <> retry ks.
Proof. intros H%string_app_inj_l. done. Qed.
Lemma dead_ne_schedule : dead ks <> schedule ks.
Proof. intros H%string_app_inj_l. done. Qed.

Lemma processing_queue_eq p :
  processing_queue ks p = namespace ks +:+ ":processing:" +:+ p.
Proof. unfold processing_queue. cbn. by rewrite string_app_assoc. Qed.

Lemma jobs_ne_processing p : jobs ks <> processing_queue ks p.
Proof. rewrite processing_queue_eq. intros H%string_app_inj_l. done. Qed.
Lemma dead_ne_processing p : dead ks <> processing_queue ks p.
Proof. rewrite processing_queue_eq. intros H%string_app_inj_l. done. Qed.
Lemma retry_ne_processing p : retry ks <> processing_queue ks p.
Proof. rewrite processing_queue_eq. intros H%string_app_inj_l. done. Qed.
Lemma schedule_ne_processing p : schedule ks <> processing_queue ks p.
Proof. rewrite processing_queue_eq. intros H%string_app_inj_l. done. Qed.

Lemma processing_queue_inj p p' : processing_queue ks p = processing_queue ks p' -> p = p'.
Proof. unfold processing_queue. intros H%string_app_inj_l. by injection H. Qed.

Lemma namespace_queue_plain q :
  starts_with (namespace ks) q = false ->
  namespace_queue ks q = namespace ks +:+ ":queue:" +:+ q.
Proof. unfold namespace_queue. intros ->. cbn. by rewrite string_app_assoc. Qed.

Section Plain.
Context (q : string) (plain : starts_with (namespace ks) q = false).
Lemma jobs_ne_queue : jobs ks <> namespace_queue ks q.
Proof. rewrite namespace_queue_plain by done. intros H%string_app_inj_l. done. Qed.
Lemma dead_ne_queue : dead ks <> namespace_queue ks q.
Proof. rewrite namespace_queue_plain by done. intros H%string_app_inj_l. done. Qed.
Lemma schedule_ne_queue : schedule ks <> namespace_queue ks q.
Proof. rewrite namespace_queue_plain by done. intros H%string_app_inj_l. done. Qed.
Lemma retry_ne_queue : retry ks <> namespace_queue ks q.
Proof. rewrite namespace_queue_plain by done. intros H%string_app_inj_l. done. Qed.
Lemma processing_ne_queue p : processing_queue ks p <> namespace_queue ks q.
Proof. rewrite namespace_queue_plain, processing_queue_eq by done. intros H%string_app_inj_l. done. Qed.
End Plain.

Lemma namespace_queue_inj q q' :
  starts_with (namespace ks) q = false -> starts_with (namespace ks) q' = false ->
  namespace_queue ks q = namespace_queue ks q' -> q = q'.
Proof.
  intros Hq Hq'. rewrite !namespace_queue_plain by done. intros H%string_app_inj_l. by apply string_app_inj_l in H.
Qed.

Lemma namespace_queue_cases q :
  namespace_queue ks q = q \/ namespace_queue ks q = namespace ks +:+ ":queue:" +:+ q.
Proof.
  unfold namespace_queue. destruct (starts_with _ _); [by left|right].
  cbn. by rewrite string_app_assoc.
Qed.
End Distinct.


#[export] Hint Resolve jobs_ne_dead jobs_ne_schedule jobs_ne_retry schedule_ne_retry
dead_ne_retry dead_ne_schedule jobs_ne_processing dead_ne_processing
retry_ne_processing schedule_ne_processing jobs_ne_queue dead_ne_queue schedule_ne_queue
retry_ne_queue processing_ne_queue : keys.

(** Discovery and naming agree: a queue that does not start with the namespace
  is found again under its own name. *)
Lemma queue_of_namespace_queue requested q :
let ks := new_keys requested in
starts_with (namespace ks) q = false -> queue_of_key ks (namespace_queue ks q) = Some q.
Proof.
intros ks H. unfold ks in *. rewrite namespace_queue_plain by done.
unfold queue_of_key. cbn [queue_prefix new_keys namespace].
change (":queue:" +:+ q) with ((":queue" +:+ ":") +:+ q).
rewrite <- !string_app_assoc. apply strip_prefix_app.
Qed.

(** The name a malformed payload is given is an ordinary one. *)
Lemma empty_name_plain requested : starts_with (namespace (new_keys requested)) "" = false.
Proof. unfold new_keys. cbn [namespace]. case_decide; [done|]. by destruct requested. Qed.

Lemma configs_ne_jobs requested : queue_configs (new_keys requested) <> jobs (new_keys requested).
Proof. intros H. by apply string_app_inj_l in H. Qed.

(** Naming is idempotent. *)
Lemma namespace_queue_idem requested q :
let ks := new_keys requested in
namespace_queue ks (namespace_queue ks q) = namespace_queue ks q.
Proof.
intros ks. unfold namespace_queue at 2 3.
destruct (starts_with (namespace ks) q) eqn:E; unfold namespace_queue; [by rewrite E|].
cbn [queue_prefix new_keys ks]. rewrite string_app_assoc. by rewrite starts_with_app.
Qed.

(** The owner of a processing list is read back from its key when the process
  identifier has no colon. *)
Lemma process_id_of_processing_queue ks p :
has_char ":" p = false -> process_id_of_key (processing_queue ks p) = p.
Proof. intros H. unfold process_id_of_key, processing_queue. by apply (rsplit_first_app ":"). Qed.

Arguments new_keys : simpl never.
Arguments processing_queue : simpl never.
Arguments namespace_queue : simpl never.
