(* ===== verification/Scripts.v ===== *)
(** * The Lua transition scripts

    [finish_success.lua], [finish_dead.lua], [retry_failed.lua],
    [promote_scheduled.lua], [resurrect_claim.lua] and the inline script of
    [revive_all_dead]. [KEYS] and [ARGV] are the parameters of each
    definition; numbers the scripts take through [tonumber] are integers, and
    the scripts' [false] for a missing value is [None]. Each script's facts
    come in the same three forms: a key of another type stops it before any
    write, otherwise its effect is the stated one and touches only its keys. *)
From S2P Require Import Prelude Errors Redis.

(** The preflight loop over [types]. *)
Fixpoint require_types (kts : list (string * rtype)) {A : Type} (body : lua A) : lua A :=
  match kts with
  | [] => body
  | (key, expected) :: kts' =>
      LCall (TYPE key) (fun actual =>
        if type_ok actual expected then require_types kts' body else LError wrongtype)
  end.

Definition types_ok (kts : list (string * rtype)) (ks : keyspace) : bool :=
  forallb (λ p, type_ok (type_at ks p.1) p.2) kts.

Lemma require_types_run kts {A} (body : lua A) ks :
  script_doc (require_types kts body) ks =
    if types_ok kts ks then script_doc body ks else (Err wrongtype, ks).
Proof.
  induction kts as [|[k t] kts IH]; cbn; [done|].
  destruct (type_ok (type_at ks k) t); [apply IH | done].
Qed.

(** ** finish_success.lua *)

Fixpoint acknowledge_each (jobs processing : string) (ids : list string) : lua unit :=
  match ids with
  | [] => LRet tt
  | id :: ids' =>
      (HDEL jobs [id] ;;~ LREM processing 1 id ;;~ acknowledge_each jobs processing ids')%lua
  end.

Definition finish_success_lua (jobs processing : string) (ids : list string) : lua unit :=
  require_types [(jobs, THash); (processing, TList)] (acknowledge_each jobs processing ids).

(** ** finish_dead.lua *)

Definition finish_dead_lua (jobs dead processing id payload : string) (limit : Z) : lua unit :=
  require_types [(jobs, THash); (dead, TList); (processing, TList)] (
    LPUSH dead payload ;;~
    HDEL jobs [id] ;;~
    LREM processing 1 id ;;~
    if (0 <? limit)%Z then LTRIM dead 0 (limit - 1) ;;~ LRet tt else LRet tt)%lua.

(** ** retry_failed.lua *)

Definition retry_failed_lua (jobs retry processing id payload : string) (score : Z) : lua unit :=
  require_types [(jobs, THash); (retry, TZset); (processing, TList)] (
    HSET jobs id payload ;;~
    ZADD retry score id ;;~
    LREM processing 1 id ;;~
    LRet tt)%lua.

(** ** promote_scheduled.lua *)

(** [ARGV[2] ~= '' and ARGV[2] or false]. *)
Definition snapshot_arg (payload : string) : option string :=
  if decide (payload = "") then None else Some payload.

Definition promote_scheduled_lua (jobs schedule queue id payload : string) (expected_score : Z) : lua nat :=
  require_types [(jobs, THash); (schedule, TZset); (queue, TList)] (
    score <~ ZSCORE schedule id ;;
    if decide (score = Some expected_score) then
      current <~ HGET jobs id ;;
      if decide (current = snapshot_arg payload) then
        match current with
        | Some _ => LPUSH queue id ;;~ ZREM schedule id ;;~ LRet 1
        | None => ZREM schedule id ;;~ LRet 0
        end
      else LRet 0
    else LRet 0)%lua.

(** ** resurrect_claim.lua *)

Definition resurrect_claim_lua (jobs processing queue id payload : string) (should_resurrect : bool) : lua nat :=
  require_types [(jobs, THash); (processing, TList); (queue, TList)] (
    claimed <~ LPOS processing id ;;
    if claimed : bool then
      current <~ HGET jobs id ;;
      if decide (current = snapshot_arg payload) then
        match current with
        | Some _ =>
            if should_resurrect
            then LPUSH queue id ;;~ LREM processing 1 id ;;~ LRet 1
            else HDEL jobs [id] ;;~ LREM processing 1 id ;;~ LRet 1
        | None => LREM processing 1 id ;;~ LRet 1
        end
      else LRet 0
    else LRet 0)%lua.

(** ** The claim of [revive_all_dead] *)

Definition claim_dead_lua (dead claim_key : string) : lua nat :=
  (exists_ <~ EXISTS dead ;;
   if exists_ : bool then RENAME dead claim_key ;;~ LRet 1 else LRet 0)%lua.

(** ** The preflight *)

Lemma types_ok_spec kts ks :
  types_ok kts ks = true <-> Forall (fun p => type_ok (type_at ks p.1) p.2 = true) kts.
Proof. unfold types_ok. rewrite forallb_forall, Forall_forall. setoid_rewrite list_elem_of_In. done. Qed.

Lemma hash_type ks k h : hash_at ks k = Some h -> type_ok (type_at ks k) THash = true.
Proof. intros H. apply type_ok_hash. eauto. Qed.
Lemma list_type ks k l : list_at ks k = Some l -> type_ok (type_at ks k) TList = true.
Proof. intros H. apply type_ok_list. eauto. Qed.
Lemma zset_type ks k z : zset_at ks k = Some z -> type_ok (type_at ks k) TZset = true.
Proof. intros H. apply type_ok_zset. eauto. Qed.

(** [preflight] passes the type tests from the aggregates in the context;
    [with_types H] reads the aggregates off a successful test. *)
Ltac preflight :=
  rewrite require_types_run;
  rewrite (proj2 (types_ok_spec _ _))
    by (repeat constructor; cbn; eauto using hash_type, list_type, zset_type).

Ltac with_types H :=
  rewrite types_ok_spec, ?Forall_cons in H; cbn in H;
  repeat match goal with
  | H : _ /\ _ |- _ => destruct H
  | H : type_ok (type_at _ _) THash = true |- _ => apply type_ok_hash in H as [? ?]
  | H : type_ok (type_at _ _) TList = true |- _ => apply type_ok_list in H as [? ?]
  | H : type_ok (type_at _ _) TZset = true |- _ => apply type_ok_zset in H as [? ?]
  end.

(** ** Effects

    The keys a transition uses are pairwise distinct ([Keys]). *)
Section Effects.
Context (jobs processing : string) (jobs_processing : jobs <> processing).
Implicit Types (ks : keyspace) (h : gmap string string) (l : list string) (z : gmap string Z).

Lemma acknowledge_each_run ids : forall ks h l,
  hash_at ks jobs = Some h -> list_at ks processing = Some l ->
  exists ks', script_doc (acknowledge_each jobs processing ids) ks = (Ok tt, ks') /\
    hash_at ks' jobs = Some (hdel_all ids h) /\
    list_at ks' processing = Some (foldl (λ l id, lrem 1 id l) l ids) /\
    same_except [jobs; processing] ks ks'.
Proof.
  induction ids as [|id ids IH]; intros ks h l Hh Hl; cbn [acknowledge_each].
  - exists ks. eauto using same_except_refl.
  - do 2 lua_step.
    edestruct (IH (put_list processing (lrem 1 id l) (put_hash jobs (hdel_all [id] h) ks)))
      as (ks' & -> & Hh' & Hl' & Hs); [at_fact..|].
    exists ks'. split_and!; [done..|]. eapply same_except_trans; [|done]. frame.
Qed.

Lemma finish_success_run ks h l ids :
  hash_at ks jobs = Some h -> list_at ks processing = Some l ->
  exists ks', script_doc (finish_success_lua jobs processing ids) ks = (Ok tt, ks') /\
    hash_at ks' jobs = Some (hdel_all ids h) /\
    list_at ks' processing = Some (foldl (λ l id, lrem 1 id l) l ids) /\
    same_except [jobs; processing] ks ks'.
Proof. intros. unfold finish_success_lua. preflight. by apply acknowledge_each_run. Qed.

Definition trim_dead (limit : Z) (l : list string) : list string :=
  if (0 <? limit)%Z then take (Z.to_nat limit) l else l.

Lemma finish_dead_run dead id payload limit ks h d l :
  jobs <> dead -> dead <> processing ->
  hash_at ks jobs = Some h -> list_at ks dead = Some d -> list_at ks processing = Some l ->
  exists ks', script_doc (finish_dead_lua jobs dead processing id payload limit) ks = (Ok tt, ks') /\
    hash_at ks' jobs = Some (delete id h) /\
    list_at ks' dead = Some (trim_dead limit (payload :: d)) /\
    list_at ks' processing = Some (lrem 1 id l) /\
    same_except [jobs; dead; processing] ks ks'.
Proof.
  intros Hjd Hdp Hh Hd Hl. unfold finish_dead_lua. preflight. do 3 lua_step. unfold trim_dead.
  destruct (0 <? limit)%Z eqn:E; [lua_step|]; (eexists; split; [done|]); ks_simp;
    (split_and!; [done| |done|frame]); [|done].
  rewrite lrange_prefix; [done|]. by apply Z.ltb_lt.
Qed.

Lemma retry_failed_run retry id payload score ks h z l :
  jobs <> retry -> retry <> processing ->
  hash_at ks jobs = Some h -> zset_at ks retry = Some z -> list_at ks processing = Some l ->
  exists ks', script_doc (retry_failed_lua jobs retry processing id payload score) ks = (Ok tt, ks') /\
    hash_at ks' jobs = Some (<[id := payload]> h) /\
    zset_at ks' retry = Some (<[id := score]> z) /\
    list_at ks' processing = Some (lrem 1 id l) /\
    same_except [jobs; retry; processing] ks ks'.
Proof.
  intros Hjr Hrp Hh Hz Hl. unfold retry_failed_lua. preflight. do 3 lua_step.
  eexists. split; [done|]. ks_simp. split_and!; [done..|frame].
Qed.

(** Promotion moves exactly the snapshot it was given. *)
Lemma promote_scheduled_run schedule queue id payload score ks h z l :
  jobs <> schedule -> jobs <> queue -> schedule <> queue ->
  hash_at ks jobs = Some h -> zset_at ks schedule = Some z -> list_at ks queue = Some l ->
  script_doc (promote_scheduled_lua jobs schedule queue id payload score) ks =
    if decide (z !! id = Some score /\ h !! id = snapshot_arg payload) then
      match h !! id with
      | Some _ => (Ok 1, put_zset schedule (delete id z) (put_list queue (id :: l) ks))
      | None => (Ok 0, put_zset schedule (delete id z) ks)
      end
    else (Ok 0, ks).
Proof.
  intros Hjs Hjq Hsq Hh Hz Hl. unfold promote_scheduled_lua. preflight. lua_step.
  destruct (decide (z !! id = Some score)) as [Es|Es].
  2: { rewrite decide_False by tauto. done. }
  lua_step. destruct (decide (h !! id = snapshot_arg payload)) as [Ep|Ep].
  2: { rewrite decide_False by tauto. done. }
  rewrite decide_True by done. destruct (h !! id); repeat lua_step; done.
Qed.

Lemma resurrect_claim_run queue id payload should ks h l q :
  jobs <> queue -> processing <> queue ->
  hash_at ks jobs = Some h -> list_at ks processing = Some l -> list_at ks queue = Some q ->
  script_doc (resurrect_claim_lua jobs processing queue id payload should) ks =
    if decide (id ∈ l /\ h !! id = snapshot_arg payload) then
      match h !! id with
      | Some _ =>
          (Ok 1, put_list processing (lrem 1 id l)
                   (if should : bool then put_list queue (id :: q) ks
                    else put_hash jobs (delete id h) ks))
      | None => (Ok 1, put_list processing (lrem 1 id l) ks)
      end
    else (Ok 0, ks).
Proof.
  intros Hjq Hpq Hh Hl Hq. unfold resurrect_claim_lua. preflight. lua_step.
  destruct (decide (id ∈ l)) as [Ec|Ec].
  2: { rewrite bool_decide_false, decide_False by tauto. done. }
  rewrite bool_decide_true by done. lua_step.
  destruct (decide (h !! id = snapshot_arg payload)) as [Ep|Ep].
  2: { rewrite decide_False by tauto. done. }
  rewrite decide_True by done. destruct (h !! id), should; repeat lua_step; done.
Qed.
End Effects.

Lemma claim_dead_run dead claim_key (ks : keyspace) :
  script_doc (claim_dead_lua dead claim_key) ks =
    match ks !! dead with
    | None => (Ok 0, ks)
    | Some v => (Ok 1, <[claim_key := v]> (delete dead ks))
    end.
Proof.
  unfold claim_dead_lua. rewrite script_call. cbn [documented].
  case_bool_decide as Hs; destruct (ks !! dead) eqn:E.
  - rewrite script_call. cbn [documented]. by rewrite E.
  - by destruct Hs.
  - destruct Hs. eauto.
  - done.
Qed.
