(* ===== verification/Storage.v ===== *)
(** * The storage operations on jobs ([storage_internal.rs])

    One definition per method of [StorageInternal] that reads or moves jobs;
    enqueueing is in Enqueue, processes and recovery are in Recovery. Clock
    readings and random values are arguments. The connections a method checks
    out are [Checkout] events; [redis] handles are not passed around. *)
From S2P Require Import Prelude Errors Redis Envelope Queue Keys Scripts.

(** The parts of [StorageInternal] its operations read. The shared failure
    counter is in Resilience. *)
Record StorageInternal := {
  storage_namespace : string;       (* as requested; the keys are built from it *)
  has_stats_pool : bool;
  storage_started_at : Z;
  storage_instance_id : string;
  storage_hostname : string;        (* gethostname() *)
  storage_pid : Z;                  (* std::process::id() *)
  dead_job_limit : option Z;        (* Option<usize> *)
}.

Abbreviation skeys st := (new_keys (storage_namespace st)).

(** [with_optional_stats_pool], [with_dead_job_limit], [for_new_process]. *)
Definition new_storage (ns : option string) (stats_pool : bool) (now : Z) (uuid host : string) (pid : Z)
    : StorageInternal :=
  {| storage_namespace := default "" ns; has_stats_pool := stats_pool; storage_started_at := now;
     storage_instance_id := uuid; storage_hostname := host; storage_pid := pid;
     dead_job_limit := Some 1000%Z |}.

Definition with_dead_job_limit (l : option Z) (st : StorageInternal) : StorageInternal :=
  {| storage_namespace := storage_namespace st; has_stats_pool := has_stats_pool st; storage_started_at := storage_started_at st;
     storage_instance_id := storage_instance_id st; storage_hostname := storage_hostname st;
     storage_pid := storage_pid st; dead_job_limit := l |}.

Definition for_new_process (now : Z) (uuid : string) (st : StorageInternal) : StorageInternal :=
  with_dead_job_limit (dead_job_limit st)
    (new_storage (Some (namespace (skeys st))) (has_stats_pool st) now uuid
       (storage_hostname st) (storage_pid st)).

(** [current_process], [current_processing_queue]; the heartbeat is not part
    of a process's identifier. *)
Definition current_process (now : Z) (st : StorageInternal) : Process :=
  {| hostname := storage_hostname st; pid := storage_pid st;
     instance_id := storage_instance_id st; heartbeat_at := now;
     proc_started_at := storage_started_at st |}.

Definition own_process_id (st : StorageInternal) : string := process_id (current_process 0 st).

Definition current_processing_queue (st : StorageInternal) : string :=
  processing_queue (skeys st) (own_process_id st).

(** ** Connections *)

Definition connection : rprog unit := perform (Checkout Primary).
Definition stats_connection (st : StorageInternal) : rprog unit :=
  perform (Checkout (if has_stats_pool st then StatsPool else Primary)).
Definition claimed_connection (operation : string) : rprog unit :=
  perform (Checkout (Claimed operation)).

Section Operations.
Context `{S : Serde} `{C : ConfigSerde}.
Variable st : StorageInternal.
Local Abbreviation ks := (skeys st).

Open Scope prog_scope.

Definition parse_job (s : string) : result OxanaError JobEnvelope := map_err JsonError (from_str s).
Definition print_job (e : JobEnvelope) : result OxanaError string := map_err JsonError (to_string e).

(** ** Queue configurations *)

Definition parse_config (s : string) : result OxanaError QueueRuntimeConfig :=
  map_err JsonError (config_from_str s).

Definition queue_config_w_conn (q : string) : rprog (option QueueRuntimeConfig) :=
  config <-? call (HGET (queue_configs ks) q) ;;
  lift (transpose (parse_config <$> config)).

Definition queue_config (q : string) : rprog (option QueueRuntimeConfig) :=
  _ <-? connection ;; queue_config_w_conn q.

Definition queue_config_or_default (q : string) (default_config : QueueRuntimeConfig)
    : rprog QueueRuntimeConfig :=
  _ <-? connection ;;
  config <-? queue_config_w_conn q ;;
  lift (Ok (match config with
            | Some config => with_defaults config default_config
            | None => default_config
            end)).

(** [queue_configs]: the configured queues among those asked for. *)
Fixpoint configs_of (qs : list string) (configs : list (option string))
    : result OxanaError (gmap string QueueRuntimeConfig) :=
  match qs, configs with
  | q :: qs', config :: configs' =>
      match config with
      | Some config =>
          res_bind (parse_config config) (fun c => res_map (fun m => <[q := c]> m) (configs_of qs' configs'))
      | None => configs_of qs' configs'
      end
  | _, _ => Ok ∅
  end.

Definition queue_configs_of (qs : list string) : rprog (gmap string QueueRuntimeConfig) :=
  match qs with
  | [] => lift (Ok ∅)
  | _ => _ <-? connection ;;
         configs <-? call (HMGET (queue_configs ks) qs) ;;
         lift (configs_of qs configs)
  end.

Definition set_queue_config (q : string) (config : QueueRuntimeConfig) : rprog unit :=
  _ <-? connection ;;
  text <-? lift (map_err JsonError (config_to_string config)) ;;
  call (HSET (queue_configs ks) q text).

Definition reset_queue_config (q : string) : rprog unit :=
  _ <-? connection ;; call (HDEL (queue_configs ks) [q]).

Definition set_queue_state (q : string) (s : QueueState) : rprog unit :=
  config <-? queue_config q ;;
  let config := default default_runtime_config config in
  set_queue_config q {| rt_concurrency := rt_concurrency config; rt_state := s |}.

(** [scan_keys_w_conn] and [queues_w_conn]; the reply is a set. *)
Definition scan_keys_w_conn (pattern : string) : rprog (gset string) :=
  keys <-? call (SCAN pattern) ;; lift (Ok (list_to_set keys)).

Definition queues_w_conn (pattern : string) : rprog (list string) :=
  keys <-? scan_keys_w_conn (namespace_queue ks pattern) ;;
  lift (Ok (omap (queue_of_key ks) (elements keys))).

Definition queues (pattern : string) : rprog (list string) :=
  _ <-? connection ;; queues_w_conn pattern.

(** ** Reading jobs *)

Definition get_job_w_conn (jid : JobId) : rprog (option JobEnvelope) :=
  text <-? call (HGET (jobs ks) jid) ;;
  lift (transpose (parse_job <$> text)).

Definition get_job (jid : JobId) : rprog (option JobEnvelope) :=
  _ <-? connection ;; get_job_w_conn jid.

(** [get_claimed_job]: each retry waits for a jittered delay and is one of
    [attempts]: [false] when the deadline, set after the first read, passes
    before the attempt has finished. *)
Definition claimed_read_delay (backoff_ms random : Z) : Z :=
  let half := (backoff_ms / 2)%Z in (half + random mod (half + 1))%Z.

Definition next_claimed_read_backoff (backoff_ms : Z) : Z := Z.min (backoff_ms * 2) 1000.

Fixpoint claimed_read_loop (jid : JobId) (attempts : list bool)
    (r : result OxanaError (option JobEnvelope)) : rprog (option JobEnvelope) :=
  match r with
  | Ok envelope => Ret (Ok envelope)
  | Err error =>
      if transient_payload_read_error error then
        match attempts with
        | true :: attempts' => r' <- get_job jid ;; claimed_read_loop jid attempts' r'
        | _ => Ret (Err error)
        end
      else Ret (Err error)
  end.

Definition get_claimed_job (jid : JobId) (attempts : list bool) : rprog (option JobEnvelope) :=
  r <- get_job jid ;; claimed_read_loop jid attempts r.

Definition jobs_w_conn (ids : list JobId) : rprog (list (option JobEnvelope)) :=
  match ids with
  | [] => lift (Ok [])
  | _ =>
      records <-? call (HMGET (jobs ks) ids) ;;
      lift (collect ((fun record => transpose (parse_job <$> record)) <$> records))
  end.

Definition get_many (ids : list JobId) : rprog (list JobEnvelope) :=
  _ <-? connection ;;
  texts <-? call (HMGET (jobs ks) ids) ;;
  lift (collect (parse_job <$> omap (fun text => text) texts)).

(** ** Updating jobs *)

Definition update_job (e : JobEnvelope) : rprog unit :=
  _ <-? connection ;;
  text <-? lift (print_job e) ;;
  pipe [HSET (jobs ks) (id e) text].

Definition update_jobs (es : list JobEnvelope) : rprog unit :=
  match es with
  | [] => lift (Ok tt)
  | _ =>
      items <-? lift (collect ((fun e => res_map (fun text => (id e, text)) (print_job e)) <$> es)) ;;
      _ <-? claimed_connection "start" ;;
      call (HSETM (jobs ks) items)
  end.

Definition update_state (jid : JobId) (s : Value) : rprog unit :=
  found <-? get_job jid ;;
  match found with
  | None => lift (Err JobNotFound)
  | Some e => update_job (map_meta (set_state (Some s)) e)
  end.

(** [set_started_at_batch] mutates its envelopes: they are the answer, also
    when the write fails. *)
Definition set_started_at_batch (now : Z) (es : list JobEnvelope)
    : prog (list JobEnvelope * result OxanaError unit) :=
  let es' := map_meta (set_started_at (Some now)) <$> es in
  r <- update_jobs es' ;; Ret (es', r).

(** [delete_job]: the queue is read from the payload as a JSON value, and a
    payload that does not say its queue makes every queue key a candidate. *)
Definition payload_queue (text : string) : option string :=
  (value_from_str text ≫= value_get "queue") ≫= value_as_str.

Definition delete_job (jid : JobId) : rprog unit :=
  _ <-? connection ;;
  raw_envelope <-? call (HGET (jobs ks) jid) ;;
  queue_keys <-? (match raw_envelope ≫= payload_queue with
                  | Some q => lift (Ok {[ namespace_queue ks q ]})
                  | None =>
                      if decide (is_Some raw_envelope)
                      then scan_keys_w_conn (namespace_queue ks "*")
                      else lift (Ok ∅)
                  end) ;;
  perform (Multi ([HDEL (jobs ks) [jid]; ZREM (schedule ks) jid; ZREM (retry ks) jid;
                   LREM (current_processing_queue st) 0 jid]
                  ++ ((fun queue_key => LREM queue_key 0 jid) <$> elements queue_keys))).

(** ** Claims *)

Definition dequeue_w_conn (q : string) : rprog (option JobId) :=
  call (LMOVE (namespace_queue ks q) (current_processing_queue st)).

Definition dequeue (q : string) : rprog (option JobId) :=
  _ <-? connection ;; dequeue_w_conn q.

(** [retry_in] after its read found the payload. The clock is read as u64, and
    the u64 arithmetic wraps. *)
Definition retry_score (now delay_s : Z) : Z := u64_wrap (u64_wrap now + u64_wrap (delay_s * 1000000)).

Definition retry_found (e : JobEnvelope) (delay_s : Z) (err : string) (now : Z) : rprog unit :=
  let updated := with_retries_incremented err e in
  text <-? lift (print_job updated) ;;
  perform (Script (retry_failed_lua (jobs ks) (retry ks) (current_processing_queue st)
    (id updated) text (retry_score now delay_s))).

Definition retry_in (jid : JobId) (delay_s : Z) (err : string) (now : Z) : rprog unit :=
  _ <-? claimed_connection "retry" ;;
  found <-? get_job_w_conn jid ;;
  match found with
  | None => call (LREM (current_processing_queue st) 1 jid)
  | Some e => retry_found e delay_s err now
  end.

Definition kill (e : JobEnvelope) (err : string) : rprog unit :=
  let e := with_error err e in
  _ <-? claimed_connection "dead" ;;
  text <-? lift (print_job e) ;;
  perform (Script (finish_dead_lua (jobs ks) (dead ks) (current_processing_queue st) (id e) text
    (default 0%Z (dead_job_limit st)))).

Definition finish_with_success_batch (es : list JobEnvelope) : rprog unit :=
  match es with
  | [] => lift (Ok tt)
  | _ =>
      _ <-? claimed_connection "acknowledge" ;;
      perform (Script (finish_success_lua (jobs ks) (current_processing_queue st) (id <$> es)))
  end.

Definition finish_with_success (e : JobEnvelope) : rprog unit := finish_with_success_batch [e].

(** ** Due and retried jobs *)

Definition transition_snapshot (jid : JobId) : rprog (option string * option JobEnvelope) :=
  payload <-? call (HGET (jobs ks) jid) ;;
  lift (res_map (fun envelope => (payload, envelope)) (transpose (parse_job <$> payload))).

Definition is_json_error (e : OxanaError) : bool :=
  match e with JsonError _ => true | _ => false end.

Definition queue_of (envelope : option JobEnvelope) : string :=
  match envelope with Some e => queue e | None => "" end.

Fixpoint promote_scheduled_jobs (schedule_queue : string) (due : list (JobId * Z)) (count : nat)
    : rprog nat :=
  match due with
  | [] => lift (Ok count)
  | (jid, score) :: due' =>
      r <- transition_snapshot jid ;;
      match r with
      | Err e =>
          if is_json_error e then promote_scheduled_jobs schedule_queue due' count else lift (Err e)
      | Ok (payload, envelope) =>
          moved <-? perform (Script (promote_scheduled_lua (jobs ks) schedule_queue
                      (namespace_queue ks (queue_of envelope)) jid (default "" payload) score)) ;;
          promote_scheduled_jobs schedule_queue due' (count + moved)
      end
  end.

Definition enqueue_scheduled (schedule_queue : string) (now : Z) : rprog nat :=
  _ <-? connection ;;
  due <-? call (ZRANGEBYSCORE schedule_queue 0 now) ;;
  promote_scheduled_jobs schedule_queue due 0.

Definition retry_all_now : rprog nat :=
  _ <-? connection ;;
  all <-? call (ZRANGE (retry ks) 0 (-1)) ;;
  promote_scheduled_jobs (retry ks) all 0.

(** ** Listing and counting

    [usize] arithmetic wraps and [as isize] reinterprets; both are the identity
    on the offsets a client sends. *)
Record QueueListOpts := { opt_count : Z; opt_offset : Z }.

Definition as_isize (n : Z) : Z := if (n <=? i64_max)%Z then n else (n - 2 ^ 64)%Z.
Definition list_start (o : QueueListOpts) : Z := as_isize (opt_offset o).
Definition list_stop (o : QueueListOpts) : Z :=
  as_isize (u64_sat_sub (u64_wrap (opt_offset o + opt_count o)) 1).

Definition jobs_listed (ids : list JobId) : rprog (list JobEnvelope) :=
  match ids with [] => lift (Ok []) | _ => get_many ids end.

Definition list_queue_jobs (q : string) (o : QueueListOpts) : rprog (list JobEnvelope) :=
  _ <-? connection ;;
  ids <-? call (LRANGE (namespace_queue ks q) (list_start o) (list_stop o)) ;;
  jobs_listed ids.

Definition list_dead (o : QueueListOpts) : rprog (list JobEnvelope) :=
  _ <-? connection ;;
  entries <-? call (LRANGE (dead ks) (list_start o) (list_stop o)) ;;
  lift (Ok (omap (fun s => res_ok (from_str s)) entries)).

Definition list_zset (key : string) (o : QueueListOpts) : rprog (list JobEnvelope) :=
  _ <-? connection ;;
  pairs <-? call (ZRANGE key (list_start o) (list_stop o)) ;;
  jobs_listed (pairs.*1).

Definition list_retries := list_zset (retry ks).
Definition list_scheduled := list_zset (schedule ks).

Definition enqueued_count (q : string) : rprog nat := _ <-? connection ;; call (LLEN (namespace_queue ks q)).
Definition dead_count : rprog nat := _ <-? connection ;; call (LLEN (dead ks)).
Definition retries_count : rprog nat := _ <-? connection ;; call (ZCARD (retry ks)).
Definition scheduled_count : rprog nat := _ <-? connection ;; call (ZCARD (schedule ks)).
Definition jobs_count : rprog nat := _ <-? connection ;; call (HLEN (jobs ks)).

(** [latency_micros]: an integer number of microseconds ([as f64]). *)
Definition latency_micros_w_conn (q : string) (now : Z) : rprog Z :=
  head <-? call (LINDEX (namespace_queue ks q) (-1)) ;;
  match head with
  | Some jid =>
      found <-? get_job_w_conn jid ;;
      lift (Ok (match found with
                | Some e => now - effective_scheduled_at_micros (meta e)
                | None => 0
                end)%Z)
  | None => lift (Ok 0%Z)
  end.

Definition latency_micros (q : string) (now : Z) : rprog Z :=
  _ <-? connection ;; latency_micros_w_conn q now.

(** ** Wiping and reviving *)

Definition wipe_queue (q : string) : rprog unit :=
  _ <-? connection ;;
  let queue_key := namespace_queue ks q in
  ids <-? call (LRANGE queue_key 0 (-1)) ;;
  match ids with
  | [] => call (DEL queue_key)
  | _ => pipe [HDEL (jobs ks) ids; DEL queue_key]
  end.

Definition wipe_dead : rprog unit := _ <-? connection ;; call (DEL (dead ks)).

Definition restore_claimed_dead_entries (claim_key : string) (entries : list string) : rprog unit :=
  _ <-? connection ;;
  match entries with
  | [] => call (DEL claim_key)
  | _ => pipe [RPUSH (dead ks) entries; DEL claim_key]
  end.

(** The loop of [revive_all_dead]; [enqueue] is the method of Enqueue. *)
Fixpoint revive_entries (enqueue : JobEnvelope -> rprog JobId) (claim_key : string)
    (entries : list string) (revived : nat) : rprog nat :=
  match entries with
  | [] => lift (Ok revived)
  | entry :: entries' =>
      match from_str entry with
      | Err _ => revive_entries enqueue claim_key entries' revived
      | Ok e =>
          r <- enqueue e ;;
          match r with
          | Err error =>
              _ <- restore_claimed_dead_entries claim_key (entry :: entries') ;;
              lift (Err error)
          | Ok _ => revive_entries enqueue claim_key entries' (revived + 1)
          end
      end
  end.

Definition reviving_key (uuid : string) : string := dead ks +:+ ":reviving:" +:+ uuid.

Definition revive_all_dead (enqueue : JobEnvelope -> rprog JobId) (uuid : string) : rprog nat :=
  let claim_key := reviving_key uuid in
  _ <-? connection ;;
  claimed <-? perform (Script (claim_dead_lua (dead ks) claim_key)) ;;
  match claimed with
  | O => lift (Ok 0)
  | _ =>
      entries <-? call (LRANGE claim_key 0 (-1)) ;;
      revived <-? revive_entries enqueue claim_key entries 0 ;;
      _ <-? connection ;;
      _ <-? call (DEL claim_key) ;;
      lift (Ok revived)
  end.

End Operations.

Arguments current_processing_queue : simpl never.

(** A process's processing list is none of the namespace's other keys. *)
Section OwnQueue.
Variable st : StorageInternal.
Lemma jobs_ne_current : jobs (skeys st) <> current_processing_queue st.
Proof. apply jobs_ne_processing. Qed.
Lemma dead_ne_current : dead (skeys st) <> current_processing_queue st.
Proof. apply dead_ne_processing. Qed.
Lemma retry_ne_current : retry (skeys st) <> current_processing_queue st.
Proof. apply retry_ne_processing. Qed.
Lemma schedule_ne_current : schedule (skeys st) <> current_processing_queue st.
Proof. apply schedule_ne_processing. Qed.
Lemma current_ne_queue q :
  starts_with (namespace (skeys st)) q = false -> current_processing_queue st <> namespace_queue (skeys st) q.
Proof. intros H. by apply processing_ne_queue. Qed.
End OwnQueue.
#[export] Hint Resolve current_ne_queue jobs_ne_current dead_ne_current retry_ne_current schedule_ne_current : keys.

(** [op_simp] runs an operation up to its next branch. *)
Ltac op_simp :=
  repeat first [ progress unfold connection, claimed_connection, stats_connection | progress run_simp ].
