(* ===== verification/Transitions.v ===== *)
(** * The job transitions, operation by operation

    What the methods of Storage do on any lawful server, branch by branch. *)
From S2P Require Import Prelude Errors Redis Envelope Codec Queue Keys Scripts Storage.

(** Which jobs a keyspace holds in flight for a process: the aggregates every
    transition of that process reads, with their types right. *)
Record job_store (st : StorageInternal) (ks : keyspace) := {
  payloads : gmap string string;
  scheduled : gmap string Z;
  retrying : gmap string Z;
  dead_letters : list string;
  claims : list string;
  payloads_at : hash_at ks (jobs (skeys st)) = Some payloads;
  scheduled_ok : zset_at ks (schedule (skeys st)) = Some scheduled;
  retrying_at : zset_at ks (retry (skeys st)) = Some retrying;
  dead_at : list_at ks (dead (skeys st)) = Some dead_letters;
  claims_at : list_at ks (current_processing_queue st) = Some claims;
}.
Arguments payloads {st ks} _.
Arguments scheduled {st ks} _.
Arguments retrying {st ks} _.
Arguments dead_letters {st ks} _.
Arguments claims {st ks} _.

(** [js'] differs from [js] only in the parts named. *)
Definition unchanged {st ks ks'} (touched : list string) (js : job_store st ks) (js' : job_store st ks') : Prop :=
  same_except touched ks ks' /\
  (jobs (skeys st) ∉ touched -> payloads js' = payloads js) /\
  (schedule (skeys st) ∉ touched -> scheduled js' = scheduled js) /\
  (retry (skeys st) ∉ touched -> retrying js' = retrying js) /\
  (dead (skeys st) ∉ touched -> dead_letters js' = dead_letters js) /\
  (current_processing_queue st ∉ touched -> claims js' = claims js).

Lemma job_store_unique st ks (js js' : job_store st ks) :
  payloads js' = payloads js /\ scheduled js' = scheduled js /\ retrying js' = retrying js /\
  dead_letters js' = dead_letters js /\ claims js' = claims js.
Proof. destruct js, js'; cbn. split_and!; congruence. Qed.

Lemma same_except_unchanged {st ks ks'} touched (js : job_store st ks) (js' : job_store st ks') :
  same_except touched ks ks' -> unchanged touched js js'.
Proof.
  intros H. split; [done|].
  assert (forall k, k ∉ touched -> hash_at ks' k = hash_at ks k /\ list_at ks' k = list_at ks k /\
    zset_at ks' k = zset_at ks k) as Hat.
  { intros k Hk. destruct (at_lookup k ks' ks (H k Hk)) as (?&?&?&_). done. }
  destruct js, js'; cbn. split_and!; intros Hk; destruct (Hat _ Hk) as (?&?&?); congruence.
Qed.

Lemma same_except_at touched ks ks' k : same_except touched ks ks' -> k ∉ touched ->
  hash_at ks' k = hash_at ks k /\ list_at ks' k = list_at ks k /\ zset_at ks' k = zset_at ks k.
Proof. intros H Hk. destruct (at_lookup k ks' ks (H k Hk)) as (?&?&?&_). done. Qed.

(** Rebuilding the store after a run whose effect on each aggregate is known. *)
Lemma job_store_intro {st ks ks'} touched (js : job_store st ks) h z r d l (P : job_store st ks' -> Prop) :
  same_except touched ks ks' ->
  hash_at ks' (jobs (skeys st)) = Some h -> zset_at ks' (schedule (skeys st)) = Some z ->
  zset_at ks' (retry (skeys st)) = Some r -> list_at ks' (dead (skeys st)) = Some d ->
  list_at ks' (current_processing_queue st) = Some l ->
  (forall js' : job_store st ks', unchanged touched js js' -> payloads js' = h -> scheduled js' = z ->
     retrying js' = r -> dead_letters js' = d -> claims js' = l -> P js') ->
  exists js', P js'.
Proof.
  intros Hs Hh Hz Hr Hd Hl HP. exists (Build_job_store st ks' h z r d l Hh Hz Hr Hd Hl).
  by apply HP; [apply same_except_unchanged|..].
Qed.

(** [store_after js Hs] applies it with the facts of an effect lemma and the
    frame [Hs]. *)
Ltac key_notin := rewrite ?not_elem_of_cons;
  split_and?; first [apply not_elem_of_nil | key_ne].
Ltac aggregate_after Hs :=
  first [ eassumption
        | lazymatch goal with |- _ _ ?k = Some _ =>
            let H1 := fresh in let H2 := fresh in let H3 := fresh in
            destruct (same_except_at _ _ _ k Hs ltac:(key_notin)) as (H1 & H2 & H3);
            first [rewrite H1 | rewrite H2 | rewrite H3]; eassumption
          end ].
Ltac open_store js :=
  pose proof (payloads_at _ _ js); pose proof (scheduled_ok _ _ js);
  pose proof (retrying_at _ _ js); pose proof (dead_at _ _ js); pose proof (claims_at _ _ js).
Ltac store_after js Hs :=
  eapply (job_store_intro _ js);
  [exact Hs | aggregate_after Hs .. | intros js' Hunchanged Hp Hsch Hret Hdead Hcl].

Section Transitions.
Context {R : RedisServer} {L : LawfulRedis R} {S : Serde} {LS : LawfulSerde S}.
Implicit Types (st : StorageInternal) (d : db).

Lemma print_parse e : exists text, print_job e = Ok text /\ from_str text = Ok e /\ text <> "".
Proof. destruct (to_string_total e) as (s & H1 & H2 & H3). exists s. unfold print_job. by rewrite H1. Qed.

(** The text of an envelope; it parses back ([payload_text_ok]). *)
Definition payload_text (e : JobEnvelope) : string := default "" (res_ok (to_string e)).

Lemma payload_text_ok e :
  print_job e = Ok (payload_text e) /\ from_str (payload_text e) = Ok e /\ payload_text e <> "".
Proof. destruct (to_string_total e) as (s & H1 & H2 & H3). unfold payload_text, print_job. by rewrite H1. Qed.

Lemma get_job_w_conn_run st jid ks h :
  hash_at ks (jobs (skeys st)) = Some h ->
  run_doc (get_job_w_conn st jid) ks = (transpose (parse_job <$> h !! jid), ks).
Proof. intros Hh. unfold get_job_w_conn. run_simp. done. Qed.

(** A failed job with a payload goes to the retry set with its retry count,
    error and due time, and only then is its claim released. *)
Lemma retry_in_stored st jid delay_s err now d (js : job_store st (view d)) e text :
  payloads js !! jid = Some text -> from_str text = Ok e ->
  yields (retry_in st jid delay_s err now) d (Ok tt) (fun ks' =>
    exists (js' : job_store st ks'),
      unchanged [jobs (skeys st); retry (skeys st); current_processing_queue st] js js' /\
      payloads js' = <[id e := payload_text (with_retries_incremented err e)]> (payloads js) /\
      retrying js' = <[id e := retry_score now delay_s]> (retrying js) /\
      claims js' = lrem 1 (id e) (claims js)).
Proof.
  intros Htext Hparse. apply yields_doc.
  destruct (payload_text_ok (with_retries_incremented err e)) as (Hprint & _ & _).
  open_store js.
  edestruct (retry_failed_run (jobs (skeys st)) (current_processing_queue st) ltac:(key_ne)
    (retry (skeys st)) (id e) (payload_text (with_retries_incremented err e)) (retry_score now delay_s))
    as (ks' & Hrun & Hh' & Hr' & Hl' & Hs); [key_ne|key_ne|eassumption..|].
  exists ks'. split.
  - unfold retry_in. op_simp. erewrite get_job_w_conn_run, Htext by eassumption.
    cbn [fmap option_fmap option_map transpose]. unfold parse_job. rewrite Hparse. cbn [map_err transpose].
    unfold retry_found. rewrite Hprint. op_simp.
    change (id (with_retries_incremented err e)) with (id e). by rewrite Hrun.
  - store_after js Hs. done.
Qed.

(** A failed job whose payload is gone only releases its claim. *)
Lemma retry_in_missing st jid delay_s err now d (js : job_store st (view d)) :
  payloads js !! jid = None ->
  yields (retry_in st jid delay_s err now) d (Ok tt) (fun ks' =>
    exists js' : job_store st ks',
      unchanged [current_processing_queue st] js js' /\ claims js' = lrem 1 jid (claims js)).
Proof.
  intros Hnone. apply yields_doc. open_store js.
  exists (put_list (current_processing_queue st) (lrem 1 jid (claims js)) (view d)). split.
  - unfold retry_in. op_simp. erewrite get_job_w_conn_run, Hnone by eassumption.
    cbn [fmap option_fmap option_map transpose]. by run_simp.
  - assert (same_except [current_processing_queue st] (view d)
      (put_list (current_processing_queue st) (lrem 1 jid (claims js)) (view d))) as Hs by frame.
    assert (list_at (put_list (current_processing_queue st) (lrem 1 jid (claims js)) (view d))
      (current_processing_queue st) = Some (lrem 1 jid (claims js))) by (by ks_simp).
    store_after js Hs. done.
Qed.

(** What a failed job becomes, branch by branch: with a payload it goes to the
    retry set with its count raised, its error and its due time; with its
    payload gone it only gives up its claim; a payload that does not parse is
    an error that changes nothing. *)
Theorem retry_in_branches st jid delay_s err now d (js : job_store st (view d)) :
  match from_str <$> payloads js !! jid with
  | None => yields (retry_in st jid delay_s err now) d (Ok tt) (fun ks' =>
      exists js' : job_store st ks',
        unchanged [current_processing_queue st] js js' /\ claims js' = lrem 1 jid (claims js))
  | Some (Err bad) => yields (retry_in st jid delay_s err now) d (Err (JsonError bad)) (fun ks' => ks' = view d)
  | Some (Ok e) => yields (retry_in st jid delay_s err now) d (Ok tt) (fun ks' =>
      exists (js' : job_store st ks'),
        unchanged [jobs (skeys st); retry (skeys st); current_processing_queue st] js js' /\
        payloads js' = <[id e := payload_text (with_retries_incremented err e)]> (payloads js) /\
        retrying js' = <[id e := retry_score now delay_s]> (retrying js) /\
        claims js' = lrem 1 (id e) (claims js))
  end.
Proof.
  destruct (payloads js !! jid) as [text|] eqn:Hjid; [|by apply retry_in_missing]. cbn [fmap option_fmap option_map].
  destruct (from_str text) as [e|bad] eqn:Hparse; [by eapply retry_in_stored|].
  apply yields_doc. exists (view d). split; [|done]. open_store js. unfold retry_in. op_simp.
  erewrite get_job_w_conn_run, Hjid by eassumption. cbn. unfold parse_job. by rewrite Hparse.
Qed.

(** What [kill] does to the aggregates. *)
Lemma kill_effect st e err d (js : job_store st (view d)) :
  yields (kill st e err) d (Ok tt) (fun ks' =>
    exists js' : job_store st ks',
      unchanged [jobs (skeys st); dead (skeys st); current_processing_queue st] js js' /\
      payloads js' = delete (id e) (payloads js) /\
      claims js' = lrem 1 (id e) (claims js) /\
      dead_letters js' = trim_dead (default 0%Z (dead_job_limit st))
        (payload_text (with_error err e) :: dead_letters js)).
Proof.
  apply yields_doc. destruct (payload_text_ok (with_error err e)) as (Hprint & _ & _).
  set (text := payload_text (with_error err e)) in *. open_store js.
  edestruct (finish_dead_run (jobs (skeys st)) (current_processing_queue st) ltac:(key_ne)
    (dead (skeys st)) (id e) text (default 0%Z (dead_job_limit st)))
    as (ks' & Hrun & Hh' & Hd' & Hl' & Hs); [key_ne|key_ne|eassumption..|].
  exists ks'. split.
  - unfold kill. op_simp. rewrite Hprint. op_simp. change (id (with_error err e)) with (id e). by rewrite Hrun.
  - store_after js Hs. by rewrite Hdead.
Qed.

(** C27. A job that is killed moves to the head of the dead letters, with its error;
    without a limit every dead letter is kept, with one at most
    [dead_job_limit] are, the newest, this one among them. *)
Theorem kill_buries st e err d (js : job_store st (view d)) :
  yields (kill st e err) d (Ok tt) (fun ks' =>
    exists (js' : job_store st ks') text, from_str text = Ok (with_error err e) /\
      unchanged [jobs (skeys st); dead (skeys st); current_processing_queue st] js js' /\
      payloads js' !! id e = None /\
      claims js' = lrem 1 (id e) (claims js) /\
      match dead_job_limit st with
      | None => dead_letters js' = text :: dead_letters js
      | Some limit => (0 < limit)%Z ->
          (Z.of_nat (length (dead_letters js')) <= limit)%Z /\ head (dead_letters js') = Some text /\
          dead_letters js' `prefix_of` (text :: dead_letters js)
      end).
Proof.
  destruct (kill_effect st e err d js) as (d' & Hrun & js' & Hun & Hp & Hc & Hd).
  destruct (payload_text_ok (with_error err e)) as (_ & Hparse & _).
  exists d'. split; [done|]. exists js', (payload_text (with_error err e)).
  split_and!; [done|done|by rewrite Hp, lookup_delete_eq|done|].
  rewrite Hd. unfold trim_dead. destruct (dead_job_limit st) as [limit|]; cbn; [|done].
  intros Hlim. rewrite (proj2 (Z.ltb_lt 0 limit) Hlim).
  split; [rewrite length_take; lia|]. split; [by destruct (Z.to_nat limit) eqn:E; [lia|]|apply prefix_take].
Qed.

(** A batch that succeeded is acknowledged at once: its payloads are gone and
    each of its claims is released, the other jobs of the process stay. *)
Theorem finish_batch_acknowledges st es d (js : job_store st (view d)) :
  yields (finish_with_success_batch st es) d (Ok tt) (fun ks' =>
    exists js' : job_store st ks',
      unchanged [jobs (skeys st); current_processing_queue st] js js' /\
      (forall jid, payloads js' !! jid = if decide (jid ∈ id <$> es) then None else payloads js !! jid) /\
      (forall jid, occurrences jid (claims js') = (occurrences jid (claims js) - occurrences jid (id <$> es))%nat)).
Proof.
  apply yields_doc. open_store js. destruct es as [|e es].
  - exists (view d). split; [done|]. pose proof (same_except_refl [jobs (skeys st); current_processing_queue st] (view d)) as Hs.
    store_after js Hs. split_and!; [done| |]; intros jid; [by rewrite Hp|rewrite Hcl; cbn; lia].
  - edestruct (finish_success_run (jobs (skeys st)) (current_processing_queue st) ltac:(key_ne)
      (view d) (payloads js) (claims js) (id <$> e :: es)) as (ks' & Hrun & Hh' & Hl' & Hs); [eassumption..|].
    exists ks'. split.
    + unfold finish_with_success_batch. op_simp. by rewrite Hrun.
    + store_after js Hs. split; [done|]. split; intros jid.
      * rewrite Hp. apply hdel_all_lookup.
      * rewrite Hcl. apply occurrences_foldl_lrem.
Qed.

(** A worker claims the oldest job of a queue; an empty queue gives none. *)
Theorem dequeue_claims_oldest st q d (js : job_store st (view d)) waiting :
  starts_with (namespace (skeys st)) q = false ->
  list_at (view d) (namespace_queue (skeys st) q) = Some waiting ->
  yields (dequeue st q) d (Ok (last waiting)) (fun ks' =>
    exists js' : job_store st ks',
      unchanged [namespace_queue (skeys st) q; current_processing_queue st] js js' /\
      list_at ks' (namespace_queue (skeys st) q) = Some (removelast waiting) /\
      claims js' = option_list (last waiting) ++ claims js).
Proof.
  clear LS S. intros Hq Hl. apply yields_doc. open_store js. unfold dequeue, dequeue_w_conn. op_simp.
  destruct waiting as [|x waiting _] using rev_ind.
  - exists (view d). rewrite run_call. cbn [documented]. unfold lmove. rewrite Hl. cbn. split; [done|].
    pose proof (same_except_refl [namespace_queue (skeys st) q; current_processing_queue st] (view d)) as Hs.
    store_after js Hs. done.
  - rewrite last_snoc, removelast_last.
    set (ks1 := put_list (namespace_queue (skeys st) q) waiting (view d)).
    exists (put_list (current_processing_queue st) (x :: claims js) ks1). split.
    + rewrite run_call. cbn [documented]. unfold lmove. rewrite Hl, unsnoc_snoc. fold ks1.
      assert (list_at ks1 (current_processing_queue st) = Some (claims js)) as -> by (unfold ks1; by ks_simp). done.
    + assert (same_except [namespace_queue (skeys st) q; current_processing_queue st] (view d)
        (put_list (current_processing_queue st) (x :: claims js) ks1)) as Hs by (unfold ks1; frame).
      assert (list_at (put_list (current_processing_queue st) (x :: claims js) ks1)
        (current_processing_queue st) = Some (x :: claims js)) by (by ks_simp).
      store_after js Hs. split; [done|]. split; [unfold ks1; by ks_simp|done].
Qed.

(** *** Deleting a job *)

(** The queue a payload names. *)
Definition named_queue (p : gmap string string) (jid : JobId) : option string := p !! jid ≫= payload_queue.

Lemma delete_multi_run st jid (queue_keys : list string) ks (js : job_store st ks) :
  Forall (fun k => k ∉ [jobs (skeys st); schedule (skeys st); retry (skeys st); dead (skeys st); current_processing_queue st]) queue_keys ->
  (length queue_keys <= 1)%nat -> Forall (fun k => is_Some (list_at ks k)) queue_keys ->
  exists ks', run_doc (perform (Multi ([HDEL (jobs (skeys st)) [jid]; ZREM (schedule (skeys st)) jid; ZREM (retry (skeys st)) jid;
      LREM (current_processing_queue st) 0 jid] ++ ((fun queue_key => LREM queue_key 0 jid) <$> queue_keys)))) ks = (Ok tt, ks') /\
    hash_at ks' (jobs (skeys st)) = Some (delete jid (payloads js)) /\
    zset_at ks' (schedule (skeys st)) = Some (delete jid (scheduled js)) /\
    zset_at ks' (retry (skeys st)) = Some (delete jid (retrying js)) /\
    list_at ks' (current_processing_queue st) = Some (lrem 0 jid (claims js)) /\
    (forall k, k ∈ queue_keys -> list_at ks' k = lrem 0 jid <$> list_at ks k) /\
    same_except ([jobs (skeys st); schedule (skeys st); retry (skeys st); current_processing_queue st] ++ queue_keys) ks ks'.
Proof.
  clear LS S. intros Hne Hlen Hty. open_store js.
  set (ks4 := put_list (current_processing_queue st) (lrem 0 jid (claims js)) (put_zset (retry (skeys st)) (delete jid (retrying js))
    (put_zset (schedule (skeys st)) (delete jid (scheduled js)) (put_hash (jobs (skeys st)) (delete jid (payloads js)) ks)))).
  assert (forall cs, run_doc (perform (Multi ([HDEL (jobs (skeys st)) [jid]; ZREM (schedule (skeys st)) jid; ZREM (retry (skeys st)) jid;
      LREM (current_processing_queue st) 0 jid] ++ cs))) ks =
    (map_err DeadpoolRedisError (fst (@run_multi MemRedis cs ks4)), snd (@run_multi MemRedis cs ks4))) as Hrun.
  { intros cs. rewrite run_perform. cbn [run_event run_multi app exec MemRedis documented].
    erewrite write_hash_ok by eassumption. cbn [app run_multi exec MemRedis documented].
    do 2 (erewrite write_zset_ok by (ks_simp; eassumption); cbn [app run_multi exec MemRedis documented]).
    erewrite write_list_ok by (ks_simp; eassumption). cbn [run_multi]. change (hdel_all [jid] (payloads js)) with (delete jid (payloads js)).
    fold ks4. by destruct (@run_multi MemRedis cs ks4) as [[]]. }
  assert (same_except [jobs (skeys st); schedule (skeys st); retry (skeys st); current_processing_queue st] ks ks4) as Hs4
    by (unfold ks4; frame).
  rewrite Hrun. destruct queue_keys as [|k [|? ?]]; [| |cbn in Hlen; lia].
  - exists ks4. rewrite app_nil_r. cbn. split_and!; [done|unfold ks4; by ks_simp..|by intros k ?%elem_of_nil|done].
  - rewrite Forall_singleton in Hne, Hty. destruct Hty as [l Hl]. rewrite !not_elem_of_cons in Hne. destruct Hne as (?&?&?&?&?&_).
    exists (put_list k (lrem 0 jid l) ks4). cbn [fmap list_fmap run_multi exec MemRedis documented].
    erewrite write_list_ok by (unfold ks4; ks_simp; exact Hl). unfold ks4.
    split_and!; [done|by ks_simp..| |].
    + intros k' ->%list_elem_of_singleton. rewrite Hl. by ks_simp.
    + apply same_except_list; [set_solver|].
      eapply same_except_weaken; [exact Hs4|set_solver].
Qed.

(** A deleted job is gone: from the payloads, the schedule, the retry set, the
    claims of this process, and the queue its payload names; nothing else
    changes. *)
Theorem delete_job_removes st jid d (js : job_store st (view d)) :
  (is_Some (payloads js !! jid) -> is_Some (named_queue (payloads js) jid)) ->
  (forall q, named_queue (payloads js) jid = Some q ->
     starts_with (namespace (skeys st)) q = false /\ is_Some (list_at (view d) (namespace_queue (skeys st) q))) ->
  yields (delete_job st jid) d (Ok tt) (fun ks' =>
    exists js' : job_store st ks',
      payloads js' = delete jid (payloads js) /\ scheduled js' = delete jid (scheduled js) /\
      retrying js' = delete jid (retrying js) /\ claims js' = lrem 0 jid (claims js) /\
      dead_letters js' = dead_letters js /\
      forall q, starts_with (namespace (skeys st)) q = false ->
        list_at ks' (namespace_queue (skeys st) q) =
          if decide (named_queue (payloads js) jid = Some q) then lrem 0 jid <$> list_at (view d) (namespace_queue (skeys st) q)
          else list_at (view d) (namespace_queue (skeys st) q)).
Proof.
  clear LS. intros Hsays Hnamed. apply yields_doc. set (queue_keys := namespace_queue (skeys st) <$> option_list (named_queue (payloads js) jid)).
  assert (forall q, starts_with (namespace (skeys st)) q = false -> namespace_queue (skeys st) q ∈ queue_keys <-> named_queue (payloads js) jid = Some q) as Hin.
  { intros q Hq. unfold queue_keys. destruct (named_queue _ _) as [q'|] eqn:E; cbn; [|by rewrite elem_of_nil].
    rewrite list_elem_of_singleton. split; [|by intros [= ->]]. intros ->%namespace_queue_inj; [done..|by apply Hnamed]. }
  destruct (delete_multi_run st jid queue_keys (view d) js) as (ks' & Hrun & Hh & Hz & Hr & Hl & Hq & Hs).
  - unfold queue_keys. destruct (named_queue _ _) as [q|]; cbn; constructor; [|done]. destruct (Hnamed q eq_refl) as [Hq _]. key_notin.
  - unfold queue_keys. destruct (named_queue _ _); cbn; lia.
  - unfold queue_keys. destruct (named_queue _ _) as [q|]; cbn; constructor; [|done]. by apply Hnamed.
  - exists ks'. split.
    + open_store js. unfold delete_job. op_simp. unfold queue_keys in Hrun. fold (named_queue (payloads js) jid). destruct (named_queue _ _) as [q|] eqn:E.
      * rewrite run_lift, elements_singleton. exact Hrun.
      * rewrite decide_False by (intros H'; by destruct (Hsays H')). rewrite run_lift, elements_empty. exact Hrun.
    + assert (forall k, k ∉ [jobs (skeys st); schedule (skeys st); retry (skeys st); current_processing_queue st] -> k ∉ queue_keys ->
        list_at ks' k = list_at (view d) k) as Hframe.
      { intros k Hk1 Hk2. apply (same_except_at _ _ _ k Hs). by rewrite not_elem_of_app. }
      assert (list_at ks' (dead (skeys st)) = Some (dead_letters js)) as Hd.
      { rewrite Hframe; [apply (dead_at _ _ js)|key_notin|]. unfold queue_keys. destruct (named_queue _ _) as [q|]; cbn; [|apply not_elem_of_nil].
        destruct (Hnamed q eq_refl) as [Hq' _]. key_notin. }
      store_after js Hs. split_and!; [done..|]. intros q Hpq. case_decide as E; [by apply Hq, Hin|].
      apply Hframe; [key_notin|by rewrite Hin].
Qed.

(** The transitions of a claimed job. *)
Inductive claimed_transition st : rprog unit -> Prop :=
| by_kill e err : claimed_transition st (kill st e err)
| by_retry jid delay_s err now : claimed_transition st (retry_in st jid delay_s err now)
| by_finish es : claimed_transition st (finish_with_success_batch st es).

Lemma preflight_error kts {A} (body : lua A) (ks : keyspace) :
  (types_ok kts ks = true -> exists a, fst (script_doc (require_types kts body) ks) = Ok a) ->
  forall r ks', run_doc (perform (Script (require_types kts body))) ks = (Err r, ks') -> ks' = ks.
Proof.
  intros Hok r ks'. rewrite run_script. rewrite require_types_run in *. destruct (types_ok kts ks).
  - destruct (Hok eq_refl) as [a ->]. done.
  - cbn. by intros [= _ <-].
Qed.

Lemma retry_found_error st e delay_s err now ks r ks' :
  run_doc (retry_found st e delay_s err now) ks = (Err r, ks') -> ks' = ks.
Proof.
  unfold retry_found. rewrite run_try, run_lift.
  destruct (print_parse (with_retries_incremented err e)) as (text & -> & _ & _).
  apply preflight_error. intros E. with_types E.
  edestruct (retry_failed_run (jobs (skeys st)) (current_processing_queue st) ltac:(key_ne)
    (retry (skeys st)) (id (with_retries_incremented err e)) text (retry_score now delay_s) ks)
    as (ks'' & Hrun & _); [key_ne|key_ne|eassumption..|].
  unfold retry_failed_lua in Hrun. rewrite Hrun. by eexists.
Qed.

End Transitions.

Definition sample_storage : StorageInternal := new_storage (Some "app") false 0 "u" "h" 1.
Definition sample_text : string := sample_payload (sample_envelope "a" "q" false None).
Definition sample_ks : keyspace :=
  <[jobs (skeys sample_storage) := VHash {[ "a" := sample_text ]}]>
  (<[current_processing_queue sample_storage := VList ["a"]]> ∅).

Definition sample_store : job_store sample_storage sample_ks.
Proof.
  refine (Build_job_store _ _ {[ "a" := sample_text ]} ∅ ∅ [] ["a"] _ _ _ _ _); vm_compute; reflexivity.
Defined.
