(* ===== verification/Promotion.v ===== *)
(** * Due jobs ([enqueue_scheduled] and [retry_all_now])

    The loop over the due members of a sorted set moves every one whose payload
    can be read to its queue, in the order of the set, drops the members whose
    payload is gone, and leaves the rest. *)
From S2P Require Import Prelude Errors Redis Envelope Codec Queue Keys Scripts Storage Transitions.

Section Promotion.
Context {R : RedisServer} {L : LawfulRedis R} {S : Serde} {LS : LawfulSerde S}.
Variable st : StorageInternal.
Implicit Types (ks : keyspace) (h : gmap string string) (z : gmap string Z).
Local Abbreviation keys := (skeys st).

(** What the loop does with a member, given the stored payloads. *)
Definition target h (jid : JobId) : option string :=
  match h !! jid with
  | Some text => match from_str text with Ok e => Some (queue e) | Err _ => None end
  | None => None
  end.
Definition unreadable h (jid : JobId) : bool :=
  match h !! jid with Some text => match from_str text with Ok _ => false | Err _ => true end | None => false end.

(** Every queue a stored payload names is an ordinary name with a list key; the
    script for a member without a payload is given the key of the empty name. *)
Definition queues_typed h ks : Prop :=
  is_Some (list_at ks (namespace_queue keys "")) /\
  forall jid q, target h jid = Some q ->
    starts_with (namespace keys) q = false /\ is_Some (list_at ks (namespace_queue keys q)).

Section Loop.
Variable sq : string.
Hypothesis sq_zset : sq = schedule keys \/ sq = retry keys.

Lemma jobs_ne_sq : jobs keys <> sq.
Proof. destruct sq_zset as [-> | ->]; key_ne. Qed.
Lemma sq_ne_queue q : starts_with (namespace keys) q = false -> sq <> namespace_queue keys q.
Proof. intros Hq. destruct sq_zset as [-> | ->]; key_ne. Qed.
#[local] Hint Resolve jobs_ne_sq sq_ne_queue empty_name_plain : keys.

(** One member. *)
Definition promote_one h (jid : JobId) z ks : keyspace :=
  if unreadable h jid then ks
  else match target h jid with
       | Some q => put_zset sq (delete jid z)
                     (put_list (namespace_queue keys q) (jid :: default [] (list_at ks (namespace_queue keys q))) ks)
       | None => put_zset sq (delete jid z) ks
       end.

Lemma promote_step jid score due ks h z count :
  hash_at ks (jobs keys) = Some h -> zset_at ks sq = Some z -> z !! jid = Some score -> queues_typed h ks ->
  run_doc (promote_scheduled_jobs st sq ((jid, score) :: due) count) ks =
  run_doc (promote_scheduled_jobs st sq due (count + (match target h jid with Some _ => 1 | None => 0 end)))
    (promote_one h jid z ks).
Proof.
  intros Hh Hz Hscore [[l0 Hl0] Hty]. cbn [promote_scheduled_jobs]. rewrite run_pbind. unfold transition_snapshot. run_simp.
  specialize (Hty jid). unfold promote_one, target, unreadable in *.
  destruct (h !! jid) as [text|] eqn:Et; cbn [fmap option_fmap option_map transpose].
  - unfold parse_job. destruct (from_str text) as [e|err] eqn:Ep; cbn [map_err transpose res_map is_json_error].
    + destruct (Hty _ eq_refl) as [Hplain [l Hl]]. rewrite run_try, run_script. cbn [queue_of default from_option].
      erewrite promote_scheduled_run by (try eassumption; key_ne).
      assert (snapshot_arg text = Some text) as Hsnap.
      { unfold snapshot_arg. case_decide; [|done]. subst. by apply empty_not_json in Ep. }
      change (Datatypes.id text) with text. rewrite Hsnap, Et, decide_True by done.
      cbn [fst snd map_err]. by rewrite Hl.
    + by rewrite Nat.add_0_r.
  - cbn [res_map]. rewrite run_try, run_script. cbn [queue_of default from_option].
    erewrite promote_scheduled_run by (try eassumption; key_ne).
    rewrite Et, decide_True by done. done.
Qed.

(** The effect of the whole loop. *)
Definition promoted h (due : list JobId) z : gmap string Z :=
  filter (fun p => ~ (p.1 ∈ due /\ unreadable h p.1 = false)) z.

Lemma promote_one_facts h jid z ks q l :
  zset_at ks sq = Some z -> hash_at ks (jobs keys) = Some h -> queues_typed h ks ->
  starts_with (namespace keys) q = false -> list_at ks (namespace_queue keys q) = Some l ->
  list_at (promote_one h jid z ks) (namespace_queue keys q) =
    Some (if decide (target h jid = Some q) then jid :: l else l).
Proof.
  intros Hz Hh Hty Hq Hl. unfold promote_one. assert (unreadable h jid = true -> target h jid = None) as Hun.
  { unfold unreadable, target. destruct (h !! jid); [|done]. by destruct (from_str s). }
  destruct (unreadable h jid); [by rewrite Hun|].
  destruct (target h jid) as [q'|] eqn:Et; [|rewrite decide_False by done; by ks_simp].
  destruct Hty as [_ Hty]. destruct (Hty jid q' Et) as [Hq' [l' Hl']]. rewrite Hl'. cbn [default from_option].
  destruct (decide (Some q' = Some q)) as [[= ->]|Hne].
  - ks_simp. by simplify_eq.
  - assert (namespace_queue keys q' <> namespace_queue keys q) by (intros ?%namespace_queue_inj; congruence).
    by ks_simp.
Qed.

Lemma promote_one_zset h jid z ks :
  zset_at ks sq = Some z -> zset_at (promote_one h jid z ks) sq = Some (if unreadable h jid then z else delete jid z).
Proof. intros Hz. unfold promote_one. destruct (unreadable h jid); [done|]. destruct (target h jid); by ks_simp. Qed.

Lemma promote_one_frame h jid z ks k :
  queues_typed h ks -> k <> sq -> (forall q, starts_with (namespace keys) q = false -> k <> namespace_queue keys q) ->
  promote_one h jid z ks !! k = ks !! k.
Proof.
  intros [_ Hty] Hk Hkq. unfold promote_one. destruct (unreadable h jid); [done|].
  destruct (target h jid) as [q|] eqn:E.
  - destruct (Hty _ _ E) as [Hq _]. specialize (Hkq q Hq).
    rewrite lookup_put_zset_ne, lookup_put_list_ne by (by apply not_eq_sym). done.
  - by rewrite lookup_put_zset_ne by (by apply not_eq_sym).
Qed.

Lemma promoted_cons h jid due z :
  promoted h (jid :: due) z = promoted h due (if unreadable h jid then z else delete jid z).
Proof.
  apply map_eq. intros i. apply option_eq. intros v. unfold promoted. rewrite !map_lookup_filter_Some. cbn [fst].
  destruct (unreadable h jid) eqn:Eu.
  - rewrite elem_of_cons. split; intros [Hz Hn]; (split; [done|]); intros [Hin Hi]; apply Hn; [tauto|].
    destruct Hin as [-> |?]; [congruence|done].
  - destruct (decide (i = jid)) as [->|Hne].
    + rewrite lookup_delete_eq. split; [|by intros [? _]]. intros [_ Hn]. destruct Hn. split; [by left|done].
    + rewrite lookup_delete_ne, elem_of_cons by done. naive_solver.
Qed.

Lemma promote_run due : forall ks h z count,
  hash_at ks (jobs keys) = Some h -> zset_at ks sq = Some z -> queues_typed h ks ->
  NoDup due.*1 -> Forall (fun p => z !! p.1 = Some p.2) due ->
  exists ks', run_doc (promote_scheduled_jobs st sq due count) ks = (Ok (count + length (omap (target h) due.*1)), ks') /\
    zset_at ks' sq = Some (promoted h due.*1 z) /\
    (forall q l, starts_with (namespace keys) q = false -> list_at ks (namespace_queue keys q) = Some l ->
       list_at ks' (namespace_queue keys q) = Some (reverse (filter (fun jid => target h jid = Some q) due.*1) ++ l)) /\
    (forall k, k <> sq -> (forall q, starts_with (namespace keys) q = false -> k <> namespace_queue keys q) ->
       ks' !! k = ks !! k).
Proof.
  induction due as [|[jid score] due IH]; intros ks h z count Hh Hz Hty Hnd Hdue.
  { exists ks. cbn. rewrite Nat.add_0_r. split_and!; try done. rewrite Hz. f_equal. unfold promoted.
    symmetry. apply map_filter_id. intros ? ? _ [?%elem_of_nil _]. done. }
  cbn [fmap list_fmap fst] in *. apply NoDup_cons in Hnd as [Hnotin Hnd]. apply Forall_cons in Hdue as [Hscore Hdue].
  rewrite (promote_step _ _ _ _ h z) by done. set (ks1 := promote_one h jid z ks).
  assert (hash_at ks1 (jobs keys) = Some h) as Hh1.
  { destruct (at_lookup (jobs keys) ks1 ks) as (-> & _); [|done].
    apply promote_one_frame; [done|key_ne|]. intros q Hq. key_ne. }
  assert (queues_typed h ks1) as Hty1.
  { pose proof Hty as [[l0 Hl0] Hq]. split.
    - unfold ks1. erewrite promote_one_facts by (eauto using empty_name_plain). by eexists.
    - intros jid' q' E. destruct (Hq jid' q' E) as [Hp [l' Hl']]. split; [done|].
      unfold ks1. erewrite promote_one_facts by eauto. by eexists. }
  edestruct (IH ks1 h (if unreadable h jid then z else delete jid z)
    (count + match target h jid with Some _ => 1 | None => 0 end)) as (ks' & Hrun & Hz' & Hl' & Hf);
    [done|by apply promote_one_zset|done|done| |].
  { apply Forall_forall. intros [j sc] Hin. rewrite Forall_forall in Hdue. specialize (Hdue _ Hin). cbn in *.
    destruct (unreadable h jid); [done|]. rewrite lookup_delete_ne; [done|]. intros ->. apply Hnotin.
    apply list_elem_of_fmap. by exists (j, sc). }
  exists ks'. split_and!.
  - rewrite Hrun. do 2 f_equal. cbn [omap list_omap]. destruct (target h jid); cbn; lia.
  - by rewrite promoted_cons.
  - intros q l Hq Hl. erewrite (Hl' q) by (try done; by eapply promote_one_facts). f_equal.
    rewrite filter_cons. case_decide; [|done]. rewrite reverse_cons. by rewrite <- app_assoc.
  - intros k Hk Hkq. rewrite Hf by done. by apply promote_one_frame.
Qed.
End Loop.

Lemma zset_sorted_facts z : NoDup (zset_sorted z).*1 /\ forall jid score, (jid, score) ∈ zset_sorted z <-> z !! jid = Some score.
Proof.
  unfold zset_sorted. pose proof (merge_sort_Permutation zle (map_to_list z)) as Hperm. split.
  - rewrite Hperm. apply NoDup_fst_map_to_list.
  - intros jid score. by rewrite Hperm, elem_of_map_to_list.
Qed.
Lemma zrangebyscore_facts lo hi z :
  NoDup (zrangebyscore_pairs lo hi z).*1 /\
  forall jid score, (jid, score) ∈ zrangebyscore_pairs lo hi z <-> z !! jid = Some score /\ (lo <= score <= hi)%Z.
Proof.
  destruct (zset_sorted_facts z) as [Hnd Hin]. unfold zrangebyscore_pairs. split.
  - revert Hnd. generalize (zset_sorted z). intros l. induction l as [|p l IH]; [done|].
    cbn [fmap list_fmap]. intros [Hn H]%NoDup_cons. rewrite filter_cons. case_decide; [|by apply IH].
    cbn [fmap list_fmap]. apply NoDup_cons. split; [|by apply IH]. intros (p' & E & [_ ?]%list_elem_of_filter)%list_elem_of_fmap.
    apply Hn. apply list_elem_of_fmap. eauto.
  - intros jid score. rewrite list_elem_of_filter, Hin. cbn. naive_solver.
Qed.

(** C8. The scheduler moves the jobs that are due: when it returns, the schedule
    (or the retry set) holds no member due by [now], except those whose payload
    cannot be read; every due job with a payload is on its queue, the earliest
    nearest the claiming end; nothing else has changed. *)
Theorem due_jobs_promoted sq now d (js : job_store st (view d)) z :
  sq = schedule keys \/ sq = retry keys -> zset_at (view d) sq = Some z -> queues_typed (payloads js) (view d) ->
  let due := (zrangebyscore_pairs 0 now z).*1 in
  yields (enqueue_scheduled st sq now) d (Ok (length (omap (target (payloads js)) due))) (fun ks' =>
    (exists z', zset_at ks' sq = Some z' /\
       forall jid score, z' !! jid = Some score <->
         z !! jid = Some score /\ ~ ((0 <= score <= now)%Z /\ unreadable (payloads js) jid = false)) /\
    (forall q l, starts_with (namespace keys) q = false -> list_at (view d) (namespace_queue keys q) = Some l ->
       list_at ks' (namespace_queue keys q) =
         Some (reverse (filter (fun jid => target (payloads js) jid = Some q) due) ++ l)) /\
    (forall k, k <> sq -> (forall q, starts_with (namespace keys) q = false -> k <> namespace_queue keys q) ->
       ks' !! k = view d !! k)).
Proof.
  intros Hsq Hz Hty due. apply yields_doc. open_store js.
  destruct (zrangebyscore_facts 0 now z) as [Hnd Hin].
  edestruct (promote_run sq Hsq (zrangebyscore_pairs 0 now z) (view d) (payloads js) z 0)
    as (ks' & Hrun & Hz' & Hl' & Hf); [done..| |].
  { apply Forall_forall. intros [j sc] [? _]%Hin. done. }
  exists ks'. split; [|split_and!; [|done..]].
  - unfold enqueue_scheduled. op_simp. by rewrite Hrun.
  - eexists. split; [exact Hz'|]. intros jid score. unfold promoted. rewrite map_lookup_filter_Some. cbn [fst].
    split; intros [Hs Hn]; (split; [done|]); intros [Ha Hb]; apply Hn; (split; [|done]).
    + apply list_elem_of_fmap. exists (jid, score). split; [done|]. by apply Hin.
    + apply list_elem_of_fmap in Ha as ([j sc] & -> & [? ?]%Hin). cbn in *. by simplify_eq.
Qed.
End Promotion.
