(* ===== verification/JobState.v ===== *)
(** * The state a job keeps between runs ([job_state.rs])

    serde's untagged representation of a progress value is modelled on JSON
    values; the iterator's items are a list with the size hint the iterator
    gives. *)
From S2P Require Import Prelude Errors Redis Envelope Codec Queue Keys Scripts Storage Transitions.

Record JobProgress := { cursor : Z; total : Z; note : option string }.   (* i64, i64 *)

(** [From<i64>], [From<(i64, i64)>], [From<(i64, i64, Option<String>)>]. *)
Definition progress_of_cursor (c : Z) : JobProgress := {| cursor := c; total := 0; note := None |}.
Definition progress_of_pair (c t : Z) : JobProgress := {| cursor := c; total := t; note := None |}.
Definition progress_of_triple (c t : Z) (n : option string) : JobProgress := {| cursor := c; total := t; note := n |}.

(** [Serialize for JobProgress]: a missing note is not written. *)
Definition progress_to_value (p : JobProgress) : Value :=
  VObject ([("cursor", VNumber (NumInt (cursor p))); ("total", VNumber (NumInt (total p)))]
           ++ match note p with Some n => [("note", VStr n)] | None => [] end).

(** Reading an [i64] and an [Option<String>] from a value. *)
Definition value_i64 (v : Value) : option Z :=
  match v with
  | VNumber (NumInt n) => if decide (i64_min <= n <= i64_max)%Z then Some n else None
  | _ => None
  end.
Definition value_opt_string (v : Value) : option (option string) :=
  match v with VNull => Some None | VStr s => Some (Some s) | _ => None end.

(** [JobProgressRepr]: the variants are tried in order. *)
Definition repr_struct (v : Value) : option JobProgress :=
  match v with
  | VObject fields =>
      c ← field_of "cursor" fields ≫= value_i64;
      t ← (match field_of "total" fields with Some t => value_i64 t | None => Some 0%Z end);
      n ← (match field_of "note" fields with Some n => value_opt_string n | None => Some None end);
      Some {| cursor := c; total := t; note := n |}
  | _ => None
  end.
Definition repr_tuple3 (v : Value) : option JobProgress :=
  match v with
  | VArray [c; t; n] =>
      c ← value_i64 c; t ← value_i64 t; n ← value_opt_string n; Some {| cursor := c; total := t; note := n |}
  | _ => None
  end.
Definition repr_tuple2 (v : Value) : option JobProgress :=
  match v with VArray [c; t] => c ← value_i64 c; t ← value_i64 t; Some (progress_of_pair c t) | _ => None end.
Definition repr_cursor (v : Value) : option JobProgress := progress_of_cursor <$> value_i64 v.

Definition first_of {A} (l : list (option A)) : option A :=
  foldr (fun o acc => match o with Some a => Some a | None => acc end) None l.

Definition progress_of_value (v : Value) : result OxanaError JobProgress :=
  match first_of [repr_struct v; repr_tuple3 v; repr_tuple2 v; repr_cursor v] with
  | Some p => Ok p
  | None => Err (JobStateJsonError "data did not match any variant of untagged enum JobProgressRepr")
  end.

(** ** [JobState]: the job, and its state as it was when it was loaded *)

Record JobState := { js_job_id : JobId; js_value : option Value }.
Definition new_job_state (jid : JobId) (value : option Value) : JobState := {| js_job_id := jid; js_value := value |}.

(** [Serialize] and [DeserializeOwned] of a state, through JSON values. *)
Class StateSerde (A : Type) := {
  state_to_value : A -> result string Value;
  state_from_value : Value -> result string A;
}.

(** [JobState::get]. *)
Definition job_state_get `{StateSerde A} (js : JobState) : result OxanaError (option A) :=
  match js_value js with
  | Some v => res_map Some (map_err JobStateJsonError (state_from_value v))
  | None => Ok None
  end.

Section Progress.
Context `{S : Serde}.
Variable st : StorageInternal.
Open Scope prog_scope.

(** [JobState::update]. *)
Definition job_state_update `{StateSerde A} (js : JobState) (a : A) : rprog unit :=
  v <-? lift (map_err JobStateJsonError (state_to_value a)) ;; update_state st (js_job_id js) v.

(** [JobState::update_progress] and [progress]. *)
Definition update_progress (jid : JobId) (p : JobProgress) : rprog unit := update_state st jid (progress_to_value p).

Definition progress (jid : JobId) : rprog (option JobProgress) :=
  found <-? get_job st jid ;;
  lift (match found ≫= (fun e => state (meta e)) with
        | Some v => res_map Some (progress_of_value v)
        | None => Ok None
        end).

(** ** [JobProgressIterator] *)

Record ProgressIterator (A : Type) := {
  it_rest : list (nat * A);          (* iter.enumerate().skip(cursor) *)
  it_current : option nat;
  it_total : nat;
}.
Arguments it_rest {A} _.
Arguments it_current {A} _.
Arguments it_total {A} _.

Definition enumerate {A} (l : list A) : list (nat * A) := imap pair l.

Definition iter_new {A} (jid : JobId) (items : list A) (min_remaining : nat) (max_remaining : option nat)
    : rprog (ProgressIterator A) :=
  p <-? progress jid ;;
  let start := match p with Some p => Z.to_nat (Z.max (cursor p) 0) | None => 0 end in
  lift (Ok {| it_rest := drop start (enumerate items); it_current := None;
              it_total := default min_remaining max_remaining |}).

(** [i64::try_from] of a usize. *)
Definition i64_of (n : nat) : result OxanaError Z :=
  match i64_try_from (Z.of_nat n) with Some z => Ok z | None => Err TryFromIntError end.

Definition mark_current_completed {A} (jid : JobId) (it : ProgressIterator A) : rprog unit :=
  match it_current it with
  | None => lift (Ok tt)
  | Some index =>
      c <-? lift (i64_of (index + 1)) ;;
      t <-? lift (i64_of (it_total it)) ;;
      update_progress jid (progress_of_pair c t)
  end.

(** [next]: the item and the iterator afterwards. *)
Definition iter_next {A} (jid : JobId) (it : ProgressIterator A) : rprog (option A * ProgressIterator A) :=
  _ <-? mark_current_completed jid it ;;
  lift (Ok (match it_rest it with
            | (index, value) :: rest =>
                (Some value, {| it_rest := rest; it_current := Some index; it_total := it_total it |})
            | [] => (None, {| it_rest := []; it_current := None; it_total := it_total it |})
            end)).

Fixpoint iter_nexts {A} (jid : JobId) (n : nat) (it : ProgressIterator A)
    : rprog (list (option A) * ProgressIterator A) :=
  match n with
  | O => lift (Ok ([], it))
  | Datatypes.S n' =>
      x <-? iter_next jid it ;;
      rest <-? iter_nexts jid n' x.2 ;;
      lift (Ok (x.1 :: rest.1, rest.2))
  end.
End Progress.
Arguments it_rest {A} _.
Arguments it_current {A} _.
Arguments it_total {A} _.

(** ** Facts *)

(** A progress value reads back as it was written. *)
Theorem progress_round_trip p :
  (i64_min <= cursor p <= i64_max)%Z -> (i64_min <= total p <= i64_max)%Z ->
  progress_of_value (progress_to_value p) = Ok p.
Proof.
  intros Hc Ht. destruct p as [c t n]. cbn [cursor total] in Hc, Ht. unfold progress_of_value, first_of.
  assert (repr_struct (progress_to_value {| cursor := c; total := t; note := n |}) =
    Some {| cursor := c; total := t; note := n |}) as ->; [|done].
  assert (forall z, (i64_min <= z <= i64_max)%Z -> value_i64 (VNumber (NumInt z)) = Some z) as Hz
    by (intros z Hz; cbn; by rewrite decide_True).
  unfold repr_struct, progress_to_value. cbn [cursor total note].
  replace (field_of "cursor" _) with (Some (VNumber (NumInt c))) by reflexivity.
  replace (field_of "total" _) with (Some (VNumber (NumInt t))) by reflexivity.
  replace (field_of "note" _) with (VStr <$> n) by (by destruct n).
  cbn [mbind option_bind]. rewrite !Hz by done. by destruct n.
Qed.

Section Resume.
Context {R : RedisServer} {L : LawfulRedis R} {S : Serde} {LS : LawfulSerde S}.
Variables (st : StorageInternal) (jid : JobId).
Local Abbreviation keys := (skeys st).

(** The job is stored, with a progress whose cursor is [c]. *)
Definition progress_at (c : nat) (ks : keyspace) : Prop :=
  exists h text e, hash_at ks (jobs keys) = Some h /\ h !! jid = Some text /\ from_str text = Ok e /\ id e = jid /\
    match state (meta e) with
    | None => c = 0
    | Some v => exists p, progress_of_value v = Ok p /\ Z.to_nat (Z.max (cursor p) 0) = c
    end.

Lemma get_job_run ks h : hash_at ks (jobs keys) = Some h ->
  run_doc (get_job st jid) ks = (transpose (parse_job <$> h !! jid), ks).
Proof. intros Hh. unfold get_job, connection. rewrite run_try, run_checkout. by apply get_job_w_conn_run. Qed.

Lemma iter_new_run {A} c ks (items : list A) lo hi : progress_at c ks ->
  run_doc (iter_new st jid items lo hi) ks =
    (Ok {| it_rest := drop c (enumerate items); it_current := None; it_total := default lo hi |}, ks).
Proof.
  intros (h & text & e & Hh & Ht & Hp & _ & Hstate). unfold iter_new, progress.
  rewrite !run_try, (get_job_run _ h), Ht by done. cbn [fmap option_fmap option_map transpose].
  unfold parse_job. rewrite Hp. cbn [map_err transpose]. rewrite run_lift. cbn [mbind option_bind].
  destruct (state (meta e)) as [v|].
  - destruct Hstate as (p & -> & <-). done.
  - by subst.
Qed.

(** A state that is updated is stored with the job. *)
Lemma update_state_run v ks h text e : hash_at ks (jobs keys) = Some h -> h !! jid = Some text -> from_str text = Ok e -> id e = jid ->
  let e' := map_meta (set_state (Some v)) e in
  run_doc (update_state st jid v) ks = (Ok tt, put_hash (jobs keys) (<[jid := payload_text e']> h) ks) /\
  from_str (payload_text e') = Ok e'.
Proof.
  intros Hh Ht Hp Hid e'. destruct (payload_text_ok e') as (Hprint & Hparse & _). split; [|done]. unfold update_state.
  rewrite run_try, (get_job_run _ h), Ht by done. cbn [fmap option_fmap option_map transpose].
  unfold parse_job. rewrite Hp. cbn [map_err transpose]. unfold update_job, connection.
  rewrite run_try, run_checkout, run_try. fold e'. rewrite Hprint, run_lift.
  change (id e') with (id e). rewrite Hid. cbn [pipe run run_event exec MemRedis documented]. by erewrite write_hash_ok.
Qed.

Lemma update_progress_run c c' t ks : progress_at c ks -> (Z.of_nat c' <= i64_max)%Z -> (0 <= t <= i64_max)%Z ->
  exists ks', run_doc (update_progress st jid (progress_of_pair (Z.of_nat c') t)) ks = (Ok tt, ks') /\ progress_at c' ks'.
Proof.
  intros (h & text & e & Hh & Ht & Hp & Hid & _) Hc Htot. unfold update_progress.
  destruct (update_state_run (progress_to_value (progress_of_pair (Z.of_nat c') t)) ks h text e Hh Ht Hp Hid) as [-> Hparse].
  set (e' := map_meta _ e) in *. eexists. split; [done|].
  exists (<[jid := payload_text e']> h), (payload_text e'), e'. split_and!; [by ks_simp|by simplify_map_eq|done|done|].
  cbn. exists (progress_of_pair (Z.of_nat c') t). split; [|cbn; lia].
  apply progress_round_trip; cbn; unfold i64_min; lia.
Qed.

(** What a job has stored as its state is what its next run is given; [get] in
    the run that stored it still answers what that run started with. *)
Theorem state_reaches_next_run `{StateSerde A} (a : A) v before ks h text e :
  hash_at ks (jobs keys) = Some h -> h !! jid = Some text -> from_str text = Ok e -> id e = jid ->
  state_to_value a = Ok v -> state_from_value v = Ok a ->
  let js := new_job_state jid before in
  exists ks' e', run_doc (job_state_update st js a) ks = (Ok tt, ks') /\
    run_doc (get_job st jid) ks' = (Ok (Some e'), ks') /\
    job_state_get (new_job_state (id e') (state (meta e'))) = Ok (Some a) /\
    id e' = id e /\ job e' = job e /\ queue e' = queue e.
Proof.
  intros Hh Ht Hp Hid Hto Hfrom js. destruct (update_state_run v ks h text e Hh Ht Hp Hid) as [Hrun Hparse].
  set (e' := map_meta _ e) in *. eexists _, e'. split.
  - unfold job_state_update. rewrite run_try, Hto, run_lift. exact Hrun.
  - split; [|split_and!; try done]; [|cbn; by rewrite Hfrom].
    erewrite get_job_run by apply hash_at_put_hash. rewrite lookup_insert_eq. cbn. unfold parse_job. by rewrite Hparse.
Qed.

Lemma iter_next_run {A} c (items : list A) tot cur ks (rest : list (nat * A)) :
  (Z.of_nat tot <= i64_max)%Z -> (Z.of_nat (length items) < i64_max)%Z ->
  progress_at cur ks -> (forall i, c = Some i -> i < length items) ->
  exists ks', run_doc (iter_next st jid {| it_rest := rest; it_current := c; it_total := tot |}) ks =
    (Ok (match rest with
         | (i, v) :: rest' => (Some v, {| it_rest := rest'; it_current := Some i; it_total := tot |})
         | [] => (None, {| it_rest := []; it_current := None; it_total := tot |})
         end), ks') /\
    progress_at (match c with Some i => i + 1 | None => cur end) ks'.
Proof.
  intros Htot Hlen Hp Hc. unfold iter_next, mark_current_completed. cbn [it_current it_rest it_total].
  rewrite run_try. destruct c as [i|].
  - specialize (Hc i eq_refl). rewrite !run_try. unfold i64_of, i64_try_from.
    rewrite decide_True by lia. rewrite run_lift, run_try, decide_True by lia. rewrite run_lift.
    destruct (update_progress_run cur (i + 1) (Z.of_nat tot) ks Hp) as (ks' & -> & Hp'); [lia|lia|].
    exists ks'. split; [|done]. by destruct rest as [|[] ?].
  - rewrite run_lift. exists ks. split; [|done]. by destruct rest as [|[] ?].
Qed.

Lemma enumerate_lookup {A} (l : list A) i v : enumerate l !! i = Some v -> v.1 = i /\ i < length l.
Proof.
  unfold enumerate. rewrite list_lookup_imap. intros H. destruct (l !! i) eqn:E; [|done]. cbn in H. simplify_eq.
  split; [done|]. by eapply lookup_lt_Some.
Qed.

(** The run of [n] calls of [next] from a position in the items. *)
Lemma iter_nexts_run {A} (items : list A) tot n : (Z.of_nat tot <= i64_max)%Z -> (Z.of_nat (length items) < i64_max)%Z ->
  forall k c cur ks, progress_at cur ks -> k + n <= length items -> (forall i, c = Some i -> i + 1 = k) ->
  (c = None -> cur = k) ->
  exists ks' it, run_doc (iter_nexts st jid n {| it_rest := drop k (enumerate items); it_current := c; it_total := tot |}) ks =
    (Ok (Some <$> take n (drop k items), it), ks') /\
    progress_at (match n with O => cur | Datatypes.S n' => k + n' end) ks'.
Proof.
  intros Htot Hlen. induction n as [|n IH]; intros k c cur ks Hp Hk Hc Hnone; cbn [iter_nexts].
  { do 2 eexists. split; [done|done]. }
  destruct (lookup_lt_is_Some_2 items k) as [v Hv]; [lia|].
  assert (enumerate items !! k = Some (k, v)) as Hek by (unfold enumerate; by rewrite list_lookup_imap, Hv).
  rewrite run_try. rewrite (drop_S _ (k, v)) by done.
  edestruct (iter_next_run c items tot cur ks ((k, v) :: drop (Datatypes.S k) (enumerate items))) as (ks1 & -> & Hp1);
    [done|done|done|intros i E; specialize (Hc i E); lia|].
  assert (progress_at k ks1) as Hpk.
  { destruct c as [i|]; [|by rewrite Hnone in Hp1]. by rewrite (Hc i eq_refl) in Hp1. }
  rewrite run_try. cbn [snd]. edestruct (IH (Datatypes.S k) (Some k) k ks1) as (ks2 & it & -> & Hp2);
    [done|lia|intros i [= <-]; lia|done|].
  rewrite run_lift. exists ks2, it. split.
  - do 3 f_equal. rewrite (drop_S items v k) by done. done.
  - destruct n; [by rewrite Nat.add_0_r|]. by replace (k + Datatypes.S n) with (Datatypes.S k + n) by lia.
Qed.

(** C25. A worker that iterates with progress and stops while it handles an item,
    its [next] having been called [n + 1] times, has recorded the items before
    it: an iterator made later starts with that very item, repeats none that
    was completed and skips none that was not. *)
Theorem iteration_resumes {A} (items : list A) n d c lo hi :
  progress_at c (view d) -> c + n < length items ->
  (Z.of_nat (default lo hi) <= i64_max)%Z -> (Z.of_nat (length items) < i64_max)%Z ->
  exists it, yields (it <-? iter_new st jid items lo hi ;; iter_nexts st jid (Datatypes.S n) it)%prog d
      (Ok (Some <$> take (Datatypes.S n) (drop c items), it)) (fun ks' => progress_at (c + n) ks' /\
    run_doc (iter_new st jid items lo hi) ks' =
      (Ok {| it_rest := drop (c + n) (enumerate items); it_current := None; it_total := default lo hi |}, ks')).
Proof.
  intros Hp Hn Htot Hlen.
  edestruct (iter_nexts_run items (default lo hi) (Datatypes.S n) Htot Hlen c None c (view d)) as (ks' & it & Hrun & Hp');
    [done|lia|done|done|].
  exists it. apply yields_doc. exists ks'. split.
  - rewrite run_try, (iter_new_run c) by done. done.
  - split; [done|]. by apply iter_new_run.
Qed.
End Resume.
