(* ===== verification/Queries.v ===== *)
(** * Listing jobs page by page ([list_queue_jobs], [list_dead] and the like) *)
From S2P Require Import Prelude Errors Redis Envelope Codec Queue Keys Scripts Storage Transitions Promotion.

(** The slice of a listing that some options ask for. *)
Definition slice (o : QueueListOpts) {A} (l : list A) : list A :=
  take (Z.to_nat (opt_count o)) (drop (Z.to_nat (opt_offset o)) l).
Definition opts_ok (o : QueueListOpts) : Prop :=
  (0 <= opt_offset o)%Z /\ (0 < opt_count o)%Z /\ (opt_offset o + opt_count o <= i64_max)%Z.

(** The range a page asks for, on LRANGE's and ZRANGE's reading of indices. *)
Lemma page_range {A} o (l : list A) : opts_ok o ->
  (let len := Z.of_nat (length l) in
   let s := if (list_start o <? 0)%Z then Z.max 0 (len + list_start o) else list_start o in
   let e := if (list_stop o <? 0)%Z then (len + list_stop o)%Z else list_stop o in
   if ((e <? s) || (len <=? s))%Z then [] else take (Z.to_nat (e - s + 1)) (drop (Z.to_nat s) l)) = slice o l.
Proof.
  intros (Ho & Hc & Hmax). unfold list_start, list_stop, as_isize, slice.
  rewrite u64_wrap_small by (unfold u64_max, i64_max in *; lia). unfold u64_sat_sub.
  rewrite (Z.max_l (opt_offset o + opt_count o - 1)) by lia.
  rewrite !(proj2 (Z.leb_le _ _)) by lia. cbn zeta.
  rewrite !(proj2 (Z.ltb_ge _ 0)) by lia.
  replace (opt_offset o + opt_count o - 1 <? opt_offset o)%Z with false by (symmetry; apply Z.ltb_ge; lia).
  cbn [orb]. replace (opt_offset o + opt_count o - 1 - opt_offset o + 1)%Z with (opt_count o) by lia.
  destruct (Z.of_nat (length l) <=? opt_offset o)%Z eqn:E; [|done].
  apply Z.leb_le in E. rewrite drop_ge by lia. by rewrite take_nil.
Qed.
Lemma lrange_page o (l : list string) : opts_ok o -> lrange (list_start o) (list_stop o) l = slice o l.
Proof. apply page_range. Qed.
Lemma zrange_page o z : opts_ok o -> zrange_pairs (list_start o) (list_stop o) z = slice o (zset_sorted z).
Proof. apply page_range. Qed.
Lemma slice_fmap {A B} (f : A -> B) o l : f <$> slice o l = slice o (f <$> l).
Proof. unfold slice. by rewrite fmap_take, fmap_drop. Qed.

Section Listing.
Context {R : RedisServer} {L : LawfulRedis R} {S : Serde} {LS : LawfulSerde S}.
Variable st : StorageInternal.
Local Abbreviation keys := (skeys st).

(** The job a listing shows for an ID. *)
Definition shown (h : gmap string string) (jid : JobId) : option JobEnvelope :=
  match h !! jid with Some text => res_ok (from_str text) | None => None end.

Lemma collect_shown h ids : Forall (fun jid => unreadable h jid = false) ids ->
  collect (parse_job <$> omap (fun text => text) ((fun f => h !! f) <$> ids)) = Ok (omap (shown h) ids).
Proof.
  unfold unreadable, shown, parse_job. induction 1 as [|jid ids Hj _ IH]; [done|]. cbn [fmap list_fmap omap list_omap].
  destruct (h !! jid) as [text|]; [|exact IH]. cbn [fmap list_fmap collect].
  destruct (from_str text) as [e|]; [|done]. cbn. by rewrite IH.
Qed.

Lemma jobs_listed_run ids ks h : hash_at ks (jobs keys) = Some h ->
  Forall (fun jid => unreadable h jid = false) ids ->
  run_doc (jobs_listed st ids) ks = (Ok (omap (shown h) ids), ks).
Proof.
  intros Hh Hids. unfold jobs_listed. destruct ids as [|i ids]; [done|]. unfold get_many. op_simp.
  by rewrite collect_shown.
Qed.

(** A listing of a queue: the slice of its waiting jobs, newest first, without
    the ones whose payload is gone. *)
Lemma list_queue_jobs_run q o ks h waiting : opts_ok o ->
  hash_at ks (jobs keys) = Some h -> list_at ks (namespace_queue keys q) = Some waiting ->
  Forall (fun jid => unreadable h jid = false) waiting ->
  run_doc (list_queue_jobs st q o) ks = (Ok (omap (shown h) (slice o waiting)), ks).
Proof.
  intros Ho Hh Hl Hok. unfold list_queue_jobs. op_simp. rewrite lrange_page by done.
  apply jobs_listed_run; [done|]. by apply Forall_take, Forall_drop.
Qed.

Lemma list_zset_run key o ks h z : opts_ok o ->
  hash_at ks (jobs keys) = Some h -> zset_at ks key = Some z ->
  Forall (fun jid => unreadable h jid = false) (zset_sorted z).*1 ->
  run_doc (list_zset st key o) ks = (Ok (omap (shown h) (slice o (zset_sorted z).*1)), ks).
Proof.
  intros Ho Hh Hz Hok. unfold list_zset. op_simp. rewrite zrange_page by done. rewrite slice_fmap.
  apply jobs_listed_run; [done|]. by apply Forall_take, Forall_drop.
Qed.

Lemma list_dead_run o ks letters : opts_ok o -> list_at ks (dead keys) = Some letters ->
  run_doc (list_dead st o) ks = (Ok (omap (fun text => res_ok (from_str text)) (slice o letters)), ks).
Proof. intros Ho Hd. unfold list_dead. op_simp. by rewrite lrange_page. Qed.

(** Asking for no jobs at the start of a queue still lists its newest one: the
    range's end saturates at 0, which is an index. *)
Theorem list_count_zero_lists_one q d (js : job_store st (view d)) jid waiting :
  list_at (view d) (namespace_queue keys q) = Some (jid :: waiting) ->
  unreadable (payloads js) jid = false ->
  yields (list_queue_jobs st q {| opt_count := 0; opt_offset := 0 |}) d
    (Ok (omap (shown (payloads js)) [jid])) (fun ks' => ks' = view d).
Proof.
  intros Hl Hok. apply yields_doc. open_store js. exists (view d). split; [|done].
  unfold list_queue_jobs. op_simp.
  replace (lrange _ _ (jid :: waiting)) with [jid].
  - unfold jobs_listed, get_many. op_simp. rewrite collect_shown; [done|by constructor].
  - unfold list_start, list_stop, as_isize, lrange. cbn [opt_count opt_offset]. cbn.
    by destruct waiting.
Qed.
End Listing.
