(* ===== verification/Enqueue.v ===== *)
(** * Enqueueing ([enqueue.lua] and the enqueue methods of [storage_internal.rs])

    [KEYS] indices become the keys themselves and the flat [ARGV] becomes
    records; HashMaps are [gmap]s (their iteration order is not relied on). *)
From S2P Require Import Prelude Errors Redis Envelope Queue Keys Scripts Storage.

Inductive JobDestination := DestQueue | DestSchedule.

Inductive EnqueueSnapshotComparison := Exact | Suffix | Prefix.

Record EnqueueSnapshot := {
  snap_expected : string;
  snap_queue : string;
  snap_comparison : EnqueueSnapshotComparison;
}.

(** ** [EnqueueSnapshot::parse] *)

Definition dquote : ascii := "034"%char.
(** The literal [,"queue":] of the serialized envelope. *)
Definition queue_key_text : string :=
  String "," (String dquote ("queue" +:+ String dquote ":")).

Definition str_take (n : nat) (s : string) : string := String.substring 0 n s.
Definition str_drop (n : nat) (s : string) : string := String.substring n (String.length s - n) s.

Section Parse.
Context `{S : Serde}.

Definition snapshot_parse (payload : string) : result OxanaError EnqueueSnapshot :=
  res_bind (map_err JsonError (raw_queue payload)) (fun '(offset, len, q) =>
  let ends := offset + len in
  let klen := String.length queue_key_text in
  if decide (klen <= offset /\ str_take klen (str_drop (offset - klen) payload) = queue_key_text) then
    let start := offset - klen in
    if decide (ends <= String.length payload - start) then
      Ok {| snap_expected := str_take ends payload; snap_queue := q; snap_comparison := Prefix |}
    else
      Ok {| snap_expected := str_drop start payload; snap_queue := q; snap_comparison := Suffix |}
  else Ok {| snap_expected := payload; snap_queue := q; snap_comparison := Exact |}).
End Parse.

(** ** enqueue.lua *)

Inductive Conflict := OnDefault | OnReplace | OnSkip.
#[export] Instance conflict_eq_dec : EqDecision Conflict.
Proof. solve_decision. Defined.

(** A snapshot argument: [None] is comparison mode 0. *)
Record SnapshotArg := {
  arg_id : string;
  arg_check : option (EnqueueSnapshotComparison * string);
  arg_queue : option string;
}.

Record EnqueueArg := {
  in_id : string;
  in_payload : string;
  in_queue : string;
  in_conflict : Conflict;
  in_score : Z;
}.

Record EnqueueWrite := {
  w_arg : EnqueueArg;
  w_old_queue : option string;
  w_replacing : bool;
}.

(** [string.sub(s, -n)]: the last [n] bytes; -0 is 0, which is all of [s]. *)
Definition lua_suffix (n : nat) (s : string) : string :=
  if decide (n = 0) then s else str_drop (String.length s - n) s.

(** The comparison of a stored payload with its snapshot. *)
Definition snapshot_matches (check : option (EnqueueSnapshotComparison * string))
    (payload : option string) : bool :=
  match check, payload with
  | None, None => true
  | None, Some _ | Some _, None => false
  | Some (Exact, expected), Some p => bool_decide (p = expected)
  | Some (Suffix, expected), Some p => bool_decide (lua_suffix (String.length expected) p = expected)
  | Some (Prefix, expected), Some p => bool_decide (str_take (String.length expected) p = expected)
  end.

(** [require_type] with its memo table [types]. *)
Abbreviation memo := (gmap string rtype).

Definition require_type (types : memo) (key : string) (expected : rtype) {A} (k : memo -> lua A) : lua A :=
  match types !! key with
  | Some t => if decide (t = expected) then k types else LError wrongtype
  | None => LCall (TYPE key) (fun actual =>
              if type_ok actual expected then k (<[key := expected]> types) else LError wrongtype)
  end.

Abbreviation presence := (gmap string bool).
Abbreviation queue_names := (gmap string string).

Fixpoint check_snapshots (jobs : string) (snaps : list SnapshotArg)
    (changed : list (string * option string)) (present : presence) (queue_keys : queue_names)
    {A} (k : list (string * option string) -> presence -> queue_names -> lua A) : lua A :=
  match snaps with
  | [] => k changed present queue_keys
  | sn :: snaps' =>
      LCall (HGET jobs (arg_id sn)) (fun payload =>
        let changed := if snapshot_matches (arg_check sn) payload then changed
                       else changed ++ [(arg_id sn, payload)] in
        check_snapshots jobs snaps' changed (<[arg_id sn := bool_decide (is_Some payload)]> present)
          (match arg_queue sn with
           | Some q => <[arg_id sn := q]> queue_keys
           | None => delete (arg_id sn) queue_keys
           end) k)
  end.

(** The plan: which inputs write, in input order, and every input's outcome. *)
Definition plan_one (exists_ : bool) (a : EnqueueArg) (present : presence) (queue_keys : queue_names)
    : option EnqueueWrite * nat * presence * queue_names :=
  if bool_decide (in_conflict a = OnSkip) && exists_ then (None, 0, present, queue_keys)
  else
    let replacing := bool_decide (in_conflict a = OnReplace) && exists_ in
    (Some {| w_arg := a;
             w_old_queue := if replacing then queue_keys !! in_id a else None;
             w_replacing := replacing |},
     if replacing then 2 else 1,
     <[in_id a := true]> present, <[in_id a := in_queue a]> queue_keys).

Fixpoint plan_writes (jobs : string) (inputs : list EnqueueArg) (present : presence)
    (queue_keys : queue_names) (writes : list EnqueueWrite) (outcomes : list nat)
    {A} (k : list EnqueueWrite -> list nat -> lua A) : lua A :=
  match inputs with
  | [] => k writes outcomes
  | a :: inputs' =>
      let continue (exists_ : bool) (present : presence) :=
        let '(w, o, present', queue_keys') := plan_one exists_ a present queue_keys in
        plan_writes jobs inputs' present' queue_keys'
          (match w with Some w => writes ++ [w] | None => writes end) (outcomes ++ [o]) k in
      match present !! in_id a with
      | Some b => continue b present
      | None =>
          if decide (in_conflict a = OnDefault) then continue false present
          else LCall (HEXISTS jobs (in_id a)) (fun b => continue b (<[in_id a := b]> present))
      end
  end.

(** The preflight of every destination and cleanup key. A missing old queue
    would index [types] with nil, which is a script error. *)
Definition script_error : RedisError := {| is_io_error := false; error_kind := Some OtherServerError |}.

Fixpoint preflight_writes (scheduled : bool) (schedule retry : string) (writes : list EnqueueWrite)
    (types : memo) {A} (k : lua A) : lua A :=
  match writes with
  | [] => k
  | w :: writes' =>
      let destination types k' :=
        if scheduled then require_type types schedule TZset k'
        else require_type types (in_queue (w_arg w)) TList k' in
      destination types (fun types =>
        if w_replacing w then
          require_type types schedule TZset (fun types =>
          require_type types retry TZset (fun types =>
          match w_old_queue w with
          | None => LError script_error
          | Some old =>
              require_type types old TList (fun types =>
              require_type types (in_queue (w_arg w)) TList (fun types =>
              preflight_writes scheduled schedule retry writes' types k))
          end))
        else preflight_writes scheduled schedule retry writes' types k)
  end.

Definition commit_write (scheduled : bool) (jobs schedule retry : string) (w : EnqueueWrite)
    {A} (k : lua A) : lua A :=
  let jid := in_id (w_arg w) in
  let store : lua A :=
    (HSET jobs jid (in_payload (w_arg w)) ;;~
     if scheduled then ZADD schedule (in_score (w_arg w)) jid ;;~ k
     else LPUSH (in_queue (w_arg w)) jid ;;~ k)%lua in
  if w_replacing w then
    let old := default "" (w_old_queue w) in
    (ZREM schedule jid ;;~
     ZREM retry jid ;;~
     LREM old 0 jid ;;~
     if decide (old = in_queue (w_arg w)) then store
     else LREM (in_queue (w_arg w)) 0 jid ;;~ store)%lua
  else store.

Fixpoint commit_writes (scheduled : bool) (jobs schedule retry : string) (writes : list EnqueueWrite)
    {A} (k : lua A) : lua A :=
  match writes with
  | [] => k
  | w :: writes' =>
      commit_write scheduled jobs schedule retry w (commit_writes scheduled jobs schedule retry writes' k)
  end.

Abbreviation EnqueueReply := (list (string * option string) * list nat)%type.

Definition is_schedule (dest : JobDestination) : bool :=
  match dest with DestSchedule => true | DestQueue => false end.

Definition commit_plan (scheduled : bool) (jobs schedule retry : string) (types : memo)
    (writes : list EnqueueWrite) (outcomes : list nat) : lua EnqueueReply :=
  preflight_writes scheduled schedule retry writes types (
  commit_writes scheduled jobs schedule retry writes (LRet ([], outcomes))).

Definition plan_inputs (dest : JobDestination) (jobs schedule retry : string) (inputs : list EnqueueArg)
    (types : memo) (changed : list (string * option string)) (present : presence) (queue_keys : queue_names)
    : lua EnqueueReply :=
  match changed with
  | _ :: _ => LRet (changed, [])
  | [] => plan_writes jobs inputs present queue_keys [] []
            (commit_plan (is_schedule dest) jobs schedule retry types)
  end.

Definition enqueue_lua (jobs schedule retry : string) (dest : JobDestination)
    (snaps : list SnapshotArg) (inputs : list EnqueueArg) : lua EnqueueReply :=
  require_type ∅ jobs THash (fun types =>
  check_snapshots jobs snaps [] ∅ ∅ (plan_inputs dest jobs schedule retry inputs types)).

(** ** [enqueue_chunk_w_conn] *)

Section Chunk.
Context `{S : Serde}.
Variable st : StorageInternal.
Local Abbreviation ks := (skeys st).
Open Scope prog_scope.

Definition is_replace (e : JobEnvelope) : bool := bool_decide (on_conflict (meta e) = Some Replace).
(** [unique && on_conflict != Some(Replace)]. *)
Definition skips (e : JobEnvelope) : bool := unique (meta e) && negb (is_replace e).

(** The pipeline of ordinary jobs. *)
Definition ordinary_commands (dest : JobDestination) (e : JobEnvelope) : result OxanaError (list (rcmd unit)) :=
  res_map (fun text =>
    [HSET (jobs ks) (id e) text;
     match dest with
     | DestQueue => LPUSH (namespace_queue ks (queue e)) (id e)
     | DestSchedule => ZADD (schedule ks) (scheduled_at (meta e)) (id e)
     end]) (print_job e).

Definition enqueue_ordinary (dest : JobDestination) (es : list JobEnvelope) : rprog unit :=
  cmds <-? lift (collect (ordinary_commands dest <$> es)) ;;
  pipe (concat cmds).

(** Skip jobs seen earlier in the request or in the chunk are dropped. *)
Fixpoint drop_seen (written seen : gset JobId) (es : list JobEnvelope) : list JobEnvelope :=
  match es with
  | [] => []
  | e :: es' =>
      if skips e && bool_decide (id e ∈ written ∪ seen) then drop_seen written seen es'
      else e :: drop_seen written ({[id e]} ∪ seen) es'
  end.

(** The IDs whose first overwriting input is a unique replacement. *)
Fixpoint replacement_ids (overwritten : gset JobId) (es : list JobEnvelope) : gset JobId :=
  match es with
  | [] => ∅
  | e :: es' =>
      if (negb (unique (meta e)) || is_replace e) && bool_decide (id e ∉ overwritten) then
        let rest := replacement_ids ({[id e]} ∪ overwritten) es' in
        if unique (meta e) then {[id e]} ∪ rest else rest
      else replacement_ids overwritten es'
  end.

Abbreviation snapshots := (gmap JobId (option EnqueueSnapshot)).

(** [payload.map(EnqueueSnapshot::parse).transpose()?], inserted. *)
Fixpoint insert_snapshots (found : list (JobId * option string)) (snaps : snapshots)
    : result OxanaError snapshots :=
  match found with
  | [] => Ok snaps
  | (jid, payload) :: found' =>
      res_bind (transpose (snapshot_parse <$> payload)) (fun sn =>
      insert_snapshots found' (<[jid := sn]> snaps))
  end.

Definition read_snapshots (ids : gset JobId) : rprog snapshots :=
  match elements ids with
  | [] => lift (Ok ∅)
  | l =>
      payloads <-? call (HMGET (jobs ks) l) ;;
      lift (insert_snapshots (zip l payloads) ∅)
  end.

(** Skip jobs known to exist: from a snapshot, or asked in one pipeline. *)
Definition present_snapshot (snaps : snapshots) (jid : JobId) : bool :=
  match snaps !! jid with Some (Some _) => true | _ => false end.
Definition absent_snapshot (snaps : snapshots) (jid : JobId) : bool :=
  match snaps !! jid with None => true | Some _ => false end.

Definition snapshot_skips (snaps : snapshots) (pending : list JobEnvelope) : gset JobId :=
  list_to_set (id <$> filter (fun e => skips e && present_snapshot snaps (id e) = true) pending).

Definition skip_ids (snaps : snapshots) (pending : list JobEnvelope) : list JobId :=
  id <$> filter (fun e => skips e && absent_snapshot snaps (id e) = true) pending.

Definition read_existing_skips (snaps : snapshots) (pending : list JobEnvelope) : rprog (gset JobId) :=
  match skip_ids snaps pending with
  | [] => lift (Ok (snapshot_skips snaps pending))
  | ids =>
      found <-? pipe_query ((fun jid => HEXISTS (jobs ks) jid) <$> ids) ;;
      lift (Ok (snapshot_skips snaps pending ∪
                list_to_set ((filter (fun p : JobId * bool => p.2 = true) (zip ids found)).*1)))
  end.

Definition not_existing (existing : gset JobId) (pending : list JobEnvelope) : list JobEnvelope :=
  filter (fun e => negb (skips e && bool_decide (id e ∈ existing)) = true) pending.

Definition serialize_pending (pending : list JobEnvelope) : result OxanaError (list (JobEnvelope * string)) :=
  collect ((fun e => res_map (pair e) (print_job e)) <$> pending).

(** One invocation's arguments. *)
Definition snapshot_arg_of (p : JobId * option EnqueueSnapshot) : SnapshotArg :=
  match p.2 with
  | Some sn => {| arg_id := p.1; arg_check := Some (snap_comparison sn, snap_expected sn);
                  arg_queue := Some (namespace_queue ks (snap_queue sn)) |}
  | None => {| arg_id := p.1; arg_check := None; arg_queue := None |}
  end.

Definition conflict_of (e : JobEnvelope) : Conflict :=
  if negb (unique (meta e)) then OnDefault
  else if is_replace e then OnReplace
  else OnSkip.

Definition enqueue_arg_of (p : JobEnvelope * string) : EnqueueArg :=
  {| in_id := id p.1; in_payload := p.2; in_queue := namespace_queue ks (queue p.1);
     in_conflict := conflict_of p.1; in_score := scheduled_at (meta p.1) |}.

(** [written_unique] after the outcomes: every unique job not skipped. *)
Fixpoint record_outcomes (pending : list (JobEnvelope * string)) (outcomes : list nat)
    (written : gset JobId) : gset JobId :=
  match pending, outcomes with
  | (e, _) :: pending', o :: outcomes' =>
      record_outcomes pending' outcomes'
        (match o with
         | O => written
         | _ => if unique (meta e) then {[id e]} ∪ written else written
         end)
  | _, _ => written
  end.

(** The retry loop; [fuel] bounds its rounds. *)
Fixpoint enqueue_loop (fuel : nat) (dest : JobDestination) (pending : list (JobEnvelope * string))
    (snaps : snapshots) (written : gset JobId) : rprog (gset JobId) :=
  match fuel with
  | O => lift (Err StillRunning)
  | Datatypes.S fuel' =>
      reply <-? perform (Script (enqueue_lua (jobs ks) (schedule ks) (retry ks) dest
                  (snapshot_arg_of <$> map_to_list snaps) (enqueue_arg_of <$> pending))) ;;
      match reply.1 with
      | [] => lift (Ok (record_outcomes pending reply.2 written))
      | changed =>
          snaps' <-? lift (insert_snapshots changed snaps) ;;
          enqueue_loop fuel' dest pending snaps' written
      end
  end.

(** [enqueue_chunk_w_conn]; the answer is [written_unique] afterwards. *)
Definition enqueue_chunk (fuel : nat) (dest : JobDestination) (es : list JobEnvelope)
    (written : gset JobId) : rprog (gset JobId) :=
  if forallb (fun e => negb (unique (meta e))) es then
    _ <-? enqueue_ordinary dest es ;; lift (Ok written)
  else
    match drop_seen written ∅ es with
    | [] => lift (Ok written)
    | pending =>
        snaps <-? read_snapshots (replacement_ids ∅ pending) ;;
        existing <-? read_existing_skips snaps pending ;;
        pending <-? lift (serialize_pending (not_existing existing pending)) ;;
        match pending with
        | [] => lift (Ok written)
        | _ => enqueue_loop fuel dest pending snaps written
        end
    end.

(** ** The methods *)

Definition ENQUEUE_LIST_CHUNK_SIZE : nat := 100.

Definition enqueue_list_chunks (es : list JobEnvelope) : list (list JobEnvelope) :=
  chunks ENQUEUE_LIST_CHUNK_SIZE es.

Definition enqueue_w_conn (fuel : nat) (e : JobEnvelope) (dest : JobDestination) : rprog JobId :=
  _ <-? enqueue_chunk fuel dest [e] ∅ ;; lift (Ok (id e)).

Fixpoint enqueue_each_chunk (fuel : nat) (dest : JobDestination) (cs : list (list JobEnvelope))
    (written : gset JobId) : rprog unit :=
  match cs with
  | [] => lift (Ok tt)
  | c :: cs' =>
      written' <-? enqueue_chunk fuel dest c written ;;
      enqueue_each_chunk fuel dest cs' written'
  end.

Definition enqueue_list_w_conn (fuel : nat) (es : list JobEnvelope) (dest : JobDestination)
    : rprog (list JobId) :=
  _ <-? enqueue_each_chunk fuel dest (enqueue_list_chunks es) ∅ ;; lift (Ok (id <$> es)).

Definition enqueue (fuel : nat) (e : JobEnvelope) : rprog JobId :=
  _ <-? connection ;; enqueue_w_conn fuel e DestQueue.

Definition try_enqueue (fuel : nat) (e : JobEnvelope) : rprog (option JobId) :=
  _ <-? connection ;;
  written <-? enqueue_chunk fuel DestQueue [e] ∅ ;;
  lift (Ok (if negb (unique (meta e)) || bool_decide (id e ∈ written) then Some (id e) else None)).

Definition enqueue_list (fuel : nat) (es : list JobEnvelope) : rprog (list JobId) :=
  match es with
  | [] => lift (Ok [])
  | _ => _ <-? connection ;; enqueue_list_w_conn fuel es DestQueue
  end.

Definition enqueue_at (fuel : nat) (e : JobEnvelope) (now : Z) : rprog JobId :=
  if (scheduled_at (meta e) <=? now)%Z then enqueue fuel e
  else _ <-? connection ;; enqueue_w_conn fuel e DestSchedule.

(** [enqueue_in], for delays chrono can represent (it panics beyond); the clock is read for the delay, in [with_scheduled_at] and
    in [enqueue_at]. *)
Definition enqueue_in (fuel : nat) (e : JobEnvelope) (delay_s now now_sched now_at : Z) : rprog JobId :=
  if decide (delay_s = 0%Z) then enqueue fuel e
  else enqueue_at fuel (with_scheduled_at (now + delay_s * 1000000) now_sched e) now_at.
End Chunk.
