(* ===== verification/EnqueueScript.v ===== *)
(** * What enqueue.lua does

    The script plans every input against the snapshot, tests the type of every
    key it will write, and then commits. Its effect is that of handling the
    inputs one after another ([enqueue_one]); anything else it can answer
    leaves the keyspace as it was. *)
From S2P Require Import Prelude Errors Redis Envelope Queue Keys Scripts Storage Enqueue.

(** ** Updates as functions of the keyspace *)

Definition upd_hash (k : string) f (ks : keyspace) : keyspace := snd (write_hash k ks f).
Definition upd_list (k : string) f (ks : keyspace) : keyspace := snd (write_list k ks f).
Definition upd_zset (k : string) f (ks : keyspace) : keyspace := snd (write_zset k ks f).

(** Removing a job that is replaced from wherever it may wait. *)
Definition purge (schedule retry old new jid : string) (ks : keyspace) : keyspace :=
  let ks := upd_list old (lrem 0 jid) (upd_zset retry (delete jid) (upd_zset schedule (delete jid) ks)) in
  if decide (old = new) then ks else upd_list new (lrem 0 jid) ks.

(** Storing a payload and making the job due. *)
Definition store_job (scheduled : bool) (jobs schedule : string) (a : EnqueueArg) (ks : keyspace) : keyspace :=
  let ks := upd_hash jobs <[in_id a := in_payload a]> ks in
  if scheduled then upd_zset schedule <[in_id a := in_score a]> ks
  else upd_list (in_queue a) (cons (in_id a)) ks.

Definition stored (jobs jid : string) (ks : keyspace) : bool :=
  match hash_at ks jobs with Some h => bool_decide (is_Some (h !! jid)) | None => false end.

Create HintDb typed.

Section Script.
Implicit Types (types : memo) (ks : keyspace).
Variables (scheduled : bool) (jobs schedule retry : string).

(** The specification: one input on the current keyspace; [queues] names the
    queue each known job was last put on. *)
Definition enqueue_one (a : EnqueueArg) (s : keyspace * queue_names) : keyspace * queue_names * nat :=
  let '(ks, queues) := s in
  let found := stored jobs (in_id a) ks in
  if bool_decide (in_conflict a = OnSkip) && found then (ks, queues, 0)
  else
    let replacing := bool_decide (in_conflict a = OnReplace) && found in
    let ks1 := if replacing
               then purge schedule retry (default "" (queues !! in_id a)) (in_queue a) (in_id a) ks
               else ks in
    (store_job scheduled jobs schedule a ks1, <[in_id a := in_queue a]> queues, if replacing then 2 else 1).

Fixpoint enqueue_all (inputs : list EnqueueArg) (s : keyspace * queue_names)
    : keyspace * queue_names * list nat :=
  match inputs with
  | [] => (s, [])
  | a :: inputs' =>
      let '(s', o) := enqueue_one a s in
      let '(s'', os) := enqueue_all inputs' s' in (s'', o :: os)
  end.

(** ** Types *)

Definition well_typed (types : memo) (ks : keyspace) : Prop :=
  forall k t, types !! k = Some t -> type_ok (type_at ks k) t = true.

Lemma require_type_run types key expected {A} (k : memo -> lua A) ks :
  well_typed types ks ->
  script_doc (require_type types key expected k) ks = (Err wrongtype, ks) \/
  exists types', well_typed types' ks /\ types ⊆ types' /\ types' !! key = Some expected /\
    script_doc (require_type types key expected k) ks = script_doc (k types') ks.
Proof.
  intros Hw. unfold require_type. destruct (types !! key) as [t|] eqn:E.
  - case_decide as Ht; [|by left]. subst. right. exists types. split_and!; done.
  - rewrite script_call. cbn [documented]. destruct (type_ok (type_at ks key) expected) eqn:Ht; [|by left].
    right. exists (<[key := expected]> types). split_and!; [|by apply insert_subseteq|by simplify_map_eq|done].
    intros k' t'. rewrite lookup_insert_Some. intros [[<- <-]|[_ ?]]; [done|by apply Hw].
Qed.

Lemma type_at_upd_ne k k' ks : k <> k' -> forall f g h,
  type_at (upd_hash k f ks) k' = type_at ks k' /\ type_at (upd_list k g ks) k' = type_at ks k' /\
  type_at (upd_zset k h ks) k' = type_at ks k'.
Proof.
  intros Hne f g h. unfold upd_hash, upd_list, upd_zset, write_hash, write_list, write_zset.
  split_and!; case_match; cbn [snd]; try done; apply at_lookup.
  - by apply lookup_put_hash_ne.
  - by apply lookup_put_list_ne.
  - by apply lookup_put_zset_ne.
Qed.

Section Typed.
Context (types : memo) (ks : keyspace) (Hw : well_typed types ks).

Lemma typed_hash k : types !! k = Some THash -> is_Some (hash_at ks k).
Proof. intros H. by apply type_ok_hash, Hw. Qed.
Lemma typed_list k : types !! k = Some TList -> is_Some (list_at ks k).
Proof. intros H. by apply type_ok_list, Hw. Qed.
Lemma typed_zset k : types !! k = Some TZset -> is_Some (zset_at ks k).
Proof. intros H. by apply type_ok_zset, Hw. Qed.

Lemma well_typed_upd_hash k f : types !! k = Some THash -> well_typed types (upd_hash k f ks).
Proof.
  intros Hk k' t Ht. destruct (decide (k = k')) as [<-|Hne].
  - simplify_eq. destruct (typed_hash k Hk) as [h Hh]. unfold upd_hash. rewrite (write_hash_ok _ _ _ h Hh).
    apply type_ok_hash. cbn [snd]. rewrite hash_at_put_hash. eauto.
  - rewrite (proj1 (type_at_upd_ne k k' ks Hne f (λ l, l) (λ z, z))). by apply Hw.
Qed.
Lemma well_typed_upd_list k f : types !! k = Some TList -> well_typed types (upd_list k f ks).
Proof.
  intros Hk k' t Ht. destruct (decide (k = k')) as [<-|Hne].
  - simplify_eq. destruct (typed_list k Hk) as [h Hh]. unfold upd_list. rewrite (write_list_ok _ _ _ h Hh).
    apply type_ok_list. cbn [snd]. rewrite list_at_put_list. eauto.
  - rewrite (proj1 (proj2 (type_at_upd_ne k k' ks Hne (λ l, l) f (λ z, z)))). by apply Hw.
Qed.
Lemma well_typed_upd_zset k f : types !! k = Some TZset -> well_typed types (upd_zset k f ks).
Proof.
  intros Hk k' t Ht. destruct (decide (k = k')) as [<-|Hne].
  - simplify_eq. destruct (typed_zset k Hk) as [h Hh]. unfold upd_zset. rewrite (write_zset_ok _ _ _ h Hh).
    apply type_ok_zset. cbn [snd]. rewrite zset_at_put_zset. eauto.
  - rewrite (proj2 (proj2 (type_at_upd_ne k k' ks Hne (λ l, l) (λ z, z) f))). by apply Hw.
Qed.

Lemma write_hash_typed k f : types !! k = Some THash -> write_hash k ks f = (Ok tt, upd_hash k f ks).
Proof. intros Hk. destruct (typed_hash k Hk) as [h Hh]. unfold upd_hash. by rewrite (write_hash_ok _ _ _ h Hh). Qed.
Lemma write_list_typed k f : types !! k = Some TList -> write_list k ks f = (Ok tt, upd_list k f ks).
Proof. intros Hk. destruct (typed_list k Hk) as [h Hh]. unfold upd_list. by rewrite (write_list_ok _ _ _ h Hh). Qed.
Lemma write_zset_typed k f : types !! k = Some TZset -> write_zset k ks f = (Ok tt, upd_zset k f ks).
Proof. intros Hk. destruct (typed_zset k Hk) as [h Hh]. unfold upd_zset. by rewrite (write_zset_ok _ _ _ h Hh). Qed.
End Typed.

Lemma hash_at_upd_list_ne k k' ks f : k <> k' -> hash_at (upd_list k f ks) k' = hash_at ks k'.
Proof. intros Hne. unfold upd_list, write_list. case_match; cbn [snd]; [by ks_simp|done]. Qed.
Lemma hash_at_upd_zset_ne k k' ks f : k <> k' -> hash_at (upd_zset k f ks) k' = hash_at ks k'.
Proof. intros Hne. unfold upd_zset, write_zset. case_match; cbn [snd]; [by ks_simp|done]. Qed.

(** ** Committing *)

Definition write_typed (types : memo) (w : EnqueueWrite) : Prop :=
  (if scheduled then types !! schedule = Some TZset else types !! in_queue (w_arg w) = Some TList) /\
  (w_replacing w = true ->
     types !! schedule = Some TZset /\ types !! retry = Some TZset /\
     types !! in_queue (w_arg w) = Some TList /\
     exists old, w_old_queue w = Some old /\ types !! old = Some TList).

Definition commit_one (ks : keyspace) (w : EnqueueWrite) : keyspace :=
  let a := w_arg w in
  store_job scheduled jobs schedule a
    (if w_replacing w
     then purge schedule retry (default "" (w_old_queue w)) (in_queue a) (in_id a) ks else ks).

#[local] Hint Resolve well_typed_upd_hash well_typed_upd_list well_typed_upd_zset : typed.

Lemma purge_typed types old new jid ks :
  well_typed types ks -> types !! schedule = Some TZset -> types !! retry = Some TZset ->
  types !! old = Some TList -> types !! new = Some TList ->
  well_typed types (purge schedule retry old new jid ks).
Proof. intros. unfold purge. case_decide; auto 10 with typed. Qed.

Lemma purge_hash types old new jid ks :
  types !! jobs = Some THash -> types !! schedule = Some TZset -> types !! retry = Some TZset ->
  types !! old = Some TList -> types !! new = Some TList ->
  hash_at (purge schedule retry old new jid ks) jobs = hash_at ks jobs.
Proof.
  intros. unfold purge.
  case_decide;
    repeat first [ rewrite hash_at_upd_list_ne by congruence | rewrite hash_at_upd_zset_ne by congruence ];
    done.
Qed.

Lemma store_job_typed types a ks :
  well_typed types ks -> types !! jobs = Some THash ->
  (if scheduled then types !! schedule = Some TZset else types !! in_queue a = Some TList) ->
  well_typed types (store_job scheduled jobs schedule a ks).
Proof. intros. unfold store_job. destruct scheduled; auto with typed. Qed.

Lemma hash_at_upd_hash k f ks h : hash_at ks k = Some h -> hash_at (upd_hash k f ks) k = Some (f h).
Proof. intros H. unfold upd_hash. rewrite (write_hash_ok _ _ _ h H). cbn. by ks_simp. Qed.

Lemma store_job_hash types a ks h :
  types !! jobs = Some THash -> hash_at ks jobs = Some h ->
  (if scheduled then types !! schedule = Some TZset else types !! in_queue a = Some TList) ->
  hash_at (store_job scheduled jobs schedule a ks) jobs = Some (<[in_id a := in_payload a]> h).
Proof.
  intros Hj Hh Ht. unfold store_job.
  destruct scheduled;
    [rewrite hash_at_upd_zset_ne by congruence | rewrite hash_at_upd_list_ne by congruence];
    by apply hash_at_upd_hash.
Qed.

Lemma commit_one_facts types w ks h :
  well_typed types ks -> types !! jobs = Some THash -> write_typed types w -> hash_at ks jobs = Some h ->
  well_typed types (commit_one ks w) /\
  hash_at (commit_one ks w) jobs = Some (<[in_id (w_arg w) := in_payload (w_arg w)]> h).
Proof.
  intros Hw Hj [Hd Hr] Hh. unfold commit_one. destruct (w_replacing w).
  - destruct (Hr eq_refl) as (? & ? & ? & old & -> & ?). cbn [default from_option].
    split; [apply store_job_typed; auto using purge_typed|].
    eapply store_job_hash; [done| |done]. by erewrite purge_hash.
  - split; [by apply store_job_typed | by eapply store_job_hash].
Qed.

(** [typed_step] runs the next write of a commit whose keys are typed. *)
Ltac typed_step Hw :=
  rewrite script_call; cbn [documented];
  first [ erewrite write_hash_typed by eauto 10 with typed
        | erewrite write_list_typed by eauto 10 with typed
        | erewrite write_zset_typed by eauto 10 with typed ]; cbn [id].

Lemma store_run types a ks {A} (k : lua A) :
  well_typed types ks -> types !! jobs = Some THash ->
  (if scheduled then types !! schedule = Some TZset else types !! in_queue a = Some TList) ->
  script_doc (HSET jobs (in_id a) (in_payload a) ;;~
     if scheduled then ZADD schedule (in_score a) (in_id a) ;;~ k
     else LPUSH (in_queue a) (in_id a) ;;~ k)%lua ks =
  script_doc k (store_job scheduled jobs schedule a ks).
Proof.
  intros Hw Hj Hd. unfold store_job. typed_step Hw. destruct scheduled; by typed_step Hw.
Qed.

Lemma commit_write_run types w ks {A} (k : lua A) :
  well_typed types ks -> types !! jobs = Some THash -> write_typed types w ->
  script_doc (commit_write scheduled jobs schedule retry w k) ks = script_doc k (commit_one ks w).
Proof.
  intros Hw Hj [Hd Hr]. unfold commit_write, commit_one. destruct (w_replacing w).
  - destruct (Hr eq_refl) as (? & ? & ? & old & -> & ?). cbn [default from_option].
    do 3 typed_step Hw. unfold purge. case_decide as Heq; [|typed_step Hw];
      rewrite <- (store_run types _ _ k); eauto 10 with typed.
  - by rewrite <- (store_run types _ _ k).
Qed.

Lemma commit_writes_run types ws {A} (k : lua A) : forall ks h,
  well_typed types ks -> types !! jobs = Some THash -> Forall (write_typed types) ws ->
  hash_at ks jobs = Some h ->
  script_doc (commit_writes scheduled jobs schedule retry ws k) ks = script_doc k (foldl commit_one ks ws).
Proof.
  induction ws as [|w ws IH]; intros ks h Hw Hj Hws Hh; [done|].
  apply Forall_cons in Hws as [Hw1 Hws]. cbn [commit_writes foldl].
  rewrite (commit_write_run types) by done.
  destruct (commit_one_facts types w ks h) as [? ?]; [done..|]. by eapply IH.
Qed.

(** ** The preflight *)

Lemma write_typed_weaken types types' w : types ⊆ types' -> write_typed types w -> write_typed types' w.
Proof.
  intros Hsub [Hd Hr].
  assert (forall k t, types !! k = Some t -> types' !! k = Some t) as Hl
    by (intros; by eapply lookup_weaken).
  split; [destruct scheduled; auto|]. intros Hrep. destruct (Hr Hrep) as (? & ? & ? & old & ? & ?).
  split_and!; auto. exists old. auto.
Qed.

(** The next test of a preflight: it fails, changing nothing, or the run goes
    on with a memo that holds its answer. *)
Ltac next_type Hw types' Hw' :=
  lazymatch goal with
  | |- context [script_doc (require_type ?t ?key ?expected ?k) ?ks] =>
      destruct (require_type_run t key expected k ks Hw) as [?|(types' & Hw' & ? & ? & ->)]; [left; eauto|]
  end.

Lemma preflight_writes_run ws {A} (k : lua A) ks : forall types, well_typed types ks ->
  (exists e, script_doc (preflight_writes scheduled schedule retry ws types k) ks = (Err e, ks)) \/
  (exists types', well_typed types' ks /\ types ⊆ types' /\ Forall (write_typed types') ws /\
    script_doc (preflight_writes scheduled schedule retry ws types k) ks = script_doc k ks).
Proof.
  induction ws as [|w ws IH]; intros types Hw; [right; by exists types|]. cbn [preflight_writes].
  set (rest := fun types : memo => if w_replacing w then _ else _).
  assert (forall types1, well_typed types1 ks -> types ⊆ types1 ->
    (if scheduled then types1 !! schedule = Some TZset else types1 !! in_queue (w_arg w) = Some TList) ->
    (exists e, script_doc (rest types1) ks = (Err e, ks)) \/
    (exists types', well_typed types' ks /\ types ⊆ types' /\ Forall (write_typed types') (w :: ws) /\
      script_doc (rest types1) ks = script_doc k ks)) as Hrest.
  { intros types1 Hw1 Hsub1 Hd. unfold rest. destruct (w_replacing w) eqn:Hrep.
    2: { destruct (IH types1 Hw1) as [?|(types' & ? & ? & ? & ?)]; [by left|right].
         exists types'. split_and!; [done|by etrans| |done]. constructor; [|done].
         apply (write_typed_weaken types1); [done|]. by split; [|rewrite Hrep]. }
    next_type Hw1 types2 Hw2. next_type Hw2 types3 Hw3.
    destruct (w_old_queue w) as [old|] eqn:Hold; [|left; by eexists].
    next_type Hw3 types4 Hw4. next_type Hw4 types5 Hw5.
    destruct (IH types5 Hw5) as [?|(types' & ? & Hsub' & ? & ?)]; [by left|right].
    exists types'. split_and!; [done|by repeat (etrans; [eassumption|])| |done]. constructor; [|done].
    apply (write_typed_weaken types5); [done|].
    assert (forall t1 t2 t k, t1 ⊆ t2 -> t1 !! k = Some t -> (t2 : memo) !! k = Some t) as Hl
      by (intros; by eapply lookup_weaken).
    split; [destruct scheduled; eauto 10|]. intros _. split_and!; eauto 10. }
  clearbody rest. destruct scheduled eqn:Es; next_type Hw types1 Hw1; by apply Hrest.
Qed.

(** ** Snapshots *)

Definition stale (h : gmap string string) (snaps : list SnapshotArg) : list (string * option string) :=
  (λ sn, (arg_id sn, h !! arg_id sn)) <$>
    filter (λ sn, snapshot_matches (arg_check sn) (h !! arg_id sn) = false) snaps.

Definition snapshot_presence (h : gmap string string) (snaps : list SnapshotArg) (m : presence) : presence :=
  foldl (λ m sn, <[arg_id sn := bool_decide (is_Some (h !! arg_id sn))]> m) m snaps.

Definition snapshot_queues (snaps : list SnapshotArg) (m : queue_names) : queue_names :=
  foldl (λ m sn, match arg_queue sn with
                 | Some q => <[arg_id sn := q]> m | None => delete (arg_id sn) m end) m snaps.

Lemma check_snapshots_run ks h {A} (k : _ -> _ -> _ -> lua A) : hash_at ks jobs = Some h ->
  forall snaps changed present queue_keys,
  script_doc (check_snapshots jobs snaps changed present queue_keys k) ks =
  script_doc (k (changed ++ stale h snaps) (snapshot_presence h snaps present)
    (snapshot_queues snaps queue_keys)) ks.
Proof.
  intros Hh. induction snaps as [|sn snaps IH]; intros changed present queue_keys; cbn [check_snapshots].
  - by rewrite app_nil_r.
  - lua_step. rewrite IH. cbn [snapshot_presence snapshot_queues foldl]. do 2 f_equal.
    unfold stale. rewrite filter_cons. destruct (snapshot_matches _ _) eqn:E.
    + by rewrite decide_False.
    + rewrite decide_True by done. cbn. by rewrite <- app_assoc.
Qed.

Lemma snapshot_presence_lookup h snaps : forall m i b,
  (m !! i = Some b -> b = bool_decide (is_Some (h !! i))) ->
  snapshot_presence h snaps m !! i = Some b -> b = bool_decide (is_Some (h !! i)).
Proof.
  induction snaps as [|sn snaps IH]; intros m i b Hm; [done|]. cbn [snapshot_presence foldl].
  apply IH. rewrite lookup_insert_Some. intros [[<- <-]|[_ ?]]; [done | by apply Hm].
Qed.

(** ** The plan is the sequential reading of the inputs *)

Fixpoint plan (h : gmap string string) (inputs : list EnqueueArg) (present : presence) (queues : queue_names)
    : list EnqueueWrite * list nat :=
  match inputs with
  | [] => ([], [])
  | a :: inputs' =>
      let '(b, present1) :=
        match present !! in_id a with
        | Some b => (b, present)
        | None => if decide (in_conflict a = OnDefault) then (false, present)
                  else (bool_decide (is_Some (h !! in_id a)),
                        <[in_id a := bool_decide (is_Some (h !! in_id a))]> present)
        end in
      let '(w, o, present2, queues2) := plan_one b a present1 queues in
      let '(ws, os) := plan h inputs' present2 queues2 in
      (match w with Some w => [w] | None => [] end ++ ws, o :: os)
  end.

Lemma plan_writes_run ks h {A} (k : _ -> _ -> lua A) : hash_at ks jobs = Some h ->
  forall inputs present queues ws os,
  script_doc (plan_writes jobs inputs present queues ws os k) ks =
  script_doc (k (ws ++ fst (plan h inputs present queues)) (os ++ snd (plan h inputs present queues))) ks.
Proof.
  intros Hh. induction inputs as [|a inputs IH]; intros present queues ws os; cbn [plan_writes plan].
  { by rewrite !app_nil_r. }
  destruct (present !! in_id a) as [b|]; [|case_decide; [|lua_step]];
    destruct (plan_one _ a _ queues) as [[[w o] p2] q2];
    rewrite IH; destruct (plan h inputs p2 q2) as [ws' os']; cbn [fst snd];
    rewrite <- app_assoc; destruct w; cbn [app]; by rewrite <- ?app_assoc.
Qed.

(** What the plan knows of the current hash: [cur] is the hash after the
    writes planned so far, [h] the hash the script read. *)
Definition presence_ok (h cur : gmap string string) (present : presence) : Prop :=
  forall i, match present !! i with
            | Some b => b = bool_decide (is_Some (cur !! i))
            | None => is_Some (cur !! i) <-> is_Some (h !! i)
            end.

Lemma presence_ok_insert h cur present i b v :
  presence_ok h cur present -> (b = bool_decide (is_Some (<[i := v]> cur !! i))) ->
  presence_ok h (<[i := v]> cur) (<[i := b]> present).
Proof.
  intros Hp Hb j. destruct (decide (i = j)) as [<-|Hne]; [by rewrite lookup_insert_eq|].
  rewrite !lookup_insert_ne by done. apply Hp.
Qed.

Lemma presence_ok_read h cur present i :
  presence_ok h cur present -> present !! i = None ->
  bool_decide (is_Some (h !! i)) = bool_decide (is_Some (cur !! i)) /\
  presence_ok h cur (<[i := bool_decide (is_Some (h !! i))]> present).
Proof.
  intros Hp Hi. assert (bool_decide (is_Some (h !! i)) = bool_decide (is_Some (cur !! i))) as E.
  { apply bool_decide_ext. specialize (Hp i). rewrite Hi in Hp. by symmetry. }
  split; [done|]. intros j. destruct (decide (i = j)) as [<-|Hne]; [by rewrite lookup_insert_eq|].
  rewrite lookup_insert_ne by done. apply Hp.
Qed.

Lemma stored_hash ks h i : hash_at ks jobs = Some h -> stored jobs i ks = bool_decide (is_Some (h !! i)).
Proof. intros H. unfold stored. by rewrite H. Qed.

(** One input: planning it and committing its write is handling it. *)
Lemma plan_one_step types a h cur ks b present queues :
  well_typed types ks -> types !! jobs = Some THash ->
  hash_at ks jobs = Some cur -> presence_ok h cur present ->
  (in_conflict a = OnDefault \/ b = bool_decide (is_Some (cur !! in_id a))) ->
  let '(w, o, present', queues') := plan_one b a present queues in
  (forall w', w = Some w' -> write_typed types w') ->
  exists ks' cur', enqueue_one a (ks, queues) = (ks', queues', o) /\
    ks' = match w with Some w => commit_one ks w | None => ks end /\
    well_typed types ks' /\ hash_at ks' jobs = Some cur' /\ presence_ok h cur' present'.
Proof.
  intros Hw Hj Hh Hp Hb. unfold plan_one, enqueue_one. rewrite (stored_hash ks cur) by done.
  assert (forall c, c <> OnDefault ->
    bool_decide (in_conflict a = c) && b = bool_decide (in_conflict a = c) && bool_decide (is_Some (cur !! in_id a)))
    as Hbc.
  { intros c Hc. destruct Hb as [Hd| ->]; [|done]. rewrite Hd. by rewrite bool_decide_false. }
  rewrite <- !Hbc by done. destruct (bool_decide (in_conflict a = OnSkip) && b).
  { intros _. exists ks, cur. done. }
  intros Hty. specialize (Hty _ eq_refl).
  destruct (commit_one_facts types _ ks cur Hw Hj Hty Hh) as [Hw' Hh'].
  do 2 eexists. split_and!; [| |exact Hw'|exact Hh'|].
  - unfold commit_one. cbn [w_arg w_replacing w_old_queue].
    destruct (bool_decide (in_conflict a = OnReplace) && b); reflexivity.
  - reflexivity.
  - cbn [w_arg]. apply presence_ok_insert; [done|]. rewrite lookup_insert_eq. by rewrite bool_decide_true.
Qed.

Lemma plan_sequential types h inputs : types !! jobs = Some THash ->
  forall ks cur present queues,
  well_typed types ks -> hash_at ks jobs = Some cur -> presence_ok h cur present ->
  Forall (write_typed types) (fst (plan h inputs present queues)) ->
  exists queues', enqueue_all inputs (ks, queues) =
    (foldl commit_one ks (fst (plan h inputs present queues)), queues', snd (plan h inputs present queues)).
Proof.
  intros Hj. induction inputs as [|a inputs IH]; intros ks cur present queues Hw Hh Hp; cbn [plan enqueue_all].
  { intros _. by exists queues. }
  set (choice := match present !! in_id a with Some b => (b, present) | None => _ end).
  assert (presence_ok h cur choice.2 /\
    (in_conflict a = OnDefault \/ choice.1 = bool_decide (is_Some (cur !! in_id a)))) as [Hp1 Hb].
  { unfold choice. pose proof (Hp (in_id a)) as Hi. destruct (present !! in_id a) eqn:E; [by auto|].
    case_decide; [by auto|]. destruct (presence_ok_read _ _ _ _ Hp E) as [? ?]. by auto. }
  destruct choice as [b present1]. cbn [fst snd] in Hp1, Hb.
  pose proof (plan_one_step types a h cur ks b present1 queues Hw Hj Hh Hp1 Hb) as Hstep.
  destruct (plan_one b a present1 queues) as [[[w o] present2] queues2].
  destruct (plan h inputs present2 queues2) as [ws os] eqn:Eplan. cbn [fst snd].
  intros [Hty Htys]%Forall_app.
  destruct Hstep as (ks' & cur' & Hone & Eks & Hw' & Hh' & Hp').
  { intros w' Ew. rewrite Ew in Hty. by apply Forall_cons in Hty as [? _]. }
  destruct (IH ks' cur' present2 queues2 Hw' Hh' Hp') as [queues' Hall]; [by rewrite Eplan|].
  rewrite Eplan in Hall. cbn [fst snd] in Hall. exists queues'. rewrite Hone, Hall.
  destruct w; cbn [app foldl]; by rewrite Eks.
Qed.

End Script.

Lemma plan_args h inputs : forall present queues w,
  w ∈ fst (plan h inputs present queues) -> w_arg w ∈ inputs.
Proof.
  induction inputs as [|a inputs IH]; intros present queues w; cbn [plan]; [by intros ?%elem_of_nil|].
  set (choice := match present !! in_id a with Some b => (b, present) | None => _ end).
  destruct choice as [b present1]. unfold plan_one.
  destruct (bool_decide (in_conflict a = OnSkip) && b);
    match goal with |- context [plan h inputs ?p ?q] =>
      specialize (IH p q); destruct (plan h inputs p q) as [ws os] end; cbn [fst snd app] in *.
  - intros ?%IH. by right.
  - intros [->|?%IH]%elem_of_cons; [by left|by right].
Qed.

(** A run of the script: an error without a write, the stale snapshots without
    a write, or the planned writes, every key of which has been tested. *)
Lemma enqueue_lua_commits jobs schedule retry dest snaps inputs ks h :
  hash_at ks jobs = Some h ->
  let run := script_doc (enqueue_lua jobs schedule retry dest snaps inputs) ks in
  let planned := plan h inputs (snapshot_presence h snaps ∅) (snapshot_queues snaps ∅) in
  (exists e, run = (Err e, ks)) \/
  (stale h snaps <> [] /\ run = (Ok (stale h snaps, []), ks)) \/
  (stale h snaps = [] /\ exists types, well_typed types ks /\ types !! jobs = Some THash /\
     Forall (write_typed (is_schedule dest) schedule retry types) (fst planned) /\
     run = (Ok ([], snd planned), foldl (commit_one (is_schedule dest) jobs schedule retry) ks (fst planned))).
Proof.
  intros Hh run planned. unfold run, enqueue_lua. clear run.
  destruct (require_type_run ∅ jobs THash (fun types =>
      check_snapshots jobs snaps [] ∅ ∅ (plan_inputs dest jobs schedule retry inputs types)) ks)
    as [Herr|(types & Hw & _ & Hj & ->)]; [by intros ? ? ?%lookup_empty_Some|left; eauto|].
  rewrite (check_snapshots_run _ _ h) by done. cbn [app]. unfold plan_inputs.
  destruct (stale h snaps) as [|c cs] eqn:Estale; [|right; left; done].
  rewrite (plan_writes_run _ _ h) by done. cbn [app]. unfold commit_plan.
  destruct (preflight_writes_run (is_schedule dest) schedule retry (fst planned)
    (commit_writes (is_schedule dest) jobs schedule retry (fst planned)
      (LRet ([], snd planned) : lua EnqueueReply)) ks types Hw)
    as [[e He]|(types' & Hw' & Hsub & Hty & Hrun)]; [left; by exists e|].
  assert (types' !! jobs = Some THash) as Hj' by (by eapply lookup_weaken).
  right; right. split; [done|]. exists types'. split_and!; [done..|].
  fold planned. rewrite Hrun. by erewrite commit_writes_run.
Qed.

(** ** The script succeeds when the keys have their types *)

Section Succeeds.
Context (T : memo) (ks : keyspace) (HT : well_typed T ks).

Lemma require_type_passes types key expected {A} (k : memo -> lua A) :
  types ⊆ T -> T !! key = Some expected ->
  exists types', types' ⊆ T /\
    script_doc (require_type types key expected k) ks = script_doc (k types') ks.
Proof.
  intros Hsub Hkey. unfold require_type. destruct (types !! key) as [t|] eqn:E.
  - pose proof (lookup_weaken _ _ _ _ E Hsub). simplify_eq. rewrite decide_True by done. eauto.
  - rewrite script_call. cbn [documented]. rewrite (HT _ _ Hkey). exists (<[key := expected]> types).
    split; [|done]. by apply insert_subseteq_l.
Qed.

Lemma preflight_writes_passes scheduled schedule retry ws {A} (k : lua A) :
  Forall (write_typed scheduled schedule retry T) ws -> forall types, types ⊆ T ->
  script_doc (preflight_writes scheduled schedule retry ws types k) ks = script_doc k ks.
Proof.
  induction 1 as [|w ws [Hd Hr] _ IH]; intros types Hsub; [done|]. cbn [preflight_writes].
  set (rest := fun types : memo => if w_replacing w then _ else _).
  assert (forall types1, types1 ⊆ T -> script_doc (rest types1) ks = script_doc k ks) as Hrest.
  { intros types1 Hsub1. unfold rest. destruct (w_replacing w); [|by apply IH].
    destruct (Hr eq_refl) as (Hs & Hre & Hnew & old & -> & Hold).
    edestruct require_type_passes as (types2 & ? & ->); [exact Hsub1|exact Hs|].
    edestruct require_type_passes as (types3 & ? & ->); [eassumption|exact Hre|].
    edestruct require_type_passes as (types4 & ? & ->); [eassumption|exact Hold|].
    edestruct require_type_passes as (types5 & ? & ->); [eassumption|exact Hnew|]. by apply IH. }
  clearbody rest. destruct scheduled;
    (edestruct require_type_passes as (types1 & ? & ->); [exact Hsub|exact Hd|by apply Hrest]).
Qed.

Lemma enqueue_lua_succeeds jobs schedule retry dest snaps inputs h :
  let planned := plan h inputs (snapshot_presence h snaps ∅) (snapshot_queues snaps ∅) in
  hash_at ks jobs = Some h -> T !! jobs = Some THash -> stale h snaps = [] ->
  Forall (write_typed (is_schedule dest) schedule retry T) (fst planned) ->
  script_doc (enqueue_lua jobs schedule retry dest snaps inputs) ks =
    (Ok ([], snd planned), foldl (commit_one (is_schedule dest) jobs schedule retry) ks (fst planned)).
Proof.
  intros planned Hh Hj Hst Hty. unfold enqueue_lua.
  edestruct require_type_passes as (types & ? & ->); [apply map_empty_subseteq|exact Hj|].
  rewrite (check_snapshots_run _ _ h) by done. cbn [app]. unfold plan_inputs. rewrite Hst.
  rewrite (plan_writes_run _ _ h) by done. cbn [app]. unfold commit_plan. fold planned.
  rewrite preflight_writes_passes by done. by erewrite commit_writes_run.
Qed.
End Succeeds.

Lemma enqueue_lua_stale jobs schedule retry dest snaps inputs ks h :
  hash_at ks jobs = Some h -> stale h snaps <> [] ->
  script_doc (enqueue_lua jobs schedule retry dest snaps inputs) ks = (Ok (stale h snaps, []), ks).
Proof.
  intros Hh Hst. unfold enqueue_lua.
  edestruct (require_type_passes {[jobs := THash]} ks) as (types & _ & ->);
    [|apply map_empty_subseteq|apply lookup_singleton_eq|].
  - intros k ty [<- <-]%lookup_singleton_Some. apply type_ok_hash. by rewrite Hh.
  - rewrite (check_snapshots_run _ _ h) by done. cbn [app]. unfold plan_inputs. by destruct (stale h snaps).
Qed.

(** Committing the planned writes is handling the inputs one by one. *)
Lemma commits_sequential jobs schedule retry dest snaps inputs ks h types :
  hash_at ks jobs = Some h -> well_typed types ks -> types !! jobs = Some THash ->
  let planned := plan h inputs (snapshot_presence h snaps ∅) (snapshot_queues snaps ∅) in
  Forall (write_typed (is_schedule dest) schedule retry types) (fst planned) ->
  exists queues', enqueue_all (is_schedule dest) jobs schedule retry inputs (ks, snapshot_queues snaps ∅) =
    (foldl (commit_one (is_schedule dest) jobs schedule retry) ks (fst planned), queues', snd planned).
Proof.
  intros Hh Hw Hj planned Hty.
  apply (plan_sequential (is_schedule dest) jobs schedule retry types h inputs Hj ks h); [done|done| |done].
  intros i. destruct (snapshot_presence h snaps ∅ !! i) eqn:E; [|done].
  eapply snapshot_presence_lookup; [|exact E]. by intros ?%lookup_empty_Some.
Qed.

(** What the script leaves: the keyspace it found, or the one after its inputs. *)
Lemma enqueue_lua_leaves jobs schedule retry dest snaps inputs ks h :
  hash_at ks jobs = Some h ->
  let run := script_doc (enqueue_lua jobs schedule retry dest snaps inputs) ks in
  snd run = ks \/
  snd run = (enqueue_all (is_schedule dest) jobs schedule retry inputs (ks, snapshot_queues snaps ∅)).1.1.
Proof.
  intros Hh run. unfold run. destruct (enqueue_lua_commits jobs schedule retry dest snaps inputs ks h Hh)
    as [[e ->]|[[_ ->]|(_ & types & Hw & Hj & Hty & ->)]]; [by left|by left|right].
  by destruct (commits_sequential jobs schedule retry dest snaps inputs ks h types) as [queues' ->].
Qed.

(** C5. The script is atomic and sequential: it reports the stale snapshots and
    writes nothing; or it handles every input in order, each on the keyspace
    the inputs before it left; or, only when no typing of the keys gives each
    planned write the types it needs, it answers an error and writes nothing. *)
Theorem enqueue_lua_sequential jobs schedule retry dest snaps inputs ks h :
  hash_at ks jobs = Some h ->
  let run := script_doc (enqueue_lua jobs schedule retry dest snaps inputs) ks in
  let planned := plan h inputs (snapshot_presence h snaps ∅) (snapshot_queues snaps ∅) in
  match stale h snaps with
  | [] =>
      (exists ks' queues' outcomes,
        enqueue_all (is_schedule dest) jobs schedule retry inputs (ks, snapshot_queues snaps ∅)
          = (ks', queues', outcomes) /\
        run = (Ok ([], outcomes), ks')) \/
      ((exists e, run = (Err e, ks)) /\
       forall T, well_typed T ks -> T !! jobs = Some THash ->
         ~ Forall (write_typed (is_schedule dest) schedule retry T) (fst planned))
  | changed => run = (Ok (changed, []), ks)
  end.
Proof.
  intros Hh run planned. unfold run. clear run.
  destruct (stale h snaps) as [|c cs] eqn:Est.
  2: { rewrite (enqueue_lua_stale _ _ _ _ _ _ _ h) by (by rewrite ?Est). by rewrite Est. }
  destruct (enqueue_lua_commits jobs schedule retry dest snaps inputs ks h Hh)
    as [[e He]|[[Hne _]|(_ & types & Hw & Hj & Hty & ->)]]; [|by rewrite Est in Hne|left].
  - right. split; [by exists e|]. intros T HT HTj Hty.
    rewrite (enqueue_lua_succeeds T ks HT _ _ _ _ _ _ h) in He by done. done.
  - destruct (commits_sequential jobs schedule retry dest snaps inputs ks h types) as [queues' Hall]; [done..|].
    by do 3 eexists.
Qed.
