(* ===== verification/Delivery.v ===== *)
(** * Enqueueing and claiming, end to end

    Ordinary jobs are claimed in the order they were enqueued; unique jobs are
    skipped, replaced or stored according to their conflict strategy. *)
From S2P Require Import Prelude Errors Redis Envelope Codec Queue Keys Scripts Storage.
From S2P Require Import Transitions Enqueue EnqueueScript.

Section Delivery.
Context {R : RedisServer} {L : LawfulRedis R} {S : Serde} {LS : LawfulSerde S}.
Implicit Types (st : StorageInternal) (ks : keyspace).

Definition store_all (es : list JobEnvelope) (h : gmap string string) : gmap string string :=
  hset_all ((fun e => (id e, payload_text e)) <$> es) h.

Lemma store_all_other es h jid : jid ∉ id <$> es -> store_all es h !! jid = h !! jid.
Proof.
  unfold store_all, hset_all. revert h. induction es as [|e es IH]; intros h Hn; cbn; [done|].
  rewrite IH by set_solver. cbn. rewrite lookup_insert_ne; [done|set_solver].
Qed.

Lemma store_all_payloads es h : NoDup (id <$> es) ->
  Forall (fun e => exists text, store_all es h !! id e = Some text /\ from_str text = Ok e) es.
Proof.
  revert h. induction es as [|e es IH]; intros h Hnd; [done|]. cbn in Hnd. apply NoDup_cons in Hnd as [Hn Hnd].
  change (store_all (e :: es) h) with (store_all es (<[id e := payload_text e]> h)).
  constructor; [|by apply IH]. exists (payload_text e). rewrite store_all_other by done.
  split; [by simplify_map_eq|apply payload_text_ok].
Qed.

(** ** Ordinary jobs *)

Lemma run_pipe_cons c cs ks :
  run_doc (pipe (c :: cs)) ks =
    let '(r, ks1) := documented c ks in
    let '(r', ks2) := run_doc (pipe cs) ks1 in
    (match map_err DeadpoolRedisError r with Ok _ => r' | Err e => Err e end, ks2).
Proof.
  cbn [pipe run run_event exec MemRedis]. destruct (documented c ks) as [r ks1]. rewrite run_pbind.
  by destruct (run_doc (pipe cs) ks1).
Qed.

Lemma collect_ordinary st es :
  exists cmds, collect (ordinary_commands st DestQueue <$> es) = Ok cmds /\
    concat cmds = concat ((fun e => [HSET (jobs (skeys st)) (id e) (payload_text e);
                                     LPUSH (namespace_queue (skeys st) (queue e)) (id e)]) <$> es).
Proof.
  induction es as [|e es (cmds & IH & Ec)]; cbn; [by eexists|].
  unfold ordinary_commands at 1. destruct (payload_text_ok e) as (-> & _ & _). cbn. rewrite IH. cbn.
  eexists. split; [done|]. cbn. by rewrite Ec.
Qed.

Lemma ordinary_run st q es : starts_with (namespace (skeys st)) q = false ->
  Forall (fun e => queue e = q) es -> forall ks h l,
  hash_at ks (jobs (skeys st)) = Some h -> list_at ks (namespace_queue (skeys st) q) = Some l ->
  exists ks', run_doc (enqueue_ordinary st DestQueue es) ks = (Ok tt, ks') /\
    hash_at ks' (jobs (skeys st)) = Some (store_all es h) /\
    list_at ks' (namespace_queue (skeys st) q) = Some (reverse (id <$> es) ++ l) /\
    same_except [jobs (skeys st); namespace_queue (skeys st) q] ks ks'.
Proof.
  intros Hq Hes ks h l Hh Hl. unfold enqueue_ordinary. destruct (collect_ordinary st es) as (cmds & -> & Ec).
  rewrite run_try, run_lift, Ec. clear Ec cmds. revert ks h l Hh Hl.
  induction Hes as [|e es He _ IH]; intros ks h l Hh Hl; cbn [fmap list_fmap concat app].
  { exists ks. split_and!; try done. }
  rewrite !run_pipe_cons. cbn [documented]. rewrite He. doc_cmd. rewrite run_pipe_cons. cbn [documented]. doc_cmd.
  edestruct (IH (put_list (namespace_queue (skeys st) q) (id e :: l)
    (put_hash (jobs (skeys st)) (<[id e := payload_text e]> h) ks))) as (ks' & Hrun & Hh' & Hl' & Hs);
    [by ks_simp|by ks_simp|]. rewrite Hrun. cbn [map_err].
  exists ks'. split; [done|]. split; [done|]. split.
  - rewrite Hl'. f_equal. rewrite reverse_cons. by rewrite <- app_assoc.
  - eapply same_except_trans; [|exact Hs]. frame.
Qed.

Lemma each_chunk_run st fuel q cs : starts_with (namespace (skeys st)) q = false ->
  Forall (Forall (fun e => queue e = q /\ unique (meta e) = false)) cs -> forall ks h l written,
  hash_at ks (jobs (skeys st)) = Some h -> list_at ks (namespace_queue (skeys st) q) = Some l ->
  exists ks', run_doc (enqueue_each_chunk st fuel DestQueue cs written) ks = (Ok tt, ks') /\
    hash_at ks' (jobs (skeys st)) = Some (store_all (concat cs) h) /\
    list_at ks' (namespace_queue (skeys st) q) = Some (reverse (id <$> concat cs) ++ l) /\
    same_except [jobs (skeys st); namespace_queue (skeys st) q] ks ks'.
Proof.
  intros Hq. induction 1 as [|c cs Hc _ IH]; intros ks h l written Hh Hl; cbn [enqueue_each_chunk concat].
  { exists ks. split_and!; done. }
  rewrite run_try. unfold enqueue_chunk. replace (forallb _ c) with true.
  2: { symmetry. apply forallb_forall. intros e He%list_elem_of_In. rewrite Forall_forall in Hc.
       destruct (Hc e He) as [_ ->]. done. }
  rewrite run_try.
  destruct (ordinary_run st q c Hq) with (ks := ks) (h := h) (l := l) as (ks1 & -> & Hh1 & Hl1 & Hs1); [|done..|].
  { eapply Forall_impl; [exact Hc|]. by intros ? [? _]. }
  rewrite run_lift. edestruct IH as (ks' & -> & Hh' & Hl' & Hs'); [exact Hh1|exact Hl1|].
  exists ks'. split; [done|]. split; [|split].
  - rewrite Hh'. unfold store_all, hset_all. by rewrite fmap_app, foldl_app.
  - rewrite Hl'. by rewrite fmap_app, reverse_app, app_assoc.
  - by eapply same_except_trans.
Qed.

(** [dequeue] until [n] answers. *)
Fixpoint dequeue_times st (q : string) (n : nat) : rprog (list (option JobId)) :=
  match n with
  | O => lift (Ok [])
  | Datatypes.S n' => (x <-? dequeue st q ;; xs <-? dequeue_times st q n' ;; lift (Ok (x :: xs)))%prog
  end.

Lemma dequeue_times_run st q : starts_with (namespace (skeys st)) q = false -> forall ids ks m,
  list_at ks (namespace_queue (skeys st) q) = Some (reverse ids) ->
  list_at ks (current_processing_queue st) = Some m ->
  exists ks', run_doc (dequeue_times st q (length ids)) ks = (Ok (Some <$> ids), ks') /\
    list_at ks' (namespace_queue (skeys st) q) = Some [] /\
    list_at ks' (current_processing_queue st) = Some (reverse ids ++ m) /\
    same_except [namespace_queue (skeys st) q; current_processing_queue st] ks ks'.
Proof.
  intros Hq. induction ids as [|i ids IH]; intros ks m Hl Hm; cbn [dequeue_times length].
  { exists ks. split_and!; done. }
  unfold dequeue, dequeue_w_conn, connection. rewrite !run_try, run_checkout, run_call. cbn [documented]. unfold lmove.
  rewrite Hl, reverse_cons, unsnoc_snoc.
  assert (list_at (put_list (namespace_queue (skeys st) q) (reverse ids) ks) (current_processing_queue st) = Some m)
    as -> by (by ks_simp).
  cbn [fst snd map_err]. rewrite run_try.
  edestruct (IH (put_list (current_processing_queue st) (i :: m) (put_list (namespace_queue (skeys st) q) (reverse ids) ks)))
    as (ks' & -> & Hl' & Hm' & Hs); [by ks_simp|by ks_simp|]. rewrite run_lift.
  exists ks'. split_and!; [done|done| |].
  - rewrite Hm'. by rewrite <- app_assoc.
  - eapply same_except_trans; [|exact Hs]. frame.
Qed.

(** C10. Ordinary jobs of one queue, however many chunks they are sent in, are
    claimed in the order in which they were enqueued, and each claim's payload
    is the job that was sent. *)
Theorem enqueue_list_fifo st fuel q es d (js : job_store st (view d)) :
  starts_with (namespace (skeys st)) q = false ->
  list_at (view d) (namespace_queue (skeys st) q) = Some [] ->
  Forall (fun e => queue e = q /\ unique (meta e) = false) es -> NoDup (id <$> es) ->
  yields (_ <-? enqueue_list st fuel es ;; dequeue_times st q (length es))%prog d
    (Ok (Some <$> (id <$> es))) (fun ks' =>
    exists js' : job_store st ks',
      claims js' = reverse (id <$> es) ++ claims js /\
      Forall (fun e => exists text, payloads js' !! id e = Some text /\ from_str text = Ok e) es /\
      (forall jid, jid ∉ id <$> es -> payloads js' !! jid = payloads js !! jid)).
Proof.
  intros Hq Hempty Hes Hnd. apply yields_doc. open_store js.
  assert (exists ks1, run_doc (enqueue_list st fuel es) (view d) = (Ok (id <$> es), ks1) /\
    hash_at ks1 (jobs (skeys st)) = Some (store_all es (payloads js)) /\
    list_at ks1 (namespace_queue (skeys st) q) = Some (reverse (id <$> es)) /\
    same_except [jobs (skeys st); namespace_queue (skeys st) q] (view d) ks1) as (ks1 & Hrun1 & Hh1 & Hl1 & Hs1).
  { unfold enqueue_list. destruct es as [|e es]; [exists (view d); split_and!; try done|].
    unfold connection. rewrite run_try, run_checkout. unfold enqueue_list_w_conn. rewrite run_try.
    assert (0 < ENQUEUE_LIST_CHUNK_SIZE) as Hn by (unfold ENQUEUE_LIST_CHUNK_SIZE; lia).
    destruct (each_chunk_run st fuel q (enqueue_list_chunks (e :: es)) Hq) with
      (ks := view d) (h := payloads js) (l := @nil string) (written := (∅ : gset JobId))
      as (ks1 & -> & Hh1 & Hl1 & Hs1); [|done|done|].
    { apply Forall_concat. unfold enqueue_list_chunks. by rewrite concat_chunks. }
    exists ks1. unfold enqueue_list_chunks in Hh1, Hl1. rewrite concat_chunks in Hh1, Hl1 by done.
    rewrite app_nil_r in Hl1. by rewrite run_lift. }
  destruct (dequeue_times_run st q Hq (id <$> es) ks1 (claims js)) as (ks2 & Hrun2 & _ & Hm2 & Hs2).
  { done. } { destruct (same_except_at _ _ _ (current_processing_queue st) Hs1) as (_ & -> & _); [key_notin|done]. }
  rewrite length_fmap in Hrun2.
  exists ks2. split; [by rewrite run_try, Hrun1|].
  assert (same_except [jobs (skeys st); namespace_queue (skeys st) q; current_processing_queue st] (view d) ks2) as Hs.
  { eapply same_except_trans; [apply (same_except_weaken _ _ _ _ Hs1); set_solver|].
    apply (same_except_weaken _ _ _ _ Hs2); set_solver. }
  assert (hash_at ks2 (jobs (skeys st)) = Some (store_all es (payloads js))) as Hh2.
  { destruct (same_except_at _ _ _ (jobs (skeys st)) Hs2) as (-> & _ & _); [key_notin|done]. }
  store_after js Hs. split; [done|]. rewrite Hp. split.
  - apply store_all_payloads. done.
  - intros jid Hj. apply store_all_other. done.
Qed.

(** ** Unique jobs *)

(** The parts of a keyspace a single enqueue reads and writes, typed. *)
Definition enqueue_types st (old new : string) : memo :=
  <[jobs (skeys st) := THash]> (<[schedule (skeys st) := TZset]> (<[retry (skeys st) := TZset]>
  (<[old := TList]> {[new := TList]}))).

Lemma enqueue_types_lookup st q q' :
  starts_with (namespace (skeys st)) q = false -> starts_with (namespace (skeys st)) q' = false ->
  let T := enqueue_types st (namespace_queue (skeys st) q) (namespace_queue (skeys st) q') in
  T !! jobs (skeys st) = Some THash /\ T !! schedule (skeys st) = Some TZset /\ T !! retry (skeys st) = Some TZset /\
  T !! namespace_queue (skeys st) q = Some TList /\ T !! namespace_queue (skeys st) q' = Some TList.
Proof.
  intros Hq Hq' T. unfold T, enqueue_types.
  assert (jobs (skeys st) <> schedule (skeys st)) by key_ne. assert (jobs (skeys st) <> retry (skeys st)) by key_ne.
  assert (schedule (skeys st) <> retry (skeys st)) by key_ne.
  rewrite lookup_insert_eq.
  split_and!; [done|..]; repeat first [rewrite lookup_insert_eq; done | rewrite lookup_insert_ne by key_ne].
  destruct (decide (namespace_queue (skeys st) q = namespace_queue (skeys st) q')) as [->|Hne].
  - by rewrite lookup_insert_eq.
  - rewrite lookup_insert_ne by done. by simplify_map_eq.
Qed.

Lemma enqueue_types_ok st old new (ks : keyspace) h z r l l' :
  hash_at ks (jobs (skeys st)) = Some h -> zset_at ks (schedule (skeys st)) = Some z ->
  zset_at ks (retry (skeys st)) = Some r -> list_at ks old = Some l -> list_at ks new = Some l' ->
  well_typed (enqueue_types st old new) ks.
Proof.
  intros Hh Hz Hr Hl Hl' k t. unfold enqueue_types. rewrite !lookup_insert_Some, lookup_singleton_Some.
  intros [[<- <-]|[_ [[<- <-]|[_ [[<- <-]|[_ [[<- <-]|[_ [<- <-]]]]]]]]];
    eauto using hash_type, zset_type, list_type.
Qed.

Lemma plan_fresh h a present queues :
  in_conflict a <> OnDefault -> h !! in_id a = None -> present !! in_id a = None \/ present !! in_id a = Some false ->
  plan h [a] present queues = ([{| w_arg := a; w_old_queue := None; w_replacing := false |}], [1]).
Proof.
  intros Hc Hh Hp. cbn [plan].
  set (choice := match present !! in_id a with Some b => (b, present) | None => _ end).
  assert (choice.1 = false) as Hb.
  { unfold choice. destruct Hp as [-> | ->]; [|done]. rewrite decide_False by done. cbn. by rewrite Hh. }
  destruct choice as [b p]. cbn in Hb. subst b. unfold plan_one. by rewrite !andb_false_r.
Qed.

Lemma plan_replace h a present queues old :
  in_conflict a = OnReplace -> present !! in_id a = Some true -> queues !! in_id a = Some old ->
  plan h [a] present queues = ([{| w_arg := a; w_old_queue := Some old; w_replacing := true |}], [2]).
Proof.
  intros Hc Hp Hq. cbn [plan]. rewrite Hp. unfold plan_one. rewrite Hc, Hq. done.
Qed.

Section OneUnique.
Variables (st : StorageInternal) (e : JobEnvelope).
Hypothesis Hu : unique (meta e) = true.

Lemma drop_seen_one : drop_seen ∅ ∅ [e] = [e].
Proof. cbn [drop_seen]. rewrite (bool_decide_false (id e ∈ ∅ ∪ ∅)) by set_solver. by rewrite andb_false_r. Qed.

Lemma replacement_ids_one : replacement_ids ∅ [e] = if is_replace e then {[id e]} else ∅.
Proof.
  cbn [replacement_ids]. rewrite Hu. cbn [negb orb]. rewrite bool_decide_true by set_solver.
  destruct (is_replace e); cbn; [|done]. set_solver.
Qed.

Lemma serialize_one : serialize_pending [e] = Ok [(e, payload_text e)].
Proof. unfold serialize_pending. cbn. by destruct (payload_text_ok e) as (-> & _ & _). Qed.

(** The round of the loop that commits. *)
Lemma enqueue_loop_commits fuel snaps ks h T :
  let snap_args := snapshot_arg_of st <$> map_to_list snaps in
  let planned := plan h [enqueue_arg_of st (e, payload_text e)]
    (snapshot_presence h snap_args ∅) (snapshot_queues snap_args ∅) in
  well_typed T ks -> hash_at ks (jobs (skeys st)) = Some h -> T !! jobs (skeys st) = Some THash ->
  stale h snap_args = [] ->
  Forall (write_typed false (schedule (skeys st)) (retry (skeys st)) T) (fst planned) ->
  run_doc (enqueue_loop st (Datatypes.S fuel) DestQueue [(e, payload_text e)] snaps ∅) ks =
    (Ok (record_outcomes [(e, payload_text e)] (snd planned) ∅),
     foldl (commit_one false (jobs (skeys st)) (schedule (skeys st)) (retry (skeys st))) ks (fst planned)).
Proof.
  intros snap_args planned HT Hh Hj Hst Hty. cbn [enqueue_loop]. rewrite run_try, run_script.
  erewrite (enqueue_lua_succeeds T ks HT (jobs (skeys st)) (schedule (skeys st)) (retry (skeys st)) DestQueue) by done.
  done.
Qed.
(** What the reads of a chunk of one unique job come to: the loop is reached
    with the snapshot of a job to replace, or unless the job is to be skipped. *)
Lemma skip_reaches_loop fuel ks h : is_replace e = false -> hash_at ks (jobs (skeys st)) = Some h ->
  run_doc (enqueue_chunk st fuel DestQueue [e] ∅) ks =
    if bool_decide (is_Some (h !! id e)) then (Ok ∅, ks)
    else run_doc (enqueue_loop st fuel DestQueue [(e, payload_text e)] ∅ ∅) ks.
Proof.
  intros Hr Hh. assert (skips e = true) as Hs by (unfold skips; by rewrite Hu, Hr).
  set (known := bool_decide (is_Some (h !! id e))).
  assert (run_doc (read_existing_skips st ∅ [e]) ks = (Ok (if known then {[id e]} else ∅ : gset JobId), ks)) as Hread.
  { unfold read_existing_skips. assert (skip_ids ∅ [e] = [id e]) as ->.
    { unfold skip_ids. rewrite filter_cons, filter_nil, Hs. unfold absent_snapshot. by rewrite lookup_empty. }
    assert (snapshot_skips ∅ [e] = ∅) as ->.
    { unfold snapshot_skips. rewrite filter_cons, filter_nil, Hs. unfold present_snapshot. by rewrite lookup_empty. }
    rewrite run_try. cbn [fmap list_fmap pipe_query run run_event exec MemRedis documented pbind].
    erewrite read_hash_ok by done. cbn [fst snd map_err run res_bind res_map zip_with]. rewrite run_lift.
    fold known. unfold zip. cbn [zip_with]. rewrite filter_cons, filter_nil. cbn [snd].
    destruct known; cbn; do 2 f_equal; set_solver. }
  unfold enqueue_chunk. cbn [forallb]. rewrite Hu. cbn [negb andb]. rewrite drop_seen_one, replacement_ids_one, Hr.
  unfold read_snapshots. rewrite elements_empty, run_try, run_lift. rewrite run_try, Hread.
  unfold not_existing. rewrite filter_cons, filter_nil, Hs. destruct known.
  - rewrite bool_decide_true by set_solver. cbn [andb negb]. by rewrite decide_False.
  - rewrite bool_decide_false by set_solver. cbn [andb negb]. rewrite decide_True by done.
    by rewrite serialize_one, run_try, run_lift.
Qed.

Lemma replace_reaches_loop fuel ks h text sn : is_replace e = true -> hash_at ks (jobs (skeys st)) = Some h ->
  h !! id e = Some text -> snapshot_parse text = Ok sn ->
  run_doc (enqueue_chunk st fuel DestQueue [e] ∅) ks =
    run_doc (enqueue_loop st fuel DestQueue [(e, payload_text e)] {[id e := Some sn]} ∅) ks.
Proof.
  intros Hr Hh Htext Hsn. assert (skips e = false) as Hs by (unfold skips; by rewrite Hu, Hr).
  unfold enqueue_chunk. cbn [forallb]. rewrite Hu. cbn [negb andb]. rewrite drop_seen_one, replacement_ids_one, Hr.
  unfold read_snapshots. rewrite elements_singleton, !run_try, run_call. cbn [documented]. doc_cmd.
  cbn [fmap list_fmap map_err fst snd]. rewrite run_lift, Htext. unfold zip. cbn [zip_with insert_snapshots fmap option_fmap option_map].
  rewrite Hsn. cbn [transpose res_bind res_map].
  unfold read_existing_skips, skip_ids, snapshot_skips. rewrite !filter_cons, !filter_nil, Hs. cbn [andb].
  rewrite !decide_False by done. cbn [fmap list_fmap list_to_set]. rewrite run_try, run_lift. unfold not_existing.
  rewrite filter_cons, filter_nil, Hs. cbn [andb negb]. rewrite decide_True by done.
  by rewrite serialize_one, run_try, run_lift, insert_empty.
Qed.

(** Once the plan is one write, [try_enqueue] commits it and answers the ID. *)
Lemma try_enqueue_commits fuel snaps ks h T w o :
  run_doc (enqueue_chunk st (Datatypes.S fuel) DestQueue [e] ∅) ks =
    run_doc (enqueue_loop st (Datatypes.S fuel) DestQueue [(e, payload_text e)] snaps ∅) ks ->
  well_typed T ks -> hash_at ks (jobs (skeys st)) = Some h -> T !! jobs (skeys st) = Some THash ->
  let snap_args := snapshot_arg_of st <$> map_to_list snaps in
  stale h snap_args = [] ->
  plan h [enqueue_arg_of st (e, payload_text e)] (snapshot_presence h snap_args ∅) (snapshot_queues snap_args ∅)
    = ([w], [Datatypes.S o]) ->
  write_typed false (schedule (skeys st)) (retry (skeys st)) T w ->
  run_doc (try_enqueue st (Datatypes.S fuel) e) ks =
    (Ok (Some (id e)), commit_one false (jobs (skeys st)) (schedule (skeys st)) (retry (skeys st)) ks w).
Proof.
  intros Hchunk HT Hh Hj snap_args Hst Hplan Hw. unfold try_enqueue, connection.
  rewrite run_try, run_checkout, run_try, Hchunk.
  rewrite (enqueue_loop_commits fuel snaps ks h T); fold snap_args; rewrite ?Hplan; [|done..|by constructor].
  cbn [fst snd foldl record_outcomes]. rewrite Hu, run_lift. cbn [negb orb].
  by rewrite (bool_decide_true (id e ∈ _)) by set_solver.
Qed.
End OneUnique.

Lemma upd_hash_ok k f (ks : keyspace) h : hash_at ks k = Some h -> upd_hash k f ks = put_hash k (f h) ks.
Proof. intros H. unfold upd_hash. by rewrite (write_hash_ok _ _ _ h H). Qed.
Lemma upd_list_ok k f (ks : keyspace) l : list_at ks k = Some l -> upd_list k f ks = put_list k (f l) ks.
Proof. intros H. unfold upd_list. by rewrite (write_list_ok _ _ _ l H). Qed.
Lemma upd_zset_ok k f (ks : keyspace) z : zset_at ks k = Some z -> upd_zset k f ks = put_zset k (f z) ks.
Proof. intros H. unfold upd_zset. by rewrite (write_zset_ok _ _ _ z H). Qed.

(** C13. A unique job that does not replace is skipped, changing nothing, when one
    of its ID is stored; otherwise it is stored and waits on its queue. *)
Theorem unique_skip st fuel e d (js : job_store st (view d)) waiting :
  unique (meta e) = true -> on_conflict (meta e) <> Some Replace ->
  starts_with (namespace (skeys st)) (queue e) = false ->
  list_at (view d) (namespace_queue (skeys st) (queue e)) = Some waiting ->
  let known := bool_decide (is_Some (payloads js !! id e)) in
  yields (try_enqueue st (Datatypes.S fuel) e) d (Ok (if known then None else Some (id e))) (fun ks' =>
    if known then ks' = view d
    else exists (js' : job_store st ks'),
      unchanged [jobs (skeys st); namespace_queue (skeys st) (queue e)] js js' /\
      payloads js' = <[id e := payload_text e]> (payloads js) /\
      list_at ks' (namespace_queue (skeys st) (queue e)) = Some (id e :: waiting)).
Proof.
  intros Hu Hc Hq Hl known. apply yields_doc. open_store js.
  assert (is_replace e = false) as Hr by (by apply bool_decide_false).
  pose proof (skip_reaches_loop st e Hu (Datatypes.S fuel) (view d) (payloads js) Hr ltac:(done)) as Hchunk.
  fold known in Hchunk. destruct known eqn:Ek.
  { exists (view d). split; [|done]. unfold try_enqueue, connection.
    rewrite run_try, run_checkout, run_try, Hchunk, run_lift, Hu. done. }
  destruct (enqueue_types_lookup st (queue e) (queue e) Hq Hq) as (HTj & HTs & HTr & HTq & _).
  assert (payloads js !! id e = None) as Hnone by (apply bool_decide_eq_false in Ek; by apply eq_None_not_Some).
  rewrite (try_enqueue_commits st e Hu fuel ∅ (view d) (payloads js)
    (enqueue_types st (namespace_queue (skeys st) (queue e)) (namespace_queue (skeys st) (queue e)))
    {| w_arg := enqueue_arg_of st (e, payload_text e); w_old_queue := None; w_replacing := false |} 0);
    [|done|by eapply enqueue_types_ok|done|done|by rewrite map_to_list_empty| |by split].
  2: { rewrite map_to_list_empty. apply plan_fresh; [|done|by left]. cbn. unfold conflict_of. by rewrite Hu, Hr. }
  unfold commit_one, store_job. cbn [w_arg w_replacing in_id in_payload in_queue enqueue_arg_of fst snd].
  rewrite (upd_hash_ok (jobs (skeys st)) _ _ (payloads js)) by at_fact.
  rewrite (upd_list_ok _ (cons (id e)) _ waiting) by at_fact.
  eexists. split; [done|].
  assert (same_except [jobs (skeys st); namespace_queue (skeys st) (queue e)] (view d)
    (put_list (namespace_queue (skeys st) (queue e)) (id e :: waiting)
       (put_hash (jobs (skeys st)) (<[id e := payload_text e]> (payloads js)) (view d)))) as Hs' by frame.
  eapply (job_store_intro _ js _ _ _ _ _ _ Hs'); [by ks_simp..|]. intros js' Hun Hp _ _ _ _.
  split; [done|]. split; [done|by ks_simp].
Qed.

(** *** Snapshots *)

Lemma str_take_length n s : String.length (str_take n s) <= String.length s.
Proof.
  unfold str_take. revert n. induction s as [|c s IH]; intros [|n]; cbn; try lia. specialize (IH n). lia.
Qed.
Lemma str_take_again n s : str_take (String.length (str_take n s)) s = str_take n s.
Proof.
  unfold str_take. revert n. induction s as [|c s IH]; intros [|n]; cbn; try done. by rewrite IH.
Qed.
Lemma substring_length_le s : forall k m, k + m <= String.length s -> String.length (String.substring k m s) = m.
Proof.
  induction s as [|c s IH]; intros [|k] [|m] H; cbn in *; try lia; try done; rewrite IH; lia.
Qed.
Lemma substring_beyond s : forall k m, String.length s <= k -> String.substring k m s = "".
Proof. induction s as [|c s IH]; intros [|k] [|m] H; cbn in *; try done; try lia; apply IH; lia. Qed.

(** A payload matches the snapshot that was parsed from it. *)
Lemma snapshot_parse_sound text sn : snapshot_parse text = Ok sn ->
  snapshot_matches (Some (snap_comparison sn, snap_expected sn)) (Some text) = true.
Proof.
  unfold snapshot_parse. destruct (raw_queue text) as [[[off len] q]|] eqn:Hraw; [|done]. cbn [map_err res_bind].
  assert (forall A (x y : A), Ok x = @Ok OxanaError A y -> x = y) as Hok by (by intros A x y [= ->]).
  case_decide as Hkey; [case_decide|]; intros <-%Hok;
    cbn [snapshot_matches snap_comparison snap_expected]; apply bool_decide_eq_true.
  - apply str_take_again.
  - destruct Hkey as [Hoff Hkey]. set (start := off - String.length queue_key_text) in *.
    assert (start < String.length text).
    { destruct (decide (start < String.length text)); [done|]. unfold str_drop in Hkey.
      rewrite (substring_beyond text start) in Hkey by lia. done. }
    unfold lua_suffix, str_drop. rewrite substring_length_le by lia. rewrite decide_False by lia.
    by replace (String.length text - (String.length text - start)) with start by lia.
  - done.
Qed.
Lemma snapshot_parse_fresh text e0 : from_str text = Ok e0 ->
  exists sn, snapshot_parse text = Ok sn /\ snap_queue sn = queue e0 /\
    snapshot_matches (Some (snap_comparison sn, snap_expected sn)) (Some text) = true.
Proof.
  intros Hp. destruct (raw_queue_parses text e0 Hp) as (off & len & Hraw).
  assert (exists sn, snapshot_parse text = Ok sn /\ snap_queue sn = queue e0) as (sn & Hsn & Hq).
  { unfold snapshot_parse. rewrite Hraw. cbn [map_err res_bind]. repeat case_decide; by eexists. }
  exists sn. split_and!; [done..|]. by apply snapshot_parse_sound.
Qed.

(** The commit of a replacement, key by key. *)
Lemma replace_commit st e q0 (ks : keyspace) (js : job_store st ks) waiting prior :
  starts_with (namespace (skeys st)) (queue e) = false -> starts_with (namespace (skeys st)) q0 = false ->
  list_at ks (namespace_queue (skeys st) (queue e)) = Some waiting ->
  list_at ks (namespace_queue (skeys st) q0) = Some prior ->
  let ks' := commit_one false (jobs (skeys st)) (schedule (skeys st)) (retry (skeys st)) ks
    {| w_arg := enqueue_arg_of st (e, payload_text e); w_old_queue := Some (namespace_queue (skeys st) q0);
       w_replacing := true |} in
  exists (js' : job_store st ks'),
    payloads js' = <[id e := payload_text e]> (payloads js) /\
    scheduled js' = delete (id e) (scheduled js) /\ retrying js' = delete (id e) (retrying js) /\
    claims js' = claims js /\ dead_letters js' = dead_letters js /\
    list_at ks' (namespace_queue (skeys st) (queue e)) = Some (id e :: lrem 0 (id e) waiting) /\
    (q0 <> queue e -> list_at ks' (namespace_queue (skeys st) q0) = Some (lrem 0 (id e) prior)).
Proof.
  intros Hq Hq0 Hl Hl0 ks'. open_store js. unfold ks', commit_one, store_job, purge. clear ks'.
  cbn [w_arg w_replacing w_old_queue in_id in_payload in_queue enqueue_arg_of fst snd default from_option Datatypes.id].
  set (old := namespace_queue (skeys st) q0) in *. set (new := namespace_queue (skeys st) (queue e)) in *.
  rewrite (upd_zset_ok (schedule (skeys st)) _ _ (scheduled js)) by at_fact.
  rewrite (upd_zset_ok (retry (skeys st)) _ _ (retrying js)) by at_fact.
  assert (old = new -> q0 = queue e) as Hinj by (by apply namespace_queue_inj).
  rewrite (upd_list_ok old (lrem 0 (id e)) _ prior) by (unfold old; at_fact).
  destruct (decide (old = new)) as [Heq|Hne].
  - assert (prior = waiting) as -> by (rewrite Heq in Hl0; congruence). rewrite <- Heq.
    rewrite (upd_hash_ok (jobs (skeys st)) _ _ (payloads js)) by (unfold old; at_fact).
    rewrite (upd_list_ok old (cons (id e)) _ (lrem 0 (id e) waiting)) by (unfold old; at_fact).
    eapply (job_store_intro (jobs (skeys st) :: schedule (skeys st) :: retry (skeys st) :: [old]) js);
      [frame|unfold old; by ks_simp..|]. intros js' _ -> -> -> -> ->. split_and!; try done; [by ks_simp|].
    intros Hn. by destruct (Hn (Hinj Heq)).
  - rewrite (upd_list_ok new (lrem 0 (id e)) _ waiting) by (unfold old, new in *; at_fact).
    rewrite (upd_hash_ok (jobs (skeys st)) _ _ (payloads js)) by (unfold old, new in *; at_fact).
    rewrite (upd_list_ok new (cons (id e)) _ (lrem 0 (id e) waiting)) by (unfold old, new in *; at_fact).
    eapply (job_store_intro (jobs (skeys st) :: schedule (skeys st) :: retry (skeys st) :: old :: [new]) js);
      [frame|unfold old, new in *; by ks_simp..|]. intros js' _ -> -> -> -> ->.
    split_and!; try done; [by ks_simp|]. intros _. unfold old, new in *. by ks_simp.
Qed.

(** C12. A unique job that replaces one that exists: its payload is the new one, it
    leaves the schedule, the retry set and the queue it waited on, and waits
    once, on its own queue. *)
Theorem unique_replace st fuel e e0 text d (js : job_store st (view d)) waiting prior :
  unique (meta e) = true -> on_conflict (meta e) = Some Replace ->
  payloads js !! id e = Some text -> from_str text = Ok e0 ->
  starts_with (namespace (skeys st)) (queue e) = false ->
  starts_with (namespace (skeys st)) (queue e0) = false ->
  list_at (view d) (namespace_queue (skeys st) (queue e)) = Some waiting ->
  list_at (view d) (namespace_queue (skeys st) (queue e0)) = Some prior ->
  yields (try_enqueue st (Datatypes.S fuel) e) d (Ok (Some (id e))) (fun ks' =>
    exists (js' : job_store st ks'),
      payloads js' = <[id e := payload_text e]> (payloads js) /\
      scheduled js' = delete (id e) (scheduled js) /\ retrying js' = delete (id e) (retrying js) /\
      claims js' = claims js /\ dead_letters js' = dead_letters js /\
      list_at ks' (namespace_queue (skeys st) (queue e)) = Some (id e :: lrem 0 (id e) waiting) /\
      (queue e0 <> queue e ->
         list_at ks' (namespace_queue (skeys st) (queue e0)) = Some (lrem 0 (id e) prior))).
Proof.
  intros Hu Hc Htext Hparse Hq Hq0 Hl Hl0. apply yields_doc. open_store js.
  assert (is_replace e = true) as Hr by (by apply bool_decide_true).
  destruct (snapshot_parse_fresh text e0 Hparse) as (sn & Hsn & Hsq & Hmatch).
  set (old := namespace_queue (skeys st) (queue e0)).
  destruct (enqueue_types_lookup st (queue e0) (queue e) Hq0 Hq) as (HTj & HTs & HTr & HTo & HTn).
  rewrite (try_enqueue_commits st e Hu fuel {[id e := Some sn]} (view d) (payloads js)
    (enqueue_types st old (namespace_queue (skeys st) (queue e)))
    {| w_arg := enqueue_arg_of st (e, payload_text e); w_old_queue := Some old; w_replacing := true |} 1);
    [|by eapply replace_reaches_loop|by eapply enqueue_types_ok|done|done| | |].
  - eexists. split; [done|]. by apply replace_commit.
  - rewrite map_to_list_singleton. unfold stale, snapshot_arg_of. cbn [fmap list_fmap omap list_omap arg_check arg_id fst snd].
    rewrite filter_cons, filter_nil. cbn [arg_check arg_id]. rewrite Htext, Hmatch. by rewrite decide_False.
  - rewrite map_to_list_singleton. unfold snapshot_presence, snapshot_queues, snapshot_arg_of.
    cbn [fmap list_fmap foldl arg_id arg_queue fst snd]. rewrite Htext, Hsq.
    apply plan_replace; [cbn; unfold conflict_of; by rewrite Hu, Hr|by simplify_map_eq..].
  - split; [done|]. intros _. split_and!; [done..|]. by exists old.
Qed.
End Delivery.
