(* ===== verification/Contention.v ===== *)
(** * Enqueueing while others write

    The loop of [enqueue_chunk_w_conn] runs the script again while its snapshots
    are stale. [run_amid env] runs a program with the keyspace changed by others
    before each of its events; [disturbances] counts the times such a change
    touched a payload of the jobs that are enqueued. A round that fails writes
    nothing and takes over what it was told, so only a change can make the next
    one fail: the loop ends after at most one round more than it is disturbed. *)
From S2P Require Import Prelude Errors Redis Events Envelope Queue Keys Scripts Storage Enqueue EnqueueScript Delivery.
Open Scope nat_scope.

(** ** Running amid others *)

Abbreviation interference := (list (keyspace -> keyspace)).

Definition disturb (env : interference) (ks : keyspace) : keyspace :=
  match env with f :: _ => f ks | [] => ks end.

Fixpoint run_amid (env : interference) {A} (p : prog A) (ks : keyspace) : A * keyspace * interference :=
  match p with
  | Ret a => (a, ks, env)
  | Op e k => let '(r, ks') := @run_event MemRedis _ e (disturb env ks) in run_amid (tail env) (k r) ks'
  end.

Section Contention.
Context {S : Serde}.
Variable st : StorageInternal.
Local Abbreviation ks_jobs := (jobs (skeys st)).
(** The jobs whose payloads are watched. *)
Variable ids : list JobId.
Implicit Types (ks : keyspace).

Definition payload_of (i : JobId) ks : option string := hash_at ks ks_jobs ≫= (fun h => h !! i).

Definition same_payloads ks ks' : Prop := Forall (fun i => payload_of i ks' = payload_of i ks) ids.
#[global] Instance same_payloads_dec ks ks' : Decision (same_payloads ks ks').
Proof. unfold same_payloads. apply _. Defined.

Fixpoint disturbances (env : interference) {A} (p : prog A) ks : nat :=
  match p with
  | Ret a => 0
  | Op e k =>
      let ks0 := disturb env ks in
      let '(r, ks') := @run_event MemRedis _ e ks0 in
      (if decide (same_payloads ks ks0) then 0 else 1) + disturbances (tail env) (k r) ks'
  end.

Lemma run_amid_bind {A B} (p : prog A) (f : A -> prog B) : forall env ks,
  run_amid env (pbind p f) ks = let '(a, ks', env') := run_amid env p ks in run_amid env' (f a) ks'.
Proof.
  induction p as [a|X e k IH]; intros env ks; cbn; [done|]. destruct (@run_event MemRedis _ e (disturb env ks)) as [r ks']. apply IH.
Qed.
Lemma disturbances_bind {A B} (p : prog A) (f : A -> prog B) : forall env ks,
  disturbances env (pbind p f) ks =
    disturbances env p ks + let '(a, ks', env') := run_amid env p ks in disturbances env' (f a) ks'.
Proof.
  induction p as [a|X e k IH]; intros env ks; cbn; [done|].
  destruct (@run_event MemRedis _ e (disturb env ks)) as [r ks']. rewrite IH. lia.
Qed.

(** A program that only reads leaves the keyspace to the others. *)
Lemma reads_amid {A} (p : prog A) : read_only p -> forall env ks,
  disturbances env p ks = 0 -> same_payloads ks (run_amid env p ks).1.2.
Proof.
  unfold read_only. induction p as [a|X e k IH]; intros Hr env ks; cbn.
  { intros _. by apply Forall_true. }
  destruct Hr as [He Hk]. pose proof (event_reads_same e (disturb env ks) He) as Hsame.
  destruct (@run_event MemRedis _ e (disturb env ks)) as [r ks'] eqn:E. cbn in Hsame. subst ks'.
  specialize (IH r). assert (guarded (fun _ => True) (@event_reads) (k r)) as Hkr.
  { apply Hk. right. exists (disturb env ks). by rewrite E. }
  specialize (IH Hkr (tail env) (disturb env ks)).
  destruct (decide (same_payloads ks (disturb env ks))) as [Hs0|]; [|intros; lia]. intros Hd. specialize (IH ltac:(lia)).
  unfold same_payloads in *. rewrite Forall_forall in Hs0. rewrite Forall_forall in IH. apply Forall_forall.
  intros i Hi. by rewrite IH, Hs0.
Qed.

(** ** Snapshots *)

Definition matches (sn : option EnqueueSnapshot) (payload : option string) : bool :=
  snapshot_matches ((fun sn => (snap_comparison sn, snap_expected sn)) <$> sn) payload.

Definition fresh (snaps : gmap JobId (option EnqueueSnapshot)) ks : Prop :=
  map_Forall (fun i sn => matches sn (payload_of i ks) = true) snaps.
Definition watched (snaps : gmap JobId (option EnqueueSnapshot)) : Prop := forall i, is_Some (snaps !! i) -> i ∈ ids.

Lemma arg_matches p payload : snapshot_matches (arg_check (snapshot_arg_of st p)) payload = matches p.2 payload.
Proof. by destruct p as [i [sn|]]. Qed.
Lemma arg_id_of p : arg_id (snapshot_arg_of st p) = p.1.
Proof. by destruct p as [i [sn|]]. Qed.

Lemma fresh_same snaps ks ks' : watched snaps -> same_payloads ks ks' -> fresh snaps ks -> fresh snaps ks'.
Proof.
  intros Hw Hs Hf i sn Hi. unfold same_payloads in Hs. rewrite Forall_forall in Hs. rewrite Hs by (apply Hw; eauto). by apply Hf.
Qed.

(** What the script reports: the payloads that no longer match. *)
Lemma elem_of_stale snaps ks h p : hash_at ks ks_jobs = Some h ->
  p ∈ stale h (snapshot_arg_of st <$> map_to_list snaps) <->
  exists sn, snaps !! p.1 = Some sn /\ p.2 = payload_of p.1 ks /\ matches sn (payload_of p.1 ks) = false.
Proof.
  intros Hh. unfold stale, payload_of. rewrite Hh. cbn [mbind option_bind]. rewrite list_elem_of_fmap. split.
  - intros (a & -> & [Hm [[i sn] [-> Hin%elem_of_map_to_list]]%list_elem_of_fmap]%list_elem_of_filter).
    rewrite arg_matches, arg_id_of in *. by exists sn.
  - destruct p as [i payload]. cbn [fst snd]. intros (sn & Hi & -> & Hm). exists (snapshot_arg_of st (i, sn)).
    rewrite arg_id_of. split; [done|]. apply list_elem_of_filter. rewrite arg_matches, arg_id_of. split; [done|].
    apply list_elem_of_fmap. exists (i, sn). by rewrite elem_of_map_to_list.
Qed.

Lemma fresh_not_stale snaps ks h : hash_at ks ks_jobs = Some h -> fresh snaps ks ->
  stale h (snapshot_arg_of st <$> map_to_list snaps) = [].
Proof.
  intros Hh Hf. apply elem_of_nil_inv. intros p Hp. apply (elem_of_stale snaps ks h p Hh) in Hp as (sn & Hi & _ & Hm).
  by rewrite (Hf _ _ Hi) in Hm.
Qed.

(** A payload matches the snapshot parsed from it. *)
Lemma snapshot_parse_matches text sn : snapshot_parse text = Ok sn -> matches (Some sn) (Some text) = true.
Proof. intros H. by apply snapshot_parse_sound. Qed.

Lemma insert_snapshots_fresh found : forall snaps snaps' ks,
  Forall (fun p => p.2 = payload_of p.1 ks) found ->
  (forall i sn, snaps !! i = Some sn -> i ∉ found.*1 -> matches sn (payload_of i ks) = true) ->
  insert_snapshots found snaps = Ok snaps' -> fresh snaps' ks.
Proof.
  induction found as [|[jid payload] found IH]; intros snaps snaps' ks Hf Hs H; cbn [insert_snapshots] in H.
  { simplify_eq. intros i sn Hi. apply Hs; [done|]. intros Hin. by apply elem_of_nil in Hin. }
  apply Forall_cons in Hf as [Hp Hf]. cbn [fst snd] in Hp.
  destruct (transpose _) as [sn|] eqn:Et; [|done]. cbn in H. eapply IH; [done| |exact H]. intros i sn' Hi Hn.
  apply lookup_insert_Some in Hi as [[<- <-]|[Hne Hi]].
  - rewrite <- Hp. destruct payload as [text|]; cbn in Et; [|by simplify_eq].
    destruct (snapshot_parse text) as [s|] eqn:Es; cbn in Et; [|done]. simplify_eq. by apply snapshot_parse_matches.
  - apply Hs; [done|]. cbn. rewrite not_elem_of_cons. auto.
Qed.
Lemma insert_snapshots_watched found : forall snaps snaps',
  (forall i, i ∈ found.*1 -> i ∈ ids) -> watched snaps -> insert_snapshots found snaps = Ok snaps' -> watched snaps'.
Proof.
  induction found as [|[jid payload] found IH]; intros snaps snaps' Hf Hs H; cbn [insert_snapshots] in H; [by simplify_eq|].
  destruct (transpose _) as [sn|]; [|done]. cbn in H, Hf. eapply IH; [|  |exact H]; [set_solver|].
  intros i [x [[<- _]|[_ ?]]%lookup_insert_Some]; [set_solver|eauto].
Qed.
Lemma insert_snapshots_error found : forall snaps, insert_snapshots found snaps <> Err StillRunning.
Proof.
  induction found as [|[jid payload] found IH]; intros snaps; cbn [insert_snapshots]; [done|].
  destruct payload as [text|]; cbn; [|apply IH]. unfold snapshot_parse. destruct (raw_queue text) as [[[off len] q]|]; cbn; [|done].
  case_decide; [case_decide|]; cbn; apply IH.
Qed.

(** ** The loop *)

Lemma enqueue_lua_no_hash schedule retry dest snaps inputs ks : hash_at ks ks_jobs = None ->
  exists e, fst (script_doc (enqueue_lua ks_jobs schedule retry dest snaps inputs) ks) = Err e.
Proof.
  intros Hh. unfold enqueue_lua, require_type. rewrite lookup_empty, script_call. cbn [documented].
  destruct (type_ok (type_at ks ks_jobs) THash) eqn:E; [|by eexists]. apply type_ok_hash in E as [h E]. congruence.
Qed.

Lemma enqueue_loop_ends dest pending : forall fuel env ks snaps written, watched snaps ->
  let loop := enqueue_loop st fuel dest pending snaps written in
  (fresh snaps ks /\ disturbances env loop ks < fuel) \/ disturbances env loop ks + 1 < fuel ->
  (run_amid env loop ks).1.1 <> Err StillRunning.
Proof.
  induction fuel as [|fuel IH]; intros env ks snaps written Hw loop Hd; [lia|]. revert Hd. unfold loop. clear loop.
  cbn [enqueue_loop]. unfold try at 1 3 5, perform. cbn [pbind run_amid disturbances].
  set (ks0 := disturb env ks). set (snap_args := snapshot_arg_of st <$> map_to_list snaps). set (inputs := enqueue_arg_of st <$> pending).
  destruct (hash_at ks0 ks_jobs) as [h|] eqn:Hh0.
  2: { destruct (enqueue_lua_no_hash (schedule (skeys st)) (retry (skeys st)) dest snap_args inputs ks0 Hh0) as [e He].
       cbn [run_event]. destruct (@run_lua MemRedis _ _ ks0) as [r ks']. cbn in He. subst r. done. }
  destruct (stale h snap_args) as [|c cs] eqn:Est.
  - (* committed, or refused *)
    destruct (enqueue_lua_commits ks_jobs (schedule (skeys st)) (retry (skeys st)) dest snap_args inputs ks0 h Hh0)
      as [[e He]|[[Hne _]|(_ & types & _ & _ & _ & He)]]; [|by rewrite Est in Hne|]; cbn [run_event]; rewrite He; cbn; done.
  - (* told what is stale *)
    pose proof (enqueue_lua_stale ks_jobs (schedule (skeys st)) (retry (skeys st)) dest snap_args inputs ks0 h Hh0) as He.
    rewrite Est in He. specialize (He ltac:(done)). cbn [run_event]. rewrite He. cbn [map_err fst].
    destruct (insert_snapshots (c :: cs) snaps) as [snaps'|err] eqn:Ei; cbn [lift try pbind run_amid disturbances].
    2: { intros _ [= ->]. by apply insert_snapshots_error in Ei. }
    intros Hd. rewrite <- Est in Ei.
    assert (fresh snaps' ks0) as Hf'.
    { eapply insert_snapshots_fresh; [| |exact Ei].
      - apply Forall_forall. intros p Hp. by apply (elem_of_stale snaps ks0 h p Hh0) in Hp as (sn & _ & ? & _).
      - intros i sn Hi Hn. destruct (matches sn (payload_of i ks0)) eqn:Em; [done|]. destruct Hn.
        apply list_elem_of_fmap. exists (i, payload_of i ks0). split; [done|]. apply (elem_of_stale snaps ks0 h _ Hh0). eauto. }
    assert (watched snaps') as Hw'.
    { eapply insert_snapshots_watched; [|exact Hw|exact Ei]. intros i [p [-> Hp]]%list_elem_of_fmap.
      apply (elem_of_stale snaps ks0 h p Hh0) in Hp as (sn & Hi & _). apply Hw. eauto. }
    apply IH; [done|]. left. split; [done|].
    destruct Hd as [[Hf Hd]|Hd]; [|destruct (decide _); lia].
    destruct (decide (same_payloads ks ks0)) as [Hsame|]; [|lia]. exfalso.
    pose proof (fresh_not_stale snaps ks0 h Hh0 (fresh_same snaps ks ks0 Hw Hsame Hf)) as Hnil. fold snap_args in Hnil.
    by rewrite Est in Hnil.
Qed.

(** ** Whole requests

    Nothing else in a request answers that the fuel ran out. *)
Definition settles {A} (p : rprog A) : Prop := forall env ks, (run_amid env p ks).1.1 <> Err StillRunning.

Lemma settles_try {A B} (p : rprog A) (f : A -> rprog B) : settles p -> (forall a, settles (f a)) -> settles (try p f).
Proof.
  intros Hp Hf env ks. unfold try. rewrite run_amid_bind. specialize (Hp env ks).
  destruct (run_amid env p ks) as [[[a|e] ks'] env']; cbn in *; [apply Hf|congruence].
Qed.
Lemma event_settles {X} (e : event X) ks : fst (@run_event MemRedis _ e ks) <> Err StillRunning.
Proof.
  destruct e as [c|X c|X s|cs]; cbn; [done|..].
  - by destruct (documented c ks) as [[] ?].
  - by destruct (script_doc s ks) as [[] ?].
  - by destruct (@run_multi MemRedis cs ks) as [[] ?].
Qed.
Lemma settles_perform {X} (e : event X) : settles (perform e).
Proof.
  intros env ks. cbn. pose proof (event_settles e (disturb env ks)) as H. by destruct (@run_event MemRedis _ e _).
Qed.
Lemma settles_lift {A} (r : result OxanaError A) : r <> Err StillRunning -> settles (lift r).
Proof. by intros H env ks. Qed.
Lemma settles_lift_try {A B} (r : result OxanaError A) (f : A -> rprog B) :
  r <> Err StillRunning -> (forall a, settles (f a)) -> settles (try (lift r) f).
Proof. intros Hr Hf. apply settles_try; [by apply settles_lift|done]. Qed.
Lemma settles_pipe cs : settles (pipe cs).
Proof.
  induction cs as [|c cs IH]; intros env ks; cbn -[run_event]; [done|].
  pose proof (event_settles (Cmd c) (disturb env ks)) as He. destruct (@run_event MemRedis _ (Cmd c) _) as [r ks'].
  rewrite run_amid_bind. specialize (IH (tail env) ks'). destruct (run_amid _ (pipe cs) ks') as [[r' ks''] env''].
  cbn in *. by destruct r as [|].
Qed.
Lemma settles_pipe_query {X} (cs : list (rcmd X)) : settles (pipe_query cs).
Proof.
  induction cs as [|c cs IH]; intros env ks; cbn -[run_event]; [done|].
  pose proof (event_settles (Cmd c) (disturb env ks)) as He. destruct (@run_event MemRedis _ (Cmd c) _) as [r ks'].
  rewrite run_amid_bind. specialize (IH (tail env) ks'). destruct (run_amid _ (pipe_query cs) ks') as [[r' ks''] env''].
  cbn in *. destruct r as [|]; cbn; [|congruence]. destruct r' as [|]; cbn; congruence.
Qed.

Lemma collect_print_error {A} (f : JobEnvelope -> result OxanaError A) es :
  (forall e, f e <> Err StillRunning) -> collect (f <$> es) <> Err StillRunning.
Proof.
  intros Hf. induction es as [|e es IH]; cbn; [done|]. specialize (Hf e). destruct (f e); cbn; [|congruence].
  destruct (collect _); cbn; congruence.
Qed.
Lemma print_error e : print_job e <> Err StillRunning.
Proof. unfold print_job. by destruct (to_string e). Qed.

Lemma settles_ordinary dest es : settles (enqueue_ordinary st dest es).
Proof.
  apply settles_lift_try; [|intros; apply settles_pipe]. apply collect_print_error. intros e. unfold ordinary_commands.
  pose proof (print_error e). destruct (print_job e); cbn; congruence.
Qed.
Lemma serialize_error es : serialize_pending es <> Err StillRunning.
Proof. apply collect_print_error. intros e. pose proof (print_error e). destruct (print_job e); cbn; congruence. Qed.
Lemma settles_existing_skips snaps es : settles (read_existing_skips st snaps es).
Proof.
  unfold read_existing_skips. destruct (skip_ids snaps es); [by apply settles_lift|].
  apply settles_try; [apply settles_pipe_query|by intros; apply settles_lift].
Qed.
Lemma existing_skips_reads snaps es : read_only (read_existing_skips st snaps es).
Proof.
  unfold read_existing_skips. destruct (skip_ids snaps es) as [|i is_]; [done|]. apply guarded_try; [|done].
  by apply guarded_pipe_query, Forall_fmap, Forall_true.
Qed.

(** [ends_within n p]: [p] does not run out of fuel when it is disturbed less
    than [n] times. *)
Definition ends_within (n : nat) {A} (p : rprog A) : Prop :=
  forall env ks, disturbances env p ks < n -> (run_amid env p ks).1.1 <> Err StillRunning.

Lemma settles_ends n {A} (p : rprog A) : settles p -> ends_within n p.
Proof. intros H env ks _. apply H. Qed.
Lemma ends_try n {A B} (p : rprog A) (f : A -> rprog B) :
  ends_within n p -> (forall a, ends_within n (f a)) -> ends_within n (try p f).
Proof.
  intros Hp Hf env ks. unfold try. rewrite run_amid_bind, disturbances_bind. specialize (Hp env ks).
  destruct (run_amid env p ks) as [[[a|e] ks'] env']; cbn in *; intros Hd; [apply Hf; lia|]. intros [= ->]. by apply Hp; [lia|].
Qed.

(** After the snapshots were read. *)
Lemma enqueue_rest_ends fuel dest pending written snaps env ks : watched snaps -> fresh snaps ks ->
  let rest := try (read_existing_skips st snaps pending) (fun existing =>
    try (lift (serialize_pending (not_existing existing pending))) (fun pending =>
    match pending with [] => lift (Ok written) | _ => enqueue_loop st fuel dest pending snaps written end)) in
  disturbances env rest ks < fuel -> (run_amid env rest ks).1.1 <> Err StillRunning.
Proof.
  intros Hw Hf rest. unfold rest, try at 1 3. rewrite run_amid_bind, disturbances_bind.
  pose proof (settles_existing_skips snaps pending env ks) as Hs.
  pose proof (reads_amid _ (existing_skips_reads snaps pending) env ks) as Hsame.
  destruct (run_amid env (read_existing_skips st snaps pending) ks) as [[[existing|e] ks'] env']; cbn [fst snd] in *;
    [|cbn; congruence].
  pose proof (serialize_error (not_existing existing pending)) as Hser.
  destruct (serialize_pending _) as [pending'|e]; cbn [lift try pbind] in *; [|cbn; congruence].
  destruct pending' as [|p ps]; [done|]. intros Hd. apply enqueue_loop_ends; [done|].
  destruct (decide (disturbances env (read_existing_skips st snaps pending) ks = 0)) as [H0|]; [left|right; lia].
  split; [|lia]. by eapply fresh_same, Hf; [|apply Hsame].
Qed.

Lemma drop_seen_subset es : forall written seen e, e ∈ drop_seen written seen es -> e ∈ es.
Proof.
  induction es as [|e0 es IH]; intros written seen e; cbn [drop_seen]; [done|].
  destruct (skips e0 && _); [intros ?%IH; by right|]. intros [->|?%IH]%elem_of_cons; [by left|by right].
Qed.
Lemma replacement_ids_subset es : forall overwritten i, i ∈ replacement_ids overwritten es -> i ∈ id <$> es.
Proof.
  induction es as [|e es IH]; intros overwritten i; cbn [replacement_ids fmap list_fmap]; [set_solver|].
  case_match; [|intros ?%IH; by right]. destruct (unique (meta e)).
  - intros [->%elem_of_singleton|?%IH]%elem_of_union; [by left|by right].
  - intros ?%IH. by right.
Qed.

Lemma insert_read_snapshots l h ks snaps : hash_at ks ks_jobs = Some h -> (forall i, i ∈ l -> i ∈ ids) ->
  insert_snapshots (zip l ((fun f => h !! f) <$> l)) ∅ = Ok snaps -> watched snaps /\ fresh snaps ks.
Proof.
  intros Hh Hl H. assert (zip l ((fun f => h !! f) <$> l) = (fun i => (i, h !! i)) <$> l) as Hz
    by (clear; induction l; cbn; by f_equal).
  rewrite Hz in H. split.
  - eapply insert_snapshots_watched; [|  |exact H]; [|by intros i [? ?%lookup_empty_Some]].
    intros i. rewrite <- list_fmap_compose, list_elem_of_fmap. intros (j & -> & ?). by apply Hl.
  - eapply insert_snapshots_fresh; [| |exact H]; [|by intros i sn ?%lookup_empty_Some].
    apply Forall_fmap, Forall_true. intros i. unfold compose, payload_of. by rewrite Hh.
Qed.

Lemma enqueue_chunk_ends fuel dest es written : (forall e, e ∈ es -> id e ∈ ids) -> ends_within fuel (enqueue_chunk st fuel dest es written).
Proof.
  intros Hids. unfold enqueue_chunk. destruct (forallb _ es).
  { apply settles_ends, settles_try; [apply settles_ordinary|by intros; apply settles_lift]. }
  assert (forall i, i ∈ replacement_ids ∅ (drop_seen written ∅ es) -> i ∈ ids) as Hrep.
  { intros i Hi. apply replacement_ids_subset in Hi. apply list_elem_of_fmap in Hi as (e & -> & He).
    by eapply Hids, drop_seen_subset. }
  destruct (drop_seen written ∅ es) as [|e0 es0]; [by apply settles_ends, settles_lift|].
  set (pending := e0 :: es0) in *. unfold read_snapshots.
  destruct (elements (replacement_ids ∅ pending)) as [|i l] eqn:El.
  { intros env ks. cbn [lift try pbind]. apply enqueue_rest_ends; [by intros i [? ?%lookup_empty_Some]|apply map_Forall_empty]. }
  assert (forall j, j ∈ i :: l -> j ∈ ids) as Hl by (intros j; rewrite <- El, elem_of_elements; apply Hrep).
  intros env ks. unfold try at 1 2 5 6, call, perform. cbn [pbind run_amid disturbances run_event exec MemRedis documented].
  set (ks0 := disturb env ks). unfold read_hash. destruct (hash_at ks0 ks_jobs) as [h|] eqn:Hh; cbn [map_err]; [|done].
  destruct (insert_snapshots _ ∅) as [snaps|err] eqn:Ei; cbn [lift pbind run_amid disturbances].
  2: { intros _ [= ->]. by apply insert_snapshots_error in Ei. }
  destruct (insert_read_snapshots (i :: l) h ks0 snaps Hh Hl Ei) as [Hw Hf].
  intros Hd. apply (enqueue_rest_ends fuel dest pending written snaps (tail env) ks0 Hw Hf).
  eapply Nat.le_lt_trans; [|exact Hd]. apply Nat.le_add_l.
Qed.

Lemma enqueue_chunks_end fuel dest cs : Forall (Forall (fun e => id e ∈ ids)) cs ->
  forall written, ends_within fuel (enqueue_each_chunk st fuel dest cs written).
Proof.
  induction 1 as [|c cs Hc _ IH]; intros written; cbn [enqueue_each_chunk]; [by apply settles_ends, settles_lift|].
  apply ends_try; [|apply IH]. apply enqueue_chunk_ends. by rewrite Forall_forall in Hc.
Qed.

Lemma connection_settles : settles connection.
Proof. by intros env ks. Qed.
Lemma enqueue_list_ends fuel es : (forall e, e ∈ es -> id e ∈ ids) -> ends_within fuel (enqueue_list st fuel es).
Proof.
  intros Hids. unfold enqueue_list. destruct es as [|e es]; [by apply settles_ends, settles_lift|].
  apply ends_try; [apply settles_ends, connection_settles|intros _]. unfold enqueue_list_w_conn.
  apply ends_try; [|intros _; by apply settles_ends, settles_lift]. apply enqueue_chunks_end.
  apply Forall_chunks, Forall_forall. auto.
Qed.
Lemma enqueue_w_conn_ends fuel e dest : id e ∈ ids -> ends_within fuel (enqueue_w_conn st fuel e dest).
Proof.
  intros Hid. apply ends_try; [|intros _; by apply settles_ends, settles_lift]. apply enqueue_chunk_ends.
  by intros e' ->%list_elem_of_singleton.
Qed.
Lemma enqueue_ends fuel e : id e ∈ ids -> ends_within fuel (enqueue st fuel e).
Proof.
  intros Hid. apply ends_try; [apply settles_ends, connection_settles|intros _]. by apply enqueue_w_conn_ends.
Qed.

(** ** More fuel

    [extends p q]: where [p] does not run out of fuel, [q] runs like [p]. *)
Definition extends {A} (p q : rprog A) : Prop :=
  forall env ks, (run_amid env p ks).1.1 <> Err StillRunning -> run_amid env q ks = run_amid env p ks.

Lemma extends_refl {A} (p : rprog A) : extends p p.
Proof. done. Qed.
Lemma extends_try {A B} (p q : rprog A) (f g : A -> rprog B) :
  extends p q -> (forall a, extends (f a) (g a)) -> extends (try p f) (try q g).
Proof.
  intros Hp Hf env ks. unfold try. rewrite !run_amid_bind. specialize (Hp env ks).
  destruct (run_amid env p ks) as [[[a|e] ks'] env'] eqn:E; cbn in *; intros Hne; rewrite Hp by congruence; [by apply Hf|done].
Qed.
Lemma enqueue_loop_extends fuel : forall fuel' dest pending snaps written, fuel <= fuel' ->
  extends (enqueue_loop st fuel dest pending snaps written) (enqueue_loop st fuel' dest pending snaps written).
Proof.
  induction fuel as [|fuel IH]; intros [|fuel'] dest pending snaps written Hle; [by intros ?? []|by intros ?? []|lia|].
  cbn [enqueue_loop]. apply extends_try; [apply extends_refl|intros [[|c cs] outs]]; [apply extends_refl|].
  apply extends_try; [apply extends_refl|intros snaps']. apply IH. lia.
Qed.
Lemma enqueue_chunk_extends fuel fuel' dest es written : fuel <= fuel' ->
  extends (enqueue_chunk st fuel dest es written) (enqueue_chunk st fuel' dest es written).
Proof.
  intros Hle. unfold enqueue_chunk. case_match; [apply extends_refl|]. case_match; [apply extends_refl|].
  do 3 (apply extends_try; [apply extends_refl|intros ?]). case_match; [apply extends_refl|]. by apply enqueue_loop_extends.
Qed.
Lemma enqueue_list_extends fuel fuel' es : fuel <= fuel' -> extends (enqueue_list st fuel es) (enqueue_list st fuel' es).
Proof.
  intros Hle. unfold enqueue_list. case_match; [apply extends_refl|]. apply extends_try; [apply extends_refl|intros ?].
  apply extends_try; [|intros ?; apply extends_refl]. generalize (∅ : gset JobId).
  induction (enqueue_list_chunks _) as [|c cs IH]; intros written; cbn [enqueue_each_chunk]; [apply extends_refl|].
  apply extends_try; [by apply enqueue_chunk_extends|intros; apply IH].
Qed.
End Contention.

Section Requests.
Context {S : Serde}.
Variable st : StorageInternal.
Implicit Types (ks : keyspace).

(** C11. An enqueue whose jobs are disturbed [n] times ends within [n + 1] runs of the script in each chunk: whatever other
    clients and workers do to the keyspace between its commands, it does not run out of fuel when a payload of one of its jobs
    changed fewer times than it has fuel, and more fuel gives the same answer and the same keyspace. (Its loop retries only
    while what it read is stale, and learns from every reply.) *)
Theorem enqueue_rounds_bounded fuel es env ks :
  disturbances st (id <$> es) env (enqueue_list st fuel es) ks < fuel ->
  (run_amid env (enqueue_list st fuel es) ks).1.1 <> Err StillRunning /\
  forall fuel', fuel <= fuel' -> run_amid env (enqueue_list st fuel' es) ks = run_amid env (enqueue_list st fuel es) ks.
Proof.
  intros Hd. assert ((run_amid env (enqueue_list st fuel es) ks).1.1 <> Err StillRunning) as Hne.
  { apply (enqueue_list_ends st (id <$> es)); [|done]. intros e He. by apply list_elem_of_fmap_2. }
  split; [done|]. intros fuel' Hle. by apply enqueue_list_extends.
Qed.
End Requests.

