(* ===== verification/Client.v ===== *)
(** * The client's handle ([storage.rs])

    [Storage] hands most calls to [StorageInternal]; this file holds the ones
    that do more: building envelopes, and the run-time configuration of
    queues. A queue value is its key and its configuration ([Queue::key],
    [Queue::config]). *)
From S2P Require Import Prelude Errors Redis Envelope Codec Queue Keys Scripts Storage Transitions Enqueue.

Record QueueHandle := { q_key : string; q_config : QueueConfig }.

(** The clock readings and the UUID one enqueue takes. *)
Record Moment := { m_uuid : string; m_created : Z; m_scheduled : Z; m_now : Z; m_sched : Z; m_at : Z }.

Section Client.
Context `{S : Serde} `{C : ConfigSerde}.
Variable st : StorageInternal.
Open Scope prog_scope.

(** ** Enqueueing *)

Definition envelope_at (q : QueueHandle) (j : Job) (m : Moment) : result OxanaError JobEnvelope :=
  new_envelope (q_key q) j (m_uuid m) (m_created m) (m_scheduled m).

Definition client_enqueue_in (fuel : nat) (q : QueueHandle) (j : Job) (delay_s : Z) (m : Moment) : rprog JobId :=
  e <-? lift (envelope_at q j m) ;;
  if (0 <? delay_s)%Z then enqueue_in st fuel e delay_s (m_now m) (m_sched m) (m_at m)
  else enqueue st fuel e.

Definition client_enqueue (fuel : nat) (q : QueueHandle) (j : Job) (m : Moment) : rprog JobId :=
  client_enqueue_in fuel q j 0 m.

Definition client_try_enqueue (fuel : nat) (q : QueueHandle) (j : Job) (m : Moment) : rprog (option JobId) :=
  e <-? lift (envelope_at q j m) ;; try_enqueue st fuel e.

Definition client_enqueue_list (fuel : nat) (q : QueueHandle) (js : list (Job * Moment)) : rprog (list JobId) :=
  es <-? lift (collect ((fun p => envelope_at q p.1 p.2) <$> js)) ;; enqueue_list st fuel es.

Definition client_enqueue_at (fuel : nat) (q : QueueHandle) (j : Job) (at_micros : Z) (m : Moment) : rprog JobId :=
  e <-? lift (new_scheduled (q_key q) j at_micros (m_uuid m) (m_created m) (m_scheduled m) (m_sched m)) ;;
  enqueue_at st fuel e (m_at m).

Definition delete_unique_job (unique_id : option JobId) : rprog unit :=
  match unique_id with
  | None => lift (Err (ConfigError "delete_unique_job requires a job with a unique ID"))
  | Some jid => delete_job st jid
  end.

(** ** Run-time configuration *)

Definition validate_dynamic_concurrency (key : string) (c : QueueConcurrency) : result OxanaError unit :=
  if is_dynamic c then Ok tt
  else Err (ConfigError ("Queue " +:+ key +:+ " has fixed concurrency and cannot be overridden")).

Definition validate_runtime_concurrency (key : string) (c : QueueConcurrency) (config : QueueRuntimeConfig)
    : result OxanaError unit :=
  match rt_concurrency config with Some _ => validate_dynamic_concurrency key c | None => Ok tt end.

Definition client_queue_config (q : QueueHandle) : rprog (option QueueRuntimeConfig) :=
  config <-? queue_config st (q_key q) ;;
  lift (Ok (effective_runtime_config (concurrency (q_config q)) <$> config)).

Definition client_set_queue_config (q : QueueHandle) (config : QueueRuntimeConfig) : rprog unit :=
  _ <-? lift (validate_runtime_concurrency (q_key q) (concurrency (q_config q)) config) ;;
  set_queue_config st (q_key q) config.

Definition runtime_concurrency_reset_default (key : string) (k : QueueKind) (c : QueueConcurrency) : rprog nat :=
  let configured_default := default_concurrency c in
  match k with
  | Static _ => lift (Ok configured_default)
  | Dynamic prefix _ =>
      if decide (key = prefix) then lift (Ok configured_default)
      else
        base <-? queue_config_or_default st prefix (stored_runtime_default c) ;;
        lift (Ok (default configured_default (rt_concurrency base)))
  end.

Definition set_queue_concurrency (q : QueueHandle) (n : nat) : rprog unit :=
  let c := concurrency (q_config q) in
  _ <-? lift (validate_dynamic_concurrency (q_key q) c) ;;
  d <-? runtime_concurrency_reset_default (q_key q) (kind (q_config q)) c ;;
  existing <-? queue_config st (q_key q) ;;
  if bool_decide (n = d) && bool_decide (existing = None) then lift (Ok tt)
  else
    let config := default default_runtime_config existing in
    set_queue_config st (q_key q)
      {| rt_concurrency := if decide (n <> d) then Some n else None; rt_state := rt_state config |}.

Definition client_set_queue_state (q : QueueHandle) (s : QueueState) : rprog unit :=
  if is_dynamic (concurrency (q_config q)) then set_queue_state st (q_key q) s
  else
    config <-? queue_config st (q_key q) ;;
    set_queue_config st (q_key q) {| rt_concurrency := None; rt_state := s |}.

Definition pause_queue (q : QueueHandle) : rprog unit := client_set_queue_state q Paused.
Definition unpause_queue (q : QueueHandle) : rprog unit := client_set_queue_state q Active.
End Client.

(** ** Facts *)

Section ConfigFacts.
Context {R : RedisServer} {L : LawfulRedis R} {C : ConfigSerde} {LC : LawfulConfigSerde C}.
Variable st : StorageInternal.
Implicit Types (ks : keyspace) (configs : gmap string string).
Local Abbreviation keys := (skeys st).

(** What the stored texts say. *)
Definition stored_config configs (key : string) : result OxanaError (option QueueRuntimeConfig) :=
  transpose (parse_config <$> configs !! key).

Lemma queue_config_run key ks configs :
  hash_at ks (queue_configs keys) = Some configs ->
  run_doc (queue_config st key) ks = (stored_config configs key, ks).
Proof.
  intros Hh. unfold queue_config, queue_config_w_conn, connection. rewrite run_try, run_checkout. run_simp. done.
Qed.

Lemma set_queue_config_run key config ks configs :
  hash_at ks (queue_configs keys) = Some configs ->
  exists text, config_from_str text = Ok config /\
    run_doc (set_queue_config st key config) ks =
      (Ok tt, put_hash (queue_configs keys) (<[key := text]> configs) ks).
Proof.
  intros Hh. destruct (config_round_trip config) as (text & Hto & Hfrom). exists text. split; [done|].
  unfold set_queue_config, connection. rewrite run_try, run_checkout, run_try, Hto, run_lift. run_simp. done.
Qed.

(** The configuration workers go by, for a stored one. *)
Definition effective (c : QueueConcurrency) (stored : option QueueRuntimeConfig) : QueueRuntimeConfig :=
  effective_runtime_config c (default default_runtime_config stored).

Definition config_is (c : QueueConcurrency) ks key (config : QueueRuntimeConfig) : Prop :=
  exists configs stored, hash_at ks (queue_configs keys) = Some configs /\
    stored_config configs key = Ok stored /\ effective c stored = config.

Lemma config_is_insert c ks configs key text config :
  config_from_str text = Ok config ->
  config_is c (put_hash (queue_configs keys) (<[key := text]> configs) ks) key (effective c (Some config)).
Proof.
  intros Ht. exists (<[key := text]> configs), (Some config). split; [by ks_simp|]. split; [|done].
  unfold stored_config. rewrite lookup_insert_eq. cbn. unfold parse_config. by rewrite Ht.
Qed.

Lemma queue_config_or_default_run key d ks configs :
  hash_at ks (queue_configs keys) = Some configs ->
  run_doc (queue_config_or_default st key d) ks =
    (res_map (fun c => match c with Some c => with_defaults c d | None => d end) (stored_config configs key), ks).
Proof.
  intros Hh. unfold queue_config_or_default, queue_config_w_conn, connection. rewrite run_try, run_checkout, run_try.
  run_simp. unfold stored_config. by destruct (transpose _).
Qed.

(** The limit a queue goes back to: its own default, or for a sub-queue the
    limit stored for its base. *)
Definition reset_default (key : string) (k : QueueKind) (d0 : nat) (base : option QueueRuntimeConfig) : nat :=
  match k with
  | Static _ => d0
  | Dynamic prefix _ => if decide (key = prefix) then d0 else default d0 (base ≫= rt_concurrency)
  end.

Lemma reset_default_run key k d0 base ks configs :
  hash_at ks (queue_configs keys) = Some configs ->
  (forall prefix interval, k = Dynamic prefix interval -> stored_config configs prefix = Ok base) ->
  run_doc (runtime_concurrency_reset_default st key k (DynamicConcurrency d0)) ks = (Ok (reset_default key k d0 base), ks).
Proof.
  intros Hh Hb. unfold runtime_concurrency_reset_default, reset_default. destruct k as [k|prefix i]; [done|].
  case_decide; [done|]. rewrite run_try, (queue_config_or_default_run _ _ _ configs), (Hb prefix i) by done.
  destruct base as [[[n|] s]|]; done.
Qed.

(** What [set_queue_concurrency] stores. *)
Definition concurrency_stored (n dflt : nat) (stored : option QueueRuntimeConfig) : option QueueRuntimeConfig :=
  if bool_decide (n = dflt) && bool_decide (stored = None) then None
  else Some {| rt_concurrency := if decide (n <> dflt) then Some n else None;
               rt_state := rt_state (default default_runtime_config stored) |}.

Lemma set_queue_concurrency_run q n d0 base ks configs stored :
  concurrency (q_config q) = DynamicConcurrency d0 ->
  hash_at ks (queue_configs keys) = Some configs ->
  stored_config configs (q_key q) = Ok stored ->
  (forall prefix interval, kind (q_config q) = Dynamic prefix interval -> stored_config configs prefix = Ok base) ->
  exists ks' configs', run_doc (set_queue_concurrency st q n) ks = (Ok tt, ks') /\
    same_except [queue_configs keys] ks ks' /\ hash_at ks' (queue_configs keys) = Some configs' /\
    stored_config configs' (q_key q) = Ok (concurrency_stored n (reset_default (q_key q) (kind (q_config q)) d0 base) stored) /\
    (forall k, k <> q_key q -> stored_config configs' k = stored_config configs k).
Proof.
  intros Ec Hh Hst Hb. set (dflt := reset_default _ _ _ _). unfold set_queue_concurrency. rewrite Ec.
  cbn [validate_dynamic_concurrency is_dynamic]. rewrite run_try, run_lift, run_try, (reset_default_run _ _ _ base _ configs) by done.
  rewrite run_try, (queue_config_run _ _ configs), Hst by done. fold dflt. unfold concurrency_stored.
  destruct (bool_decide (n = dflt) && bool_decide (stored = None)) eqn:Eb.
  - apply andb_true_iff in Eb as [_ ->%bool_decide_eq_true]. exists ks, configs. split_and!; done.
  - set (config := {| rt_concurrency := _; rt_state := _ |}).
    destruct (set_queue_config_run (q_key q) config ks configs Hh) as (text & Ht & ->).
    exists (put_hash (queue_configs keys) (<[q_key q := text]> configs) ks), (<[q_key q := text]> configs).
    split_and!; [done|frame|by ks_simp| |].
    + unfold stored_config. rewrite lookup_insert_eq. cbn. unfold parse_config. by rewrite Ht.
    + intros k Hk. unfold stored_config. by rewrite lookup_insert_ne.
Qed.

(** A queue of fixed concurrency refuses. *)
Lemma set_queue_concurrency_fixed q n f ks : concurrency (q_config q) = FixedConcurrency f ->
  exists msg, run_doc (set_queue_concurrency st q n) ks = (Err (ConfigError msg), ks).
Proof. intros Ec. unfold set_queue_concurrency. rewrite Ec. eexists. done. Qed.

(** Pausing and resuming: the state is the one asked for and the concurrency
    workers go by is unchanged. *)
Theorem queue_state_round_trip q s d configs stored :
  hash_at (view d) (queue_configs keys) = Some configs ->
  stored_config configs (q_key q) = Ok stored ->
  yields (client_set_queue_state st q s) d (Ok tt) (fun ks' =>
    config_is (concurrency (q_config q)) ks' (q_key q)
      {| rt_concurrency := rt_concurrency (effective (concurrency (q_config q)) stored); rt_state := s |} /\
    same_except [queue_configs keys] (view d) ks').
Proof.
  intros Hh Hst. apply yields_doc. unfold client_set_queue_state. set (c := concurrency (q_config q)).
  destruct c as [f|dflt] eqn:Ec; cbn [is_dynamic]; [|unfold set_queue_state];
    rewrite run_try, (queue_config_run _ _ configs), Hst by done.
  - set (config := {| rt_concurrency := None; rt_state := s |}).
    destruct (set_queue_config_run (q_key q) config (view d) configs Hh) as (text & Ht & ->).
    eexists. split; [done|]. split; [|frame].
    by apply (config_is_insert (FixedConcurrency f) (view d) configs (q_key q) text config).
  - set (config := {| rt_concurrency := _; rt_state := s |}).
    destruct (set_queue_config_run (q_key q) config (view d) configs Hh) as (text & Ht & ->).
    eexists. split; [done|]. split; [|frame].
    by apply (config_is_insert (DynamicConcurrency dflt) (view d) configs (q_key q) text config).
Qed.
End ConfigFacts.
