(* ===== verification/Metrics.v ===== *)
(** * Execution metrics ([metrics.rs])

    Counters are u64 with saturating addition. A HashMap is a [gmap]; a loop
    over one folds over its elements in their [map_to_list] order, and the
    order is shown not to matter where the code relies on that. Averages are
    exact rationals where the code divides doubles. *)
From Stdlib Require Import QArith.
From S2P Require Import Prelude Errors.

Definition METRICS_RETENTION_SECS : Z := 24 * 60 * 60.
Definition DEFAULT_METRIC_MINUTES : Z := 60.
Definition MAX_METRIC_MINUTES : Z := 24 * 60.
Definition QUEUE_RATE_WINDOW_MINUTES : Z := 10.
Definition HISTOGRAM_BUCKET_COUNT : nat := 14.

Definition HISTOGRAM_BUCKET_INTERVALS_MS : list Z :=
  [25; 50; 100; 250; 500; 1000; 2500; 5000; 10000; 30000; 60000; 120000; 300000; u64_max]%Z.
Definition HISTOGRAM_BUCKET_LABELS : list string :=
  ["25ms"; "50ms"; "100ms"; "250ms"; "500ms"; "1s"; "2.5s"; "5s"; "10s"; "30s"; "60s"; "120s"; "5min"; "Slow"].

Definition METRIC_PROCESSED_JOBS : string := "p".
Definition METRIC_FAILED_JOBS : string := "f".
Definition METRIC_PANICKED_JOBS : string := "pn".
Definition METRIC_SUCCESSFUL_EXECUTIONS : string := "xs".
Definition METRIC_FAILED_EXECUTIONS : string := "xf".
Definition METRIC_PANICKED_EXECUTIONS : string := "xpn".
Definition METRIC_EXECUTION_MS : string := "ms".
Definition JOB_METRIC_KEYS : list string :=
  [METRIC_PROCESSED_JOBS; METRIC_FAILED_JOBS; METRIC_PANICKED_JOBS; METRIC_SUCCESSFUL_EXECUTIONS;
   METRIC_FAILED_EXECUTIONS; METRIC_PANICKED_EXECUTIONS; METRIC_EXECUTION_MS].
Definition QUEUE_METRIC_PROCESSED_JOBS : string := "p".
Definition QUEUE_METRIC_SUCCEEDED_JOBS : string := "s".
Definition QUEUE_METRIC_FAILED_JOBS : string := "f".

(** ** Worker results ([result_collector.rs]) *)

Inductive WorkerResultKind := Success | Panicked | Failed.

Record WorkerResult := {
  wr_kind : WorkerResultKind;
  wr_worker_name : string;
  wr_queue : string;
  wr_execution_ms : Z;
  wr_job_count : Z;
}.

(** ** Identities and hash fields

    A [MetricIdentity] is its worker's name. *)
Definition pipe_char : ascii := "|".

Definition field_key (worker : string) : string :=
  z_to_string (Z.of_nat (String.length worker)) +:+ ":" +:+ worker.

Definition from_field_key (key : string) : option string :=
  '(worker_len, rest) ← split_once ":" key;
  worker_len ← parse_usize worker_len;
  if decide (String.length rest < worker_len) then None
  else if is_char_boundary worker_len rest then Some (String.substring 0 worker_len rest) else None.

Definition metric_field (worker metric : string) : string := field_key worker +:+ "|" +:+ metric.

Definition split_metric_field (field : string) : option (string * string) :=
  '(identity_key, metric) ← rsplit_once pipe_char field;
  if decide (metric ∈ JOB_METRIC_KEYS) then (λ i, (i, metric)) <$> from_field_key identity_key
  else None.

Definition queue_metric_field (queue metric : string) : string :=
  z_to_string (Z.of_nat (String.length queue)) +:+ ":" +:+ queue +:+ "|" +:+ metric.

Definition split_queue_metric_field (field : string) : option (string * string) :=
  '(queue_key, metric) ← rsplit_once pipe_char field;
  if decide (metric ∈ [QUEUE_METRIC_PROCESSED_JOBS; QUEUE_METRIC_SUCCEEDED_JOBS; QUEUE_METRIC_FAILED_JOBS]) then
    '(queue_len, queue) ← split_once ":" queue_key;
    queue_len ← parse_usize queue_len;
    if decide (String.length queue = queue_len) then
      if is_char_boundary queue_len queue then Some (queue, metric) else None
    else None
  else None.

(** ** Queries *)

Definition effective_minutes (minutes : Z) : Z :=
  if decide (minutes = 0%Z) then DEFAULT_METRIC_MINUTES else Z.min minutes MAX_METRIC_MINUTES.

(** [metric_minutes]; [div_euclid] by 60 is [Z.div]. *)
Definition metric_minutes (now_ts : Z) (minutes : Z) : list Z :=
  let minutes := effective_minutes minutes in
  let end_minute := (now_ts / 60)%Z in
  let start_minute := (end_minute - minutes + 1)%Z in
  seqZ start_minute (end_minute - start_minute + 1).

(** ** Totals and points

    The two structs share the eight counters and the methods the macro
    [impl_job_metric_aggregation] gives them; a point also has its minute. *)
Record JobMetricsTotals := {
  mt_processed : Z;
  mt_succeeded : Z;
  mt_failed : Z;
  mt_panicked : Z;
  mt_successful_executions : Z;
  mt_failed_executions : Z;
  mt_panicked_executions : Z;
  mt_execution_ms : Z;
}.

Record JobMetricsPoint := { mp_timestamp : Z; mp_counts : JobMetricsTotals }.

Definition empty_totals : JobMetricsTotals := Build_JobMetricsTotals 0 0 0 0 0 0 0 0.

Definition average_execution_ms (t : JobMetricsTotals) : Q :=
  if decide (mt_successful_executions t = 0%Z) then 0%Q
  else (inject_Z (mt_execution_ms t) / inject_Z (mt_successful_executions t))%Q.

Definition failed_executions_without_panics (t : JobMetricsTotals) : Z :=
  u64_sat_sub (mt_failed_executions t) (mt_panicked_executions t).

Definition add_metric (metric : string) (value : Z) (t : JobMetricsTotals) : JobMetricsTotals :=
  let '(Build_JobMetricsTotals p s f pn xs xf xpn ms) := t in
  if decide (metric = METRIC_PROCESSED_JOBS) then
    Build_JobMetricsTotals (u64_sat_add p value) s f pn xs xf xpn ms
  else if decide (metric = METRIC_FAILED_JOBS) then
    Build_JobMetricsTotals p s (u64_sat_add f value) pn xs xf xpn ms
  else if decide (metric = METRIC_PANICKED_JOBS) then
    Build_JobMetricsTotals p s f (u64_sat_add pn value) xs xf xpn ms
  else if decide (metric = METRIC_SUCCESSFUL_EXECUTIONS) then
    Build_JobMetricsTotals p s f pn (u64_sat_add xs value) xf xpn ms
  else if decide (metric = METRIC_FAILED_EXECUTIONS) then
    Build_JobMetricsTotals p s f pn xs (u64_sat_add xf value) xpn ms
  else if decide (metric = METRIC_PANICKED_EXECUTIONS) then
    Build_JobMetricsTotals p s f pn xs xf (u64_sat_add xpn value) ms
  else if decide (metric = METRIC_EXECUTION_MS) then
    Build_JobMetricsTotals p s f pn xs xf xpn (u64_sat_add ms value)
  else t.

(** [finalize]; the u64 sum wraps. *)
Definition finalize (t : JobMetricsTotals) : JobMetricsTotals :=
  let '(Build_JobMetricsTotals p s f pn xs xf xpn ms) := t in
  let s := u64_sat_sub p f in
  if decide (u64_wrap (xs + xf + xpn) = 0%Z) then Build_JobMetricsTotals p s f pn s f pn ms
  else Build_JobMetricsTotals p s f pn xs xf xpn ms.

(** ** The buffer *)

Record QueueCounterTotals := { qc_processed : Z; qc_succeeded : Z; qc_failed : Z }.
Definition empty_queue_counters : QueueCounterTotals := Build_QueueCounterTotals 0 0 0.

Definition queue_increments (t : QueueCounterTotals) : list (string * Z) :=
  [(QUEUE_METRIC_PROCESSED_JOBS, qc_processed t); (QUEUE_METRIC_SUCCEEDED_JOBS, qc_succeeded t);
   (QUEUE_METRIC_FAILED_JOBS, qc_failed t)].

Definition add_queue_metric (metric : string) (value : Z) (t : QueueCounterTotals) : QueueCounterTotals :=
  let '(Build_QueueCounterTotals p s f) := t in
  if decide (metric = QUEUE_METRIC_PROCESSED_JOBS) then Build_QueueCounterTotals (u64_sat_add p value) s f
  else if decide (metric = QUEUE_METRIC_SUCCEEDED_JOBS) then Build_QueueCounterTotals p (u64_sat_add s value) f
  else if decide (metric = QUEUE_METRIC_FAILED_JOBS) then Build_QueueCounterTotals p s (u64_sat_add f value)
  else t.

Record PendingJobMetrics := {
  pj_processed : Z;
  pj_failed : Z;
  pj_panicked : Z;
  pj_successful_executions : Z;
  pj_failed_executions : Z;
  pj_panicked_executions : Z;
  pj_execution_ms : Z;
  pj_histogram : list Z;
}.
Definition empty_pending : PendingJobMetrics :=
  Build_PendingJobMetrics 0 0 0 0 0 0 0 (replicate HISTOGRAM_BUCKET_COUNT 0%Z).

Definition job_increments (m : PendingJobMetrics) : list (string * Z) :=
  [(METRIC_PROCESSED_JOBS, pj_processed m); (METRIC_FAILED_JOBS, pj_failed m);
   (METRIC_PANICKED_JOBS, pj_panicked m); (METRIC_SUCCESSFUL_EXECUTIONS, pj_successful_executions m);
   (METRIC_FAILED_EXECUTIONS, pj_failed_executions m);
   (METRIC_PANICKED_EXECUTIONS, pj_panicked_executions m); (METRIC_EXECUTION_MS, pj_execution_ms m)].

Definition histogram_bucket_index (duration_ms : Z) : nat :=
  match list_find (λ upper, (duration_ms < upper)%Z) HISTOGRAM_BUCKET_INTERVALS_MS with
  | Some (i, _) => i
  | None => HISTOGRAM_BUCKET_COUNT - 1
  end.

Record JobMetricsBuffer := {
  entries : gmap (Z * string) PendingJobMetrics;
  queue_entries : gmap (Z * string) QueueCounterTotals;
}.
Definition empty_buffer : JobMetricsBuffer := {| entries := ∅; queue_entries := ∅ |}.

Definition buffer_is_empty (b : JobMetricsBuffer) : bool :=
  bool_decide (entries b = ∅) && bool_decide (queue_entries b = ∅).

(** The two halves of [JobMetricsBuffer::record]. *)
Definition record_job (r : WorkerResult) (m : PendingJobMetrics) : PendingJobMetrics :=
  let '(Build_PendingJobMetrics p f pn xs xf xpn ms hist) := m in
  let p := u64_sat_add p (wr_job_count r) in
  match wr_kind r with
  | Success =>
      Build_PendingJobMetrics p f pn (u64_sat_add xs 1) xf xpn (u64_sat_add ms (wr_execution_ms r))
        (alter (λ count, u64_sat_add count 1) (histogram_bucket_index (wr_execution_ms r)) hist)
  | Panicked =>
      Build_PendingJobMetrics p (u64_sat_add f (wr_job_count r)) (u64_sat_add pn (wr_job_count r)) xs
        (u64_sat_add xf 1) (u64_sat_add xpn 1) ms hist
  | Failed =>
      Build_PendingJobMetrics p (u64_sat_add f (wr_job_count r)) pn xs (u64_sat_add xf 1) xpn ms hist
  end.

Definition record_queue (r : WorkerResult) (m : QueueCounterTotals) : QueueCounterTotals :=
  let '(Build_QueueCounterTotals p s f) := m in
  let p := u64_sat_add p (wr_job_count r) in
  match wr_kind r with
  | Success => Build_QueueCounterTotals p (u64_sat_add s (wr_job_count r)) f
  | Panicked | Failed => Build_QueueCounterTotals p s (u64_sat_add f (wr_job_count r))
  end.

Definition buffer_record (now_ts : Z) (r : WorkerResult) (b : JobMetricsBuffer) : JobMetricsBuffer :=
  let minute := (now_ts / 60)%Z in
  let jk := (minute, wr_worker_name r) in
  let qk := (minute, wr_queue r) in
  {| entries := <[jk := record_job r (default empty_pending (entries b !! jk))]> (entries b);
     queue_entries := <[qk := record_queue r (default empty_queue_counters (queue_entries b !! qk))]> (queue_entries b) |}.

(** ** Aggregation *)

(** [u64::try_from(raw).unwrap_or_default()]. *)
Definition counter_value (raw : Z) : Z := default 0%Z (u64_try_from raw).

Definition points_of (minutes : list Z) : list JobMetricsPoint :=
  (λ minute, {| mp_timestamp := minute * 60; mp_counts := empty_totals |}) <$> minutes.

Definition map_counts (f : JobMetricsTotals -> JobMetricsTotals) (p : JobMetricsPoint) : JobMetricsPoint :=
  {| mp_timestamp := mp_timestamp p; mp_counts := f (mp_counts p) |}.

Record WorkerMetricsSummary := {
  ws_worker : string;
  ws_totals : JobMetricsTotals;
  ws_series : list JobMetricsPoint;
}.

Record JobMetricsAggregation := {
  ag_totals : JobMetricsTotals;
  ag_series : list JobMetricsPoint;
  ag_workers : list WorkerMetricsSummary;
}.

(** The counters of one hash that pass the filter. *)
Definition parse_field (filter_by : option string) (fv : string * Z) : option (string * string * Z) :=
  '(worker, metric) ← split_metric_field (fv.1);
  match filter_by with
  | Some expected => if decide (expected = worker) then Some (worker, metric, counter_value (fv.2)) else None
  | None => Some (worker, metric, counter_value (fv.2))
  end.

(** The state of the loop: totals, series and per-worker builders. *)
Abbreviation agg_state :=
  (JobMetricsTotals * list JobMetricsPoint * gmap string (JobMetricsTotals * list JobMetricsPoint))%type.

Definition aggregate_field (minutes : list Z) (idx : nat) (s : agg_state) (f : string * string * Z) : agg_state :=
  let '(totals, series, workers) := s in
  let '(worker, metric, value) := f in
  let '(wt, wseries) := default (empty_totals, points_of minutes) (workers !! worker) in
  (add_metric metric value totals,
   alter (map_counts (add_metric metric value)) idx series,
   <[worker := (add_metric metric value wt, alter (map_counts (add_metric metric value)) idx wseries)]> workers).

Fixpoint aggregate_hashes (minutes : list Z) (filter_by : option string) (idx : nat)
    (hashes : list (gmap string Z)) (s : agg_state) : agg_state :=
  match hashes with
  | [] => s
  | hash :: hashes' =>
      let s' :=
        if decide (idx < length minutes) then
          let '(totals, series, workers) :=
            foldl (aggregate_field minutes idx) s (omap (parse_field filter_by) (map_to_list hash)) in
          (totals, alter (map_counts finalize) idx series, workers)
        else s in
      aggregate_hashes minutes filter_by (S idx) hashes' s'
  end.

(** The workers' order: most execution time, then most processed, then name. *)
Definition worker_le (a b : WorkerMetricsSummary) : Prop :=
  (mt_execution_ms (ws_totals b) < mt_execution_ms (ws_totals a))%Z \/
  (mt_execution_ms (ws_totals b) = mt_execution_ms (ws_totals a) /\
   ((mt_processed (ws_totals b) < mt_processed (ws_totals a))%Z \/
    (mt_processed (ws_totals b) = mt_processed (ws_totals a) /\
     String.leb (ws_worker a) (ws_worker b) = true))).
#[export] Instance worker_le_dec : RelDecision worker_le.
Proof. intros a b. unfold worker_le. apply _. Defined.

Definition worker_summary (w : string * (JobMetricsTotals * list JobMetricsPoint)) : WorkerMetricsSummary :=
  {| ws_worker := w.1; ws_totals := finalize (w.2.1); ws_series := map_counts finalize <$> w.2.2 |}.

Definition aggregate_counter_hashes (minutes : list Z) (hashes : list (gmap string Z))
    (filter_by : option string) : JobMetricsAggregation :=
  let '(totals, series, workers) :=
    aggregate_hashes minutes filter_by 0 hashes (empty_totals, points_of minutes, ∅) in
  {| ag_totals := finalize totals;
     ag_series := series;
     ag_workers := merge_sort worker_le (worker_summary <$> map_to_list workers) |}.

Definition aggregate_queue_field (m : gmap string QueueCounterTotals) (fv : string * Z)
    : gmap string QueueCounterTotals :=
  match split_queue_metric_field (fv.1) with
  | None => m
  | Some (queue, metric) =>
      <[queue := add_queue_metric metric (counter_value (fv.2)) (default empty_queue_counters (m !! queue))]> m
  end.

Definition aggregate_queue_counter_hashes (hashes : list (gmap string Z)) : gmap string QueueCounterTotals :=
  foldl (λ m hash, foldl aggregate_queue_field m (map_to_list hash)) ∅ hashes.

(** ** Queue lengths *)

Record QueueLengthMetricsPoint := { ql_timestamp : Z; ql_enqueued : Z }.
Record QueueLengthMetricsSeries := { qs_queue : string; qs_series : list QueueLengthMetricsPoint }.

Definition length_points (minutes : list Z) : list QueueLengthMetricsPoint :=
  (λ minute, {| ql_timestamp := minute * 60; ql_enqueued := 0 |}) <$> minutes.

Definition set_enqueued (v : Z) (p : QueueLengthMetricsPoint) : QueueLengthMetricsPoint :=
  {| ql_timestamp := ql_timestamp p; ql_enqueued := v |}.

Fixpoint length_series_of (minutes : list Z) (idx : nat) (hashes : list (gmap string Z))
    (m : gmap string (list QueueLengthMetricsPoint)) : gmap string (list QueueLengthMetricsPoint) :=
  match hashes with
  | [] => m
  | hash :: hashes' =>
      length_series_of minutes (S idx) hashes'
        (foldl (λ m fv, <[fv.1 := alter (set_enqueued (counter_value fv.2)) idx
                                    (default (length_points minutes) (m !! fv.1))]> m)
           m (map_to_list hash))
  end.

Definition peak (s : list QueueLengthMetricsPoint) : Z := foldr Z.max 0%Z (ql_enqueued <$> s).

Definition length_series_le (a b : QueueLengthMetricsSeries) : Prop :=
  (peak (qs_series b) < peak (qs_series a))%Z \/
  (peak (qs_series b) = peak (qs_series a) /\ String.leb (qs_queue a) (qs_queue b) = true).
#[export] Instance length_series_le_dec : RelDecision length_series_le.
Proof. intros a b. unfold length_series_le. apply _. Defined.

Definition queue_length_series_from_hashes (minutes : list Z) (hashes : list (gmap string Z))
    : list QueueLengthMetricsSeries :=
  merge_sort length_series_le
    ((λ p, {| qs_queue := p.1; qs_series := p.2 |}) <$> map_to_list (length_series_of minutes 0 hashes ∅)).

(** ** Histograms

    The BITFIELD sub-commands, as (index, increment) pairs and as indices. *)
Definition histogram_increments (buckets : list Z) : list (nat * Z) :=
  filter (λ p, p.2 ≠ 0%Z) (imap pair buckets).

Definition histogram_fetches : list nat := seq 0 HISTOGRAM_BUCKET_COUNT.

Record JobMetricsHistogramBucket := {
  hb_label : string;
  hb_upper_bound_ms : option Z;
  hb_count : Z;
}.

Definition histogram_buckets_from_counts (counts : list Z) : list JobMetricsHistogramBucket :=
  imap (λ idx p, {| hb_label := p.1;
                    hb_upper_bound_ms := if decide (idx < HISTOGRAM_BUCKET_COUNT - 1)
                                         then HISTOGRAM_BUCKET_INTERVALS_MS !! idx else None;
                    hb_count := p.2 |}) (zip HISTOGRAM_BUCKET_LABELS counts).

(** Totals of the fetched counters of several minutes ([metrics_histogram_counts_for]). *)
Definition add_histogram (totals : list Z) (values : list Z) : list Z :=
  imap (λ i total, match values !! i with Some v => u64_sat_add total v | None => total end) totals.
