(* ===== verification/MetricsFacts.v ===== *)
(** * Facts about the metrics

    Field names round-trip, the buffer counts what it is given, buckets and
    windows are in bounds, and aggregation does not depend on hash order. *)
From Stdlib Require Import QArith.
From S2P Require Import Prelude Errors Metrics.

(** Stored metric fields are read back exactly, whatever characters the worker
    name holds. *)
Theorem metric_field_round_trip worker metric :
  metric ∈ JOB_METRIC_KEYS -> (Z.of_nat (String.length worker) <= u64_max)%Z ->
  split_metric_field (metric_field worker metric) = Some (worker, metric).
Proof.
  intros Hm Hlen. unfold split_metric_field, metric_field.
  rewrite string_app_cons, string_app_nil_l, rsplit_once_app.
  2: { unfold JOB_METRIC_KEYS in Hm. rewrite !elem_of_cons, elem_of_nil in Hm.
       by destruct Hm as [->|[->|[->|[->|[->|[->|[->|[]]]]]]]]. }
  cbn [mbind option_bind]. rewrite decide_True by done. unfold from_field_key, field_key.
  rewrite string_app_cons, string_app_nil_l, split_once_app by by apply nat_to_string_no_char.
  cbn [mbind option_bind]. rewrite parse_usize_to_string by done. cbn [mbind option_bind].
  rewrite decide_False by lia. by rewrite char_boundary_end, substring_all.
Qed.

Theorem queue_metric_field_round_trip queue metric :
  metric ∈ [QUEUE_METRIC_PROCESSED_JOBS; QUEUE_METRIC_SUCCEEDED_JOBS; QUEUE_METRIC_FAILED_JOBS] ->
  (Z.of_nat (String.length queue) <= u64_max)%Z ->
  split_queue_metric_field (queue_metric_field queue metric) = Some (queue, metric).
Proof.
  intros Hm Hlen. unfold split_queue_metric_field, queue_metric_field.
  rewrite <- !string_app_assoc, (string_app_assoc _ "|" metric).
  rewrite (string_app_cons "|"), (string_app_nil_l metric), rsplit_once_app.
  2: { rewrite !elem_of_cons, elem_of_nil in Hm. by destruct Hm as [->|[->|[->|[]]]]. }
  cbn [mbind option_bind]. rewrite decide_True by done.
  rewrite string_app_assoc, string_app_cons, string_app_nil_l, split_once_app by by apply nat_to_string_no_char.
  cbn [mbind option_bind]. rewrite parse_usize_to_string by done. cbn [mbind option_bind].
  rewrite decide_True by done. by rewrite char_boundary_end.
Qed.

(** ** Buckets and windows *)

Lemma histogram_bucket_in_bounds d : histogram_bucket_index d < HISTOGRAM_BUCKET_COUNT.
Proof.
  unfold histogram_bucket_index. destruct (list_find _ _) as [[i x]|] eqn:E; [|unfold HISTOGRAM_BUCKET_COUNT; lia].
  apply list_find_Some in E as (E & _). apply lookup_lt_Some in E. exact E.
Qed.

(** A duration falls in the first bucket whose bound exceeds it. *)
Theorem histogram_bucket_spec d i :
  (0 <= d < u64_max)%Z ->
  histogram_bucket_index d = i <->
  (exists upper, HISTOGRAM_BUCKET_INTERVALS_MS !! i = Some upper /\ (d < upper)%Z) /\
  (forall j lower, j < i -> HISTOGRAM_BUCKET_INTERVALS_MS !! j = Some lower -> (lower <= d)%Z).
Proof.
  intros Hd. unfold histogram_bucket_index.
  destruct (list_find _ _) as [[k x]|] eqn:E.
  - apply list_find_Some in E as (Ek & Hx & Hbefore). split.
    + intros <-. split; [eauto|]. intros j lower Hj Hl. specialize (Hbefore j lower Hl Hj). lia.
    + intros [(upper & Hi & Hdu) Hall].
      destruct (lt_eq_lt_dec k i) as [[Hlt|?]|Hgt]; [|done|].
      * specialize (Hall k x Hlt Ek). lia.
      * specialize (Hbefore i upper Hi Hgt). lia.
  - apply list_find_None in E. unfold HISTOGRAM_BUCKET_INTERVALS_MS in E.
    rewrite !Forall_cons in E. destruct_and! E. lia.
Qed.

Lemma effective_minutes_bounds minutes : (0 <= minutes)%Z -> (1 <= effective_minutes minutes <= MAX_METRIC_MINUTES)%Z.
Proof.
  unfold effective_minutes, DEFAULT_METRIC_MINUTES, MAX_METRIC_MINUTES. intros. case_decide; lia.
Qed.

(** The queried window is the last [effective_minutes] minutes, ending with the
    current one. *)
Theorem metric_minutes_window now minutes :
  (0 <= minutes)%Z ->
  Z.of_nat (length (metric_minutes now minutes)) = effective_minutes minutes /\
  last (metric_minutes now minutes) = Some (now / 60)%Z /\
  (forall m, m ∈ metric_minutes now minutes <-> now / 60 - effective_minutes minutes < m <= now / 60)%Z.
Proof.
  intros Hm. pose proof (effective_minutes_bounds minutes Hm) as Hb. unfold metric_minutes.
  set (n := effective_minutes minutes) in *. set (e := (now / 60)%Z).
  replace (e - (e - n + 1) + 1)%Z with n by lia. split_and!.
  - rewrite length_seqZ. lia.
  - rewrite last_lookup, length_seqZ, lookup_seqZ. lia.
  - intros m. rewrite elem_of_seqZ. lia.
Qed.

(** ** Aggregation and the order of hash fields *)

Lemma u64_sat_add_comm a v w : (0 <= v)%Z -> (0 <= w)%Z ->
  u64_sat_add (u64_sat_add a v) w = u64_sat_add (u64_sat_add a w) v.
Proof. unfold u64_sat_add. lia. Qed.

Lemma add_metric_comm m v m' v' t : (0 <= v)%Z -> (0 <= v')%Z ->
  add_metric m v (add_metric m' v' t) = add_metric m' v' (add_metric m v t).
Proof.
  intros Hv Hv'. destruct t. unfold add_metric.
  repeat case_decide; subst; try done; f_equal; by apply u64_sat_add_comm.
Qed.

Lemma add_point_comm idx m v m' v' (l : list JobMetricsPoint) : (0 <= v)%Z -> (0 <= v')%Z ->
  alter (map_counts (add_metric m v)) idx (alter (map_counts (add_metric m' v')) idx l) =
  alter (map_counts (add_metric m' v')) idx (alter (map_counts (add_metric m v)) idx l).
Proof.
  intros Hv Hv'. rewrite !list_alter_alter_eq. apply list_alter_ext; [|done].
  intros p _. unfold compose, map_counts. cbn. by rewrite add_metric_comm.
Qed.

Lemma aggregate_field_comm minutes idx s f g :
  (0 <= f.2)%Z -> (0 <= g.2)%Z ->
  aggregate_field minutes idx (aggregate_field minutes idx s f) g =
  aggregate_field minutes idx (aggregate_field minutes idx s g) f.
Proof.
  destruct s as [[totals series] workers], f as [[w m] v], g as [[w' m'] v']. cbn [snd]. intros Hv Hv'.
  unfold aggregate_field.
  destruct (decide (w = w')) as [->|Hne].
  - destruct (default (empty_totals, points_of minutes) (workers !! w')) as [wt ws] eqn:E.
    rewrite !lookup_insert_eq. cbn [default from_option id]. unfold id.
    rewrite !insert_insert_eq. f_equal; [f_equal|].
    + by apply add_metric_comm.
    + by apply add_point_comm.
    + f_equal. f_equal; [by apply add_metric_comm | by apply add_point_comm].
  - destruct (default _ (workers !! w)) as [wt ws] eqn:E, (default _ (workers !! w')) as [wt' ws'] eqn:E'.
    rewrite (lookup_insert_ne _ w w') by done. rewrite E'.
    rewrite (lookup_insert_ne _ w' w) by done. rewrite E.
    rewrite (insert_insert_ne workers) by done.
    f_equal. f_equal; [by apply add_metric_comm | by apply add_point_comm].
Qed.

(** Aggregating the fields of a minute's hash does not depend on the order the
    hash is read in. *)
Theorem aggregate_order_irrelevant minutes idx fs gs s :
  Forall (fun f : string * string * Z => 0 <= f.2)%Z fs -> fs ≡ₚ gs ->
  foldl (aggregate_field minutes idx) s fs = foldl (aggregate_field minutes idx) s gs.
Proof.
  intros Hfs Hp. revert s Hfs. induction Hp as [|f fs gs _ IH|f g fs|fs gs hs Hp1 IH1 Hp2 IH2]; intros s Hfs.
  - done.
  - cbn. apply IH. by apply Forall_cons in Hfs as [_ ?].
  - cbn. do 2 (apply Forall_cons in Hfs as [? Hfs]). by rewrite aggregate_field_comm.
  - rewrite IH1 by done. apply IH2. by rewrite <- Hp1.
Qed.

(** ** The buffer counts every result once *)

Definition results_for (minute : Z) (worker : string) (rs : list (Z * WorkerResult)) : list WorkerResult :=
  (filter (λ r : Z * WorkerResult, (r.1 / 60)%Z = minute ∧ wr_worker_name r.2 = worker) rs).*2.

(** The buffer groups results by minute and worker: the entry of a key is the
    fold of exactly the results of that key, in the order they were recorded,
    and a key without results keeps the entry it had. *)
Theorem buffer_groups rs b minute worker :
  entries (foldl (λ b r, buffer_record r.1 r.2 b) b rs) !! (minute, worker) =
    match results_for minute worker rs with
    | [] => entries b !! (minute, worker)
    | l => Some (foldl (λ m r, record_job r m) (default empty_pending (entries b !! (minute, worker))) l)
    end.
Proof.
  revert b. induction rs as [|[now r] rs IH]; intros b; [done|]. cbn [foldl]. rewrite IH.
  unfold results_for. rewrite filter_cons. cbn [fst snd].
  destruct (decide _) as [[Hm Hw]|Hne]; cbn [fmap list_fmap foldl snd].
  - unfold buffer_record at 1 2. cbn [entries]. rewrite Hm, Hw, lookup_insert_eq.
    cbn [default from_option]. unfold id. by destruct (_.*2).
  - assert (entries (buffer_record now r b) !! (minute, worker) = entries b !! (minute, worker)) as ->; [|done].
    unfold buffer_record. cbn [entries]. apply lookup_insert_ne. naive_solver.
Qed.

Definition total_count (rs : list WorkerResult) : Z := foldr Z.add 0%Z (wr_job_count <$> rs).
Definition failures (rs : list WorkerResult) : list WorkerResult :=
  filter (λ r, match wr_kind r with Success => false | _ => true end = true) rs.
Definition successes (rs : list WorkerResult) : list WorkerResult :=
  filter (λ r, match wr_kind r with Success => true | _ => false end = true) rs.

Lemma total_count_nonneg rs : Forall (λ r, 0 <= wr_job_count r)%Z rs -> (0 <= total_count rs)%Z.
Proof. induction 1; unfold total_count in *; cbn in *; lia. Qed.

Lemma total_count_split rs : (total_count rs = total_count (successes rs) + total_count (failures rs))%Z.
Proof.
  unfold total_count, successes, failures. induction rs as [|r rs IH]; [done|].
  rewrite !filter_cons. destruct (wr_kind r); repeat case_decide; try done;
    cbn [fmap list_fmap foldr] in *; lia.
Qed.

(** While the counters do not saturate, what a worker's entry counts is the
    jobs of its results, and its failures the jobs of the failed ones. *)
Theorem record_job_accounts rs m :
  (0 <= pj_failed m <= pj_processed m)%Z ->
  Forall (λ r, 0 <= wr_job_count r)%Z rs -> (pj_processed m + total_count rs <= u64_max)%Z ->
  let m' := foldl (λ m r, record_job r m) m rs in
  pj_processed m' = (pj_processed m + total_count rs)%Z /\
  pj_failed m' = (pj_failed m + total_count (failures rs))%Z /\
  (pj_processed m' - pj_failed m' = pj_processed m - pj_failed m + total_count (successes rs))%Z.
Proof.
  revert m. induction rs as [|r rs IH]; intros m Hm Hpos Hmax; cbn [foldl].
  { unfold total_count. cbn in *. lia. }
  apply Forall_cons in Hpos as [Hr Hpos]. pose proof (total_count_nonneg rs Hpos) as Hrest.
  assert (total_count (r :: rs) = wr_job_count r + total_count rs)%Z as Hcons by done.
  pose proof (total_count_split (r :: rs)) as Hs.
  assert (pj_processed (record_job r m) = pj_processed m + wr_job_count r /\
    pj_failed (record_job r m) = pj_failed m +
      match wr_kind r with Success => 0 | _ => wr_job_count r end)%Z as [Ep Ef].
  { destruct m, r as [[] ? ? ? ?]; cbn in *; unfold u64_sat_add; lia. }
  assert (total_count (failures (r :: rs)) =
    match wr_kind r with Success => 0 | _ => wr_job_count r end + total_count (failures rs))%Z as Hf.
  { unfold failures. rewrite filter_cons. by destruct (wr_kind r). }
  specialize (IH (record_job r m)). rewrite Ep, Ef in IH.
  destruct IH as (E1 & E2 & E3); [destruct (wr_kind r); lia|done|lia|]. split_and!; lia.
Qed.
