(* ===== verification/Stats.v ===== *)
(** * Queue statistics ([stats.rs], [storage_internal/queue_stats.rs],
    [QueueResultStats] of [result_collector.rs])

    i64 counters add with overflow checks off, that is, they wrap ([+=]) or
    saturate as the code writes them; doubles are exact rationals. *)
From Stdlib Require Import QArith Qminmax.
From S2P Require Import Prelude Errors Keys Metrics.
Open Scope Z_scope.

Definition i64_wrap (a : Z) : Z := (a + 2 ^ 63) mod 2 ^ 64 - 2 ^ 63.

(** ** Rates *)

Record QueueRateStats := {
  window_minutes : Z;
  processed_per_minute : Q;
  succeeded_per_minute : Q;
  failed_per_minute : Q;
  growth_per_minute : Q;
  effective_drain_per_minute : Q;
  eta_s : option Q;
}.

Definition default_rate : QueueRateStats := Build_QueueRateStats 0 0 0 0 0 0 None.

Definition Qpos (q : Q) : bool := negb (Qle_bool q 0).

Definition eta (enqueued : Z) (drain : Q) : option Q :=
  if enqueued =? 0 then Some 0%Q
  else if Qpos drain then Some (inject_Z enqueued / (drain / 60))%Q
  else None.

Definition effective_drain (processed growth : Q) : Q :=
  if Qpos processed then Qmax (- growth) 0 else 0%Q.

Definition rate_calculate (window enqueued window_start_enqueued processed succeeded failed : Z)
    : QueueRateStats :=
  let window := Z.max window 1 in
  let w := inject_Z window in
  let processed_per_minute := (inject_Z processed / w)%Q in
  let growth := ((inject_Z enqueued - inject_Z window_start_enqueued) / w)%Q in
  let drain := effective_drain processed_per_minute growth in
  {| window_minutes := window;
     processed_per_minute := processed_per_minute;
     succeeded_per_minute := (inject_Z succeeded / w)%Q;
     failed_per_minute := (inject_Z failed / w)%Q;
     growth_per_minute := growth;
     effective_drain_per_minute := drain;
     eta_s := eta enqueued drain |}.

Definition rate_aggregate (window enqueued : Z) (rates : list QueueRateStats) : QueueRateStats :=
  let sum (f : QueueRateStats -> Q) := foldl (λ acc r, (acc + f r)%Q) 0%Q rates in
  let drain := effective_drain (sum processed_per_minute) (sum growth_per_minute) in
  {| window_minutes := Z.max window 1;
     processed_per_minute := sum processed_per_minute;
     succeeded_per_minute := sum succeeded_per_minute;
     failed_per_minute := sum failed_per_minute;
     growth_per_minute := sum growth_per_minute;
     effective_drain_per_minute := drain;
     eta_s := eta enqueued drain |}.

(** ** Result counters *)

Record QueueResultStats := {
  rs_processed : Z;
  rs_succeeded : Z;
  rs_panicked : Z;
  rs_failed : Z;
}.
Definition empty_result_stats : QueueResultStats := Build_QueueResultStats 0 0 0 0.

Definition i64_count (n : Z) : Z := default i64_max (i64_try_from n).

Definition result_stats_record (r : WorkerResult) (s : QueueResultStats) : QueueResultStats :=
  let '(Build_QueueResultStats p su pn f) := s in
  let count := i64_count (wr_job_count r) in
  let p := i64_sat_add p count in
  match wr_kind r with
  | Success => Build_QueueResultStats p (i64_sat_add su count) pn f
  | Panicked => Build_QueueResultStats p su (i64_sat_add pn count) (i64_sat_add f count)
  | Failed => Build_QueueResultStats p su pn (i64_sat_add f count)
  end.

(** ** Queue statistics *)

Record DynamicQueueStats := {
  dq_suffix : string;
  dq_enqueued : Z;
  dq_counts : QueueResultStats;
  dq_latency_s : Q;
  dq_rate : QueueRateStats;
}.

Record QueueStats := {
  qst_key : string;
  qst_enqueued : Z;
  qst_counts : QueueResultStats;
  qst_latency_s : Q;
  qst_rate : QueueRateStats;
  qst_queues : list DynamicQueueStats;
}.

Definition QUEUE_LENGTH_SNAPSHOT_TTL_SECS : Z := 120.

Record QueueLengthSnapshot := { sl_enqueued : option Z; sl_refreshed_at : option Z }.
Definition empty_length_snapshot : QueueLengthSnapshot := {| sl_enqueued := None; sl_refreshed_at := None |}.

(** [usize::try_from(i64)]. *)
Definition usize_of_i64 (v : Z) : option Z := if decide (0 <= v) then Some v else None.

Definition fresh_enqueued (now : Z) (s : QueueLengthSnapshot) : option Z :=
  refreshed_at ← sl_refreshed_at s;
  if decide (QUEUE_LENGTH_SNAPSHOT_TTL_SECS < i64_sat_sub now refreshed_at) then None
  else enqueued ← sl_enqueued s; usize_of_i64 enqueued.

Definition queue_base (queue : string) : string :=
  match split_once "#" queue with Some (base, _) => base | None => queue end.

(** One entry of the stats hash. *)
Definition add_counter (stat : string) (value : Z) (c : QueueResultStats) : QueueResultStats :=
  let '(Build_QueueResultStats p su pn f) := c in
  if decide (stat = "processed") then Build_QueueResultStats (i64_wrap (p + value)) su pn f
  else if decide (stat = "succeeded") then Build_QueueResultStats p (i64_wrap (su + value)) pn f
  else if decide (stat = "panicked") then Build_QueueResultStats p su (i64_wrap (pn + value)) f
  else if decide (stat = "failed") then Build_QueueResultStats p su pn (i64_wrap (f + value))
  else c.

Abbreviation stats_state := (gmap string QueueResultStats * gmap string QueueLengthSnapshot)%type.

Definition selected (queues : list string) (queue : string) : bool :=
  existsb (λ q, bool_decide (queue_base q = queue_base queue)) queues.

Definition scan_stat (queues : list string) (filter_by : bool) (s : stats_state) (kv : string * Z) : stats_state :=
  let '(counters, snapshots) := s in
  match rsplit_once ":" (kv.1) with
  | None => s
  | Some (queue, stat) =>
      if filter_by && negb (selected queues queue) then s
      else
        let snap := default empty_length_snapshot (snapshots !! queue) in
        if decide (stat = "enqueued") then
          (counters, <[queue := {| sl_enqueued := Some (kv.2); sl_refreshed_at := sl_refreshed_at snap |}]> snapshots)
        else if decide (stat = "enqueued_at") then
          (counters, <[queue := {| sl_enqueued := sl_enqueued snap; sl_refreshed_at := Some (kv.2) |}]> snapshots)
        else
          (<[queue := add_counter stat (kv.2) (default empty_result_stats (counters !! queue))]> counters, snapshots)
  end.

Definition add_result_stats (a b : QueueResultStats) : QueueResultStats :=
  {| rs_processed := i64_wrap (rs_processed a + rs_processed b);
     rs_succeeded := i64_wrap (rs_succeeded a + rs_succeeded b);
     rs_panicked := i64_wrap (rs_panicked a + rs_panicked b);
     rs_failed := i64_wrap (rs_failed a + rs_failed b) |}.

Definition new_queue_stats (base : string) : QueueStats :=
  {| qst_key := base; qst_enqueued := 0; qst_counts := empty_result_stats; qst_latency_s := 0;
     qst_rate := default_rate; qst_queues := [] |}.

Definition add_to_group (groups : gmap string QueueStats) (qc : string * QueueResultStats) : gmap string QueueStats :=
  let '(queue, counts) := qc in
  let base := queue_base queue in
  let parent := default (new_queue_stats base) (groups !! base) in
  let subs := match split_once "#" queue with
              | Some (_, suffix) =>
                  qst_queues parent ++
                  [{| dq_suffix := suffix; dq_enqueued := 0; dq_counts := counts; dq_latency_s := 0;
                      dq_rate := default_rate |}]
              | None => qst_queues parent
              end in
  <[base := {| qst_key := qst_key parent; qst_enqueued := qst_enqueued parent;
               qst_counts := add_result_stats (qst_counts parent) counts;
               qst_latency_s := qst_latency_s parent; qst_rate := qst_rate parent; qst_queues := subs |}]> groups.

Definition fresh_snapshots (now : Z) (snapshots : gmap string QueueLengthSnapshot) : gmap string Z :=
  omap (fresh_enqueued now) snapshots.

(** A positive snapshot makes its queue visible; a zero one does not. *)
Definition visible_counters (fresh : gmap string Z) (counters : gmap string QueueResultStats)
    : gmap string QueueResultStats :=
  map_fold (λ queue enqueued m,
    if 0 <? enqueued then <[queue := default empty_result_stats (m !! queue)]> m else m) counters fresh.

Definition aggregate_queue_stats (queues : list string) (stats : gmap string Z) (filter_by : bool) (now : Z)
    : list QueueStats * gmap string Z :=
  let counters0 := list_to_map ((λ q, (q, empty_result_stats)) <$> queues) in
  let '(counters, snapshots) :=
    foldl (scan_stat queues filter_by) (counters0, ∅) (map_to_list stats) in
  let fresh := fresh_snapshots now snapshots in
  let groups := foldl add_to_group ∅ (map_to_list (visible_counters fresh counters)) in
  ((map_to_list groups).*2, fresh).

Definition queue_rate_stats (queue : string) (enqueued : Z) (queue_length_hashes : list (gmap string Z))
    (queue_counter_totals : gmap string QueueCounterTotals) : QueueRateStats :=
  let window_start_enqueued :=
    default 0 (hash ← head queue_length_hashes; value ← (hash : gmap string Z) !! queue; usize_of_i64 value) in
  let counters := default empty_queue_counters (queue_counter_totals !! queue) in
  rate_calculate QUEUE_RATE_WINDOW_MINUTES enqueued window_start_enqueued
    (qc_processed counters) (qc_succeeded counters) (qc_failed counters).

(** ** Facts *)

(** The base of a dynamic queue is the text before its first mark. *)
Lemma queue_base_split base suffix :
  has_char "#" base = false -> queue_base (base +:+ "#" +:+ suffix) = base.
Proof.
  intros H. unfold queue_base. rewrite string_app_cons, string_app_nil_l. by rewrite split_once_app.
Qed.

Lemma effective_drain_nonneg p g : (0 <= effective_drain p g)%Q.
Proof.
  unfold effective_drain. destruct (Qpos p); [apply Q.le_max_r | apply Qle_refl].
Qed.

Lemma Qpos_spec q : Qpos q = true <-> (0 < q)%Q.
Proof.
  unfold Qpos. rewrite negb_true_iff. split; intros H.
  - destruct (Qlt_le_dec 0 q) as [|Hle]; [done|]. apply Qle_bool_iff in Hle. congruence.
  - destruct (Qle_bool q 0) eqn:E; [|done]. apply Qle_bool_iff in E. exfalso. by eapply Qlt_not_le.
Qed.

(** An estimate exists exactly when nothing waits or the queue is draining,
    and it is never negative. *)
Theorem eta_spec enqueued drain :
  (0 <= enqueued) ->
  (is_Some (eta enqueued drain) <-> enqueued = 0 \/ (0 < drain)%Q) /\
  (forall e, eta enqueued drain = Some e -> (0 <= e)%Q).
Proof.
  intros Hn. unfold eta. destruct (Z.eqb_spec enqueued 0) as [->|Hz].
  { split; [split; eauto|]. intros e [= <-]. apply Qle_refl. }
  destruct (Qpos drain) eqn:E.
  - apply Qpos_spec in E. split; [split; eauto|]. intros e [= <-].
    apply Qle_shift_div_l; [|rewrite Qmult_0_l; change 0%Q with (inject_Z 0); rewrite <- Zle_Qle; lia].
    apply Qlt_shift_div_l; [reflexivity|]. by rewrite Qmult_0_l.
  - split; [|done]. split; [by intros [? ?]|]. intros [?|H%Qpos_spec]; [done|congruence].
Qed.

(** What a run of results adds to a queue's counters, while they do not
    saturate. *)
Theorem result_stats_accounts rs s :
  Forall (λ r, 0 <= wr_job_count r) rs ->
  0 <= rs_succeeded s -> 0 <= rs_failed s ->
  rs_processed s = rs_succeeded s + rs_failed s ->
  rs_processed s + foldr Z.add 0 (wr_job_count <$> rs) <= i64_max ->
  let s' := foldl (λ s r, result_stats_record r s) s rs in
  rs_processed s' = rs_processed s + foldr Z.add 0 (wr_job_count <$> rs) /\
  rs_processed s' = rs_succeeded s' + rs_failed s'.
Proof.
  revert s. induction rs as [|r rs IH]; intros s Hpos Hs Hf Heq Hmax; cbn [foldl fmap list_fmap foldr] in *.
  { lia. }
  apply Forall_cons in Hpos as [Hr Hpos].
  assert (0 <= foldr Z.add 0 (wr_job_count <$> rs)) as Hsum.
  { clear -Hpos. induction Hpos; cbn in *; lia. }
  assert (i64_count (wr_job_count r) = wr_job_count r) as Hc.
  { unfold i64_count, i64_try_from. rewrite decide_True by lia. done. }
  assert (let s1 := result_stats_record r s in
    0 <= rs_succeeded s1 /\ 0 <= rs_failed s1 /\ rs_processed s1 = rs_succeeded s1 + rs_failed s1 /\
    rs_processed s1 = rs_processed s + wr_job_count r) as (H1 & H2 & H3 & H4).
  { destruct s, r as [[] ? ? ? ?]; cbn in *; rewrite Hc; unfold i64_sat_add, i64_sat, i64_min, i64_max in *; lia. }
  destruct (IH (result_stats_record r s)) as [E1 E2]; [done..|lia|]. split; lia.
Qed.
