(* ===== verification/StatsStorage.v ===== *)
(** * Statistics and metrics in Redis (the statistics methods of [storage_internal.rs])

    Reads decode integers; a value that is not one is a Redis client error
    ([reply_type_error]). Times of reads are arguments; a loop that reads the
    clock per item takes one reading for all of them. *)
From Stdlib Require Import QArith Qminmax.
From S2P Require Import Prelude Errors Redis Envelope Queue Keys Scripts Storage Enqueue Metrics Stats.
Open Scope Z_scope.

Definition STATS_READ_BATCH_SIZE : nat := 500.

(** The client's decoding error: not I/O, not a server error kind. *)
Definition reply_type_error : OxanaError :=
  DeadpoolRedisError {| is_io_error := false; error_kind := None |}.

Definition decode_int (text : string) : result OxanaError Z :=
  match z_of_string text with
  | Some n => if decide (i64_min <= n <= i64_max) then Ok n else Err reply_type_error
  | None => Err reply_type_error
  end.

Definition decode_hash (l : list (string * string)) : result OxanaError (gmap string Z) :=
  res_map list_to_map (collect ((fun p => res_map (pair p.1) (decode_int p.2)) <$> l)).

Section StatsOps.
Context `{S : Serde}.
Variable st : StorageInternal.
Local Abbreviation ks := (skeys st).
Open Scope prog_scope.

(** ** Metrics reads *)

Definition read_hashes (keys : list string) : rprog (list (gmap string Z)) :=
  match keys with
  | [] => lift (Ok [])
  | _ =>
      replies <-? pipe_query (HGETALL <$> keys) ;;
      lift (collect (decode_hash <$> replies))
  end.

Definition metrics_counter_hashes (minutes : list Z) := read_hashes (metrics_counter_key ks <$> minutes).
Definition queue_length_metric_hashes (minutes : list Z) := read_hashes (metrics_queue_length_key ks <$> minutes).
Definition queue_counter_metric_hashes (minutes : list Z) := read_hashes (metrics_queue_counter_key ks <$> minutes).

Definition decode_optional (v : option string) : result OxanaError (option Z) :=
  transpose (decode_int <$> v).

(** The present fields of one minute. *)
Definition fields_found (fields : list string) (values : list (option Z)) : gmap string Z :=
  list_to_map (omap (fun p : string * option Z => (fun v => (p.1, v)) <$> p.2) (zip fields values)).

(** [metrics_counter_hashes_for]: all the identity's fields of every minute
    are read in one pipeline, and cut into one chunk per minute. *)
Definition metrics_counter_hashes_for (minutes : list Z) (worker : string) : rprog (list (gmap string Z)) :=
  match minutes with
  | [] => lift (Ok [])
  | _ =>
      let fields := metric_field worker <$> JOB_METRIC_KEYS in
      replies <-? pipe_query (concat ((fun minute => HGET (metrics_counter_key ks minute) <$> fields) <$> minutes)) ;;
      values <-? lift (collect (decode_optional <$> replies)) ;;
      lift (Ok (fields_found fields <$> chunks (length fields) values))
  end.

(** [metrics_histogram_counts_for]. *)
Definition metrics_histogram_counts_for (minutes : list Z) (worker : string) : rprog (list Z) :=
  match minutes with
  | [] => lift (Ok (replicate HISTOGRAM_BUCKET_COUNT 0))
  | _ =>
      values <-? pipe_query ((fun minute =>
        BITFIELD_GET (metrics_histogram_key ks (field_key worker) minute) histogram_fetches) <$> minutes) ;;
      lift (Ok (foldl add_histogram (replicate HISTOGRAM_BUCKET_COUNT 0) values))
  end.

Record JobMetricsSnapshot := {
  snap_starts_at : Z; snap_ends_at : Z; snap_minutes : nat;
  snap_totals : JobMetricsTotals; snap_series : list JobMetricsPoint;
  snap_workers : list WorkerMetricsSummary;
}.
Record JobMetricsDetail := {
  det_worker : string; det_starts_at : Z; det_ends_at : Z; det_minutes : nat;
  det_totals : JobMetricsTotals; det_series : list JobMetricsPoint;
  det_histogram : list JobMetricsHistogramBucket;
}.
Record QueueLengthMetricsSnapshot := {
  qls_starts_at : Z; qls_ends_at : Z; qls_minutes : nat; qls_queues : list QueueLengthMetricsSeries;
}.

Definition window_start (minutes : list Z) : Z := default 0 (head minutes) * 60.
Definition window_end (minutes : list Z) : Z := default 0 (last minutes) * 60.

Definition job_metrics (query now : Z) : rprog JobMetricsSnapshot :=
  _ <-? stats_connection st ;;
  let minutes := metric_minutes now query in
  hashes <-? metrics_counter_hashes minutes ;;
  let a := aggregate_counter_hashes minutes hashes None in
  lift (Ok {| snap_starts_at := window_start minutes; snap_ends_at := window_end minutes;
              snap_minutes := length minutes; snap_totals := ag_totals a; snap_series := ag_series a;
              snap_workers := ag_workers a |}).

Definition job_metrics_for (worker : string) (query now : Z) : rprog JobMetricsDetail :=
  _ <-? stats_connection st ;;
  let minutes := metric_minutes now query in
  hashes <-? metrics_counter_hashes_for minutes worker ;;
  let a := aggregate_counter_hashes minutes hashes (Some worker) in
  histogram <-? metrics_histogram_counts_for minutes worker ;;
  lift (Ok {| det_worker := worker; det_starts_at := window_start minutes; det_ends_at := window_end minutes;
              det_minutes := length minutes; det_totals := ag_totals a; det_series := ag_series a;
              det_histogram := histogram_buckets_from_counts histogram |}).

Definition queue_length_metrics (query now : Z) : rprog QueueLengthMetricsSnapshot :=
  _ <-? stats_connection st ;;
  let minutes := metric_minutes now query in
  hashes <-? queue_length_metric_hashes minutes ;;
  lift (Ok {| qls_starts_at := window_start minutes; qls_ends_at := window_end minutes;
              qls_minutes := length minutes; qls_queues := queue_length_series_from_hashes minutes hashes |}).

(** ** Metrics writes *)

(** [redis_metric_increment]. *)
Definition redis_metric_increment (value : Z) : Z := i64_count value.

Definition counter_commands (key : string) (field : string -> string) (incs : list (string * Z)) : list (rcmd unit) :=
  ((fun p : string * Z => HINCRBY key (field p.1) (redis_metric_increment p.2))
     <$> filter (fun p : string * Z => 0 < p.2) incs)
  ++ [EXPIRE key METRICS_RETENTION_SECS].

Definition job_metric_commands (entry : (Z * string) * PendingJobMetrics) : list (rcmd unit) :=
  let '((minute, worker), metrics) := entry in
  counter_commands (metrics_counter_key ks minute) (metric_field worker) (job_increments metrics)
  ++ match histogram_increments (pj_histogram metrics) with
     | [] => []
     | incs => [BITFIELD_INCR (metrics_histogram_key ks (field_key worker) minute) incs;
                EXPIRE (metrics_histogram_key ks (field_key worker) minute) METRICS_RETENTION_SECS]
     end.

Definition queue_metric_commands (entry : (Z * string) * QueueCounterTotals) : list (rcmd unit) :=
  let '((minute, queue), metrics) := entry in
  counter_commands (metrics_queue_counter_key ks minute) (queue_metric_field queue) (queue_increments metrics).

Definition flush_job_metrics (b : JobMetricsBuffer) : rprog unit :=
  if buffer_is_empty b then lift (Ok tt)
  else
    _ <-? stats_connection st ;;
    pipe (concat (job_metric_commands <$> map_to_list (entries b))
          ++ concat (queue_metric_commands <$> map_to_list (queue_entries b))).

Definition result_stat_commands (entry : string * QueueResultStats) : list (rcmd unit) :=
  let '(queue, s) := entry in
  (fun p : string * Z => HINCRBY (stats ks) (queue +:+ ":" +:+ p.1) p.2)
    <$> filter (fun p : string * Z => 0 < p.2)
          [("processed"%string, rs_processed s); ("succeeded"%string, rs_succeeded s);
           ("panicked"%string, rs_panicked s); ("failed"%string, rs_failed s)].

Definition flush_result_stats (stats : gmap string QueueResultStats) : rprog unit :=
  if decide (stats = ∅) then lift (Ok tt)
  else
    _ <-? stats_connection st ;;
    match concat (result_stat_commands <$> map_to_list stats) with
    | [] => lift (Ok tt)
    | commands => pipe commands
    end.

Definition queue_length_commands (refreshed_at : Z) (length_key : string) (entry : string * Z) : list (rcmd unit) :=
  let '(queue, count) := entry in
  [HSET (stats ks) (queue +:+ ":enqueued") (z_to_string count);
   HSET (stats ks) (queue +:+ ":enqueued_at") (z_to_string refreshed_at);
   HSET length_key queue (z_to_string count)].

Definition write_queue_length_stats (lengths : gmap string Z) (refreshed_at : Z) : rprog unit :=
  let length_key := metrics_queue_length_key ks (refreshed_at / 60) in
  pipe (concat (queue_length_commands refreshed_at length_key <$> map_to_list lengths)
        ++ [EXPIRE length_key METRICS_RETENTION_SECS]).

Fixpoint read_lengths (queues : list string) (lengths : gmap string Z) : rprog (gmap string Z) :=
  match queues with
  | [] => lift (Ok lengths)
  | queue :: queues' =>
      count <-? call (LLEN (namespace_queue ks queue)) ;;
      read_lengths queues' (<[queue := Z.of_nat count]> lengths)
  end.

(** [refresh_queue_length_stats]; sorting and deduplicating the queues only
    fixes the order of the reads. *)
Definition refresh_queue_length_stats (queues : list string) (now : Z) : rprog (gmap string Z) :=
  match queues with
  | [] => lift (Ok ∅)
  | _ =>
      _ <-? connection ;;
      lengths <-? read_lengths (remove_dups queues) ∅ ;;
      _ <-? (if has_stats_pool st then stats_connection st else lift (Ok tt)) ;;
      _ <-? write_queue_length_stats lengths now ;;
      lift (Ok lengths)
  end.

(** ** Queue statistics *)

Record QueueStatsInputs := {
  inp_stats : gmap string Z;
  inp_length_hashes : list (gmap string Z);
  inp_counter_totals : gmap string QueueCounterTotals;
}.

Definition queue_stats_inputs (rate_minutes : list Z) : rprog QueueStatsInputs :=
  _ <-? (if has_stats_pool st then stats_connection st else lift (Ok tt)) ;;
  reply <-? call (HGETALL (stats ks)) ;;
  counters <-? lift (decode_hash reply) ;;
  lengths <-? queue_length_metric_hashes rate_minutes ;;
  counter_hashes <-? queue_counter_metric_hashes rate_minutes ;;
  lift (Ok {| inp_stats := counters; inp_length_hashes := lengths;
              inp_counter_totals := aggregate_queue_counter_hashes counter_hashes |}).

Definition latency_s_of (now_micros : Z) (e : JobEnvelope) : Q :=
  (now_micros - effective_scheduled_at_micros (meta e)) # 1000000.

(** Pairing heads with the envelopes read for them and the uncached lengths,
    in key order. *)
Fixpoint live_values (now_micros : Z) (snapshots : gmap string Z) (keys : list string)
    (heads : list (option string)) (lengths : list nat) (envelopes : list (option JobEnvelope))
    (live : gmap string (Z * Q)) : gmap string (Z * Q) :=
  match keys, heads with
  | key :: keys', head :: heads' =>
      let '(latency, envelopes') :=
        match head with
        | Some _ =>
            (match envelopes with Some e :: _ => latency_s_of now_micros e | _ => 0%Q end, tl envelopes)
        | None => (0%Q, envelopes)
        end in
      let '(count, lengths') :=
        match snapshots !! key with
        | Some n => (n, lengths)
        | None => (Z.of_nat (List.hd 0%nat lengths), tl lengths)
        end in
      live_values now_micros snapshots keys' heads' lengths' envelopes' (<[key := (count, latency)]> live)
  | _, _ => live
  end.

Fixpoint lengths_and_latencies_chunks (now_micros : Z) (snapshots : gmap string Z) (cs : list (list string))
    (live : gmap string (Z * Q)) : rprog (gmap string (Z * Q)) :=
  match cs with
  | [] => lift (Ok live)
  | keys :: cs' =>
      heads <-? pipe_query ((fun key => LINDEX (namespace_queue ks key) (-1)) <$> keys) ;;
      let missing := filter (fun key => snapshots !! key = None) keys in
      lengths <-? (match missing with
                   | [] => lift (Ok [])
                   | _ => pipe_query ((fun key => LLEN (namespace_queue ks key)) <$> missing)
                   end) ;;
      envelopes <-? jobs_w_conn st (omap (fun head => head) heads) ;;
      lengths_and_latencies_chunks now_micros snapshots cs'
        (live_values now_micros snapshots keys heads lengths envelopes live)
  end.

Definition queue_lengths_and_latencies (keys : list string) (snapshots : gmap string Z) (now_micros : Z)
    : rprog (gmap string (Z * Q)) :=
  lengths_and_latencies_chunks now_micros snapshots (chunks STATS_READ_BATCH_SIZE keys) ∅.

(** The keys whose lengths are read: a queue, or each of its sub-queues. *)
Definition dynamic_key (base suffix : string) : string := base +:+ "#" +:+ suffix.
Definition live_keys (values : list QueueStats) : list string :=
  concat ((fun v => match qst_queues v with
                    | [] => [qst_key v]
                    | subs => (fun q => dynamic_key (qst_key v) (dq_suffix q)) <$> subs
                    end) <$> values).

Definition fill_dynamic (live : gmap string (Z * Q)) (rate : string -> Z -> QueueRateStats) (base : string)
    (q : DynamicQueueStats) : DynamicQueueStats :=
  let key := dynamic_key base (dq_suffix q) in
  let '(n, latency) := default (0, 0%Q) (live !! key) in
  {| dq_suffix := dq_suffix q; dq_enqueued := n; dq_counts := dq_counts q; dq_latency_s := latency;
     dq_rate := rate key n |}.

Definition suffix_le (a b : DynamicQueueStats) : Prop := String.leb (dq_suffix a) (dq_suffix b) = true.
#[local] Instance suffix_le_dec : RelDecision suffix_le.
Proof. intros a b. unfold suffix_le. apply _. Defined.
Definition key_le (a b : QueueStats) : Prop := String.leb (qst_key a) (qst_key b) = true.
#[local] Instance key_le_dec : RelDecision key_le.
Proof. intros a b. unfold key_le. apply _. Defined.

(** The body of the loop of [build_queue_stats]; without rates the default
    rate stays. *)
Definition fill_queue (live : gmap string (Z * Q)) (rate : option (string -> Z -> QueueRateStats))
    (v : QueueStats) : QueueStats :=
  let rate_of := default (fun _ _ => default_rate) rate in
  match qst_queues v with
  | [] =>
      let '(n, latency) := default (0, 0%Q) (live !! qst_key v) in
      {| qst_key := qst_key v; qst_enqueued := n; qst_counts := qst_counts v; qst_latency_s := latency;
         qst_rate := rate_of (qst_key v) n; qst_queues := [] |}
  | subs =>
      let subs := fill_dynamic live rate_of (qst_key v) <$> subs in
      let total := foldl (fun acc q => acc + dq_enqueued q) (qst_enqueued v) subs in
      {| qst_key := qst_key v; qst_enqueued := total; qst_counts := qst_counts v;
         qst_latency_s := foldl (fun m q => if Qle_bool (dq_latency_s q) m then m else dq_latency_s q)
                            (qst_latency_s v) subs;
         qst_rate := match rate with
                     | Some _ => rate_aggregate QUEUE_RATE_WINDOW_MINUTES total (dq_rate <$> subs)
                     | None => default_rate
                     end;
         qst_queues := merge_sort suffix_le subs |}
  end.

Definition build_queue_stats (queues : list string) (filter_by include_rates : bool) (now now_micros : Z)
    : rprog (list QueueStats) :=
  let rate_minutes := if include_rates then metric_minutes now QUEUE_RATE_WINDOW_MINUTES else [] in
  inputs <-? queue_stats_inputs rate_minutes ;;
  let '(values, snapshots) := aggregate_queue_stats queues (inp_stats inputs) filter_by now in
  live <-? queue_lengths_and_latencies (live_keys values) snapshots now_micros ;;
  let rate := if include_rates
              then Some (fun key n => queue_rate_stats key n (inp_length_hashes inputs) (inp_counter_totals inputs))
              else None in
  lift (Ok (merge_sort key_le (fill_queue live rate <$> values))).

Fixpoint queues_matching (patterns : list string) : rprog (list string) :=
  match patterns with
  | [] => lift (Ok [])
  | pattern :: patterns' =>
      qs <-? queues_w_conn st pattern ;;
      rest <-? queues_matching patterns' ;;
      lift (Ok (qs ++ rest))
  end.

#[local] Instance string_leb_dec : RelDecision (fun a b => String.leb a b = true).
Proof. intros a b. apply _. Defined.

Definition stats_queues_for (patterns : list string) (now now_micros : Z) : rprog (list QueueStats) :=
  _ <-? connection ;;
  matched <-? queues_matching patterns ;;
  build_queue_stats (remove_dups (merge_sort (fun a b => String.leb a b = true) matched)) true true now now_micros.

Definition stats_queues (now now_micros : Z) : rprog (list QueueStats) :=
  _ <-? connection ;;
  qs <-? queues_w_conn st "*" ;;
  build_queue_stats qs false true now now_micros.

(** The global sums of [stats_with_rates]. *)
Definition max_latency (values : list QueueStats) : Q :=
  foldl (fun m v => foldl (fun m q => if Qle_bool (dq_latency_s q) m then m else dq_latency_s q)
                      (if Qle_bool (qst_latency_s v) m then m else qst_latency_s v) (qst_queues v)) 0%Q values.
Definition total_processed (values : list QueueStats) : Z :=
  foldl (fun n v => i64_wrap (n + rs_processed (qst_counts v))) 0 values.
Definition total_failed (values : list QueueStats) : Z :=
  foldl (fun n v => i64_wrap (n + rs_failed (qst_counts v))) 0 values.
Definition total_enqueued (values : list QueueStats) : Z :=
  foldl (fun n v => u64_wrap (n + qst_enqueued v)) 0 values.
End StatsOps.
