(* ===== verification/Resilience.v ===== *)
(** * Tolerating Redis failures ([track_redis_result], [poll_redis] and
    [register] of [storage_internal.rs], [claimed_connection] and
    [pool_retry_config.rs])

    The shared counter of consecutive failures is threaded through as an
    integer. Loops that wait run over the list of what happens next. *)
From S2P Require Import Prelude Errors Redis.
Open Scope Z_scope.

(** ** The failure counter *)

Definition record_redis_success (failures : Z) : Z := 0.

(** [fetch_add(1) + 1] on an AtomicU32, and whether the tolerance is reached. *)
Definition record_redis_failure (failures tolerance : Z) : bool * Z :=
  let count := u32_wrap (failures + 1) in
  (tolerance <=? count, count).

Definition track_redis_result {T} (r : result OxanaError T) (tolerance failures : Z)
    : result OxanaError (option T) * Z :=
  match r with
  | Ok val => (Ok (Some val), record_redis_success failures)
  | Err e =>
      let '(exceeded, count) := record_redis_failure failures tolerance in
      (if exceeded : bool then Err e else Ok None, count)
  end.

(** ** [poll_redis]

    Each tick runs the operation; the end of the list is the cancellation. *)
Fixpoint poll_redis {T} (tolerance : Z) (ticks : list (rprog T)) (failures : Z)
    : prog (result OxanaError unit * Z) :=
  match ticks with
  | [] => Ret (Ok tt, failures)
  | operation :: ticks' =>
      pbind operation (fun r =>
      match track_redis_result r tolerance failures with
      | (Ok _, failures') => poll_redis tolerance ticks' failures'
      | (Err e, failures') => Ret (Err e, failures')
      end)
  end.

(** [register]: pings until one lands; the list holds one ping for each round
    in which the token is not cancelled. *)
Fixpoint register (tolerance : Z) (pings : list (rprog unit)) (failures : Z)
    : prog (result OxanaError bool * Z) :=
  match pings with
  | [] => Ret (Ok false, failures)
  | ping :: pings' =>
      pbind ping (fun r =>
      match track_redis_result r tolerance failures with
      | (Ok (Some _), failures') => Ret (Ok true, failures')
      | (Ok None, failures') => register tolerance pings' failures'
      | (Err e, failures') => Ret (Err e, failures')
      end)
  end.

(** ** [PoolRetryConfig] *)

Record PoolRetryConfig := {
  retry_window : option Duration;
  initial_backoff : Duration;
  max_backoff : Duration;
}.

Definition default_pool_retry : PoolRetryConfig :=
  {| retry_window := None; initial_backoff := from_millis 100; max_backoff := from_secs 1 |}.

(** [validate]; [fits d] is [Instant::now().checked_add(d).is_some()]. *)
Definition validate (fits : Duration -> bool) (c : PoolRetryConfig) : result OxanaError unit :=
  if match retry_window c with
     | Some window => (window =? 0) || negb (fits window)
     | None => false
     end
  then Err (ConfigError "pool retry window must be positive and fit a monotonic deadline")
  else if (initial_backoff c <? from_millis 1) || (max_backoff c <? initial_backoff c)
          || negb (fits (max_backoff c))
  then Err (ConfigError "pool retry backoff must satisfy 1ms <= initial_backoff <= max_backoff and fit a monotonic deadline")
  else Ok tt.

(** ** [claimed_connection] *)

Record Timeouts := { wait : option Duration; create : option Duration; recycle : option Duration }.

Definition MIN_CLAIMED_CONNECTION_RETRY_WINDOW : Duration := from_secs 2.

Definition retry_window_of (t : Timeouts) (c : PoolRetryConfig) : Duration :=
  match retry_window c with
  | Some w => w
  | None =>
      let longest := foldr Z.max 0 (omap (fun d : option Z => d) [wait t; create t; recycle t]) in
      Z.max (duration_sat_mul longest 2) MIN_CLAIMED_CONNECTION_RETRY_WINDOW
  end.

(** Errors worth another checkout. *)
Definition retryable_checkout (e : PoolError) : bool :=
  match e with
  | PoolTimeout => true
  | PoolBackend e => is_io_error e
  | PoolOther => false
  end.

(** The jittered delay; [jitter] is a byte. *)
Definition checkout_delay (backoff jitter : Z) : Duration :=
  let half := backoff / 2 in half + (backoff - half) / 255 * jitter.

Definition next_backoff (c : PoolRetryConfig) (backoff : Duration) : Duration :=
  Z.min (duration_sat_mul backoff 2) (max_backoff c).

(** What a checkout attempt does: how long it takes and how it ends; and the
    byte of jitter drawn before it, which the first attempt does not use. *)
Record attempt := {
  jitter : Z;
  takes : Duration;
  outcome : result PoolError unit;
}.

(** The elapsed time at the answer, and the answer; [None] when the attempts
    listed are used up before the loop has answered. An attempt that would end
    after the deadline ends at the deadline. *)
Fixpoint checkout_loop (c : PoolRetryConfig) (deadline elapsed backoff : Duration)
    (last : result PoolError unit) (attempts : list attempt) : option (Duration * result OxanaError unit) :=
  match last with
  | Ok _ => Some (elapsed, Ok tt)
  | Err e =>
      if retryable_checkout e then
        match attempts with
        | [] => None
        | a :: attempts' =>
            let finish := elapsed + checkout_delay backoff (jitter a) + takes a in
            if finish <=? deadline
            then checkout_loop c deadline finish (next_backoff c backoff) (outcome a) attempts'
            else Some (deadline, Err (DeadpoolRedisPoolError e))
        end
      else Some (elapsed, Err (DeadpoolRedisPoolError e))
  end.

Definition timed_out : OxanaError := DeadpoolRedisError {| is_io_error := true; error_kind := None |}.

Definition claimed_checkout (config : option PoolRetryConfig) (fits : Duration -> bool) (t : Timeouts)
    (attempts : list attempt) : option (Duration * result OxanaError unit) :=
  match attempts with
  | [] => None
  | a :: attempts' =>
      match config with
      | None => Some (takes a, map_err DeadpoolRedisPoolError (outcome a))
      | Some c =>
          let deadline := retry_window_of t c in
          if negb (fits deadline) then Some (0, Err (ConfigError "pool retry deadline is out of range"))
          else if takes a <=? deadline
          then checkout_loop c deadline (takes a) (initial_backoff c) (outcome a) attempts'
          else Some (deadline, Err timed_out)
      end
  end.

(** ** Facts *)

(** The loops stop with an error exactly when [tolerance] failures arrive in a
    row. *)
Lemma track_success {T} (v : T) tolerance failures :
  track_redis_result (Ok v) tolerance failures = (Ok (Some v), 0).
Proof. done. Qed.

Lemma track_failure {T} e tolerance failures : 0 <= failures < u32_max ->
  @track_redis_result T (Err e) tolerance failures =
    (if tolerance <=? failures + 1 then Err e else Ok None, failures + 1).
Proof.
  intros H. unfold track_redis_result, record_redis_failure.
  rewrite u32_wrap_small by (unfold u32_max in *; lia). done.
Qed.

(** Folding a run of outcomes through the counter. *)
Fixpoint track_all {T} (tolerance failures : Z) (rs : list (result OxanaError T)) : result OxanaError Z :=
  match rs with
  | [] => Ok failures
  | r :: rs' =>
      match track_redis_result r tolerance failures with
      | (Ok _, failures') => track_all tolerance failures' rs'
      | (Err e, _) => Err e
      end
  end.

(** Redis failures are tolerated until [tolerance] of them come in a row: a run
    of fewer failures after a success never stops the caller, and the run of
    [tolerance] failures always does, with the last one's error. *)
Theorem failure_tolerance {T} (tolerance : Z) (es : list OxanaError) (e : OxanaError) :
  1 <= tolerance <= u32_max ->
  Z.of_nat (length es) = tolerance - 1 ->
  @track_all T tolerance 0 (Err <$> es) = Ok (tolerance - 1) /\
  @track_all T tolerance 0 (Err <$> (es ++ [e])) = Err e.
Proof.
  intros Ht Hlen.
  assert (forall es failures rest, 0 <= failures -> failures + Z.of_nat (length es) < tolerance ->
    @track_all T tolerance failures ((Err <$> es) ++ rest) = track_all tolerance (failures + Z.of_nat (length es)) rest)
    as Hrun.
  { clear es e Hlen. induction es as [|e es IH]; intros failures rest H0 Hlt.
    - cbn [length] in *. by rewrite Z.add_0_r.
    - cbn [fmap list_fmap app track_all length] in *. rewrite track_failure by lia.
      replace (tolerance <=? failures + 1) with false by (symmetry; apply Z.leb_gt; lia).
      change (list_fmap OxanaError (result OxanaError T) Err es) with (Err (A:=T) <$> es).
      rewrite IH by lia. f_equal. lia. }
  split.
  - rewrite <- (app_nil_r (Err <$> es)), Hrun by lia. cbn. f_equal. lia.
  - rewrite fmap_app, Hrun by lia. cbn [fmap list_fmap track_all].
    rewrite track_failure by lia.
    by replace (tolerance <=? 0 + Z.of_nat (length es) + 1) with true by (symmetry; apply Z.leb_le; lia).
Qed.

Lemma checkout_delay_bounds backoff j : 0 <= backoff -> 0 <= j <= 255 ->
  backoff / 2 <= checkout_delay backoff j <= backoff.
Proof.
  intros Hb Hj. unfold checkout_delay.
  assert (0 <= backoff / 2 <= backoff) by (split; [apply Z.div_pos|apply Z.div_le_upper_bound]; lia).
  assert (0 <= (backoff - backoff / 2) / 255) by (apply Z.div_pos; lia).
  assert ((backoff - backoff / 2) / 255 * 255 <= backoff - backoff / 2).
  { rewrite Z.mul_comm. apply Z.mul_div_le. lia. }
  nia.
Qed.

Section Checkout.
Context (c : PoolRetryConfig) (Hmin : from_millis 1 <= initial_backoff c)
  (Hmax : initial_backoff c <= max_backoff c).

Lemma next_backoff_bounds backoff :
  from_millis 1 <= backoff <= max_backoff c -> max_backoff c <= duration_max ->
  from_millis 1 <= next_backoff c backoff <= max_backoff c.
Proof. unfold next_backoff, duration_sat_mul, from_millis in *. lia. Qed.

(** C40. A checkout answers by its deadline, and its attempts are bounded: every
    delay is at least half a millisecond, so a list of more attempts than half
    milliseconds in the window is never used up. *)
Theorem checkout_loop_deadline deadline : max_backoff c <= duration_max ->
  forall attempts elapsed backoff last,
  0 <= elapsed <= deadline -> from_millis 1 <= backoff <= max_backoff c ->
  Forall (fun a => 0 <= jitter a <= 255 /\ 0 <= takes a) attempts ->
  (forall t r, checkout_loop c deadline elapsed backoff last attempts = Some (t, r) -> t <= deadline) /\
  ((deadline - elapsed) / 500000 < Z.of_nat (length attempts) ->
   is_Some (checkout_loop c deadline elapsed backoff last attempts)).
Proof.
  intros Hdm. induction attempts as [|a attempts IH]; intros elapsed backoff last He Hb Hall; cbn [checkout_loop].
  - destruct last as [|e]; [|destruct (retryable_checkout e)]; (split; [intros; simplify_eq; lia|]); eauto.
    cbn [length]. assert (0 <= (deadline - elapsed) / 500000) by (apply Z.div_pos; lia). lia.
  - apply Forall_cons in Hall as [[Hj Ht] Hall].
    destruct last as [|e]; [|destruct (retryable_checkout e)]; try (split; [intros; simplify_eq; lia|by eauto]).
    pose proof (checkout_delay_bounds backoff (jitter a) ltac:(unfold from_millis in *; lia) Hj) as Hd.
    assert (500000 <= backoff / 2) by (apply Z.div_le_lower_bound; unfold from_millis in *; lia).
    destruct (_ <=? deadline) eqn:E; [|split; [intros; simplify_eq; lia|by eauto]].
    apply Z.leb_le in E.
    destruct (IH (elapsed + checkout_delay backoff (jitter a) + takes a) (next_backoff c backoff) (outcome a))
      as [IH1 IH2]; [lia|by apply next_backoff_bounds|done|]. split; [done|]. intros Hlen. apply IH2.
    cbn [length] in Hlen. rewrite Nat2Z.inj_succ in Hlen.
    assert ((deadline - (elapsed + checkout_delay backoff (jitter a) + takes a)) / 500000
      <= (deadline - elapsed + (-1) * 500000) / 500000) as Hle by (apply Z.div_le_mono; lia).
    rewrite Z.div_add in Hle by lia. lia.
Qed.
End Checkout.
