(* ===== verification/Recovery.v ===== *)
(** * Processes, heartbeats, recovery and cleanup ([storage_internal.rs])

    Scores of the process set and thresholds are in milliseconds. The JSON
    codec of [Process] is the parameter [ProcessSerde]. *)
From Stdlib Require Import QArith Qminmax.
From S2P Require Import Prelude Errors Redis Envelope Queue Keys Scripts Storage Enqueue Metrics Stats StatsStorage.
Open Scope Z_scope.

Class ProcessSerde := {
  process_to_string : Process -> result string string;
  process_from_str : string -> result string Process;
}.

Definition JOB_EXPIRE_TIME : Z := 7 * 24 * 3600.

Section RecoveryOps.
Context `{S : Serde} `{P : ProcessSerde}.
Variable st : StorageInternal.
Local Abbreviation ks := (skeys st).
Open Scope prog_scope.

(** ** Heartbeats *)

Definition ping (now_ms now : Z) : rprog unit :=
  _ <-? connection ;;
  let process := current_process now st in
  text <-? lift (map_err JsonError (process_to_string process)) ;;
  pipe [ZADD (processes ks) now_ms (process_id process); HSET (processes_data ks) (process_id process) text].

Definition self_cleanup : rprog unit :=
  _ <-? connection ;;
  pipe [ZREM (processes ks) (own_process_id st); HDEL (processes_data ks) [own_process_id st]].

Fixpoint parse_processes (records : list (option string)) : result OxanaError (list Process) :=
  match records with
  | [] => Ok []
  | None :: records' => parse_processes records'
  | Some text :: records' =>
      res_bind (map_err JsonError (process_from_str text)) (fun p =>
      res_map (cons p) (parse_processes records'))
  end.

Fixpoint read_process_chunks (cs : list (list string)) : rprog (list Process) :=
  match cs with
  | [] => lift (Ok [])
  | ids :: cs' =>
      records <-? call (HMGET (processes_data ks) ids) ;;
      ps <-? lift (parse_processes records) ;;
      rest <-? read_process_chunks cs' ;;
      lift (Ok (ps ++ rest))
  end.

Definition processes_w_conn (threshold now_ms : Z) : rprog (list Process) :=
  ids <-? call (ZRANGEBYSCORE (processes ks) (now_ms - threshold) now_ms) ;;
  read_process_chunks (chunks STATS_READ_BATCH_SIZE (ids.*1)).

Definition processes_alive (threshold now_ms : Z) : rprog (list Process) :=
  _ <-? connection ;; processes_w_conn threshold now_ms.

(** ** Dead processes *)

(** [dead_process_ids_in]: the process set is read after the scan that gave
    the processing lists. *)
Definition dead_among (lists : list string) (registered : list (string * Z)) (threshold : Z) : list string :=
  (filter (fun p : string * Z => p.2 < threshold) registered).*1
  ++ filter (fun pid => pid ∉ registered.*1) (process_id_of_key <$> lists).

Definition dead_process_ids_in (lists : gset string) (threshold now_ms : Z) : rprog (list string) :=
  registered <-? call (ZRANGE (processes ks) 0 (-1)) ;;
  lift (Ok (dead_among (elements lists) registered (now_ms - threshold))).

Definition dead_process_ids (threshold now_ms : Z) : rprog (list string) :=
  lists <-? scan_keys_w_conn (processing_queue_prefix ks +:+ ":*") ;;
  dead_process_ids_in lists threshold now_ms.

(** ** Resurrection *)

Definition resurrect_flag (envelope : option JobEnvelope) : bool :=
  match envelope with Some e => resurrect (meta e) | None => false end.

Fixpoint resurrect_claims (processing : string) (ids : list JobId) (count : nat) : rprog nat :=
  match ids with
  | [] => lift (Ok count)
  | jid :: ids' =>
      r <- transition_snapshot st jid ;;
      match r with
      | Err e =>
          if is_json_error e then resurrect_claims processing ids' count else lift (Err e)
      | Ok (payload, envelope) =>
          moved <-? perform (Script (resurrect_claim_lua (jobs ks) processing
                      (namespace_queue ks (queue_of envelope)) jid (default ""%string payload)
                      (resurrect_flag envelope))) ;;
          resurrect_claims processing ids' (count + moved)
      end
  end.

Definition resurrect_process (pid : string) : rprog unit :=
  let processing := processing_queue ks pid in
  ids <-? call (LRANGE processing 0 (-1)) ;;
  _ <-? resurrect_claims processing ids 0 ;;
  remaining <-? call (LLEN processing) ;;
  match remaining with
  | O => pipe [ZREM (processes ks) pid; HDEL (processes_data ks) [pid]]
  | _ => lift (Ok tt)
  end.

Fixpoint resurrect_processes (pids : list string) : rprog unit :=
  match pids with
  | [] => lift (Ok tt)
  | pid :: pids' => _ <-? resurrect_process pid ;; resurrect_processes pids'
  end.

Definition resurrect_dead (threshold now_ms : Z) : rprog unit :=
  _ <-? connection ;;
  pids <-? dead_process_ids threshold now_ms ;;
  resurrect_processes pids.

(** ** Cleanup *)

(** A payload to clean: expired, or not an envelope. *)
Definition expired (now : Z) (e : JobEnvelope) : bool :=
  Z.quot (Z.max (created_at (meta e)) (scheduled_at (meta e))) 1000000 <? now - JOB_EXPIRE_TIME.

Definition cleanable (now : Z) (item : string * string) : bool :=
  match from_str item.2 with Ok e => expired now e | Err _ => true end.

(** The HSCAN loop; [fuel] bounds the pages. *)
Fixpoint scan_cleanable (fuel : nat) (cursor now : Z) (acc : list JobId) : rprog (list JobId) :=
  match fuel with
  | O => lift (Err StillRunning)
  | Datatypes.S fuel' =>
      page <-? call (HSCAN (jobs ks) cursor) ;;
      let acc := acc ++ (filter (fun item => cleanable now item = true) page.2).*1 in
      if decide (page.1 = 0) then lift (Ok acc) else scan_cleanable fuel' page.1 now acc
  end.

Definition cleanup (fuel : nat) (now : Z) : rprog nat :=
  _ <-? connection ;;
  ids <-? scan_cleanable fuel 0 now [] ;;
  match ids with
  | [] => lift (Ok 0%nat)
  | _ => _ <-? call (HDEL (jobs ks) ids) ;; lift (Ok (length ids))
  end.

(** ** The dashboard's statistics ([stats_with_rates]) *)

Record StatsGlobal := {
  g_jobs : nat; g_enqueued : Z; g_processed : Z; g_failed : Z; g_dead : nat;
  g_scheduled : nat; g_retries : nat; g_latency_s_max : Q;
}.
Record StatsProcessing := { sp_process_id : string; sp_job_envelope : JobEnvelope }.
Record StatsReport := {
  st_global : StatsGlobal;
  st_processing : list StatsProcessing;
  st_processes : list Process;
  st_queues : list QueueStats;
}.

Fixpoint read_entries (cs : list (list (string * JobId))) : rprog (list StatsProcessing) :=
  match cs with
  | [] => lift (Ok [])
  | es :: cs' =>
      envelopes <-? jobs_w_conn st (es.*2) ;;
      rest <-? read_entries cs' ;;
      lift (Ok (omap (fun p : (string * JobId) * option JobEnvelope =>
                        (fun e => {| sp_process_id := p.1.1; sp_job_envelope := e |}) <$> p.2)
                  (zip es envelopes) ++ rest))
  end.

Fixpoint read_processing (cs : list (list Process)) : rprog (list StatsProcessing) :=
  match cs with
  | [] => lift (Ok [])
  | ps :: cs' =>
      lists <-? pipe_query ((fun p => LRANGE (processing_queue ks (process_id p)) 0 (-1)) <$> ps) ;;
      let es := concat (zip_with (fun p (ids : list JobId) => map (pair (process_id p)) ids) ps lists) in
      found <-? read_entries (chunks STATS_READ_BATCH_SIZE es) ;;
      rest <-? read_processing cs' ;;
      lift (Ok (found ++ rest))
  end.

Definition stats_with_rates (threshold : Z) (include_rates : bool) (now now_micros now_ms : Z) : rprog StatsReport :=
  _ <-? connection ;;
  qs <-? queues_w_conn st "*" ;;
  values <-? build_queue_stats st qs false include_rates now now_micros ;;
  ps <-? processes_w_conn threshold now_ms ;;
  processing <-? read_processing (chunks STATS_READ_BATCH_SIZE ps) ;;
  counts <-? pipe_query [HLEN (jobs ks); LLEN (dead ks); ZCARD (schedule ks); ZCARD (retry ks)] ;;
  lift (Ok {| st_global := {| g_jobs := nth 0 counts 0%nat; g_enqueued := total_enqueued values;
                g_processed := total_processed values; g_failed := total_failed values;
                g_dead := nth 1 counts 0%nat; g_scheduled := nth 2 counts 0%nat; g_retries := nth 3 counts 0%nat;
                g_latency_s_max := max_latency values |};
              st_processing := processing; st_processes := ps; st_queues := values |}).

Definition stats_report (threshold now now_micros now_ms : Z) := stats_with_rates threshold true now now_micros now_ms.
Definition dashboard_stats (threshold now now_micros now_ms : Z) := stats_with_rates threshold false now now_micros now_ms.
End RecoveryOps.
