(* ===== verification/RecoveryFacts.v ===== *)
(** * Recovery after a crash

    Which processes are taken for dead, and what happens to their claims. *)
From S2P Require Import Prelude Errors Redis Envelope Codec Queue Keys Scripts Storage.
From S2P Require Import Transitions Promotion Enqueue Metrics Stats StatsStorage Recovery.

Lemma zrange_all (z : gmap string Z) : zrange_pairs 0 (-1) z = zset_sorted z.
Proof.
  unfold zrange_pairs. cbn [Z.ltb Z.compare]. destruct (zset_sorted z) as [|x l]; [done|].
  set (len := Z.of_nat (length (x :: l))). assert (1 <= len) by (unfold len; cbn; lia).
  replace ((len + -1 <? 0) || (len <=? 0)) with false
    by (symmetry; apply orb_false_iff; split; [apply Z.ltb_ge | apply Z.leb_gt]; lia).
  cbn [Z.to_nat drop]. apply take_ge. unfold len. lia.
Qed.

(** A text without the characters SCAN patterns give a meaning to. *)
Fixpoint literal (p : string) : bool :=
  match p with
  | EmptyString => true
  | String c p' => negb (bool_decide (c ∈ ["*"; "?"; "\"; "["]%char)) && literal p'
  end.

Lemma literal_app p p' : literal p = true -> literal p' = true -> literal (p +:+ p') = true.
Proof.
  intros H1 H2. induction p as [|c p IH]; [done|]. rewrite string_app_cons. cbn in *.
  apply andb_true_iff in H1 as [-> H1]. cbn. auto.
Qed.

Lemma glob_prefix p s : literal p = true -> glob_match (p +:+ "*") (p +:+ s) = true.
Proof.
  induction p as [|c p IH]; intros Hp.
  - rewrite !string_app_nil_l. cbn. rewrite decide_True by done.
    induction s as [|c s IHs]; cbn; [done|]. by rewrite IHs, orb_true_r.
  - rewrite !string_app_cons. cbn in Hp. apply andb_true_iff in Hp as [Hc Hp].
    apply negb_true_iff, bool_decide_eq_false in Hc. cbn -["+:+"].
    rewrite !decide_False by set_solver. by rewrite bool_decide_true, IH by done.
Qed.

Section Recover.
Context {R : RedisServer} {L : LawfulRedis R} {S : Serde} {LS : LawfulSerde S}.
Variable st : StorageInternal.
Implicit Types (ks : keyspace) (h : gmap string string).
Local Abbreviation keys := (skeys st).

(** A claim that goes back to its queue. *)
Definition recoverable h (jid : JobId) : Prop :=
  exists text e, h !! jid = Some text /\ from_str text = Ok e /\ resurrect (meta e) = true.

Lemma recoverable_target h jid : recoverable h jid -> is_Some (target h jid).
Proof. intros (text & e & H1 & H2 & _). unfold target. rewrite H1, H2. by eexists. Qed.

Section Loop.
Variable pid : string.
Local Abbreviation processing := (processing_queue keys pid).

Definition resurrect_one h (jid : JobId) (rest : list JobId) ks : keyspace :=
  match target h jid with
  | Some q => put_list processing rest
      (put_list (namespace_queue keys q) (jid :: default [] (list_at ks (namespace_queue keys q))) ks)
  | None => ks
  end.

Lemma resurrect_step jid ids ks h count :
  hash_at ks (jobs keys) = Some h -> list_at ks processing = Some (jid :: ids) ->
  recoverable h jid -> queues_typed st h ks ->
  run_doc (resurrect_claims st processing (jid :: ids) count) ks =
  run_doc (resurrect_claims st processing ids (count + 1)%nat) (resurrect_one h jid ids ks).
Proof.
  intros Hh Hl (text & e & Ht & Hp & Hr) [_ Hty]. cbn [resurrect_claims]. rewrite run_pbind.
  unfold transition_snapshot. run_simp. rewrite Ht. cbn [fmap option_fmap option_map transpose].
  unfold parse_job. rewrite Hp. cbn [map_err transpose res_map]. rewrite run_try, run_script.
  assert (target h jid = Some (queue e)) as Htg by (unfold target; by rewrite Ht, Hp).
  destruct (Hty _ _ Htg) as [Hq [l Hql]]. cbn [queue_of default from_option resurrect_flag].
  erewrite resurrect_claim_run by (try eassumption; key_ne).
  assert (snapshot_arg text = Some text) as Hsnap.
  { unfold snapshot_arg. case_decide; [|done]. subst. by apply empty_not_json in Hp. }
  change (Datatypes.id text) with text. rewrite Hsnap, Ht, Hr, decide_True by (split; [by left|done]).
  cbn [fst snd map_err]. unfold resurrect_one. rewrite Htg, Hql. cbn [default from_option lrem lrem_first].
  rewrite decide_True by done. by destruct ids.
Qed.

Lemma resurrect_one_list h jid rest ks q l :
  recoverable h jid -> queues_typed st h ks -> starts_with (namespace keys) q = false ->
  list_at ks (namespace_queue keys q) = Some l ->
  list_at (resurrect_one h jid rest ks) (namespace_queue keys q) =
    Some (if decide (target h jid = Some q) then jid :: l else l).
Proof.
  intros [q' Hq']%recoverable_target [_ Hty] Hq Hl. unfold resurrect_one. rewrite Hq'.
  destruct (Hty _ _ Hq') as [Hp' [l' Hl']]. rewrite Hl'. cbn [default from_option].
  destruct (decide (Some q' = Some q)) as [[= ->]|Hne].
  - ks_simp. by simplify_eq.
  - assert (namespace_queue keys q' <> namespace_queue keys q) by (intros ?%namespace_queue_inj; congruence).
    by ks_simp.
Qed.

Lemma resurrect_run ids : forall ks h count,
  hash_at ks (jobs keys) = Some h -> list_at ks processing = Some ids ->
  Forall (recoverable h) ids -> queues_typed st h ks ->
  exists ks', run_doc (resurrect_claims st processing ids count) ks = (Ok (count + length ids)%nat, ks') /\
    list_at ks' processing = Some [] /\
    (forall q l, starts_with (namespace keys) q = false -> list_at ks (namespace_queue keys q) = Some l ->
       list_at ks' (namespace_queue keys q) = Some (reverse (filter (fun jid => target h jid = Some q) ids) ++ l)) /\
    (forall k, k <> processing -> (forall q, starts_with (namespace keys) q = false -> k <> namespace_queue keys q) ->
       ks' !! k = ks !! k).
Proof.
  induction ids as [|jid ids IH]; intros ks h count Hh Hl Hall Hty.
  { exists ks. cbn. rewrite Nat.add_0_r. split_and!; try done. }
  apply Forall_cons in Hall as [Hrec Hall]. rewrite (resurrect_step _ _ _ h) by done.
  set (ks1 := resurrect_one h jid ids ks). destruct (recoverable_target h jid Hrec) as [q0 Hq0].
  pose proof Hty as [[le Hle] Htyq]. destruct (Htyq _ _ Hq0) as [Hp0 [l0 Hl0]].
  assert (forall k, k <> processing -> (forall q, starts_with (namespace keys) q = false -> k <> namespace_queue keys q) ->
    ks1 !! k = ks !! k) as Hframe.
  { intros k Hk Hkq. unfold ks1, resurrect_one. rewrite Hq0.
    rewrite !lookup_put_list_ne by (apply not_eq_sym; auto). done. }
  assert (list_at ks1 processing = Some ids) as Hl1.
  { unfold ks1, resurrect_one. rewrite Hq0. by ks_simp. }
  assert (hash_at ks1 (jobs keys) = Some h) as Hh1.
  { destruct (at_lookup (jobs keys) ks1 ks) as (-> & _); [|done]. apply Hframe; [key_ne|]. intros; key_ne. }
  assert (queues_typed st h ks1) as Hty1.
  { split.
    - unfold ks1. erewrite resurrect_one_list by eauto using empty_name_plain. by eexists.
    - intros jid' q' E. destruct (Htyq jid' q' E) as [Hp [l' Hl']]. split; [done|].
      unfold ks1. erewrite resurrect_one_list by eauto. by eexists. }
  edestruct (IH ks1 h (count + 1)%nat) as (ks' & Hrun & Hp' & Hl' & Hf); [done..|].
  exists ks'. split_and!; [|done| |].
  - rewrite Hrun. do 2 f_equal. cbn [length]. lia.
  - intros q l Hq Hlq. erewrite (Hl' q) by (try done; unfold ks1; by eapply resurrect_one_list). f_equal.
    rewrite filter_cons. case_decide; [|done]. rewrite reverse_cons. by rewrite <- app_assoc.
  - intros k Hk Hkq. rewrite Hf by done. by apply Hframe.
Qed.
End Loop.

Lemma processes_ne_queue q : starts_with (namespace keys) q = false -> processes keys <> namespace_queue keys q.
Proof. intros Hq. rewrite namespace_queue_plain by done. by intros H%string_app_inj_l. Qed.
Lemma processes_data_ne_queue q : starts_with (namespace keys) q = false -> processes_data keys <> namespace_queue keys q.
Proof. intros Hq. rewrite namespace_queue_plain by done. by intros H%string_app_inj_l. Qed.
Lemma processes_ne_processing p : processes keys <> processing_queue keys p.
Proof. rewrite processing_queue_eq. by intros H%string_app_inj_l. Qed.
Lemma processes_data_ne_processing p : processes_data keys <> processing_queue keys p.
Proof. rewrite processing_queue_eq. by intros H%string_app_inj_l. Qed.
Lemma processes_ne_data : processes keys <> processes_data keys.
Proof. by intros H%string_app_inj_l. Qed.
#[local] Hint Resolve processes_ne_queue processes_data_ne_queue processes_ne_processing
  processes_data_ne_processing processes_ne_data : keys.


(** ** Who is dead *)

End Recover.
