(* ===== verification/Durability.v ===== *)
(** * Jobs are not lost

    A job that is stored and waits in a queue, a processing list, the schedule
    or the retry set stays so whatever the clients do, in every interleaving of
    their events, with replies lost, commands never sent and processes that
    die, until something finishes, kills, deletes or wipes that job. *)
From S2P Require Import Prelude Errors Redis Envelope Codec Queue Keys Scripts Storage.
From S2P Require Import Transitions Enqueue EnqueueScript Metrics Stats StatsStorage Recovery.

Section Held.
Context {S : Serde} {LS : LawfulSerde S}.
(** The namespace, the job, and the time until which it must not expire. *)
Variables (requested : string) (J : JobId) (until : Z).
Local Abbreviation keys := (new_keys requested).

(** A payload that recovery and cleanup keep: it may be resurrected, is younger
    than the expiry at [until], and its queue is an ordinary name. *)
Definition durable (e : JobEnvelope) : bool :=
  resurrect (meta e) && negb (starts_with (namespace keys) (queue e))
  && (until - JOB_EXPIRE_TIME <=? Z.quot (created_at (meta e)) 1000000)%Z.

(** What is stored under a field is a job of that name, and durable for [J]. *)
Definition entry_ok (f text : string) : Prop :=
  (forall e, from_str text = Ok e -> id e = f /\ (f = J -> durable e = true)) /\
  (f = J -> exists e, from_str text = Ok e).

Definition job_list (k : string) : Prop :=
  (exists q, starts_with (namespace keys) q = false /\ k = namespace_queue keys q) \/
  (exists p, k = processing_queue keys p).
Definition job_zset (k : string) : Prop := k = schedule keys \/ k = retry keys.

Inductive waiting (ks : keyspace) : Prop :=
| in_list k l : job_list k -> list_at ks k = Some l -> J ∈ l -> waiting ks
| in_zset k z : job_zset k -> zset_at ks k = Some z -> is_Some (z !! J) -> waiting ks.

Definition kept (ks : keyspace) : Prop :=
  exists h, hash_at ks (jobs keys) = Some h /\ map_Forall entry_ok h /\ is_Some (h !! J).

Definition held (ks : keyspace) : Prop := kept ks /\ waiting ks.

(** ** Keys *)

Lemma job_list_eq k : job_list k ->
  (exists s, k = namespace keys +:+ ":queue:" +:+ s) \/ (exists s, k = namespace keys +:+ ":processing:" +:+ s).
Proof.
  intros [(q & Hq & ->)|(p & ->)]; [left|right].
  - exists q. by apply namespace_queue_plain.
  - exists p. apply processing_queue_eq.
Qed.

Lemma job_list_not k suffix : job_list k -> k = namespace keys +:+ suffix ->
  (exists s, suffix = ":queue:" +:+ s) \/ (exists s, suffix = ":processing:" +:+ s).
Proof.
  intros [[s ->]|[s ->]]%job_list_eq H; apply string_app_inj_l in H; eauto.
Qed.

Lemma dead_not_job_list : ~ job_list (dead keys).
Proof. intros H. destruct (job_list_not _ ":dead" H eq_refl) as [[s Hs]|[s Hs]]; done. Qed.

(** ** Writes *)

Lemma list_not_zset (ks : keyspace) k l z :
  list_at ks k = Some l -> zset_at ks k = Some z -> z = ∅ /\ l = [].
Proof. unfold list_at, zset_at. destruct (ks !! k) as [[]|]; naive_solver. Qed.
Lemma list_not_hash (ks : keyspace) k l h :
  list_at ks k = Some l -> hash_at ks k = Some h -> h = ∅ /\ l = [].
Proof. unfold list_at, hash_at. destruct (ks !! k) as [[]|]; naive_solver. Qed.
Lemma zset_not_hash (ks : keyspace) k z h :
  zset_at ks k = Some z -> hash_at ks k = Some h -> h = ∅ /\ z = ∅.
Proof. unfold zset_at, hash_at. destruct (ks !! k) as [[]|]; naive_solver. Qed.

Ltac no_value := exfalso; repeat match goal with
  | H : is_Some (∅ !! _) |- _ => rewrite lookup_empty in H; by destruct H
  | H : _ ∈ [] |- _ => by apply elem_of_nil in H
  end.

Lemma waiting_put_list ks k l l' :
  list_at ks k = Some l -> (job_list k -> J ∈ l -> J ∈ l') -> waiting ks -> waiting (put_list k l' ks).
Proof.
  intros Hl Hin [k0 l0 Hk0 Hl0 HJ|k0 z0 Hk0 Hz0 HJ]; destruct (decide (k = k0)) as [<-|Hne].
  - simplify_eq. eapply in_list; [done|by ks_simp|auto].
  - eapply in_list; [done|by ks_simp|done].
  - destruct (list_not_zset _ _ _ _ Hl Hz0) as [-> _]. no_value.
  - eapply in_zset; [done|by ks_simp|done].
Qed.

Lemma waiting_put_zset ks k z z' :
  zset_at ks k = Some z -> (job_zset k -> is_Some (z !! J) -> is_Some (z' !! J)) ->
  waiting ks -> waiting (put_zset k z' ks).
Proof.
  intros Hz Hin [k0 l0 Hk0 Hl0 HJ|k0 z0 Hk0 Hz0 HJ]; destruct (decide (k = k0)) as [<-|Hne].
  - destruct (list_not_zset _ _ _ _ Hl0 Hz) as [_ ->]. no_value.
  - eapply in_list; [done|by ks_simp|done].
  - simplify_eq. eapply in_zset; [done|by ks_simp|auto].
  - eapply in_zset; [done|by ks_simp|done].
Qed.

Lemma waiting_put_hash ks k h h' : hash_at ks k = Some h -> waiting ks -> waiting (put_hash k h' ks).
Proof.
  intros Hh [k0 l0 Hk0 Hl0 HJ|k0 z0 Hk0 Hz0 HJ]; destruct (decide (k = k0)) as [<-|Hne].
  - destruct (list_not_hash _ _ _ _ Hl0 Hh) as [_ ->]. no_value.
  - eapply in_list; [done|by ks_simp|done].
  - destruct (zset_not_hash _ _ _ _ Hz0 Hh) as [_ ->]. no_value.
  - eapply in_zset; [done|by ks_simp|done].
Qed.

Lemma kept_put_list ks k l l' : list_at ks k = Some l -> kept ks -> kept (put_list k l' ks).
Proof.
  intros Hl (h & Hh & Hok & HJ). destruct (decide (k = jobs keys)) as [->|Hne].
  - destruct (list_not_hash _ _ _ _ Hl Hh) as [-> _]. no_value.
  - exists h. by ks_simp.
Qed.
Lemma kept_put_zset ks k z z' : zset_at ks k = Some z -> kept ks -> kept (put_zset k z' ks).
Proof.
  intros Hz (h & Hh & Hok & HJ). destruct (decide (k = jobs keys)) as [->|Hne].
  - destruct (zset_not_hash _ _ _ _ Hz Hh) as [-> _]. no_value.
  - exists h. by ks_simp.
Qed.
Lemma kept_put_hash ks k h h' :
  hash_at ks k = Some h ->
  (k = jobs keys -> map_Forall entry_ok h -> is_Some (h !! J) -> map_Forall entry_ok h' /\ is_Some (h' !! J)) ->
  kept ks -> kept (put_hash k h' ks).
Proof.
  intros Hh Hk (h0 & Hh0 & Hok & HJ). destruct (decide (k = jobs keys)) as [->|Hne].
  - simplify_eq. destruct Hk; [done..|]. exists h'. by ks_simp.
  - exists h0. by ks_simp.
Qed.

Lemma held_same ks ks' :
  (forall k, k = jobs keys \/ job_list k \/ job_zset k -> ks' !! k = ks !! k) -> held ks -> held ks'.
Proof.
  intros Hsame [(h & Hh & Hok & HJ) Hw].
  assert (forall k, k = jobs keys \/ job_list k \/ job_zset k ->
    hash_at ks' k = hash_at ks k /\ list_at ks' k = list_at ks k /\ zset_at ks' k = zset_at ks k) as Hat.
  { intros k Hk. destruct (at_lookup k ks' ks (Hsame k Hk)) as (?&?&?&_). done. }
  split.
  - exists h. destruct (Hat (jobs keys)) as (-> & _); [by left|]. done.
  - destruct Hw as [k l Hk Hl ?|k z Hk Hz ?].
    + eapply in_list; [done| |done]. by destruct (Hat k) as (_ & -> & _); [auto|].
    + eapply in_zset; [done| |done]. by destruct (Hat k) as (_ & _ & ->); [auto|].
Qed.

(** Overwriting a key that holds none of the job's data. *)
Lemma held_same_at k v ks :
  (forall h, hash_at ks k = Some h -> h = ∅) -> (forall l, list_at ks k = Some l -> l = []) ->
  (forall z, zset_at ks k = Some z -> z = ∅) -> held ks -> held (<[k := v]> ks).
Proof.
  intros Nh Nl Nz [(h & Hh & Hok & HJ) Hw].
  assert (forall k', k' <> k -> hash_at (<[k:=v]> ks) k' = hash_at ks k' /\
    list_at (<[k:=v]> ks) k' = list_at ks k' /\ zset_at (<[k:=v]> ks) k' = zset_at ks k') as Hat.
  { intros k' Hne. unfold hash_at, list_at, zset_at. by rewrite lookup_insert_ne. }
  split.
  - destruct (decide (jobs keys = k)) as [<-|Hne]; [rewrite (Nh _ Hh) in *; no_value|].
    exists h. by destruct (Hat _ Hne) as (-> & _).
  - destruct Hw as [k0 l0 Hk0 Hl0 Hin|k0 z0 Hk0 Hz0 Hin]; (destruct (decide (k0 = k)) as [->|Hne];
      [first [rewrite (Nl _ Hl0) in * | rewrite (Nz _ Hz0) in *]; no_value|]).
    + eapply in_list; [done| |done]. by destruct (Hat _ Hne) as (_ & -> & _).
    + eapply in_zset; [done| |done]. by destruct (Hat _ Hne) as (_ & _ & ->).
Qed.

(** ** Commands

    What a command must satisfy to leave [J] held, whatever the keyspace. *)
Definition off_limits (k : string) : Prop := k = jobs keys \/ job_list k \/ job_zset k.

Definition harmless {X} (c : rcmd X) : Prop :=
  match c with
  | HSET k f v => k = jobs keys -> entry_ok f v
  | HSETM k fvs => k = jobs keys -> Forall (fun p => entry_ok p.1 p.2) fvs
  | HDEL k fs => k = jobs keys -> J ∉ fs
  | LREM _ _ v => v <> J
  | LTRIM k _ _ => ~ job_list k
  | LMOVE _ dst => job_list dst
  | ZREM k m => job_zset k -> m <> J
  | ZREMRANGEBYSCORE k _ _ => ~ job_zset k
  | HINCRBY k _ _ => k <> jobs keys
  | DEL k => ~ off_limits k
  | RENAME k k' => ~ off_limits k /\ ~ off_limits k'
  | _ => True
  end.

Lemma insert_keeps {A} i (a : A) (m : gmap string A) : is_Some (m !! J) -> is_Some (<[i := a]> m !! J).
Proof. intros. destruct (decide (i = J)) as [->|]; by simplify_map_eq. Qed.

Lemma zadd_all_keeps members (z : gmap string Z) :
  is_Some (z !! J) -> is_Some (foldl (λ z p, <[p.2 := p.1]> z) z members !! J).
Proof.
  revert z. induction members as [|p ms IH]; intros z Hz; cbn; [done|]. by apply IH, insert_keeps.
Qed.

Lemma hset_all_ok fvs h :
  Forall (fun p => entry_ok p.1 p.2) fvs -> map_Forall entry_ok h -> is_Some (h !! J) ->
  map_Forall entry_ok (hset_all fvs h) /\ is_Some (hset_all fvs h !! J).
Proof.
  unfold hset_all. intros Hf. revert h. induction Hf as [|[f v] fvs Hfv _ IH]; intros h Hh HJ; cbn; [done|].
  apply IH; [by apply map_Forall_insert_2|by apply insert_keeps].
Qed.

Lemma hdel_all_ok fs h :
  J ∉ fs -> map_Forall entry_ok h -> is_Some (h !! J) ->
  map_Forall entry_ok (hdel_all fs h) /\ is_Some (hdel_all fs h !! J).
Proof.
  intros Hn Hh HJ. split.
  - intros f v. rewrite hdel_all_lookup. case_decide; [done|apply Hh].
  - by rewrite hdel_all_lookup, decide_False.
Qed.

Lemma held_write_list k ks f :
  (forall l, job_list k -> J ∈ l -> J ∈ f l) -> held ks -> held (snd (write_list k ks f)).
Proof.
  intros Hf [Hk Hw]. unfold write_list. destruct (list_at ks k) as [l|] eqn:E; [|done]. cbn [snd].
  split; [by eapply kept_put_list|]. eapply waiting_put_list; eauto.
Qed.
Lemma held_write_zset k ks f :
  (forall z, job_zset k -> is_Some (z !! J) -> is_Some (f z !! J)) -> held ks -> held (snd (write_zset k ks f)).
Proof.
  intros Hf [Hk Hw]. unfold write_zset. destruct (zset_at ks k) as [z|] eqn:E; [|done]. cbn [snd].
  split; [by eapply kept_put_zset|]. eapply waiting_put_zset; eauto.
Qed.
Lemma held_write_hash k ks f :
  (forall h, k = jobs keys -> map_Forall entry_ok h -> is_Some (h !! J) ->
     map_Forall entry_ok (f h) /\ is_Some (f h !! J)) ->
  held ks -> held (snd (write_hash k ks f)).
Proof.
  intros Hf [Hk Hw]. unfold write_hash. destruct (hash_at ks k) as [h|] eqn:E; [|done]. cbn [snd].
  split; [eapply kept_put_hash; eauto|]. by eapply waiting_put_hash.
Qed.

Lemma held_lmove src dst ks : job_list dst -> held ks -> held (snd (lmove src dst ks)).
Proof.
  intros Hdst [Hk Hw]. unfold lmove. destruct (list_at ks src) as [l|] eqn:El; [|done].
  destruct (unsnoc l) as [[l' x]|] eqn:Eu; [|done]. apply unsnoc_Some in Eu as ->.
  destruct (list_at (put_list src l' ks) dst) as [m|] eqn:Em; [|done]. cbn [snd].
  assert (kept (put_list src l' ks)) by (by eapply kept_put_list).
  split; [by eapply kept_put_list|]. destruct (decide (x = J)) as [->|Hx].
  - eapply in_list; [done|by ks_simp|by left].
  - eapply waiting_put_list; [done|by right|]. eapply waiting_put_list; [done| |done].
    intros _ [?|?%list_elem_of_singleton]%elem_of_app; [done|by subst].
Qed.

(** A key without a value, or with a string, holds none of the job's data. *)
Lemma held_bits k b b' ks : bits_at ks k = Some b -> held ks -> held (<[k := VBits b']> ks).
Proof.
  intros Hb. apply held_same_at; unfold bits_at, hash_at, list_at, zset_at in *;
    destruct (ks !! k) as [[]|]; naive_solver.
Qed.

Lemma harmless_preserves {X} (c : rcmd X) ks : harmless c -> held ks -> held (snd (documented c ks)).
Proof.
  intros Hc Hheld.
  destruct c; cbn [harmless documented] in *;
    rewrite ?reads_read_hash, ?reads_read_list, ?reads_read_zset; try exact Hheld.
  - (* DEL *) revert Hheld. apply held_same. intros k' Hk'. apply lookup_delete_ne. by intros <-.
  - (* RENAME *) destruct (ks !! k) eqn:E; [|done]. revert Hheld. apply held_same. destruct Hc as [H1 H2].
    cbn [snd]. intros k'' Hk''. rewrite lookup_insert_ne, lookup_delete_ne; [done|by intros <-..].
  - (* HSET *) revert Hheld. apply held_write_hash. intros h Hk Hh HJ.
    apply (hset_all_ok [(f, v)]); [|done..]. constructor; [by apply Hc|done].
  - (* HSETM *) revert Hheld. apply held_write_hash. intros h Hk. apply hset_all_ok. auto.
  - (* HDEL *) revert Hheld. apply held_write_hash. intros h Hk. apply hdel_all_ok. auto.
  - (* LPUSH *) revert Hheld. apply held_write_list. by right.
  - (* RPUSH *) revert Hheld. apply held_write_list. intros l _ ?. apply elem_of_app. by left.
  - (* LREM *) revert Hheld. apply held_write_list. intros l _ ?. by apply elem_of_lrem.
  - (* LTRIM *) revert Hheld. by apply held_write_list.
  - (* LMOVE *) by apply held_lmove.
  - (* ZADD *) revert Hheld. apply held_write_zset. intros z _. apply insert_keeps.
  - (* ZREM *) revert Hheld. apply held_write_zset. intros z Hk ?. rewrite lookup_delete_ne; auto.
  - (* ZADDM *) destruct (zset_at ks k) as [z|] eqn:E; [|done]. cbn [snd]. destruct Hheld as [Hk Hw].
    split; [by eapply kept_put_zset|]. eapply waiting_put_zset; [done| |done]. intros _.
    apply zadd_all_keeps.
  - (* ZREMRANGEBYSCORE *) revert Hheld. by apply held_write_zset.
  - (* HINCRBY *) destruct (hash_at ks k) as [h|] eqn:E; [|done]. destruct (hash_int _); [|done]. cbn [snd].
    destruct Hheld as [Hk Hw]. split; [by eapply kept_put_hash|by eapply waiting_put_hash].
  - (* BITFIELD_INCR *) destruct (bits_at ks k) as [b|] eqn:E; [|done]. by eapply held_bits.
  - (* BITFIELD_GET *) by destruct (bits_at ks k).
Qed.

(** ** Scripts and transactions *)

Fixpoint lua_harmless {A} (s : lua A) : Prop :=
  match s with
  | LRet _ | LError _ => True
  | LCall c k => harmless c /\ forall x, lua_harmless (k x)
  end.

Lemma script_harmless {A} (s : lua A) : lua_harmless s -> preserves held (Script s).
Proof.
  intros Hs ks Hk. cbn. assert (held (snd (script_doc s ks))) as H; [|by destruct (script_doc s ks)].
  revert ks Hk. induction s as [a|e|X c k IH]; intros ks Hk; cbn; [done|done|]. destruct Hs as [Hc Hs].
  pose proof (harmless_preserves c ks Hc Hk) as H. destruct (documented c ks) as [[x|e] ks']; cbn in *; auto.
Qed.

Lemma multi_harmless cs : Forall harmless cs -> preserves held (Multi cs).
Proof.
  intros Hcs ks Hk. cbn. assert (held (snd (@run_multi MemRedis cs ks))) as H; [|by destruct (@run_multi MemRedis cs ks)].
  revert ks Hk. induction Hcs as [|c cs Hc _ IH]; intros ks Hk; cbn; [done|].
  pose proof (harmless_preserves c ks Hc Hk) as H. destruct (documented c ks) as [r ks']; cbn in *.
  specialize (IH ks' H). by destruct (@run_multi MemRedis cs ks').
Qed.

Lemma command_harmless {X} (c : rcmd X) : harmless c -> preserves held (Cmd c).
Proof.
  intros Hc ks Hk. cbn. pose proof (harmless_preserves c ks Hc Hk). by destruct (documented c ks).
Qed.

Lemma require_types_harmless kts {A} (body : lua A) : lua_harmless body -> lua_harmless (require_types kts body).
Proof.
  intros Hb. induction kts as [|[k t] kts IH]; cbn; [done|]. split; [done|]. intros x.
  by destruct (type_ok x t).
Qed.

(** ** The scripts that move [J] *)

Lemma entry_ok_print e text : print_job e = Ok text -> (id e = J -> durable e = true) -> entry_ok (id e) text.
Proof.
  intros Hp Hd. destruct (print_parse e) as (text' & Hp' & Hparse & _). rewrite Hp in Hp'. injection Hp' as <-.
  split; [|intros _; by exists e]. intros e' He'. assert (e' = e) as -> by congruence. done.
Qed.

Lemma job_list_ne_jobs k : job_list k -> jobs keys <> k.
Proof. intros H <-. destruct (job_list_not _ ":jobs" H eq_refl) as [[s Hs]|[s Hs]]; done. Qed.
Lemma job_zset_not_job_list k : job_zset k -> ~ job_list k.
Proof.
  intros [->| ->] H; [destruct (job_list_not _ ":schedule" H eq_refl) as [[s Hs]|[s Hs]]
                     |destruct (job_list_not _ ":retry" H eq_refl) as [[s Hs]|[s Hs]]]; done.
Qed.
Lemma job_zset_ne_jobs k : job_zset k -> jobs keys <> k.
Proof. intros [->| ->]; auto with keys. Qed.
Lemma job_list_queue q : starts_with (namespace keys) q = false -> job_list (namespace_queue keys q).
Proof. intros. left. eauto. Qed.
Lemma job_list_processing p : job_list (processing_queue keys p).
Proof. right. eauto. Qed.
#[local] Hint Resolve job_list_queue job_list_processing job_list_ne_jobs job_zset_ne_jobs dead_not_job_list : keys.

Lemma preserves_script {A} (s : lua A) :
  (forall ks, held ks -> held (snd (script_doc s ks))) -> preserves held (Script s).
Proof. intros H ks Hk. cbn. specialize (H ks Hk). by destruct (script_doc s ks). Qed.

(** A script with a preflight does nothing when it fails. *)
Lemma preflight_preserves kts {A} (body : lua A) ks :
  held ks -> (types_ok kts ks = true -> held (snd (script_doc (require_types kts body) ks))) ->
  held (snd (script_doc (require_types kts body) ks)).
Proof. intros Hk Hb. rewrite require_types_run in *. destruct (types_ok kts ks); [by apply Hb|done]. Qed.

Lemma retry_script_preserves pid jid text score : entry_ok jid text ->
  preserves held (Script (retry_failed_lua (jobs keys) (retry keys) (processing_queue keys pid) jid text score)).
Proof.
  intros Hok. destruct (decide (jid = J)) as [->|Hne].
  2: { apply script_harmless, require_types_harmless. cbn. naive_solver. }
  apply preserves_script. intros ks Hk. unfold retry_failed_lua. apply preflight_preserves; [done|].
  intros E. with_types E.
  edestruct (retry_failed_run (jobs keys) (processing_queue keys pid) ltac:(key_ne) (retry keys) J text score ks)
    as (ks' & Hrun & Hh' & Hz' & _); [key_ne|key_ne|eassumption..|].
  unfold retry_failed_lua in Hrun. rewrite Hrun. destruct Hk as [(h & Hh & Hall & HJ) _]. simplify_eq.
  split.
  - eexists. split; [exact Hh'|]. split; [by apply map_Forall_insert_2|by apply insert_keeps].
  - eapply (in_zset _ (retry keys)); [by right|exact Hz'|]. by simplify_map_eq.
Qed.

Lemma promote_script_preserves sq q jid payload score :
  job_zset sq -> (jid = J -> starts_with (namespace keys) q = false) ->
  preserves held (Script (promote_scheduled_lua (jobs keys) sq (namespace_queue keys q) jid payload score)).
Proof.
  intros Hsq Hq. destruct (decide (jid = J)) as [->|Hne].
  2: { apply script_harmless, require_types_harmless. cbn. split; [done|]. intros x.
       case_decide; [|done]. cbn. split; [done|]. intros y. case_decide; [|done]. destruct y; cbn; naive_solver. }
  specialize (Hq eq_refl). pose proof (job_list_queue q Hq) as Hjl.
  assert (sq <> namespace_queue keys q) as Hne by (intros ->; by apply (job_zset_not_job_list _ Hsq)).
  apply preserves_script. intros ks Hk. apply preflight_preserves; [done|]. intros E. with_types E.
  fold (promote_scheduled_lua (jobs keys) sq (namespace_queue keys q) J payload score).
  erewrite promote_scheduled_run by (try eassumption; auto with keys).
  destruct Hk as [Hk Hw]. pose proof Hk as (h & Hh & _ & [text HJ]). simplify_eq. rewrite HJ.
  case_decide; [|done]. cbn [snd]. split.
  - eapply kept_put_zset; [by ks_simp|]. by eapply kept_put_list.
  - eapply in_list; [done|by ks_simp|by left].
Qed.

Lemma resurrect_script_preserves pid q jid payload should :
  (jid = J -> starts_with (namespace keys) q = false /\ should = true) ->
  preserves held (Script (resurrect_claim_lua (jobs keys) (processing_queue keys pid)
    (namespace_queue keys q) jid payload should)).
Proof.
  intros Hq. destruct (decide (jid = J)) as [->|Hne].
  2: { apply script_harmless, require_types_harmless. cbn. split; [done|]. intros [|]; [|done].
       cbn. split; [done|]. intros y. case_decide; [|done].
       destruct y, should; cbn; repeat split; try done. intros _. set_solver. }
  destruct (Hq eq_refl) as [Hplain ->].
  apply preserves_script. intros ks Hk. apply preflight_preserves; [done|]. intros E. with_types E.
  fold (resurrect_claim_lua (jobs keys) (processing_queue keys pid) (namespace_queue keys q) J payload true).
  erewrite resurrect_claim_run by (try eassumption; auto with keys).
  destruct Hk as [Hk Hw]. pose proof Hk as (h & Hh & _ & [text HJ]). simplify_eq. rewrite HJ.
  case_decide; [|done]. cbn [snd]. split.
  - eapply kept_put_list; [by ks_simp|]. by eapply kept_put_list.
  - eapply in_list; [by apply job_list_queue|by ks_simp|by left].
Qed.

(** ** enqueue.lua *)

Definition input_ok (a : EnqueueArg) : Prop :=
  entry_ok (in_id a) (in_payload a) /\
  (in_id a = J -> exists q, starts_with (namespace keys) q = false /\ in_queue a = namespace_queue keys q).

Local Abbreviation commit dest := (commit_one (is_schedule dest) (jobs keys) (schedule keys) (retry keys)).

Lemma store_job_held dest a ks : input_ok a -> held ks ->
  held (store_job (is_schedule dest) (jobs keys) (schedule keys) a ks).
Proof.
  intros [Hok _] Hk. unfold store_job.
  pose proof (harmless_preserves (HSET (jobs keys) (in_id a) (in_payload a)) ks (fun _ => Hok) Hk) as H1.
  destruct (is_schedule dest).
  - by apply (harmless_preserves (ZADD (schedule keys) (in_score a) (in_id a))).
  - by apply (harmless_preserves (LPUSH (in_queue a) (in_id a))).
Qed.

Lemma purge_held old new jid ks : jid <> J -> held ks -> held (purge (schedule keys) (retry keys) old new jid ks).
Proof.
  intros Hne Hk. unfold purge.
  pose proof (harmless_preserves (ZREM (schedule keys) jid) ks (fun _ => Hne) Hk) as H1.
  pose proof (harmless_preserves (ZREM (retry keys) jid) _ (fun _ => Hne) H1) as H2.
  pose proof (harmless_preserves (LREM old 0 jid) _ Hne H2) as H3.
  case_decide; [done|]. by apply (harmless_preserves (LREM new 0 jid) _ Hne).
Qed.

(** After its store, a job waits: its destination has been tested. *)
Lemma store_job_waiting dest types a ks :
  well_typed types ks -> types !! jobs keys = Some THash -> in_id a = J -> input_ok a ->
  (if is_schedule dest then types !! schedule keys = Some TZset else types !! in_queue a = Some TList) ->
  waiting (store_job (is_schedule dest) (jobs keys) (schedule keys) a ks).
Proof.
  intros Hw Hj HJ [_ Hq] Hd. unfold store_job.
  pose proof (well_typed_upd_hash types ks Hw (jobs keys) <[in_id a := in_payload a]> Hj) as Hw1.
  destruct (is_schedule dest).
  - destruct (typed_zset types _ Hw1 _ Hd) as [z Hz]. eapply (in_zset _ (schedule keys)); [by left| |].
    + unfold upd_zset. erewrite write_zset_ok by done. cbn [snd]. by ks_simp.
    + rewrite HJ. by simplify_map_eq.
  - destruct (typed_list types _ Hw1 _ Hd) as [l Hl]. destruct (Hq HJ) as (q & Hplain & Eq).
    eapply (in_list _ (in_queue a)); [rewrite Eq; by apply job_list_queue| |].
    + unfold upd_list. erewrite write_list_ok by done. cbn [snd]. by ks_simp.
    + rewrite HJ. by left.
Qed.

Lemma commit_one_held dest types w ks :
  well_typed types ks -> types !! jobs keys = Some THash ->
  write_typed (is_schedule dest) (schedule keys) (retry keys) types w -> input_ok (w_arg w) -> held ks ->
  held (commit dest ks w) /\ well_typed types (commit dest ks w).
Proof.
  intros Hw Hj Hty Hin Hk. destruct Hk as [(h & Hh & Hall & HJ) Hwait].
  destruct (commit_one_facts (is_schedule dest) (jobs keys) (schedule keys) (retry keys) types w ks h)
    as [Hw' Hh']; [done..|]. split; [|done].
  destruct (decide (w_replacing w = true /\ in_id (w_arg w) = J)) as [[Hrep HinJ]|Hnot].
  - split.
    + eexists. split; [exact Hh'|]. split; [|by apply insert_keeps].
      apply map_Forall_insert_2; [apply Hin|done].
    + destruct Hty as [Hd Hr]. destruct (Hr Hrep) as (Hs & Hre & Hnew & old & Hold & Hot).
      unfold commit_one. rewrite Hrep, Hold. eapply store_job_waiting; eauto using purge_typed.
  - unfold commit_one. apply store_job_held; [done|].
    assert (held ks) as Hk by (split; [by exists h|done]).
    destruct (w_replacing w); [|done]. apply purge_held; [|done]. intros ?. by apply Hnot.
Qed.

Lemma enqueue_script_preserves dest snaps inputs : Forall input_ok inputs ->
  preserves held (Script (enqueue_lua (jobs keys) (schedule keys) (retry keys) dest snaps inputs)).
Proof.
  intros Hin. apply preserves_script. intros ks Hk. pose proof Hk as [(h & Hh & _) _].
  destruct (enqueue_lua_commits (jobs keys) (schedule keys) (retry keys) dest snaps inputs ks h Hh)
    as [[e ->]|[[_ ->]|(_ & types & Hw & Hj & Hty & ->)]]; [done|done|]. cbn [snd].
  assert (Forall (fun w => input_ok (w_arg w)) (fst (plan h inputs (snapshot_presence h snaps ∅) (snapshot_queues snaps ∅))))
    as Hws.
  { apply Forall_forall. intros w Hin_w%plan_args. by rewrite Forall_forall in Hin; apply Hin. }
  revert Hws Hty. generalize (fst (plan h inputs (snapshot_presence h snaps ∅) (snapshot_queues snaps ∅))).
  clear Hh. intros ws. revert ks Hk Hw. induction ws as [|w ws IH]; intros ks Hk Hw Hws Hty; cbn [foldl]; [done|].
  apply Forall_cons in Hws as [? ?], Hty as [? ?].
  destruct (commit_one_held dest types w ks) as [? ?]; [done..|]. by apply IH.
Qed.

(** ** Operations *)

Lemma safe_seq {X B} (e : event X) (f : X -> rprog B) :
  preserves held e -> (forall x, safe held (f x)) -> safe held (try (perform e) f).
Proof. intros He Hf. apply safe_perform_try; auto. Qed.

Lemma safe_checkout_try {B} c (f : unit -> rprog B) : (forall x, safe held (f x)) -> safe held (try (perform (Checkout c)) f).
Proof. apply safe_seq, preserves_checkout. Qed.

Lemma safe_lift_try {A B} (r : result OxanaError A) (f : A -> rprog B) :
  (forall a, r = Ok a -> safe held (f a)) -> safe held (try (lift r) f).
Proof. intros Hf. destruct r; [by apply Hf|done]. Qed.

Section OneStorage.
Variable st : StorageInternal.
Hypothesis Hst : storage_namespace st = requested.

Lemma own_queue_eq : current_processing_queue st = processing_queue keys (own_process_id st).
Proof. unfold current_processing_queue. by rewrite Hst. Qed.

(** [open_op]: name the keys after the shared namespace and pass the checkouts. *)
Ltac open_op := unfold connection, claimed_connection, stats_connection; rewrite ?Hst, ?own_queue_eq;
  repeat (apply safe_checkout_try; intros []).

Lemma safe_get_job_w_conn jid : safe held (get_job_w_conn st jid).
Proof. apply safe_seq; [by apply command_harmless|]. done. Qed.
Lemma safe_get_job jid : safe held (get_job st jid).
Proof. unfold get_job. open_op. apply safe_get_job_w_conn. Qed.

Lemma safe_claimed_read_loop jid attempts : forall r, safe held (claimed_read_loop st jid attempts r).
Proof.
  induction attempts as [|[] attempts IH]; intros [|]; cbn [claimed_read_loop]; try done;
    destruct (transient_payload_read_error _); try done.
  apply safe_pbind; [apply safe_get_job|done].
Qed.
Lemma safe_get_claimed_job jid attempts : safe held (get_claimed_job st jid attempts).
Proof. apply safe_pbind; [apply safe_get_job|apply safe_claimed_read_loop]. Qed.

Lemma safe_dequeue q : safe held (dequeue st q).
Proof.
  unfold dequeue, dequeue_w_conn. open_op. apply safe_perform, command_harmless. apply job_list_processing.
Qed.

(** What a read of a stored payload can tell. *)
Lemma stored_payload ks jid (h : gmap string string) text e :
  held ks -> hash_at ks (jobs keys) = Some h -> h !! jid = Some text -> from_str text = Ok e ->
  id e = jid /\ (jid = J -> durable e = true).
Proof. intros [(h' & Hh' & Hall & _) _] Hh Ht Hp. simplify_eq. by apply (Hall jid text). Qed.

Lemma hget_reply ks jid (payload : option string) :
  held ks -> fst (@run_event MemRedis _ (Cmd (HGET (jobs keys) jid)) ks) = Ok payload ->
  (jid = J -> is_Some payload) /\
  (forall text e, payload = Some text -> from_str text = Ok e -> id e = jid /\ (jid = J -> durable e = true)).
Proof.
  intros Hk H. pose proof Hk as [(h & Hh & Hall & HJ) _]. cbn in H. erewrite read_hash_ok in H by done.
  cbn in H. simplify_eq. split; [by intros ->|]. intros text e Ht Hp. by eapply stored_payload.
Qed.

Lemma durable_retries err e : durable (with_retries_incremented err e) = durable e.
Proof. done. Qed.

Lemma safe_retry_found e delay_s err now : (id e = J -> durable e = true) ->
  safe held (retry_found st e delay_s err now).
Proof.
  intros Hd. unfold retry_found. apply safe_lift_try. intros text Hp. apply safe_perform. open_op.
  apply retry_script_preserves. by apply (entry_ok_print _ _ Hp).
Qed.

Lemma safe_retry_in jid delay_s err now : safe held (retry_in st jid delay_s err now).
Proof.
  unfold retry_in. open_op. unfold get_job_w_conn, try at 2. rewrite ?Hst. cbn [pbind].
  split; [by apply command_harmless|]. intros r [->|(ks & Hk & ->)]; [done|].
  destruct (fst _) as [payload|e] eqn:E; [|done]. destruct (hget_reply ks jid payload Hk E) as [HJ Hp].
  destruct payload as [text|]; cbn -[retry_found].
  - unfold parse_job. destruct (from_str text) as [e|] eqn:Ep; [|done]. cbn -[retry_found].
    apply safe_retry_found. destruct (Hp text e eq_refl Ep) as [<- ?]. done.
  - split; [|done]. apply command_harmless. cbn. intros ->. by destruct (HJ eq_refl).
Qed.

Lemma safe_finish es : J ∉ id <$> es -> safe held (finish_with_success_batch st es).
Proof.
  intros Hn. unfold finish_with_success_batch. destruct es as [|e es]; [done|]. open_op.
  apply safe_perform, script_harmless, require_types_harmless. revert Hn. generalize (id <$> e :: es).
  intros ids. induction ids as [|x ids IH]; cbn [acknowledge_each]; [done|]. intros Hn. cbn.
  split; [set_solver|]. intros _. split; [set_solver|]. intros _. apply IH. set_solver.
Qed.

Lemma safe_kill e err : id e <> J -> safe held (kill st e err).
Proof.
  intros Hn. unfold kill. open_op. apply safe_lift_try. intros text _.
  apply safe_perform, script_harmless, require_types_harmless. cbn.
  split; [done|]. intros _. split; [set_solver|]. intros _. split; [done|]. intros _.
  destruct (0 <? _)%Z; cbn; [|done]. split; [apply dead_not_job_list|done].
Qed.

Lemma safe_delete_job jid : jid <> J -> safe held (delete_job st jid).
Proof.
  intros Hn. unfold delete_job. open_op. apply safe_seq; [by apply command_harmless|]. intros raw.
  apply safe_try.
  - destruct (raw ≫= payload_queue); [done|]. case_decide; [|done].
    unfold scan_keys_w_conn. apply safe_seq; [by apply command_harmless|]. done.
  - intros qs. apply safe_perform, multi_harmless. apply Forall_app. split.
    + repeat constructor; cbn; auto. intros _. set_solver.
    + apply Forall_fmap, Forall_true. done.
Qed.

Lemma safe_update_job e : (id e = J -> durable e = true) -> safe held (update_job st e).
Proof.
  intros Hd. unfold update_job. open_op. apply safe_lift_try. intros text Hp. apply safe_pipe.
  constructor; [|done]. apply command_harmless. intros _. by apply (entry_ok_print _ _ Hp).
Qed.

Lemma collect_prints es items :
  collect ((fun e => res_map (fun text => (id e, text)) (print_job e)) <$> es) = Ok items ->
  Forall (fun e => id e = J -> durable e = true) es -> Forall (fun p => entry_ok p.1 p.2) items.
Proof.
  intros Hc Hes. revert items Hc. induction Hes as [|e es He _ IH]; intros items Hc; cbn in Hc; [by simplify_eq|].
  destruct (print_job e) as [text|] eqn:Ep; [|done]. cbn in Hc.
  destruct (collect _) as [items'|]; [|done]. cbn in Hc. simplify_eq.
  constructor; [by apply entry_ok_print|by apply IH].
Qed.

Lemma safe_update_jobs es : Forall (fun e => id e = J -> durable e = true) es -> safe held (update_jobs st es).
Proof.
  intros Hes. unfold update_jobs. destruct es as [|e es]; [done|]. apply safe_lift_try. intros items Hc.
  open_op. apply safe_perform, command_harmless. intros _. by eapply collect_prints.
Qed.

Lemma safe_set_started_at_batch now es :
  Forall (fun e => id e = J -> durable e = true) es -> safe held (set_started_at_batch st now es).
Proof.
  intros Hes. unfold set_started_at_batch. apply safe_pbind; [|done]. apply safe_update_jobs.
  apply Forall_fmap. eapply Forall_impl; [exact Hes|done].
Qed.

Lemma safe_update_state jid v : safe held (update_state st jid v).
Proof.
  unfold update_state, get_job, connection. unfold try at 1 2. cbn [pbind perform].
  split; [apply preserves_checkout|]. intros [[]|e] _; [|done]. unfold get_job_w_conn, try at 1. rewrite ?Hst.
  cbn [pbind call perform]. split; [by apply command_harmless|].
  intros r [->|(ks & Hk & ->)]; [done|].
  destruct (fst _) as [payload|e] eqn:E; [|done]. destruct (hget_reply ks jid payload Hk E) as [HJ Hp].
  destruct payload as [text|]; cbn -[update_job]; [|done].
  unfold parse_job. destruct (from_str text) as [e|] eqn:Ep; [|done]. cbn -[update_job].
  apply safe_update_job. destruct (Hp text e eq_refl Ep) as [<- ?]. done.
Qed.

(** *** Promotion and resurrection *)

Lemma safe_snapshot_then {B} jid (k : option string -> option JobEnvelope -> rprog B) (g : OxanaError -> rprog B) :
  (forall payload envelope,
     (jid = J -> exists e, envelope = Some e /\ durable e = true) -> safe held (k payload envelope)) ->
  (forall e, safe held (g e)) ->
  safe held (pbind (transition_snapshot st jid) (fun r =>
    match r with Ok (payload, envelope) => k payload envelope | Err e => g e end)).
Proof.
  intros Hok Hg. unfold transition_snapshot, try. rewrite ?Hst. cbn [pbind call perform].
  split; [by apply command_harmless|]. intros r [->|(ks & Hk & ->)]; [apply Hg|].
  destruct (fst _) as [payload|e] eqn:E; [|apply Hg]. destruct (hget_reply ks jid payload Hk E) as [HJ Hp].
  destruct payload as [text|]; cbn.
  - unfold parse_job. destruct (from_str text) as [e|] eqn:Ep; cbn; [|apply Hg]. apply Hok.
    intros ->. exists e. split; [done|]. by apply (Hp text e eq_refl Ep).
  - apply Hok. intros ->. by destruct (HJ eq_refl).
Qed.

Lemma durable_plain e : durable e = true -> starts_with (namespace keys) (queue e) = false /\ resurrect (meta e) = true.
Proof. unfold durable. rewrite !andb_true_iff, negb_true_iff. naive_solver. Qed.

Lemma safe_promote sq due : job_zset sq -> forall count, safe held (promote_scheduled_jobs st sq due count).
Proof.
  intros Hsq. induction due as [|[jid score] due IH]; intros count; cbn [promote_scheduled_jobs]; [done|].
  apply safe_snapshot_then.
  - intros payload envelope Henv. apply safe_seq; [|auto]. rewrite ?Hst.
    apply promote_script_preserves; [done|]. intros ->. destruct Henv as (e & -> & Hd); [done|].
    by apply durable_plain.
  - intros e. by destruct (is_json_error e).
Qed.

Lemma safe_enqueue_scheduled sq now : job_zset sq -> safe held (enqueue_scheduled st sq now).
Proof.
  intros Hsq. unfold enqueue_scheduled. open_op. apply safe_seq; [by apply command_harmless|]. intros due.
  by apply safe_promote.
Qed.

Lemma safe_retry_all_now : safe held (retry_all_now st).
Proof.
  unfold retry_all_now. open_op. apply safe_seq; [by apply command_harmless|]. intros all.
  apply safe_promote. by right.
Qed.

Lemma safe_resurrect_claims pid ids : forall count,
  safe held (resurrect_claims st (processing_queue keys pid) ids count).
Proof.
  induction ids as [|jid ids IH]; intros count; cbn [resurrect_claims]; [done|].
  apply safe_snapshot_then.
  - intros payload envelope Henv. apply safe_seq; [|auto]. rewrite ?Hst.
    apply resurrect_script_preserves. intros ->. destruct Henv as (e & -> & Hd); [done|].
    by apply durable_plain.
  - intros e. by destruct (is_json_error e).
Qed.

Lemma processes_not_job_zset : ~ job_zset (processes keys).
Proof. intros [H|H]; by apply string_app_inj_l in H. Qed.
Lemma processes_data_ne_jobs : processes_data keys <> jobs keys.
Proof. intros H. by apply string_app_inj_l in H. Qed.

(** The registration of a process is none of the job's data. *)
Lemma safe_forget_process pid :
  safe held (pipe [ZREM (processes keys) pid; HDEL (processes_data keys) [pid]]).
Proof.
  apply safe_pipe. constructor; [|constructor; [|done]]; apply command_harmless; cbn.
  - by intros ?%processes_not_job_zset.
  - by intros ?%processes_data_ne_jobs.
Qed.

Lemma safe_resurrect_process pid : safe held (resurrect_process st pid).
Proof.
  unfold resurrect_process. rewrite ?Hst. apply safe_seq; [by apply command_harmless|]. intros ids.
  apply safe_try; [apply safe_resurrect_claims|]. intros _. apply safe_seq; [by apply command_harmless|].
  intros [|]; [apply safe_forget_process|done].
Qed.

Lemma safe_resurrect_dead threshold now_ms : safe held (resurrect_dead st threshold now_ms).
Proof.
  unfold resurrect_dead. open_op. apply safe_try.
  - unfold dead_process_ids, scan_keys_w_conn. apply safe_try.
    + apply safe_seq; [by apply command_harmless|done].
    + intros lists. unfold dead_process_ids_in. apply safe_seq; [by apply command_harmless|done].
  - intros pids. induction pids as [|pid pids IH]; cbn [resurrect_processes]; [done|].
    apply safe_try; [apply safe_resurrect_process|done].
Qed.

Lemma safe_self_cleanup : safe held (self_cleanup st).
Proof. unfold self_cleanup. open_op. apply safe_forget_process. Qed.

Lemma safe_ping {P : ProcessSerde} now_ms now : safe held (ping st now_ms now).
Proof.
  unfold ping. open_op. apply safe_lift_try. intros text _. apply safe_pipe.
  constructor; [|constructor; [|done]]; apply command_harmless; cbn; [done|].
  by intros ?%processes_data_ne_jobs.
Qed.

(** *** Cleanup before the job expires *)

Lemma durable_not_expired now e : (now <= until)%Z -> durable e = true -> expired now e = false.
Proof.
  unfold durable, expired. rewrite !andb_true_iff, Z.leb_le, Z.ltb_ge. intros Hnow [_ Hc].
  etrans; [|apply (Z.quot_le_mono (created_at (meta e)) _ 1000000); lia]. lia.
Qed.

Lemma hscan_reply ks cursor now page :
  (now <= until)%Z -> held ks -> fst (@run_event MemRedis _ (Cmd (HSCAN (jobs keys) cursor)) ks) = Ok page ->
  J ∉ (filter (fun item => cleanable now item = true) page.2).*1.
Proof.
  intros Hnow [(h & Hh & Hall & HJ) _] H. cbn in H. erewrite read_hash_ok in H by done. cbn in H. simplify_eq.
  cbn [snd]. intros [[f text] [Ef [Hc Hin]%list_elem_of_filter]]%list_elem_of_fmap. cbn in Ef. subst f.
  apply elem_of_map_to_list in Hin. destruct (Hall _ _ Hin) as [Hok Hparse].
  destruct (Hparse eq_refl) as [e He]. unfold cleanable in Hc. cbn [snd] in Hc. rewrite He in Hc.
  rewrite durable_not_expired in Hc; [done|done|]. by apply (Hok e He).
Qed.

Lemma safe_scan_cleanable {B} fuel now (f : list JobId -> rprog B) : (now <= until)%Z ->
  (forall ids, J ∉ ids -> safe held (f ids)) ->
  forall cursor acc, J ∉ acc -> safe held (try (scan_cleanable st fuel cursor now acc) f).
Proof.
  intros Hnow Hf. induction fuel as [|fuel IH]; intros cursor acc Hacc; cbn [scan_cleanable]; [done|].
  unfold try at 1 2, call, perform. rewrite ?Hst. cbn [pbind]. split; [by apply command_harmless|].
  intros r [->|(ks & Hk & ->)]; [done|]. destruct (fst _) as [page|e] eqn:E; [|done].
  pose proof (hscan_reply ks cursor now page Hnow Hk E) as Hp. cbn [pbind].
  assert (J ∉ acc ++ (filter (fun item => cleanable now item = true) page.2).*1) by set_solver.
  destruct (decide (page.1 = 0%Z)); [by apply Hf|by apply IH].
Qed.

Lemma safe_cleanup fuel now : (now <= until)%Z -> safe held (cleanup st fuel now).
Proof.
  intros Hnow. unfold cleanup. open_op. apply safe_scan_cleanable; [done| |set_solver].
  intros [|x ids] Hn; [done|]. rewrite ?Hst. apply safe_seq; [apply command_harmless; by intros _|done].
Qed.

(** *** Enqueueing *)

Local Abbreviation good e := (id e = J -> durable e = true).

Lemma safe_ordinary dest es : Forall (fun e => good e) es -> safe held (enqueue_ordinary st dest es).
Proof.
  intros Hes. unfold enqueue_ordinary. apply safe_lift_try. intros cmds Hc. apply safe_pipe.
  revert cmds Hc. induction Hes as [|e es He _ IH]; intros cmds Hc; cbn in Hc; [by simplify_eq|].
  unfold ordinary_commands in Hc at 1. destruct (print_job e) as [text|] eqn:Ep; [|done]. cbn in Hc.
  destruct (collect _) as [cmds'|]; [|done]. cbn in Hc. simplify_eq. cbn [concat].
  apply Forall_app. split; [|by apply IH]. constructor; [|constructor; [|done]]; apply command_harmless.
  - rewrite ?Hst. intros _. by apply entry_ok_print.
  - by destruct dest.
Qed.

Lemma serialize_ok es pending : serialize_pending es = Ok pending -> Forall (fun e => good e) es ->
  Forall input_ok (enqueue_arg_of st <$> pending).
Proof.
  unfold serialize_pending. intros Hc Hes. revert pending Hc.
  induction Hes as [|e es He _ IH]; intros pending Hc; cbn in Hc; [by simplify_eq|].
  destruct (print_job e) as [text|] eqn:Ep; [|done]. cbn in Hc.
  destruct (collect _) as [pending'|]; [|done]. cbn in Hc. simplify_eq. cbn [fmap list_fmap].
  constructor; [|by apply IH]. split; [by apply entry_ok_print|]. cbn. rewrite ?Hst. intros HJ.
  exists (queue e). split; [|done]. by apply durable_plain, He.
Qed.

Lemma safe_enqueue_loop fuel dest pending : Forall input_ok (enqueue_arg_of st <$> pending) ->
  forall snaps written, safe held (enqueue_loop st fuel dest pending snaps written).
Proof.
  intros Hp. induction fuel as [|fuel IH]; intros snaps written; cbn [enqueue_loop]; [done|].
  apply safe_seq; [rewrite ?Hst; by apply enqueue_script_preserves|]. intros [[|c cs] outcomes]; cbn [fst]; [done|].
  apply safe_lift_try. auto.
Qed.

Lemma drop_seen_good es : Forall (fun e => good e) es ->
  forall written seen, Forall (fun e => good e) (drop_seen written seen es).
Proof.
  induction 1 as [|e es He _ IH]; intros written seen; cbn [drop_seen]; [done|].
  destruct (skips e && _); [apply IH|]. constructor; [done|apply IH].
Qed.

Lemma safe_pipe_query {X} (cs : list (rcmd X)) : Forall harmless cs -> safe held (pipe_query cs).
Proof.
  induction 1 as [|c cs Hc _ IH]; cbn; [done|]. split; [by apply command_harmless|]. intros r _.
  by apply safe_pbind.
Qed.

Lemma safe_enqueue_chunk fuel dest es written : Forall (fun e => good e) es ->
  safe held (enqueue_chunk st fuel dest es written).
Proof.
  intros Hes. unfold enqueue_chunk. destruct (forallb _ es).
  { apply safe_try; [by apply safe_ordinary|done]. }
  pose proof (drop_seen_good es Hes written ∅) as Hd. destruct (drop_seen written ∅ es) as [|e0 es0]; [done|].
  apply safe_try.
  { unfold read_snapshots. destruct (elements _); [done|]. apply safe_seq; [by apply command_harmless|done]. }
  intros snaps. apply safe_try.
  { unfold read_existing_skips. destruct (skip_ids _ _) as [|i ids]; [done|]. apply safe_try; [|done].
    apply safe_pipe_query. apply Forall_fmap, Forall_true. done. }
  intros existing. apply safe_lift_try. intros [|p ps] Hser; [done|]. apply safe_enqueue_loop.
  eapply serialize_ok; [exact Hser|]. rewrite Forall_forall in Hd. apply Forall_forall.
  intros e [_ He]%list_elem_of_filter. by apply Hd.
Qed.

Lemma safe_enqueue_w_conn fuel e dest : good e -> safe held (enqueue_w_conn st fuel e dest).
Proof. intros He. apply safe_try; [apply safe_enqueue_chunk; by constructor|done]. Qed.

Lemma safe_enqueue fuel e : good e -> safe held (enqueue st fuel e).
Proof. intros He. unfold enqueue. open_op. by apply safe_enqueue_w_conn. Qed.

Lemma safe_enqueue_at fuel e now : good e -> safe held (enqueue_at st fuel e now).
Proof.
  intros He. unfold enqueue_at. destruct (_ <=? _)%Z; [by apply safe_enqueue|].
  open_op. by apply safe_enqueue_w_conn.
Qed.

Lemma safe_enqueue_in fuel e delay now now_sched now_at :
  good e -> safe held (enqueue_in st fuel e delay now now_sched now_at).
Proof.
  intros He. unfold enqueue_in. case_decide; [by apply safe_enqueue|]. by apply safe_enqueue_at.
Qed.

Lemma safe_enqueue_list fuel es : Forall (fun e => good e) es -> safe held (enqueue_list st fuel es).
Proof.
  intros Hes. unfold enqueue_list. destruct es as [|e es]; [done|]. open_op.
  unfold enqueue_list_w_conn. apply safe_try; [|done]. unfold enqueue_list_chunks.
  pose proof (Forall_chunks _ ENQUEUE_LIST_CHUNK_SIZE _ Hes) as Hc. generalize (∅ : gset JobId).
  induction Hc as [|c cs Hc _ IH]; intros written; cbn [enqueue_each_chunk]; [done|].
  apply safe_try; [by apply safe_enqueue_chunk|auto].
Qed.

(** *** Counters *)

Lemma metrics_key_ne_jobs s : metrics_prefix keys +:+ s <> jobs keys.
Proof.
  change (metrics_prefix keys) with (namespace keys +:+ ":metrics").
  rewrite string_app_assoc. by intros H%string_app_inj_l.
Qed.
Lemma stats_ne_jobs : stats keys <> jobs keys.
Proof. by intros H%string_app_inj_l. Qed.

Lemma concat_harmless {A} (f : A -> list (rcmd unit)) l :
  (forall a, Forall harmless (f a)) -> Forall (fun c => preserves held (Cmd c)) (concat (f <$> l)).
Proof.
  intros Hf. induction l as [|a l IH]; cbn; [done|]. apply Forall_app. split; [|done].
  eapply Forall_impl; [apply Hf|]. by apply command_harmless.
Qed.

Lemma counter_commands_harmless key field incs :
  key <> jobs keys -> Forall harmless (counter_commands key field incs).
Proof.
  intros Hk. unfold counter_commands. apply Forall_app. split; [|by constructor].
  apply Forall_fmap, Forall_true. done.
Qed.

Lemma safe_flush_job_metrics b : safe held (flush_job_metrics st b).
Proof.
  unfold flush_job_metrics. destruct (buffer_is_empty b); [done|]. open_op. apply safe_pipe, Forall_app.
  split; apply concat_harmless; intros [[minute w] m]; cbn [job_metric_commands queue_metric_commands].
  - apply Forall_app. rewrite ?Hst. split; [apply counter_commands_harmless, metrics_key_ne_jobs|].
    by destruct (histogram_increments _); repeat constructor.
  - rewrite ?Hst. apply counter_commands_harmless, metrics_key_ne_jobs.
Qed.

Lemma safe_flush_result_stats m : safe held (flush_result_stats st m).
Proof.
  unfold flush_result_stats. case_decide; [done|]. open_op.
  assert (Forall (fun c => preserves held (Cmd c)) (concat (result_stat_commands st <$> map_to_list m))) as H0.
  { apply concat_harmless. intros [q s]. apply Forall_fmap, Forall_true. intros p. cbn. rewrite Hst.
    apply stats_ne_jobs. }
  destruct (concat _); [done|]. by apply safe_pipe.
Qed.
End OneStorage.

(** ** Programs

    What the processes of one namespace run: any sequence, also depending on
    the replies, of the operations on jobs. Finishing, killing and deleting are
    for other jobs than [J]; whoever writes a payload of [J] keeps it durable;
    cleanup runs with clocks up to [until]. Wiping a queue and reviving the
    dead letters are not among them. *)
Local Abbreviation good e := (id e = J -> durable e = true).

Inductive job_program : forall {A : Type}, prog A -> Prop :=
| jp_ret {A} (a : A) : job_program (Ret a)
| jp_bind {A B} (p : prog A) (f : A -> prog B) :
    job_program p -> (forall a, job_program (f a)) -> job_program (pbind p f)
| jp_get st jid : storage_namespace st = requested -> job_program (get_job st jid)
| jp_get_claimed st jid attempts : storage_namespace st = requested -> job_program (get_claimed_job st jid attempts)
| jp_dequeue st q : storage_namespace st = requested -> job_program (dequeue st q)
| jp_start st now es : storage_namespace st = requested -> Forall (fun e => good e) es ->
    job_program (set_started_at_batch st now es)
| jp_update st e : storage_namespace st = requested -> good e -> job_program (update_job st e)
| jp_state st jid v : storage_namespace st = requested -> job_program (update_state st jid v)
| jp_retry st jid delay_s err now : storage_namespace st = requested ->
    job_program (retry_in st jid delay_s err now)
| jp_finish st es : storage_namespace st = requested -> J ∉ id <$> es -> job_program (finish_with_success_batch st es)
| jp_kill st e err : storage_namespace st = requested -> id e <> J -> job_program (kill st e err)
| jp_delete st jid : storage_namespace st = requested -> jid <> J -> job_program (delete_job st jid)
| jp_promote st sq now : storage_namespace st = requested -> job_zset sq -> job_program (enqueue_scheduled st sq now)
| jp_retry_all st : storage_namespace st = requested -> job_program (retry_all_now st)
| jp_resurrect st threshold now_ms : storage_namespace st = requested -> job_program (resurrect_dead st threshold now_ms)
| jp_cleanup st fuel now : storage_namespace st = requested -> (now <= until)%Z -> job_program (cleanup st fuel now)
| jp_enqueue st fuel e : storage_namespace st = requested -> good e -> job_program (enqueue st fuel e)
| jp_enqueue_list st fuel es : storage_namespace st = requested -> Forall (fun e => good e) es ->
    job_program (enqueue_list st fuel es)
| jp_enqueue_in st fuel e delay now now_sched now_at : storage_namespace st = requested -> good e ->
    job_program (enqueue_in st fuel e delay now now_sched now_at)
| jp_ping {P : ProcessSerde} st now_ms now : storage_namespace st = requested -> job_program (ping st now_ms now)
| jp_self_cleanup st : storage_namespace st = requested -> job_program (self_cleanup st)
| jp_metrics st b : storage_namespace st = requested -> job_program (flush_job_metrics st b)
| jp_stats st m : storage_namespace st = requested -> job_program (flush_result_stats st m).

Lemma job_program_safe {A} (p : prog A) : job_program p -> safe held p.
Proof.
  induction 1; [done|by apply safe_pbind|..];
    auto using safe_get_job, safe_get_claimed_job, safe_dequeue, safe_set_started_at_batch, safe_update_job,
      safe_update_state, safe_retry_in, safe_finish, safe_kill, safe_delete_job, safe_enqueue_scheduled,
      safe_retry_all_now, safe_resurrect_dead, safe_cleanup, safe_enqueue, safe_enqueue_list, safe_enqueue_in,
      safe_ping, safe_self_cleanup, safe_flush_job_metrics, safe_flush_result_stats.
Qed.
End Held.


Lemma sample_held : held "app" "a" 0 sample_ks.
Proof.
  split.
  - exists {[ "a" := sample_text ]}. split; [exact (payloads_at _ _ sample_store)|]. split; [|by eexists].
    apply map_Forall_singleton. split.
    + intros e He. assert (e = sample_envelope "a" "q" false None) as -> by (vm_compute in He; by simplify_eq). done.
    + intros _. eexists. vm_compute. reflexivity.
  - eapply (in_list _ _ _ (current_processing_queue sample_storage) ["a"]); [right|vm_compute; reflexivity|by left].
    by exists (own_process_id sample_storage).
Qed.

