(* ===== verification/Places.v ===== *)
(** * Where a job is

    The ID of a job may lie in queues, in processing lists and in the two
    sorted sets of due jobs. [copies] counts its occurrences over all of them;
    [once] says that there is at most one, and none when no payload is stored;
    [whereabouts] is where the job then is. The commands that concern other
    jobs, and those that only store the payload of this one, keep [once] and
    leave the job where it is ([bystander]). *)
From S2P Require Import Prelude Errors Redis Envelope Codec Queue Keys Scripts Storage Enqueue EnqueueScript Durability.

(** Where a job is: nowhere, on a queue, with a process, or waiting for its time. *)
Inductive location := Nowhere | Queued (q : string) | Claimed (p : string) | Scheduled | Retrying.
#[global] Instance location_eq_dec : EqDecision location.
Proof. solve_decision. Defined.

(** What becomes of a job without a worker: it is enqueued, it becomes due, the
    claim of a stopped process is recovered. *)
Inductive drift (stopped : gset string) : location -> location -> Prop :=
| d_enqueued q : drift stopped Nowhere (Queued q)
| d_delayed : drift stopped Nowhere Scheduled
| d_due q : drift stopped Scheduled (Queued q)
| d_retried q : drift stopped Retrying (Queued q)
| d_recovered p q : p ∈ stopped -> drift stopped (Claimed p) (Queued q).

Definition drifts (stopped : gset string) (a b : location) : Prop := b = a \/ drift stopped a b.

Lemma drifts_trans stopped a b c : drifts stopped a b -> drifts stopped b c -> drifts stopped a c.
Proof.
  intros [->|H1] [->|H2]; [by left|by right..|]. right. inversion H1; subst; inversion H2; subst; by constructor.
Qed.
Lemma drifts_mono stopped stopped' a b : stopped ⊆ stopped' -> drifts stopped a b -> drifts stopped' a b.
Proof. intros Hsub [->|H]; [by left|]. right. inversion H; subst; constructor. set_solver. Qed.
Lemma drifts_claimed stopped p b : p ∉ stopped -> drifts stopped (Claimed p) b -> b = Claimed p.
Proof. intros Hp [->|H]; [done|]. by inversion H. Qed.

Section Places.
Context {S : Serde} {LS : LawfulSerde S}.
Variables (requested : string) (J : JobId) (until : Z).
Local Abbreviation keys := (new_keys requested).
Implicit Types (ks : keyspace) (k : string).

Definition plain_queue (q : string) : Prop := starts_with (namespace keys) q = false.

(** ** Counting *)

Definition list_place (k : string) : bool :=
  starts_with (namespace keys +:+ ":queue:") k || starts_with (namespace keys +:+ ":processing:") k.
Definition zset_place (k : string) : bool := bool_decide (k = schedule keys \/ k = retry keys).

Definition weight (k : string) (v : rval) : nat :=
  match v with
  | VList l => if list_place k then occurrences J l else 0
  | VZset z => if zset_place k then (if decide (is_Some (z !! J)) then 1 else 0) else 0
  | _ => 0
  end.

Definition copies (ks : keyspace) : nat := map_fold (fun k v n => weight k v + n) 0 ks.
Definition at_place (k : string) (ks : keyspace) : nat := from_option (weight k) 0 (ks !! k).
Definition claims_of (p : string) (ks : keyspace) : nat := at_place (processing_queue keys p) ks.

Lemma copies_at k ks : copies ks = at_place k ks + copies (delete k ks).
Proof.
  unfold at_place, copies. destruct (ks !! k) as [v|] eqn:E; cbn.
  - rewrite (map_fold_delete_L _ _ k v) by (try done; intros; lia). done.
  - by rewrite delete_id.
Qed.
Lemma copies_insert k v ks : copies (<[k := v]> ks) = weight k v + copies (delete k ks).
Proof. rewrite (copies_at k). unfold at_place. by rewrite lookup_insert_eq, delete_insert_eq. Qed.
Lemma copies_delete k ks : copies (delete k ks) <= copies ks.
Proof. rewrite (copies_at k ks). lia. Qed.

Lemma at_place_same k ks ks' : ks' !! k = ks !! k -> at_place k ks' = at_place k ks.
Proof. unfold at_place. by intros ->. Qed.
Lemma at_place_le k ks : at_place k ks <= copies ks.
Proof. rewrite (copies_at k ks). lia. Qed.
Lemma at_place_two k k' ks : k <> k' -> at_place k ks + at_place k' ks <= copies ks.
Proof.
  intros Hne. rewrite (copies_at k ks), (copies_at k' (delete k ks)).
  rewrite (at_place_same k' (delete k ks) ks) by (by rewrite lookup_delete_ne). lia.
Qed.

Lemma at_place_delete k k' ks : at_place k' (delete k ks) = if decide (k' = k) then 0 else at_place k' ks.
Proof. unfold at_place. case_decide as E; [subst; by rewrite lookup_delete_eq|by rewrite lookup_delete_ne]. Qed.
Lemma copies_zero ks : (forall k, at_place k ks = 0) -> copies ks = 0.
Proof.
  induction ks as [|k v m Hk IH] using map_ind; intros H; [done|]. rewrite (copies_at k), H, delete_insert_id by done.
  apply IH. intros k'. rewrite <- (delete_insert_id m k v) by done. rewrite at_place_delete. by case_decide.
Qed.
Lemma copies_ext ks ks' : (forall k, at_place k ks' = at_place k ks) -> copies ks' = copies ks.
Proof.
  revert ks. induction ks' as [|k v m Hk IH] using map_ind; intros ks H.
  - symmetry. apply copies_zero. intros k. by rewrite <- H.
  - rewrite (copies_at k), (copies_at k ks), H. f_equal. rewrite delete_insert_id by done. apply IH. intros k'.
    rewrite <- (delete_insert_id m k v) by done. rewrite !at_place_delete. by case_decide.
Qed.

Lemma at_list k ks l : list_at ks k = Some l -> at_place k ks = if list_place k then occurrences J l else 0.
Proof.
  unfold list_at, at_place. destruct (ks !! k) as [[]|]; intros; simplify_eq; cbn; [done|]. by destruct (list_place k).
Qed.
Lemma at_zset k ks z :
  zset_at ks k = Some z -> at_place k ks = if zset_place k then (if decide (is_Some (z !! J)) then 1 else 0) else 0.
Proof.
  unfold zset_at, at_place. destruct (ks !! k) as [[]|]; intros; simplify_eq; cbn; [done|].
  destruct (zset_place k); [|done]. by rewrite lookup_empty, decide_False by (by intros []).
Qed.
Lemma at_hash k ks h : hash_at ks k = Some h -> at_place k ks = 0.
Proof. unfold hash_at, at_place. by destruct (ks !! k) as [[]|]. Qed.

Lemma copies_put_list k l ks :
  copies (put_list k l ks) = (if list_place k then occurrences J l else 0) + copies (delete k ks).
Proof.
  unfold put_list. destruct l; [by destruct (list_place k)|]. by rewrite copies_insert.
Qed.
Lemma copies_put_zset k z ks :
  copies (put_zset k z ks) =
    (if zset_place k then (if decide (is_Some (z !! J)) then 1 else 0) else 0) + copies (delete k ks).
Proof.
  unfold put_zset. destruct (decide (z = ∅)) as [->|]; [|by rewrite copies_insert].
  destruct (zset_place k); [|done]. by rewrite lookup_empty, decide_False by (by intros []).
Qed.
Lemma copies_put_hash k h ks : copies (put_hash k h ks) = copies (delete k ks).
Proof. unfold put_hash. case_decide; [done|]. by rewrite copies_insert. Qed.

(** What a write changes is the count at its key. *)
Lemma copies_list k l l' ks : list_at ks k = Some l ->
  copies (put_list k l' ks) + (if list_place k then occurrences J l else 0) =
  copies ks + (if list_place k then occurrences J l' else 0).
Proof. intros Hl. rewrite copies_put_list, (copies_at k ks), (at_list k ks l) by done. lia. Qed.
Lemma copies_hash k h h' ks : hash_at ks k = Some h -> copies (put_hash k h' ks) = copies ks.
Proof. intros Hh. by rewrite copies_put_hash, (copies_at k ks), (at_hash k ks h). Qed.
Lemma copies_zset_add k z score ks : zset_at ks k = Some z -> zset_place k = true ->
  copies (put_zset k (<[J := score]> z) ks) <= copies ks + 1 /\ 1 <= copies (put_zset k (<[J := score]> z) ks).
Proof.
  intros Hz Hk. rewrite copies_put_zset, Hk, lookup_insert_eq, decide_True by done.
  pose proof (copies_delete k ks). lia.
Qed.
Lemma copies_zset_remove k z ks : zset_at ks k = Some z -> zset_place k = true -> is_Some (z !! J) ->
  copies (put_zset k (delete J z) ks) + 1 = copies ks.
Proof.
  intros Hz Hk HJ. rewrite copies_put_zset, Hk, lookup_delete_eq, (decide_False (P := is_Some None)) by (by intros []).
  rewrite (copies_at k ks), (at_zset k ks z), Hk, decide_True by done. lia.
Qed.

(** ** Keys *)

Lemma list_place_app s : list_place (namespace keys +:+ ":" +:+ s) = starts_with "queue:" s || starts_with "processing:" s.
Proof.
  unfold list_place. f_equal; rewrite eq_iff_eq_true, !starts_with_true; split.
  1,3: intros [t H]; rewrite string_app_assoc in H; apply string_app_inj_l in H; exists t; by injection H.
  all: intros [t ->]; exists t; by rewrite string_app_assoc.
Qed.
Lemma processing_place p : list_place (processing_queue keys p) = true.
Proof. rewrite processing_queue_eq. exact (list_place_app ("processing:" +:+ p)). Qed.
Lemma queue_place q : plain_queue q -> list_place (namespace_queue keys q) = true.
Proof. intros Hq. rewrite namespace_queue_plain by done. exact (list_place_app ("queue:" +:+ q)). Qed.
Lemma jobs_no_place : list_place (jobs keys) = false.
Proof. exact (list_place_app "jobs"). Qed.
Lemma dead_no_place : list_place (dead keys) = false.
Proof. exact (list_place_app "dead"). Qed.
Lemma processing_no_zset p : zset_place (processing_queue keys p) = false.
Proof.
  apply bool_decide_eq_false. intros [H|H]; revert H; apply not_eq_sym; auto with keys.
Qed.
Lemma schedule_place : zset_place (schedule keys) = true.
Proof. apply bool_decide_eq_true. by left. Qed.
Lemma retry_place : zset_place (retry keys) = true.
Proof. apply bool_decide_eq_true. by right. Qed.

(** ** The invariant *)

(** What is stored under a field, if it is an envelope, is the job of that
    name, on an ordinary queue; the payload of [J] is durable. *)
Definition entry_fits (f text : string) : Prop :=
  entry_ok requested J until f text /\ forall e, from_str text = Ok e -> plain_queue (queue e).

Definition once (ks : keyspace) : Prop :=
  exists h, hash_at ks (jobs keys) = Some h /\ map_Forall entry_fits h /\
    copies ks <= 1 /\ (h !! J = None -> copies ks = 0).

Lemma once_copies ks : once ks -> copies ks <= 1.
Proof. by intros (h & _ & _ & ? & _). Qed.
Lemma once_at ks k : once ks -> at_place k ks <= 1.
Proof. intros H%once_copies. pose proof (at_place_le k ks). lia. Qed.

(** ** Whereabouts *)

Definition place_of (k : string) : location :=
  if decide (k = schedule keys) then Scheduled
  else if decide (k = retry keys) then Retrying
  else match strip_prefix (processing_queue_prefix keys +:+ ":") k with
       | Some p => Claimed p
       | None => Queued (default k (queue_of_key keys k))
       end.
Definition where_is (ks : keyspace) : option string := head (filter (fun k => 0 < at_place k ks) (map_to_list ks).*1).
Definition whereabouts (ks : keyspace) : location := from_option place_of Nowhere (where_is ks).

Lemma place_of_schedule : place_of (schedule keys) = Scheduled.
Proof. unfold place_of. by rewrite decide_True. Qed.
Lemma place_of_retry : place_of (retry keys) = Retrying.
Proof. unfold place_of. rewrite decide_False by (apply not_eq_sym; auto with keys). by rewrite decide_True. Qed.
Lemma place_of_processing p : place_of (processing_queue keys p) = Claimed p.
Proof.
  unfold place_of. rewrite !decide_False by (apply not_eq_sym; auto with keys). unfold processing_queue.
  rewrite <- string_app_assoc. by rewrite strip_prefix_app.
Qed.
Lemma place_of_queue q : plain_queue q -> place_of (namespace_queue keys q) = Queued q.
Proof.
  intros Hq. unfold place_of. rewrite !decide_False by (apply not_eq_sym; auto with keys).
  destruct (strip_prefix _ _) as [p|] eqn:E.
  - apply strip_prefix_Some in E. rewrite string_app_assoc in E. exfalso.
    by apply (processing_ne_queue requested q Hq p).
  - by rewrite queue_of_namespace_queue.
Qed.
Lemma place_of_claimed k p : place_of k = Claimed p -> k = processing_queue keys p.
Proof.
  unfold place_of. do 2 (case_decide; [done|]). destruct (strip_prefix _ _) as [p'|] eqn:E; [|done]. intros [= ->].
  apply strip_prefix_Some in E. by rewrite string_app_assoc in E.
Qed.

Lemma where_is_at ks k : where_is ks = Some k -> 0 < at_place k ks.
Proof.
  unfold where_is. intros H. destruct (filter _ _) as [|k0 l] eqn:E; [done|]. cbn in H. injection H as ->.
  assert (k ∈ filter (fun k => 0 < at_place k ks) (map_to_list ks).*1) as Hin by (rewrite E; by left).
  by apply list_elem_of_filter in Hin as [? _].
Qed.
Lemma where_is_found ks k : 0 < at_place k ks -> is_Some (where_is ks).
Proof.
  intros Hk. assert (k ∈ filter (fun k => 0 < at_place k ks) (map_to_list ks).*1) as Hin.
  { apply list_elem_of_filter. split; [done|]. unfold at_place in Hk. destruct (ks !! k) as [v|] eqn:E; [|cbn in Hk; lia].
    apply list_elem_of_fmap. exists (k, v). split; [done|]. by apply elem_of_map_to_list. }
  unfold where_is. destruct (filter _ _); [by apply elem_of_nil in Hin|by eexists].
Qed.
Lemma where_is_unique ks k k' : once ks -> 0 < at_place k ks -> 0 < at_place k' ks -> k = k'.
Proof.
  intros Hk H H'. destruct (decide (k = k')) as [|Hne]; [done|]. pose proof (at_place_two k k' ks Hne).
  apply once_copies in Hk. lia.
Qed.
Lemma whereabouts_at ks k : once ks -> 0 < at_place k ks -> whereabouts ks = place_of k.
Proof.
  intros Hk H. unfold whereabouts. destruct (where_is_found ks k H) as [k' E]. rewrite E. cbn. f_equal.
  eapply where_is_unique; [done|by apply where_is_at|done].
Qed.
Lemma whereabouts_nowhere ks : copies ks = 0 -> whereabouts ks = Nowhere.
Proof.
  intros H. unfold whereabouts. destruct (where_is ks) as [k|] eqn:E; [|done]. apply where_is_at in E.
  pose proof (at_place_le k ks). lia.
Qed.
Lemma whereabouts_same ks ks' : once ks -> (forall k, at_place k ks' = at_place k ks) -> whereabouts ks' = whereabouts ks.
Proof.
  intros Hk H. unfold whereabouts. destruct (where_is ks') as [k'|] eqn:E'.
  - apply where_is_at in E'. rewrite H in E'. symmetry. by apply whereabouts_at.
  - destruct (where_is ks) as [k|] eqn:E; [|done]. apply where_is_at in E. rewrite <- H in E.
    destruct (where_is_found ks' k E) as [? ?]. congruence.
Qed.

(** A claim of [p] is what its whereabouts say. *)
Lemma whereabouts_claim ks p : once ks -> whereabouts ks = Claimed p <-> 0 < claims_of p ks.
Proof.
  intros Hk. split; unfold claims_of.
  - unfold whereabouts. destruct (where_is ks) as [k|] eqn:E; [|done]. cbn. intros ->%place_of_claimed. by apply where_is_at.
  - intros H. rewrite (whereabouts_at _ _ Hk H). apply place_of_processing.
Qed.

(** A change that keeps [once] and moves the job only as it may without a worker. *)
Variable stopped : gset string.
Definition steady (ks ks' : keyspace) : Prop :=
  once ks -> once ks' /\ drifts stopped (whereabouts ks) (whereabouts ks').

Lemma steady_refl ks : steady ks ks.
Proof. intros H. split; [done|by left]. Qed.
Lemma steady_trans ks1 ks2 ks3 : steady ks1 ks2 -> steady ks2 ks3 -> steady ks1 ks3.
Proof.
  intros H1 H2 Hk. destruct (H1 Hk) as [Hk2 Hc]. destruct (H2 Hk2) as [Hk3 Hc']. split; [done|by eapply drifts_trans].
Qed.
Lemma steady_claims ks ks' p : steady ks ks' -> once ks -> p ∉ stopped -> claims_of p ks <= claims_of p ks'.
Proof.
  intros Hs Hk Hp. destruct (Hs Hk) as [Hk' Hd]. destruct (decide (0 < claims_of p ks)) as [Hc|]; [|lia].
  pose proof (once_at ks (processing_queue keys p) Hk). apply (whereabouts_claim ks p Hk) in Hc as E. rewrite E in Hd.
  apply drifts_claimed, (whereabouts_claim ks' p Hk') in Hd; [|done]. unfold claims_of in *. lia.
Qed.

(** A change that leaves every count as it is. *)
Lemma still_steady ks ks' : (forall k, at_place k ks' = at_place k ks) ->
  (forall h, hash_at ks (jobs keys) = Some h -> map_Forall entry_fits h -> exists h', hash_at ks' (jobs keys) = Some h' /\
     map_Forall entry_fits h' /\ (is_Some (h !! J) -> is_Some (h' !! J))) -> steady ks ks'.
Proof.
  intros Hat Hjobs Hk. split; [|left; by apply whereabouts_same]. destruct Hk as (h & Hh & Hok & Hc & H0).
  destruct (Hjobs h Hh Hok) as (h' & Hh' & Hok' & HJ). exists h'. rewrite (copies_ext ks ks') by done.
  split_and!; [done..|]. intros HN. apply H0. destruct (h !! J); [|done]. destruct HJ; [done|congruence].
Qed.

Lemma put_hash_steady k h h' ks : hash_at ks k = Some h ->
  (k = jobs keys -> map_Forall entry_fits h -> map_Forall entry_fits h' /\ (is_Some (h !! J) -> is_Some (h' !! J))) ->
  steady ks (put_hash k h' ks).
Proof.
  intros Hh Hk. apply still_steady.
  - intros k'. destruct (decide (k' = k)) as [->|Hne]; [|by apply at_place_same, lookup_put_hash_ne].
    by rewrite (at_hash k ks h), (at_hash k _ h') by (done || apply hash_at_put_hash).
  - intros h0 Hh0 Hok. destruct (decide (k = jobs keys)) as [->|Hne].
    + simplify_eq. exists h'. rewrite hash_at_put_hash. split; [done|]. by apply Hk.
    + exists h0. by rewrite hash_at_put_hash_ne.
Qed.

Lemma put_list_steady k l l' ks : list_at ks k = Some l -> (k = jobs keys -> l = [] -> l' = []) ->
  (list_place k = true -> occurrences J l' = occurrences J l) -> steady ks (put_list k l' ks).
Proof.
  intros Hl Hj Hocc. apply still_steady.
  - intros k'. destruct (decide (k' = k)) as [->|Hne]; [|by apply at_place_same, lookup_put_list_ne].
    rewrite (at_list k ks l), (at_list k _ l') by (done || apply list_at_put_list). destruct (list_place k); auto.
  - intros h Hh Hok. exists h. split; [|done]. destruct (decide (k = jobs keys)) as [->|Hne]; [|by ks_simp].
    destruct (list_not_hash _ _ _ _ Hl Hh) as [-> ->]. rewrite (Hj eq_refl eq_refl).
    unfold put_list, hash_at. by rewrite lookup_delete_eq.
Qed.

Lemma put_zset_steady k z z' ks : zset_at ks k = Some z -> k <> jobs keys ->
  (zset_place k = true -> is_Some (z' !! J) <-> is_Some (z !! J)) -> steady ks (put_zset k z' ks).
Proof.
  intros Hz Hj HJ. apply still_steady.
  - intros k'. destruct (decide (k' = k)) as [->|Hne]; [|by apply at_place_same, lookup_put_zset_ne].
    rewrite (at_zset k ks z), (at_zset k _ z') by (done || apply zset_at_put_zset). destruct (zset_place k); [|done].
    specialize (HJ eq_refl). repeat case_decide; tauto.
  - intros h Hh Hok. exists h. by ks_simp.
Qed.

(** A key written as a whole, its count unchanged. *)
Lemma replace_steady k v ks : k <> jobs keys -> from_option (weight k) 0 v = at_place k ks ->
  steady ks (partial_alter (fun _ => v) k ks).
Proof.
  intros Hj Hk. assert (forall k', k' <> k -> partial_alter (fun _ => v) k ks !! k' = ks !! k') as Hsame
    by (intros; by rewrite lookup_partial_alter_ne).
  apply still_steady.
  - intros k'. destruct (decide (k' = k)) as [->|Hne]; [|by apply at_place_same, Hsame].
    unfold at_place at 1. by rewrite lookup_partial_alter_eq.
  - intros h Hh Hok. exists h. unfold hash_at. by rewrite Hsame.
Qed.

(** ** Commands of bystanders *)

Definition no_place (k : string) : Prop := k <> jobs keys /\ list_place k = false /\ zset_place k = false.

Definition bystander {X} (c : rcmd X) : Prop :=
  match c with
  | HSET k f v => k = jobs keys -> entry_fits f v
  | HSETM k fvs => k = jobs keys -> Forall (fun p => entry_fits p.1 p.2) fvs
  | HDEL k fs => k = jobs keys -> J ∉ fs
  | HINCRBY k _ _ => k <> jobs keys
  | LPUSH k v => k <> jobs keys /\ (list_place k = true -> v <> J)
  | RPUSH k vs => k <> jobs keys /\ (list_place k = true -> J ∉ vs)
  | LREM _ _ v => v <> J
  | LTRIM k _ _ => k <> jobs keys /\ list_place k = false
  | LMOVE _ _ => False
  | ZADD k _ m => k <> jobs keys /\ (zset_place k = true -> m <> J)
  | ZADDM k _ => k <> jobs keys /\ zset_place k = false
  | ZREM k m => k <> jobs keys /\ (zset_place k = true -> m <> J)
  | ZREMRANGEBYSCORE k _ _ => k <> jobs keys /\ zset_place k = false
  | DEL k => no_place k
  | RENAME k k' => no_place k /\ no_place k'
  | BITFIELD_INCR k _ => k <> jobs keys
  | _ => True
  end.

Lemma occurrences_lrem n x l : x <> J -> occurrences J (lrem n x l) = occurrences J l.
Proof.
  intros Hx. destruct n as [|n]; cbn [lrem].
  - unfold occurrences. rewrite list_filter_filter. f_equal. apply list_filter_iff. naive_solver.
  - generalize (Datatypes.S n). clear n. induction l as [|y l IH]; intros [|n]; cbn [lrem_first]; try done.
    case_decide as Hy; rewrite !occurrences_cons, IH; [|done]. subst. by rewrite decide_False.
Qed.
Lemma occurrences_none l : J ∉ l -> occurrences J l = 0.
Proof. rewrite occurrences_pos. lia. Qed.

Lemma write_hash_steady k f ks :
  (k = jobs keys -> forall h, map_Forall entry_fits h -> map_Forall entry_fits (f h) /\ (is_Some (h !! J) -> is_Some (f h !! J))) ->
  steady ks (snd (write_hash k ks f)).
Proof.
  intros Hf. unfold write_hash. destruct (hash_at ks k) as [h|] eqn:E; [|apply steady_refl].
  apply (put_hash_steady k h); auto.
Qed.
Lemma write_list_steady k f ks : (k = jobs keys -> f [] = []) ->
  (list_place k = true -> forall l, occurrences J (f l) = occurrences J l) -> steady ks (snd (write_list k ks f)).
Proof.
  intros Hj Hf. unfold write_list. destruct (list_at ks k) as [l|] eqn:E; [|apply steady_refl].
  apply (put_list_steady k l); [done|naive_solver|auto].
Qed.
Lemma write_zset_steady k f ks : k <> jobs keys ->
  (zset_place k = true -> forall z, is_Some (f z !! J) <-> is_Some (z !! J)) -> steady ks (snd (write_zset k ks f)).
Proof.
  intros Hj Hf. unfold write_zset. destruct (zset_at ks k) as [z|] eqn:E; [|apply steady_refl].
  apply (put_zset_steady k z); auto.
Qed.

Lemma no_place_weight k ks : no_place k -> at_place k ks = 0.
Proof. intros (_ & Hl & Hz). unfold at_place. destruct (ks !! k) as [[]|]; cbn; by rewrite ?Hl, ?Hz. Qed.
Lemma delete_steady k ks : no_place k -> steady ks (delete k ks).
Proof. intros Hk. apply (replace_steady k None); [apply Hk|]. by rewrite no_place_weight. Qed.

Lemma hset_all_fits fvs h : Forall (fun p => entry_fits p.1 p.2) fvs -> map_Forall entry_fits h ->
  map_Forall entry_fits (hset_all fvs h) /\ (is_Some (h !! J) -> is_Some (hset_all fvs h !! J)).
Proof.
  unfold hset_all. intros Hf. revert h. induction Hf as [|[f v] fvs Hfv _ IH]; intros h Hh; cbn; [done|].
  destruct (IH (<[f := v]> h)) as [? HJ]; [by apply map_Forall_insert_2|]. split; [done|]. intros. by apply HJ, insert_keeps.
Qed.
Lemma hdel_all_fits fs h : map_Forall entry_fits h -> map_Forall entry_fits (hdel_all fs h).
Proof. intros Hh f v. rewrite hdel_all_lookup. case_decide; [done|apply Hh]. Qed.

Lemma bystander_steady {X} (c : rcmd X) ks : bystander c -> steady ks (snd (documented c ks)).
Proof.
  intros Hc. destruct c; cbn [bystander documented] in *;
    rewrite ?reads_read_hash, ?reads_read_list, ?reads_read_zset; try apply steady_refl; try done.
  - (* DEL *) by apply delete_steady.
  - (* RENAME *) destruct Hc as [? (? & Hl & Hz)]. destruct (ks !! k) as [v|]; [|apply steady_refl]. cbn [snd].
    eapply steady_trans; [by apply (delete_steady k)|]. apply (replace_steady k' (Some v)); [done|].
    rewrite no_place_weight by done. destruct v; cbn; by rewrite ?Hl, ?Hz.
  - (* HSET *) apply write_hash_steady. intros Hj h Hh. split; [apply map_Forall_insert_2; auto|apply insert_keeps].
  - (* HSETM *) apply write_hash_steady. intros Hj h Hh. apply hset_all_fits; auto.
  - (* HDEL *) apply write_hash_steady. intros Hj h Hh. split; [by apply hdel_all_fits|].
    rewrite hdel_all_lookup, decide_False; auto.
  - (* LPUSH *) destruct Hc as [Hj Hv]. apply write_list_steady; [done|]. intros Hk l.
    rewrite occurrences_cons, decide_False; auto.
  - (* RPUSH *) destruct Hc as [Hj Hv]. apply write_list_steady; [done|]. intros Hk l.
    rewrite occurrences_app, (occurrences_none vs); auto.
  - (* LREM *) apply write_list_steady; [by destruct n|]. intros _ l. by apply occurrences_lrem.
  - (* LTRIM *) destruct Hc as [Hj Hv]. apply write_list_steady; [done|]. congruence.
  - (* ZADD *) destruct Hc as [Hj Hv]. apply write_zset_steady; [done|]. intros Hk z. rewrite lookup_insert_ne; auto.
  - (* ZREM *) destruct Hc as [Hj Hv]. apply write_zset_steady; [done|]. intros Hk z. rewrite lookup_delete_ne; auto.
  - (* ZADDM *) destruct Hc as [Hj Hv]. destruct (zset_at ks k) as [z|] eqn:E; [|apply steady_refl]. cbn [snd].
    apply (put_zset_steady k z); [done..|congruence].
  - (* ZREMRANGEBYSCORE *) destruct Hc as [Hj Hv]. apply write_zset_steady; [done|]. congruence.
  - (* HINCRBY *) destruct (hash_at ks k) as [h|] eqn:E; [|apply steady_refl].
    destruct (hash_int _); [|apply steady_refl]. by apply (put_hash_steady k h).
  - (* BITFIELD_INCR *) unfold bits_at. destruct (ks !! k) as [[| | | |]|] eqn:E; try apply steady_refl; cbn [snd].
    all: apply (replace_steady k (Some _)); [done|]; unfold at_place; by rewrite E.
  - (* BITFIELD_GET *) destruct (bits_at ks k); apply steady_refl.
Qed.
(** ** Events *)

(** The reply that hands [J] over to the caller: only LMOVE moves a claim. *)
Definition hands_over {X} (e : event X) : result OxanaError X -> bool :=
  match e in event X return result OxanaError X -> bool with
  | Cmd c =>
      match c in rcmd X return result OxanaError X -> bool with
      | LMOVE _ _ => fun r => match r with Ok (Some jid) => bool_decide (jid = J) | _ => false end
      | _ => fun _ => false
      end
  | _ => fun _ => false
  end.

Definition calm {X} (e : event X) : Prop :=
  (forall r, hands_over e r = false) /\ forall ks, steady ks (snd (@run_event MemRedis _ e ks)).

Fixpoint lua_bystander {A} (s : lua A) : Prop :=
  match s with
  | LRet _ | LError _ => True
  | LCall c k => bystander c /\ forall x, lua_bystander (k x)
  end.

Definition event_bystander {X} (e : event X) : Prop :=
  match e with
  | Checkout _ => True
  | Cmd c => bystander c
  | Script s => lua_bystander s
  | Multi cs => Forall bystander cs
  end.

Lemma lua_bystander_steady {A} (s : lua A) : lua_bystander s -> forall ks, steady ks (snd (script_doc s ks)).
Proof.
  induction s as [a|e|X c k IH]; intros Hs ks; cbn; [apply steady_refl..|]. destruct Hs as [Hc Hs].
  pose proof (bystander_steady c ks Hc) as H. destruct (documented c ks) as [[x|e] ks']; cbn in *; [|done].
  eapply steady_trans; [exact H|auto].
Qed.
Lemma multi_bystander_steady cs : Forall bystander cs -> forall ks, steady ks (snd (@run_multi MemRedis cs ks)).
Proof.
  induction 1 as [|c cs Hc _ IH]; intros ks; cbn; [apply steady_refl|].
  pose proof (bystander_steady c ks Hc) as H. destruct (documented c ks) as [r ks']. cbn in *.
  specialize (IH ks'). destruct (@run_multi MemRedis cs ks'). cbn in *. by eapply steady_trans.
Qed.

Lemma event_bystander_calm {X} (e : event X) : event_bystander e -> calm e.
Proof.
  intros He. split; [destruct e as [|X c| |]; [done| |done..]; by destruct c|]. intros ks.
  destruct e as [c|X c|X s|cs]; cbn in *; [apply steady_refl|..].
  - pose proof (bystander_steady c ks He). by destruct (documented c ks).
  - pose proof (lua_bystander_steady s He ks). by destruct (script_doc s ks).
  - pose proof (multi_bystander_steady cs He ks). by destruct (@run_multi MemRedis cs ks).
Qed.

Lemma script_calm {A} (s : lua A) : (forall ks, steady ks (snd (script_doc s ks))) -> calm (Script s).
Proof. intros H. split; [done|]. intros ks. cbn. specialize (H ks). by destruct (script_doc s ks). Qed.

Lemma require_types_bystander kts {A} (body : lua A) : lua_bystander body -> lua_bystander (require_types kts body).
Proof.
  intros Hb. induction kts as [|[k t] kts IH]; cbn; [done|]. split; [done|]. intros x. by destruct (type_ok x t).
Qed.
(** With its preflight, a script acts on keys of the right types or not at all. *)
Lemma preflight_steady kts {A} (body : lua A) ks :
  (types_ok kts ks = true -> steady ks (snd (script_doc (require_types kts body) ks))) ->
  steady ks (snd (script_doc (require_types kts body) ks)).
Proof. rewrite require_types_run. destruct (types_ok kts ks); [by auto|intros _; apply steady_refl]. Qed.
End Places.
