(* ===== verification/Moves.v ===== *)
(** * How a job moves

    What the scripts and LMOVE do to the whereabouts of [J]: what every process
    may do to it ([promote_calm], [resurrect_calm], [enqueue_script_calm]), how
    it is claimed ([dequeue_takes]), and how the holder of its claim settles it
    ([finish_gives_back], [kill_gives_back], [retry_gives_back]). *)
From S2P Require Import Prelude Errors Redis Envelope Codec Queue Keys Scripts Storage Enqueue EnqueueScript Durability Places.

Section Moves.
Context {S : Serde} {LS : LawfulSerde S}.
Variables (requested : string) (J : JobId) (until : Z).
Local Abbreviation keys := (new_keys requested).
Local Abbreviation list_place := (list_place requested).
Local Abbreviation zset_place := (zset_place requested).
Local Abbreviation plain_queue := (plain_queue requested).
Local Abbreviation copies := (copies requested J).
Local Abbreviation at_place := (at_place requested J).
Local Abbreviation claims_of := (claims_of requested J).
Local Abbreviation entry_fits := (entry_fits requested J until).
Local Abbreviation once := (once requested J until).
Local Abbreviation whereabouts := (whereabouts requested J).
Local Abbreviation hands_over := (@hands_over J _).
Implicit Types (ks : keyspace) (k : string).
Local Abbreviation copies_list := (copies_list requested J).
Local Abbreviation copies_hash := (copies_hash requested J).
Local Abbreviation copies_zset_add := (copies_zset_add requested J).
Local Abbreviation copies_zset_remove := (copies_zset_remove requested J).
Local Abbreviation at_list := (at_list requested J).
Local Abbreviation at_zset := (at_zset requested J).
Local Abbreviation at_place_le := (at_place_le requested J).
Local Abbreviation at_place_same := (at_place_same requested J).
Local Abbreviation whereabouts_at := (whereabouts_at requested J until).
Local Abbreviation whereabouts_same := (whereabouts_same requested J until).
Local Abbreviation whereabouts_claim := (whereabouts_claim requested J until).

Lemma zset_place_or k : zset_place k = true -> k = schedule keys \/ k = retry keys.
Proof. apply bool_decide_eq_true. Qed.
(** ** Others *)

Lemma zset_place_ne k : zset_place k = true -> jobs keys <> k /\ forall q, plain_queue q -> k <> namespace_queue keys q.
Proof. intros [->| ->]%bool_decide_eq_true; (split; [|intros q Hq]); auto with keys. Qed.
Lemma zset_no_processing k p : zset_place k = true -> processing_queue keys p <> k.
Proof. intros Hk <-. by rewrite processing_no_zset in Hk. Qed.
Lemma plain_ne_jobs q : plain_queue q -> namespace_queue keys q <> jobs keys.
Proof. intros Hq. apply not_eq_sym. by apply jobs_ne_queue. Qed.
Hint Resolve plain_ne_jobs : keys.

Section Others.
Variable stopped : gset string.
Local Abbreviation steady := (steady requested J until stopped).
Local Abbreviation calm := (@calm _ requested J until stopped _).
Local Abbreviation bystander_steady := (bystander_steady requested J until stopped).

Lemma moved ks ks' : once ks -> once ks' ->
  (exists k k', 0 < at_place k ks /\ 0 < at_place k' ks' /\ drift stopped (place_of requested k) (place_of requested k')) ->
  once ks' /\ drifts stopped (whereabouts ks) (whereabouts ks').
Proof.
  intros Hk Hk' (k & k' & H & H' & Hd). split; [done|]. right.
  by rewrite (whereabouts_at ks k Hk H), (whereabouts_at ks' k' Hk' H').
Qed.

Lemma promote_calm sq q jid payload score : zset_place sq = true -> plain_queue q ->
  calm (Script (promote_scheduled_lua (jobs keys) sq (namespace_queue keys q) jid payload score)).
Proof.
  intros Hsq Hq. destruct (zset_place_ne sq Hsq) as [Hjs Hsq']. specialize (Hsq' q Hq).
  destruct (decide (jid = J)) as [->|Hne].
  2: { apply event_bystander_calm, require_types_bystander. cbn. split; [done|]. intros x. case_decide; [|done].
       cbn. split; [done|]. intros y. case_decide; [|done]. destruct y; cbn; split_and!; auto with keys. }
  apply script_calm. intros ks. apply preflight_steady. intros E. with_types E.
  fold (promote_scheduled_lua (jobs keys) sq (namespace_queue keys q) J payload score).
  erewrite promote_scheduled_run by (try eassumption; auto with keys).
  match goal with Hh : hash_at _ _ = Some ?x, Hz : zset_at _ _ = Some ?y, Hl : list_at _ _ = Some ?w |- _ =>
    rename x into h, y into z, w into l end.
  case_decide as Hd; [|apply steady_refl]. destruct Hd as [HzJ _].
  intros Hk. pose proof Hk as (h0 & Hh0 & Hok & Hc & Hnone). assert (h0 = h) as -> by congruence.
  assert (0 < at_place sq ks) as Hat by (rewrite (at_zset sq ks z), Hsq, decide_True by done; lia).
  pose proof (at_place_le sq ks) as Hle.
  destruct (h !! J) eqn:EJ; cbn [snd]; [|specialize (Hnone eq_refl); lia].
  set (ks1 := put_list (namespace_queue keys q) (J :: l) ks).
  assert (zset_at ks1 sq = Some z) as Hz1 by (unfold ks1; by ks_simp).
  assert (copies (put_zset sq (delete J z) ks1) = copies ks) as Hsame.
  { pose proof (copies_zset_remove sq z ks1 Hz1 Hsq ltac:(eauto)).
    pose proof (copies_list (namespace_queue keys q) l (J :: l) ks ltac:(done)) as E. fold ks1 in E.
    rewrite queue_place, occurrences_cons, decide_True in E by done. lia. }
  apply moved; [done| |].
  - exists h. rewrite Hsame. split; [unfold ks1; by ks_simp|]. split_and!; [done..|congruence].
  - exists sq, (namespace_queue keys q). split; [done|]. split.
    + rewrite (at_list _ _ (J :: l)), queue_place, occurrences_cons, decide_True by (done || unfold ks1; by ks_simp). lia.
    + rewrite place_of_queue by done. destruct (zset_place_or sq Hsq) as [-> | ->];
        rewrite ?place_of_schedule, ?place_of_retry; constructor.
Qed.

(** A claim of a stopped process is moved behind the waiting jobs. *)
Lemma resurrect_calm p q jid payload should : p ∈ stopped -> plain_queue q ->
  (jid = J -> should = true \/ payload = "") ->
  calm (Script (resurrect_claim_lua (jobs keys) (processing_queue keys p) (namespace_queue keys q) jid payload should)).
Proof.
  intros Hp Hq Hs. destruct (decide (jid = J)) as [->|Hne].
  2: { apply event_bystander_calm, require_types_bystander. cbn. split; [done|]. intros [|]; [|done].
       cbn. split; [done|]. intros y. case_decide; [|done].
       destruct y, should; cbn; split_and!; auto with keys. intros _. set_solver. }
  apply script_calm. intros ks. apply preflight_steady. intros E. with_types E.
  fold (resurrect_claim_lua (jobs keys) (processing_queue keys p) (namespace_queue keys q) J payload should).
  match goal with Hh : hash_at _ _ = Some ?x, H1 : list_at _ (processing_queue _ _) = Some ?y, H2 : list_at _ (namespace_queue _ _) = Some ?w |- _ =>
    rename x into h, y into l, w into m, H1 into Hl, H2 into Hm end.
  assert (processing_queue keys p <> namespace_queue keys q) as Hne by auto with keys.
  erewrite resurrect_claim_run by (try eassumption; auto with keys).
  case_decide as Hd; [|apply steady_refl]. destruct Hd as [HJ%occurrences_pos Hpay].
  intros Hk. pose proof Hk as (h0 & Hh0 & Hok & Hc & Hnone). assert (h0 = h) as -> by congruence.
  assert (at_place (processing_queue keys p) ks = occurrences J l) as Hat by (by rewrite (at_list _ ks l), processing_place).
  pose proof (at_place_le (processing_queue keys p) ks) as Hle. rewrite Hat in Hle.
  destruct (h !! J) eqn:EJ; [|specialize (Hnone eq_refl); lia].
  assert (should = true) as -> by (destruct (Hs eq_refl) as [?| ->]; [done|by cbn in Hpay]).
  cbn [snd]. set (ks1 := put_list (namespace_queue keys q) (J :: m) ks).
  pose proof (copies_list (namespace_queue keys q) m (J :: m) ks Hm) as E2. fold ks1 in E2.
  pose proof (copies_list (processing_queue keys p) l (lrem 1 J l) ks1 ltac:(unfold ks1; by ks_simp)) as E3.
  rewrite queue_place, occurrences_cons, decide_True in E2 by done.
  rewrite processing_place, occurrences_lrem1, decide_True in E3 by done.
  apply moved; [done| |].
  - exists h. split; [unfold ks1; by ks_simp|]. split_and!; [done|lia|congruence].
  - exists (processing_queue keys p), (namespace_queue keys q). split; [by rewrite Hat|]. split.
    + rewrite (at_list _ _ (J :: m)), queue_place, occurrences_cons, decide_True by (done || unfold ks1; by ks_simp). lia.
    + rewrite place_of_processing, place_of_queue by done. by constructor.
Qed.

(** *** Enqueueing *)

(** An input: on an ordinary queue; [J] is skipped while it is stored. *)
Definition input_fits (a : EnqueueArg) : Prop :=
  entry_fits (in_id a) (in_payload a) /\
  (exists q, plain_queue q /\ in_queue a = namespace_queue keys q) /\ (in_id a = J -> in_conflict a = OnSkip).

Local Abbreviation one dest := (enqueue_one (is_schedule dest) (jobs keys) (schedule keys) (retry keys)).

Lemma store_other_steady dest a ks : input_fits a -> in_id a <> J ->
  steady ks (store_job (is_schedule dest) (jobs keys) (schedule keys) a ks).
Proof.
  intros (Hfits & (q & Hq & Eq) & _) Hne. unfold store_job. eapply steady_trans.
  { apply (bystander_steady (HSET (jobs keys) (in_id a) (in_payload a))). by intros _. }
  destruct (is_schedule dest).
  - apply (bystander_steady (ZADD (schedule keys) (in_score a) (in_id a))). split; [|done]. by apply not_eq_sym, jobs_ne_schedule.
  - apply (bystander_steady (LPUSH (in_queue a) (in_id a))). rewrite Eq. split; auto with keys.
Qed.

Lemma purge_steady old new jid ks : jid <> J -> steady ks (purge (schedule keys) (retry keys) old new jid ks).
Proof.
  intros Hne. assert (forall k, k = schedule keys \/ k = retry keys -> k <> jobs keys) as Hk
    by (intros k [->| ->]; apply not_eq_sym; auto with keys).
  unfold purge. set (ks1 := upd_zset _ _ ks). set (ks2 := upd_zset _ _ ks1). set (ks3 := upd_list _ _ ks2).
  assert (steady ks ks3) as H3.
  { eapply steady_trans; [|eapply steady_trans].
    - apply (bystander_steady (ZREM (schedule keys) jid) ks). split; [apply Hk; by left|done].
    - apply (bystander_steady (ZREM (retry keys) jid) ks1). split; [apply Hk; by right|done].
    - apply (bystander_steady (LREM old 0 jid) ks2). done. }
  case_decide; [done|]. eapply steady_trans; [exact H3|]. by apply (bystander_steady (LREM new 0 jid) ks3).
Qed.

(** Stored while no copy exists. *)
Lemma store_first_steady dest a ks : input_fits a -> in_id a = J -> stored (jobs keys) J ks = false ->
  steady ks (store_job (is_schedule dest) (jobs keys) (schedule keys) a ks).
Proof.
  intros (Hfits & (q & Hq & Eq) & _) HJ Hst (h & Hh & Hok & Hc & Hnone). unfold store_job, upd_hash.
  unfold stored in Hst. rewrite Hh in Hst. apply bool_decide_eq_false, eq_None_not_Some in Hst. specialize (Hnone Hst).
  erewrite write_hash_ok by done. cbn [snd]. set (ks1 := put_hash _ _ ks).
  assert (copies ks1 = 0) as E1 by (unfold ks1; by rewrite (copies_hash _ h)).
  assert (map_Forall entry_fits (<[in_id a := in_payload a]> h)) as Hok1 by (by apply map_Forall_insert_2).
  assert (hash_at ks1 (jobs keys) = Some (<[in_id a := in_payload a]> h)) as Hh1 by (unfold ks1; by ks_simp).
  rewrite HJ in *. set (h1 := <[J := in_payload a]> h) in *.
  assert (h1 !! J <> None) as HJ1 by (unfold h1; by rewrite lookup_insert_eq).
  assert (forall ks2, copies ks2 <= 1 -> hash_at ks2 (jobs keys) = Some h1 -> once ks2) as Honce
    by (intros ks2 Hc2 Hh2; by exists h1).
  rewrite (whereabouts_nowhere _ _ ks) by done. destruct (is_schedule dest).
  - unfold upd_zset, write_zset. destruct (zset_at ks1 (schedule keys)) as [z|] eqn:Ez; cbn [snd].
    2: { split; [apply Honce; [lia|done]|left; by apply whereabouts_nowhere]. }
    destruct (copies_zset_add (schedule keys) z (in_score a) ks1 Ez (schedule_place requested)).
    set (ks2 := put_zset _ _ ks1) in *. assert (once ks2) as Hk2 by (apply Honce; [lia|unfold ks2; by ks_simp]).
    split; [done|]. right. rewrite (whereabouts_at ks2 (schedule keys)), place_of_schedule; [constructor|done|].
    rewrite (at_zset _ _ (<[J := in_score a]> z)), schedule_place, lookup_insert_eq, decide_True by (done || apply zset_at_put_zset). lia.
  - unfold upd_list, write_list. rewrite Eq. destruct (list_at ks1 (namespace_queue keys q)) as [l|] eqn:El; cbn [snd].
    2: { split; [apply Honce; [lia|done]|left; by apply whereabouts_nowhere]. }
    pose proof (copies_list _ l (J :: l) ks1 El) as E2. rewrite queue_place, occurrences_cons, decide_True in E2 by done.
    set (ks2 := put_list _ _ ks1) in *. assert (once ks2) as Hk2 by (apply Honce; [lia|unfold ks2; by ks_simp]).
    split; [done|]. right. rewrite (whereabouts_at ks2 (namespace_queue keys q)); [rewrite place_of_queue by done; constructor|done|].
    rewrite (at_list _ _ (J :: l)), queue_place, occurrences_cons, decide_True by (done || apply list_at_put_list). lia.
Qed.

Lemma enqueue_one_steady dest a ks queues : input_fits a -> steady ks (one dest a (ks, queues)).1.1.
Proof.
  intros Hin. pose proof Hin as (_ & _ & Hskip). unfold enqueue_one.
  destruct (decide (in_id a = J)) as [HJ|Hne].
  - rewrite (Hskip HJ). cbn [bool_decide]. rewrite bool_decide_true by done. rewrite (bool_decide_false (OnSkip = OnReplace)) by done. cbn [andb].
    destruct (stored (jobs keys) (in_id a) ks) eqn:Est; cbn [fst]; [apply steady_refl|].
    apply store_first_steady; [done..|congruence].
  - destruct (_ && _); cbn [fst]; [apply steady_refl|]. destruct (_ && _).
    + eapply steady_trans; [by apply purge_steady|by apply store_other_steady].
    + by apply store_other_steady.
Qed.

Lemma enqueue_script_calm dest snaps inputs : Forall input_fits inputs ->
  calm (Script (enqueue_lua (jobs keys) (schedule keys) (retry keys) dest snaps inputs)).
Proof.
  intros Hin. apply script_calm. intros ks Hk. pose proof Hk as (h & Hh & _). revert Hk. change (steady ks (snd (script_doc
    (enqueue_lua (jobs keys) (schedule keys) (retry keys) dest snaps inputs) ks))).
  destruct (enqueue_lua_leaves (jobs keys) (schedule keys) (retry keys) dest snaps inputs ks h Hh) as [-> | ->]; [apply steady_refl|].
  clear Hh. generalize (snapshot_queues snaps ∅). revert ks. induction Hin as [|a inputs Ha _ IH]; intros ks queues; cbn [enqueue_all]; [apply steady_refl|].
  pose proof (enqueue_one_steady dest a ks queues Ha) as H1. destruct (one dest a (ks, queues)) as [[ks1 queues1] o].
  specialize (IH ks1 queues1). destruct (enqueue_all _ _ _ _ inputs (ks1, queues1)) as [[ks2 queues2] os]. cbn [fst] in *.
  by eapply steady_trans.
Qed.
End Others.


(** *** The claim *)

(** What is handed over waited on a queue, and now is a claim of the caller. *)
Definition takes {X} (p : string) (e : event X) : Prop := forall ks, once ks ->
  let '(r, ks') := @run_event MemRedis _ e ks in
  once ks' /\
  if hands_over e r then exists q, whereabouts ks = Queued q /\ whereabouts ks' = Claimed p
  else whereabouts ks' = whereabouts ks.

Lemma dequeue_takes p q : plain_queue q -> takes p (Cmd (LMOVE (namespace_queue keys q) (processing_queue keys p))).
Proof.
  intros Hq ks Hk. pose proof Hk as (h & Hh & Hok & Hc & Hnone). cbn. unfold lmove.
  assert (processing_queue keys p <> namespace_queue keys q) as Hne by auto with keys.
  destruct (list_at ks _) as [l|] eqn:El; [|done].
  destruct (unsnoc l) as [[l' x]|] eqn:Eu; [|done]. apply unsnoc_Some in Eu as ->. rewrite list_at_put_list_ne by auto.
  destruct (list_at ks (processing_queue keys p)) as [m|] eqn:Em; [|done]. cbn -[put_list].
  set (ks1 := put_list (namespace_queue keys q) l' ks).
  assert (list_at ks1 (processing_queue keys p) = Some m) as Em1 by (unfold ks1; by ks_simp).
  pose proof (copies_list (namespace_queue keys q) _ l' ks El) as E1. fold ks1 in E1.
  pose proof (copies_list (processing_queue keys p) m (x :: m) ks1 Em1) as E2.
  rewrite queue_place, occurrences_app, occurrences_cons in E1 by done. cbn in E1.
  rewrite processing_place, occurrences_cons in E2.
  assert (copies (put_list (processing_queue keys p) (x :: m) ks1) = copies ks) as Hsame by lia.
  set (ks2 := put_list (processing_queue keys p) (x :: m) ks1) in *.
  assert (once ks2) as Hk2 by (exists h; rewrite Hsame; split; [unfold ks2, ks1; by ks_simp|done]).
  split; [done|]. case_bool_decide as Ex.
  - subst x. rewrite decide_True in E1 by done. exists q. split.
    + rewrite (whereabouts_at ks (namespace_queue keys q)); [by apply place_of_queue|done|].
      rewrite (at_list _ _ _ El), queue_place, occurrences_app, occurrences_cons, decide_True by done. lia.
    + rewrite (whereabouts_at ks2 (processing_queue keys p)); [by apply place_of_processing|done|].
      rewrite (at_list _ _ (J :: m)), processing_place, occurrences_cons, decide_True by (done || apply list_at_put_list). lia.
  - apply whereabouts_same; [done|]. intros k.
    destruct (decide (k = processing_queue keys p)) as [->|]; [|destruct (decide (k = namespace_queue keys q)) as [->|]].
    + rewrite (at_list _ ks m Em), (at_list _ ks2 (x :: m)) by apply list_at_put_list.
      by rewrite occurrences_cons, decide_False.
    + rewrite (at_list _ ks _ El), (at_list _ ks2 l') by (unfold ks2, ks1; by ks_simp).
      rewrite occurrences_app, occurrences_cons, decide_False by done. cbn. by rewrite Nat.add_0_r.
    + apply at_place_same. unfold ks2, ks1. by ks_simp.
Qed.

Lemma takes_claims {X} p (e : event X) ks : takes p e -> once ks ->
  let '(r, ks') := @run_event MemRedis _ e ks in
  (forall p', claims_of p' ks <= claims_of p' ks') /\
  (hands_over e r = true -> (forall p', claims_of p' ks = 0) /\ 0 < claims_of p ks').
Proof.
  intros He Hk. specialize (He ks Hk). destruct (@run_event MemRedis _ e ks) as [r ks']. destruct He as [Hk' He].
  assert (forall ph p', whereabouts ks = ph -> ph <> Claimed p' -> claims_of p' ks = 0) as Hnone.
  { intros ph p' Hw Hne. destruct (decide (0 < claims_of p' ks)) as [Hc|]; [|lia]. by apply whereabouts_claim in Hc; subst. }
  destruct (hands_over e r).
  - destruct He as (q & Hw & Hw'). split; [|intros _; split; [|by apply whereabouts_claim]]; intros p';
      rewrite (Hnone _ p' Hw) by done; lia.
  - split; [|done]. intros p'. destruct (decide (0 < claims_of p' ks)) as [Hc|]; [|lia].
    pose proof (once_at requested J until ks (processing_queue keys p') Hk). apply whereabouts_claim in Hc; [|done].
    rewrite <- He in Hc. apply whereabouts_claim in Hc; [|done]. unfold Places.claims_of in *. lia.
Qed.

(** *** Settling [J] *)

(** Where a claim of [p] may go: it stays, ends or is retried. *)
Definition settles_to (p : string) (ph : location) : Prop := ph = Claimed p \/ ph = Nowhere \/ ph = Retrying.

Definition gives_back {X} (p : string) (e : event X) : Prop :=
  (forall r, hands_over e r = false) /\
  forall ks, once ks -> 0 < claims_of p ks ->
    let ks' := snd (@run_event MemRedis _ e ks) in once ks' /\ settles_to p (whereabouts ks').

Lemma script_gives_back {A} p (s : lua A) :
  (forall ks, once ks -> 0 < claims_of p ks -> let ks' := snd (script_doc s ks) in once ks' /\ settles_to p (whereabouts ks')) ->
  gives_back p (Script s).
Proof. intros H. split; [done|]. intros ks Hk Hc. cbn. specialize (H ks Hk Hc). by destruct (script_doc s ks). Qed.

Lemma stays p ks : once ks -> 0 < claims_of p ks -> once ks /\ settles_to p (whereabouts ks).
Proof. intros Hk Hc. split; [done|]. left. by apply whereabouts_claim. Qed.

(** While it is acknowledged, [J] is claimed here or nowhere. *)
Definition acking (p : string) (ks : keyspace) (l : list string) : Prop :=
  once ks /\ list_at ks (processing_queue keys p) = Some l /\ (copies ks = 0 \/ 0 < occurrences J l).

Lemma acking_claim p ks l : once ks -> list_at ks (processing_queue keys p) = Some l -> 0 < claims_of p ks -> acking p ks l.
Proof.
  intros Hk Hl. unfold claims_of. rewrite (at_list _ ks l), processing_place by done. unfold acking. auto.
Qed.
Lemma acking_place p ks l : list_at ks (processing_queue keys p) = Some l -> occurrences J l <= copies ks.
Proof. intros Hl. pose proof (at_place_le (processing_queue keys p) ks) as H. by rewrite (at_list _ ks l), processing_place in H. Qed.

Lemma acking_settles p ks l : acking p ks l -> once ks /\ settles_to p (whereabouts ks).
Proof.
  intros (Hk & Hl & Hcase). split; [done|]. destruct Hcase as [H0|Hocc]; [right; left; by apply whereabouts_nowhere|].
  left. apply whereabouts_claim; [done|]. unfold Places.claims_of. by rewrite (at_list _ ks l), processing_place.
Qed.

(** The payload and the claim of a job go together. *)
Lemma acknowledge_one p ks l h jid : acking p ks l -> hash_at ks (jobs keys) = Some h ->
  acking p (put_list (processing_queue keys p) (lrem 1 jid l) (put_hash (jobs keys) (hdel_all [jid] h) ks)) (lrem 1 jid l).
Proof.
  intros ((h0 & Hh0 & Hok & Hc & Hnone) & Hl & Hcase) Hh. assert (h0 = h) as -> by congruence.
  pose proof (acking_place p ks l Hl) as Hle.
  set (ks1 := put_hash (jobs keys) (hdel_all [jid] h) ks).
  assert (copies ks1 = copies ks) as E1 by (by apply (copies_hash _ h)).
  assert (list_at ks1 (processing_queue keys p) = Some l) as Hl1 by (unfold ks1; by ks_simp).
  pose proof (copies_list _ l (lrem 1 jid l) ks1 Hl1) as E2. rewrite processing_place, occurrences_lrem1 in E2.
  split_and!; [|by ks_simp|rewrite occurrences_lrem1; case_decide; lia].
  exists (hdel_all [jid] h). split; [unfold ks1; by ks_simp|]. split_and!; [by apply hdel_all_fits|case_decide; lia|].
  rewrite hdel_all_lookup. destruct (decide (jid = J)) as [->|Hj]; [intros _; lia|].
  rewrite decide_False by set_solver. intros HN. specialize (Hnone HN). lia.
Qed.

Lemma finish_gives_back p ids : gives_back p (Script (finish_success_lua (jobs keys) (processing_queue keys p) ids)).
Proof.
  apply script_gives_back. intros ks Hk Hc. unfold finish_success_lua. rewrite require_types_run.
  destruct (types_ok _ ks) eqn:E; [|by apply stays]. with_types E.
  match goal with Hl : list_at _ _ = Some ?x |- _ => pose proof (acking_claim p ks x Hk Hl Hc) as Ha; clear - LS Ha; rename x into l end.
  revert ks l Ha. induction ids as [|jid ids IH]; intros ks l Ha; cbn [acknowledge_each]; [by eapply acking_settles|].
  pose proof Ha as ((h & Hh & _) & Hl & _). do 2 lua_step. eapply IH. by apply acknowledge_one.
Qed.

(** Trimming the dead letters moves nothing. *)
Lemma dead_write_still ks d d' : once ks -> list_at ks (dead keys) = Some d ->
  once (put_list (dead keys) d' ks) /\ whereabouts (put_list (dead keys) d' ks) = whereabouts ks.
Proof.
  intros Hk Hd. assert (forall k, at_place k (put_list (dead keys) d' ks) = at_place k ks) as Hat.
  { intros k. destruct (decide (k = dead keys)) as [->|Hne]; [|by apply at_place_same, lookup_put_list_ne].
    rewrite (at_list _ ks d), (at_list _ _ d') by (done || apply list_at_put_list). by rewrite dead_no_place. }
  split; [|by apply whereabouts_same]. eapply (put_list_steady requested J until ∅ (dead keys) d); [done| |by rewrite dead_no_place|done].
  intros Hj. symmetry in Hj. by apply jobs_ne_dead in Hj.
Qed.

Lemma kill_gives_back p text limit :
  gives_back p (Script (finish_dead_lua (jobs keys) (dead keys) (processing_queue keys p) J text limit)).
Proof.
  apply script_gives_back. intros ks Hk Hc. unfold finish_dead_lua. rewrite require_types_run.
  destruct (types_ok _ ks) eqn:E; [|by apply stays]. with_types E.
  match goal with H1 : list_at _ (dead _) = Some ?y, H2 : list_at _ (processing_queue _ _) = Some ?w |- _ =>
    rename y into d, w into l, H1 into Hd, H2 into Hl end.
  lua_step. set (ks1 := put_list (dead keys) (text :: d) ks).
  assert (once ks1) as Hk1 by (by eapply dead_write_still).
  assert (acking p ks1 l) as Ha.
  { apply acking_claim; [done|unfold ks1; by ks_simp|]. unfold Places.claims_of.
    rewrite (at_place_same _ ks); [done|]. unfold ks1. by ks_simp. }
  pose proof Hk1 as (h & Hh & _). pose proof Ha as (_ & Hl1 & _). do 2 lua_step.
  pose proof (acknowledge_one p ks1 l h J Ha Hh) as Ha2. set (ks2 := put_list _ _ (put_hash _ _ ks1)) in *.
  destruct (0 <? limit)%Z; [|by eapply acking_settles].
  assert (list_at ks2 (dead keys) = Some (text :: d)) as Hd2 by (unfold ks2, ks1; by ks_simp).
  lua_step. destruct (acking_settles _ _ _ Ha2) as [Hk2 Hs].
  destruct (dead_write_still ks2 _ (lrange 0 (limit - 1) (text :: d)) Hk2 Hd2) as [Hk3 Hw]. cbn [script_doc snd].
  split; [exact Hk3|]. by rewrite Hw.
Qed.

Lemma retry_gives_back p text score : entry_fits J text ->
  gives_back p (Script (retry_failed_lua (jobs keys) (retry keys) (processing_queue keys p) J text score)).
Proof.
  intros Hfits. apply script_gives_back. intros ks Hk Hc. unfold retry_failed_lua. rewrite require_types_run.
  destruct (types_ok _ ks) eqn:E; [|by apply stays]. with_types E.
  match goal with Hh : hash_at _ _ = Some ?x, H1 : zset_at _ _ = Some ?y, H2 : list_at _ _ = Some ?w |- _ =>
    rename x into h, y into z, w into l, H1 into Hz, H2 into Hl end.
  do 3 lua_step. cbn [script_doc snd]. destruct Hk as (h0 & Hh0 & Hok & Hcop & _). assert (h0 = h) as -> by congruence.
  unfold Places.claims_of in Hc. rewrite (at_list _ ks l), processing_place in Hc by done.
  set (ks1 := put_hash (jobs keys) (<[J := text]> h) ks).
  assert (copies ks1 = copies ks) as E1 by (by apply (copies_hash _ h)).
  destruct (copies_zset_add (retry keys) z score ks1 ltac:(unfold ks1; by ks_simp) (retry_place requested)) as [E2 _].
  set (ks2 := put_zset (retry keys) (<[J := score]> z) ks1) in *.
  pose proof (copies_list (processing_queue keys p) l (lrem 1 J l) ks2 ltac:(unfold ks2, ks1; by ks_simp)) as E3.
  rewrite processing_place, occurrences_lrem1, decide_True in E3 by done. set (ks3 := put_list _ _ ks2) in *.
  assert (once ks3) as Hk3.
  { exists (<[J := text]> h). split; [unfold ks3, ks2, ks1; by ks_simp|]. split_and!; [by apply map_Forall_insert_2|lia|].
    by rewrite lookup_insert_eq. }
  split; [done|]. right; right. rewrite (whereabouts_at ks3 (retry keys)); [by apply place_of_retry|done|].
  rewrite (at_zset _ _ (<[J := score]> z)), retry_place, lookup_insert_eq, decide_True by (done || unfold ks3, ks2, ks1; by ks_simp). lia.
Qed.
End Moves.
