(* ===== verification/Peers.v ===== *)
(** * The programs that leave a job's claim alone

    Every event of what clients, schedulers, dashboards and recovery run keeps
    [once], whoever holds the job ([calm_prog]): they settle other jobs than
    [J], enqueue [J] only as a unique job that is skipped while it is stored,
    recover stopped processes only, and clean up before the job expires. *)
From S2P Require Import Prelude Errors Redis Events Envelope Codec Queue Keys Scripts Storage Transitions Enqueue.
From S2P Require Import EnqueueScript Metrics Stats StatsStorage Recovery Durability Places Moves.

Section Peers.
Context {S : Serde} {LS : LawfulSerde S}.
Variables (requested : string) (J : JobId) (until : Z) (stopped : gset string).
Local Abbreviation keys := (new_keys requested).
Local Abbreviation once := (once requested J until).
Local Abbreviation calm := (@calm _ requested J until stopped _).
Local Abbreviation entry_fits := (entry_fits requested J until).
Local Abbreviation plain_queue := (plain_queue requested).

(** A job as it may be stored, and as it may be enqueued. *)
Definition fit (e : JobEnvelope) : Prop := plain_queue (queue e) /\ (id e = J -> durable requested until e = true).
Definition newcomer (e : JobEnvelope) : Prop := fit e /\ (id e = J -> skips e = true).

Definition calm_prog {A} (p : prog A) : Prop := guarded once (fun X e => calm e) p.

Lemma entry_fits_print e text : print_job e = Ok text -> fit e -> entry_fits (id e) text.
Proof.
  intros Hp [Hq Hd]. split; [by apply entry_ok_print|]. intros e' He'.
  destruct (print_parse e) as (text' & Hp' & Hparse & _). rewrite Hp in Hp'. injection Hp' as <-. congruence.
Qed.
Lemma entry_fits_parse f text e : entry_fits f text -> from_str text = Ok e -> id e = f /\ fit e.
Proof. intros [[H _] Hq] He. destruct (H e He) as [Hid Hd]. split; [done|]. split; [auto|]. intros HJ. apply Hd. congruence. Qed.

(** What a read of a payload tells. *)
Lemma once_payload jid : forall x ks, once ks -> fst (@run_event MemRedis _ (Cmd (HGET (jobs keys) jid)) ks) = Ok x ->
  forall text, x = Some text -> entry_fits jid text.
Proof.
  intros x ks (h & Hh & Hok & _) H text ->. cbn in H. erewrite read_hash_ok in H by done. cbn in H. injection H as H.
  by apply Hok.
Qed.

(** ** Keys *)

Lemma suffix_ne_jobs s : s <> ":jobs" -> namespace keys +:+ s <> jobs keys.
Proof. intros Hs H%string_app_inj_l. done. Qed.
Lemma processes_apart : processes keys <> jobs keys /\ zset_place requested (processes keys) = false.
Proof. split; [by apply suffix_ne_jobs|]. apply bool_decide_eq_false. intros [H|H]; by apply string_app_inj_l in H. Qed.
Lemma data_ne_jobs : processes_data keys <> jobs keys. Proof. by apply suffix_ne_jobs. Qed.
Lemma schedule_ne_jobs : schedule keys <> jobs keys. Proof. by apply suffix_ne_jobs. Qed.
Lemma retry_ne_jobs : retry keys <> jobs keys. Proof. by apply suffix_ne_jobs. Qed.
Lemma dead_ne_jobs : dead keys <> jobs keys. Proof. by apply suffix_ne_jobs. Qed.



Lemma dead_apart : no_place requested (dead keys).
Proof.
  split; [apply dead_ne_jobs|]. split; [apply dead_no_place|]. apply bool_decide_eq_false.
  intros [H|H]; by apply string_app_inj_l in H.
Qed.

Create HintDb calm.
#[local] Hint Resolve data_ne_jobs configs_ne_jobs schedule_ne_jobs retry_ne_jobs dead_ne_jobs dead_no_place dead_apart
  processing_place empty_name_plain : calm.

Ltac calm_side := idtac; lazymatch goal with
  | |- Places.calm _ _ _ _ _ => apply event_bystander_calm; cbn; calm_side
  | |- Forall _ (_ :: _) => constructor; [calm_side|calm_side]
  | |- Forall _ [] => constructor
  | |- True => exact Logic.I
  | |- _ /\ _ => split; calm_side
  | |- forall _, _ => intros; calm_side
  | _ => solve [eauto with calm]
  end.
Create HintDb calm_ops.
Ltac known_calm := idtac; match goal with |- guarded _ _ ?p => change (calm_prog p); solve [eauto with calm_ops] end.
Ltac calms := unfold calm_prog; walk calm_side known_calm.

Lemma read_only_calm {A} (p : prog A) : read_only p -> calm_prog p.
Proof.
  unfold read_only, calm_prog. induction p as [a|X e k IH]; cbn; [done|]. intros [He Hk]. split.
  - apply event_bystander_calm. destruct e as [|X c| |]; cbn in *; try done. by destruct c.
  - intros r Hr. apply IH, Hk. destruct Hr as [->|(ks & _ & ->)]; [by left|right; eauto].
Qed.

Section OneStorage.
Variable st : StorageInternal.
Hypothesis Hst : storage_namespace st = requested.

Lemma own_list : current_processing_queue st = processing_queue keys (own_process_id st).
Proof. unfold current_processing_queue. by rewrite Hst. Qed.
Ltac open_op := unfold connection, claimed_connection, stats_connection; rewrite ?Hst, ?own_list.

(** ** Reading and updating *)

Lemma get_then_calm {B} jid (f : option JobEnvelope -> rprog B) :
  (forall e, id e = jid -> fit e -> calm_prog (f (Some e))) -> calm_prog (f None) ->
  calm_prog (try (get_job_w_conn st jid) f).
Proof.
  intros Hf Hn. unfold get_job_w_conn. rewrite ?Hst. unfold try at 2, calm_prog. cbn [pbind call perform].
  split; [calm_side|]. intros r [->|(ks & Hk & ->)]; [done|]. pose proof (once_payload jid) as Hg.
  destruct (fst _) as [[text|]|] eqn:E; cbn; [|done|done]. specialize (Hg _ ks Hk E text eq_refl).
  unfold parse_job. destruct (from_str text) as [e|] eqn:Ep; cbn; [|done].
  destruct (entry_fits_parse jid text e Hg Ep). by apply Hf.
Qed.

Lemma calm_get_job_w_conn jid : calm_prog (get_job_w_conn st jid).
Proof. unfold get_job_w_conn. open_op. calms. Qed.
#[local] Hint Resolve calm_get_job_w_conn : calm_ops.
Lemma calm_get_job jid : calm_prog (get_job st jid).
Proof. unfold get_job. open_op. calms. Qed.
#[local] Hint Resolve calm_get_job : calm_ops.
Lemma calm_claimed_read_loop jid attempts : forall r, calm_prog (claimed_read_loop st jid attempts r).
Proof. induction attempts as [|[] attempts IH]; intros [|]; cbn [claimed_read_loop]; calms. Qed.
#[local] Hint Resolve calm_claimed_read_loop : calm_ops.
Lemma calm_get_claimed_job jid attempts : calm_prog (get_claimed_job st jid attempts).
Proof. unfold get_claimed_job. calms. Qed.

Lemma calm_update_job e : fit e -> calm_prog (update_job st e).
Proof.
  intros Hf. unfold update_job. open_op. calms. constructor; [|constructor].
  apply event_bystander_calm. intros _. by apply entry_fits_print.
Qed.

Lemma collect_fits es items :
  collect ((fun e => res_map (fun text => (id e, text)) (print_job e)) <$> es) = Ok items -> Forall fit es ->
  Forall (fun p => entry_fits p.1 p.2) items.
Proof.
  intros Hc Hes. revert items Hc. induction Hes as [|e es He _ IH]; intros items Hc; cbn in Hc; [by simplify_eq|].
  destruct (print_job e) as [text|] eqn:Ep; [|done]. cbn in Hc. destruct (collect _) as [items'|]; [|done]. cbn in Hc.
  simplify_eq. constructor; [by apply entry_fits_print|by apply IH].
Qed.
Lemma calm_update_jobs es : Forall fit es -> calm_prog (update_jobs st es).
Proof.
  intros Hes. unfold update_jobs. destruct es as [|e es]; [done|]. apply guarded_lift_try. intros items Hc. open_op.
  apply guarded_try; [calms|]. intros _. apply guarded_call, event_bystander_calm. intros _. by eapply collect_fits.
Qed.
Lemma calm_set_started_at_batch now es : Forall fit es -> calm_prog (set_started_at_batch st now es).
Proof.
  intros Hes. unfold set_started_at_batch. apply guarded_pbind; [|done]. apply calm_update_jobs, Forall_fmap.
  by eapply Forall_impl; [exact Hes|].
Qed.
Lemma calm_update_state jid v : calm_prog (update_state st jid v).
Proof.
  unfold update_state, get_job, connection, calm_prog. unfold try at 1 2. cbn [pbind perform].
  split; [calm_side|]. intros [[]|err] _; [|done].
  apply (get_then_calm jid (fun found => match found with None => lift (Err JobNotFound) | Some e => update_job st (map_meta (set_state (Some v)) e) end));
    [|done]. intros e _ He. by apply calm_update_job.
Qed.

(** ** Settling other jobs *)

Lemma calm_retry_found e delay_s err now : id e <> J -> fit e -> calm_prog (retry_found st e delay_s err now).
Proof.
  intros Hne Hf. unfold retry_found. apply guarded_lift_try. intros text Hp. open_op. apply guarded_perform.
  apply event_bystander_calm, require_types_bystander. cbn.
  split_and!; [intros _; by apply (entry_fits_print (with_retries_incremented err e))|]. intros _.
  split; [split; [auto with calm|done]|]. by intros _.
Qed.

Lemma calm_retry_in jid delay_s err now : jid <> J -> calm_prog (retry_in st jid delay_s err now).
Proof.
  intros Hne. unfold retry_in. open_op. apply guarded_try; [apply guarded_perform; calm_side|]. intros _.
  apply get_then_calm; [|apply guarded_call; calm_side]. intros e <- He. by apply calm_retry_found.
Qed.

Lemma calm_finish es : J ∉ id <$> es -> calm_prog (finish_with_success_batch st es).
Proof.
  intros Hn. unfold finish_with_success_batch. destruct es as [|e es]; [done|]. open_op.
  apply guarded_try; [apply guarded_perform; calm_side|]. intros _.
  apply guarded_perform, event_bystander_calm, require_types_bystander. revert Hn. generalize (id <$> e :: es).
  intros ids. induction ids as [|x ids IH]; cbn [acknowledge_each]; [done|]. intros Hn. cbn.
  split; [intros _; set_solver|]. intros _. split; [set_solver|]. intros _. apply IH. set_solver.
Qed.

Lemma calm_kill e err : id e <> J -> calm_prog (kill st e err).
Proof.
  intros Hn. unfold kill. open_op. apply guarded_try; [apply guarded_perform; calm_side|]. intros _.
  apply guarded_lift_try. intros text _. apply guarded_perform, event_bystander_calm, require_types_bystander. cbn.
  split; [split; [auto with calm|by rewrite dead_no_place]|]. intros _. split; [intros _; set_solver|]. intros _.
  split; [done|]. intros _. destruct (0 <? _)%Z; cbn; [|done]. split; [|done]. split; auto with calm.
Qed.

Lemma calm_delete_job jid : jid <> J -> calm_prog (delete_job st jid).
Proof.
  intros Hn. unfold delete_job. open_op. apply guarded_try; [apply guarded_perform; calm_side|]. intros _.
  apply guarded_try; [apply guarded_call; calm_side|]. intros raw. apply guarded_try.
  - destruct (raw ≫= payload_queue); [done|]. case_decide; [|done].
    unfold scan_keys_w_conn. apply guarded_try; [apply guarded_call; calm_side|done].
  - intros qs. apply guarded_perform, event_bystander_calm. apply Forall_app. split.
    + repeat constructor; cbn; auto with calm. intros _. set_solver.
    + apply Forall_fmap, Forall_true. done.
Qed.

(** ** Due jobs and stopped processes *)

Lemma snapshot_then_calm {B} jid (k : option string -> option JobEnvelope -> rprog B) (g : OxanaError -> rprog B) :
  (forall text e, from_str text = Ok e -> id e = jid -> fit e -> calm_prog (k (Some text) (Some e))) ->
  calm_prog (k None None) -> (forall e, calm_prog (g e)) ->
  calm_prog (pbind (transition_snapshot st jid) (fun r =>
    match r with Ok (payload, envelope) => k payload envelope | Err e => g e end)).
Proof.
  intros Hk Hnone Hg. unfold transition_snapshot, try, calm_prog. rewrite ?Hst. cbn [pbind call perform].
  split; [calm_side|]. intros r [->|(ks & Hks & ->)]; [apply Hg|]. pose proof (once_payload jid) as Hp.
  destruct (fst _) as [[text|]|e] eqn:E; cbn; [|apply Hnone|apply Hg].
  specialize (Hp _ ks Hks E text eq_refl). unfold parse_job. destruct (from_str text) as [e|] eqn:Ep; cbn; [|apply Hg].
  destruct (entry_fits_parse jid text e Hp Ep). by apply Hk.
Qed.

Lemma calm_promote sq due : zset_place requested sq = true -> forall count, calm_prog (promote_scheduled_jobs st sq due count).
Proof.
  intros Hsq. induction due as [|[jid score] due IH]; intros count; cbn [promote_scheduled_jobs]; [done|].
  assert (forall payload q, plain_queue q -> calm_prog (perform (Script (promote_scheduled_lua (jobs keys) sq (namespace_queue keys q) jid payload score)))) as Hs
    by (intros; by apply guarded_perform, promote_calm).
  apply snapshot_then_calm.
  - intros text e _ _ [Hq _]. apply guarded_try; [rewrite ?Hst; by apply Hs|intros; apply IH].
  - apply guarded_try; [rewrite ?Hst; apply Hs, empty_name_plain|intros; apply IH].
  - intros e. by destruct (is_json_error e).
Qed.
Lemma calm_enqueue_scheduled sq now : sq = schedule keys \/ sq = retry keys -> calm_prog (enqueue_scheduled st sq now).
Proof.
  intros Hsq. unfold enqueue_scheduled. open_op. apply guarded_try; [apply guarded_perform; calm_side|]. intros _.
  apply guarded_try; [apply guarded_call; calm_side|]. intros due. apply calm_promote. by apply bool_decide_eq_true.
Qed.
Lemma calm_retry_all_now : calm_prog (retry_all_now st).
Proof.
  unfold retry_all_now. open_op. apply guarded_try; [apply guarded_perform; calm_side|]. intros _.
  apply guarded_try; [apply guarded_call; calm_side|]. intros due. apply calm_promote, retry_place.
Qed.

Lemma fit_resurrects e : fit e -> id e = J -> resurrect (meta e) = true.
Proof. intros [_ Hd] HJ. specialize (Hd HJ). unfold durable in Hd. rewrite !andb_true_iff in Hd. tauto. Qed.

Lemma calm_resurrect_claims pid ids : pid ∈ stopped ->
  forall count, calm_prog (resurrect_claims st (processing_queue keys pid) ids count).
Proof.
  intros Hpid. induction ids as [|jid ids IH]; intros count; cbn [resurrect_claims]; [done|]. apply snapshot_then_calm.
  - intros text e _ Hid He. apply guarded_try; [|intros; apply IH]. rewrite ?Hst. apply guarded_perform, resurrect_calm; [done|apply He|].
    intros ->. left. by apply fit_resurrects.
  - apply guarded_try; [|intros; apply IH]. rewrite ?Hst. apply guarded_perform, resurrect_calm; [done|apply empty_name_plain|by right].
  - intros e. by destruct (is_json_error e).
Qed.
Lemma calm_forget_process pid : calm_prog (pipe [ZREM (processes keys) pid; HDEL (processes_data keys) [pid]]).
Proof.
  apply guarded_pipe. constructor; [|constructor; [|done]]; apply event_bystander_calm; cbn.
  - split; [apply processes_apart|]. by rewrite (proj2 processes_apart).
  - by intros ?%data_ne_jobs.
Qed.
#[local] Hint Resolve calm_forget_process calm_resurrect_claims : calm_ops.
Lemma calm_resurrect_process pid : pid ∈ stopped -> calm_prog (resurrect_process st pid).
Proof. intros Hpid. unfold resurrect_process. rewrite ?Hst. calms. Qed.
Lemma calm_resurrect_processes pids : Forall (fun pid => pid ∈ stopped) pids -> calm_prog (resurrect_processes st pids).
Proof.
  induction 1 as [|pid pids Hpid _ IH]; cbn [resurrect_processes]; [done|].
  apply guarded_try; [by apply calm_resurrect_process|done].
Qed.
Lemma calm_self_cleanup : calm_prog (self_cleanup st).
Proof. unfold self_cleanup. open_op. apply guarded_try; [apply guarded_perform; calm_side|]. intros _. apply calm_forget_process. Qed.
Lemma calm_ping {P : ProcessSerde} now_ms now : calm_prog (ping st now_ms now).
Proof.
  unfold ping. open_op. apply guarded_try; [apply guarded_perform; calm_side|]. intros _. apply guarded_lift_try. intros text _.
  apply guarded_pipe. constructor; [|constructor; [|done]]; apply event_bystander_calm; cbn.
  - split; [apply processes_apart|]. by rewrite (proj2 processes_apart).
  - by intros ?%data_ne_jobs.
Qed.

(** ** Cleanup before the job expires *)

Lemma once_hscan cursor now : (now <= until)%Z -> forall page ks, once ks ->
  fst (@run_event MemRedis _ (Cmd (HSCAN (jobs keys) cursor)) ks) = Ok page ->
  J ∉ (filter (fun item => cleanable now item = true) page.2).*1.
Proof.
  intros Hnow page ks (h & Hh & Hok & _) H. cbn in H. erewrite read_hash_ok in H by done. cbn in H. injection H as <-.
  cbn [snd]. intros [[f text] [Ef [Hc Hin]%list_elem_of_filter]]%list_elem_of_fmap. cbn in Ef. subst f.
  apply elem_of_map_to_list in Hin. destruct (Hok _ _ Hin) as [[Hent Hparse] _].
  destruct (Hparse eq_refl) as [e He]. unfold cleanable in Hc. cbn [snd] in Hc. rewrite He in Hc.
  rewrite (durable_not_expired requested until) in Hc; [done|done|]. by apply (Hent e He).
Qed.

Lemma calm_scan_cleanable {B} fuel now (f : list JobId -> rprog B) : (now <= until)%Z ->
  (forall ids, J ∉ ids -> calm_prog (f ids)) ->
  forall cursor acc, J ∉ acc -> calm_prog (try (scan_cleanable st fuel cursor now acc) f).
Proof.
  intros Hnow Hf. induction fuel as [|fuel IH]; intros cursor acc Hacc; cbn [scan_cleanable]; [done|].
  unfold try at 1 2, call, perform, calm_prog. rewrite ?Hst. cbn [pbind]. split; [calm_side|].
  intros r [->|(ks & Hk & ->)]; [done|]. destruct (fst _) as [page|e] eqn:E; [|done].
  pose proof (once_hscan cursor now Hnow page ks Hk E) as Hp. cbn [pbind].
  assert (J ∉ acc ++ (filter (fun item => cleanable now item = true) page.2).*1) by set_solver.
  destruct (decide (page.1 = 0%Z)); [by apply Hf|by apply IH].
Qed.

Lemma calm_cleanup fuel now : (now <= until)%Z -> calm_prog (cleanup st fuel now).
Proof.
  intros Hnow. unfold cleanup. open_op. apply guarded_try; [apply guarded_perform; calm_side|]. intros _.
  apply calm_scan_cleanable; [done| |set_solver].
  intros [|x ids] Hn; [done|]. rewrite ?Hst. apply guarded_try; [|done]. apply guarded_call, event_bystander_calm. by intros _.
Qed.

(** ** Enqueueing *)

Lemma calm_ordinary dest es : Forall (fun e => fit e /\ id e <> J) es -> calm_prog (enqueue_ordinary st dest es).
Proof.
  intros Hes. unfold enqueue_ordinary. apply guarded_lift_try. intros cmds Hc. apply guarded_pipe.
  revert cmds Hc. induction Hes as [|e es [He Hne] _ IH]; intros cmds Hc; cbn in Hc; [by simplify_eq|].
  unfold ordinary_commands in Hc at 1. destruct (print_job e) as [text|] eqn:Ep; [|done]. cbn in Hc.
  destruct (collect _) as [cmds'|]; [|done]. cbn in Hc. simplify_eq. cbn [concat].
  apply Forall_app. split; [|by apply IH]. constructor; [|constructor; [|done]]; apply event_bystander_calm; rewrite ?Hst.
  - intros _. by apply entry_fits_print.
  - destruct dest; cbn; (split; [|by intros _]); [apply plain_ne_jobs, He|auto with calm].
Qed.

Lemma serialize_fits es pending : serialize_pending es = Ok pending -> Forall newcomer es ->
  Forall (input_fits requested J until) (enqueue_arg_of st <$> pending).
Proof.
  unfold serialize_pending. intros Hc Hes. revert pending Hc.
  induction Hes as [|e es [He Hskip] _ IH]; intros pending Hc; cbn in Hc; [by simplify_eq|].
  destruct (print_job e) as [text|] eqn:Ep; [|done]. cbn in Hc.
  destruct (collect _) as [pending'|]; [|done]. cbn in Hc. simplify_eq. cbn [fmap list_fmap].
  constructor; [|by apply IH]. split; [by apply entry_fits_print|]. cbn. rewrite ?Hst. split.
  - exists (queue e). split; [apply He|done].
  - intros HJ. specialize (Hskip HJ). unfold skips in Hskip. apply andb_prop in Hskip as [Hu Hr].
    unfold conflict_of. rewrite Hu. cbn [negb]. by destruct (is_replace e).
Qed.

Lemma calm_enqueue_loop fuel dest pending : Forall (input_fits requested J until) (enqueue_arg_of st <$> pending) ->
  forall snaps written, calm_prog (enqueue_loop st fuel dest pending snaps written).
Proof.
  intros Hp. induction fuel as [|fuel IH]; intros snaps written; cbn [enqueue_loop]; [done|].
  apply guarded_try; [rewrite ?Hst; by apply guarded_perform, enqueue_script_calm|]. intros [[|c cs] outcomes]; cbn [fst]; [done|].
  apply guarded_lift_try. intros. apply IH.
Qed.

Lemma drop_seen_newcomer es : Forall newcomer es -> forall written seen, Forall newcomer (drop_seen written seen es).
Proof.
  induction 1 as [|e es He _ IH]; intros written seen; cbn [drop_seen]; [done|].
  destruct (skips e && _); [apply IH|]. constructor; [done|apply IH].
Qed.

Lemma calm_enqueue_chunk fuel dest es written : Forall newcomer es -> calm_prog (enqueue_chunk st fuel dest es written).
Proof.
  intros Hes. unfold enqueue_chunk. destruct (forallb _ es) eqn:Eall.
  { apply guarded_try; [|done]. apply calm_ordinary. rewrite forallb_forall in Eall. rewrite Forall_forall in Hes.
    apply Forall_forall. intros e He. destruct (Hes e He) as [Hf Hskip]. split; [done|]. intros HJ. specialize (Hskip HJ).
    specialize (Eall e (proj1 (list_elem_of_In _ _) He)). unfold skips in Hskip. by destruct (unique (meta e)). }
  pose proof (drop_seen_newcomer es Hes written ∅) as Hd. destruct (drop_seen written ∅ es) as [|e0 es0]; [done|].
  apply guarded_try.
  { unfold read_snapshots. destruct (elements _); [done|]. apply guarded_try; [apply guarded_call; calm_side|done]. }
  intros snaps. apply guarded_try.
  { unfold read_existing_skips. destruct (skip_ids _ _) as [|i ids]; [done|]. apply guarded_try; [|done].
    apply guarded_pipe_query, Forall_fmap, Forall_true. intros jid. cbn. calm_side. }
  intros existing. apply guarded_lift_try. intros [|p ps] Hser; [done|]. apply calm_enqueue_loop.
  eapply serialize_fits; [exact Hser|]. rewrite Forall_forall in Hd. apply Forall_forall.
  intros e [_ He]%list_elem_of_filter. by apply Hd.
Qed.

Lemma calm_enqueue_w_conn fuel e dest : newcomer e -> calm_prog (enqueue_w_conn st fuel e dest).
Proof. intros He. apply guarded_try; [apply calm_enqueue_chunk; by constructor|done]. Qed.
#[local] Hint Resolve calm_enqueue_w_conn : calm_ops.
Lemma calm_enqueue fuel e : newcomer e -> calm_prog (enqueue st fuel e).
Proof. intros He. unfold enqueue. open_op. calms. Qed.
#[local] Hint Resolve calm_enqueue : calm_ops.
Lemma calm_try_enqueue fuel e : newcomer e -> calm_prog (try_enqueue st fuel e).
Proof.
  intros He. unfold try_enqueue. open_op. apply guarded_try; [apply guarded_perform; calm_side|]. intros _.
  apply guarded_try; [apply calm_enqueue_chunk; by constructor|done].
Qed.
Lemma calm_enqueue_at fuel e now : newcomer e -> calm_prog (enqueue_at st fuel e now).
Proof. intros He. unfold enqueue_at. open_op. calms. Qed.
Lemma calm_enqueue_in fuel e delay now now_sched now_at : newcomer e ->
  calm_prog (enqueue_in st fuel e delay now now_sched now_at).
Proof. intros He. unfold enqueue_in. case_decide; [by apply calm_enqueue|]. by apply calm_enqueue_at. Qed.

Lemma calm_enqueue_list fuel es : Forall newcomer es -> calm_prog (enqueue_list st fuel es).
Proof.
  intros Hes. unfold enqueue_list. destruct es as [|e es]; [done|]. open_op. apply guarded_try; [apply guarded_perform; calm_side|].
  intros _. unfold enqueue_list_w_conn. apply guarded_try; [|done]. unfold enqueue_list_chunks.
  pose proof (Forall_chunks _ ENQUEUE_LIST_CHUNK_SIZE _ Hes) as Hc. generalize (∅ : gset JobId).
  induction Hc as [|c cs Hc _ IH]; intros written; cbn [enqueue_each_chunk]; [done|].
  apply guarded_try; [by apply calm_enqueue_chunk|intros; apply IH].
Qed.

(** ** Configurations and counters *)

Lemma calm_set_queue_config {C : ConfigSerde} q config : calm_prog (set_queue_config st q config).
Proof.
  unfold set_queue_config. open_op. apply guarded_try; [apply guarded_perform; calm_side|]. intros _. apply guarded_lift_try.
  intros text _. apply guarded_call, event_bystander_calm. by intros ?%configs_ne_jobs.
Qed.
Lemma calm_reset_queue_config q : calm_prog (reset_queue_config st q).
Proof.
  unfold reset_queue_config. open_op. apply guarded_try; [apply guarded_perform; calm_side|]. intros _.
  apply guarded_call, event_bystander_calm. by intros ?%configs_ne_jobs.
Qed.
Lemma calm_wipe_dead : calm_prog (wipe_dead st).
Proof. unfold wipe_dead. open_op. calms. Qed.

Lemma metrics_ne s : metrics_prefix keys +:+ s <> jobs keys.
Proof.
  change (metrics_prefix keys) with (namespace keys +:+ ":metrics"). rewrite string_app_assoc. by intros H%string_app_inj_l.
Qed.
Lemma counters_bystander {A} (f : A -> list (rcmd unit)) l :
  (forall a, Forall (bystander requested J until) (f a)) -> Forall (fun c => calm (Cmd c)) (concat (f <$> l)).
Proof.
  intros Hf. apply Forall_concat, Forall_fmap, Forall_true. intros a. eapply Forall_impl; [apply Hf|].
  intros c. apply (event_bystander_calm requested J until stopped (Cmd c)).
Qed.
Lemma counter_commands_bystander key field incs : key <> jobs keys ->
  Forall (bystander requested J until) (counter_commands key field incs).
Proof.
  intros Hk. unfold counter_commands. apply Forall_app. split; [|by constructor]. apply Forall_fmap, Forall_true. done.
Qed.
Lemma calm_flush_job_metrics b : calm_prog (flush_job_metrics st b).
Proof.
  unfold flush_job_metrics. destruct (buffer_is_empty b); [done|]. open_op. apply guarded_try; [apply guarded_perform; calm_side|].
  intros _. apply guarded_pipe, Forall_app.
  split; apply counters_bystander; intros [[minute w] m]; cbn [job_metric_commands queue_metric_commands]; rewrite ?Hst.
  - apply Forall_app. split; [apply counter_commands_bystander, metrics_ne|].
    destruct (histogram_increments _); [constructor|]. constructor; [apply metrics_ne|by constructor].
  - apply counter_commands_bystander, metrics_ne.
Qed.
Lemma calm_flush_result_stats m : calm_prog (flush_result_stats st m).
Proof.
  unfold flush_result_stats. case_decide; [done|]. open_op. apply guarded_try; [apply guarded_perform; calm_side|]. intros _.
  assert (Forall (fun c => calm (Cmd c)) (concat (result_stat_commands st <$> map_to_list m))) as Hcmds.
  { apply counters_bystander. intros [q s]. apply Forall_fmap, Forall_true. intros p. cbn. rewrite Hst. by apply suffix_ne_jobs. }
  destruct (concat _); [done|]. by apply guarded_pipe.
Qed.
End OneStorage.

(** ** Peers *)

Local Abbreviation ours st := (storage_namespace st = requested).

Inductive peer_program : forall {A : Type}, prog A -> Prop :=
| pp_ret {A} (a : A) : peer_program (Ret a)
| pp_bind {A B} (p : prog A) (f : A -> prog B) :
    peer_program p -> (forall a, peer_program (f a)) -> peer_program (pbind p f)
| pp_reads {A} (p : prog A) : read_only p -> peer_program p
| pp_update st e : ours st -> fit e -> peer_program (update_job st e)
| pp_state st jid v : ours st -> peer_program (update_state st jid v)
| pp_retry st jid delay_s err now : ours st -> jid <> J -> peer_program (retry_in st jid delay_s err now)
| pp_finish st es : ours st -> J ∉ id <$> es -> peer_program (finish_with_success_batch st es)
| pp_kill st e err : ours st -> plain_queue (queue e) -> id e <> J -> peer_program (kill st e err)
| pp_delete st jid : ours st -> jid <> J -> peer_program (delete_job st jid)
| pp_promote st sq now : ours st -> sq = schedule keys \/ sq = retry keys -> peer_program (enqueue_scheduled st sq now)
| pp_retry_all st : ours st -> peer_program (retry_all_now st)
| pp_resurrect st pids : ours st -> Forall (fun pid => pid ∈ stopped) pids -> peer_program (resurrect_processes st pids)
| pp_cleanup st fuel now : ours st -> (now <= until)%Z -> peer_program (cleanup st fuel now)
| pp_enqueue st fuel e : ours st -> newcomer e -> peer_program (enqueue st fuel e)
| pp_try_enqueue st fuel e : ours st -> newcomer e -> peer_program (try_enqueue st fuel e)
| pp_enqueue_list st fuel es : ours st -> Forall newcomer es -> peer_program (enqueue_list st fuel es)
| pp_enqueue_in st fuel e delay now now_sched now_at : ours st -> newcomer e ->
    peer_program (enqueue_in st fuel e delay now now_sched now_at)
| pp_ping {P : ProcessSerde} st now_ms now : ours st -> peer_program (ping st now_ms now)
| pp_self_cleanup st : ours st -> peer_program (self_cleanup st)
| pp_set_config {C : ConfigSerde} st q config : ours st -> peer_program (set_queue_config st q config)
| pp_reset_config st q : ours st -> peer_program (reset_queue_config st q)
| pp_wipe_dead st : ours st -> peer_program (wipe_dead st)
| pp_metrics st b : ours st -> peer_program (flush_job_metrics st b)
| pp_stats st m : ours st -> peer_program (flush_result_stats st m).

Lemma peer_program_calm {A} (p : prog A) : peer_program p -> calm_prog p.
Proof.
  induction 1; [done|by apply guarded_pbind|by apply read_only_calm|..];
    eauto using calm_update_job, calm_update_state, calm_retry_in, calm_finish, calm_kill, calm_delete_job, calm_enqueue_scheduled,
      calm_retry_all_now, calm_resurrect_processes, calm_cleanup, calm_enqueue, calm_try_enqueue, calm_enqueue_list,
      calm_enqueue_in, calm_ping, calm_self_cleanup, calm_set_queue_config, calm_reset_queue_config, calm_wipe_dead,
      calm_flush_job_metrics, calm_flush_result_stats.
Qed.
End Peers.
