(* ===== verification/Permits.v ===== *)
(** * Concurrency control ([semaphores_map.rs])

    A [QueueControl] is its state and the generation of its notifier
    ([tokio::sync::Notify] with [notify_waiters] only): a [notified()] future
    remembers the generation it was created in and completes once
    [notify_waiters] has run since. [step] interleaves the tasks of a queue:
    a task that acquires, permits that are dropped, and configuration updates;
    each critical section and each notification is one step. *)
From S2P Require Import Prelude Errors Envelope Queue.

Record QueueControlState := {
  ctl_concurrency : nat;
  ctl_active : nat;
  ctl_state : QueueState;
}.

(** [QueueControl::new]. *)
Definition new_control (config : QueueRuntimeConfig) : QueueControlState :=
  {| ctl_concurrency := default 1 (rt_concurrency config); ctl_active := 0; ctl_state := rt_state config |}.

(** The test of [acquire]. *)
Definition can_acquire (s : QueueControlState) : bool :=
  is_active (ctl_state s) && bool_decide (ctl_active s < ctl_concurrency s).

(** The critical section of [acquire]: the state afterwards when a permit is
    taken. *)
Definition try_acquire (s : QueueControlState) : option QueueControlState :=
  if can_acquire s then
    Some {| ctl_concurrency := ctl_concurrency s; ctl_active := ctl_active s + 1; ctl_state := ctl_state s |}
  else None.

Definition apply_config (config : QueueRuntimeConfig) (s : QueueControlState) : QueueControlState :=
  {| ctl_concurrency := match rt_concurrency config with Some n => n | None => ctl_concurrency s end;
     ctl_active := ctl_active s; ctl_state := rt_state config |}.

(** [release], with [saturating_sub]. *)
Definition release (s : QueueControlState) : QueueControlState :=
  {| ctl_concurrency := ctl_concurrency s; ctl_active := ctl_active s - 1; ctl_state := ctl_state s |}.

(** ** The map of controls *)

(** [get_or_create]: an existing control keeps its state. *)
Definition get_or_create (key : string) (config : QueueRuntimeConfig) (m : gmap string QueueControlState)
    : QueueControlState * gmap string QueueControlState :=
  match m !! key with
  | Some c => (c, m)
  | None => (new_control config, <[key := new_control config]> m)
  end.

(** ** Tasks *)

(** A task in [acquire]: about to create its [notified] future; with the
    future created; waiting on it; or the owner of a permit. *)
Inductive task :=
| Arriving
| Notified (generation : nat)
| Waiting (generation : nat)
| Holding.

Definition holds (t : task) : bool := match t with Holding => true | _ => false end.
Definition held (ts : list task) : nat := length (filter (λ t, holds t = true) ts).

Record system := {
  control : QueueControlState;
  generation : nat;
  unnotified : nat;       (* critical sections left whose notification is still due *)
  tasks : list task;
}.

Definition with_tasks (s : system) (ts : list task) : system :=
  {| control := control s; generation := generation s; unnotified := unnotified s; tasks := ts |}.

Inductive step : system -> system -> Prop :=
| step_spawn s :
    step s (with_tasks s (Arriving :: tasks s))
| step_create s ts1 ts2 :
    tasks s = ts1 ++ Arriving :: ts2 ->
    step s (with_tasks s (ts1 ++ Notified (generation s) :: ts2))
| step_acquire s ts1 g ts2 c' :
    tasks s = ts1 ++ Notified g :: ts2 -> try_acquire (control s) = Some c' ->
    step s {| control := c'; generation := generation s; unnotified := unnotified s;
              tasks := ts1 ++ Holding :: ts2 |}
| step_block s ts1 g ts2 :
    tasks s = ts1 ++ Notified g :: ts2 -> try_acquire (control s) = None ->
    step s (with_tasks s (ts1 ++ Waiting g :: ts2))
| step_wake s ts1 g ts2 :
    tasks s = ts1 ++ Waiting g :: ts2 -> g < generation s ->
    step s (with_tasks s (ts1 ++ Arriving :: ts2))
| step_drop s ts1 t ts2 :
    (* the permit goes out of scope, or the acquiring future is dropped *)
    tasks s = ts1 ++ t :: ts2 ->
    step s (if holds t
            then {| control := release (control s); generation := generation s;
                    unnotified := unnotified s + 1; tasks := ts1 ++ ts2 |}
            else with_tasks s (ts1 ++ ts2))
| step_config s config :
    step s {| control := apply_config config (control s); generation := generation s;
              unnotified := unnotified s + 1; tasks := tasks s |}
| step_notify s :
    0 < unnotified s ->
    step s {| control := control s; generation := generation s + 1;
              unnotified := unnotified s - 1; tasks := tasks s |}.

Definition initial (config : QueueRuntimeConfig) : system :=
  {| control := new_control config; generation := 0; unnotified := 0; tasks := [] |}.

(** ** Invariants *)

(** The active count is the number of permits out; no task knows a generation
    that has not begun; and a task that waits without a wake-up on its way
    finds nothing to take. *)
Record wf (s : system) : Prop := {
  wf_active : ctl_active (control s) = held (tasks s);
  wf_generation : Forall (λ t, match t with Notified g | Waiting g => g <= generation s | _ => True end) (tasks s);
  wf_waiting : Forall (λ t, match t with
                            | Waiting g => g = generation s -> can_acquire (control s) = true -> 0 < unnotified s
                            | _ => True
                            end) (tasks s);
}.

Lemma held_app ts1 ts2 : held (ts1 ++ ts2) = held ts1 + held ts2.
Proof. unfold held. by rewrite filter_app, length_app. Qed.
Lemma held_cons t ts : held (t :: ts) = (if holds t then 1 else 0) + held ts.
Proof. unfold held. rewrite filter_cons. by destruct (holds t). Qed.

Lemma try_acquire_active c c' : try_acquire c = Some c' -> ctl_active c' = ctl_active c + 1.
Proof. unfold try_acquire. destruct (can_acquire c); intros; by simplify_eq. Qed.

Lemma can_acquire_after c c' : try_acquire c = Some c' -> can_acquire c' = true -> can_acquire c = true.
Proof. unfold try_acquire. by destruct (can_acquire c). Qed.

(** Replacing one task keeps a property of the others. *)
Lemma Forall_replace {A} (P : A -> Prop) ts1 t t' ts2 :
  Forall P (ts1 ++ t :: ts2) -> P t' -> Forall P (ts1 ++ t' :: ts2).
Proof. rewrite !Forall_app, !Forall_cons. tauto. Qed.
Lemma Forall_remove {A} (P : A -> Prop) ts1 t ts2 : Forall P (ts1 ++ t :: ts2) -> Forall P (ts1 ++ ts2).
Proof. rewrite !Forall_app, Forall_cons. tauto. Qed.

Arguments held : simpl never.
Ltac held_simp := rewrite ?held_app, ?held_cons in *; cbn [holds] in *.

Lemma wf_initial config : wf (initial config).
Proof. constructor; [done|constructor..]. Qed.

Lemma wf_step s s' : wf s -> step s s' -> wf s'.
Proof.
  intros [Ha Hg Hw] Hs. inversion Hs as
    [?|? ts1 ts2 Et|? ts1 g ts2 c' Et Htry|? ts1 g ts2 Et Htry|? ts1 g ts2 Et Hlt|? ts1 t ts2 Et|? config|? Hn]; subst;
    try rewrite Et in *.
  - constructor; cbn; [by held_simp|by constructor..].
  - constructor; cbn; [by held_simp|eapply Forall_replace; eauto..].
  - constructor; cbn.
    + rewrite (try_acquire_active _ _ Htry). held_simp. lia.
    + by eapply Forall_replace.
    + eapply Forall_replace; [|exact I]. eapply Forall_impl; [exact Hw|].
      intros [| | |]; try done. cbn. eauto using can_acquire_after.
  - constructor; cbn; [by held_simp| |].
    + eapply Forall_replace; [exact Hg|]. apply Forall_app in Hg as [_ [? _]%Forall_cons]. done.
    + eapply Forall_replace; [exact Hw|]. intros _ Hc. unfold try_acquire in Htry. by rewrite Hc in Htry.
  - constructor; cbn; [by held_simp|by eapply Forall_replace..].
  - destruct (holds t) eqn:E; constructor; cbn; held_simp; rewrite ?E in *; try by eapply Forall_remove.
    + lia.
    + apply Forall_remove in Hw. eapply Forall_impl; [exact Hw|]. intros [| | |]; cbn; try done. lia.
    + lia.
  - constructor; cbn; [done|done|]. eapply Forall_impl; [exact Hw|]. intros [| | |]; cbn; try done. lia.
  - constructor; cbn; [done| |].
    + eapply Forall_impl; [exact Hg|]. intros [| | |]; cbn; try done; lia.
    + rewrite Forall_forall in Hg |- *. intros t Ht. specialize (Hg t Ht). destruct t; cbn; try done. lia.
Qed.

(** C15. In every reachable state of a queue's tasks, the active count is the
    number of live permits, and a task that would wait for ever (waiting, with
    no notification due) could not take a permit: no wake-up is lost. *)
Theorem permits_exact_no_lost_wakeup config s :
  rtc step (initial config) s ->
  ctl_active (control s) = held (tasks s) /\
  (unnotified s = 0 -> Waiting (generation s) ∈ tasks s -> can_acquire (control s) = false).
Proof.
  intros Hr. assert (wf s) as [Ha _ Hw].
  { remember (initial config) as s0 eqn:E0. assert (wf s0) as H0 by (subst; apply wf_initial). clear E0.
    induction Hr; eauto using wf_step. }
  split; [done|]. intros Hn Hin. rewrite Forall_forall in Hw. specialize (Hw _ Hin). cbn in Hw.
  destruct (can_acquire (control s)); [|done]. specialize (Hw eq_refl eq_refl). lia.
Qed.

(** A permit is only handed out below the limit, and never on a paused queue. *)
Lemma try_acquire_bounded s s' : try_acquire s = Some s' ->
  ctl_active s' <= ctl_concurrency s' /\ ctl_state s = Active.
Proof.
  unfold try_acquire, can_acquire. destruct (is_active (ctl_state s)) eqn:E; [|done]. cbn.
  case_bool_decide; [|done]. intros [= <-]. cbn. split; [lia|]. by destruct (ctl_state s).
Qed.

Section FixedLimit.
Variable limit : nat.

(** The limit of the state and of every update applied. *)
Inductive step_fixed : system -> system -> Prop :=
| step_fixed_config s config :
    rt_concurrency config = Some limit \/ rt_concurrency config = None ->
    step_fixed s {| control := apply_config config (control s); generation := generation s;
                    unnotified := unnotified s + 1; tasks := tasks s |}
| step_fixed_other s s' :
    step s s' -> ctl_concurrency (control s') = ctl_concurrency (control s) -> step_fixed s s'.
End FixedLimit.

(** While the limit does not change, at most that many jobs hold a permit. *)
Theorem concurrency_limit_respected limit st s :
  rtc (step_fixed limit) (initial {| rt_concurrency := Some limit; rt_state := st |}) s ->
  held (tasks s) <= limit.
Proof.
  intros Hr. assert (wf s /\ ctl_concurrency (control s) = limit /\ ctl_active (control s) <= limit) as ([Ha _ _] & _ & ?);
    [|lia].
  remember (initial _) as s0 eqn:E0.
  assert (wf s0 /\ ctl_concurrency (control s0) = limit /\ ctl_active (control s0) <= limit) as H0.
  { subst. split_and!; [apply wf_initial|done|cbn; lia]. }
  clear E0. induction Hr as [|s1 s2 s3 Hs _ IH]; [done|]. apply IH. clear IH.
  destruct H0 as (Hwf & Hc & Ha). inversion Hs as [? config Hcfg|? ? Hstep Hsame]; subst.
  - split_and!; [eapply wf_step; [done|constructor]| |done]. cbn. by destruct Hcfg as [->| ->].
  - split_and!; [by eapply wf_step|done|].
    inversion Hstep; subst; cbn in *; try done.
    + match goal with H : try_acquire _ = Some _ |- _ => apply try_acquire_bounded in H as [? _] end. lia.
    + destruct (holds t); cbn; lia.
Qed.
