(* ===== verification/Throttle.v ===== *)
(** * Throttling ([throttler.rs])

    The throttled queue's sorted set holds one member per unit of cost, scored
    with the time it was consumed. Scores and times are microseconds. *)
From S2P Require Import Prelude Errors Redis Envelope Queue Keys Storage.
Open Scope Z_scope.

Record Throttler := {
  th_key : string;
  th_limit : Z;
  th_window_ms : Z;
}.

Record ThrottlerState := {
  requests : Z;
  is_allowed : bool;
  throttled_for : option Z;   (* milliseconds *)
}.

(** [build_key] and [Throttler::new]. *)
Definition throttler_key (key : string) : string := "oxana:throttler:" +:+ key.
Definition new_throttler (key : string) (limit window_ms : Z) : Throttler :=
  {| th_key := throttler_key key; th_limit := limit; th_window_ms := window_ms |}.

Definition window_micros (t : Throttler) : Z := th_window_ms t * 1000.

(** The answer computed from the first member and the count. *)
Definition state_of (t : Throttler) (now : Z) (first : list (string * Z)) (count : Z) : ThrottlerState :=
  let accurate_window_start := snd <$> head first in
  let allowed := count <? th_limit t in
  let throttled_for_micros :=
    if allowed then None else (fun start => now - start + window_micros t) <$> accurate_window_start in
  {| requests := count; is_allowed := allowed;
     throttled_for := (fun micros => Z.quot micros 1000 + 1) <$> throttled_for_micros |}.

Open Scope prog_scope.

(** [state_w_conn]: one pipeline of three commands. *)
Definition state_w_conn (t : Throttler) (now : Z) : rprog ThrottlerState :=
  removed <- call (ZREMRANGEBYSCORE (th_key t) 0 (now - window_micros t)) ;;
  first <- call (ZRANGE (th_key t) 0 0) ;;
  count <- call (ZCARD (th_key t)) ;;
  lift (res_bind removed (fun _ => res_bind first (fun first => res_map (fun count =>
    state_of t now first (Z.of_nat count)) count))).

Definition throttler_state (t : Throttler) (now : Z) : rprog ThrottlerState :=
  _ <-? connection ;; state_w_conn t now.

(** [consume]; [uuids] are the fresh members, one per unit of cost. The clock
    is read once for the members and once for the state. *)
Definition consume (t : Throttler) (cost : option Z) (uuids : list string) (now_members now : Z)
    : rprog ThrottlerState :=
  _ <-? connection ;;
  match u64_try_from now_members with
  | None => lift (Err TryFromIntError)
  | Some current_time =>
      state <-? state_w_conn t now ;;
      if is_allowed state then
        let effective_cost := default 1 cost in
        if decide (effective_cost = 0) then lift (Ok state)
        else
          let members := (fun u => (current_time, u)) <$> take (Z.to_nat effective_cost) uuids in
          updated <- call (ZADDM (th_key t) members) ;;
          expired <- call (PEXPIRE (th_key t) (th_window_ms t)) ;;
          lift (res_bind updated (fun updated => res_map (fun _ =>
            {| requests := requests state + Z.of_nat updated; is_allowed := is_allowed state;
               throttled_for := throttled_for state |}) expired))
      else lift (Ok state)
  end.

(** ** Facts *)

(** The members still inside the window at [now]. *)
Definition in_window (t : Throttler) (now : Z) (z : gmap string Z) : gmap string Z :=
  filter (λ p : string * Z, ¬ (0 <= p.2 /\ p.2 <= now - window_micros t)) z.


Lemma zrange_first z : zrange_pairs 0 0 z = take 1 (zset_sorted z).
Proof.
  unfold zrange_pairs. cbn [Z.ltb Z.compare orb]. destruct (zset_sorted z) as [|x l]; [done|].
  replace (Z.of_nat (length (x :: l)) <=? 0) with false by (symmetry; apply Z.leb_gt; cbn; lia). done.
Qed.

Lemma state_w_conn_run t now ks z : zset_at ks (th_key t) = Some z ->
  run_doc (state_w_conn t now) ks =
    (Ok (state_of t now (take 1 (zset_sorted (in_window t now z))) (Z.of_nat (size (in_window t now z)))),
     put_zset (th_key t) (in_window t now z) ks).
Proof.
  intros Hz. unfold state_w_conn. rewrite run_pbind, run_call. cbn [documented].
  erewrite write_zset_ok by eassumption. cbn [fst snd map_err].
  rewrite run_pbind, run_call. cbn [documented]. erewrite read_zset_ok by (by ks_simp). cbn [fst snd map_err].
  rewrite run_pbind, run_call. cbn [documented]. erewrite read_zset_ok by (by ks_simp).
  rewrite zrange_first. done.
Qed.

(** C29. A queue is allowed exactly while fewer than [limit] units lie in the
    window, and the window is what the set keeps. *)
Theorem throttler_window {R : RedisServer} {L : LawfulRedis R} t now d z :
  zset_at (view d) (th_key t) = Some z ->
  exists s d', run (throttler_state t now) d = (Ok s, d') /\
    (is_allowed s = true <-> Z.of_nat (size (in_window t now z)) < th_limit t) /\
    requests s = Z.of_nat (size (in_window t now z)) /\
    zset_at (view d') (th_key t) = Some (in_window t now z) /\
    same_except [th_key t] (view d) (view d').
Proof.
  intros Hz.
  edestruct (run_transfer (throttler_state t now) d) as (d' & Hrun & Hv).
  { unfold throttler_state. rewrite run_try. unfold connection. rewrite run_checkout.
    apply (state_w_conn_run t now _ z Hz). }
  do 2 eexists. split; [exact Hrun|]. rewrite Hv. split_and!.
  - unfold state_of. cbn. by rewrite Z.ltb_lt.
  - done.
  - by ks_simp.
  - frame.
Qed.

Lemma foldl_insert_size_le (ms : list (Z * string)) (z : gmap string Z) :
  (size (foldl (λ z p, <[p.2 := p.1]> z) z ms) <= size z + length ms)%nat.
Proof.
  revert z. induction ms as [|m ms IH]; intros z; cbn [foldl length]; [lia|].
  specialize (IH (<[m.2 := m.1]> z)). destruct (z !! m.2) eqn:E.
  - rewrite map_size_insert_Some in IH by eauto. lia.
  - rewrite map_size_insert_None in IH by done. lia.
Qed.


(** The wait of a throttled queue is longer than the window although the first
    member in it expires within the window: it is measured forward from now by
    the age of that member instead of by the rest of its window. *)
Theorem throttled_for_exceeds_window t now first count ms :
  0 <= th_window_ms t -> Forall (fun p : string * Z => now - window_micros t < p.2 <= now) first ->
  throttled_for (state_of t now first count) = Some ms ->
  th_window_ms t < ms /\
  (forall start, snd <$> head first = Some start -> start + window_micros t - now <= window_micros t).
Proof.
  intros Hw Hall. unfold state_of. cbn. destruct (count <? th_limit t); [done|].
  destruct first as [|[m start] first]; [done|]. apply Forall_cons in Hall as [Hs _]. cbn in *.
  intros [= <-]. unfold window_micros in *. split.
  - assert (th_window_ms t <= (now - start + th_window_ms t * 1000) ÷ 1000); [|lia].
    rewrite Z.quot_div_nonneg by lia. apply Z.div_le_lower_bound; lia.
  - intros ? [= <-]. lia.
Qed.
