(* ===== verification/Typing.v ===== *)
(** * The type of every key

    The keys of a namespace hold values of fixed types: a hash of payloads, the
    queues and processing lists, the two sorted sets of due jobs, and so on;
    every payload is an envelope whose queue has an ordinary name. [typed] says
    so of a keyspace, [cmd_typed] of a command that it addresses each key with
    the operations of its type. Programs whose events are typed keep [typed] in
    every interleaving, and no command of theirs finds a key of another type. *)
From S2P Require Import Prelude Errors Redis Events Envelope Codec Queue Keys Scripts Storage.
From S2P Require Import Transitions Enqueue EnqueueScript Client Metrics Stats StatsStorage Recovery Throttle.

Section Typing.
Context {S : Serde} {LS : LawfulSerde S}.
Variable requested : string.
Local Abbreviation keys := (new_keys requested).

(** An ordinary queue name: not taken for a full key. *)
Definition plain (q : string) : Prop := starts_with (namespace keys) q = false.
#[local] Instance plain_dec q : Decision (plain q).
Proof. unfold plain. apply _. Defined.

Definition in_namespace (k : string) : bool := starts_with (namespace keys +:+ ":") k.

(** The type of a key, from what follows the namespace. *)
Definition local_type (rest : string) : option rtype :=
  if decide (rest ∈ ["jobs"; "processes_data"; "stats"; "queue_configs"]%string) then Some THash
  else if decide (rest ∈ ["schedule"; "retry"; "processes"]%string) then Some TZset
  else if decide (rest = "dead"%string) then Some TList
  else if starts_with "dead:reviving:" rest then Some TList
  else if starts_with "processing:" rest then Some TList
  else if starts_with "metrics:h:" rest then Some TString
  else if starts_with "metrics:" rest then Some THash
  else match strip_prefix "queue:" rest with
       | Some q => if decide (plain q) then Some TList else None
       | None => None
       end.

Definition key_type (k : string) : option rtype := strip_prefix (namespace keys +:+ ":") k ≫= local_type.

Definition payload_ok (text : string) : Prop := exists e, from_str text = Ok e /\ plain (queue e).

(** The lists of dead letters: of payloads, not of IDs. *)
Definition holds_payloads (k : string) : Prop := k = dead keys \/ exists uuid, k = dead keys +:+ ":reviving:" +:+ uuid.

Definition value_ok (k : string) (v : rval) : Prop :=
  key_type k = Some (type_at {[ k := v ]} k) /\
  match v with
  | VHash h => k = jobs keys -> map_Forall (fun _ => payload_ok) h
  | VList l => holds_payloads k -> Forall payload_ok l
  | _ => True
  end.

Definition typed (ks : keyspace) : Prop := map_Forall (fun k v => in_namespace k = true -> value_ok k v) ks.

(** ** Commands *)

(** The keys of a command, with the type of value it is for. *)
Definition cmd_keys {X} (c : rcmd X) : list (string * rtype) :=
  match c with
  | HGET k _ | HMGET k _ | HEXISTS k _ | HSET k _ _ | HSETM k _ | HDEL k _ | HLEN k | HGETALL k | HINCRBY k _ _
  | HSCAN k _ => [(k, THash)]
  | LPUSH k _ | RPUSH k _ | LRANGE k _ _ | LLEN k | LINDEX k _ | LREM k _ _ | LTRIM k _ _ | LPOS k _ => [(k, TList)]
  | LMOVE src dst => [(src, TList); (dst, TList)]
  | ZADD k _ _ | ZREM k _ | ZSCORE k _ | ZCARD k | ZRANGE k _ _ | ZRANGEBYSCORE k _ _ | ZADDM k _
  | ZREMRANGEBYSCORE k _ _ => [(k, TZset)]
  | BITFIELD_INCR k _ | BITFIELD_GET k _ => [(k, TString)]
  | TYPE _ | EXISTS _ | DEL _ | RENAME _ _ | PEXPIRE _ _ | EXPIRE _ _ | SCAN _ => []
  end.

(** A key is used at its type, or lies outside the namespace. *)
Definition used_at (p : string * rtype) : Prop := in_namespace p.1 = true -> key_type p.1 = Some p.2.

Definition cmd_typed {X} (c : rcmd X) : Prop :=
  Forall used_at (cmd_keys c) /\
  match c with
  | HSET k _ v => k = jobs keys -> payload_ok v
  | HSETM k fvs => k = jobs keys -> Forall (fun p => payload_ok p.2) fvs
  | HINCRBY k _ _ => k <> jobs keys
  | LPUSH k v => holds_payloads k -> payload_ok v
  | RPUSH k vs => holds_payloads k -> Forall payload_ok vs
  | LMOVE _ dst => ~ holds_payloads dst
  | RENAME k k' => k = dead keys /\ holds_payloads k'
  | _ => True
  end.

(** What a command finds at its keys: nothing, or a value of its type. *)
Definition fits {X} (c : rcmd X) (ks : keyspace) : Prop :=
  Forall (fun p => in_namespace p.1 = true -> type_ok (type_at ks p.1) p.2 = true) (cmd_keys c).

Lemma typed_type ks k t : typed ks -> key_type k = Some t -> in_namespace k = true -> type_ok (type_at ks k) t = true.
Proof.
  intros Hks Hk Hn. unfold type_ok, type_at. destruct (ks !! k) as [v|] eqn:E; [|by apply bool_decide_eq_true; left].
  destruct (Hks k v E Hn) as [Ht _]. unfold type_at in Ht. rewrite lookup_singleton_eq, Hk in Ht.
  apply bool_decide_eq_true. right. destruct v; congruence.
Qed.

Lemma cmd_fits {X} (c : rcmd X) ks : cmd_typed c -> typed ks -> fits c ks.
Proof.
  intros [Hk _] Hks. unfold fits. eapply Forall_impl; [exact Hk|]. intros [k t] H Hn. cbn in *. by apply typed_type; auto.
Qed.

(** ** Writes *)

Lemma typed_delete k ks : typed ks -> typed (delete k ks).
Proof. intros H. by apply map_Forall_delete. Qed.
Lemma typed_insert k v ks : (in_namespace k = true -> value_ok k v) -> typed ks -> typed (<[k := v]> ks).
Proof. intros Hv H. by apply map_Forall_insert_2. Qed.

Lemma typed_put_hash k h ks : used_at (k, THash) -> (k = jobs keys -> map_Forall (fun _ => payload_ok) h) ->
  typed ks -> typed (put_hash k h ks).
Proof.
  intros Hk Hh H. unfold put_hash. case_decide; [by apply typed_delete|]. apply typed_insert; [|done]. intros Hn.
  split; [|done]. unfold type_at. rewrite lookup_singleton_eq. by apply Hk.
Qed.
Lemma typed_put_list k l ks : used_at (k, TList) -> (holds_payloads k -> Forall payload_ok l) ->
  typed ks -> typed (put_list k l ks).
Proof.
  intros Hk Hl H. unfold put_list. destruct l; [by apply typed_delete|]. apply typed_insert; [|done]. intros Hn.
  split; [|done]. unfold type_at. rewrite lookup_singleton_eq. by apply Hk.
Qed.
Lemma typed_put_zset k z ks : used_at (k, TZset) -> typed ks -> typed (put_zset k z ks).
Proof.
  intros Hk H. unfold put_zset. case_decide; [by apply typed_delete|]. apply typed_insert; [|done]. intros Hn.
  split; [|done]. unfold type_at. rewrite lookup_singleton_eq. by apply Hk.
Qed.

(** ** The program's keys *)

Lemma key_type_app rest : key_type (namespace keys +:+ ":" +:+ rest) = local_type rest.
Proof. unfold key_type. rewrite <- string_app_assoc, strip_prefix_app. done. Qed.
Lemma in_namespace_app rest : in_namespace (namespace keys +:+ ":" +:+ rest) = true.
Proof. unfold in_namespace. rewrite <- string_app_assoc. apply starts_with_app. Qed.

Lemma used_app rest t : local_type rest = Some t -> used_at (namespace keys +:+ ":" +:+ rest, t).
Proof. intros H _. cbn. by rewrite key_type_app. Qed.

Lemma jobs_used : used_at (jobs keys, THash). Proof. by apply (used_app "jobs"). Qed.
Lemma schedule_used : used_at (schedule keys, TZset). Proof. by apply (used_app "schedule"). Qed.
Lemma retry_used : used_at (retry keys, TZset). Proof. by apply (used_app "retry"). Qed.
Lemma dead_used : used_at (dead keys, TList). Proof. by apply (used_app "dead"). Qed.
Lemma processes_used : used_at (processes keys, TZset). Proof. by apply (used_app "processes"). Qed.
Lemma processes_data_used : used_at (processes_data keys, THash). Proof. by apply (used_app "processes_data"). Qed.
Lemma stats_used : used_at (stats keys, THash). Proof. by apply (used_app "stats"). Qed.
Lemma queue_configs_used : used_at (queue_configs keys, THash). Proof. by apply (used_app "queue_configs"). Qed.
Lemma reviving_used uuid : used_at (dead keys +:+ ":reviving:" +:+ uuid, TList).
Proof.
  change (dead keys) with (namespace keys +:+ ":dead"). rewrite string_app_assoc.
  apply (used_app ("dead:reviving:" +:+ uuid)). reflexivity.
Qed.
Lemma processing_used p : used_at (processing_queue keys p, TList).
Proof. rewrite processing_queue_eq. apply (used_app ("processing:" +:+ p)). reflexivity. Qed.
Lemma local_queue q : is_Some (local_type ("queue:" +:+ q)) -> plain q.
Proof.
  change (local_type ("queue:" +:+ q)) with (if decide (plain q) then Some TList else None).
  case_decide; [done|]. by intros [? ?].
Qed.
Lemma queue_used q : plain q -> used_at (namespace_queue keys q, TList).
Proof.
  intros Hq. rewrite namespace_queue_plain by done. apply (used_app ("queue:" +:+ q)).
  transitivity (if decide (plain q) then Some TList else None); [reflexivity|]. by rewrite decide_True.
Qed.
Lemma metrics_used rest t : local_type ("metrics" +:+ rest) = Some t -> used_at (metrics_prefix keys +:+ rest, t).
Proof.
  intros H. change (metrics_prefix keys) with (namespace keys +:+ ":metrics"). rewrite string_app_assoc.
  by apply (used_app ("metrics" +:+ rest)).
Qed.
Lemma metrics_counter_used minute : used_at (metrics_counter_key keys minute, THash).
Proof. apply metrics_used. reflexivity. Qed.
Lemma metrics_queue_length_used minute : used_at (metrics_queue_length_key keys minute, THash).
Proof. apply metrics_used. reflexivity. Qed.
Lemma metrics_queue_counter_used minute : used_at (metrics_queue_counter_key keys minute, THash).
Proof. apply metrics_used. reflexivity. Qed.
Lemma metrics_histogram_used field minute : used_at (metrics_histogram_key keys field minute, TString).
Proof. apply metrics_used. reflexivity. Qed.

Lemma holds_payloads_not rest : starts_with "dead" rest = false -> ~ holds_payloads (namespace keys +:+ ":" +:+ rest).
Proof.
  intros Hr H. apply not_true_iff_false in Hr. apply Hr. apply starts_with_true.
  destruct H as [H|[uuid H]]; change (dead keys) with (namespace keys +:+ ":dead") in H;
    rewrite ?string_app_assoc in H; apply string_app_inj_l in H; injection H as H; rewrite ?string_app_nil_l in H; subst rest; [by exists ""|].
  by exists (":reviving:" +:+ uuid).
Qed.
Lemma queue_not_payloads q : plain q -> ~ holds_payloads (namespace_queue keys q).
Proof. intros Hq. rewrite namespace_queue_plain by done. by apply (holds_payloads_not ("queue:" +:+ q)). Qed.
Lemma processing_not_payloads p : ~ holds_payloads (processing_queue keys p).
Proof. rewrite processing_queue_eq. by apply (holds_payloads_not ("processing:" +:+ p)). Qed.

Lemma holds_payloads_used k : holds_payloads k -> in_namespace k = true /\ key_type k = Some TList.
Proof.
  intros H. assert (in_namespace k = true) as Hn.
  { destruct H as [->|[uuid ->]]; [exact (in_namespace_app "dead")|].
    change (dead keys) with (namespace keys +:+ ":dead"). rewrite string_app_assoc. apply (in_namespace_app ("dead:reviving:" +:+ uuid)). }
  split; [done|]. destruct H as [->|[uuid ->]]; [by apply dead_used|by apply reviving_used].
Qed.

(** ** Reading a typed keyspace *)

Lemma typed_payloads ks h : typed ks -> hash_at ks (jobs keys) = Some h -> map_Forall (fun _ => payload_ok) h.
Proof.
  intros Hks Hh. unfold hash_at in Hh. destruct (ks !! jobs keys) as [v|] eqn:E; [|simplify_eq; apply map_Forall_empty].
  destruct (Hks _ _ E (in_namespace_app "jobs")) as [_ Hv]. destruct v; try done. injection Hh as <-. by apply Hv.
Qed.
Lemma typed_letters ks k l : typed ks -> holds_payloads k -> list_at ks k = Some l -> Forall payload_ok l.
Proof.
  intros Hks Hk Hl. unfold list_at in Hl. destruct (ks !! k) as [v|] eqn:E; [|by simplify_eq].
  destruct (holds_payloads_used k Hk) as [Hn _]. destruct (Hks _ _ E Hn) as [_ Hv]. destruct v; try done.
  injection Hl as <-. by apply Hv.
Qed.
Lemma typed_aggregate ks : typed ks ->
  (forall k, used_at (k, THash) -> in_namespace k = true -> is_Some (hash_at ks k)) /\
  (forall k, used_at (k, TList) -> in_namespace k = true -> is_Some (list_at ks k)) /\
  (forall k, used_at (k, TZset) -> in_namespace k = true -> is_Some (zset_at ks k)).
Proof.
  intros Hks. split_and!; intros k Hk Hn; [apply type_ok_hash|apply type_ok_list|apply type_ok_zset]; apply typed_type; auto.
Qed.

(** ** Commands keep the types *)

Lemma Forall_lrem n x l : Forall payload_ok l -> Forall payload_ok (lrem n x l).
Proof.
  intros H. destruct n as [|n]; cbn [lrem]; [rewrite Forall_forall in *; intros y [_ ?]%list_elem_of_filter; auto|]. generalize (Datatypes.S n) as m. clear n.
  induction H as [|y l Hy Hl IH]; intros [|m]; cbn; try done; [by constructor|]. case_decide; [apply IH|by constructor].
Qed.
Lemma Forall_lrange start stop l : Forall payload_ok l -> Forall payload_ok (lrange start stop l).
Proof. intros H. unfold lrange. case_match; [done|]. by apply Forall_take, Forall_drop. Qed.
Lemma hset_all_payloads fvs h : Forall (fun p => payload_ok p.2) fvs -> map_Forall (fun _ => payload_ok) h ->
  map_Forall (fun _ => payload_ok) (hset_all fvs h).
Proof.
  unfold hset_all. intros Hf. revert h. induction Hf as [|[f v] fvs Hv _ IH]; intros h Hh; cbn; [done|].
  by apply IH, map_Forall_insert_2.
Qed.
Lemma hdel_all_payloads fs h : map_Forall (fun _ => payload_ok) h -> map_Forall (fun _ => payload_ok) (hdel_all fs h).
Proof. intros Hh f v. rewrite hdel_all_lookup. case_decide; [done|apply Hh]. Qed.

Lemma typed_write_hash k ks f : used_at (k, THash) ->
  (forall h, k = jobs keys -> map_Forall (fun _ => payload_ok) h -> map_Forall (fun _ => payload_ok) (f h)) ->
  typed ks -> typed (snd (write_hash k ks f)).
Proof.
  intros Hk Hf H. unfold write_hash. destruct (hash_at ks k) as [h|] eqn:E; [|done]. apply typed_put_hash; [done| |done].
  intros ->. by apply Hf, (typed_payloads ks).
Qed.
Lemma typed_write_list k ks f : used_at (k, TList) ->
  (forall l, holds_payloads k -> Forall payload_ok l -> Forall payload_ok (f l)) ->
  typed ks -> typed (snd (write_list k ks f)).
Proof.
  intros Hk Hf H. unfold write_list. destruct (list_at ks k) as [l|] eqn:E; [|done]. apply typed_put_list; [done| |done].
  intros Hp. by apply Hf, (typed_letters ks k).
Qed.
Lemma typed_write_zset k ks f : used_at (k, TZset) -> typed ks -> typed (snd (write_zset k ks f)).
Proof. intros Hk H. unfold write_zset. destruct (zset_at ks k); [|done]. by apply typed_put_zset. Qed.

Lemma typed_lmove src dst ks : used_at (src, TList) -> used_at (dst, TList) -> ~ holds_payloads dst ->
  typed ks -> typed (snd (lmove src dst ks)).
Proof.
  intros Hs Hd Hn H. unfold lmove. destruct (list_at ks src) as [l|] eqn:El; [|done].
  destruct (unsnoc l) as [[l' x]|] eqn:Eu; [|done]. apply unsnoc_Some in Eu as ->.
  destruct (list_at (put_list src l' ks) dst); [|done]. cbn [snd]. apply typed_put_list; [done|done|].
  apply typed_put_list; [done| |done]. intros Hp. by apply (typed_letters ks src _ H Hp), Forall_app in El as [? _].
Qed.

Lemma value_ok_rename k' v : holds_payloads k' -> value_ok (dead keys) v -> value_ok k' v.
Proof.
  intros Hk [Ht Hv]. destruct (holds_payloads_used k' Hk) as [_ Hk'].
  pose proof (dead_used (in_namespace_app "dead")) as Hd. cbn [fst snd] in Hd.
  unfold type_at in Ht. rewrite lookup_singleton_eq, Hd in Ht.
  destruct v; try discriminate Ht. split; [unfold type_at; by rewrite lookup_singleton_eq|]. intros _. apply Hv. by left.
Qed.

Lemma cmd_preserves {X} (c : rcmd X) ks : cmd_typed c -> typed ks -> typed (snd (documented c ks)).
Proof.
  intros [Hk Hc] H. destruct c; cbn [cmd_keys documented] in *; rewrite ?Forall_cons in Hk; destruct_and? Hk;
    rewrite ?reads_read_hash, ?reads_read_list, ?reads_read_zset; try exact H.
  - (* DEL *) by apply typed_delete.
  - (* RENAME *) destruct Hc as [-> Hk']. destruct (ks !! dead keys) as [v|] eqn:E; [|done]. cbn [snd].
    apply typed_insert; [|by apply typed_delete]. intros _. apply value_ok_rename; [done|].
    apply (H _ _ E), (in_namespace_app "dead").
  - (* HSET *) apply typed_write_hash; [done| |done]. intros h Hj Hh. apply map_Forall_insert_2; auto.
  - (* HSETM *) apply typed_write_hash; [done| |done]. intros h Hj Hh. by apply hset_all_payloads; auto.
  - (* HDEL *) apply typed_write_hash; [done| |done]. intros h _. apply hdel_all_payloads.
  - (* LPUSH *) apply typed_write_list; [done| |done]. intros l Hp Hl. constructor; auto.
  - (* RPUSH *) apply typed_write_list; [done| |done]. intros l Hp Hl. apply Forall_app; auto.
  - (* LREM *) apply typed_write_list; [done| |done]. intros l _. apply Forall_lrem.
  - (* LTRIM *) apply typed_write_list; [done| |done]. intros l _. apply Forall_lrange.
  - (* LMOVE *) by apply typed_lmove.
  - (* ZADD *) by apply typed_write_zset.
  - (* ZREM *) by apply typed_write_zset.
  - (* ZADDM *) destruct (zset_at ks k); [|done]. by apply typed_put_zset.
  - (* ZREMRANGEBYSCORE *) by apply typed_write_zset.
  - (* HINCRBY *) destruct (hash_at ks k) as [h|] eqn:E; [|done]. destruct (hash_int _); [|done].
    by apply typed_put_hash.
  - (* BITFIELD_INCR *) destruct (bits_at ks k) as [b|]; [|done]. apply typed_insert; [|done]. intros Hn.
    split; [|done]. unfold type_at. rewrite lookup_singleton_eq. auto.
  - (* BITFIELD_GET *) by destruct (bits_at ks k).
Qed.

(** ** Events *)

Fixpoint lua_typed {A} (s : lua A) : Prop :=
  match s with
  | LRet _ | LError _ => True
  | LCall c k => cmd_typed c /\ forall x, lua_typed (k x)
  end.

Definition event_typed {X} (e : event X) : Prop :=
  match e with
  | Checkout _ => True
  | Cmd c => cmd_typed c
  | Script s => lua_typed s
  | Multi cs => Forall cmd_typed cs
  end.

(** Every command of an event, when its turn comes, finds its keys as [fits]. *)
Fixpoint lua_fits {A} (s : lua A) (ks : keyspace) : Prop :=
  match s with
  | LRet _ | LError _ => True
  | LCall c k => fits c ks /\ match documented c ks with (Ok x, ks') => lua_fits (k x) ks' | (Err _, _) => True end
  end.
Fixpoint multi_fits (cs : list (rcmd unit)) (ks : keyspace) : Prop :=
  match cs with [] => True | c :: cs' => fits c ks /\ multi_fits cs' (snd (documented c ks)) end.
Definition event_fits {X} (e : event X) (ks : keyspace) : Prop :=
  match e with
  | Checkout _ => True
  | Cmd c => fits c ks
  | Script s => lua_fits s ks
  | Multi cs => multi_fits cs ks
  end.

Lemma lua_typed_run {A} (s : lua A) : lua_typed s -> forall ks, typed ks -> typed (snd (script_doc s ks)) /\ lua_fits s ks.
Proof.
  induction s as [a|e|X c k IH]; intros Hs ks Hks; cbn; [done|done|]. destruct Hs as [Hc Hs].
  pose proof (cmd_preserves c ks Hc Hks) as H. pose proof (cmd_fits c ks Hc Hks).
  destruct (documented c ks) as [[x|e] ks']; cbn in *; [|done]. by destruct (IH x (Hs x) ks' H).
Qed.
Lemma multi_typed_run cs : Forall cmd_typed cs -> forall ks, typed ks ->
  typed (snd (@run_multi MemRedis cs ks)) /\ multi_fits cs ks.
Proof.
  induction 1 as [|c cs Hc _ IH]; intros ks Hks; cbn; [done|]. pose proof (cmd_preserves c ks Hc Hks) as H.
  pose proof (cmd_fits c ks Hc Hks). destruct (documented c ks) as [r ks']. cbn in *.
  destruct (IH ks' H). by destruct (@run_multi MemRedis cs ks').
Qed.

Lemma event_typed_preserves X (e : event X) : event_typed e -> preserves typed e.
Proof.
  intros He ks Hks. destruct e as [c|X c|X s|cs]; cbn in *; [done|..].
  - pose proof (cmd_preserves c ks He Hks). by destruct (documented c ks).
  - destruct (lua_typed_run s He ks Hks). by destruct (script_doc s ks).
  - destruct (multi_typed_run cs He ks Hks). by destruct (@run_multi MemRedis cs ks).
Qed.
Lemma event_typed_fits {X} (e : event X) ks : event_typed e -> typed ks -> event_fits e ks.
Proof.
  intros He Hks. destruct e as [c|X c|X s|cs]; cbn in *; [done|by apply cmd_fits|by apply lua_typed_run|by apply multi_typed_run].
Qed.

(** Programs whose every event is typed. *)
Definition typed_prog {A} (p : prog A) : Prop := guarded typed (@event_typed) p.

(** ** Scripts *)

Ltac used := first [ assumption | apply jobs_used | apply schedule_used | apply retry_used | apply dead_used
  | apply processes_used | apply processes_data_used | apply stats_used | apply queue_configs_used | apply processing_used
  | apply reviving_used | apply metrics_counter_used | apply metrics_queue_length_used | apply metrics_queue_counter_used
  | apply metrics_histogram_used | by apply queue_used ].
Lemma jobs_not_payloads : ~ holds_payloads (jobs keys).
Proof. by apply (holds_payloads_not "jobs"). Qed.
Ltac typed_side := idtac; lazymatch goal with
  | |- event_typed (Checkout _) => exact Logic.I
  | |- event_typed (Cmd _) => cbn [event_typed]; typed_side
  | |- cmd_typed _ => split; [cbn [cmd_keys]; repeat constructor; used|cbn; first [done | by intros ?%processing_not_payloads | auto]]
  | |- Forall _ (_ :: _) => constructor; [typed_side|typed_side]
  | |- Forall _ [] => constructor
  end.

Lemma require_types_typed kts {A} (body : lua A) : lua_typed body -> lua_typed (require_types kts body).
Proof.
  intros Hb. induction kts as [|[k t] kts IH]; cbn; [done|]. split; [done|]. intros x. by destruct (type_ok x t).
Qed.

Lemma finish_success_typed p ids : lua_typed (finish_success_lua (jobs keys) (processing_queue keys p) ids).
Proof.
  apply require_types_typed. induction ids as [|i ids IH]; cbn [acknowledge_each lua_typed]; [done|].
  split; [typed_side|]. intros _. split; [typed_side|done].
Qed.
Lemma finish_dead_typed p i text limit : payload_ok text ->
  lua_typed (finish_dead_lua (jobs keys) (dead keys) (processing_queue keys p) i text limit).
Proof.
  intros Ht. apply require_types_typed. cbn [lua_typed]. split; [typed_side|]. intros _. split; [typed_side|]. intros _.
  split; [typed_side|]. intros _. destruct (0 <? limit)%Z; [|done]. split; [typed_side|done].
Qed.
Lemma retry_failed_typed p i text score : payload_ok text ->
  lua_typed (retry_failed_lua (jobs keys) (retry keys) (processing_queue keys p) i text score).
Proof.
  intros Ht. apply require_types_typed. cbn [lua_typed]. split; [typed_side|]. intros _. split; [typed_side|]. intros _.
  split; [typed_side|done].
Qed.
Lemma promote_typed sq q i payload score : used_at (sq, TZset) -> plain q ->
  lua_typed (promote_scheduled_lua (jobs keys) sq (namespace_queue keys q) i payload score).
Proof.
  intros Hsq Hq. pose proof (queue_not_payloads q Hq). apply require_types_typed. cbn [lua_typed].
  split; [typed_side|]. intros x. case_decide; [|done]. split; [typed_side|]. intros y. case_decide; [|done].
  destruct y; cbn [lua_typed]; split; try typed_side; intros _; [|done]. split; [typed_side|done].
Qed.
Lemma resurrect_typed p q i payload should : plain q ->
  lua_typed (resurrect_claim_lua (jobs keys) (processing_queue keys p) (namespace_queue keys q) i payload should).
Proof.
  intros Hq. pose proof (queue_not_payloads q Hq). apply require_types_typed. cbn [lua_typed].
  split; [typed_side|]. intros [|]; [|done]. split; [typed_side|]. intros y. case_decide; [|done].
  destruct y, should; cbn [lua_typed]; split; try typed_side; intros _; try done; (split; [typed_side|done]).
Qed.
Lemma claim_dead_typed uuid : lua_typed (claim_dead_lua (dead keys) (dead keys +:+ ":reviving:" +:+ uuid)).
Proof. cbn. split; [done|]. intros [|]; [|done]. split; [|done]. split; [by constructor|]. split; [done|]. right. eauto. Qed.

Section EnqueueScript.
Definition arg_typed (a : EnqueueArg) : Prop :=
  payload_ok (in_payload a) /\ used_at (in_queue a, TList) /\ ~ holds_payloads (in_queue a).
Definition write_ok (w : EnqueueWrite) : Prop :=
  arg_typed (w_arg w) /\ forall old, w_old_queue w = Some old -> used_at (old, TList).
Local Abbreviation queues_ok qs := (map_Forall (fun _ q => used_at (q, TList)) qs).
Definition snap_ok (sn : SnapshotArg) : Prop := forall q, arg_queue sn = Some q -> used_at (q, TList).

Lemma require_type_typed types key t {A} (k : memo -> lua A) :
  (forall types, lua_typed (k types)) -> lua_typed (require_type types key t k).
Proof.
  intros Hk. unfold require_type. destruct (types !! key); [by case_decide|]. cbn. split; [done|]. intros x.
  by destruct (type_ok x t).
Qed.

Lemma check_snapshots_typed snaps : Forall snap_ok snaps ->
  forall changed present qs {A} (k : list (string * option string) -> presence -> queue_names -> lua A),
  queues_ok qs -> (forall c p qs, queues_ok qs -> lua_typed (k c p qs)) ->
  lua_typed (check_snapshots (jobs keys) snaps changed present qs k).
Proof.
  induction 1 as [|sn snaps Hsn _ IH]; intros changed present qs A k Hqs Hk; cbn [check_snapshots]; [by apply Hk|].
  split; [typed_side|]. intros payload. apply IH; [|done]. destruct (arg_queue sn) as [q|] eqn:E.
  - apply map_Forall_insert_2; [by apply Hsn|done].
  - by apply map_Forall_delete.
Qed.

Lemma plan_one_ok exists_ a present qs : arg_typed a -> queues_ok qs ->
  let '(w, _, _, qs') := plan_one exists_ a present qs in
  match w with Some w => write_ok w | None => True end /\ queues_ok qs'.
Proof.
  intros Ha Hqs. unfold plan_one. destruct (_ && exists_); [done|]. split.
  - split; [done|]. cbn. intros old. destruct (_ && exists_); [|done]. apply Hqs.
  - apply map_Forall_insert_2; [apply Ha|done].
Qed.

Lemma plan_writes_typed inputs : Forall arg_typed inputs ->
  forall present qs writes outcomes {A} (k : list EnqueueWrite -> list nat -> lua A),
  queues_ok qs -> Forall write_ok writes -> (forall ws os, Forall write_ok ws -> lua_typed (k ws os)) ->
  lua_typed (plan_writes (jobs keys) inputs present qs writes outcomes k).
Proof.
  induction 1 as [|a inputs Ha _ IH]; intros present qs writes outcomes A k Hqs Hws Hk; cbn [plan_writes]; [by apply Hk|].
  assert (forall exists_ present, lua_typed (let '(w, o, present', qs') := plan_one exists_ a present qs in
    plan_writes (jobs keys) inputs present' qs' (match w with Some w => writes ++ [w] | None => writes end) (outcomes ++ [o]) k))
    as Hcont.
  { intros b p. pose proof (plan_one_ok b a p qs Ha Hqs) as Hp. destruct (plan_one b a p qs) as [[[w o] p'] qs'].
    destruct Hp as [Hw Hqs']. apply IH; [done| |done]. destruct w; [|done]. apply Forall_app_2; [done|by apply Forall_singleton]. }
  destruct (present !! in_id a); [apply Hcont|]. case_decide; [apply Hcont|]. split; [typed_side|]. intros b. apply Hcont.
Qed.

Lemma preflight_writes_typed scheduled ws {A} (k : lua A) : lua_typed k ->
  forall types, lua_typed (preflight_writes scheduled (schedule keys) (retry keys) ws types k).
Proof.
  intros Hk. induction ws as [|w ws IH]; intros types; cbn [preflight_writes]; [done|].
  assert (forall types, lua_typed (if w_replacing w then
      require_type types (schedule keys) TZset (fun types => require_type types (retry keys) TZset (fun types =>
        match w_old_queue w with
        | None => LError script_error
        | Some old => require_type types old TList (fun types => require_type types (in_queue (w_arg w)) TList (fun types =>
            preflight_writes scheduled (schedule keys) (retry keys) ws types k))
        end))
    else preflight_writes scheduled (schedule keys) (retry keys) ws types k)) as H.
  { intros ty. destruct (w_replacing w); [|apply IH]. do 2 (apply require_type_typed; intros ?).
    destruct (w_old_queue w); [|done]. do 2 (apply require_type_typed; intros ?). apply IH. }
  destruct scheduled; by apply require_type_typed.
Qed.

Lemma commit_write_typed scheduled w {A} (k : lua A) : write_ok w -> lua_typed k ->
  lua_typed (commit_write scheduled (jobs keys) (schedule keys) (retry keys) w k).
Proof.
  intros [(Hp & Hq & Hn) Hold] Hk. unfold commit_write.
  assert (lua_typed (HSET (jobs keys) (in_id (w_arg w)) (in_payload (w_arg w)) ;;~
     if scheduled then ZADD (schedule keys) (in_score (w_arg w)) (in_id (w_arg w)) ;;~ k
     else LPUSH (in_queue (w_arg w)) (in_id (w_arg w)) ;;~ k)%lua) as Hs.
  { cbn [lua_typed]. split; [typed_side|]. intros _. destruct scheduled; cbn [lua_typed]; (split; [typed_side|done]). }
  destruct (w_replacing w); [|done]. cbn [lua_typed]. split; [typed_side|]. intros _. split; [typed_side|]. intros _.
  assert (used_at (default ""%string (w_old_queue w), TList)) as Ho.
  { destruct (w_old_queue w) as [old|] eqn:E; [by apply Hold|]. cbn. intros Hb. exfalso. revert Hb.
    unfold in_namespace. cbn. unfold new_keys. cbn. by case_decide; destruct requested. }
  split; [typed_side|]. intros _. case_decide; [done|]. cbn [lua_typed]. split; [typed_side|done].
Qed.

Lemma enqueue_typed dest snaps inputs : Forall snap_ok snaps -> Forall arg_typed inputs ->
  lua_typed (enqueue_lua (jobs keys) (schedule keys) (retry keys) dest snaps inputs).
Proof.
  intros Hsn Hin. unfold enqueue_lua. apply require_type_typed. intros types.
  apply check_snapshots_typed; [done|apply map_Forall_empty|]. intros c p qs Hqs. unfold plan_inputs. destruct c; [|done].
  apply plan_writes_typed; [done..|]. intros ws os Hws. unfold commit_plan. apply preflight_writes_typed.
  induction Hws as [|w ws Hw _ IH]; cbn [commit_writes]; [done|]. by apply commit_write_typed.
Qed.
End EnqueueScript.

(** ** Operations *)

Lemma payload_print e text : print_job e = Ok text -> plain (queue e) -> payload_ok text.
Proof. intros Hp Hq. destruct (print_parse e) as (text' & Hp' & Hparse & _). exists e. split; [congruence|done]. Qed.

Section OneStorage.
Variable st : StorageInternal.
Hypothesis Hst : storage_namespace st = requested.

Lemma own_queue : current_processing_queue st = processing_queue keys (own_process_id st).
Proof. unfold current_processing_queue. by rewrite Hst. Qed.

Ltac open_op := unfold connection, claimed_connection, stats_connection; rewrite ?Hst, ?own_queue.
Create HintDb typed_ops.
Ltac known_typed := idtac; match goal with |- guarded _ _ ?p => change (typed_prog p); solve [eauto with typed_ops] end.
Ltac types := unfold typed_prog; open_op; walk typed_side known_typed.

(** What a read of the payloads tells. *)
Lemma hget_payload jid : forall x ks, typed ks -> fst (@run_event MemRedis _ (Cmd (HGET (jobs keys) jid)) ks) = Ok x ->
  forall text, x = Some text -> payload_ok text.
Proof.
  intros x ks Hks H text ->. cbn in H. unfold read_hash in H. destruct (hash_at ks (jobs keys)) as [h|] eqn:E; [|done].
  cbn in H. injection H as H. by eapply (typed_payloads ks h Hks E).
Qed.
Lemma hmget_payload fs : forall x ks, typed ks -> fst (@run_event MemRedis _ (Cmd (HMGET (jobs keys) fs)) ks) = Ok x ->
  Forall (fun t => forall text, t = Some text -> payload_ok text) x.
Proof.
  intros x ks Hks H. cbn in H. unfold read_hash in H. destruct (hash_at ks (jobs keys)) as [h|] eqn:E; [|done].
  cbn in H. injection H as <-. apply Forall_fmap, Forall_true. intros f text Ht. by eapply (typed_payloads ks h Hks E).
Qed.

Lemma parsed_plain text e : payload_ok text -> parse_job text = Ok e -> plain (queue e).
Proof. intros (e' & He & Hq) H. unfold parse_job in H. rewrite He in H. cbn in H. by simplify_eq. Qed.

Lemma get_job_then_typed {B} jid (f : option JobEnvelope -> rprog B) :
  (forall e, plain (queue e) -> typed_prog (f (Some e))) -> typed_prog (f None) ->
  typed_prog (try (get_job_w_conn st jid) f).
Proof.
  intros Hf Hn. unfold get_job_w_conn. rewrite ?Hst. unfold try at 2, typed_prog. cbn [pbind call perform].
  split; [typed_side|]. intros r [->|(ks & Hk & ->)]; [done|]. pose proof (hget_payload jid) as Hg.
  destruct (fst _) as [[text|]|] eqn:E; cbn; [|done|done].
  specialize (Hg _ ks Hk E text eq_refl). destruct (parse_job text) as [e|] eqn:Ep; cbn; [|done].
  by apply Hf, (parsed_plain text).
Qed.

Lemma typed_get_job_w_conn jid : typed_prog (get_job_w_conn st jid).
Proof. unfold get_job_w_conn. types. Qed.
#[local] Hint Resolve typed_get_job_w_conn : typed_ops.
Lemma typed_get_job jid : typed_prog (get_job st jid).
Proof. unfold get_job. types. Qed.
#[local] Hint Resolve typed_get_job : typed_ops.
Lemma typed_claimed_read_loop jid attempts : forall r, typed_prog (claimed_read_loop st jid attempts r).
Proof.
  induction attempts as [|[] attempts IH]; intros [|]; cbn [claimed_read_loop]; types.
Qed.
#[local] Hint Resolve typed_claimed_read_loop : typed_ops.
Lemma typed_get_claimed_job jid attempts : typed_prog (get_claimed_job st jid attempts).
Proof. unfold get_claimed_job. types. Qed.

Lemma typed_dequeue q : plain q -> typed_prog (dequeue st q).
Proof.
  intros Hq. unfold dequeue, dequeue_w_conn. types.
Qed.

Lemma typed_update_job e : plain (queue e) -> typed_prog (update_job st e).
Proof.
  intros Hq. unfold update_job. types.
  intros _. by eapply payload_print.
Qed.
#[local] Hint Resolve typed_update_job : typed_ops.
Lemma typed_update_state jid v : typed_prog (update_state st jid v).
Proof.
  unfold update_state, get_job, connection, typed_prog. split; [done|]. intros [[]|err] _; [|done].
  change (typed_prog (try (get_job_w_conn st jid) (fun found => match found with
    | None => lift (Err JobNotFound) | Some e => update_job st (map_meta (set_state (Some v)) e) end))).
  apply get_job_then_typed; [|done]. intros e He. by apply typed_update_job.
Qed.

Lemma collect_payloads es items : Forall (fun e => plain (queue e)) es ->
  collect ((fun e => res_map (fun text => (id e, text)) (print_job e)) <$> es) = Ok items ->
  Forall (fun p => payload_ok p.2) items.
Proof.
  intros Hes. revert items. induction Hes as [|e es He _ IH]; intros items Hc; cbn in Hc; [by simplify_eq|].
  destruct (print_job e) as [text|] eqn:Ep; [|done]. cbn in Hc. destruct (collect _) as [items'|]; [|done].
  cbn in Hc. simplify_eq. constructor; [by eapply payload_print|by apply IH].
Qed.
Lemma typed_update_jobs es : Forall (fun e => plain (queue e)) es -> typed_prog (update_jobs st es).
Proof.
  intros Hes. unfold update_jobs. destruct es as [|e es']; [done|]. types. intros _. by eapply collect_payloads.
Qed.
Lemma typed_set_started_at_batch now es : Forall (fun e => plain (queue e)) es -> typed_prog (set_started_at_batch st now es).
Proof.
  intros Hes. unfold set_started_at_batch. apply guarded_pbind; [|done]. apply typed_update_jobs.
  apply Forall_fmap. by eapply Forall_impl; [exact Hes|].
Qed.

(** *** The transitions *)

Lemma typed_script {A} (s : lua A) : lua_typed s -> typed_prog (perform (Script s)).
Proof. done. Qed.
#[local] Hint Resolve typed_script finish_success_typed finish_dead_typed retry_failed_typed promote_typed resurrect_typed
  claim_dead_typed schedule_used retry_used : typed_ops.

Lemma typed_retry_in jid delay_s err now : typed_prog (retry_in st jid delay_s err now).
Proof.
  unfold retry_in, claimed_connection, typed_prog. apply guarded_try; [done|]. intros _.
  apply get_job_then_typed; [|types]. intros e He. unfold retry_found, typed_prog. apply guarded_lift_try. intros text Ht.
  open_op. apply guarded_perform, retry_failed_typed. by eapply payload_print.
Qed.
Lemma typed_kill e err : plain (queue e) -> typed_prog (kill st e err).
Proof.
  intros He. unfold kill, claimed_connection, typed_prog. apply guarded_try; [done|]. intros _. apply guarded_lift_try.
  intros text Ht. open_op. apply guarded_perform, finish_dead_typed. by eapply payload_print.
Qed.
Lemma typed_finish es : typed_prog (finish_with_success_batch st es).
Proof.
  unfold finish_with_success_batch. destruct es as [|e es]; [done|]. open_op. apply guarded_try; [done|]. intros _.
  apply guarded_perform, finish_success_typed.
Qed.

Lemma typed_delete_job jid : typed_prog (delete_job st jid).
Proof.
  unfold delete_job, connection, typed_prog. apply guarded_try; [done|]. intros _. rewrite ?Hst.
  apply (guarded_reply_try _ _ _ _ (fun raw => forall text, raw = Some text -> payload_ok text));
    [typed_side|apply hget_payload|]. intros raw Hraw.
  assert (forall qs : gset string, (forall k, k ∈ qs -> used_at (k, TList)) ->
    typed_prog (perform (Multi ([HDEL (jobs keys) [jid]; ZREM (schedule keys) jid; ZREM (retry keys) jid;
      LREM (current_processing_queue st) 0 jid] ++ ((fun queue_key => LREM queue_key 0 jid) <$> elements qs))))) as Hm.
  { intros qs Hqs. rewrite own_queue. apply guarded_perform. cbn [event_typed]. apply Forall_app. split; [typed_side|].
    apply Forall_fmap, Forall_forall. intros k Hk%elem_of_elements. split; [|done]. constructor; [by apply Hqs|done]. }
  destruct raw as [text|]; cbn [mbind option_bind].
  - destruct (Hraw text eq_refl) as (e & He & Hq). unfold payload_queue. rewrite (value_queue text e He).
    apply guarded_lift_try. intros qs [= <-]. apply Hm. intros k ->%elem_of_singleton. by apply queue_used.
  - rewrite decide_False by (by intros [? ?]). apply guarded_lift_try. intros qs [= <-]. apply Hm. by intros k ?%elem_of_empty.
Qed.

(** *** Due jobs and dead processes *)

Lemma snapshot_then_typed {B} jid (k : option string -> option JobEnvelope -> rprog B) (g : OxanaError -> rprog B) :
  (forall payload envelope, plain (queue_of envelope) -> typed_prog (k payload envelope)) ->
  (forall e, typed_prog (g e)) ->
  typed_prog (pbind (transition_snapshot st jid) (fun r =>
    match r with Ok (payload, envelope) => k payload envelope | Err e => g e end)).
Proof.
  intros Hk Hg. unfold transition_snapshot, try, typed_prog. rewrite ?Hst. cbn [pbind call perform].
  split; [typed_side|]. intros r [->|(ks & Hks & ->)]; [apply Hg|]. pose proof (hget_payload jid) as Hp.
  destruct (fst _) as [[text|]|e] eqn:E; cbn; [|apply Hk, empty_name_plain|apply Hg].
  specialize (Hp _ ks Hks E text eq_refl). destruct (parse_job text) as [e|] eqn:Ep; cbn; [|apply Hg].
  apply Hk. by eapply parsed_plain.
Qed.

Lemma typed_promote sq due : used_at (sq, TZset) -> forall count, typed_prog (promote_scheduled_jobs st sq due count).
Proof.
  intros Hsq. induction due as [|[jid score] due IH]; intros count; cbn [promote_scheduled_jobs]; [done|].
  apply snapshot_then_typed.
  - intros payload envelope Hq. apply guarded_try; [|intros; apply IH]. rewrite ?Hst. by apply guarded_perform, promote_typed.
  - intros e. by destruct (is_json_error e).
Qed.
#[local] Hint Resolve typed_promote : typed_ops.
Lemma typed_enqueue_scheduled sq now : sq = schedule keys \/ sq = retry keys -> typed_prog (enqueue_scheduled st sq now).
Proof.
  intros Hsq. assert (used_at (sq, TZset)) by (destruct Hsq as [->| ->]; used). unfold enqueue_scheduled. types.
Qed.
Lemma typed_retry_all_now : typed_prog (retry_all_now st).
Proof. unfold retry_all_now. types. Qed.

Lemma typed_resurrect_claims pid ids : forall count, typed_prog (resurrect_claims st (processing_queue keys pid) ids count).
Proof.
  induction ids as [|jid ids IH]; intros count; cbn [resurrect_claims]; [done|]. apply snapshot_then_typed.
  - intros payload envelope Hq. apply guarded_try; [|intros; apply IH]. rewrite ?Hst. by apply guarded_perform, resurrect_typed.
  - intros e. by destruct (is_json_error e).
Qed.
#[local] Hint Resolve typed_resurrect_claims : typed_ops.
Lemma typed_resurrect_process pid : typed_prog (resurrect_process st pid).
Proof. unfold resurrect_process. types. Qed.
#[local] Hint Resolve typed_resurrect_process : typed_ops.
Lemma typed_resurrect_dead threshold now_ms : typed_prog (resurrect_dead st threshold now_ms).
Proof.
  unfold resurrect_dead, dead_process_ids, scan_keys_w_conn, dead_process_ids_in. types.
  match goal with |- guarded _ _ (resurrect_processes _ ?pids) => induction pids as [|pid pids IH] end;
    cbn [resurrect_processes]; types.
Qed.

Lemma typed_scan_cleanable fuel now : forall cursor acc, typed_prog (scan_cleanable st fuel cursor now acc).
Proof. induction fuel as [|fuel IH]; intros cursor acc; cbn [scan_cleanable]; types. Qed.
#[local] Hint Resolve typed_scan_cleanable : typed_ops.
Lemma typed_cleanup fuel now : typed_prog (cleanup st fuel now).
Proof. unfold cleanup. types. Qed.
Lemma typed_self_cleanup : typed_prog (self_cleanup st).
Proof. unfold self_cleanup. types. Qed.
Lemma typed_ping {P : ProcessSerde} now_ms now : typed_prog (ping st now_ms now).
Proof.
  unfold ping. types. intros Hk. by apply string_app_inj_l in Hk.
Qed.

(** *** Enqueueing *)

Local Abbreviation ordinary es := (Forall (fun e => plain (queue e)) es).

Lemma typed_ordinary dest es : ordinary es -> typed_prog (enqueue_ordinary st dest es).
Proof.
  intros Hes. unfold enqueue_ordinary. apply guarded_lift_try. intros cmds Hc. apply guarded_pipe.
  revert cmds Hc. induction Hes as [|e es He _ IH]; intros cmds Hc; cbn in Hc; [by simplify_eq|].
  unfold ordinary_commands in Hc at 1. destruct (print_job e) as [text|] eqn:Ep; [|done]. cbn in Hc.
  destruct (collect _) as [cmds'|]; [|done]. cbn in Hc. simplify_eq. cbn [concat].
  apply Forall_app. split; [|by apply IH]. rewrite ?Hst. pose proof (queue_not_payloads _ He). constructor; [|constructor; [|done]].
  - split; [repeat constructor; used|]. intros _. by eapply payload_print.
  - destruct dest; typed_side.
Qed.

Lemma serialize_typed es pending : serialize_pending es = Ok pending -> ordinary es ->
  Forall arg_typed (enqueue_arg_of st <$> pending).
Proof.
  unfold serialize_pending. intros Hc Hes. revert pending Hc.
  induction Hes as [|e es He _ IH]; intros pending Hc; cbn in Hc; [by simplify_eq|].
  destruct (print_job e) as [text|] eqn:Ep; [|done]. cbn in Hc. destruct (collect _) as [pending'|]; [|done].
  cbn in Hc. simplify_eq. cbn [fmap list_fmap]. constructor; [|by apply IH]. unfold arg_typed. cbn. rewrite ?Hst.
  split_and!; [by eapply payload_print|by apply queue_used|by apply queue_not_payloads].
Qed.

(** A snapshot names the queue of a stored payload. *)
Definition snapshot_typed (sn : option EnqueueSnapshot) : Prop := forall s, sn = Some s -> plain (snap_queue s).
Lemma snapshot_parse_typed text s : payload_ok text -> snapshot_parse text = Ok s -> plain (snap_queue s).
Proof.
  intros (e & He & Hq) H. destruct (raw_queue_parses text e He) as (off & len & Hr). unfold snapshot_parse in H.
  rewrite Hr in H. cbn [map_err res_bind] in H. case_decide; [case_decide|]; by simplify_eq.
Qed.
Lemma insert_snapshots_typed found : Forall (fun p : JobId * option string => forall text, p.2 = Some text -> payload_ok text) found ->
  forall snaps snaps', map_Forall (fun _ => snapshot_typed) snaps -> insert_snapshots found snaps = Ok snaps' ->
  map_Forall (fun _ => snapshot_typed) snaps'.
Proof.
  induction 1 as [|[jid payload] found Hp _ IH]; intros snaps snaps' Hs H; cbn [insert_snapshots] in H; [by simplify_eq|].
  cbn in Hp. destruct payload as [text|]; cbn in H.
  - destruct (snapshot_parse text) as [s|] eqn:E; [|done]. cbn in H. eapply IH; [|exact H]. apply map_Forall_insert_2; [|done].
    intros s' [= <-]. by eapply snapshot_parse_typed; eauto.
  - eapply IH; [|exact H]. by apply map_Forall_insert_2.
Qed.
Lemma snapshot_args_typed (snaps : gmap JobId (option EnqueueSnapshot)) : map_Forall (fun _ => snapshot_typed) snaps ->
  Forall snap_ok (snapshot_arg_of st <$> map_to_list snaps).
Proof.
  intros Hs. apply Forall_fmap, Forall_forall. intros [jid sn] Hin%elem_of_map_to_list. specialize (Hs _ _ Hin).
  intros q. cbn. destruct sn as [s|]; cbn; [|done]. intros [= <-]. rewrite ?Hst. by apply queue_used, Hs.
Qed.

(** The changed payloads the script reports are those it has read. *)
Lemma enqueue_reply_typed dest snaps inputs : forall (x : EnqueueReply) ks, typed ks ->
  fst (@run_event MemRedis _ (Script (enqueue_lua (jobs keys) (schedule keys) (retry keys) dest snaps inputs)) ks) = Ok x ->
  Forall (fun p : JobId * option string => forall text, p.2 = Some text -> payload_ok text) x.1.
Proof.
  intros x ks Hks Hx. destruct (proj1 (typed_aggregate ks Hks) (jobs keys) jobs_used (in_namespace_app "jobs")) as [h Hh].
  destruct (enqueue_lua_commits (jobs keys) (schedule keys) (retry keys) dest snaps inputs ks h Hh)
    as [[e He]|[[_ He]|(_ & types & _ & _ & _ & He)]]; cbn [run_event] in Hx; rewrite He in Hx; cbn in Hx; simplify_eq; cbn;
    [|constructor].
  pose proof (typed_payloads ks h Hks Hh) as Hp. unfold stale. clear -Hp. induction snaps as [|sn snaps IH]; cbn; [constructor|].
  destruct (snapshot_matches _ _); [apply IH|]. constructor; [|apply IH]. cbn. intros text Ht. by eapply Hp.
Qed.

Lemma typed_enqueue_loop fuel dest pending : Forall arg_typed (enqueue_arg_of st <$> pending) ->
  forall snaps written, map_Forall (fun _ => snapshot_typed) snaps -> typed_prog (enqueue_loop st fuel dest pending snaps written).
Proof.
  intros Hp. induction fuel as [|fuel IH]; intros snaps written Hs; cbn [enqueue_loop]; [done|].
  pose proof (snapshot_args_typed snaps Hs) as Ha. rewrite ?Hst in *.
  apply (guarded_reply_try _ _ _ _ (fun x => Forall (fun p : JobId * option string => forall text, p.2 = Some text -> payload_ok text) x.1));
    [by apply enqueue_typed|apply enqueue_reply_typed|].
  intros [[|c cs] outcomes] Hx; cbn [fst] in *; [done|]. apply guarded_lift_try. intros snaps' Hsn. apply IH.
  by eapply insert_snapshots_typed.
Qed.

Lemma drop_seen_ordinary es : ordinary es -> forall written seen, ordinary (drop_seen written seen es).
Proof.
  induction 1 as [|e es He _ IH]; intros written seen; cbn [drop_seen]; [done|].
  destruct (skips e && _); [apply IH|]. constructor; [done|apply IH].
Qed.

Lemma read_snapshots_then_typed {B} ids (f : gmap JobId (option EnqueueSnapshot) -> rprog B) :
  (forall snaps, map_Forall (fun _ => snapshot_typed) snaps -> typed_prog (f snaps)) -> typed_prog (try (read_snapshots st ids) f).
Proof.
  intros Hf. unfold read_snapshots. destruct (elements ids) as [|i is_] eqn:E; [by apply Hf, map_Forall_empty|].
  unfold try at 2, typed_prog. rewrite ?Hst. cbn [pbind call perform]. split; [typed_side|].
  intros r [->|(ks & Hks & ->)]; [done|]. pose proof (hmget_payload (i :: is_)) as Hp.
  destruct (fst _) as [payloads|err] eqn:Er; cbn; [|done]. specialize (Hp _ ks Hks Er).
  destruct (insert_snapshots _ _) as [snaps|] eqn:Ei; [|done]. cbn. apply Hf.
  refine (insert_snapshots_typed _ _ ∅ _ (map_Forall_empty _) Ei).
  clear -Hp. change (Forall (fun p : JobId * option string => forall text, p.2 = Some text -> payload_ok text) (zip (i :: is_) payloads)).
  revert Hp. generalize (i :: is_). clear i is_. intros l H. revert l. induction H as [|t ts Ht _ IH]; intros [|j l]; cbn; try done.
  by constructor.
Qed.

Lemma typed_enqueue_chunk fuel dest es written : ordinary es -> typed_prog (enqueue_chunk st fuel dest es written).
Proof.
  intros Hes. unfold enqueue_chunk. destruct (forallb _ es).
  { apply guarded_try; [by apply typed_ordinary|done]. }
  pose proof (drop_seen_ordinary es Hes written ∅) as Hd. destruct (drop_seen written ∅ es) as [|e0 es0]; [done|].
  apply read_snapshots_then_typed. intros snaps Hs. apply guarded_try.
  { unfold read_existing_skips. destruct (skip_ids _ _) as [|i ids]; [done|]. apply guarded_try; [|done]. rewrite ?Hst.
    apply guarded_pipe_query, Forall_fmap, Forall_true. intros jid. cbn. typed_side. }
  intros existing. apply guarded_lift_try. intros [|p ps] Hser; [done|]. apply typed_enqueue_loop; [|done].
  eapply serialize_typed; [exact Hser|]. rewrite Forall_forall in Hd. apply Forall_forall.
  intros e [_ He]%list_elem_of_filter. by apply Hd.
Qed.

Lemma typed_enqueue_w_conn fuel e dest : plain (queue e) -> typed_prog (enqueue_w_conn st fuel e dest).
Proof. intros He. apply guarded_try; [apply typed_enqueue_chunk; by constructor|done]. Qed.
#[local] Hint Resolve typed_enqueue_w_conn : typed_ops.
Lemma typed_enqueue fuel e : plain (queue e) -> typed_prog (enqueue st fuel e).
Proof. intros He. unfold enqueue. types. Qed.
#[local] Hint Resolve typed_enqueue : typed_ops.
Lemma typed_try_enqueue fuel e : plain (queue e) -> typed_prog (try_enqueue st fuel e).
Proof.
  intros He. unfold try_enqueue, connection. apply guarded_try; [done|]. intros _.
  apply guarded_try; [apply typed_enqueue_chunk; by constructor|done].
Qed.
Lemma typed_enqueue_at fuel e now : plain (queue e) -> typed_prog (enqueue_at st fuel e now).
Proof. intros He. unfold enqueue_at. types. Qed.
Lemma typed_enqueue_in fuel e delay now now_sched now_at : plain (queue e) ->
  typed_prog (enqueue_in st fuel e delay now now_sched now_at).
Proof. intros He. unfold enqueue_in. case_decide; [by apply typed_enqueue|]. by apply typed_enqueue_at. Qed.

Lemma typed_enqueue_list fuel es : ordinary es -> typed_prog (enqueue_list st fuel es).
Proof.
  intros Hes. unfold enqueue_list, connection. destruct es as [|e es]; [done|]. apply guarded_try; [done|]. intros _.
  unfold enqueue_list_w_conn. apply guarded_try; [|done]. unfold enqueue_list_chunks.
  pose proof (Forall_chunks _ ENQUEUE_LIST_CHUNK_SIZE _ Hes) as Hc. generalize (∅ : gset JobId).
  induction Hc as [|c cs Hc _ IH]; intros written; cbn [enqueue_each_chunk]; [done|].
  apply guarded_try; [by apply typed_enqueue_chunk|intros; apply IH].
Qed.

(** *** Configurations, wiping, reviving *)

Lemma typed_set_queue_config {C : ConfigSerde} q config : typed_prog (set_queue_config st q config).
Proof. unfold set_queue_config. types. intros Hk. by apply configs_ne_jobs in Hk. Qed.
Lemma typed_reset_queue_config q : typed_prog (reset_queue_config st q).
Proof. unfold reset_queue_config. types. Qed.
Lemma typed_wipe_queue q : plain q -> typed_prog (wipe_queue st q).
Proof. intros Hq. unfold wipe_queue. types. Qed.
Lemma typed_wipe_dead : typed_prog (wipe_dead st).
Proof. unfold wipe_dead. types. Qed.

Lemma typed_restore uuid entries : Forall payload_ok entries ->
  typed_prog (restore_claimed_dead_entries st (dead keys +:+ ":reviving:" +:+ uuid) entries).
Proof. intros He. unfold restore_claimed_dead_entries. types. Qed.

Lemma typed_revive_entries fuel uuid entries : Forall payload_ok entries -> forall revived,
  typed_prog (revive_entries st (enqueue st fuel) (dead keys +:+ ":reviving:" +:+ uuid) entries revived).
Proof.
  induction 1 as [|text entries (e & He & Hq) Hes IH]; intros revived; cbn [revive_entries]; [done|]. rewrite He.
  apply guarded_pbind; [by apply typed_enqueue|]. intros [_|err]; [apply IH|]. apply guarded_pbind; [|done].
  apply typed_restore. constructor; [by exists e|done].
Qed.

Lemma letters_reply k : holds_payloads k -> forall x ks, typed ks ->
  fst (@run_event MemRedis _ (Cmd (LRANGE k 0 (-1))) ks) = Ok x -> Forall payload_ok x.
Proof.
  intros Hk x ks Hks Hx. cbn in Hx. unfold read_list in Hx. destruct (list_at ks k) as [l|] eqn:E; [|done].
  cbn [fst map_err] in Hx. injection Hx as <-. rewrite lrange_all. by eapply typed_letters.
Qed.

Lemma typed_revive_all_dead fuel uuid : typed_prog (revive_all_dead st (enqueue st fuel) uuid).
Proof.
  unfold revive_all_dead, reviving_key, connection. apply guarded_try; [done|]. intros _. rewrite ?Hst.
  apply guarded_try; [apply guarded_perform, claim_dead_typed|]. intros [|n]; [done|].
  apply (guarded_reply_try _ _ _ _ (Forall payload_ok)); [typed_side|apply letters_reply; right; eauto|]. intros entries He.
  apply guarded_try; [by apply typed_revive_entries|]. intros revived. types.
Qed.

(** *** Counters *)

Lemma metrics_ne_jobs rest : metrics_prefix keys +:+ rest <> jobs keys.
Proof.
  change (metrics_prefix keys) with (namespace keys +:+ ":metrics"). rewrite string_app_assoc. by intros ?%string_app_inj_l.
Qed.

Lemma counter_commands_typed key field incs : used_at (key, THash) -> key <> jobs keys ->
  Forall cmd_typed (counter_commands key field incs).
Proof.
  intros Hu Hk. unfold counter_commands. apply Forall_app. split; [|typed_side]. apply Forall_fmap, Forall_true.
  intros p. split; [by repeat constructor|done].
Qed.

Lemma typed_pipe cs : Forall cmd_typed cs -> typed_prog (pipe cs).
Proof. intros H. by apply guarded_pipe. Qed.

Lemma typed_flush_job_metrics b : typed_prog (flush_job_metrics st b).
Proof.
  unfold flush_job_metrics. destruct (buffer_is_empty b); [done|]. unfold stats_connection. apply guarded_try; [done|]. intros _.
  apply typed_pipe, Forall_app. split; apply Forall_concat, Forall_fmap, Forall_true; intros [[minute w] m];
    cbn [compose job_metric_commands queue_metric_commands]; unfold compose; rewrite ?Hst.
  - apply Forall_app. split; [apply counter_commands_typed; [used|apply metrics_ne_jobs]|].
    destruct (histogram_increments _); [constructor|]. typed_side.
  - apply counter_commands_typed; [used|apply metrics_ne_jobs].
Qed.

Lemma typed_flush_result_stats m : typed_prog (flush_result_stats st m).
Proof.
  unfold flush_result_stats. case_decide; [done|]. unfold stats_connection. apply guarded_try; [done|]. intros _.
  assert (Forall cmd_typed (concat (result_stat_commands st <$> map_to_list m))) as Hcmds.
  { apply Forall_concat, Forall_fmap, Forall_true. intros [q s]. unfold compose, result_stat_commands. rewrite ?Hst.
    apply Forall_fmap, Forall_true. intros p. unfold compose. split; [repeat constructor; used|]. by intros ?%string_app_inj_l. }
  destruct (concat _); [done|]. by apply typed_pipe.
Qed.

Lemma typed_read_lengths qs : Forall plain qs -> forall lengths, typed_prog (read_lengths st qs lengths).
Proof. induction 1 as [|q qs Hq _ IH]; intros lengths; cbn [read_lengths]; types. Qed.
Lemma typed_refresh_queue_length_stats qs now : Forall plain qs -> typed_prog (refresh_queue_length_stats st qs now).
Proof.
  intros Hqs. unfold refresh_queue_length_stats. destruct qs as [|q qs]; [done|]. unfold connection, stats_connection.
  apply guarded_try; [done|]. intros _. apply guarded_try.
  { apply typed_read_lengths, Forall_forall. intros x Hx. rewrite elem_of_remove_dups in Hx. rewrite Forall_forall in Hqs. auto. }
  intros lengths. apply guarded_try; [by destruct (has_stats_pool st)|]. intros _. apply guarded_try; [|done].
  apply typed_pipe, Forall_app. rewrite ?Hst. split; [|typed_side]. apply Forall_concat, Forall_fmap, Forall_true.
  intros [k n]. unfold compose, queue_length_commands. rewrite ?Hst.
  assert (stats keys <> jobs keys) by (by intros ?%string_app_inj_l).
  assert (metrics_queue_length_key keys (now / 60) <> jobs keys) by apply metrics_ne_jobs.
  typed_side; intros Hk; by exfalso.
Qed.
End OneStorage.

Lemma typed_throttler t now : in_namespace (th_key t) = false -> typed_prog (throttler_state t now).
Proof.
  intros Hk. assert (used_at (th_key t, TZset)) by (intros H'; cbn in H'; congruence).
  unfold throttler_state, state_w_conn, connection, typed_prog. walk typed_side idtac.
Qed.
Lemma typed_consume t cost uuids now_members now : in_namespace (th_key t) = false ->
  typed_prog (consume t cost uuids now_members now).
Proof.
  intros Hk. assert (used_at (th_key t, TZset)) by (intros H'; cbn in H'; congruence).
  unfold consume, state_w_conn, connection, typed_prog. walk typed_side idtac.
Qed.

(** ** Programs

    What workers, clients and the dashboard run on one namespace: any sequence,
    also depending on the replies, of operations on jobs, configurations and
    counters whose queues have ordinary names, and of programs that only read. *)
Definition allowed {X} (e : event X) : Prop := event_typed e \/ event_reads e.

Lemma allowed_preserves X (e : event X) : allowed e -> preserves typed e.
Proof.
  intros [H|H]; [by apply event_typed_preserves|]. intros ks Hks. by rewrite event_reads_same.
Qed.

Local Abbreviation ordinary es := (Forall (fun e => plain (queue e)) es).
Local Abbreviation ours st := (storage_namespace st = requested).

Inductive storage_program : forall {A : Type}, prog A -> Prop :=
| sp_ret {A} (a : A) : storage_program (Ret a)
| sp_bind {A B} (p : prog A) (f : A -> prog B) :
    storage_program p -> (forall a, storage_program (f a)) -> storage_program (pbind p f)
| sp_reads {A} (p : prog A) : read_only p -> storage_program p
| sp_get st jid attempts : ours st -> storage_program (get_claimed_job st jid attempts)
| sp_dequeue st q : ours st -> plain q -> storage_program (dequeue st q)
| sp_start st now es : ours st -> ordinary es -> storage_program (set_started_at_batch st now es)
| sp_update st e : ours st -> plain (queue e) -> storage_program (update_job st e)
| sp_state st jid v : ours st -> storage_program (update_state st jid v)
| sp_retry st jid delay_s err now : ours st -> storage_program (retry_in st jid delay_s err now)
| sp_finish st es : ours st -> storage_program (finish_with_success_batch st es)
| sp_kill st e err : ours st -> plain (queue e) -> storage_program (kill st e err)
| sp_delete st jid : ours st -> storage_program (delete_job st jid)
| sp_promote st sq now : ours st -> sq = schedule keys \/ sq = retry keys -> storage_program (enqueue_scheduled st sq now)
| sp_retry_all st : ours st -> storage_program (retry_all_now st)
| sp_resurrect st threshold now_ms : ours st -> storage_program (resurrect_dead st threshold now_ms)
| sp_cleanup st fuel now : ours st -> storage_program (cleanup st fuel now)
| sp_enqueue st fuel e : ours st -> plain (queue e) -> storage_program (enqueue st fuel e)
| sp_try_enqueue st fuel e : ours st -> plain (queue e) -> storage_program (try_enqueue st fuel e)
| sp_enqueue_list st fuel es : ours st -> ordinary es -> storage_program (enqueue_list st fuel es)
| sp_enqueue_in st fuel e delay now now_sched now_at : ours st -> plain (queue e) ->
    storage_program (enqueue_in st fuel e delay now now_sched now_at)
| sp_ping {P : ProcessSerde} st now_ms now : ours st -> storage_program (ping st now_ms now)
| sp_self_cleanup st : ours st -> storage_program (self_cleanup st)
| sp_set_config {C : ConfigSerde} st q config : ours st -> storage_program (set_queue_config st q config)
| sp_reset_config st q : ours st -> storage_program (reset_queue_config st q)
| sp_wipe_queue st q : ours st -> plain q -> storage_program (wipe_queue st q)
| sp_wipe_dead st : ours st -> storage_program (wipe_dead st)
| sp_revive st fuel uuid : ours st -> storage_program (revive_all_dead st (enqueue st fuel) uuid)
| sp_metrics st b : ours st -> storage_program (flush_job_metrics st b)
| sp_stats st m : ours st -> storage_program (flush_result_stats st m)
| sp_lengths st qs now : ours st -> Forall plain qs -> storage_program (refresh_queue_length_stats st qs now)
| sp_throttle t cost uuids now_members now : in_namespace (th_key t) = false ->
    storage_program (consume t cost uuids now_members now).

Lemma storage_program_allowed {A} (p : prog A) : storage_program p -> guarded typed (@allowed) p.
Proof.
  assert (forall {A} (p : prog A), typed_prog p -> guarded typed (@allowed) p) as Ht.
  { intros B q. apply guarded_impl. by left. }
  induction 1; [done|by apply guarded_pbind| |apply Ht..];
    eauto using typed_get_claimed_job, typed_dequeue, typed_set_started_at_batch, typed_update_job, typed_update_state,
      typed_retry_in, typed_finish, typed_kill, typed_delete_job, typed_enqueue_scheduled, typed_retry_all_now,
      typed_resurrect_dead, typed_cleanup, typed_enqueue, typed_try_enqueue, typed_enqueue_list, typed_enqueue_in,
      typed_ping, typed_self_cleanup, typed_set_queue_config, typed_reset_queue_config, typed_wipe_queue, typed_wipe_dead,
      typed_revive_all_dead, typed_flush_job_metrics, typed_flush_result_stats, typed_refresh_queue_length_stats,
      typed_consume.
  (* a program that only reads *)
  match goal with H : read_only _ |- _ => revert H end. unfold read_only.
  match goal with |- guarded _ _ ?q -> _ => generalize q end. intros q. induction q as [a|X e k IH]; cbn; [done|].
  intros [He Hk]. split; [by right|]. intros r Hr. apply IH, Hk. destruct Hr as [->|(ks & _ & ->)]; [by left|right; eauto].
Qed.
End Typing.

(** What a job operation reads of a typed keyspace. *)
Lemma typed_store {S : Serde} {LS : LawfulSerde S} requested st ks : typed requested ks -> storage_namespace st = requested ->
  exists js : job_store st ks, map_Forall (fun _ text => exists e, from_str text = Ok e) (payloads js).
Proof.
  intros Hks Hst. destruct (typed_aggregate requested ks Hks) as (Hh & Hl & Hz).
  pose proof (own_queue requested st Hst) as Hown.
  destruct (Hh _ (jobs_used requested) (in_namespace_app requested "jobs")) as [h Eh].
  destruct (Hz _ (schedule_used requested) (in_namespace_app requested "schedule")) as [z Ez].
  destruct (Hz _ (retry_used requested) (in_namespace_app requested "retry")) as [r Er].
  destruct (Hl _ (dead_used requested) (in_namespace_app requested "dead")) as [d Ed].
  destruct (Hl _ (processing_used requested (own_process_id st))) as [l El].
  { rewrite processing_queue_eq. apply (in_namespace_app requested ("processing:" +:+ _)). }
  rewrite <- Hown in El. rewrite <- Hst in *. exists (Build_job_store st ks h z r d l Eh Ez Er Ed El). cbn.
  intros f text Hf. destruct (typed_payloads _ _ _ Hks Eh f text Hf) as (e & He & _). eauto.
Qed.
