(* ===== verification/Executor.v ===== *)
(** * Executing jobs ([executor.rs], the [Processable] trait and the defaults
    of [worker.rs])

    A worker is user code: a [Processable] is what its trait methods answer,
    and how its [process] ends is a field. The runtime's [fail] is recorded as
    the list of errors passed to it; logging and reporting are left out. *)
From S2P Require Import Prelude Errors Redis Envelope Queue Keys Scripts Storage Metrics.
Open Scope Z_scope.

(** ** Worker defaults *)

Definition default_max_retries : Z := 2.

(** [u64::pow(5, retries + 2)]; the u32 addition and the power wrap. *)
Definition default_retry_delay (retries : Z) : Z := u64_wrap (5 ^ u32_wrap (retries + 2)).

(** [WorkerBatchConfig::new]; [None] is the panic. *)
Record WorkerBatchConfig := { batch_size : nat; batch_timeout : Duration }.
Definition new_batch_config (size : nat) (timeout : Duration) : option WorkerBatchConfig :=
  if decide (0 < size)%nat then Some {| batch_size := size; batch_timeout := timeout |} else None.

(** ** Jobs bound to their worker *)

(** How [process] ends: a worker error is its text under the error formatter,
    together with what the retry-delay override answers for it. *)
Inductive ExecutionResult :=
| ExecSuccess
| ExecFailed (formatted : string) (delay_override : Z -> Z -> option Z)
| ExecPanicked (message : string).

Record Processable := {
  p_len : nat;
  p_job_name : string;
  p_worker_name : string;
  p_max_retries : nat -> Z;             (* index *)
  p_retry_delay : nat -> Z -> Z;        (* index, retries *)
  p_should_resume : bool;
  p_process : ExecutionResult;
}.

Record JobExecutionPolicy := { max_retries : Z; policy_retry_delay : Z }.

Definition execution_policy (w : Processable) (index : nat) (e : JobEnvelope) : JobExecutionPolicy :=
  {| max_retries := p_max_retries w index;
     policy_retry_delay := p_retry_delay w index (retries (meta e)) |}.

Definition policies (w : Processable) (es : list JobEnvelope) : list JobExecutionPolicy :=
  imap (execution_policy w) es.

Record ExecutionOutcome := { out_kind : WorkerResultKind; out_duration_ms : Z }.

(** ** Failure metadata *)

Record FailedJobMetadata := {
  fj_job_id : JobId;
  fj_args : Value;
  fj_retry_count : Z;
  fj_max_retries : Z;
  fj_will_retry : bool;
  fj_terminal : bool;
}.
Record WorkerFailureMetadata := {
  fm_batch_size : nat;
  fm_jobs : list FailedJobMetadata;
  fm_queue : string;
  fm_job_name : string;
  fm_worker_name : string;
  fm_will_retry : bool;
  fm_terminal : bool;
}.

Definition failed_job (p : JobEnvelope * JobExecutionPolicy) : FailedJobMetadata :=
  let will_retry := retries (meta p.1) <? max_retries p.2 in
  {| fj_job_id := id p.1; fj_args := args (job p.1); fj_retry_count := retries (meta p.1);
     fj_max_retries := max_retries p.2; fj_will_retry := will_retry; fj_terminal := negb will_retry |}.

Definition failure_metadata (es : list JobEnvelope) (ps : list JobExecutionPolicy) (job_name worker_name : string)
    : WorkerFailureMetadata :=
  let js := failed_job <$> zip es ps in
  let will_retry := existsb fj_will_retry js in
  {| fm_batch_size := length js; fm_jobs := js;
     fm_queue := match head es with Some e => queue e | None => "" end;
     fm_job_name := job_name; fm_worker_name := worker_name;
     fm_will_retry := will_retry; fm_terminal := negb will_retry |}.

Section Execution.
Context `{S : Serde}.
Variable st : StorageInternal.
Open Scope prog_scope.

(** ** Failed jobs *)

(** [retry_delay]: the override, when there is one and it answers. *)
Definition retry_delay (delay_override : Z -> Z -> option Z) (e : JobEnvelope) (p : JobExecutionPolicy) : Z :=
  default (policy_retry_delay p) (delay_override (retries (meta e)) (policy_retry_delay p)).

Definition handle_err (err_msg : string) (e : JobEnvelope) (delay max now : Z) : rprog unit :=
  if retries (meta e) <? max then retry_in st (id e) delay err_msg now
  else kill st e err_msg.

(** The loop over a failed batch: the first storage error is passed to [fail]
    and ends it. *)
Fixpoint handle_errs (err_msg : string) (delay : JobEnvelope -> JobExecutionPolicy -> Z) (now : Z)
    (jobs : list (JobEnvelope * JobExecutionPolicy)) : prog (list OxanaError) :=
  match jobs with
  | [] => Ret []
  | (e, p) :: jobs' =>
      r <- handle_err err_msg e (delay e p) (max_retries p) now ;;
      match r with
      | Ok _ => handle_errs err_msg delay now jobs'
      | Err error => Ret [error]
      end
  end.

Definition finish_batch_result (result_ : ExecutionResult) (es : list JobEnvelope)
    (ps : list JobExecutionPolicy) (now : Z) : prog (WorkerResultKind * list OxanaError) :=
  match result_ with
  | ExecSuccess =>
      r <- finish_with_success_batch st es ;;
      Ret (Success, match r with Ok _ => [] | Err e => [e] end)
  | ExecFailed err_msg delay_override =>
      errors <- handle_errs err_msg (retry_delay delay_override) now (zip es ps) ;;
      Ret (Failed, errors)
  | ExecPanicked panic_msg =>
      errors <- handle_errs panic_msg (fun _ p => policy_retry_delay p) now (zip es ps) ;;
      Ret (Panicked, errors)
  end.

(** ** [run_batch]

    The answer is the outcome and the errors passed to [fail], or the error
    returned. *)
Definition clear_state (w : Processable) (es : list JobEnvelope) : list JobEnvelope :=
  if p_should_resume w then es else map_meta (set_state None) <$> es.

Definition run_batch (w : Processable) (es : list JobEnvelope) (duration_ms now_start now_finish : Z)
    : rprog (ExecutionOutcome * list OxanaError) :=
  match es with
  | [] => lift (Ok ({| out_kind := Success; out_duration_ms := 0 |}, []))
  | _ =>
      if decide (p_len w <> length es) then
        lift (Err (GenericError ("Batch worker has " +:+ z_to_string (Z.of_nat (p_len w)) +:+
          " jobs but received " +:+ z_to_string (Z.of_nat (length es)) +:+ " envelopes")))
      else
        let ps := policies w es in
        started <- set_started_at_batch st now_start (clear_state w es) ;;
        match started with
        | (_, Err e) => lift (Err e)
        | (es', Ok _) =>
            finished <- finish_batch_result (p_process w) es' ps now_finish ;;
            lift (Ok ({| out_kind := finished.1; out_duration_ms := duration_ms |}, finished.2))
        end
  end.

Definition run (w : Processable) (e : JobEnvelope) := run_batch w [e].
End Execution.

(** ** Facts *)

(** Default delays are powers of five as long as they fit a u64. *)
Lemma default_retry_delay_exact r :
  0 <= r <= 25 -> default_retry_delay r = 5 ^ (r + 2) /\ default_retry_delay r <= u64_max.
Proof.
  intros Hr. unfold default_retry_delay. rewrite u32_wrap_small by (unfold u32_max; lia).
  assert (0 <= 5 ^ (r + 2) <= u64_max).
  { split; [apply Z.pow_nonneg; lia|].
    apply Z.le_trans with (5 ^ 27); [apply Z.pow_le_mono_r; lia|]. unfold u64_max. lia. }
  rewrite u64_wrap_small by done. split; [done|lia].
Qed.

(** The default delays back off exponentially, by a factor of five, as long as
    they fit a u64: up to the 25th retry. The power of the 26th does not fit,
    and the delay it wraps to (where overflow is not checked) is shorter than
    the one before it. *)
Theorem default_retry_delay_backoff r :
  0 <= r <= 24 ->
  default_retry_delay (r + 1) = 5 * default_retry_delay r /\
  25 <= default_retry_delay r < default_retry_delay (r + 1) /\
  default_retry_delay (r + 1) <= u64_max /\
  default_retry_delay 26 < default_retry_delay 25.
Proof.
  intros Hr. destruct (default_retry_delay_exact r) as [-> _]; [lia|].
  destruct (default_retry_delay_exact (r + 1)) as [E Hle]; [lia|].
  assert (5 ^ (r + 1 + 2) = 5 * 5 ^ (r + 2)) as E'
    by (replace (r + 1 + 2) with (Z.succ (r + 2)) by lia; rewrite Z.pow_succ_r by lia; lia).
  assert (5 ^ 2 <= 5 ^ (r + 2)) by (apply Z.pow_le_mono_r; lia).
  split_and!; [lia..|vm_compute; reflexivity].
Qed.

Lemma length_policies w es : length (policies w es) = length es.
Proof. apply length_imap. Qed.

(** What is reported about a failed batch agrees with what is done with it: a
    job is reported as retried exactly when [handle_err] retries it. *)
Lemma failed_job_agrees `{S : Serde} st err_msg e p delay now :
  handle_err st err_msg e delay (max_retries p) now =
    if fj_will_retry (failed_job (e, p)) then retry_in st (id e) delay err_msg now else kill st e err_msg.
Proof. done. Qed.
