(* ===== verification/ExecutorFacts.v ===== *)
(** * What becomes of the jobs of a batch

    Every job of a failed batch is settled once: retried while its budget
    lasts, dead after, its claim released either way. *)
From S2P Require Import Prelude Errors Redis Envelope Codec Queue Keys Scripts Storage Transitions Metrics Executor.

Section Settled.
Context {R : RedisServer} {L : LawfulRedis R} {S : Serde} {LS : LawfulSerde S}.
Variable st : StorageInternal.

(** The envelope stored for a job in hand. *)
Definition stored_as (p : gmap string string) (e e' : JobEnvelope) : Prop :=
  exists text, p !! id e = Some text /\ from_str text = Ok e' /\ id e' = id e.

Definition retried (j : JobEnvelope * JobExecutionPolicy) : bool := (retries (meta j.1) <? max_retries j.2)%Z.

(** The dead letters after a batch: the jobs that are not retried, the last
    one first, within the limit. *)
Fixpoint bury (err : string) (js : list (JobEnvelope * JobExecutionPolicy)) (dead : list string) : list string :=
  match js with
  | [] => dead
  | j :: js' =>
      bury err js' (if retried j then dead
                    else trim_dead (default 0%Z (dead_job_limit st)) (payload_text (with_error err j.1) :: dead))
  end.

Section Batch.
Variables (err : string) (delay : JobEnvelope -> JobExecutionPolicy -> Z) (now : Z).

(** How one job ends. *)
Definition ends_as (p p' : gmap string string) (r' : gmap string Z) (j : JobEnvelope * JobExecutionPolicy) : Prop :=
  if retried j then
    r' !! id j.1 = Some (retry_score now (delay j.1 j.2)) /\
    exists e', stored_as p j.1 e' /\ p' !! id j.1 = Some (payload_text (with_retries_incremented err e'))
  else p' !! id j.1 = None.

Definition untouched {K A} `{Countable K} (ids : list K) (m m' : gmap K A) : Prop :=
  forall i, i ∉ ids -> m' !! i = m !! i.

Lemma handle_err_settles e p d (js : job_store st (view d)) :
  (exists e', stored_as (payloads js) e e') ->
  yields (handle_err st err e (delay e p) (max_retries p) now) d (Ok tt) (fun ks' =>
    exists js' : job_store st ks',
      ends_as (payloads js) (payloads js') (retrying js') (e, p) /\
      untouched [id e] (payloads js) (payloads js') /\ untouched [id e] (retrying js) (retrying js') /\
      claims js' = lrem 1 (id e) (claims js) /\ dead_letters js' = bury err [(e, p)] (dead_letters js)).
Proof.
  intros (e' & text & Htext & Hparse & Hid). unfold handle_err, ends_as, bury, retried. cbn [fst snd].
  destruct (retries (meta e) <? max_retries p)%Z.
  - destruct (retry_in_stored st (id e) (delay e p) err now d js e' text Htext Hparse)
      as (d' & Hrun & js' & Hun & Hp & Hr & Hc). exists d'. split; [done|]. exists js'. rewrite Hid in *.
    split; [|split_and!; [| |done|]].
    + split; [rewrite Hr; by simplify_map_eq|]. exists e'. split; [by exists text|]. rewrite Hp. by simplify_map_eq.
    + intros i Hi. rewrite Hp, lookup_insert_ne; [done|set_solver].
    + intros i Hi. rewrite Hr, lookup_insert_ne; [done|set_solver].
    + destruct Hun as (_ & _ & _ & _ & Hd & _). apply Hd. key_notin.
  - destruct (kill_effect st e err d js) as (d' & Hrun & js' & Hun & Hp & Hc & Hd).
    exists d'. split; [done|]. exists js'. split_and!; [| | |done|done].
    + rewrite Hp. by simplify_map_eq.
    + intros i Hi. rewrite Hp, lookup_delete_ne; [done|set_solver].
    + destruct Hun as (_ & _ & _ & Hr & _). rewrite Hr; [done|key_notin].
Qed.

(** C6. A batch that failed or panicked, whose jobs are stored: every claim of the
    batch is released, every job with retries left is in the retry set with its
    count raised, every other one is dead, and no other job is touched. *)
Theorem failed_batch_settled js d (store : job_store st (view d)) :
  NoDup (id ∘ fst <$> js) ->
  Forall (fun j => exists e', stored_as (payloads store) j.1 e') js ->
  yields (handle_errs st err delay now js) d [] (fun ks' =>
    exists store' : job_store st ks',
      Forall (ends_as (payloads store) (payloads store') (retrying store')) js /\
      untouched (id ∘ fst <$> js) (payloads store) (payloads store') /\
      untouched (id ∘ fst <$> js) (retrying store) (retrying store') /\
      (forall i, occurrences i (claims store') = (occurrences i (claims store) - occurrences i (id ∘ fst <$> js))%nat) /\
      dead_letters store' = bury err js (dead_letters store)).
Proof.
  revert d store. induction js as [|[e p] js IH]; intros d store Hnd Hst; cbn [handle_errs].
  { apply yields_ret. exists store. split_and!; try done. intros i. cbn. lia. }
  cbn [fmap list_fmap compose fst] in *. apply NoDup_cons in Hnd as [Hn Hnd]. apply Forall_cons in Hst as [He Hst].
  eapply yields_bind; [by apply handle_err_settles|].
  intros d1 (store1 & Hend & Hp1 & Hr1 & Hc1 & Hd1).
  assert (forall j, j ∈ js -> payloads store1 !! id j.1 = payloads store !! id j.1) as Hsame.
  { intros j Hj. apply Hp1. intros E%list_elem_of_singleton. apply Hn. rewrite <- E.
    apply list_elem_of_fmap. by exists j. }
  destruct (IH d1 store1 Hnd) as (d2 & Hrun & store2 & Hends & Hp2 & Hr2 & Hc2 & Hd2).
  { apply Forall_forall. intros j Hj. rewrite Forall_forall in Hst. destruct (Hst j Hj) as (e' & text & ? & ?).
    exists e', text. by rewrite Hsame. }
  exists d2. split; [done|]. exists store2. split_and!.
  - constructor.
    + revert Hend. unfold ends_as. cbn [fst snd]. destruct (retried (e, p)).
      * intros (Hr & e' & ? & Hp). rewrite (Hr2 (id e)), (Hp2 (id e)) by done. eauto.
      * by rewrite (Hp2 (id e)) by done.
    + apply Forall_forall. intros j Hj. rewrite Forall_forall in Hends. specialize (Hends j Hj). revert Hends.
      unfold ends_as. destruct (retried j); [|done]. intros (? & e' & (text & Ht & ?) & ?). split; [done|].
      exists e'. split; [|done]. exists text. by rewrite <- Hsame.
  - intros i Hi. rewrite Hp2, Hp1; set_solver.
  - intros i Hi. rewrite Hr2, Hr1; set_solver.
  - intros i. rewrite Hc2, Hc1, occurrences_lrem1, occurrences_cons. lia.
  - rewrite Hd2, Hd1. done.
Qed.
End Batch.
End Settled.
