(* ===== verification/Registry.v ===== *)
(** * Worker registrations and configuration ([worker_registry.rs], [config.rs])

    A registration's factories are user code: they are fields. cron's schedule
    parser is a parameter ([parse_schedule]). Panics are [None]. *)
From S2P Require Import Prelude Errors Envelope Queue Executor.
Open Scope Z_scope.

(** ** Factories *)

(** [serde_json::from_value::<A>] and [W::from_context] of a registered pair:
    decoding one value, and the [Processable] of some decoded jobs. *)
Record JobType := {
  jt_decode : Value -> result string Job;
  jt_bind : Job -> Processable;
  jt_bind_batch : list Job -> Processable;
}.

Record InvalidBatchJob := { inv_index : nat; inv_error : string }.
Record BatchBuild := { bb_job : option Processable; bb_invalid : list InvalidBatchJob }.

Definition job_factory (t : JobType) (value : Value) : result OxanaError Processable :=
  res_map (jt_bind t) (map_err JsonError (jt_decode t value)).

(** The decoded jobs and the invalid ones with their indices. *)
Fixpoint decode_batch (t : JobType) (index : nat) (values : list Value) : list Job * list InvalidBatchJob :=
  match values with
  | [] => ([], [])
  | v :: values' =>
      let '(js, invalid) := decode_batch t (S index) values' in
      match jt_decode t v with
      | Ok j => (j :: js, invalid)
      | Err e => (js, {| inv_index := index; inv_error := e |} :: invalid)
      end
  end.

Definition job_batch_factory (t : JobType) (values : list Value) : result OxanaError BatchBuild :=
  let '(js, invalid) := decode_batch t 0 values in
  match js with
  | [] => Ok {| bb_job := None; bb_invalid := invalid |}
  | _ => Ok {| bb_job := Some (jt_bind_batch t js); bb_invalid := invalid |}
  end.

Definition job_envelope_factory (t : JobType) (q : string) (value : Value) (uuid : string) (now_c now_s : Z)
    : result OxanaError JobEnvelope :=
  res_bind (map_err JsonError (jt_decode t value)) (fun j => new_envelope q j uuid now_c now_s).

Definition cron_envelope_factory (t : JobType) (type_name q occurrence_id : string) (scheduled_at : Z)
    (resurrect_flag : bool) (now : Z) : result OxanaError (JobEnvelope * bool) :=
  res_bind (map_err (fun e => JobFactoryError ("Failed to build job " +:+ type_name +:+ ": " +:+ e))
              (jt_decode t (VObject []))) (fun j =>
  new_cron q occurrence_id j scheduled_at resurrect_flag now).

(** ** The registry *)

Record WorkerFactories := {
  wf_factory : Value -> result OxanaError Processable;
  wf_batch_factory : list Value -> result OxanaError BatchBuild;
  wf_batch_config : option WorkerBatchConfig;
  wf_cron : option (string -> string -> Z -> bool -> Z -> result OxanaError (JobEnvelope * bool));
}.

Section Registry.
Context {Schedule : Type} (parse_schedule : string -> option Schedule).

Record CronJob := { cj_schedule : Schedule; cj_queue_key : string; cj_resurrect : bool }.

Inductive WorkerConfigKind :=
| Normal
| Cron (schedule queue_key : string) (resurrect : bool).

Record OnDemandJobRegistration := {
  od_args_template : Value;
  od_factory : string -> Value -> string -> Z -> Z -> result OxanaError JobEnvelope;
}.

Record WorkerConfig := {
  wc_name : string;
  wc_legacy_names : list string;
  wc_factories : WorkerFactories;
  wc_on_demand : option OnDemandJobRegistration;
  wc_kind : WorkerConfigKind;
}.

Record WorkerRegistry := {
  wr_jobs : gmap string WorkerFactories;
  wr_aliases : gmap string string;
  wr_schedules : gmap string CronJob;
  wr_on_demand : gmap string OnDemandJobRegistration;
}.

Definition empty_registry : WorkerRegistry :=
  {| wr_jobs := ∅; wr_aliases := ∅; wr_schedules := ∅; wr_on_demand := ∅ |}.

Definition with_aliases (r : WorkerRegistry) (a : gmap string string) : WorkerRegistry :=
  {| wr_jobs := wr_jobs r; wr_aliases := a; wr_schedules := wr_schedules r; wr_on_demand := wr_on_demand r |}.

Definition register_legacy_name (canonical : string) (r : WorkerRegistry) (legacy : string) : WorkerRegistry :=
  if decide (legacy = canonical) then r
  else if decide (is_Some (wr_jobs r !! legacy)) then r
  else match wr_aliases r !! legacy with
       | Some _ => r
       | None => with_aliases r (<[legacy := canonical]> (wr_aliases r))
       end.

Definition register_worker_with (c : WorkerConfig) (r : WorkerRegistry) : option WorkerRegistry :=
  let name := wc_name c in
  let manual_cron := match wf_cron (wc_factories c), wc_kind c with None, Cron _ _ _ => true | _, _ => false end in
  if manual_cron then None
  else
    let aliases := delete name (wr_aliases r) in
    let on_demand := match wc_on_demand c with
                     | Some o => <[name := o]> (wr_on_demand r)
                     | None => delete name (wr_on_demand r)
                     end in
    let jobs := <[name := wc_factories c]> (wr_jobs r) in
    schedules ← match wc_kind c with
                | Normal => Some (delete name (wr_schedules r))
                | Cron schedule q res =>
                    s ← parse_schedule schedule;
                    Some (<[name := {| cj_schedule := s; cj_queue_key := q; cj_resurrect := res |}]> (wr_schedules r))
                end;
    Some (foldl (register_legacy_name name)
            {| wr_jobs := jobs; wr_aliases := aliases; wr_schedules := schedules; wr_on_demand := on_demand |}
            (wc_legacy_names c)).

Definition resolve_name (r : WorkerRegistry) (name : string) : string :=
  if decide (is_Some (wr_jobs r !! name)) then name else default name (wr_aliases r !! name).

Definition factories_for (r : WorkerRegistry) (name : string) : option WorkerFactories :=
  wr_jobs r !! resolve_name r name.

Definition worker_names (r : WorkerRegistry) : list string := (map_to_list (wr_jobs r)).*1.

Definition batch_config (r : WorkerRegistry) (name : string) : option WorkerBatchConfig :=
  factories_for r name ≫= wf_batch_config.

Definition not_registered (name : string) : OxanaError :=
  GenericError ("Job type " +:+ name +:+ " not registered").

(** [describe] is the Display text of an error. *)
Definition build (describe : OxanaError -> string) (r : WorkerRegistry) (name : string) (json : Value)
    : result OxanaError Processable :=
  match factories_for r name with
  | None => Err (not_registered name)
  | Some f => map_err (fun e => JobFactoryError ("Failed to build job " +:+ name +:+ ": " +:+ describe e))
                (wf_factory f json)
  end.

Definition build_batch (describe : OxanaError -> string) (r : WorkerRegistry) (name : string) (json : list Value)
    : result OxanaError BatchBuild :=
  match factories_for r name with
  | None => Err (not_registered name)
  | Some f => map_err (fun e => JobFactoryError ("Failed to build job batch " +:+ name +:+ ": " +:+ describe e))
                (wf_batch_factory f json)
  end.

(** [cron_envelope]; [None] is the panic of a worker without a typed factory. *)
Definition cron_envelope (r : WorkerRegistry) (name : string) (scheduled_at now : Z)
    : option (result OxanaError (JobEnvelope * bool)) :=
  match wr_schedules r !! name with
  | None => Some (Err (GenericError ("Cron job type " +:+ name +:+ " not registered")))
  | Some cj =>
      f ← factories_for r name;
      cron ← wf_cron f;
      Some (cron (cj_queue_key cj) (name +:+ "-" +:+ z_to_string scheduled_at) scheduled_at (cj_resurrect cj) now)
  end.

(** ** [Config] and [RuntimeSettings]

    Sets of queue configurations compare by kind: association lists in which
    [queue_config_eq] decides membership. *)
Definition queue_set_mem (c : QueueConfig) (s : list QueueConfig) : bool := existsb (queue_config_eq c) s.

(** [HashSet::insert] keeps an equal element; [replace] puts the new one. *)
Definition queue_set_insert (c : QueueConfig) (s : list QueueConfig) : list QueueConfig :=
  if queue_set_mem c s then s else s ++ [c].
Definition queue_set_replace (c : QueueConfig) (s : list QueueConfig) : list QueueConfig :=
  filter (fun c' => queue_config_eq c c' = false) s ++ [c].

Record Config := { cfg_registry : WorkerRegistry; cfg_queues : list QueueConfig }.

Definition register_queue_with (c : QueueConfig) (cfg : Config) : Config :=
  {| cfg_registry := cfg_registry cfg; cfg_queues := queue_set_replace c (cfg_queues cfg) |}.

Definition register_default_queue (c : QueueConfig) (cfg : Config) : Config :=
  {| cfg_registry := cfg_registry cfg; cfg_queues := queue_set_insert c (cfg_queues cfg) |}.

(** [runs_queue], [runs_static_queue]. *)
Definition runs_queue (allow deny : list QueueConfig) (q : QueueConfig) : bool :=
  (bool_decide (allow = []) || queue_set_mem q allow) && negb (queue_set_mem q deny).

Definition has_static_key (key : string) (q : QueueConfig) : bool := bool_decide (static_key q = Some key).
Definition runs_static_queue (allow deny : list QueueConfig) (key : string) : bool :=
  (bool_decide (allow = []) || existsb (has_static_key key) allow) && negb (existsb (has_static_key key) deny).

(** [Worker::to_config]: a cron worker needs a queue, and a static one. *)
Definition worker_to_config (cron_schedule : option string) (cron_queue : option QueueConfig) (resurrect_flag : bool)
    : option WorkerConfigKind :=
  match cron_schedule with
  | None => Some Normal
  | Some schedule =>
      q ← cron_queue; key ← static_key q; Some (Cron schedule key resurrect_flag)
  end.

(** [Config::register_worker]: a typed registration under the job's name, with
    the worker's type name as its legacy name. *)
Definition register_worker (job_type worker_type : string) (t : JobType) (batch : option WorkerBatchConfig)
    (cron_schedule : option string) (cron_queue : option QueueConfig) (resurrect_flag : bool)
    (template : option Value) (cfg : Config) : option Config :=
  kind ← worker_to_config cron_schedule cron_queue resurrect_flag;
  let cron_args_ok := match kind with
                      | Cron _ _ _ => is_ok (jt_decode t (VObject []))
                      | Normal => true
                      end in
  if negb cron_args_ok then None
  else
    let cfg := match kind, cron_queue with
               | Cron _ _ _, Some q => register_default_queue q cfg
               | _, _ => cfg
               end in
    registry ← register_worker_with
      {| wc_name := job_type; wc_legacy_names := [worker_type];
         wc_factories := {| wf_factory := job_factory t; wf_batch_factory := job_batch_factory t;
                            wf_batch_config := batch; wf_cron := Some (cron_envelope_factory t job_type) |};
         wc_on_demand := (fun v => {| od_args_template := v; od_factory := job_envelope_factory t |}) <$> template;
         wc_kind := kind |} (cfg_registry cfg);
    Some {| cfg_registry := registry; cfg_queues := cfg_queues cfg |}.

(** ** The catalog *)

Record QueueInfo := {
  qi_key : string; qi_dynamic : bool; qi_concurrency : nat; qi_dynamic_concurrency : bool;
  qi_throttle : option QueueThrottle;
}.
Definition queue_info (q : QueueConfig) : QueueInfo :=
  {| qi_key := key_or_prefix q; qi_dynamic := is_dynamic_kind (kind q);
     qi_concurrency := default_concurrency (concurrency q); qi_dynamic_concurrency := is_dynamic (concurrency q);
     qi_throttle := throttle q |}.

#[local] Instance string_le_dec : RelDecision (fun a b => String.leb a b = true).
Proof. intros a b. apply _. Defined.
Definition info_le (a b : QueueInfo) : Prop := String.leb (qi_key a) (qi_key b) = true.
#[local] Instance info_le_dec : RelDecision info_le.
Proof. intros a b. unfold info_le. apply _. Defined.

(** [CronWorkerInfo], [OnDemandJobInfo]. *)
Record CronWorkerInfo := { cw_name : string; cw_schedule : Schedule; cw_queue_key : string; cw_resurrect : bool }.
Record OnDemandJobInfo := { odi_name : string; odi_registration : OnDemandJobRegistration }.

(** [OnDemandJobInfo::enqueue_envelope]; a UUID and two clock readings. *)
Definition enqueue_envelope_of (j : OnDemandJobInfo) (q : string) (v : Value) (uuid : string) (now_c now_s : Z)
    : result OxanaError JobEnvelope :=
  res_map (map_meta (set_on_demand (Some true))) (od_factory (odi_registration j) q v uuid now_c now_s).

Record Catalog := {
  cat_workers : list string;
  cat_cron_workers : list CronWorkerInfo;
  cat_queues : list QueueInfo;
  cat_on_demand : list OnDemandJobInfo;
}.

Definition cron_le (a b : CronWorkerInfo) : Prop := String.leb (cw_name a) (cw_name b) = true.
#[local] Instance cron_le_dec : RelDecision cron_le.
Proof. intros a b. unfold cron_le. apply _. Defined.
Definition on_demand_le (a b : OnDemandJobInfo) : Prop := String.leb (odi_name a) (odi_name b) = true.
#[local] Instance on_demand_le_dec : RelDecision on_demand_le.
Proof. intros a b. unfold on_demand_le. apply _. Defined.

Definition cron_info (p : string * CronJob) : CronWorkerInfo :=
  {| cw_name := p.1; cw_schedule := cj_schedule p.2; cw_queue_key := cj_queue_key p.2;
     cw_resurrect := cj_resurrect p.2 |}.
Definition on_demand_info (p : string * OnDemandJobRegistration) : OnDemandJobInfo :=
  {| odi_name := p.1; odi_registration := p.2 |}.

Definition catalog_with_queues (cfg : Config) (extra : list QueueConfig) : Catalog :=
  let r := cfg_registry cfg in
  {| cat_workers := merge_sort (fun a b => String.leb a b = true)
       (filter (fun n => wr_schedules r !! n = None) (worker_names r));
     cat_cron_workers := merge_sort cron_le (cron_info <$> map_to_list (wr_schedules r));
     cat_queues := merge_sort info_le
       (queue_info <$> cfg_queues cfg ++ filter (fun q => queue_set_mem q (cfg_queues cfg) = false) extra);
     cat_on_demand := merge_sort on_demand_le (on_demand_info <$> map_to_list (wr_on_demand r)) |}.

(** ** Facts *)

(** Aliases never shadow a registered name and always lead to one, and cron
    schedules belong to registered jobs. *)
Record registry_wf (r : WorkerRegistry) : Prop := {
  aliases_fresh : forall n, is_Some (wr_aliases r !! n) -> wr_jobs r !! n = None;
  aliases_target : forall n t, wr_aliases r !! n = Some t -> is_Some (wr_jobs r !! t);
  schedules_registered : forall n, is_Some (wr_schedules r !! n) -> is_Some (wr_jobs r !! n);
  on_demand_registered : forall n, is_Some (wr_on_demand r !! n) -> is_Some (wr_jobs r !! n);
}.

Lemma registry_wf_empty : registry_wf empty_registry.
Proof. constructor; cbn; intros; rewrite ?lookup_empty in *; (by destruct H) || done. Qed.

Lemma register_legacy_wf canonical r legacy :
  registry_wf r -> is_Some (wr_jobs r !! canonical) ->
  registry_wf (register_legacy_name canonical r legacy) /\
  wr_jobs (register_legacy_name canonical r legacy) = wr_jobs r.
Proof.
  intros [H1 H2 H3 H4] Hc. unfold register_legacy_name.
  case_decide; [done|]. case_decide as Hl; [done|]. destruct (wr_aliases r !! legacy) eqn:E; [done|].
  split; [|done]. constructor; cbn; [| |done|done].
  - intros n [x Hx]. apply lookup_insert_Some in Hx as [[<- <-]|[Hne Hx]]; [|eauto].
    by apply eq_None_not_Some.
  - intros n t Ht. apply lookup_insert_Some in Ht as [[<- <-]|[Hne Ht]]; eauto.
Qed.

Lemma register_legacies_wf canonical ls r :
  registry_wf r -> is_Some (wr_jobs r !! canonical) ->
  registry_wf (foldl (register_legacy_name canonical) r ls) /\
  wr_jobs (foldl (register_legacy_name canonical) r ls) = wr_jobs r.
Proof.
  revert r. induction ls as [|l ls IH]; intros r Hr Hc; [done|]. cbn.
  destruct (register_legacy_wf canonical r l Hr Hc) as [Hr' Hj].
  destruct (IH _ Hr') as [? ->]; [by rewrite Hj|]. done.
Qed.

(** Registering a worker keeps the registry consistent: a name that is both an
    alias and a job resolves to the job, and aliases never dangle. *)
Theorem register_worker_with_wf c r r' :
  registry_wf r -> register_worker_with c r = Some r' ->
  registry_wf r' /\ factories_for r' (wc_name c) = Some (wc_factories c).
Proof.
  intros [H1 H2 H3 H4]. unfold register_worker_with.
  destruct (match wf_cron (wc_factories c) with Some _ => _ | None => _ end); [done|].
  intros Hr. apply bind_Some in Hr as (schedules & Hs & [= <-]).
  set (r1 := {| wr_jobs := _ |}).
  assert (registry_wf r1) as Hr1.
  { constructor; unfold r1; cbn [wr_jobs wr_aliases wr_schedules wr_on_demand].
    - intros n [t Ht]. apply lookup_delete_Some in Ht as [Hne Ht]. rewrite lookup_insert_ne by done. eauto.
    - intros n t Ht. apply lookup_delete_Some in Ht as [Hne Ht].
      destruct (decide (wc_name c = t)) as [->|Hn]; [rewrite lookup_insert_eq|rewrite lookup_insert_ne by done]; eauto.
    - intros n [s Hn]. destruct (decide (wc_name c = n)) as [->|Hne];
        [rewrite lookup_insert_eq|rewrite lookup_insert_ne by done]; [eauto|]. apply H3.
      destruct (wc_kind c).
      + injection Hs as <-. rewrite lookup_delete_ne in Hn by done. eauto.
      + apply bind_Some in Hs as (x & _ & [= <-]). rewrite lookup_insert_ne in Hn by done. eauto.
    - intros n [o Hn]. destruct (decide (wc_name c = n)) as [->|Hne];
        [rewrite lookup_insert_eq|rewrite lookup_insert_ne by done]; [eauto|]. apply H4.
      destruct (wc_on_demand c); [rewrite lookup_insert_ne in Hn by done | rewrite lookup_delete_ne in Hn by done]; eauto. }
  assert (wr_jobs r1 !! wc_name c = Some (wc_factories c)) as Hj by (unfold r1; cbn; apply lookup_insert_eq).
  destruct (register_legacies_wf (wc_name c) (wc_legacy_names c) r1 Hr1) as [Hwf Hjobs]; [by rewrite Hj|].
  split; [done|]. unfold factories_for, resolve_name. rewrite Hjobs. by rewrite decide_True by (rewrite Hj; eauto).
Qed.

(** A queue runs when it is allowed (or nothing is) and not denied. *)
Lemma runs_queue_spec allow deny q :
  runs_queue allow deny q = true <->
  (allow = [] \/ queue_set_mem q allow = true) /\ queue_set_mem q deny = false.
Proof.
  unfold runs_queue. rewrite andb_true_iff, orb_true_iff, bool_decide_eq_true, negb_true_iff. done.
Qed.

(** Batches: the jobs and the invalid entries account for every value. *)
Theorem decode_batch_partition t index values :
  let '(js, invalid) := decode_batch t index values in
  (length js + length invalid = length values)%nat /\
  Forall (fun i => index <= inv_index i < index + length values)%nat invalid /\
  NoDup (inv_index <$> invalid).
Proof.
  revert index. induction values as [|v values IH]; intros index; cbn [decode_batch].
  { split_and!; constructor. }
  specialize (IH (S index)). destruct (decode_batch t (S index) values) as [js invalid].
  destruct IH as (Hl & Hb & Hn).
  destruct (jt_decode t v); cbn [length fmap list_fmap] in *; split_and!; try lia; try done.
  - eapply Forall_impl; [exact Hb|]. intros; cbn in *; lia.
  - constructor; [cbn; lia|]. eapply Forall_impl; [exact Hb|]. intros; cbn in *; lia.
  - constructor; [|done]. cbn. intros (i & Hi & Hin)%list_elem_of_fmap.
    rewrite Forall_forall in Hb. specialize (Hb i Hin). cbn in Hb. lia.
Qed.
End Registry.
