(* ===== verification/Dispatcher.v ===== *)
(** * Dispatching and draining ([dispatcher.rs], [drainer.rs],
    [load_pending_job] and [process_pending_job] of [coordinator.rs])

    Sleeping, channels and task spawning are outside; what a dispatcher pass
    decides and what it does to Redis is the model. *)
From S2P Require Import Prelude Errors Redis Envelope Queue Keys Scripts Storage Metrics Resilience Permits Throttle Executor Registry Recovery.
Open Scope Z_scope.

(** Errors of a pop, before and after a claim may exist. *)
Inductive PopError :=
| BeforeClaim (e : OxanaError)
| ClaimError (e : OxanaError).

(** A program that fails with its own error type. *)
Definition map_fail {A E} (f : OxanaError -> E) (p : rprog A) : prog (result E A) :=
  pbind p (fun r => Ret (map_err f r)).
Definition try_with {A B E} (p : prog (result E A)) (k : A -> prog (result E B)) : prog (result E B) :=
  pbind p (fun r => match r with Ok a => k a | Err e => Ret (Err e) end).

Section Dispatch.
Context `{S : Serde}.
Variable st : StorageInternal.
Open Scope prog_scope.

Definition claim_job (q : string) : prog (result PopError (option JobId)) :=
  try_with (map_fail BeforeClaim connection) (fun _ => map_fail ClaimError (dequeue_w_conn st q)).

(** The answer of a pop and how long the dispatcher sleeps before it. *)
Abbreviation popped := (option JobId * Duration)%type.

Definition pop_queue_message_wo_throttle (q : string) (timeout : Duration) : prog (result PopError popped) :=
  try_with (claim_job q) (fun found =>
  Ret (Ok (found, match found with Some _ => 0 | None => timeout end))).

(** What the throttled pop reads from the world: clock readings, fresh members
    for the consumption, and the retries of the payload read. *)
Record pop_world := {
  now_state : Z; now_members : Z; now_consume : Z; fresh : list string; read_attempts : list bool;
}.

Definition pop_queue_message_w_throttle (q : string) (t : QueueThrottle) (fallback_wait : Duration) (w : pop_world)
    : prog (result PopError popped) :=
  let th := new_throttler q (limit t) (window_ms t) in
  try_with (map_fail BeforeClaim (throttler_state th (now_state w))) (fun state =>
  let wait := match throttled_for state with
              | Some millis => match u64_try_from millis with
                               | Some millis => from_millis millis
                               | None => fallback_wait
                               end
              | None => fallback_wait
              end in
  if is_allowed state then
    try_with (claim_job q) (fun found =>
    match found with
    | Some jid =>
        try_with (map_fail ClaimError (get_claimed_job st jid (read_attempts w))) (fun envelope =>
        let cost := envelope ≫= (fun e => throttle_cost (meta e)) in
        try_with (map_fail ClaimError (consume th cost (fresh w) (now_members w) (now_consume w))) (fun _ =>
        Ret (Ok (Some jid, 0))))
    | None => Ret (Ok (None, wait))
    end)
  else Ret (Ok (None, wait))).

Definition pop_queue_message (c : QueueConfig) (q : string) (dequeue_timeout fallback_wait : Duration) (w : pop_world)
    : prog (result PopError popped) :=
  match throttle c with
  | Some t => pop_queue_message_w_throttle q t fallback_wait w
  | None => pop_queue_message_wo_throttle q dequeue_timeout
  end.

(** ** One pass of the dispatcher's loop, once it has a permit *)

Inductive pass :=
| Dispatched (jid : JobId)    (* the job goes on with the permit *)
| Idle                        (* the permit is dropped *)
| Backoff                     (* a tolerated failure: the permit is dropped, then a sleep *)
| Stop (e : OxanaError).      (* the dispatcher returns the error *)

Definition dispatcher_pass (tolerance failures : Z) (r : result PopError popped) : pass * Z :=
  match r with
  | Err (ClaimError e) => (Stop e, failures)
  | Err (BeforeClaim e) =>
      match track_redis_result (@Err OxanaError popped e) tolerance failures with
      | (Err e, failures') => (Stop e, failures')
      | (Ok _, failures') => (Backoff, failures')
      end
  | Ok (found, _) =>
      (match found with Some jid => Dispatched jid | None => Idle end, record_redis_success failures)
  end.

(** Whether the pass keeps its permit for a job. *)
Definition keeps_permit (p : pass) : bool := match p with Dispatched _ => true | _ => false end.

(** ** [load_pending_job] *)

(** [cancelled]: the token wins the biased select. *)
Definition load_pending_job (jid : JobId) (cancelled : bool) (attempts : list bool) : rprog (option JobEnvelope) :=
  if cancelled then lift (Ok None)
  else
    r <- get_claimed_job st jid attempts ;;
    match r with
    | Ok (Some e) => lift (Ok (Some e))
    | Ok None => _ <-? delete_job st jid ;; lift (Ok None)
    | Err e => lift (Err e)
    end.

(** [process_pending_job]: a job that cannot be built is killed. [describe] is
    the text of the error. The answer carries the errors passed to [fail]. *)
Definition process_pending_job (describe : OxanaError -> string) (built : result OxanaError Processable)
    (e : JobEnvelope) (duration_ms now_start now_finish : Z)
    : rprog (option (ExecutionOutcome * list OxanaError)) :=
  match built with
  | Err error =>
      _ <-? kill st e ("Invalid job: " +:+ name (job e) +:+ " - " +:+ describe error) ;;
      lift (Ok None)
  | Ok w =>
      outcome <-? Executor.run st w e duration_ms now_start now_finish ;;
      lift (Ok (Some outcome))
  end.

(** ** Draining *)

Record DrainStats := { dr_processed : Z; dr_succeeded : Z; dr_failed : Z; dr_missing : Z }.
Definition empty_drain : DrainStats := Build_DrainStats 0 0 0 0.

Inductive ProcessJobResult := JobSuccess | JobFailed | JobMissing.

Definition count_drained (r : ProcessJobResult) (s : DrainStats) : DrainStats :=
  let '(Build_DrainStats p su f m) := s in
  match r with
  | JobSuccess => Build_DrainStats (u64_wrap (p + 1)) (u64_wrap (su + 1)) f m
  | JobFailed => Build_DrainStats (u64_wrap (p + 1)) su (u64_wrap (f + 1)) m
  | JobMissing => Build_DrainStats (u64_wrap (p + 1)) su f (u64_wrap (m + 1))
  end.

(** [process_job]; a worker panic unwinds through the drain and is not an
    [ExecutionResult] here: it is the third case of the answer. *)
Definition process_job (build_job : JobEnvelope -> result OxanaError Processable) (jid : JobId)
    : rprog (ProcessJobResult + string) :=
  found <-? get_job st jid ;;
  match found with
  | None => lift (Ok (inl JobMissing))
  | Some e =>
      w <-? lift (build_job e) ;;
      e' <-? (if p_should_resume w then lift (Ok e)
              else
                let e' := map_meta (set_state None) e in
                _ <-? update_job st e' ;; lift (Ok e')) ;;
      match p_process w with
      | ExecSuccess => _ <-? finish_with_success st e' ;; lift (Ok (inl JobSuccess))
      | ExecFailed err_msg _ => _ <-? kill st e' err_msg ;; lift (Ok (inl JobFailed))
      | ExecPanicked message => lift (Ok (inr message))
      end
  end.

(** [drain_queue]; [fuel] bounds the jobs drained. *)
Fixpoint drain_queue (fuel : nat) (build_job : JobEnvelope -> result OxanaError Processable) (q : string)
    (stats : DrainStats) : rprog (DrainStats + string) :=
  match fuel with
  | O => lift (Err StillRunning)
  | Datatypes.S fuel' =>
      claimed <-? dequeue st q ;;
      match claimed with
      | None => lift (Ok (inl stats))
      | Some jid =>
          r <-? process_job build_job jid ;;
          match r with
          | inl r => drain_queue fuel' build_job q (count_drained r stats)
          | inr panic => lift (Ok (inr panic))
          end
      end
  end.

(** [drain]: registered before the first claim, unregistered after the last
    job, whatever the outcome of the jobs. *)
Definition drain `{P : ProcessSerde} (fuel : nat) (build_job : JobEnvelope -> result OxanaError Processable)
    (q : string) (now_ms now : Z) : rprog (DrainStats + string) :=
  _ <-? ping st now_ms now ;;
  stats <- drain_queue fuel build_job q empty_drain ;;
  match stats with
  | Ok (inr panic) => lift (Ok (inr panic))
  | _ => _ <-? self_cleanup st ;; lift stats
  end.
End Dispatch.

(** ** Facts *)

(** A pass that ends the dispatcher with the process still heartbeating never
    hides a claim: every error after the claim may exist stops it, whatever the
    tolerance, and only errors from before the claim are tolerated. *)
Theorem claim_errors_are_never_tolerated tolerance failures r :
  (forall e, r = Err (ClaimError e) -> dispatcher_pass tolerance failures r = (Stop e, failures)) /\
  (forall failures', dispatcher_pass tolerance failures r = (Backoff, failures') ->
     exists e, r = Err (BeforeClaim e)).
Proof.
  split; [by intros e ->|]. intros failures'. destruct r as [[[jid|] d]|[e|e]]; cbn; try done.
  intros _. eauto.
Qed.

(** The permit of a pass goes with a dispatched job and with nothing else. *)
Lemma dispatcher_permit tolerance failures r :
  keeps_permit (fst (dispatcher_pass tolerance failures r)) = true <->
  exists jid d, r = Ok (Some jid, d).
Proof.
  destruct r as [[[jid|] d]|[e|e]]; cbn; try (split; [done|]; by intros (? & ? & ?)).
  - split; eauto.
  - unfold record_redis_failure. destruct (tolerance <=? _); cbn; split; try done; by intros (? & ? & ?).
Qed.
