(* ===== verification/Coordinator.v ===== *)
(** * Batching, routing and queue discovery ([coordinator.rs])

    The batcher is a machine over what its [select!] receives; spawned batches
    are its output. Channels, tasks and the executor's threads are outside. *)
From S2P Require Import Prelude Errors Redis Envelope Queue Keys Scripts Storage Metrics Resilience Permits Executor Registry Dispatcher.
Open Scope nat_scope.

(** ** [run_batcher] *)

Section Batcher.
Context {Job : Type} (size : nat) (timeout_is_zero : bool).

(** What arrives: a job, the closing of the channel, the timer of the current
    batch, or the cancellation with the jobs the closed channel still holds. *)
Inductive batcher_event :=
| EvJob (j : Job)
| EvClosed
| EvTimeout
| EvCancelled (buffered : list Job).

Inductive batcher_state :=
| Running (pending : list Job)
| Finished.

(** [spawn_batch]: nothing is spawned for an empty batch. *)
Definition spawn_batch (pending : list Job) : list (list Job) :=
  match pending with [] => [] | _ => [pending] end.

(** [flush_batcher] on the jobs left in the channel. *)
Fixpoint flush_batcher (pending buffered : list Job) : list (list Job) :=
  match buffered with
  | [] => spawn_batch pending
  | j :: buffered' =>
      let pending' := pending ++ [j] in
      if decide (size <= length pending')
      then spawn_batch pending' ++ flush_batcher [] buffered'
      else flush_batcher pending' buffered'
  end.

(** One round; the timer only runs while a batch is open. *)
Definition batcher_step (s : batcher_state) (ev : batcher_event) : batcher_state * list (list Job) :=
  match s with
  | Finished => (Finished, [])
  | Running pending =>
      match ev with
      | EvJob j =>
          let pending' := pending ++ [j] in
          if decide (size <= length pending') then (Running [], spawn_batch pending')
          else match pending with
               | [] => if timeout_is_zero then (Running [], spawn_batch pending') else (Running pending', [])
               | _ => (Running pending', [])
               end
      | EvClosed => (Finished, spawn_batch pending)
      | EvTimeout =>
          match pending with [] => (Running [], []) | _ => (Running [], spawn_batch pending) end
      | EvCancelled buffered => (Finished, flush_batcher pending buffered)
      end
  end.

Fixpoint batcher_run (s : batcher_state) (evs : list batcher_event) : batcher_state * list (list Job) :=
  match evs with
  | [] => (s, [])
  | ev :: evs' =>
      let '(s', out) := batcher_step s ev in
      let '(s'', out') := batcher_run s' evs' in (s'', out ++ out')
  end.

(** The jobs a run receives before it finishes. *)
Fixpoint received (s : batcher_state) (evs : list batcher_event) : list Job :=
  match s, evs with
  | Running _, ev :: evs' =>
      match ev with EvJob j => [j] | EvCancelled buffered => buffered | _ => [] end
      ++ received (fst (batcher_step s ev)) evs'
  | _, _ => []
  end.

Definition pending_of (s : batcher_state) : list Job := match s with Running p => p | Finished => [] end.

Definition batch_ok (b : list Job) : Prop := 0 < length b <= size.

Lemma concat_spawn pending : concat (spawn_batch pending) = pending.
Proof. destruct pending; cbn; [done|]. by rewrite app_nil_r. Qed.

Lemma spawn_ok pending : length pending <= size -> Forall batch_ok (spawn_batch pending).
Proof. intros H. destruct pending; constructor; [|constructor]. split; cbn in *; lia. Qed.

Context (Hsize : 0 < size).

Lemma flush_spec pending buffered :
  length pending < size ->
  concat (flush_batcher pending buffered) = pending ++ buffered /\
  Forall batch_ok (flush_batcher pending buffered).
Proof.
  revert pending. induction buffered as [|j buffered IH]; intros pending Hp; cbn [flush_batcher].
  - rewrite concat_spawn, app_nil_r. split; [done|]. apply spawn_ok. lia.
  - assert (length (pending ++ [j]) = length pending + 1) as Hl by (rewrite length_app; cbn; lia).
    case_decide.
    + destruct (IH []) as [Hc Hf]; [cbn; lia|]. rewrite concat_app, concat_spawn, Hc. split.
      * by rewrite <- app_assoc.
      * apply Forall_app. split; [|done]. apply spawn_ok. lia.
    + destruct (IH (pending ++ [j])) as [Hc Hf]; [lia|]. rewrite Hc. split; [by rewrite <- app_assoc|done].
Qed.

Lemma batcher_step_spec s ev s' out :
  length (pending_of s) < size -> batcher_step s ev = (s', out) ->
  length (pending_of s') < size /\ Forall batch_ok out /\
  concat out ++ pending_of s' = pending_of s ++
    match s, ev with
    | Running _, EvJob j => [j]
    | Running _, EvCancelled buffered => buffered
    | _, _ => []
    end.
Proof.
  intros Hp. destruct s as [pending|]; cbn in *; [|intros [= <- <-]; by split_and!].
  assert (forall j, length (pending ++ [j]) = length pending + 1) as Hl by (intros; rewrite length_app; cbn; lia).
  destruct ev as [j| | |buffered].
  - case_decide as Hd.
    { intros [= <- <-]. rewrite concat_spawn, app_nil_r. cbn. split_and!; [lia| |done]. apply spawn_ok.
      rewrite Hl in *. lia. }
    specialize (Hl j). destruct pending; [destruct timeout_is_zero|]; intros [= <- <-]; cbn in *;
      split_and!; try done; try lia. constructor; [split; cbn; lia|constructor].
  - intros [= <- <-]. rewrite concat_spawn, !app_nil_r. cbn. split_and!; [lia| |done]. apply spawn_ok. lia.
  - destruct pending; intros [= <- <-]; cbn in *; split_and!; try done; try lia; [constructor; [split; cbn; lia|constructor]|].
    by rewrite !app_nil_r.
  - intros [= <- <-]. destruct (flush_spec pending buffered Hp) as [Hc Hf].
    rewrite Hc, app_nil_r. cbn. split_and!; [lia|done|done].
Qed.

(** C24. Every job the batcher receives is in exactly one batch, in order, or still
    pending; batches are never empty and never larger than the batch size; and
    a batcher that has finished leaves nothing pending. *)
Theorem batcher_conserves_jobs evs s s' out :
  length (pending_of s) < size -> batcher_run s evs = (s', out) ->
  concat out ++ pending_of s' = pending_of s ++ received s evs /\
  Forall batch_ok out /\ length (pending_of s') < size.
Proof.
  revert s s' out. induction evs as [|ev evs IH]; intros s s' out Hp; cbn [batcher_run].
  { intros [= <- <-]. cbn. split_and!; [|constructor|done]. destruct s; cbn; by rewrite ?app_nil_r. }
  destruct (batcher_step s ev) as [s1 out1] eqn:E1, (batcher_run s1 evs) as [s2 out2] eqn:E2.
  intros [= <- <-]. destruct (batcher_step_spec s ev s1 out1 Hp E1) as (Hp1 & Hf1 & Hc1).
  destruct (IH s1 s2 out2 Hp1 E2) as (Hc2 & Hf2 & Hp2).
  rewrite concat_app, <- app_assoc, Hc2, app_assoc, Hc1, <- app_assoc. split_and!; [|by apply Forall_app|done].
  f_equal. destruct s as [p|]; [cbn [received]; by rewrite E1|]. cbn in E1. injection E1 as <- <-. by destruct evs.
Qed.
End Batcher.
Arguments batcher_event : clear implicits.
Arguments batcher_state : clear implicits.

(** ** Invalid jobs of a batch *)

(** [invalid_jobs_by_index]: in range, the first error of an index. *)
Definition invalid_jobs_by_index (invalid : list InvalidBatchJob) (count : nat) : gmap nat string :=
  foldl (fun m i => if decide (inv_index i < count)
                    then match m !! inv_index i with
                         | Some _ => m
                         | None => <[inv_index i := inv_error i]> m
                         end
                    else m) ∅ invalid.

Section PendingBatch.
Context `{S : Serde}.
Variable st : StorageInternal.
Open Scope prog_scope.

(** Killing jobs one by one, stopping at the first storage error. *)
Fixpoint kill_all (err_msg : string) (es : list JobEnvelope) : rprog unit :=
  match es with
  | [] => lift (Ok tt)
  | e :: es' => _ <-? kill st e err_msg ;; kill_all err_msg es'
  end.

(** The jobs kept, in order, after the invalid ones are killed. *)
Fixpoint kill_invalid (worker_name : string) (invalid : gmap nat string) (index : nat) (es : list JobEnvelope)
    : rprog (list JobEnvelope) :=
  match es with
  | [] => lift (Ok [])
  | e :: es' =>
      match invalid !! index with
      | Some error =>
          _ <-? kill st e ("Invalid job: " +:+ worker_name +:+ " - " +:+ error) ;;
          kill_invalid worker_name invalid (Datatypes.S index) es'
      | None =>
          kept <-? kill_invalid worker_name invalid (Datatypes.S index) es' ;;
          lift (Ok (e :: kept))
      end
  end.

Fixpoint kept_jobs (invalid : gmap nat string) (index : nat) (es : list JobEnvelope) : list JobEnvelope :=
  match es with
  | [] => []
  | e :: es' =>
      match invalid !! index with
      | Some _ => kept_jobs invalid (Datatypes.S index) es'
      | None => e :: kept_jobs invalid (Datatypes.S index) es'
      end
  end.

(** [process_pending_batch]; [built] is what [build_batch] answers for the
    arguments of the jobs, and the answer is the executor's. *)
Definition process_pending_batch (describe : OxanaError -> string) (built : result OxanaError BatchBuild)
    (es : list JobEnvelope) (duration_ms now_start now_finish : Z)
    : rprog (option (ExecutionOutcome * list OxanaError)) :=
  match es with
  | [] => lift (Ok None)
  | first :: _ =>
      let worker_name := name (job first) in
      match built with
      | Err e =>
          _ <-? kill_all ("Invalid job batch: " +:+ worker_name +:+ " - " +:+ describe e) es ;;
          lift (Ok None)
      | Ok batch =>
          let invalid := invalid_jobs_by_index (bb_invalid batch) (length es) in
          valid <-? (if decide (invalid = ∅) then lift (Ok es)
                     else kill_invalid worker_name invalid 0 es) ;;
          match bb_job batch with
          | None => lift (Ok None)
          | Some w =>
              outcome <-? run_batch st w valid duration_ms now_start now_finish ;;
              lift (Ok (Some outcome))
          end
      end
  end.

(** [process_result]: one result for the whole batch. *)
Definition process_result (o : ExecutionOutcome) (es : list JobEnvelope) : option WorkerResult :=
  match es with
  | [] => None
  | e :: _ => Some {| wr_kind := out_kind o; wr_worker_name := name (job e); wr_queue := queue e;
                      wr_execution_ms := out_duration_ms o; wr_job_count := Z.of_nat (length es) |}
  end.

(** ** Queue discovery and configuration *)

(** The queues of one round of [run_queue_watcher]; a tolerated failure finds
    none. *)
Definition queue_pattern (prefix : string) : string := prefix +:+ "*".

Definition discovered (kind_ : QueueKind) (found : option (list string)) : gset string :=
  match kind_ with
  | Static key => {[ key ]}
  | Dynamic _ _ => list_to_set (default [] found)
  end.

Definition new_queues (all tracked : gset string) : gset string := all ∖ tracked.

Context `{C : ConfigSerde}.

(** [runtime_queue_config]: the queue's own configuration over its base's over
    the default. *)
Definition runtime_queue_config (queue_key base_queue_key : string) (default_config : QueueRuntimeConfig)
    : rprog QueueRuntimeConfig :=
  if decide (queue_key = base_queue_key) then queue_config_or_default st queue_key default_config
  else
    base <-? queue_config_or_default st base_queue_key default_config ;;
    queue_config_or_default st queue_key base.

(** A tick of [run_queue_config_watcher]: the control after it, and the error
    that ends the watcher. *)
Definition config_tick (qc : QueueConcurrency) (tolerance failures : Z)
    (r : result OxanaError QueueRuntimeConfig) (control : QueueControlState)
    : result OxanaError QueueControlState * Z :=
  match track_redis_result r tolerance failures with
  | (Ok (Some config), failures') => (Ok (apply_config (effective_runtime_config qc config) control), failures')
  | (Ok None, failures') => (Ok control, failures')
  | (Err e, failures') => (Err e, failures')
  end.
End PendingBatch.

(** ** Facts *)

(** The control a watcher applies always has a definite limit, the one its
    concurrency mode prescribes. *)
Lemma config_tick_limit qc tolerance failures config control control' failures' :
  config_tick qc tolerance failures (Ok config) control = (Ok control', failures') ->
  ctl_concurrency control' =
    match qc with FixedConcurrency n => n | DynamicConcurrency d => default d (rt_concurrency config) end.
Proof. cbn. intros [= <- _]. done. Qed.

Lemma invalid_by_index_lookup invalid count i :
  NoDup (inv_index <$> invalid) ->
  is_Some (invalid_jobs_by_index invalid count !! i) <-> i < count /\ i ∈ inv_index <$> invalid.
Proof.
  intros _. unfold invalid_jobs_by_index.
  assert (forall invalid (m : gmap nat string),
    is_Some (foldl (fun m i => if decide (inv_index i < count)
                    then match m !! inv_index i with
                         | Some _ => m
                         | None => <[inv_index i := inv_error i]> m
                         end
                    else m) m invalid !! i) <->
    is_Some (m !! i) \/ (i < count /\ i ∈ inv_index <$> invalid)) as H.
  { induction invalid0 as [|x l IH]; intros m; cbn [foldl fmap list_fmap].
    - split; [eauto|]. intros [?|[_ []%elem_of_nil]]; done.
    - rewrite IH, elem_of_cons. case_decide as Hc.
      + destruct (m !! inv_index x) eqn:E; [naive_solver|].
        destruct (decide (inv_index x = i)) as [<-|Hne].
        * rewrite lookup_insert_eq. naive_solver.
        * rewrite lookup_insert_ne by done. naive_solver.
      + naive_solver lia. }
  rewrite H, lookup_empty. split; [intros [[? ?]|?]; done|by right].
Qed.
