(* ===== verification/CoordinatorFacts.v ===== *)
(** * How a batch with invalid jobs is split

    The factory decodes the arguments of every job; the coordinator kills the
    jobs it reports as invalid and hands the others to the executor. *)
From S2P Require Import Prelude Errors Redis Envelope Queue Keys Scripts Storage Transitions Executor Registry Coordinator.
Open Scope nat_scope.

Section Decoding.
Variable t : JobType.

Definition decodable (e : JobEnvelope) : bool := is_ok (jt_decode t (args (job e))).
Abbreviation values_of es := ((fun e : JobEnvelope => args (job e)) <$> es).

Lemma decode_batch_jobs es : forall index,
  length (decode_batch t index (values_of es)).1 = length (filter (fun e => decodable e = true) es).
Proof.
  induction es as [|e es IH]; intros index; cbn [fmap list_fmap decode_batch]; [done|].
  specialize (IH (S index)). destruct (decode_batch t (S index) _) as [js invalid]. unfold decodable in *.
  destruct (jt_decode t (args (job e))) eqn:E; cbn [fst] in *.
  - rewrite filter_cons_True by (by rewrite E). cbn. by f_equal.
  - rewrite filter_cons_False by (by rewrite E). done.
Qed.

Lemma decode_batch_invalid es : forall index i,
  i ∈ inv_index <$> (decode_batch t index (values_of es)).2 <->
  index <= i /\ exists e, es !! (i - index) = Some e /\ decodable e = false.
Proof.
  induction es as [|e es IH]; intros index i; cbn [fmap list_fmap decode_batch].
  { split; [by intros ?%elem_of_nil|]. intros (_ & e & He & _). by rewrite lookup_nil in He. }
  specialize (IH (S index) i). destruct (decode_batch t (S index) _) as [js invalid]. cbn [snd] in IH.
  assert (i ∈ inv_index <$> invalid <-> S index <= i /\ exists e', (e :: es) !! (i - index) = Some e' /\
    decodable e' = false) as Hrest.
  { rewrite IH. split; intros (Hle & e' & He' & ?); (split; [done|]); exists e'; (split; [|done]).
    - by replace (i - index) with (S (i - S index)) by lia.
    - by replace (i - index) with (S (i - S index)) in He' by lia. }
  unfold decodable at 1. destruct (jt_decode t (args (job e))) eqn:E; cbn [snd fmap list_fmap].
  - rewrite Hrest. split; [intros (? & ?); split; [lia|done]|]. intros (Hle & e' & He' & Hd).
    destruct (decide (i = index)) as [->|]; [|split; [lia|eauto]].
    rewrite Nat.sub_diag in He'. injection He' as <-. unfold decodable in Hd. by rewrite E in Hd.
  - rewrite elem_of_cons, Hrest. cbn [inv_index]. split.
    + intros [->|(? & ?)]; [|split; [lia|done]]. split; [done|]. exists e. rewrite Nat.sub_diag.
      split; [done|]. unfold decodable. by rewrite E.
    + intros (Hle & e' & ?). destruct (decide (i = index)); [by left|right]. split; [lia|eauto].
Qed.

(** The indices the coordinator looks up are those of the jobs that do not
    decode. *)
Lemma invalid_jobs_of_batch es k e :
  es !! k = Some e ->
  is_Some (invalid_jobs_by_index (decode_batch t 0 (values_of es)).2 (length es) !! k) <-> decodable e = false.
Proof.
  intros He. rewrite invalid_by_index_lookup.
  2: { pose proof (decode_batch_partition t 0 (values_of es)) as H.
       destruct (decode_batch t 0 (values_of es)). apply H. }
  rewrite decode_batch_invalid, Nat.sub_0_r, He. apply lookup_lt_Some in He. naive_solver lia.
Qed.
End Decoding.

Section Split.
Context {R : RedisServer} {L : LawfulRedis R} {S : Serde} {LS : LawfulSerde S}.
Variable st : StorageInternal.

(** Killing the jobs an index map names, by the property [good] it decides. *)
Lemma kill_invalid_splits (good : JobEnvelope -> bool) worker_name m es : forall index d (store : job_store st (view d)),
  (forall k e, es !! k = Some e -> is_Some (m !! (index + k)) <-> good e = false) ->
  let rejected := id <$> filter (fun e => good e = false) es in
  yields (kill_invalid st worker_name m index es) d (Ok (filter (fun e => good e = true) es)) (fun ks' =>
    exists store' : job_store st ks',
      (forall jid, payloads store' !! jid = if decide (jid ∈ rejected) then None else payloads store !! jid) /\
      retrying store' = retrying store /\ scheduled store' = scheduled store /\
      (forall jid, occurrences jid (claims store') = occurrences jid (claims store) - occurrences jid rejected)).
Proof.
  induction es as [|e es IH]; intros index d store Hm rejected; cbn [kill_invalid].
  { apply yields_ret. exists store. split_and!; [|done|done|intros; cbn; lia].
    intros jid. destruct (decide _) as [Hj|_]; [by apply elem_of_nil in Hj|done]. }
  pose proof (Hm 0 e eq_refl) as He. rewrite Nat.add_0_r in He.
  assert (forall k e0, es !! k = Some e0 -> is_Some (m !! (Datatypes.S index + k)) <-> good e0 = false) as Hm'.
  { intros k e0 Hk. rewrite <- (Hm (Datatypes.S k) e0 Hk). by rewrite Nat.add_succ_r. }
  destruct (m !! index) as [error|] eqn:Em.
  - assert (good e = false) as Hg by (apply He; eauto).
    unfold rejected.
    rewrite (filter_cons_False (fun e => good e = true)), (filter_cons_True (fun e => good e = false)) by congruence.
    eapply yields_bind; [by apply (kill_effect st e _ d store)|].
    intros d1 (store1 & (_ & _ & Hs1 & Hr1 & _) & Hp1 & Hc1 & _).
    destruct (IH (Datatypes.S index) d1 store1 Hm') as (d2 & Hrun & store2 & Hp2 & Hr2 & Hs2 & Hc2).
    exists d2. split; [done|]. exists store2. split_and!.
    + intros jid. rewrite Hp2, Hp1. cbn [fmap list_fmap]. destruct (decide (jid = id e)) as [->|Hne].
      * rewrite lookup_delete_eq. rewrite (decide_True (P := _ ∈ _ :: _)) by left. by case_decide.
      * rewrite lookup_delete_ne by done. repeat case_decide; set_solver.
    + rewrite Hr2, Hr1; [done|key_notin].
    + rewrite Hs2, Hs1; [done|key_notin].
    + intros jid. rewrite Hc2, Hc1, occurrences_lrem1. cbn [fmap list_fmap]. rewrite occurrences_cons. lia.
  - assert (good e = true) as Hg.
    { destruct (good e) eqn:Hg; [done|]. destruct (proj2 He eq_refl) as [? [=]]. }
    unfold rejected.
    rewrite (filter_cons_False (fun e => good e = false)), (filter_cons_True (fun e => good e = true)) by congruence.
    eapply yields_bind; [by apply (IH (Datatypes.S index) d store Hm')|].
    intros d1 Hpost. by apply yields_ret.
Qed.

End Split.
