(* ===== verification/Exclusive.v ===== *)
(** * A job is run by one worker at a time

    A worker holds a job from the LMOVE that handed it over until an event of
    its takes the claim out of its process's list. [owns] is a judgement about
    programs: one that is held to settle only what it holds. The workers of the
    code satisfy it ([worker_program]), the others leave claims alone ([Peers]),
    and in a world of both, where only stopped processes are recovered, no job
    is held twice. *)
From S2P Require Import Prelude Errors Redis Events Envelope Codec Queue Keys Scripts Storage Enqueue Recovery Throttle.
From S2P Require Import Executor Registry Dispatcher Coordinator Durability Places Moves Peers.

Section Owns.
Context {S : Serde} {LS : LawfulSerde S}.
Variables (requested : string) (J : JobId) (until : Z) (stopped : gset string) (p : string).
Local Abbreviation keys := (new_keys requested).
Local Abbreviation once := (once requested J until).
Local Abbreviation calm := (@calm _ requested J until stopped _).
Local Abbreviation claims_of := (claims_of requested J).
Local Abbreviation plain_queue := (plain_queue requested).
Local Abbreviation fit := (fit requested J until).
Local Abbreviation hands_over := (@hands_over J _).

(** A reply to a program that holds [J], or does not. *)
Definition reply_held (h : bool) {X} (e : event X) (r : result OxanaError X) : Prop :=
  r = Err lost_reply \/
  exists ks, once ks /\ (h = true -> 0 < claims_of p ks) /\ r = fst (@run_event MemRedis _ e ks).

(** A program of process [p] that holds [J] if [h]: every event leaves the
    claims alone, asks for a job, or gives back what is held. [Q] is what
    holds at its end. *)
Fixpoint owns (h : bool) {A} (q : prog A) (Q : bool -> A -> Prop) : Prop :=
  match q with
  | Ret a => Q h a
  | Op e k =>
      (calm e /\ forall r, reply_held h e r -> owns h (k r) Q) \/
      (takes requested J until p e /\ forall r, reply_held h e r -> owns (h || hands_over e r) (k r) Q) \/
      (h = true /\ gives_back requested J until p e /\ forall r h', owns h' (k r) Q)
  end.

Lemma owns_weaken {A} (q : prog A) (Q Q' : bool -> A -> Prop) : forall h,
  (forall h' a, Q h' a -> Q' h' a) -> owns h q Q -> owns h q Q'.
Proof.
  induction q as [a|X e k IH]; intros h HQ; cbn; [apply HQ|].
  intros [[He Hk]|[[He Hk]|(Hh & He & Hk)]]; [left|right; left|right; right]; eauto.
Qed.
Lemma owns_bind {A B} (q : prog A) (f : A -> prog B) (Q : bool -> B -> Prop) : forall h,
  owns h q (fun h' a => owns h' (f a) Q) -> owns h (pbind q f) Q.
Proof.
  induction q as [a|X e k IH]; intros h; cbn; [done|].
  intros [[He Hk]|[[He Hk]|(Hh & He & Hk)]]; [left|right; left|right; right]; eauto.
Qed.
Lemma owns_try {A B} (q : rprog A) (f : A -> rprog B) (Q : bool -> result OxanaError B -> Prop) h :
  owns h q (fun h' r => match r with Ok a => owns h' (f a) Q | Err e => Q h' (Err e) end) -> owns h (try q f) Q.
Proof. intros H. apply owns_bind. eapply owns_weaken; [|exact H]. by intros h' [a|e]. Qed.

(** A program that leaves the claims alone. *)
Lemma owns_calm {A} (q : prog A) (Q : bool -> A -> Prop) h :
  calm_prog requested J until stopped q -> (forall a, Q h a) -> owns h q Q.
Proof.
  intros Hq HQ. revert Hq. unfold calm_prog. induction q as [a|X e k IH]; cbn; [auto|]. intros [He Hk]. left. split; [done|].
  intros r Hr. apply IH, Hk. destruct Hr as [->|(ks & Hks & _ & ->)]; [by left|right; eauto].
Qed.
Lemma owns_perform_calm {X} (e : event X) (Q : bool -> result OxanaError X -> Prop) h :
  calm e -> (forall r, reply_held h e r -> Q h r) -> owns h (perform e) Q.
Proof. intros He HQ. cbn. left. auto. Qed.
Lemma owns_checkout c (Q : bool -> result OxanaError unit -> Prop) h : (forall r, Q h r) -> owns h (perform (Checkout c)) Q.
Proof. intros HQ. apply owns_perform_calm; [by apply event_bystander_calm|auto]. Qed.
Lemma owns_perform_back {X} (e : event X) (Q : bool -> result OxanaError X -> Prop) :
  gives_back requested J until p e -> (forall h r, Q h r) -> owns true (perform e) Q.
Proof. intros He HQ. cbn. right; right. auto. Qed.

(** A holder is handed nothing: the one copy is its own. *)
Lemma held_not_handed {X} (e : event X) r : takes requested J until p e -> reply_held true e r -> hands_over e r = false.
Proof.
  intros He [->|(ks & Hk & Hc & ->)].
  - destruct e as [|X c| |]; try done. by destruct c.
  - apply (takes_claims _ _ _ _ _ ks) in He; [|done]. specialize (Hc eq_refl).
    destruct (@run_event MemRedis _ e ks) as [r ks']. cbn in *.
    destruct He as (_ & He). destruct (hands_over e r); [|done]. destruct (He eq_refl) as [H0 _]. specialize (H0 p). lia.
Qed.

(** ** The operations of a worker *)

Section OneStorage.
Variable st : StorageInternal.
Hypothesis Hst : storage_namespace st = requested.
Hypothesis Hp : own_process_id st = p.

Lemma own_list_p : current_processing_queue st = processing_queue keys p.
Proof. unfold current_processing_queue. by rewrite Hst, Hp. Qed.
Ltac open_op := unfold connection, claimed_connection, stats_connection; rewrite ?Hst, ?own_list_p.

Lemma owns_dequeue_w_conn q h : plain_queue q ->
  owns h (dequeue_w_conn st q) (fun h' r => h' = h || bool_decide (r = Ok (Some J)) /\ (h = true -> r <> Ok (Some J))).
Proof.
  intros Hq. unfold dequeue_w_conn, call, perform. open_op. cbn. right; left. split; [by apply dequeue_takes|].
  intros r Hr. split.
  - f_equal. destruct r as [[jid|]|]; [|done..]. apply bool_decide_ext. split; [by intros ->|by intros [= ->]].
  - intros -> ->. pose proof (held_not_handed _ _ (dequeue_takes requested J until p q Hq) Hr) as H. cbn in H.
    by rewrite bool_decide_true in H.
Qed.
Lemma owns_dequeue q h : plain_queue q ->
  owns h (dequeue st q) (fun h' r => h' = h || bool_decide (r = Ok (Some J)) /\ (h = true -> r <> Ok (Some J))).
Proof.
  intros Hq. unfold dequeue. open_op. apply owns_try, owns_checkout. intros [_|e].
  - by apply owns_dequeue_w_conn.
  - split; [|done]. rewrite bool_decide_false by done. by rewrite orb_false_r.
Qed.

(** What a worker finds under the ID of a job: that job, and [J] if it holds it. *)
Definition found_ok (h : bool) (jid : JobId) (r : result OxanaError (option JobEnvelope)) : Prop :=
  (forall e, r = Ok (Some e) -> id e = jid /\ fit e) /\ (jid = J -> h = true -> r <> Ok None).

Lemma owns_get_w_conn jid h : owns h (get_job_w_conn st jid) (fun h' r => h' = h /\ found_ok h jid r).
Proof.
  unfold get_job_w_conn, call. open_op. apply owns_try, owns_perform_calm; [by apply event_bystander_calm|].
  intros r Hr. destruct r as [payload|e]; [|done]. cbn. split; [done|].
  destruct Hr as [Hr|(ks & (hs & Hh & Hok & Hc & Hnone) & Hheld & Hr)]; [done|]. cbn in Hr.
  erewrite read_hash_ok in Hr by done. cbn in Hr. injection Hr as ->.
  assert (jid = J -> h = true -> is_Some (hs !! jid)) as HJ.
  { intros -> Hh'. specialize (Hheld Hh'). destruct (hs !! J); [eauto|]. specialize (Hnone eq_refl).
    pose proof (at_place_le requested J (processing_queue keys p) ks). unfold Places.claims_of in Hheld. lia. }
  destruct (hs !! jid) as [text|] eqn:E; cbn.
  - unfold parse_job. destruct (from_str text) as [e|] eqn:Ee; cbn; (split; [|done]); [|done].
    intros e' [= <-]. by apply (entry_fits_parse requested J until jid text e (Hok _ _ E)).
  - split; [done|]. intros HJ' Hh'. by destruct (HJ HJ' Hh').
Qed.
Lemma owns_get_job jid h : owns h (get_job st jid) (fun h' r => h' = h /\ found_ok h jid r).
Proof.
  unfold get_job, connection. apply owns_try, owns_checkout. intros [_|e]; [apply owns_get_w_conn|]. by split.
Qed.
Lemma owns_get_claimed_job jid attempts h : owns h (get_claimed_job st jid attempts) (fun h' r => h' = h /\ found_ok h jid r).
Proof.
  unfold get_claimed_job. apply owns_bind. eapply owns_weaken; [|apply owns_get_job]. intros h' r [-> Hr].
  revert r Hr. induction attempts as [|b attempts IH]; intros [o|e] Hr; cbn [claimed_read_loop]; try done;
    destruct (transient_payload_read_error _); try done. destruct b; [|done].
  apply owns_bind. eapply owns_weaken; [|apply owns_get_job]. intros h' r [-> Hr']. by apply IH.
Qed.

Lemma owns_load_pending_job jid cancelled attempts h : (jid = J -> h = true) ->
  owns h (load_pending_job st jid cancelled attempts) (fun h' r => h' = h /\ forall e, r = Ok (Some e) -> id e = jid /\ fit e).
Proof.
  intros HJ. unfold load_pending_job. destruct cancelled; [done|]. apply owns_bind.
  eapply owns_weaken; [|apply owns_get_claimed_job]. intros h' r [-> [Hr Hn]]. destruct r as [[e|]|e]; [|  |done].
  - split; [done|]. intros e' [= <-]. by apply Hr.
  - assert (jid <> J) by naive_solver. apply owns_try, owns_calm; [by apply calm_delete_job|]. by intros [_|e].
Qed.

(** ** Settling

    The jobs of an execution: stored ones, [J] at most once and only if held. *)
Definition covers (h : bool) (es : list JobEnvelope) : Prop :=
  Forall fit es /\ occurrences J (id <$> es) <= 1 /\ (J ∈ id <$> es -> h = true).

Lemma covers_nil h : covers h [].
Proof. split; [done|]. split; [cbn; lia|]. intros H. by apply elem_of_nil in H. Qed.
Lemma covers_one h e : fit e -> (id e = J -> h = true) -> covers h [e].
Proof.
  intros Hf Hh. unfold covers. rewrite fmap_cons, occurrences_cons.
  split_and!; [by constructor|case_decide; cbn; lia|by intros ->%list_elem_of_singleton; apply Hh].
Qed.
Lemma covers_cons h e es : covers h (e :: es) ->
  fit e /\ covers h es /\ (id e = J -> h = true /\ forall h', covers h' es).
Proof.
  intros (Hf & Ho & Hh). rewrite fmap_cons in Ho, Hh. apply Forall_cons in Hf as [He Hf]. rewrite occurrences_cons in Ho.
  assert (covers h es) as Hes by (split_and!; [done|case_decide; lia|intros; apply Hh; by right]).
  split_and!; [done..|]. intros HJ. rewrite decide_True in Ho by done. split; [apply Hh; rewrite HJ; by left|].
  intros h'. split_and!; [done|lia|]. intros Hin%occurrences_pos. lia.
Qed.

Lemma owns_retry_found e delay_s err now : id e = J -> fit e -> owns true (retry_found st e delay_s err now) (fun _ _ => True).
Proof.
  intros HJ Hf. unfold retry_found. destruct (print_job _) as [text|] eqn:Et; [|done]. apply owns_try. cbn [lift owns].
  open_op. apply owns_perform_back; [|done]. change (id (with_retries_incremented err e)) with (id e). rewrite HJ.
  apply retry_gives_back. rewrite <- HJ at 2. by apply (entry_fits_print requested J until (with_retries_incremented err e)).
Qed.
Lemma owns_retry_in jid delay_s err now h : (jid = J -> h = true) ->
  owns h (retry_in st jid delay_s err now) (fun h' _ => jid <> J -> h' = h).
Proof.
  intros Hh. destruct (decide (jid = J)) as [->|Hne]; [|by apply owns_calm; [apply calm_retry_in|]].
  rewrite Hh by done. unfold retry_in. open_op. apply owns_try, owns_checkout. intros [_|e]; [|done].
  apply owns_try. eapply owns_weaken; [|apply owns_get_w_conn]. intros h' r [-> [Hr Hn]].
  destruct r as [[e|]|e]; [| |done].
  - destruct (Hr e eq_refl) as [HJ Hf]. eapply owns_weaken; [|by apply owns_retry_found]. done.
  - by destruct Hn.
Qed.
Lemma owns_kill e err h : (id e = J -> h = true) -> owns h (kill st e err) (fun h' _ => id e <> J -> h' = h).
Proof.
  intros Hh. destruct (decide (id e = J)) as [HJ|Hne]; [|by apply owns_calm; [apply calm_kill|]].
  rewrite Hh by done. unfold kill. open_op. apply owns_try, owns_checkout. intros [_|er]; [|done].
  destruct (print_job _) as [text|]; [|done]. apply owns_try. cbn [lift owns]. apply owns_perform_back; [|done].
  change (id (with_error err e)) with (id e). rewrite HJ. apply (kill_gives_back requested J until).
Qed.
Lemma owns_finish es h : covers h es -> owns h (finish_with_success_batch st es) (fun _ _ => True).
Proof.
  intros (Hf & Ho & Hh). destruct (decide (J ∈ id <$> es)) as [HJ|Hne]; [|by apply owns_calm; [apply calm_finish|]].
  rewrite Hh by done. unfold finish_with_success_batch. destruct es as [|e es]; [done|]. open_op.
  apply owns_try, owns_checkout. intros [_|er]; [|done]. apply owns_perform_back; [|done]. apply finish_gives_back.
Qed.

Lemma owns_handle_err err_msg e delay max now h : (id e = J -> h = true) ->
  owns h (handle_err st err_msg e delay max now) (fun h' _ => id e <> J -> h' = h).
Proof. intros Hh. unfold handle_err. destruct (_ <? _)%Z; [by apply owns_retry_in|by apply owns_kill]. Qed.

Lemma owns_handle_errs err_msg delay now js : forall h, covers h js.*1 ->
  owns h (handle_errs st err_msg delay now js) (fun _ _ => True).
Proof.
  induction js as [|[e policy] js IH]; intros h Hc; cbn [handle_errs]; [done|].
  apply covers_cons in Hc as (Hf & Hes & HJ). apply owns_bind.
  eapply owns_weaken; [|apply owns_handle_err; by intros []%HJ]. intros h' [_|er] Hh'; [|done]. apply IH.
  destruct (decide (id e = J)) as [E|Hne]; [by apply HJ|by rewrite (Hh' Hne)].
Qed.

Lemma covers_zip h es (ps : list JobExecutionPolicy) : covers h es -> covers h (zip es ps).*1.
Proof.
  intros (Hf & Ho & Hh). assert ((zip es ps).*1 `prefix_of` es) as [rest E].
  { clear. revert ps. induction es as [|e es IH]; intros [|q ps]; cbn; try (by eexists).
    destruct (IH ps) as [rest Hr]. exists rest. cbn. by rewrite <- Hr. }
  rewrite E in Hf, Ho, Hh. rewrite fmap_app in Ho, Hh. apply Forall_app in Hf as [? _].
  rewrite occurrences_app in Ho. split_and!; [done|lia|]. intros Hin. apply Hh, elem_of_app. by left.
Qed.
Lemma owns_finish_batch_result result_ es ps now h : covers h es ->
  owns h (finish_batch_result st result_ es ps now) (fun _ _ => True).
Proof.
  intros Hc. unfold finish_batch_result. destruct result_; apply owns_bind;
    (eapply owns_weaken; [|first [by apply owns_finish|by apply owns_handle_errs, covers_zip]]); done.
Qed.

Lemma covers_map h f es : (forall e, id (f e) = id e) -> (forall e, fit e -> fit (f e)) -> covers h es -> covers h (f <$> es).
Proof.
  intros Hid Hfit (Hf & Ho & Hh). assert (id <$> (f <$> es) = id <$> es) as E.
  { rewrite <- list_fmap_compose. apply list_fmap_ext. intros _ e _. apply Hid. }
  unfold covers. rewrite E. split_and!; [|done..]. apply Forall_fmap. by eapply Forall_impl; [exact Hf|].
Qed.

Lemma owns_run_batch w es duration_ms now_start now_finish h : covers h es ->
  owns h (run_batch st w es duration_ms now_start now_finish) (fun _ _ => True).
Proof.
  intros Hc. unfold run_batch. destruct es as [|e es]; [done|]. case_decide; [done|].
  set (cleared := clear_state w (e :: es)).
  assert (covers h cleared) as Hc1 by (unfold cleared, clear_state; destruct (p_should_resume w); [done|by apply covers_map]).
  assert (covers h (map_meta (set_started_at (Some now_start)) <$> cleared)) as Hc2 by (by apply covers_map).
  unfold set_started_at_batch. apply owns_bind, owns_bind. apply owns_calm; [apply calm_update_jobs; [done|apply Hc2]|].
  intros [u|er]; cbn [owns]; [|done]. apply owns_bind. by eapply owns_weaken; [|apply owns_finish_batch_result].
Qed.

Lemma owns_process_pending_job describe built e duration_ms now_start now_finish h : covers h [e] ->
  owns h (process_pending_job st describe built e duration_ms now_start now_finish) (fun _ _ => True).
Proof.
  intros Hc. unfold process_pending_job. destruct built as [w|er]; apply owns_try.
  - eapply owns_weaken; [|by apply owns_run_batch]. by intros h' [?|?].
  - apply covers_cons in Hc as (_ & _ & HJ). eapply owns_weaken; [|apply owns_kill; by intros []%HJ]. by intros h' [?|?].
Qed.

Lemma owns_kill_all err_msg es : forall h, covers h es -> owns h (kill_all st err_msg es) (fun _ _ => True).
Proof.
  induction es as [|e es IH]; intros h Hc; cbn [kill_all]; [done|]. apply covers_cons in Hc as (Hf & Hes & HJ).
  apply owns_try. eapply owns_weaken; [|apply owns_kill; by intros []%HJ]. intros h' [_|er] Hh'; [|done]. apply IH.
  destruct (decide (id e = J)) as [E|Hne]; [by apply HJ|by rewrite (Hh' Hne)].
Qed.

(** The jobs that are kept are still covered. *)
Lemma owns_kill_invalid worker_name invalid es : forall index h, covers h es ->
  owns h (kill_invalid st worker_name invalid index es) (fun h' r =>
    (J ∉ id <$> es -> h' = h) /\ forall kept, r = Ok kept -> covers h' kept /\ (forall i, i ∈ id <$> kept -> i ∈ id <$> es)).
Proof.
  induction es as [|e es IH]; intros index h Hc; cbn [kill_invalid].
  { cbn. split; [done|]. intros kept [= <-]. split; [apply covers_nil|done]. }
  pose proof (covers_cons h e es Hc) as (Hf & Hes & HJ). destruct (invalid !! index).
  - apply owns_try. eapply owns_weaken; [|apply owns_kill; by intros []%HJ]. intros h' [_|er] Hh'.
    2: { split; [|done]. intros Hn. apply Hh'. rewrite fmap_cons in Hn. set_solver. }
    eapply owns_weaken; [|apply (IH (Datatypes.S index) h')].
    + intros h2 r [H1 H2]. split.
      * rewrite fmap_cons. intros Hn. rewrite H1 by set_solver. apply Hh'. set_solver.
      * intros kept Hk. destruct (H2 kept Hk) as [? Hin]. split; [done|]. intros i Hi. rewrite fmap_cons. right. auto.
    + destruct (decide (id e = J)) as [E|Hne]; [by apply HJ|by rewrite (Hh' Hne)].
  - apply owns_try. eapply owns_weaken; [|apply (IH (Datatypes.S index) h Hes)]. intros h' [kept|er] [H1 H2].
    2: { split; [|done]. intros Hn. apply H1. rewrite fmap_cons in Hn. set_solver. }
    destruct (H2 kept eq_refl) as [(Hkf & Hko & Hkh) Hin]. split.
    { intros Hn. apply H1. rewrite fmap_cons in Hn. set_solver. }
    intros kept' [= <-]. split; [|intros i; rewrite !fmap_cons, !elem_of_cons; naive_solver].
    destruct Hc as (_ & Ho & Hh). rewrite fmap_cons in Ho, Hh. rewrite occurrences_cons in Ho.
    unfold covers. rewrite fmap_cons, occurrences_cons. split_and!; [by constructor| |].
    + destruct (decide (id e = J)) as [E|Hne]; [|lia].
      assert (J ∉ id <$> kept) as Hn by (intros ?%Hin%occurrences_pos; lia). rewrite (occurrences_none _ _ Hn). lia.
    + intros [E|?]%elem_of_cons; [|auto]. assert (J ∉ id <$> es) as Hn.
      { intros ?%occurrences_pos. rewrite decide_True in Ho by done. lia. }
      rewrite (H1 Hn). apply Hh. rewrite E. by left.
Qed.

Lemma owns_process_pending_batch describe built es duration_ms now_start now_finish h : covers h es ->
  owns h (process_pending_batch st describe built es duration_ms now_start now_finish) (fun _ _ => True).
Proof.
  intros Hc. unfold process_pending_batch. destruct es as [|e0 es0] eqn:Ees; [done|]. rewrite <- Ees in *.
  destruct built as [batch|er].
  - apply owns_try. set (valid := if decide _ then _ else _).
    assert (owns h valid (fun h' r => forall kept, r = Ok kept -> covers h' kept)) as Hv.
    { unfold valid. case_decide; [by intros kept [= <-]|]. eapply owns_weaken; [|by apply owns_kill_invalid].
      intros h' r [_ Hkept] kept Hk. by apply Hkept. }
    eapply owns_weaken; [|exact Hv]. intros h' [kept|err] Hk; [|done]. destruct (bb_job batch); [|done].
    apply owns_try. eapply owns_weaken; [|apply owns_run_batch; by apply Hk]. by intros h2 [?|?].
  - apply owns_try. eapply owns_weaken; [|by apply owns_kill_all]. by intros h' [?|?].
Qed.

(** ** Claiming *)

(** A throttled queue's sorted set is none of the namespace's. *)
Definition throttle_apart (q : string) : Prop := starts_with (namespace keys +:+ ":") (throttler_key q) = false.

Lemma throttle_no_key q rest : throttle_apart q -> throttler_key q <> namespace keys +:+ ":" +:+ rest.
Proof. unfold throttle_apart. intros Hq E. rewrite E, <- string_app_assoc, starts_with_app in Hq. done. Qed.
Lemma throttle_no_place q : throttle_apart q -> throttler_key q <> jobs keys /\ zset_place requested (throttler_key q) = false.
Proof.
  intros Hq. split; [by apply (throttle_no_key q "jobs")|]. apply bool_decide_eq_false.
  intros [H|H]; [by apply (throttle_no_key q "schedule") in H|by apply (throttle_no_key q "retry") in H].
Qed.

Lemma calm_state_w_conn t now : th_key t <> jobs keys -> zset_place requested (th_key t) = false -> calm_prog requested J until stopped (state_w_conn t now).
Proof.
  intros Hj Hz. unfold state_w_conn. apply guarded_pbind; [by apply guarded_call, event_bystander_calm|]. intros removed.
  apply guarded_pbind; [by apply guarded_call, event_bystander_calm|]. intros first.
  apply guarded_pbind; [by apply guarded_call, event_bystander_calm|done].
Qed.
Lemma calm_connection : calm_prog requested J until stopped connection.
Proof. apply guarded_perform. by apply event_bystander_calm. Qed.
Lemma calm_throttler_state t now : th_key t <> jobs keys -> zset_place requested (th_key t) = false -> calm_prog requested J until stopped (throttler_state t now).
Proof. intros Hj Hz. apply guarded_try; [apply calm_connection|]. intros _. by apply calm_state_w_conn. Qed.
Lemma calm_consume t cost uuids now_members now :
  th_key t <> jobs keys -> zset_place requested (th_key t) = false ->
  calm_prog requested J until stopped (consume t cost uuids now_members now).
Proof.
  intros Hj Hz. apply guarded_try; [apply calm_connection|]. intros _. destruct (u64_try_from now_members); [|done].
  apply guarded_try; [by apply calm_state_w_conn|]. intros state. destruct (is_allowed state); [|done]. cbv zeta. case_decide; [done|].
  apply guarded_pbind; [by apply guarded_call, event_bystander_calm|]. intros updated.
  apply guarded_pbind; [by apply guarded_call, event_bystander_calm|done].
Qed.

(** What a pop answers, and what the caller then holds. *)
Definition popped_ok (h h' : bool) (found : option JobId) : Prop :=
  (h = true -> h' = true /\ found <> Some J) /\ (found = Some J -> h' = true).

Lemma popped_keeps h h' found : popped_ok h h' found -> h = true -> h' = true.
Proof. intros [H _] Hh. by apply H. Qed.

Lemma owns_claim_job q h : plain_queue q -> owns h (claim_job st q) (fun h' r =>
  match r with Ok found => popped_ok h h' found | Err _ => h = true -> h' = true end).
Proof.
  intros Hq. unfold claim_job, try_with, map_fail, connection. apply owns_bind, owns_bind, owns_checkout.
  intros [u|er]; cbn [owns map_err]; [|done]. apply owns_bind. eapply owns_weaken; [|by apply owns_dequeue_w_conn].
  intros h' r [-> Hn]. destruct r as [found|er]; cbn [owns map_err].
  - split; [intros ->; split; [done|intros ->; by apply Hn]|]. intros ->. rewrite bool_decide_true by done. apply orb_true_r.
  - by intros ->.
Qed.

Lemma owns_pop_queue_message c q dequeue_timeout fallback_wait w h : plain_queue q -> (is_Some (throttle c) -> throttle_apart q) ->
  owns h (pop_queue_message st c q dequeue_timeout fallback_wait w) (fun h' r =>
    match r with Ok (found, _) => popped_ok h h' found | Err _ => h = true -> h' = true end).
Proof.
  intros Hq Ht. unfold pop_queue_message. destruct (throttle c) as [t|].
  - destruct (throttle_no_place q (Ht ltac:(by eexists))) as [Hj Hz].
    unfold pop_queue_message_w_throttle, try_with, map_fail. apply owns_bind, owns_bind.
    apply owns_calm; [by apply calm_throttler_state|]. intros [state|er]; cbn [owns map_err]; [|done].
    destruct (is_allowed state); [|by cbn; split; [intros ->|]].
    apply owns_bind. eapply owns_weaken; [|by apply owns_claim_job]. intros h' [[jid|]|er] Hpop; cbn [owns]; [|done|done].
    apply owns_bind, owns_bind. eapply owns_weaken; [|apply owns_get_claimed_job]. intros h2 r [-> _].
    destruct r as [e|er]; cbn [owns map_err]; [|by eapply popped_keeps].
    apply owns_bind, owns_bind. apply owns_calm; [by apply calm_consume|].
    intros [u|er]; cbn [owns map_err]; [done|]. by eapply popped_keeps.
  - unfold pop_queue_message_wo_throttle, try_with. apply owns_bind. eapply owns_weaken; [|by apply owns_claim_job].
    intros h' [found|er] Hpop; done.
Qed.
End OneStorage.
End Owns.
