(* ===== verification/Workers.v ===== *)
(** * Workers and their world

    What a worker does with the jobs it claims, from the pop to the settlement
    ([serve], [serve_batch], [drain]), and a world of such workers and of
    everything else that runs on the namespace: tasks come at any time, take
    their events in any interleaving, with replies lost and commands not sent;
    processes stop with all their tasks, and only stopped ones are recovered. *)
From S2P Require Import Prelude Errors Redis Events Envelope Codec Queue Keys Scripts Storage Enqueue Recovery Throttle.
From S2P Require Import Executor Registry Dispatcher Coordinator Durability Places Moves Peers Exclusive.

(** ** Worker programs *)

(** One pop: its queue, what it reads from the world, and how the load of the
    popped job goes. *)
Record claim_round := {
  cr_config : QueueConfig;
  cr_queue : string;
  cr_dequeue_timeout : Duration;
  cr_fallback_wait : Duration;
  cr_world : pop_world;
  cr_cancelled : bool;
  cr_attempts : list bool;
}.

(** How an execution is built and what it is timed at. *)
Record execution_env := {
  ee_describe : OxanaError -> string;
  ee_duration_ms : Z; ee_start : Z; ee_finish : Z;
}.

Section Programs.
Context {S : Serde}.
Variable st : StorageInternal.
Open Scope prog_scope.

(** [run] of dispatcher.rs up to [job_tx.send], then [load_pending_job]. *)
Definition claim_and_load (r : claim_round) : prog (option JobEnvelope) :=
  popped <- pop_queue_message st (cr_config r) (cr_queue r) (cr_dequeue_timeout r) (cr_fallback_wait r) (cr_world r) ;;
  match popped with
  | Ok (Some jid, _) =>
      loaded <- load_pending_job st jid (cr_cancelled r) (cr_attempts r) ;;
      Ret (match loaded with Ok found => found | Err _ => None end)
  | _ => Ret None
  end.

(** A job on its own: [process_pending_job]. *)
Definition serve (r : claim_round) (build : JobEnvelope -> result OxanaError Processable) (x : execution_env) : prog unit :=
  found <- claim_and_load r ;;
  match found with
  | Some e =>
      _ <- process_pending_job st (ee_describe x) (build e) e (ee_duration_ms x) (ee_start x) (ee_finish x) ;; Ret tt
  | None => Ret tt
  end.

(** The jobs of a batcher, one claim after the other. *)
Fixpoint gather (rs : list claim_round) : prog (list JobEnvelope) :=
  match rs with
  | [] => Ret []
  | r :: rs' =>
      found <- claim_and_load r ;;
      rest <- gather rs' ;;
      Ret (match found with Some e => e :: rest | None => rest end)
  end.

Definition serve_batch (rs : list claim_round) (build : list JobEnvelope -> result OxanaError BatchBuild) (x : execution_env)
    : prog unit :=
  es <- gather rs ;;
  _ <- process_pending_batch st (ee_describe x) (build es) es (ee_duration_ms x) (ee_start x) (ee_finish x) ;; Ret tt.

(** [drain], its answer left to the caller. *)
Definition serve_drain `{P : ProcessSerde} (fuel : nat) (build : JobEnvelope -> result OxanaError Processable) (q : string)
    (now_ms now : Z) : prog unit :=
  _ <- drain st fuel build q now_ms now ;; Ret tt.
End Programs.

Section Workers.
Context {S : Serde} {LS : LawfulSerde S}.
Variables (requested : string) (J : JobId) (until : Z).
Local Abbreviation keys := (new_keys requested).
Local Abbreviation once := (once requested J until).
Local Abbreviation claims_of := (claims_of requested J).
Local Abbreviation owns := (owns requested J until).

Definition round_ok (r : claim_round) : Prop :=
  plain_queue requested (cr_queue r) /\ (is_Some (throttle (cr_config r)) -> throttle_apart requested (cr_queue r)).

(** The worker programs of process [p]. *)
Inductive worker_program (p : string) : prog unit -> Prop :=
| wk_serve st r build x : storage_namespace st = requested -> own_process_id st = p -> round_ok r ->
    worker_program p (serve st r build x)
| wk_batch st rs build x : storage_namespace st = requested -> own_process_id st = p -> Forall round_ok rs ->
    worker_program p (serve_batch st rs build x)
| wk_drain {P : ProcessSerde} st fuel build q now_ms now :
    storage_namespace st = requested -> own_process_id st = p -> plain_queue requested q ->
    worker_program p (serve_drain st fuel build q now_ms now).

Section Judgement.
Variables (stopped : gset string) (p : string) (st : StorageInternal).
Hypotheses (Hst : storage_namespace st = requested) (Hp : own_process_id st = p).
Local Abbreviation owns' := (owns stopped p).

Lemma owns_claim_and_load r h : round_ok r ->
  owns' h (claim_and_load st r) (fun h' found =>
    (h = true -> h' = true) /\
    forall e, found = Some e -> fit requested J until e /\ (h = true -> id e <> J) /\ (id e = J -> h' = true)).
Proof.
  intros [Hq Ht]. unfold claim_and_load. apply owns_bind. eapply owns_weaken; [|by apply owns_pop_queue_message].
  intros h' [[[jid|] d]|er] Hpop; [|by split; [eapply popped_keeps|]|done].
  destruct Hpop as [Hkeep Hgot]. apply owns_bind.
  eapply owns_weaken; [|apply owns_load_pending_job; [done..|intros ->; by apply Hgot]].
  intros h2 r2 [-> Hr]. cbn. split; [by intros Hh; apply Hkeep|]. intros e He. destruct r2 as [found|]; [|done].
  destruct (Hr e) as [Hid Hf]; [by rewrite He|]. split_and!; [done| |intros HJ; apply Hgot; congruence].
  intros Hh HJ. destruct (Hkeep Hh) as [_ Hne]. congruence.
Qed.

Lemma owns_serve r build x : round_ok r -> owns' false (serve st r build x) (fun _ _ => True).
Proof.
  intros Hr. unfold serve. apply owns_bind. eapply owns_weaken; [|by apply owns_claim_and_load].
  intros h [e|] [_ He]; [|done]. destruct (He e eq_refl) as (Hf & _ & HJ). apply owns_bind.
  eapply owns_weaken; [|apply owns_process_pending_job; [done..|by apply covers_one]]. done.
Qed.

(** What is gathered is covered; a holder gathers other jobs. *)
Lemma owns_gather rs : Forall round_ok rs -> forall h,
  owns' h (gather st rs) (fun h' es =>
    (h = true -> h' = true) /\ covers requested J until h' es /\ (h = true -> J ∉ id <$> es)).
Proof.
  induction 1 as [|r rs Hr _ IH]; intros h; cbn [gather].
  { cbn. split_and!; [done|apply covers_nil|]. intros _. cbn. by intros ?%elem_of_nil. }
  apply owns_bind. eapply owns_weaken; [|by apply owns_claim_and_load]. intros h1 found [Hk1 He].
  apply owns_bind. eapply owns_weaken; [|apply IH]. intros h2 es (Hk2 & (Hf & Ho & Hh) & Hn). cbn.
  destruct found as [e|]; [|by split_and!; auto]. destruct (He e eq_refl) as (Hfe & Hne & HJ).
  split_and!; [auto| |].
  - unfold covers. rewrite fmap_cons, occurrences_cons. split_and!; [by constructor| |].
    + destruct (decide (id e = J)) as [E|]; [|lia]. rewrite (occurrences_none J _ (Hn (HJ E))). lia.
    + intros [E|?]%elem_of_cons; [|auto]. apply Hk2, HJ. by symmetry.
  - intros Hh'. rewrite fmap_cons. intros [E|Hin]%elem_of_cons; [by apply (Hne Hh')|]. by apply Hn; auto.
Qed.

Lemma owns_serve_batch rs build x : Forall round_ok rs -> owns' false (serve_batch st rs build x) (fun _ _ => True).
Proof.
  intros Hrs. unfold serve_batch. apply owns_bind. eapply owns_weaken; [|by apply owns_gather].
  intros h es (_ & Hc & _). apply owns_bind. eapply owns_weaken; [|by apply owns_process_pending_batch]. done.
Qed.

Lemma owns_process_job build jid h : (jid = J -> h = true) -> owns' h (process_job st build jid) (fun _ _ => True).
Proof.
  intros HJ. unfold process_job. apply owns_try. eapply owns_weaken; [|by apply owns_get_job].
  intros h' r [-> [Hr _]]. destruct r as [[e|]|er]; [|done..]. destruct (Hr e eq_refl) as [Hid Hf].
  destruct (build e) as [w|er]; [|done]. apply owns_try. cbn [lift Exclusive.owns]. apply owns_try.
  set (e' := map_meta (set_state None) e).
  assert (owns' h (if p_should_resume w then lift (Ok e) else try (update_job st e') (fun _ => lift (Ok e')))
    (fun h' r => h' = h /\ forall x, r = Ok x -> id x = jid /\ fit requested J until x)) as Hclear.
  { destruct (p_should_resume w); [by cbn; split; [|intros x [= <-]]|]. apply owns_try, owns_calm; [by apply calm_update_job|].
    intros [u|er]; [|done]. cbn. split; [done|]. by intros x [= <-]. }
  eapply owns_weaken; [|exact Hclear]. intros h' [x|er] [-> Hx]; [|done]. destruct (Hx x eq_refl) as [Hidx Hfx].
  assert (covers requested J until h [x]) as Hc by (apply covers_one; [done|intros; apply HJ; congruence]).
  destruct (p_process w); [| |done]; apply owns_try.
  - eapply owns_weaken; [|by apply owns_finish]. by intros h' [?|?].
  - eapply owns_weaken; [|apply owns_kill; [done..|]]; [by intros h' [?|?]|]. intros E. apply HJ. congruence.
Qed.

Lemma owns_drain_queue fuel build q : plain_queue requested q -> forall stats h,
  owns' h (drain_queue st fuel build q stats) (fun _ _ => True).
Proof.
  intros Hq. induction fuel as [|fuel IH]; intros stats h; cbn [drain_queue]; [done|].
  apply owns_try. eapply owns_weaken; [|by apply owns_dequeue]. intros h' [[jid|]|er] [-> Hn]; [|done..].
  apply owns_try. eapply owns_weaken; [|apply owns_process_job].
  - intros h' [[r|panic]|er] _; [apply IH|done..].
  - intros ->. rewrite bool_decide_true by done. apply orb_true_r.
Qed.

Lemma owns_serve_drain {P : ProcessSerde} fuel build q now_ms now : plain_queue requested q ->
  owns' false (serve_drain st fuel build q now_ms now) (fun _ _ => True).
Proof.
  intros Hq. unfold serve_drain. apply owns_bind. unfold drain. apply owns_try. apply owns_calm; [by apply calm_ping|].
  intros [u|er]; [|done]. apply owns_bind. eapply owns_weaken; [|by apply owns_drain_queue].
  intros h [[stats|panic]|er] _; [|done|]; (apply owns_try, owns_calm; [by apply calm_self_cleanup|by intros [?|?]]).
Qed.
End Judgement.

Lemma worker_program_owns stopped p q : worker_program p q -> owns stopped p false q (fun _ _ => True).
Proof.
  intros [st r build x Hst Hp Hr|st rs build x Hst Hp Hrs|P st fuel build q' now_ms now Hst Hp Hq];
    [by apply owns_serve|by apply owns_serve_batch|by apply owns_serve_drain].
Qed.
End Workers.
