(* ===== verification/World.v ===== *)
(** * The world of a namespace, and who holds a job in it

    Tasks of many processes over one keyspace. Each remembers whether it holds
    the job [J]: from the reply of the LMOVE that handed it over until an event
    of its has taken the claim out of its process's list; the rest of a step is
    a step of [client_step]. *)
From S2P Require Import Prelude Errors Redis Envelope Codec Queue Keys Scripts Storage Enqueue EnqueueScript Transitions Executor Dispatcher Durability Places Moves Peers Exclusive Workers.
Open Scope nat_scope.

Record task := { t_process : string; t_holds : bool; t_prog : prog unit }.

Record world := { w_keys : keyspace; w_tasks : list task; w_stopped : gset string }.

Section World.
Context {S : Serde} {LS : LawfulSerde S}.
Variables (requested : string) (J : JobId) (until : Z).
Local Abbreviation keys := (new_keys requested).
Local Abbreviation once := (once requested J until).
Local Abbreviation claims_of := (claims_of requested J).
Local Abbreviation hands_over := (@hands_over J _).
Local Abbreviation owns := (owns requested J until).

(** The task after an event with a reply. *)
Definition after (p : string) (h : bool) {X} (e : event X) (r : result OxanaError X) (q : prog unit) (ks ks' : keyspace) : task :=
  {| t_process := p;
     t_holds := hands_over e r || (h && negb ((claims_of p ks' <? claims_of p ks)%nat));
     t_prog := q |}.

Inductive event_step : task * keyspace -> task * keyspace -> Prop :=
| es_answered p h X (e : event X) k ks r ks' :
    @run_event MemRedis _ e ks = (r, ks') ->
    event_step ({| t_process := p; t_holds := h; t_prog := Op e k |}, ks) (after p h e r (k r) ks ks', ks')
| es_reply_lost p h X (e : event X) k ks r ks' :
    @run_event MemRedis _ e ks = (r, ks') ->
    event_step ({| t_process := p; t_holds := h; t_prog := Op e k |}, ks)
               (after p h e (Err lost_reply) (k (Err lost_reply)) ks ks', ks')
| es_not_sent p h X (e : event X) k ks :
    event_step ({| t_process := p; t_holds := h; t_prog := Op e k |}, ks)
               (after p h e (Err lost_reply) (k (Err lost_reply)) ks ks, ks).

(** What may start: a worker, or a program that leaves the claims alone. *)
Inductive starts (stopped : gset string) : task -> Prop :=
| st_worker p q : p ∉ stopped -> worker_program requested p q ->
    starts stopped {| t_process := p; t_holds := false; t_prog := q |}
| st_peer p q : p ∉ stopped -> peer_program requested J until stopped q ->
    starts stopped {| t_process := p; t_holds := false; t_prog := q |}.

Inductive world_step : world -> world -> Prop :=
| w_start ks ts stopped t :
    starts stopped t -> world_step (Build_world ks ts stopped) (Build_world ks (t :: ts) stopped)
| w_event ks ks' ts1 t t' ts2 stopped :
    event_step (t, ks) (t', ks') ->
    world_step (Build_world ks (ts1 ++ t :: ts2) stopped) (Build_world ks' (ts1 ++ t' :: ts2) stopped)
| w_stop ks ts stopped p :
    world_step (Build_world ks ts stopped)
               (Build_world ks (filter (fun t => t_process t <> p) ts) ({[ p ]} ∪ stopped)).

(** Forgetting who holds what, a step of a task is a step of a client. *)
Lemma event_step_client t ks t' ks' : event_step (t, ks) (t', ks') -> client_step (t_prog t, ks) (t_prog t', ks').
Proof. intros H. inversion H; subst; cbn; by econstructor. Qed.

(** ** The invariant *)

Local Abbreviation holding ts := (filter (fun t => t_holds t = true) ts).

Definition task_ok (stopped : gset string) (ks : keyspace) (t : task) : Prop :=
  (t_process t ∉ stopped) /\ owns stopped (t_process t) (t_holds t) (t_prog t) (fun _ _ => True) /\
  (t_holds t = true -> 0 < claims_of (t_process t) ks).

Definition world_ok (w : world) : Prop :=
  once (w_keys w) /\ Forall (task_ok (w_stopped w) (w_keys w)) (w_tasks w) /\ length (holding (w_tasks w)) <= 1.

(** What a step is: an event with its reply, and whether it acted. *)
Lemma event_step_inv t ks t' ks' : event_step (t, ks) (t', ks') ->
  exists X (e : event X) k r, t_prog t = Op e k /\ t' = after (t_process t) (t_holds t) e r (k r) ks ks' /\
    ((r, ks') = @run_event MemRedis _ e ks \/ (r = Err lost_reply /\ (ks' = snd (@run_event MemRedis _ e ks) \/ ks' = ks))).
Proof.
  intros Hstep. inversion Hstep as [p h X e k ? r ? Hrun|p h X e k ? r ? Hrun|p h X e k ?]; subst; cbn; do 4 eexists;
    (split; [done|split; [done|]]); [by left|right..]; (split; [done|]); [left; by rewrite Hrun|by right].
Qed.

Lemma hands_over_err {X} (e : event X) err : hands_over e (Err err) = false.
Proof. destruct e as [|X c| |]; try done. by destruct c. Qed.

(** An event of one task: it keeps [once]; unless the task held [J], no running
    process loses a claim; a task that holds [J] afterwards held it before, or
    nobody did. *)
Lemma event_step_ok stopped t ks t' ks' : once ks -> task_ok stopped ks t -> event_step (t, ks) (t', ks') ->
  once ks' /\ task_ok stopped ks' t' /\
  (t_holds t = false -> forall p, p ∉ stopped -> claims_of p ks <= claims_of p ks') /\
  (t_holds t' = true -> t_holds t = true \/ forall p, claims_of p ks = 0).
Proof.
  intros Hk (Hp & Ho & Hc) Hstep.
  apply event_step_inv in Hstep as (X & e & k & r & Eprog & -> & Hr).
  assert (reply_held requested J until (t_process t) (t_holds t) e r) as Hreply.
  { destruct Hr as [Hr|[-> _]]; [|by left]. right. exists ks. split_and!; [done..|]. by rewrite <- Hr. }
  assert (ks' = ks \/ ks' = snd (@run_event MemRedis _ e ks)) as Hks'.
  { destruct Hr as [Hr|[_ [->| ->]]]; [right; by rewrite <- Hr|by right|by left]. }
  rewrite Eprog in Ho. unfold task_ok, after. cbn [t_process t_holds t_prog].
  destruct Ho as [[He Hcont]|[[He Hcont]|(Hh & He & Hcont)]].
  - assert (steady requested J until stopped ks ks') as Hs by (destruct Hks' as [->| ->]; [apply steady_refl|apply He]).
    destruct (Hs Hk) as [Hk' Hd]. assert (forall p, p ∉ stopped -> claims_of p ks <= claims_of p ks') as Hmono
      by (intros; by eapply steady_claims).
    pose proof (Hmono _ Hp) as Hown. rewrite (proj1 He). rewrite (proj2 (Nat.ltb_ge _ _) Hown). rewrite andb_true_r. cbn [orb].
    split_and!; [done..|by apply Hcont|intros Hh; specialize (Hc Hh); lia|done|by left].
  - assert (once ks' /\ (forall p, claims_of p ks <= claims_of p ks') /\
      (hands_over e r = true -> (forall p, claims_of p ks = 0) /\ 0 < claims_of (t_process t) ks')) as (Hk' & Hmono & Hgot).
    { pose proof (He ks Hk) as Ht. pose proof (takes_claims requested J until (t_process t) e ks He Hk) as Htc.
      destruct (@run_event MemRedis _ e ks) as [r0 ks0]. cbn in *. destruct Ht as [? _], Htc.
      destruct Hr as [[= -> ->]|[-> [->| ->]]]; [done|..]; rewrite hands_over_err; by split_and!. }
    pose proof (Hmono (t_process t)) as Hown. rewrite (proj2 (Nat.ltb_ge _ _) Hown), andb_true_r.
    split_and!; [done..| | | |].
    + rewrite orb_comm. by apply Hcont.
    + intros [Hh|Hh]%orb_prop; [by apply Hgot|specialize (Hc Hh); lia].
    + intros _ p _. apply Hmono.
    + intros [Hh|Hh]%orb_prop; [right; by apply Hgot|by left].
  - assert (once ks') as Hk'.
    { destruct Hks' as [->| ->]; [done|]. apply (proj2 He); auto. }
    rewrite (proj1 He). cbn [orb]. split_and!; [done..|apply Hcont| |congruence|by left].
    rewrite Hh. cbn [andb]. intros Hn%negb_true_iff. apply Nat.ltb_ge in Hn. specialize (Hc Hh). lia.
Qed.

Lemma owns_more stopped stopped' p {A} (q : prog A) Q : stopped ⊆ stopped' ->
  forall h, owns stopped p h q Q -> owns stopped' p h q Q.
Proof.
  intros Hsub. induction q as [a|X e k IH]; intros h; cbn; [done|].
  intros [[He Hk]|[[He Hk]|(Hh & He & Hk)]]; [left|right; left|right; right]; [|by split; auto..].
  split; [|auto]. destruct He as [Hho He]. split; [done|]. intros ks Hks. destruct (He ks Hks) as [? Hd]. split; [done|].
  by eapply drifts_mono.
Qed.

Lemma starts_ok stopped ks t : starts stopped t -> task_ok stopped ks t /\ t_holds t = false.
Proof.
  intros [p q Hp Hq|p q Hp Hq]; (split; [|done]); split_and!; try done; cbn.
  - by apply worker_program_owns.
  - apply owns_calm; [by apply peer_program_calm|done].
Qed.

Lemma length_filter_filter {A} (P Q : A -> Prop) `{!forall a, Decision (P a), !forall a, Decision (Q a)} l :
  length (filter P (filter Q l)) <= length (filter P l).
Proof.
  induction l as [|a l IH]; [done|]. rewrite (filter_cons Q). destruct (decide (Q a)); rewrite !(filter_cons P);
    destruct (decide (P a)); cbn; lia.
Qed.

Lemma world_step_ok w w' : world_step w w' -> world_ok w -> world_ok w'.
Proof.
  intros Hstep (Hk & Hts & Hlen). inversion Hstep as [ks ts stopped t Ht|ks ks' ts1 t t' ts2 stopped Hev|ks ts stopped p]; subst;
    cbn [w_keys w_tasks w_stopped] in *; unfold world_ok; cbn [w_keys w_tasks w_stopped].
  - destruct (starts_ok stopped ks t Ht) as [Hok Hh]. split_and!; [done|by constructor|].
    rewrite filter_cons_False by (by rewrite Hh). done.
  - apply Forall_app in Hts as [H1 [Ht H2]%Forall_cons].
    destruct (event_step_ok stopped t ks t' ks' Hk Ht Hev) as (Hk' & Ht' & Hmono & Hnew).
    rewrite filter_app, filter_cons, length_app in Hlen.
    assert (forall u, u ∈ ts1 ++ ts2 -> task_ok stopped ks u -> t_holds u = true -> t_holds t = false) as Hothers.
    { intros u Hu _ Hh. destruct (t_holds t) eqn:E; [|done]. exfalso. rewrite decide_True in Hlen by done. cbn in Hlen.
      assert (0 < length (holding (ts1 ++ ts2))) as Hpos.
      { assert (u ∈ holding (ts1 ++ ts2)) as Hin by (by apply list_elem_of_filter).
        destruct (holding (ts1 ++ ts2)); [by apply elem_of_nil in Hin|cbn; lia]. }
      rewrite filter_app, length_app in Hpos. lia. }
    assert (forall u, u ∈ ts1 ++ ts2 -> task_ok stopped ks u -> task_ok stopped ks' u) as Hkeep.
    { intros u Hu Hok. pose proof Hok as (Hp & Ho & Hc). split_and!; [done..|]. intros Hh.
      specialize (Hmono (Hothers u Hu Hok Hh) _ Hp). specialize (Hc Hh). lia. }
    rewrite Forall_forall in H1. rewrite Forall_forall in H2. split_and!; [done| |].
    + apply Forall_app. split; [|constructor; [done|]]; apply Forall_forall; intros u Hu; apply Hkeep; try (apply elem_of_app); auto.
    + rewrite filter_app, filter_cons, length_app. destruct (t_holds t') eqn:Eh; [|rewrite decide_False by done].
      2: { destruct (decide (t_holds t = true)); cbn in Hlen; lia. }
      rewrite decide_True by done. destruct (Hnew eq_refl) as [Hh|Hzero].
      { rewrite decide_True in Hlen by done. cbn in *. lia. }
      assert (holding (ts1 ++ ts2) = []) as Hnone.
      { apply elem_of_nil_inv. intros u [Hh Hu]%list_elem_of_filter. specialize (Hzero (t_process u)).
        assert (task_ok stopped ks u) as (_ & _ & Hc) by (apply elem_of_app in Hu as [?|?]; auto).
        specialize (Hc Hh). lia. }
      rewrite filter_app in Hnone. apply app_nil in Hnone as [-> ->]. done.
  - split_and!; [done| |].
    + apply Forall_forall. intros u [Hne Hu]%list_elem_of_filter. rewrite Forall_forall in Hts.
      destruct (Hts u Hu) as (Hp & Ho & Hc). split_and!; [set_solver| |done]. eapply owns_more; [|exact Ho]. set_solver.
    + etrans; [apply length_filter_filter|exact Hlen].
Qed.

Lemma reachable_ok w0 w : once (w_keys w0) -> w_tasks w0 = [] -> rtc world_step w0 w -> world_ok w.
Proof.
  intros H0 Hnil Hrun. assert (world_ok w0) as Hw by (split_and!; [done|rewrite Hnil; constructor|rewrite Hnil; cbn; lia]).
  clear H0 Hnil. induction Hrun as [|w1 w2 w3 Hstep _ IH]; [done|]. by eapply IH, world_step_ok.
Qed.
End World.

(** ** Undisturbed runs

    The first [n] events of a task that nothing disturbs. *)
Fixpoint follow (requested J p : string) (n : nat) (h : bool) (q : prog unit) (ks : keyspace) {struct n} : task * keyspace :=
  match n, q with
  | Datatypes.S n, Op e k =>
      let '(r, ks') := @run_event MemRedis _ e ks in
      follow requested J p n (t_holds (after requested J p h e r (k r) ks ks')) (k r) ks'
  | _, _ => ({| t_process := p; t_holds := h; t_prog := q |}, ks)
  end.

Lemma follow_steps {S : Serde} {LS : LawfulSerde S} requested J until p n : forall h q ks ts stopped,
  rtc (world_step requested J until) (Build_world ks ({| t_process := p; t_holds := h; t_prog := q |} :: ts) stopped)
    (Build_world (snd (follow requested J p n h q ks)) (fst (follow requested J p n h q ks) :: ts) stopped).
Proof.
  induction n as [|n IH]; intros h q ks ts stopped; [apply rtc_refl|]. cbn [follow]. destruct q as [a|X e k]; [apply rtc_refl|].
  destruct (@run_event MemRedis _ e ks) as [r ks'] eqn:E. eapply rtc_l; [|apply IH].
  apply (w_event _ _ _ _ _ [] _ _ ts). by apply es_answered.
Qed.

Definition has_event {A} (q : prog A) : bool := match q with Op _ _ => true | Ret _ => false end.
Lemma follow_one {S : Serde} {LS : LawfulSerde S} requested J until t ks ts stopped : has_event (t_prog t) = true ->
  let next := follow requested J (t_process t) 1 (t_holds t) (t_prog t) ks in
  world_step requested J until (Build_world ks (t :: ts) stopped) (Build_world (snd next) (fst next :: ts) stopped).
Proof.
  destruct t as [p h q]. cbn [t_prog t_process t_holds follow]. destruct q as [a|X e k]; [done|]. intros _.
  destruct (@run_event MemRedis _ e ks) as [r ks'] eqn:E. apply (w_event _ _ _ _ _ [] _ _ ts). by apply es_answered.
Qed.

(** A task that starts and is then followed. *)
Lemma start_and_follow {S : Serde} {LS : LawfulSerde S} requested J until p n q w0 ks ts stopped :
  rtc (world_step requested J until) w0 (Build_world ks ts stopped) ->
  starts requested J until stopped {| t_process := p; t_holds := false; t_prog := q |} ->
  rtc (world_step requested J until) w0
    (Build_world (snd (follow requested J p n false q ks)) (fst (follow requested J p n false q ks) :: ts) stopped).
Proof.
  intros H0 Hs. etrans; [exact H0|]. eapply rtc_l; [by apply w_start|]. apply follow_steps.
Qed.


(** Two clients enqueue the same unique job; a worker that has claimed it is
    about to settle it. *)
Definition unique_job : JobEnvelope := sample_envelope "a" "q" true None.
Definition client_task : prog unit := pbind (enqueue sample_storage 3 unique_job) (fun _ => Ret tt).
Definition worker_task : prog unit :=
  serve sample_storage
    {| cr_config := as_static "q"; cr_queue := "q"; cr_dequeue_timeout := 0; cr_fallback_wait := 0;
       cr_world := Build_pop_world 0 0 0 [] []; cr_cancelled := false; cr_attempts := [] |}
    (fun _ => Ok {| p_len := 1; p_job_name := "w"; p_worker_name := "w"; p_max_retries := fun _ => 2%Z;
                    p_retry_delay := fun _ _ => 5%Z; p_should_resume := true; p_process := ExecSuccess |})
    {| ee_describe := fun _ => ""; ee_duration_ms := 1; ee_start := 1; ee_finish := 1 |}.

Lemma client_task_peer : peer_program "app" "a" 0 ∅ client_task.
Proof. apply pp_bind; [|intros; apply pp_ret]. apply pp_enqueue; [done|]. split; [|done]. split; [done|]. by vm_compute. Qed.
Lemma worker_task_starts : starts "app" "a" 0 ∅ {| t_process := own_process_id sample_storage; t_holds := false; t_prog := worker_task |}.
Proof. apply st_worker; [done|]. apply wk_serve; [done..|]. split; [done|]. split; by vm_compute. Qed.
Lemma empty_once : once "app" "a" 0 ∅.
Proof. exists ∅. split_and!; [done|done|vm_compute; lia|done]. Qed.

