(* ===== verification/WorldTypes.v ===== *)
(** * The types of the keys, in a world of whole programs

    [Typing] shows that each operation keeps the type of every key, as long as
    the envelopes it is given have ordinary queue names. Here the operations
    are composed: what a worker settles is what it has read, so whole worker
    programs keep the types, and with the other programs of [World] every
    reachable world does. *)
From S2P Require Import Prelude Errors Redis Events Envelope Codec Queue Keys Scripts Storage Transitions Enqueue Recovery Throttle.
From S2P Require Import EnqueueScript Typing Executor Registry Dispatcher Coordinator Durability Places Moves Peers Exclusive Workers World.

Section WorldTypes.
Context {S : Serde} {LS : LawfulSerde S}.
Variable requested : string.
Local Abbreviation keys := (new_keys requested).
Local Abbreviation typed := (typed requested).
Local Abbreviation plain := (plain requested).
Local Abbreviation typed_prog := (typed_prog requested).
Local Abbreviation gives := (ensures typed (@event_typed _ requested)).
Local Abbreviation ordinary es := (Forall (fun e => plain (queue e)) es).

Section OneStorage.
Variable st : StorageInternal.
Hypothesis Hst : storage_namespace st = requested.

(** ** What a worker reads *)

Definition plain_found (r : result OxanaError (option JobEnvelope)) : Prop := forall e, r = Ok (Some e) -> plain (queue e).

Lemma gives_get_w_conn jid : gives (get_job_w_conn st jid) plain_found.
Proof.
  destruct (typed_get_job_w_conn requested st Hst jid) as [He _]. unfold get_job_w_conn, try, call, perform.
  cbn [pbind ensures]. split; [exact He|]. rewrite Hst. intros r [->|(ks & Hk & ->)]; [done|].
  pose proof (hget_payload requested jid) as Hg. destruct (fst _) as [[text|]|] eqn:E; cbn; [|done|done].
  specialize (Hg _ ks Hk E text eq_refl). intros e He'. destruct (parse_job text) as [e'|] eqn:Ep; [|done]. cbn in He'.
  simplify_eq. by eapply parsed_plain.
Qed.
Lemma gives_get_job jid : gives (get_job st jid) plain_found.
Proof.
  unfold get_job. eapply (ensures_try _ _ _ _ (fun _ => True)); [by cbn|intros _ _; apply gives_get_w_conn|done].
Qed.
Lemma gives_claimed_read_loop jid attempts : forall r, plain_found r -> gives (claimed_read_loop st jid attempts r) plain_found.
Proof.
  induction attempts as [|[] attempts IH]; intros [found|err] Hr; cbn [claimed_read_loop]; try done;
    destruct (transient_payload_read_error err); try done.
  eapply ensures_bind; [apply gives_get_job|]. intros r. apply IH.
Qed.
Lemma gives_get_claimed_job jid attempts : gives (get_claimed_job st jid attempts) plain_found.
Proof. unfold get_claimed_job. eapply ensures_bind; [apply gives_get_job|]. intros r. apply gives_claimed_read_loop. Qed.
(** ** Claiming *)

Lemma typed_claim_job q : plain q -> typed_prog (claim_job st q).
Proof.
  intros Hq. unfold claim_job, try_with, map_fail. apply guarded_pbind; [by apply guarded_pbind|]. intros [u|err]; [|done].
  apply guarded_pbind; [|done]. destruct (typed_dequeue requested st Hst q Hq) as [_ H]. apply (H (Ok tt)).
  right. exists ∅. split; [|done]. apply map_Forall_empty.
Qed.
Lemma typed_pop c q dequeue_timeout fallback_wait w : plain q -> (is_Some (throttle c) -> throttle_apart requested q) ->
  typed_prog (pop_queue_message st c q dequeue_timeout fallback_wait w).
Proof.
  intros Hq Ht. unfold pop_queue_message. destruct (throttle c) as [t|].
  - specialize (Ht ltac:(by eexists)). unfold pop_queue_message_w_throttle, try_with, map_fail. apply guarded_pbind.
    { apply guarded_pbind; [|done]. by apply typed_throttler. }
    intros [state|err]; [|done]. destruct (is_allowed state); [|done]. apply guarded_pbind; [by apply typed_claim_job|].
    intros [[jid|]|err]; [|done..]. apply guarded_pbind; [apply guarded_pbind; [by apply typed_get_claimed_job|done]|].
    intros [found|err]; [|done]. apply guarded_pbind; [apply guarded_pbind; [|done]|by intros [?|?]]. by apply typed_consume.
  - unfold pop_queue_message_wo_throttle, try_with. apply guarded_pbind; [by apply typed_claim_job|by intros [?|?]].
Qed.

Lemma gives_load jid cancelled attempts : gives (load_pending_job st jid cancelled attempts) plain_found.
Proof.
  unfold load_pending_job. destruct cancelled; [done|]. eapply ensures_bind; [apply gives_get_claimed_job|].
  intros [[e|]|err] Hr; [done| |done].
  apply (ensures_try _ _ _ _ (fun _ => True)); [|done..]. apply guarded_ensures; [by apply typed_delete_job|done].
Qed.
Lemma gives_claim_and_load r : round_ok requested r -> gives (claim_and_load st r) (fun found => forall e, found = Some e -> plain (queue e)).
Proof.
  intros [Hq Ht]. unfold claim_and_load. apply (ensures_bind _ _ _ _ (fun _ => True)).
  - apply guarded_ensures; [|done]. by apply typed_pop.
  - intros [[[jid|] d]|err] _; [|done..]. eapply ensures_bind; [apply gives_load|]. by intros [found|err'] Hf e; cbn; [intros ->; apply Hf|].
Qed.

(** ** Executing *)

Lemma typed_handle_err err_msg e delay max now : plain (queue e) -> typed_prog (handle_err st err_msg e delay max now).
Proof. intros He. unfold handle_err. destruct (_ <? _)%Z; [by apply typed_retry_in|by apply typed_kill]. Qed.
Lemma typed_handle_errs err_msg delay now js : ordinary js.*1 -> typed_prog (handle_errs st err_msg delay now js).
Proof.
  induction js as [|[e policy] js IH]; cbn [handle_errs fmap list_fmap]; [done|]. intros [He Hjs]%Forall_cons.
  apply guarded_pbind; [by apply typed_handle_err|]. intros [u|err]; [by apply IH|done].
Qed.
Lemma ordinary_zip es (ps : list JobExecutionPolicy) : ordinary es -> ordinary (zip es ps).*1.
Proof. intros He. revert ps. induction He as [|e es He _ IH]; intros [|p ps]; cbn; constructor; [done|apply IH]. Qed.
Lemma typed_finish_batch_result result_ es ps now : ordinary es -> typed_prog (finish_batch_result st result_ es ps now).
Proof.
  intros Hes. pose proof (ordinary_zip es ps Hes).
  unfold finish_batch_result. destruct result_; apply guarded_pbind; try done; [by apply typed_finish|by apply typed_handle_errs..].
Qed.
Lemma ordinary_meta f es : ordinary es -> ordinary (map_meta f <$> es).
Proof. intros Hes. by apply Forall_fmap. Qed.
Lemma typed_run_batch w es duration_ms now_start now_finish : ordinary es ->
  typed_prog (run_batch st w es duration_ms now_start now_finish).
Proof.
  intros Hes. unfold run_batch. destruct es as [|e es]; [done|]. case_decide; [done|].
  assert (ordinary (clear_state w (e :: es))) as Hc by (unfold clear_state; destruct (p_should_resume w); [done|by apply ordinary_meta]).
  unfold set_started_at_batch. apply (guarded_after _ _ _ _ (fun r => ordinary r.1)).
  - eapply ensures_bind; [apply (guarded_ensures _ _ _ (fun _ => True)); [|done]|].
    + apply typed_update_jobs; [done|]. by apply ordinary_meta.
    + intros r _. cbn. by apply ordinary_meta.
  - intros [es' [u|err]] Hes'; [|done]. apply guarded_pbind; [by apply typed_finish_batch_result|done].
Qed.
Lemma typed_process_pending_job describe built e duration_ms now_start now_finish : plain (queue e) ->
  typed_prog (process_pending_job st describe built e duration_ms now_start now_finish).
Proof.
  intros He. unfold process_pending_job. destruct built as [w|err]; apply guarded_try; try done; [|by apply typed_kill].
  apply typed_run_batch. by constructor.
Qed.
Lemma typed_kill_all err_msg es : ordinary es -> typed_prog (kill_all st err_msg es).
Proof. induction 1 as [|e es He _ IH]; cbn [kill_all]; [done|]. apply guarded_try; [by apply typed_kill|done]. Qed.
Lemma gives_kill_invalid worker_name invalid es : ordinary es -> forall index,
  gives (kill_invalid st worker_name invalid index es) (fun r => forall kept, r = Ok kept -> ordinary kept).
Proof.
  induction 1 as [|e es He _ IH]; intros index; cbn [kill_invalid]; [by cbn; intros kept [= <-]|].
  destruct (invalid !! index).
  - apply (ensures_try _ _ _ _ (fun _ => True)); [apply guarded_ensures; [by apply typed_kill|done]|intros; apply IH|done].
  - eapply ensures_try; [apply IH| |done]. cbn. intros kept Hk kept' [= <-]. constructor; [done|by apply Hk].
Qed.
Lemma typed_process_pending_batch describe built es duration_ms now_start now_finish : ordinary es ->
  typed_prog (process_pending_batch st describe built es duration_ms now_start now_finish).
Proof.
  intros Hes. unfold process_pending_batch. destruct es as [|e0 es0] eqn:E; [done|]. rewrite <- E in *. destruct built as [batch|err].
  - apply (guarded_after_try _ _ _ _ (fun r => forall kept, r = Ok kept -> ordinary kept)).
    + case_decide; [by cbn; intros kept [= <-]|by apply gives_kill_invalid].
    + intros kept Hk. destruct (bb_job batch); [|done]. apply guarded_try; [by apply typed_run_batch, Hk|done].
  - apply guarded_try; [by apply typed_kill_all|done].
Qed.

(** ** Worker programs *)

Lemma typed_serve r build x : round_ok requested r -> typed_prog (serve st r build x).
Proof.
  intros Hr. unfold serve. eapply guarded_after; [by apply gives_claim_and_load|]. intros [e|] He; [|done].
  apply guarded_pbind; [|done]. by apply typed_process_pending_job, He.
Qed.
Lemma gives_gather rs : Forall (round_ok requested) rs -> gives (gather st rs) (fun es => ordinary es).
Proof.
  induction 1 as [|r rs Hr _ IH]; cbn [gather]; [by cbn|]. eapply ensures_bind; [by apply gives_claim_and_load|].
  intros found Hf. eapply ensures_bind; [exact IH|]. intros es Hes. cbn. destruct found as [e|]; [|done].
  constructor; [by apply Hf|done].
Qed.
Lemma typed_serve_batch rs build x : Forall (round_ok requested) rs -> typed_prog (serve_batch st rs build x).
Proof.
  intros Hrs. unfold serve_batch. eapply guarded_after; [by apply gives_gather|]. intros es Hes.
  apply guarded_pbind; [by apply typed_process_pending_batch|done].
Qed.
Lemma typed_process_job build jid : typed_prog (process_job st build jid).
Proof.
  unfold process_job. eapply guarded_after_try; [apply gives_get_job|]. intros [e|] Hf; [|done].
  specialize (Hf e eq_refl). apply guarded_lift_try. intros w _.
  apply (guarded_after_try _ _ _ _ (fun r => forall e', r = Ok e' -> plain (queue e'))).
  - destruct (p_should_resume w); [by cbn; intros e' [= <-]|].
    apply (ensures_try _ _ _ _ (fun _ => True)); [|by cbn; intros _ _ e' [= <-]|done].
    apply guarded_ensures; [by apply typed_update_job|done].
  - intros e' He'. destruct (p_process w); [| |done]; (apply guarded_try; [|done]); [by apply typed_finish|by apply typed_kill, He'].
Qed.
Lemma typed_serve_drain {P : ProcessSerde} fuel build q now_ms now : plain q ->
  typed_prog (serve_drain st fuel build q now_ms now).
Proof.
  intros Hq. unfold serve_drain, drain. apply guarded_pbind; [|done]. apply guarded_try; [by apply typed_ping|]. intros _.
  apply guarded_pbind.
  - generalize empty_drain. induction fuel as [|fuel IH]; intros stats; cbn [drain_queue]; [done|].
    apply guarded_try; [by apply typed_dequeue|]. intros [jid|]; [|done]. apply guarded_try; [apply typed_process_job|].
    intros [r|panic]; [apply IH|done].
  - intros [[stats|panic]|err]; [|done|]; (apply guarded_try; [by apply typed_self_cleanup|done]).
Qed.
End OneStorage.

Lemma worker_program_typed p q : worker_program requested p q -> typed_prog q.
Proof.
  intros [st r build x Hst _ Hr|st rs build x Hst _ Hrs|P st fuel build q' now_ms now Hst _ Hq];
    [by apply typed_serve|by apply typed_serve_batch|by apply typed_serve_drain].
Qed.

(** ** The world *)

Variables (J : JobId) (until : Z).

Lemma typed_resurrect_processes st pids : storage_namespace st = requested -> typed_prog (resurrect_processes st pids).
Proof. intros Hst. induction pids as [|pid pids IH]; cbn [resurrect_processes]; [done|]. apply guarded_try; [|done].
  by apply typed_resurrect_process. Qed.

Lemma typed_allowed {A} (q : prog A) : typed_prog q -> guarded typed (@allowed _ requested) q.
Proof. apply guarded_impl. by left. Qed.

Lemma peer_program_allowed stopped {A} (q : prog A) : peer_program requested J until stopped q -> guarded typed (@allowed _ requested) q.
Proof.
  induction 1; [done|by apply guarded_pbind|by apply storage_program_allowed, sp_reads|..];
    try (apply storage_program_allowed; by constructor).
  all: repeat match goal with H : fit _ _ _ _ |- _ => destruct H as [? _] | H : newcomer _ _ _ _ |- _ => destruct H as [[? _] _] end.
  all: try (apply storage_program_allowed; by constructor).
  - by apply typed_allowed, typed_resurrect_processes.
  - apply storage_program_allowed, sp_enqueue_list; [done|]. eapply Forall_impl; [eassumption|]. by intros e [[? _] _].
Qed.

Definition task_typed (t : task) : Prop := guarded typed (@allowed _ requested) (t_prog t).
Definition world_typed (w : world) : Prop := typed (w_keys w) /\ Forall task_typed (w_tasks w).

Lemma starts_typed stopped t : starts requested J until stopped t -> task_typed t.
Proof.
  intros [p q _ Hq|p q _ Hq]; [by eapply typed_allowed, worker_program_typed|by eapply peer_program_allowed].
Qed.

Lemma world_step_typed w w' : world_step requested J until w w' -> world_typed w -> world_typed w'.
Proof.
  intros Hstep [Hk Ht]. inversion Hstep as [ks ts stopped t Hst|ks ks' ts1 t t' ts2 stopped Hev|ks ts stopped p]; subst;
    unfold world_typed in *; cbn [w_keys w_tasks] in *.
  - split; [done|]. constructor; [by eapply starts_typed|done].
  - apply Forall_app in Ht as [H1 [Ht H2]%Forall_cons].
    destruct (client_step_guarded _ _ (allowed_preserves requested) _ _ _ _ Ht Hk (event_step_client _ _ _ _ _ _ Hev)) as [Hk' Ht'].
    split; [done|]. apply Forall_app. split; [done|by constructor].
  - split; [done|]. apply Forall_forall. intros t [_ Hin]%list_elem_of_filter. rewrite Forall_forall in Ht. by apply Ht.
Qed.

(** Every keyspace a world reaches from a typed one is typed. *)
Lemma reachable_typed w0 w : typed (w_keys w0) -> w_tasks w0 = [] -> rtc (world_step requested J until) w0 w -> typed (w_keys w).
Proof.
  intros H0 Hnil Hrun. assert (world_typed w0) as Hw by (split; [done|by rewrite Hnil]).
  clear H0 Hnil. induction Hrun as [|w1 w2 w3 Hstep _ IH]; [apply Hw|]. by eapply IH, world_step_typed.
Qed.
End WorldTypes.

(** Everything that runs on a namespace: whole workers, and any programs made of
    the other operations. *)
Inductive namespace_program {S : Serde} {LS : LawfulSerde S} (requested : string) (q : prog unit) : Prop :=
| np_worker p : worker_program requested p q -> namespace_program requested q
| np_other : storage_program requested q -> namespace_program requested q.


