(* ===== verification/LifeCycle.v ===== *)
(** * The life cycle of a job

    An abstract specification: a job is nowhere, waits, or is claimed, and at
    most one process holds it; [life_step] has every change the system may make.
    The world of [World] refines it: each of its steps, whoever takes it and
    whatever is lost, is a step of the life cycle or leaves it as it is. *)
From S2P Require Import Prelude Errors Redis Envelope Codec Queue Keys Scripts Storage Transitions Durability Places Moves Peers Exclusive Workers World.
Open Scope nat_scope.

(** Where the job is, and the process that holds it. *)
Record life := Build_life { l_location : location; l_holder : option string }.

Inductive life_step (stopped : gset string) : life -> life -> Prop :=
| life_enqueued q : life_step stopped (Build_life Nowhere None) (Build_life (Queued q) None)
| life_delayed : life_step stopped (Build_life Nowhere None) (Build_life Scheduled None)
| life_due q : life_step stopped (Build_life Scheduled None) (Build_life (Queued q) None)
| life_retried q : life_step stopped (Build_life Retrying None) (Build_life (Queued q) None)
| life_claimed p q : p ∉ stopped ->
    life_step stopped (Build_life (Queued q) None) (Build_life (Claimed p) (Some p))
| life_claim_lost p q : p ∉ stopped ->
    life_step stopped (Build_life (Queued q) None) (Build_life (Claimed p) None)
| life_failed p : p ∉ stopped ->
    life_step stopped (Build_life (Claimed p) (Some p)) (Build_life Retrying None)
| life_settled p : p ∉ stopped ->
    life_step stopped (Build_life (Claimed p) (Some p)) (Build_life Nowhere None)
| life_halted p : p ∈ stopped ->
    life_step stopped (Build_life (Claimed p) (Some p)) (Build_life (Claimed p) None)
| life_recovered p q : p ∈ stopped ->
    life_step stopped (Build_life (Claimed p) None) (Build_life (Queued q) None).

Lemma drift_life stopped a b : drift stopped a b -> life_step stopped (Build_life a None) (Build_life b None).
Proof. intros []; by constructor. Qed.

Section LifeCycle.
Context {S : Serde} {LS : LawfulSerde S}.
Variables (requested : string) (J : JobId) (until : Z).
Local Abbreviation whereabouts := (whereabouts requested J).
Local Abbreviation once := (once requested J until).
Local Abbreviation claims_of := (claims_of requested J).
Local Abbreviation task_ok := (task_ok requested J until).
Local Abbreviation holding ts := (filter (fun t => t_holds t = true) ts).

Definition holders (ts : list task) : list string := t_process <$> holding ts.
Definition life_of (w : world) : life := Build_life (whereabouts (w_keys w)) (head (holders (w_tasks w))).

Lemma holders_app ts1 ts2 : holders (ts1 ++ ts2) = holders ts1 ++ holders ts2.
Proof. unfold holders. by rewrite filter_app, fmap_app. Qed.
Lemma holders_cons t ts : holders (t :: ts) = (if t_holds t then [t_process t] else []) ++ holders ts.
Proof. unfold holders. rewrite filter_cons. destruct (t_holds t); [by rewrite decide_True|by rewrite decide_False]. Qed.
Lemma holders_stop p ts : holders (filter (fun t => t_process t <> p) ts) = filter (fun p' => p' <> p) (holders ts).
Proof.
  induction ts as [|t ts IH]; [done|]. rewrite holders_cons, filter_app, filter_cons, <- IH.
  destruct (decide (t_process t <> p)) as [Hne|He]; [rewrite holders_cons; f_equal|];
    destruct (t_holds t); cbn [app]; rewrite ?filter_cons, ?filter_nil; by rewrite ?decide_True, ?decide_False by done.
Qed.
Lemma length_holders ts : length (holders ts) = length (holding ts).
Proof. apply length_fmap. Qed.

Lemma elem_of_holders p ts : p ∈ holders ts -> exists t, t ∈ ts /\ t_holds t = true /\ t_process t = p.
Proof. intros (t & -> & [Hh Ht]%list_elem_of_filter)%list_elem_of_fmap. eauto. Qed.

(** A holder of a consistent world runs, and the job is its claim. *)
Lemma holders_claim stopped ks ts p : once ks -> Forall (task_ok stopped ks) ts -> p ∈ holders ts ->
  (p ∉ stopped) /\ whereabouts ks = Claimed p.
Proof.
  intros Hk Hts (t & Ht & Hh & <-)%elem_of_holders. rewrite Forall_forall in Hts. destruct (Hts t Ht) as (Hp & _ & Hc).
  split; [done|]. apply (whereabouts_claim _ _ until); auto.
Qed.
Lemma no_holders stopped ks ts : once ks -> Forall (task_ok stopped ks) ts ->
  (forall p, p ∉ stopped -> whereabouts ks <> Claimed p) -> holders ts = [].
Proof.
  intros Hk Hts Hn. apply elem_of_nil_inv. intros p Hp. destruct (holders_claim _ _ _ _ Hk Hts Hp). by eapply Hn.
Qed.

(** What one event does to the job, and to the hold of its task. *)
Lemma event_step_life stopped t ks t' ks' : once ks -> task_ok stopped ks t -> event_step requested J (t, ks) (t', ks') ->
  let a := whereabouts ks in let b := whereabouts ks' in
  t_process t' = t_process t /\
  ((t_holds t' = t_holds t /\ drifts stopped a b) \/
   (exists q, a = Queued q /\ b = Claimed (t_process t) /\ t_holds t = false) \/
   (t_holds t = true /\ t_holds t' = false /\ (b = Nowhere \/ b = Retrying))).
Proof.
  intros Hk (Hp & Ho & Hc) Hstep a b. apply event_step_inv in Hstep as (X & e & k & r & Eprog & -> & Hr).
  rewrite Eprog in Ho. unfold after. cbn [t_process t_holds]. split; [done|].
  assert (forall h, hands_over J e r = false -> claims_of (t_process t) ks <= claims_of (t_process t) ks' ->
    hands_over J e r || h && negb (claims_of (t_process t) ks' <? claims_of (t_process t) ks) = h) as Hsame.
  { intros h -> Hle. rewrite (proj2 (Nat.ltb_ge _ _) Hle), andb_true_r. done. }
  destruct (decide (ks' = ks)) as [Eks|Hacted].
  { (* nothing happened: whatever the event, nobody was handed the job *)
    left. unfold b. rewrite Eks. split; [|by left]. rewrite <- Eks at 1. rewrite Hsame; [done| |by rewrite Eks].
    destruct Ho as [[He _]|[[He _]|(_ & He & _)]]; [by apply He| |by apply He].
    destruct Hr as [Hr|[-> _]]; [|by apply hands_over_err]. specialize (He ks Hk). rewrite <- Hr in He.
    destruct He as [_ He]. destruct (hands_over J e r); [|done]. destruct He as (q & H1 & H2). congruence. }
  assert (ks' = snd (@run_event MemRedis _ e ks)) as Hks'.
  { destruct Hr as [Hr|[_ [->| ->]]]; [by rewrite <- Hr|done..]. }
  destruct Ho as [[He _]|[[He _]|(Hh & He & _)]].
  - left. assert (steady requested J until stopped ks ks') as Hs by (rewrite Hks'; apply He).
    split; [|by apply Hs]. apply Hsame; [apply He|by eapply steady_claims].
  - pose proof (takes_claims requested J until (t_process t) e ks He Hk) as Htc. specialize (He ks Hk).
    destruct (@run_event MemRedis _ e ks) as [r0 ks0]. cbn in Hks'. subst ks0. destruct He as [_ He], Htc as [Hle _].
    destruct (hands_over J e r0) eqn:Eh.
    + right; left. destruct He as (q & H1 & H2). exists q. split_and!; [done..|]. destruct (t_holds t); [|done].
      specialize (Hc eq_refl). apply (whereabouts_claim _ _ until) in Hc; [|done]. unfold a in H1. congruence.
    + left. split; [|by left]. apply Hsame; [|apply Hle]. destruct Hr as [[= ->]|[-> _]]; [done|apply hands_over_err].
  - specialize (Hc Hh). destruct He as [Hho He]. destruct (He ks Hk Hc) as [Hk' Hs]. rewrite <- Hks' in Hk', Hs.
    pose proof (once_at requested J until ks (processing_queue (new_keys requested) (t_process t)) Hk) as Hone.
    destruct Hs as [Hs|Hs].
    + left. pose proof Hs as Hc'. apply (whereabouts_claim _ _ until) in Hc'; [|done].
      split; [apply Hsame; [apply Hho|unfold Places.claims_of in *; lia]|]. left. unfold a, b. rewrite Hs. symmetry.
      by apply (whereabouts_claim _ _ until).
    + right; right. split; [done|]. split; [|by destruct Hs as [?|?]; [left|right]]. rewrite Hho, Hh. cbn [orb andb].
      assert (claims_of (t_process t) ks' = 0) as ->.
      { destruct (decide (0 < claims_of (t_process t) ks')) as [H|]; [|lia]. apply (whereabouts_claim _ _ until) in H; [|done].
        destruct Hs; congruence. }
      by apply negb_false_iff, Nat.ltb_lt.
Qed.
Lemma head_none {A} (l : list A) : head l = None -> l = [].
Proof. by destruct l. Qed.

(** A job that is not claimed by a running process has no holder. *)
Lemma life_of_free w : world_ok requested J until w ->
  (forall p, p ∉ w_stopped w -> whereabouts (w_keys w) <> Claimed p) -> holders (w_tasks w) = [].
Proof. intros (Hk & Hts & _) Hn. by eapply no_holders. Qed.

Lemma drifts_life w b ks' : world_ok requested J until w -> b = whereabouts ks' -> drifts (w_stopped w) (whereabouts (w_keys w)) b ->
  let l := Build_life b (head (holders (w_tasks w))) in l = life_of w \/ life_step (w_stopped w) (life_of w) l.
Proof.
  intros Hw Hb [->|Hd] l; [by left|]. right. unfold l, life_of. rewrite (life_of_free w Hw).
  - by apply drift_life.
  - intros p Hp E. rewrite E in Hd. inversion Hd; subst. done.
Qed.

End LifeCycle.

