(* ===== verification/Progress.v ===== *)
(** * No job is ever stuck

    From every world that workers, clients, schedulers, recoveries and crashes
    can reach, a job that is somewhere can still be completed: what is claimed
    by a process that has stopped is recovered, what is delayed or failed comes
    back to its queue, and what waits in a queue is claimed and acknowledged
    once the jobs ahead of it have been. *)
From S2P Require Import Prelude Errors Redis Events Envelope Codec Queue Keys Scripts Storage Transitions Promotion Enqueue EnqueueScript Recovery RecoveryFacts.
From S2P Require Import Throttle Typing Executor Registry Dispatcher Coordinator Durability Places Moves Peers Exclusive Workers World WorldTypes LifeCycle.
Open Scope nat_scope.

Section Progress.
Context {S : Serde} {LS : LawfulSerde S}.
Variables (requested : string) (J : JobId) (until : Z).
Local Abbreviation keys := (new_keys requested).
Local Abbreviation once := (once requested J until).
Local Abbreviation typed := (typed requested).
Local Abbreviation plain := (plain requested).
Local Abbreviation whereabouts := (whereabouts requested J).
Local Abbreviation world_step := (world_step requested J until).

(** ** Undisturbed programs *)

Lemma run_steps p q : forall h ks ts stopped, exists h',
  rtc world_step (Build_world ks ({| t_process := p; t_holds := h; t_prog := q |} :: ts) stopped)
    (Build_world (snd (run_doc q ks)) ({| t_process := p; t_holds := h'; t_prog := Ret (fst (run_doc q ks)) |} :: ts) stopped).
Proof.
  induction q as [a|X e k IH]; intros h ks ts stopped; [exists h; apply rtc_refl|]. cbn [Redis.run].
  destruct (@run_event MemRedis _ e ks) as [r ks'] eqn:E.
  destruct (IH r (t_holds (after requested J p h e r (k r) ks ks')) ks' ts stopped) as [h' Hrun]. exists h'.
  eapply rtc_l; [|exact Hrun]. apply (w_event _ _ _ _ _ [] _ _ ts). by apply es_answered.
Qed.

(** What every reachable world has. *)
Definition sound (w : world) : Prop := world_ok requested J until w /\ world_typed requested w.

Lemma sound_steps w w' : sound w -> rtc world_step w w' -> sound w'.
Proof.
  intros Hw Hrun. induction Hrun as [|w1 w2 w3 Hstep _ IH]; [done|]. apply IH. destruct Hw as [Ho Ht].
  split; [by eapply world_step_ok|by eapply world_step_typed].
Qed.
Lemma sound_once w : sound w -> once (w_keys w).
Proof. by intros [[? _] _]. Qed.
Lemma sound_typed w : sound w -> typed (w_keys w).
Proof. by intros [_ [? _]]. Qed.

(** [w] can go on to a world whose keyspace satisfies [P], without a process stopping. *)
Definition can (w : world) (P : keyspace -> Prop) : Prop :=
  exists w', rtc world_step w w' /\ w_stopped w' = w_stopped w /\ P (w_keys w').

Lemma can_now w P : P (w_keys w) -> can w P.
Proof. intros H. exists w. split; [apply rtc_refl|done]. Qed.
Lemma can_then w P Q : sound w -> can w P ->
  (forall w', sound w' -> w_stopped w' = w_stopped w -> P (w_keys w') -> can w' Q) -> can w Q.
Proof.
  intros Hw (w1 & Hrun & Hs & HP) Hnext. destruct (Hnext w1) as (w2 & Hrun2 & Hs2 & HQ); [by eapply sound_steps|done..|].
  exists w2. split; [by etrans|]. split; [congruence|done].
Qed.
Lemma can_run w p q : starts requested J until (w_stopped w) {| t_process := p; t_holds := false; t_prog := q |} ->
  can w (fun ks => ks = snd (run_doc q (w_keys w))).
Proof.
  intros Hq. destruct w as [ks ts stopped]. destruct (run_steps p q false ks ts stopped) as [h' Hrun].
  eexists. split; [eapply rtc_l; [by apply w_start|exact Hrun]|done].
Qed.

(** A peer that runs alone moves the job only as it may. *)
Lemma calm_run stopped {A} (q : prog A) : calm_prog requested J until stopped q -> forall ks, steady requested J until stopped ks (snd (run_doc q ks)).
Proof.
  unfold calm_prog. induction q as [a|X e k IH]; intros Hq ks; cbn [Redis.run]; [apply steady_refl|]. cbn in Hq. destruct Hq as [He Hk].
  destruct (@run_event MemRedis _ e ks) as [r ks'] eqn:E. intros Hks.
  assert (steady requested J until stopped ks ks') as Hs by (pose proof (proj2 He ks) as Hs; by rewrite E in Hs).
  destruct (Hs Hks) as [Hks' _]. eapply steady_trans; [exact Hs| |done]. apply IH, Hk. right. exists ks. by rewrite E.
Qed.
Lemma typed_run {A} (q : prog A) ks : typed_prog requested q -> typed ks -> typed (snd (run_doc q ks)).
Proof.
  intros Hq Hks. destruct (clients_guarded _ _ (allowed_preserves requested) _ _ (run_is_interleaving q ks)) as [_ H]; [|done..].
  cbn. constructor; [by apply typed_allowed|done].
Qed.

(** ** A process that runs *)

Definition storage_of (uuid : string) : StorageInternal := new_storage (Some requested) false 0 uuid "" 0.

Lemma running_process (stopped : gset string) : exists uuid, own_process_id (storage_of uuid) ∉ stopped.
Proof.
  destruct (exist_fresh ({[ "" ]} ∪ list_to_set (omap (strip_prefix "-0-") (elements stopped)) : gset string)) as [uuid Hf].
  exists uuid. apply not_elem_of_union in Hf as [Hne%not_elem_of_singleton Hf]. rewrite elem_of_list_to_set, list_elem_of_omap in Hf.
  unfold own_process_id, process_id. cbn [instance_id current_process hostname pid storage_of new_storage storage_instance_id].
  rewrite decide_False by done. intros Hin. apply Hf. exists ("-0-" +:+ uuid).
  split; [apply elem_of_elements; exact Hin|apply strip_prefix_app].
Qed.

(** ** Where a job of a typed keyspace is *)

Lemma where_is_place ks k : once ks -> where_is requested J ks = Some k -> whereabouts ks = place_of requested k /\ 0 < at_place requested J k ks.
Proof. intros Hk H. split; [unfold Places.whereabouts; by rewrite H|by apply where_is_at]. Qed.

Lemma queued_in ks q : typed ks -> whereabouts ks = Queued q ->
  plain q /\ exists l, list_at ks (namespace_queue keys q) = Some l /\ J ∈ l.
Proof.
  intros Ht Hw. unfold Places.whereabouts in Hw. destruct (where_is requested J ks) as [k|] eqn:E; [|done]. cbn in Hw.
  apply where_is_at in E. unfold at_place in E. destruct (ks !! k) as [v|] eqn:Ek; [|cbn in E; lia]. cbn in E.
  destruct v as [s|b|h|l|z]; cbn in E; try lia.
  2: { destruct (zset_place requested k) eqn:Ez; [|lia]. apply bool_decide_eq_true in Ez as [->| ->];
         [by rewrite place_of_schedule in Hw|by rewrite place_of_retry in Hw]. }
  destruct (list_place requested k) eqn:El; [|lia]. unfold list_place in El. apply orb_prop in El as [El|El]; apply starts_with_true in El as [q0 ->].
  - rewrite string_app_assoc in Ek, Hw. change (":queue:" +:+ q0) with (":" +:+ ("queue:" +:+ q0)) in *.
    destruct (Ht _ _ Ek (in_namespace_app requested ("queue:" +:+ q0))) as [Hty _]. rewrite key_type_app in Hty.
    assert (plain q0) as Hq by (by apply (local_queue requested q0), (mk_is_Some _ _ Hty)).
    assert (namespace keys +:+ ":" +:+ "queue:" +:+ q0 = namespace_queue keys q0) as Ens by (by rewrite namespace_queue_plain).
    rewrite Ens in Ek, Hw. rewrite place_of_queue in Hw by done. injection Hw as ->. split; [done|]. exists l.
    split; [unfold list_at; by rewrite Ek|by apply occurrences_pos].
  - rewrite string_app_assoc in Hw.
    rewrite <- (processing_queue_eq requested q0) in Hw. by rewrite place_of_processing in Hw.
Qed.

Lemma delayed_in ks sq loc : sq = schedule keys /\ loc = Scheduled \/ sq = retry keys /\ loc = Retrying -> whereabouts ks = loc ->
  exists z score, zset_at ks sq = Some z /\ z !! J = Some score.
Proof.
  intros Hsq Hw. assert (loc = Scheduled \/ loc = Retrying) as Hloc by (destruct Hsq as [[_ ?]|[_ ?]]; auto).
  unfold Places.whereabouts in Hw. destruct (where_is requested J ks) as [k|] eqn:E; [|cbn in Hw; destruct Hloc; congruence].
  cbn in Hw. apply where_is_at in E. assert (k = sq) as ->.
  { unfold place_of in Hw. case_decide as H1; [destruct Hsq as [[-> ->]|[-> ->]]; congruence|].
    case_decide as H2; [destruct Hsq as [[-> ->]|[-> ->]]; congruence|]. destruct (strip_prefix _ k); destruct Hloc; congruence. }
  unfold at_place in E. destruct (ks !! sq) as [v|] eqn:Ek; [|cbn in E; lia]. cbn in E.
  assert (list_place requested sq = false) as Hnl by (destruct Hsq as [[-> _]|[-> _]]; [exact (list_place_app requested "schedule")|exact (list_place_app requested "retry")]).
  destruct v as [s|b|h|l|z]; cbn in E; try lia; [rewrite Hnl in E; lia|]. destruct (zset_place requested sq); [|lia].
  destruct (decide _) as [[score Hs]|]; [|lia]. exists z, score. split; [unfold zset_at; by rewrite Ek|done].
Qed.

(** ** Recovery *)

Lemma typed_list_at ks k : used_at requested (k, TList) -> in_namespace requested k = true -> typed ks -> is_Some (list_at ks k).
Proof. intros Hk Hn Hks. by apply (typed_aggregate requested ks Hks). Qed.
Lemma typed_queue ks q : plain q -> typed ks -> is_Some (list_at ks (namespace_queue keys q)).
Proof.
  intros Hq. apply typed_list_at; [by apply queue_used|]. rewrite namespace_queue_plain by done. apply (in_namespace_app requested ("queue:" +:+ q)).
Qed.
Lemma typed_processing ks p : typed ks -> is_Some (list_at ks (processing_queue keys p)).
Proof. apply typed_list_at; [apply processing_used|]. rewrite processing_queue_eq. apply (in_namespace_app requested ("processing:" +:+ p)). Qed.
Lemma typed_jobs ks : typed ks -> is_Some (hash_at ks (jobs keys)).
Proof. intros Hks. apply (typed_aggregate requested ks Hks); [apply jobs_used|apply (in_namespace_app requested "jobs")]. Qed.

(** Whatever the claims of a process are, the loop takes them off its list. *)
Lemma resurrect_claims_all st pid ids : storage_namespace st = requested -> forall ks count,
  typed ks -> list_at ks (processing_queue keys pid) = Some ids ->
  exists n ks', run_doc (resurrect_claims st (processing_queue keys pid) ids count) ks = (Ok n, ks') /\
    typed ks' /\ list_at ks' (processing_queue keys pid) = Some [].
Proof.
  intros Hst. induction ids as [|jid ids IH]; intros ks count Hks Hl; cbn [resurrect_claims]; [by exists count, ks|].
  destruct (typed_jobs ks Hks) as [h Hh]. rewrite run_pbind. unfold transition_snapshot. rewrite ?Hst. run_simp.
  assert (forall q payload should, plain q -> h !! jid = snapshot_arg payload ->
    exists n ks1, run_doc (perform (Script (resurrect_claim_lua (jobs keys) (processing_queue keys pid) (namespace_queue keys q) jid payload should))) ks = (Ok n, ks1) /\
      typed ks1 /\ list_at ks1 (processing_queue keys pid) = Some ids) as Hscript.
  { intros q payload should Hq Hp. destruct (typed_queue ks q Hq Hks) as [l Hlq].
    pose proof (event_typed_preserves requested _ (Script (resurrect_claim_lua (jobs keys) (processing_queue keys pid) (namespace_queue keys q) jid payload should))
      ltac:(by apply resurrect_typed) ks Hks) as Hty. revert Hty.
    rewrite run_script. cbn [run_event exec MemRedis]. erewrite resurrect_claim_run by (try eassumption; key_ne).
    rewrite decide_True by (split; [by left|done]). destruct (h !! jid) as [text|], should; cbn [fst snd map_err]; intros Hty;
      (eexists _, _; split; [done|]; split; [exact Hty|]); cbn [lrem lrem_first]; rewrite decide_True by done; ks_simp; by destruct ids. }
  destruct (h !! jid) as [text|] eqn:Et; cbn [fmap option_fmap option_map transpose].
  - destruct (typed_payloads _ _ _ Hks Hh jid text Et) as (e & He & Hq). unfold parse_job. rewrite He. cbn [map_err transpose res_map].
    destruct (Hscript (queue e) text (resurrect_flag (Some e)) Hq) as (n & ks1 & Hrun & Hk1 & Hl1).
    { unfold snapshot_arg. case_decide; [|done]. subst. by apply empty_not_json in He. }
    rewrite run_try. cbn [default queue_of from_option]. change (Datatypes.id text) with text. rewrite Hrun. by apply IH.
  - destruct (Hscript "" "" (resurrect_flag None)) as (n & ks1 & Hrun & Hk1 & Hl1); [apply empty_name_plain|done|].
    cbn [res_map]. rewrite run_try. cbn [default queue_of from_option]. rewrite Hrun. by apply IH.
Qed.

Lemma resurrect_process_all st pid ks : storage_namespace st = requested -> typed ks ->
  list_at (snd (run_doc (resurrect_processes st [pid]) ks)) (processing_queue keys pid) = Some [].
Proof.
  intros Hst Hks. cbn [resurrect_processes]. unfold resurrect_process. rewrite ?Hst. destruct (typed_processing ks pid Hks) as [ids Hl].
  run_simp. rewrite lrange_all. destruct (resurrect_claims_all st pid ids Hst ks 0 Hks Hl) as (n & ks1 & Hrun & Hk1 & Hl1).
  rewrite Hrun. run_simp. cbn [length].
  destruct (typed_aggregate requested ks1 Hk1) as (Ha & _ & Hz).
  destruct (Hz _ (processes_used requested) (in_namespace_app requested "processes")) as [procs Hp].
  destruct (Ha _ (processes_data_used requested) (in_namespace_app requested "processes_data")) as [data Hd].
  assert (processes keys <> processing_queue keys pid /\ processes_data keys <> processing_queue keys pid /\ processes keys <> processes_data keys)
    as (? & ? & ?).
  { split_and!; [apply (processes_ne_processing (storage_of ""))|apply (processes_data_ne_processing (storage_of ""))|
      apply (processes_ne_data (storage_of ""))]. }
  cbn [pipe Redis.run run_event exec MemRedis documented]. erewrite write_zset_ok by done.
  cbn [pbind Redis.run run_event exec MemRedis documented]. erewrite write_hash_ok by (by ks_simp). cbn. by ks_simp.
Qed.

(** ** Stages *)

Lemma run_then_done {A} (q : prog A) ks : snd (run_doc (pbind q (fun _ => Ret tt)) ks) = snd (run_doc q ks).
Proof. rewrite run_pbind. by destruct (run_doc q ks). Qed.

(** A peer may always run. *)
Lemma can_peer {A} w (q : prog A) : peer_program requested J until (w_stopped w) q ->
  can w (fun ks => ks = snd (run_doc q (w_keys w))).
Proof.
  intros Hq. destruct (running_process (w_stopped w)) as [uuid Hu].
  destruct (can_run w (own_process_id (storage_of uuid)) (pbind q (fun _ => Ret tt))) as (w' & Hrun & Hs & Hk).
  { apply st_peer; [done|]. apply pp_bind; [done|intros; apply pp_ret]. }
  exists w'. split; [done|]. split; [done|]. by rewrite Hk, run_then_done.
Qed.

(** What a peer leaves of a job that was not where it is meant to stay. *)
Lemma peer_moves {A} w (q : prog A) a : sound w -> peer_program requested J until (w_stopped w) q -> whereabouts (w_keys w) = a ->
  (forall ks, ks = snd (run_doc q (w_keys w)) -> once ks -> whereabouts ks <> a) ->
  a <> Nowhere -> can w (fun ks => exists q, whereabouts ks = Queued q).
Proof.
  intros Hw Hq Ha Hleft Hn. destruct (can_peer w q Hq) as (w' & Hrun & Hs & Hk). exists w'. split; [done|]. split; [done|].
  destruct (calm_run (w_stopped w) q ltac:(by apply peer_program_calm) (w_keys w) (sound_once w Hw)) as [Ho Hd].
  rewrite Hk. specialize (Hleft _ eq_refl Ho). rewrite Ha in Hd. destruct Hd as [Hd|Hd]; [done|].
  inversion Hd; subst; try done; eauto.
Qed.

Lemma recovers w p : sound w -> p ∈ w_stopped w -> whereabouts (w_keys w) = Claimed p ->
  can w (fun ks => exists q, whereabouts ks = Queued q).
Proof.
  intros Hw Hp Ha. apply (peer_moves w (resurrect_processes (storage_of "") [p]) (Claimed p)); [done| |done| |done].
  - apply pp_resurrect; [done|]. by constructor.
  - intros ks -> Ho Hc. apply (whereabouts_claim requested J until) in Hc; [|done]. unfold claims_of in Hc.
    rewrite (at_list requested J _ _ []) in Hc; [by destruct (list_place _ _) in Hc; cbn in Hc; lia|].
    by apply resurrect_process_all; [|apply sound_typed].
Qed.

(** ** What is due *)

Lemma typed_queues ks st h : storage_namespace st = requested -> typed ks -> hash_at ks (jobs keys) = Some h -> queues_typed st h ks.
Proof.
  intros Hst Hks Hh. split; rewrite Hst; [by apply typed_queue; [apply empty_name_plain|]|].
  intros jid q. unfold target. destruct (h !! jid) as [text|] eqn:Et; [|done].
  destruct (typed_payloads _ _ _ Hks Hh jid text Et) as (e & He & Hq). rewrite He. intros [= <-]. split; [done|]. by apply typed_queue.
Qed.
Lemma typed_readable ks h jid : typed ks -> hash_at ks (jobs keys) = Some h -> unreadable h jid = false.
Proof.
  intros Hks Hh. unfold unreadable. destruct (h !! jid) as [text|] eqn:Et; [|done].
  destruct (typed_payloads _ _ _ Hks Hh jid text Et) as (e & He & Hq). by rewrite He.
Qed.

(** A job that is not in the sorted set is not there. *)
Lemma left_set ks sq loc z : sq = schedule keys /\ loc = Scheduled \/ sq = retry keys /\ loc = Retrying ->
  zset_at ks sq = Some z -> z !! J = None -> whereabouts ks <> loc.
Proof. intros Hsq Hz HJ Hw. destruct (delayed_in ks sq loc Hsq Hw) as (z' & score & Hz' & HJ'). congruence. Qed.

(** The loop over due members takes them off their set. *)
Lemma promotion_takes sq due w z score :
  sq = schedule keys \/ sq = retry keys -> sound w -> zset_at (w_keys w) sq = Some z ->
  NoDup due.*1 -> Forall (fun p => z !! p.1 = Some p.2) due -> (J, score) ∈ due ->
  exists z', zset_at (snd (run_doc (promote_scheduled_jobs (storage_of "") sq due 0) (w_keys w))) sq = Some z' /\ z' !! J = None.
Proof.
  intros Hsq Hw Hz Hnd Hin HJ. destruct (typed_jobs (w_keys w) (sound_typed w Hw)) as [h Hh].
  destruct (promote_run (storage_of "") sq Hsq due (w_keys w) h z 0) as (ks' & Hrun & Hz' & _);
    [done|done|apply typed_queues; [done|by apply sound_typed|done]|done..|].
  rewrite Hrun. eexists. split; [exact Hz'|]. unfold promoted. apply map_lookup_filter_None. right. intros x _ Hn. apply Hn. cbn [fst].
  split; [apply list_elem_of_fmap; by exists (J, score)|]. by eapply typed_readable; [apply sound_typed|].
Qed.

Lemma becomes_due w z score : sound w -> whereabouts (w_keys w) = Scheduled -> zset_at (w_keys w) (schedule keys) = Some z ->
  z !! J = Some score -> (0 <= score)%Z -> can w (fun ks => exists q, whereabouts ks = Queued q).
Proof.
  intros Hw Ha Hz HJ Hscore. destruct (zrangebyscore_facts 0 score z) as [Hnd Hin].
  apply (peer_moves w (enqueue_scheduled (storage_of "") (schedule keys) score) Scheduled); [done|apply pp_promote; auto|done| |done].
  intros ks Hk Ho. destruct (promotion_takes (schedule keys) (zrangebyscore_pairs 0 score z) w z score) as (z' & Hz' & HJ'); [auto..| | |].
  - apply Forall_forall. intros [j sc] [? _]%Hin. done.
  - apply Hin. split; [done|lia].
  - apply (left_set ks (schedule keys) Scheduled z'); [by left| |done]. rewrite <- Hz'. f_equal. rewrite Hk.
    unfold enqueue_scheduled, connection. by run_simp.
Qed.

Lemma is_retried w z score : sound w -> whereabouts (w_keys w) = Retrying -> zset_at (w_keys w) (retry keys) = Some z ->
  z !! J = Some score -> can w (fun ks => exists q, whereabouts ks = Queued q).
Proof.
  intros Hw Ha Hz HJ. destruct (zset_sorted_facts z) as [Hnd Hin].
  apply (peer_moves w (retry_all_now (storage_of "")) Retrying); [done|by apply pp_retry_all|done| |done].
  intros ks Hk Ho. destruct (promotion_takes (retry keys) (zset_sorted z) w z score) as (z' & Hz' & HJ'); [auto..| | |].
  - apply Forall_forall. intros [j sc] [=]%Hin. done.
  - by apply Hin.
  - apply (left_set ks (retry keys) Retrying z'); [by right| |done]. rewrite <- Hz'. f_equal. rewrite Hk.
    unfold retry_all_now, connection. cbn [storage_of storage_namespace new_storage]. run_simp. by rewrite zrange_all.
Qed.

(** ** Serving a queue *)

(** A pop of [q] that is not throttled, and an execution that succeeds. *)
Definition plain_round (q : string) : claim_round :=
  {| cr_config := as_static q; cr_queue := q; cr_dequeue_timeout := 0; cr_fallback_wait := 0;
     cr_world := Build_pop_world 0 0 0 [] []; cr_cancelled := false; cr_attempts := [] |}.
Definition succeeds : Processable :=
  {| p_len := 1; p_job_name := ""; p_worker_name := ""; p_max_retries := fun _ => 0%Z;
     p_retry_delay := fun _ _ => 0%Z; p_should_resume := true; p_process := ExecSuccess |}.
Definition some_env : execution_env := {| ee_describe := fun _ => ""; ee_duration_ms := 0; ee_start := 0; ee_finish := 0 |}.
Definition serving (st : StorageInternal) (q : string) : prog unit := serve st (plain_round q) (fun _ => Ok succeeds) some_env.

(** The claim of a pop. *)
Lemma dequeued st q ks (js : job_store st ks) l x : plain q -> storage_namespace st = requested ->
  list_at ks (namespace_queue keys q) = Some (l ++ [x]) ->
  exists ks', run_doc (dequeue_w_conn st q) ks = (Ok (Some x), ks') /\ exists js' : job_store st ks',
    payloads js' = payloads js /\ list_at ks' (namespace_queue keys q) = Some l.
Proof.
  intros Hq Hst Hl. rewrite <- Hst in Hl, Hq.
  destruct (@dequeue_claims_oldest MemRedis mem_lawful st q ks js (l ++ [x]) Hq Hl) as (ks' & Hrun & js' & Hun & Hl' & _).
  change (@view MemRedis ks') with ks' in *. exists ks'. rewrite last_snoc in Hrun. rewrite removelast_last, Hst in Hl'.
  split; [by unfold dequeue, connection in Hrun; rewrite run_try, run_checkout in Hrun|].
  exists js'. split; [|done]. apply Hun. rewrite !not_elem_of_cons. split_and!; [key_ne|key_ne|apply not_elem_of_nil].
Qed.

Lemma popped_run st q ks x ks1 : run_doc (dequeue_w_conn st q) ks = (Ok (Some x), ks1) ->
  run_doc (pop_queue_message st (cr_config (plain_round q)) (cr_queue (plain_round q)) 0 0 (Build_pop_world 0 0 0 [] [])) ks =
    (Ok (Some x, 0%Z), ks1).
Proof.
  intros Hpop. cbn [plain_round cr_config cr_queue]. unfold pop_queue_message, pop_queue_message_wo_throttle, claim_job, try_with, map_fail, connection.
  cbn [throttle as_static]. rewrite !run_pbind, run_checkout. cbn [Redis.run map_err]. rewrite run_pbind, Hpop. done.
Qed.

(** The load of a claimed job: as stored, or, when its payload is gone, deleted. *)
Lemma loaded_run st x ks (js : job_store st ks) : storage_namespace st = requested -> typed ks ->
  match payloads js !! x with
  | Some text => exists e, from_str text = Ok e /\ plain (queue e) /\ run_doc (load_pending_job st x false []) ks = (Ok (Some e), ks)
  | None => exists ks', run_doc (load_pending_job st x false []) ks = (Ok None, ks') /\
      forall q, plain q -> list_at ks' (namespace_queue keys q) = list_at ks (namespace_queue keys q)
  end.
Proof.
  intros Hst Hks. unfold load_pending_job, get_claimed_job, get_job. rewrite !run_pbind. unfold connection. rewrite run_try, run_checkout.
  erewrite get_job_w_conn_run by apply (payloads_at _ _ js). destruct (payloads js !! x) as [text|] eqn:Ex.
  - pose proof (payloads_at _ _ js) as Hh. rewrite Hst in Hh. destruct (typed_payloads _ _ _ Hks Hh x text Ex) as (e & He & Hq).
    exists e. split_and!; [done|done|]. cbn. unfold parse_job. by rewrite He.
  - assert (named_queue (payloads js) x = None) as Hnone by (unfold named_queue; by rewrite Ex).
    destruct (@delete_job_removes MemRedis mem_lawful S st x ks js) as (ks' & Hrun & js' & _ & _ & _ & _ & _ & Hq).
    { intros [text Ht]. change (payloads js !! x = Some text) in Ht. congruence. }
    { intros q Hnq. change (named_queue (payloads js) x = Some q) in Hnq. congruence. }
    change (@view MemRedis ks') with ks' in *. exists ks'. split.
    + cbn [fmap option_fmap option_map transpose claimed_read_loop Redis.run]. by rewrite run_try, Hrun.
    + rewrite Hst in Hq. intros q Hpq. rewrite (Hq q Hpq), decide_False; [done|]. change (named_queue (payloads js) x <> Some q). congruence.
Qed.

(** The execution of a job that succeeds acknowledges it and leaves the queues alone. *)
Lemma executed_run st e ks : plain (queue e) -> storage_namespace st = requested -> typed ks ->
  let ks' := snd (run_doc (process_pending_job st (ee_describe some_env) (Ok succeeds) e 0 0 0) ks) in
  (forall q, plain q -> list_at ks' (namespace_queue keys q) = list_at ks (namespace_queue keys q)) /\
  forall h, hash_at ks' (jobs keys) = Some h -> h !! id e = None.
Proof.
  intros Hq Hst Hks. set (e' := map_meta (set_started_at (Some 0%Z)) e).
  destruct (typed_store requested st ks Hks Hst) as [js0 _]. destruct (payload_text_ok e') as (Hprint & _ & _).
  assert (exists ks1, run_doc (set_started_at_batch st 0 [e]) ks = (([e'], Ok tt), ks1) /\ typed ks1 /\
    forall q, plain q -> list_at ks1 (namespace_queue keys q) = list_at ks (namespace_queue keys q)) as (ks1 & Hrun1 & Hk1 & Hl1).
  { pose proof (typed_run (set_started_at_batch st 0 [e]) ks ltac:(by apply typed_set_started_at_batch; [|constructor]) Hks) as Hty.
    revert Hty. unfold set_started_at_batch, update_jobs. cbn [fmap list_fmap]. fold e'. cbn [collect]. rewrite Hprint. cbn [res_map res_bind].
    rewrite run_pbind. unfold claimed_connection. open_store js0. run_simp. cbn [Redis.run snd]. intros Hty. eexists.
    split; [done|]. split; [exact Hty|]. intros q' Hq'. rewrite <- Hst in *. by ks_simp. }
  destruct (typed_store requested st ks1 Hk1 Hst) as [js1 _].
  destruct (@finish_batch_acknowledges MemRedis mem_lawful st [e'] ks1 js1) as (ks2 & Hrun2 & js2 & Hun & Hp2 & _).
  change (@view MemRedis ks2) with ks2 in *. unfold process_pending_job, Executor.run, run_batch. cbn [p_len succeeds length].
  rewrite decide_False by (intros H; by apply H). unfold clear_state. cbn [p_should_resume succeeds]. rewrite run_try, run_pbind, Hrun1.
  cbn [p_process succeeds]. unfold finish_batch_result. rewrite run_pbind, run_pbind, Hrun2. cbn.
  split.
  - intros q' Hq'. rewrite <- (Hl1 q' Hq'). destruct Hun as [Hs _]. eapply same_except_at; [exact Hs|]. rewrite Hst.
    rewrite (own_queue requested st Hst). key_notin.
  - intros h Hh. pose proof (payloads_at _ _ js2) as Hh2. rewrite Hst in Hh2. rewrite Hh2 in Hh. injection Hh as <-.
    rewrite Hp2. by rewrite decide_True by (by left).
Qed.

(** One pop of a worker that runs alone takes the oldest entry off the queue;
    the job, if it is stored, is acknowledged. *)
Lemma serving_run st q ks l x : plain q -> storage_namespace st = requested -> typed ks ->
  list_at ks (namespace_queue keys q) = Some (l ++ [x]) ->
  list_at (snd (run_doc (serving st q) ks)) (namespace_queue keys q) = Some l /\
  forall h text e h', hash_at ks (jobs keys) = Some h -> h !! x = Some text -> from_str text = Ok e ->
    hash_at (snd (run_doc (serving st q) ks)) (jobs keys) = Some h' -> h' !! id e = None.
Proof.
  intros Hq Hst Hks Hl. destruct (typed_store requested st ks Hks Hst) as [js0 _].
  destruct (dequeued st q ks js0 l x Hq Hst Hl) as (ks1 & Hpop & js & Hp1 & Hl1).
  assert (typed ks1) as Hk1.
  { replace ks1 with (snd (run_doc (dequeue st q) ks)); [apply typed_run; [by apply typed_dequeue|done]|].
    unfold dequeue, connection. rewrite run_try, run_checkout, Hpop. done. }
  unfold serving, serve, claim_and_load. cbn [cr_dequeue_timeout cr_fallback_wait cr_world cr_cancelled cr_attempts plain_round].
  rewrite !run_pbind. rewrite (popped_run st q ks x ks1 Hpop), run_pbind.
  pose proof (loaded_run st x ks1 js Hst Hk1) as Hload. destruct (payloads js !! x) as [text|] eqn:Ex.
  - destruct Hload as (e & He & Hqe & Hrun). rewrite Hrun. cbn [Redis.run].
    destruct (executed_run st e ks1 Hqe Hst Hk1) as [Hl2 Hgone]. rewrite run_then_done. cbn [some_env ee_duration_ms ee_start ee_finish].
    split; [by rewrite Hl2|]. intros h text' e' h' Hh Ht He' Hh'.
    pose proof (payloads_at _ _ js0) as Hh0. rewrite Hst, Hh in Hh0. injection Hh0 as ->.
    rewrite Hp1 in Ex. replace e' with e by congruence. by apply Hgone.
  - destruct Hload as (ks2 & Hrun & Hl2). rewrite Hrun. cbn [Redis.run snd]. split; [by rewrite Hl2|].
    intros h text' e' h' Hh Ht. pose proof (payloads_at _ _ js0) as Hh0. rewrite Hst, Hh in Hh0. injection Hh0 as ->.
    rewrite Hp1 in Ex. congruence.
Qed.

(** ** From the queue to its completion *)

(** The job is nowhere and its payload is gone. *)
Definition completed (ks : keyspace) : Prop := whereabouts ks = Nowhere /\ stored (jobs keys) J ks = false.

Lemma gone_completed ks h : once ks -> hash_at ks (jobs keys) = Some h -> h !! J = None -> completed ks.
Proof.
  intros Ho Hh HJ. split; [|rewrite (stored_hash _ _ h) by done; apply bool_decide_eq_false; rewrite HJ; by intros [? ?]].
  destruct Ho as (h' & Hh' & _ & _ & Hnone). apply whereabouts_nowhere, Hnone. congruence.
Qed.

Lemma one_served w q l x : sound w -> plain q -> list_at (w_keys w) (namespace_queue keys q) = Some (l ++ [x]) ->
  exists w', rtc world_step w w' /\ w_stopped w' = w_stopped w /\ sound w' /\
    list_at (w_keys w') (namespace_queue keys q) = Some l /\ (x = J -> completed (w_keys w')).
Proof.
  intros Hw Hq Hl. destruct (running_process (w_stopped w)) as [uuid Hu].
  destruct (can_run w (own_process_id (storage_of uuid)) (serving (storage_of uuid) q)) as (w' & Hrun & Hs & Hk).
  { apply st_worker; [done|]. apply wk_serve; [done..|]. split; [done|]. by intros [? ?]. }
  assert (sound w') as Hw' by (by eapply sound_steps). exists w'. split_and!; [done..| |];
    destruct (serving_run (storage_of uuid) q (w_keys w) l x Hq eq_refl (sound_typed w Hw) Hl) as [Hl' Hgone]; rewrite <- Hk in Hl', Hgone; [done|].
  intros ->. destruct (sound_once w Hw) as (h & Hh & Hok & _ & Hnone). destruct (typed_jobs (w_keys w') (sound_typed w' Hw')) as [h' Hh'].
  destruct (h !! J) as [text|] eqn:Et.
  - destruct (Hok J text Et) as [[Hent Hparse] _]. destruct (Hparse eq_refl) as [e He]. destruct (Hent e He) as [Hid _].
    apply (gone_completed _ h'); [by apply sound_once|done|]. rewrite <- Hid. by apply (Hgone h text e).
  - exfalso. specialize (Hnone eq_refl). pose proof (at_place_le requested J (namespace_queue keys q) (w_keys w)) as Hle.
    rewrite (at_list requested J _ _ _ Hl), queue_place in Hle by done. rewrite occurrences_app, occurrences_cons in Hle.
    rewrite decide_True in Hle by done. lia.
Qed.

(** The jobs ahead are served first. *)
Lemma queue_served q behind : plain q -> forall w ahead, sound w -> list_at (w_keys w) (namespace_queue keys q) = Some (ahead ++ J :: behind) ->
  can w completed.
Proof.
  intros Hq. induction behind as [|x behind IH] using rev_ind; intros w ahead Hw Hl.
  - destruct (one_served w q ahead J Hw Hq Hl) as (w' & Hrun & Hs & _ & _ & Hc). exists w'. split_and!; auto.
  - rewrite app_comm_cons, app_assoc in Hl. destruct (one_served w q _ x Hw Hq Hl) as (w' & Hrun & Hs & Hw' & Hl' & _).
    destruct (IH w' ahead Hw' Hl') as (w2 & Hrun2 & Hs2 & Hc). exists w2. split; [by etrans|]. split; [congruence|done].
Qed.

Lemma queued_completes w q : sound w -> whereabouts (w_keys w) = Queued q -> can w completed.
Proof.
  intros Hw Ha. destruct (queued_in _ q (sound_typed w Hw) Ha) as (Hq & l & Hl & (ahead & behind & ->)%list_elem_of_split).
  by eapply queue_served.
Qed.
(** A job that is back on a queue. *)
Lemma requeued_completes w : sound w -> can w (fun ks => exists q, whereabouts ks = Queued q) -> can w completed.
Proof. intros Hw Hc. eapply can_then; [done|exact Hc|]. intros w' Hw' _ [q Hq]. by eapply queued_completes. Qed.

(** A claim is recovered once its process has stopped. *)
Lemma claimed_completes w p : sound w -> whereabouts (w_keys w) = Claimed p ->
  exists w', rtc world_step w w' /\ completed (w_keys w') /\ (w_stopped w' = w_stopped w \/ w_stopped w' = {[ p ]} ∪ w_stopped w).
Proof.
  intros Hw Ha. destruct (decide (p ∈ w_stopped w)) as [Hp|Hp].
  - destruct (requeued_completes w Hw) as (w' & Hrun & Hs & Hc); [by eapply recovers|]. exists w'. auto.
  - set (w1 := Build_world (w_keys w) (filter (fun t => t_process t <> p) (w_tasks w)) ({[ p ]} ∪ w_stopped w)).
    assert (rtc world_step w w1) as Hstop by (apply rtc_once; destruct w; constructor).
    assert (sound w1) as Hw1 by (by eapply sound_steps).
    destruct (requeued_completes w1 Hw1) as (w' & Hrun & Hs & Hc); [apply (recovers w1 p); [done|cbn; set_solver|done]|].
    exists w'. split; [by etrans|]. auto.
Qed.

Lemma anywhere_completes w : sound w -> whereabouts (w_keys w) <> Nowhere ->
  (forall z score, zset_at (w_keys w) (schedule keys) = Some z -> z !! J = Some score -> (0 <= score)%Z) ->
  exists w', rtc world_step w w' /\ completed (w_keys w') /\
    (w_stopped w' = w_stopped w \/ exists p, whereabouts (w_keys w) = Claimed p /\ w_stopped w' = {[ p ]} ∪ w_stopped w).
Proof.
  intros Hw Hn Hscore. destruct (whereabouts (w_keys w)) as [|q|p| |] eqn:Ha; [done|..].
  - destruct (queued_completes w q Hw Ha) as (w' & ? & ? & ?). eauto.
  - destruct (claimed_completes w p Hw Ha) as (w' & ? & ? & [?|?]); eauto 8.
  - destruct (delayed_in (w_keys w) (schedule keys) Scheduled) as (z & score & Hz & HJ); [by left|done|].
    destruct (requeued_completes w Hw) as (w' & ? & ? & ?); [eapply becomes_due; eauto|]. eauto.
  - destruct (delayed_in (w_keys w) (retry keys) Retrying) as (z & score & Hz & HJ); [by right|done|].
    destruct (requeued_completes w Hw) as (w' & ? & ? & ?); [eapply is_retried; eauto|]. eauto.
Qed.
End Progress.

(** C4. No job is ever stuck. From every world that any workers, clients,
    schedulers, recoveries and crashes can reach, in any interleaving and with
    any replies lost, a job that is somewhere (waiting, delayed, failed, or
    claimed by a process that runs, has lost the reply of its claim or has
    stopped) can still be completed: the world can go on to one where it is
    nowhere, nobody holds it and its payload is gone; and for that no process
    has to stop but the one that has claimed it. *)
Theorem job_never_stuck {S : Serde} {LS : LawfulSerde S} requested J until w0 w :
  once requested J until (w_keys w0) -> typed requested (w_keys w0) -> w_tasks w0 = [] ->
  rtc (world_step requested J until) w0 w -> whereabouts requested J (w_keys w) <> Nowhere ->
  (forall z score, zset_at (w_keys w) (schedule (new_keys requested)) = Some z -> z !! J = Some score -> (0 <= score)%Z) ->
  exists w', rtc (world_step requested J until) w w' /\ life_of requested J w' = Build_life Nowhere None /\
    stored (jobs (new_keys requested)) J (w_keys w') = false /\
    (w_stopped w' = w_stopped w \/
     exists p, whereabouts requested J (w_keys w) = Claimed p /\ w_stopped w' = {[ p ]} ∪ w_stopped w).
Proof.
  intros Ho Ht Hnil Hrun Hn Hscore. assert (sound requested J until w) as Hw.
  { eapply sound_steps; [|exact Hrun]. split; [by eapply reachable_ok; [..|apply rtc_refl]|split; [done|by rewrite Hnil]]. }
  destruct (anywhere_completes requested J until w Hw Hn Hscore) as (w' & Hrun' & [Hnow Hgone] & Hs).
  exists w'. split_and!; [done| |done|done]. unfold life_of. rewrite Hnow. f_equal.
  assert (sound requested J until w') as [Hok _] by (by eapply sound_steps).
  erewrite life_of_free; [done|exact Hok|]. intros p _. by rewrite Hnow.
Qed.

(** Two clients have enqueued the same job, and a worker is in the middle of it. *)
Lemma job_never_stuck_witness :
  exists w w', rtc (world_step "app" "a" 0) (Build_world ∅ [] ∅) w /\
    whereabouts "app" "a" (w_keys w) = Claimed (own_process_id sample_storage) /\
    rtc (world_step "app" "a" 0) w w' /\ life_of "app" "a" w' = Build_life Nowhere None.
Proof.
  set (h1 := follow "app" "a" "client" 20 false client_task ∅).
  set (h2 := follow "app" "a" (own_process_id sample_storage) 3 false worker_task (snd h1)).
  set (w := Build_world (snd h2) [fst h2; fst h1] ∅).
  assert (rtc (world_step "app" "a" 0) (Build_world ∅ [] ∅) w) as Hrun.
  { apply start_and_follow; [apply start_and_follow; [apply rtc_refl|by apply st_peer, client_task_peer]|apply worker_task_starts]. }
  assert (whereabouts "app" "a" (w_keys w) = Claimed (own_process_id sample_storage)) as Hclaimed by (vm_compute; reflexivity).
  assert (zset_at (w_keys w) (schedule (new_keys "app")) = Some ∅) as Hempty by (vm_compute; reflexivity).
  destruct (job_never_stuck "app" "a" 0 (Build_world ∅ [] ∅) w empty_once (map_Forall_empty _) eq_refl Hrun) as (w' & Hrun' & Hlife & _).
  - rewrite Hclaimed. discriminate.
  - intros z score Hz HJ. rewrite Hempty in Hz. injection Hz as <-. by rewrite lookup_empty in HJ.
  - exists w, w'. split; [exact Hrun|]. split; [exact Hclaimed|]. split; [exact Hrun'|exact Hlife].
Defined.
