(* ===== verification/Pipeline.v ===== *)
(** * The way of a claimed job through a coordinator ([coordinator.rs]: [run],
    [route_job], [send_to_batcher], [spawn_batcher]; [run] of [dispatcher.rs])

    One coordinator as a transition system: a dispatcher per queue, each with
    the control of its queue; the bounded channel to the router; the batchers;
    the executions it spawned. A step is one await point of one task. What
    Redis answers, when clocks tick and when users stop the process is left
    open. [co_claimed], [co_settled] and [co_left] record what became of the
    claims: settled (finished, retried, killed, deleted) or given up by a task
    that failed or was cancelled; a claim given up, as far as it is still in the
    processing list, is left for recovery. *)
From S2P Require Import Prelude Errors Envelope Queue Storage Resilience Permits Executor Registry Dispatcher Coordinator.
Open Scope nat_scope.

(** [WorkerJob]: the claim and the queue whose control issued its permit. *)
Record WorkerJob := { wj_job_id : JobId; wj_permit : string }.
#[export] Instance worker_job_eq_dec : EqDecision WorkerJob.
Proof. solve_decision. Defined.

(** [PendingJob]: the job with its payload. *)
Record PendingJob := { pj_job : WorkerJob; pj_envelope : JobEnvelope }.

Record BatchKey := { bk_worker : string; bk_queue : string }.
#[export] Instance batch_key_eq_dec : EqDecision BatchKey.
Proof. solve_decision. Defined.
Definition from_envelope (e : JobEnvelope) : BatchKey := {| bk_worker := name (job e); bk_queue := queue e |}.

Inductive stage :=
| Acquiring
| Polling                    (* with a permit, in [pop_queue_message] *)
| Sending (jid : JobId)      (* with a permit and a claim *)
| Stopped.

Record batcher := {
  bt_key : BatchKey;
  bt_config : WorkerBatchConfig;
  bt_channel : list PendingJob;
  bt_state : batcher_state PendingJob;
}.

Record coordinator := {
  co_controls : gmap string QueueControlState;     (* queue_controls *)
  co_dispatchers : list (string * stage);
  co_channel : list WorkerJob;                     (* job_tx to job_rx *)
  co_receiving : bool;                             (* the router runs *)
  co_routing : option WorkerJob;                   (* in [route_job] *)
  co_batchers : list batcher;
  co_running : list (list PendingJob);             (* executions *)
  co_cancelled : bool;
  co_forced : bool;
  co_claimed : list WorkerJob;
  co_settled : list WorkerJob;
  co_left : list WorkerJob;
}.

(** ** Updates *)

Definition set_controls (v : gmap string QueueControlState) (s : coordinator) : coordinator :=
  let '(Build_coordinator _ d ch re ro b ru ca fo cl se le) := s in Build_coordinator v d ch re ro b ru ca fo cl se le.
Definition set_dispatchers (v : list (string * stage)) (s : coordinator) : coordinator :=
  let '(Build_coordinator co _ ch re ro b ru ca fo cl se le) := s in Build_coordinator co v ch re ro b ru ca fo cl se le.
Definition set_channel (v : list WorkerJob) (s : coordinator) : coordinator :=
  let '(Build_coordinator co d _ re ro b ru ca fo cl se le) := s in Build_coordinator co d v re ro b ru ca fo cl se le.
Definition set_routing (v : option WorkerJob) (s : coordinator) : coordinator :=
  let '(Build_coordinator co d ch re _ b ru ca fo cl se le) := s in Build_coordinator co d ch re v b ru ca fo cl se le.
Definition set_batchers (v : list batcher) (s : coordinator) : coordinator :=
  let '(Build_coordinator co d ch re ro _ ru ca fo cl se le) := s in Build_coordinator co d ch re ro v ru ca fo cl se le.
Definition set_running (v : list (list PendingJob)) (s : coordinator) : coordinator :=
  let '(Build_coordinator co d ch re ro b _ ca fo cl se le) := s in Build_coordinator co d ch re ro b v ca fo cl se le.
(** [fail] and [cancel_token.cancel()]. *)
Definition cancel (s : coordinator) : coordinator :=
  let '(Build_coordinator co d ch re ro b ru _ fo cl se le) := s in Build_coordinator co d ch re ro b ru true fo cl se le.
Definition force (s : coordinator) : coordinator :=
  let '(Build_coordinator co d ch re ro b ru ca _ cl se le) := s in Build_coordinator co d ch re ro b ru ca true cl se le.
Definition claim (j : WorkerJob) (s : coordinator) : coordinator :=
  let '(Build_coordinator co d ch re ro b ru ca fo cl se le) := s in Build_coordinator co d ch re ro b ru ca fo (j :: cl) se le.

(** Permits go out of scope. *)
Definition drop_permits (qs : list string) (s : coordinator) : coordinator :=
  set_controls (foldr (alter release) (co_controls s) qs) s.

(** Jobs leave the coordinator, with their permits. *)
Definition settle (js : list WorkerJob) (s : coordinator) : coordinator :=
  let '(Build_coordinator co d ch re ro b ru ca fo cl se le) := s in
  drop_permits (wj_permit <$> js) (Build_coordinator co d ch re ro b ru ca fo cl (js ++ se) le).
Definition leave (js : list WorkerJob) (s : coordinator) : coordinator :=
  let '(Build_coordinator co d ch re ro b ru ca fo cl se le) := s in
  drop_permits (wj_permit <$> js) (Build_coordinator co d ch re ro b ru ca fo cl se (js ++ le)).

(** The end of the router: [job_rx] is dropped with the jobs in it. *)
Definition stop_router (s : coordinator) : coordinator :=
  let '(Build_coordinator co d ch re ro b ru ca fo cl se le) := s in
  leave ch (Build_coordinator co d [] false ro b ru ca fo cl se le).

(** A claim whose dispatcher never learned of it: LMOVE may have committed. *)
Definition lose (q : string) (lost : option JobId) (s : coordinator) : coordinator :=
  let '(Build_coordinator co d ch re ro b ru ca fo cl se le) := s in
  match lost with
  | Some jid =>
      let j := {| wj_job_id := jid; wj_permit := q |} in Build_coordinator co d ch re ro b ru ca fo (j :: cl) se (j :: le)
  | None => s
  end.

(** ** Batchers *)

Definition new_batcher (key : BatchKey) (config : WorkerBatchConfig) : batcher :=
  {| bt_key := key; bt_config := config; bt_channel := []; bt_state := Coordinator.Running [] |}.
Definition bt_step (b : batcher) (ev : batcher_event PendingJob) : batcher_state PendingJob * list (list PendingJob) :=
  batcher_step (batch_size (bt_config b)) (bool_decide (batch_timeout (bt_config b) = 0%Z)) (bt_state b) ev.
Definition with_bt (channel : list PendingJob) (st : batcher_state PendingJob) (b : batcher) : batcher :=
  {| bt_key := bt_key b; bt_config := bt_config b; bt_channel := channel; bt_state := st |}.

(** What a batcher may receive, and its channel afterwards. *)
Inductive bt_receives (cancelled senders_gone : bool) (b : batcher) : batcher_event PendingJob -> list PendingJob -> Prop :=
| bt_job j rest : bt_channel b = j :: rest -> bt_receives cancelled senders_gone b (EvJob j) rest
| bt_closed : senders_gone = true -> bt_channel b = [] -> bt_receives cancelled senders_gone b EvClosed []
| bt_timeout : bt_receives cancelled senders_gone b EvTimeout (bt_channel b)
| bt_cancelled : cancelled = true -> bt_receives cancelled senders_gone b (EvCancelled (bt_channel b)) [].

(** ** Steps *)

Section Steps.
(** The queue configuration the coordinator was started for, and the batching
    of the registered workers. *)
Variable queue_config : QueueConfig.
Variable batch_of : string -> option WorkerBatchConfig.
(** The limits the queues are given, by the configuration or at run time. *)
Variable limit_allowed : string -> nat -> Prop.

Definition channel_capacity : nat := Nat.max (default_concurrency (concurrency queue_config)) 1.

Definition config_allowed (q : string) (config : QueueRuntimeConfig) : Prop :=
  exists n, rt_concurrency config = Some n /\ limit_allowed q n.

(** [run_queue_watcher], [run_queue_config_watcher]. *)
Inductive watcher_step : coordinator -> coordinator -> Prop :=
(** [run_queue_watcher] tracks a queue: its control is configured before its
    dispatcher is spawned. *)
| co_track s q config c m :
    q ∉ (co_dispatchers s).*1 -> config_allowed q config -> get_or_create q config (co_controls s) = (c, m) ->
    watcher_step s (set_dispatchers ((q, Acquiring) :: co_dispatchers s) (set_controls (<[q := apply_config config c]> m) s))
(** [run_queue_config_watcher]. *)
| co_configure s q c config :
    co_controls s !! q = Some c -> config_allowed q config ->
    watcher_step s (set_controls (<[q := apply_config config c]> (co_controls s)) s).

(** A dispatcher: [run], [acquire_while_running]. *)
Inductive dispatcher_step : coordinator -> coordinator -> Prop :=
(** [acquire_while_running]. *)
| co_acquire s d1 q d2 c c' :
    co_dispatchers s = d1 ++ (q, Acquiring) :: d2 -> co_cancelled s = false ->
    co_controls s !! q = Some c -> try_acquire c = Some c' ->
    dispatcher_step s (set_dispatchers (d1 ++ (q, Polling) :: d2) (set_controls (<[q := c']> (co_controls s)) s))
| co_stop_acquiring s d1 q d2 :
    co_dispatchers s = d1 ++ (q, Acquiring) :: d2 -> co_cancelled s = true ->
    dispatcher_step s (set_dispatchers (d1 ++ (q, Stopped) :: d2) s)
(** A pop that has ended. *)
| co_dispatched s d1 q d2 tolerance failures r jid failures' :
    co_dispatchers s = d1 ++ (q, Polling) :: d2 -> dispatcher_pass tolerance failures r = (Dispatched jid, failures') ->
    dispatcher_step s (claim {| wj_job_id := jid; wj_permit := q |} (set_dispatchers (d1 ++ (q, Sending jid) :: d2) s))
| co_idle s d1 q d2 tolerance failures r p failures' :
    co_dispatchers s = d1 ++ (q, Polling) :: d2 -> dispatcher_pass tolerance failures r = (p, failures') ->
    p = Idle \/ p = Backoff ->
    dispatcher_step s (drop_permits [q] (set_dispatchers (d1 ++ (q, Acquiring) :: d2) s))
| co_pop_failed s d1 q d2 tolerance failures r e failures' lost :
    co_dispatchers s = d1 ++ (q, Polling) :: d2 -> dispatcher_pass tolerance failures r = (Stop e, failures') ->
    (is_Some lost -> exists e, r = Err (ClaimError e)) ->
    dispatcher_step s (cancel (lose q lost (drop_permits [q] (set_dispatchers (d1 ++ (q, Stopped) :: d2) s))))
(** The cancelled pop is dropped, maybe after its LMOVE. *)
| co_stop_polling s d1 q d2 lost :
    co_dispatchers s = d1 ++ (q, Polling) :: d2 -> co_cancelled s = true ->
    dispatcher_step s (lose q lost (drop_permits [q] (set_dispatchers (d1 ++ (q, Stopped) :: d2) s)))
(** [job_tx.send]. *)
| co_send s d1 q jid d2 :
    co_dispatchers s = d1 ++ (q, Sending jid) :: d2 -> co_receiving s = true -> length (co_channel s) < channel_capacity ->
    dispatcher_step s (set_channel (co_channel s ++ [{| wj_job_id := jid; wj_permit := q |}])
               (set_dispatchers (d1 ++ (q, Acquiring) :: d2) s))
| co_stop_sending s d1 q jid d2 :
    co_dispatchers s = d1 ++ (q, Sending jid) :: d2 -> co_cancelled s = true ->
    dispatcher_step s (leave [{| wj_job_id := jid; wj_permit := q |}] (set_dispatchers (d1 ++ (q, Stopped) :: d2) s))
| co_receiver_closed s d1 q jid d2 :       (* "Job receiver closed unexpectedly" *)
    co_dispatchers s = d1 ++ (q, Sending jid) :: d2 -> co_receiving s = false -> co_cancelled s = false ->
    dispatcher_step s (cancel (leave [{| wj_job_id := jid; wj_permit := q |}] (set_dispatchers (d1 ++ (q, Stopped) :: d2) s))).

(** The router receives a job and loads it: [load_pending_job]. *)
Inductive load_step : coordinator -> coordinator -> Prop :=
| co_receive s j rest :
    co_receiving s = true -> co_routing s = None -> co_channel s = j :: rest ->
    load_step s (set_routing (Some j) (set_channel rest s))
| co_load_cancelled s j :
    co_routing s = Some j -> co_cancelled s = true -> load_step s (leave [j] (set_routing None s))
| co_load_missing s j :
    co_routing s = Some j -> load_step s (settle [j] (set_routing None s))
| co_load_failed s j :
    co_routing s = Some j -> load_step s (cancel (stop_router (leave [j] (set_routing None s)))).

(** [route_job]: a job that is not batched is an execution of its own. *)
Inductive route_step : coordinator -> coordinator -> Prop :=
| co_spawn s j e :
    co_routing s = Some j -> batch_of (name (job e)) = None ->
    route_step s (set_running (co_running s ++ [[{| pj_job := j; pj_envelope := e |}]]) (set_routing None s)).

(** [send_to_batcher]: the batcher of the key, a new one when there is none or it has ended. *)
Inductive send_to_batcher_step : coordinator -> coordinator -> Prop :=
| co_spawn_batcher s j e config :
    co_routing s = Some j -> batch_of (name (job e)) = Some config -> from_envelope e ∉ bt_key <$> co_batchers s ->
    send_to_batcher_step s (set_batchers (new_batcher (from_envelope e) config :: co_batchers s) s)
| co_batch s j e config b1 b b2 p :
    co_routing s = Some j -> batch_of (name (job e)) = Some config -> co_batchers s = b1 ++ b :: b2 ->
    bt_key b = from_envelope e -> bt_state b = Coordinator.Running p -> length (bt_channel b) < batch_size (bt_config b) * 2 ->
    send_to_batcher_step s (set_batchers (b1 ++ with_bt (bt_channel b ++ [{| pj_job := j; pj_envelope := e |}]) (bt_state b) b :: b2)
               (set_routing None s))
| co_batcher_gone s j e b1 b b2 :
    co_routing s = Some j -> co_batchers s = b1 ++ b :: b2 -> bt_key b = from_envelope e -> bt_state b = Finished ->
    send_to_batcher_step s (set_batchers (b1 ++ b2) s).

(** [run_batcher]. *)
Inductive run_batcher_step : coordinator -> coordinator -> Prop :=
| co_batcher s b1 b b2 p ev channel st batches :
    co_batchers s = b1 ++ b :: b2 -> bt_state b = Coordinator.Running p ->
    bt_receives (co_cancelled s) (negb (co_receiving s)) b ev channel -> bt_step b ev = (st, batches) ->
    run_batcher_step s (set_batchers (b1 ++ with_bt channel st b :: b2) (set_running (co_running s ++ batches) s)).

(** The tasks of the executions. *)
Inductive execution_step : coordinator -> coordinator -> Prop :=
(** [process_pending_job], [process_pending_batch]: an invalid job is killed, the
    execution ends, or it fails. *)
| co_killed s r1 p1 j p2 r2 :
    co_running s = r1 ++ (p1 ++ j :: p2) :: r2 ->
    execution_step s (settle [pj_job j] (set_running (r1 ++ (p1 ++ p2) :: r2) s))
| co_executed s r1 p r2 :
    co_running s = r1 ++ p :: r2 -> execution_step s (settle (pj_job <$> p) (set_running (r1 ++ r2) s))
| co_execution_failed s r1 p r2 :
    co_running s = r1 ++ p :: r2 -> execution_step s (cancel (leave (pj_job <$> p) (set_running (r1 ++ r2) s))).

(** The end of the coordinator, and the tokens. *)
Inductive lifecycle_step : coordinator -> coordinator -> Prop :=
(** Another task fails, or the process is asked to stop; the router leaves its
    loop; the deadline cancels what still runs. *)
| co_cancel s : lifecycle_step s (cancel s)
| co_stop_router s :
    co_receiving s = true -> co_cancelled s = true -> co_routing s = None -> lifecycle_step s (stop_router s)
| co_force s : co_cancelled s = true -> lifecycle_step s (force s)
| co_force_router s :
    co_forced s = true -> co_receiving s = true ->
    lifecycle_step s (stop_router (leave (option_list (co_routing s)) (set_routing None s)))
| co_force_batcher s b1 b b2 :
    co_forced s = true -> co_batchers s = b1 ++ b :: b2 ->
    lifecycle_step s (leave (pj_job <$> pending_of (bt_state b) ++ bt_channel b) (set_batchers (b1 ++ b2) s))
| co_force_running s r1 p r2 :
    co_forced s = true -> co_running s = r1 ++ p :: r2 -> lifecycle_step s (leave (pj_job <$> p) (set_running (r1 ++ r2) s)).

Inductive cstep (s s' : coordinator) : Prop :=
| cs_watch : watcher_step s s' -> cstep s s'
| cs_dispatch : dispatcher_step s s' -> cstep s s'
| cs_load : load_step s s' -> cstep s s'
| cs_route : route_step s s' -> cstep s s'
| cs_send : send_to_batcher_step s s' -> cstep s s'
| cs_batch : run_batcher_step s s' -> cstep s s'
| cs_execute : execution_step s s' -> cstep s s'
| cs_life : lifecycle_step s s' -> cstep s s'.

Definition co_start : coordinator :=
  {| co_controls := ∅; co_dispatchers := []; co_channel := []; co_receiving := true; co_routing := None;
     co_batchers := []; co_running := []; co_cancelled := false; co_forced := false;
     co_claimed := []; co_settled := []; co_left := [] |}.
End Steps.

(** ** What is in flight *)

Definition sending (d : string * stage) : list WorkerJob :=
  match d.2 with Sending jid => [{| wj_job_id := jid; wj_permit := d.1 |}] | _ => [] end.
Definition polls (d : string * stage) : list string := match d.2 with Polling => [d.1] | _ => [] end.
Definition batcher_jobs (b : batcher) : list WorkerJob := pj_job <$> pending_of (bt_state b) ++ bt_channel b.

(** The claims the coordinator holds, wherever they are. *)
Definition in_flight (s : coordinator) : list WorkerJob :=
  concat (sending <$> co_dispatchers s) ++ co_channel s ++ option_list (co_routing s)
  ++ concat (batcher_jobs <$> co_batchers s) ++ (pj_job <$> concat (co_running s)).

(** Who holds a permit of the queue: its dispatcher while it polls, and the jobs. *)
Definition permits_out (q : string) (s : coordinator) : nat :=
  length (List.filter (String.eqb q) (concat (polls <$> co_dispatchers s) ++ (wj_permit <$> in_flight s))).

Definition active_of (m : gmap string QueueControlState) (q : string) : nat :=
  match m !! q with Some c => ctl_active c | None => 0 end.

(** Counting with weights. *)
Definition weigh {A} (w : A -> nat) (l : list A) : nat := sum_list_with w l.

Lemma weigh_cons {A} (w : A -> nat) a l : weigh w (a :: l) = w a + weigh w l.
Proof. done. Qed.
Lemma weigh_nil {A} (w : A -> nat) : weigh w [] = 0.
Proof. done. Qed.
Lemma weigh_app {A} (w : A -> nat) l k : weigh w (l ++ k) = weigh w l + weigh w k.
Proof. apply sum_list_with_app. Qed.
Lemma weigh_fmap {A B} (w : B -> nat) (f : A -> B) l : weigh w (f <$> l) = weigh (w ∘ f) l.
Proof. unfold weigh. induction l as [|a l IH]; [done|]. cbn. by rewrite IH. Qed.
Lemma weigh_concat {A} (w : A -> nat) ls : weigh w (concat ls) = weigh (weigh w) ls.
Proof. induction ls as [|l ls IH]; [done|]. cbn [concat]. rewrite weigh_app, IH. done. Qed.
Lemma weigh_ext {A} (w w' : A -> nat) l : (forall a, w a = w' a) -> weigh w l = weigh w' l.
Proof. intros H. unfold weigh. induction l as [|a l IH]; [done|]. cbn. by rewrite H, IH. Qed.

Definition is_queue (q q' : string) : nat := if String.eqb q q' then 1 else 0.

Lemma filter_weigh q l : length (List.filter (String.eqb q) l) = weigh (is_queue q) l.
Proof.
  unfold is_queue. induction l as [|a l IH]; [done|]. cbn. destruct (String.eqb q a); cbn; [f_equal|]; exact IH.
Qed.

Lemma permits_out_weigh q s :
  permits_out q s = weigh (is_queue q) (concat (polls <$> co_dispatchers s)) + weigh (is_queue q ∘ wj_permit) (in_flight s).
Proof. unfold permits_out. by rewrite filter_weigh, weigh_app, weigh_fmap. Qed.

(** ** Permits *)

Lemma active_of_release m q q' : active_of (alter release q' m) q = active_of m q - is_queue q q'.
Proof.
  unfold active_of, is_queue. destruct (String.eqb_spec q q') as [->|Hn].
  - rewrite lookup_alter_eq. destruct (m !! q'); done.
  - rewrite lookup_alter_ne by congruence. destruct (m !! q); lia.
Qed.
Lemma active_of_drop (m : gmap string QueueControlState) qs q : active_of (foldr (alter release) m qs) q = active_of m q - weigh (is_queue q) qs.
Proof. induction qs as [|a qs IH]; cbn [foldr]; rewrite ?weigh_nil, ?weigh_cons; [lia|]. rewrite active_of_release, IH. lia. Qed.

Lemma active_of_insert m q c q' :
  active_of (<[q := c]> m) q' = if String.eqb q' q then ctl_active c else active_of m q'.
Proof.
  unfold active_of. destruct (String.eqb_spec q' q) as [->|Hn]; [by rewrite lookup_insert_eq|by rewrite lookup_insert_ne by congruence].
Qed.

Lemma active_of_configure m q c config q' : m !! q = Some c -> active_of (<[q := apply_config config c]> m) q' = active_of m q'.
Proof.
  intros H. rewrite active_of_insert. destruct (String.eqb_spec q' q) as [->|]; [|done]. unfold active_of. by rewrite H.
Qed.
Lemma active_of_acquire m q c c' q' : m !! q = Some c -> try_acquire c = Some c' ->
  active_of (<[q := c']> m) q' = active_of m q' + is_queue q' q.
Proof.
  intros H Hc%try_acquire_active. rewrite active_of_insert. unfold is_queue. destruct (String.eqb_spec q' q) as [->|]; [|lia].
  unfold active_of. by rewrite H.
Qed.
Lemma active_of_track m q c config m' q' : get_or_create q config m = (c, m') ->
  active_of (<[q := apply_config config c]> m') q' = active_of m q'.
Proof.
  unfold get_or_create. destruct (m !! q) as [c0|] eqn:E; intros [= <- <-].
  - by apply active_of_configure.
  - rewrite insert_insert_eq, active_of_insert. destruct (String.eqb_spec q' q) as [->|]; [|done]. unfold active_of. by rewrite E.
Qed.

Lemma lookup_drop (m : gmap string QueueControlState) qs q c : foldr (alter release) m qs !! q = Some c ->
  exists c0, m !! q = Some c0 /\ ctl_concurrency c = ctl_concurrency c0 /\ ctl_active c <= ctl_active c0.
Proof.
  revert c. induction qs as [|a qs IH]; intros c; cbn; [eauto|]. destruct (decide (a = q)) as [->|Hn].
  - rewrite lookup_alter_eq. intros (c1 & H1 & ->)%fmap_Some. destruct (IH c1 H1) as (c0 & ? & ? & ?).
    exists c0. cbn. split_and!; [done|done|lia].
  - rewrite lookup_alter_ne by done. apply IH.
Qed.

(** ** The invariant *)

Section Invariant.
Variable queue_config : QueueConfig.
Variable batch_of : string -> option WorkerBatchConfig.
Variable limit_allowed : string -> nat -> Prop.
Hypothesis batches_positive : forall n c, batch_of n = Some c -> 0 < batch_size c.

Definition bt_ok (b : batcher) : Prop :=
  batch_of (bk_worker (bt_key b)) = Some (bt_config b) /\
  length (pending_of (bt_state b)) < batch_size (bt_config b) /\
  length (bt_channel b) <= batch_size (bt_config b) * 2 /\
  Forall (fun j => from_envelope (pj_envelope j) = bt_key b) (pending_of (bt_state b) ++ bt_channel b) /\
  (bt_state b = Finished -> bt_channel b = []).

(** An execution: one job of a worker that takes single jobs, or a batch of one
    worker and one queue within its size. *)
Definition execution_ok (p : list PendingJob) : Prop :=
  (exists j, p `sublist_of` [j] /\ batch_of (name (job (pj_envelope j))) = None) \/
  (exists key config, batch_of (bk_worker key) = Some config /\ length p <= batch_size config /\
     Forall (fun j => from_envelope (pj_envelope j) = key) p).

(** Limits in force and active counts stay within what the queue may be given. *)
Definition limits_ok (m : gmap string QueueControlState) : Prop :=
  map_Forall (fun q c => forall L, (forall n, limit_allowed q n -> n <= L) -> ctl_concurrency c <= L /\ ctl_active c <= L) m.

Lemma limits_drop qs m : limits_ok m -> limits_ok (foldr (alter release) m qs).
Proof.
  intros H q c (c0 & H0 & E & Ha)%lookup_drop L HL. destruct (H q c0 H0 L HL). lia.
Qed.
Lemma limits_acquire q c c' m : m !! q = Some c -> try_acquire c = Some c' -> limits_ok m -> limits_ok (<[q := c']> m).
Proof.
  intros Hq Hc H. apply map_Forall_insert_2; [|done]. intros L HL. destruct (H q c Hq L HL).
  destruct (try_acquire_bounded _ _ Hc). unfold try_acquire in Hc. destruct (can_acquire c); simplify_eq. cbn in *. lia.
Qed.
Lemma limits_configure q c config m : config_allowed limit_allowed q config ->
  (forall L, (forall n, limit_allowed q n -> n <= L) -> ctl_active c <= L) -> limits_ok m ->
  limits_ok (<[q := apply_config config c]> m).
Proof.
  intros (n & Hn & Ha) Hc H. apply map_Forall_insert_2; [|done]. intros L HL. cbn. rewrite Hn. split; [by apply HL|by apply Hc].
Qed.
Lemma limits_track q c config m m' : config_allowed limit_allowed q config -> get_or_create q config m = (c, m') ->
  limits_ok m -> limits_ok (<[q := apply_config config c]> m').
Proof.
  intros Hcfg. unfold get_or_create. destruct (m !! q) as [c0|] eqn:E; intros [= <- <-] H.
  - apply limits_configure; [done| |done]. intros L HL. by destruct (H q c0 E L HL).
  - rewrite insert_insert_eq. apply limits_configure; [done| |done]. intros L HL. cbn. lia.
Qed.

Record cwf (s : coordinator) : Prop := {
  w_permits : forall q, active_of (co_controls s) q =
    weigh (is_queue q) (concat (polls <$> co_dispatchers s)) + weigh (is_queue q ∘ wj_permit) (in_flight s);
  w_claims : forall w, weigh w (co_claimed s) = weigh w (co_settled s) + weigh w (co_left s) + weigh w (in_flight s);
  w_left : co_left s <> [] -> co_cancelled s = true;
  w_receiving : co_receiving s = false -> co_cancelled s = true /\ co_channel s = [] /\ co_routing s = None;
  w_forced : co_forced s = true -> co_cancelled s = true;
  w_channel : length (co_channel s) <= channel_capacity queue_config;
  w_limits : limits_ok (co_controls s);
  w_batchers : Forall bt_ok (co_batchers s);
  w_running : Forall execution_ok (co_running s);
}.

Lemma cwf_start : cwf co_start.
Proof. constructor; cbn; try done; try lia; try by constructor. Qed.

Lemma flight_weigh w s : weigh w (in_flight s) =
  weigh w (concat (sending <$> co_dispatchers s)) + weigh w (co_channel s) + weigh w (option_list (co_routing s))
  + weigh (fun b => weigh w (batcher_jobs b)) (co_batchers s) + weigh (weigh (w ∘ pj_job)) (co_running s).
Proof.
  unfold in_flight. rewrite !weigh_app, (weigh_fmap w pj_job), (weigh_concat _ (co_running s)),
    (weigh_concat w (batcher_jobs <$> _)), (weigh_fmap (weigh w) batcher_jobs). unfold compose. lia.
Qed.

Lemma batcher_jobs_weigh w b :
  weigh w (batcher_jobs b) = weigh (w ∘ pj_job) (pending_of (bt_state b)) + weigh (w ∘ pj_job) (bt_channel b).
Proof. unfold batcher_jobs. by rewrite weigh_fmap, weigh_app. Qed.
Arguments in_flight : simpl never.
Arguments weigh : simpl never.

(** [weights] reduces an equation of weights to arithmetic. *)
Ltac weights :=
  rewrite ?flight_weigh in *;
  cbn [co_controls co_dispatchers co_channel co_receiving co_routing co_batchers co_running co_claimed co_settled co_left] in *;
  repeat (rewrite ?batcher_jobs_weigh, ?active_of_insert, ?active_of_drop, ?active_of_release, ?fmap_app, ?fmap_cons, ?concat_app, ?concat_cons, ?weigh_app, ?weigh_cons, ?weigh_nil, ?weigh_fmap in *;
          cbn [sending polls option_list option_rect fst snd pj_job compose wj_permit concat app
               new_batcher with_bt bt_state bt_channel pending_of] in * );
  try lia.

Lemma limits_release q m : limits_ok m -> limits_ok (alter release q m).
Proof. apply (limits_drop [q]). Qed.

(** A step of a batcher loses no job and duplicates none. *)
Lemma bt_step_ok b p ca gone ev channel st batches : bt_ok b -> bt_state b = Coordinator.Running p ->
  bt_receives ca gone b ev channel -> bt_step b ev = (st, batches) ->
  bt_ok (with_bt channel st b) /\ Forall execution_ok batches /\
  forall w, weigh (weigh w) batches + weigh w (pending_of st) + weigh w channel =
    weigh w (pending_of (bt_state b)) + weigh w (bt_channel b).
Proof.
  intros (Hcfg & Hpend & Hchan & Hkey & _) Hst Hev Hb. unfold bt_step in Hb.
  pose proof (batches_positive _ _ Hcfg) as Hpos.
  destruct (batcher_step_spec _ _ Hpos _ ev st batches Hpend Hb) as (Hp' & Hsizes & Hcat). rewrite Hst in *. cbn [pending_of] in *.
  set (rcv := match ev with EvJob j => [j] | EvCancelled buffered => buffered | _ => [] end) in Hcat.
  assert (rcv ++ channel ≡ₚ bt_channel b) as Hrcv by (destruct Hev as [j rest E| ? E| |]; cbn; rewrite ?E, ?app_nil_r; done).
  assert (concat batches ++ pending_of st ++ channel ≡ₚ p ++ bt_channel b) as Hperm.
  { rewrite app_assoc, Hcat, <- app_assoc. by rewrite Hrcv. }
  assert (Forall (fun j => from_envelope (pj_envelope j) = bt_key b) (concat batches ++ pending_of st ++ channel)) as Hkeys
    by by rewrite Hperm.
  apply Forall_app in Hkeys as [Hk1 Hk2]. split_and!.
  - split_and!; cbn [with_bt bt_key bt_config bt_state bt_channel]; [done|done| |done|].
    + rewrite <- Hchan. apply Permutation_length in Hrcv. rewrite length_app in Hrcv. lia.
    + intros ->. destruct Hev as [j rest E|? E| |]; try done; exfalso; unfold batcher_step in Hb;
        repeat (case_match || case_decide); simplify_eq.
  - apply Forall_forall. intros x Hx. rewrite Forall_forall in Hsizes. rewrite Forall_forall in Hk1. right. exists (bt_key b), (bt_config b).
    split; [done|]. split; [by destruct (Hsizes x Hx)|]. apply Forall_forall. intros j Hj. apply Hk1.
    apply list_elem_of_In, in_concat. exists x. by rewrite <- !list_elem_of_In.
  - intros w. rewrite <- weigh_concat. assert (weigh w (concat batches ++ pending_of st ++ channel) = weigh w (p ++ bt_channel b)) as E.
    { unfold weigh. by rewrite Hperm. }
    rewrite !weigh_app in E. lia.
Qed.

(** The control a step has changed. *)
Ltac control_changed :=
  repeat match goal with
  | H : get_or_create _ _ _ = _ |- context [active_of (<[_ := apply_config _ _]> _) _] => rewrite (active_of_track _ _ _ _ _ _ H)
  | H : ?m !! _ = Some ?c |- context [active_of (<[_ := apply_config _ ?c]> ?m) _] => rewrite (active_of_configure _ _ _ _ _ H)
  | H : ?m !! ?q = Some ?c, H' : try_acquire ?c = Some ?c' |- context [active_of (<[?q := ?c']> ?m) _] =>
      rewrite (active_of_acquire _ _ _ _ _ H H')
  end.
(** Each clause of the invariant that only counts, or is as before. *)
Ltac count_clauses Hp Hc Hr :=
  constructor; cbn;
  lazymatch goal with
  | |- forall q, active_of _ q = _ => intros qx; specialize (Hp qx); control_changed; weights
  | |- forall w, weigh w _ = _ => intros wx; specialize (Hc wx); weights
  | |- limits_ok _ => eauto using limits_track, limits_acquire, limits_drop, limits_release
  | |- _ = false -> _ => try (intros E; first [done | specialize (Hr E); naive_solver])
  | |- _ <= _ => rewrite ?length_app; cbn in *; try lia
  | |- _ => auto
  end.

Lemma cwf_step s s' : cwf s -> cstep queue_config batch_of limit_allowed s s' -> cwf s'.
Proof.
  intros Hs Hstep. destruct Hstep as [H|H|H|H|H|H|H|H]; inversion H; subst; clear H; destruct s as [co ds ch re ro bs ru ca fo cl se le];
    destruct Hs as [Hp Hc Hl Hr Hf Hch Hli Hb Hru]; cbn in *; subst;
    repeat match goal with lost : option JobId |- _ => destruct lost end; cbn in *; count_clauses Hp Hc Hr.
  - match goal with H : _ !! _ = Some _ |- _ => pose proof (Hli _ _ H) as Hq end.
    apply limits_configure; [done| |done]. intros L HL. by destruct (Hq L HL).
  - apply Forall_app. split; [done|]. constructor; [|done]. left. eexists. split; [done|]. done.
  - constructor; [|done]. unfold bt_ok. cbn. split_and!; [done|by eapply batches_positive|lia|done|done].
  - apply Forall_app in Hb as [Hb1 [(? & ? & ? & Hk & ?) Hb2]%Forall_cons]. apply Forall_app. split; [done|]. constructor; [|done].
    match goal with H : bt_state b = Coordinator.Running _ |- _ => rewrite H in * end. split_and!; cbn; try done.
    + rewrite length_app. cbn. lia.
    + rewrite app_assoc. apply Forall_app. split; [done|]. by constructor.
  - apply Forall_app in Hb as [_ [(_ & _ & _ & _ & Hfin) _]%Forall_cons].
    match goal with H : bt_state b = Finished |- _ => rewrite H, (Hfin H) in Hp end. weights.
  - apply Forall_app in Hb as [_ [(_ & _ & _ & _ & Hfin) _]%Forall_cons].
    match goal with H : bt_state b = Finished |- _ => rewrite H, (Hfin H) in Hc end. weights.
  - by eapply Forall_remove.
  - apply Forall_app in Hb as [_ [Hb _]%Forall_cons].
    match goal with H1 : bt_state b = _, H2 : bt_receives _ _ _ _ _, H3 : bt_step _ _ = _ |- _ =>
      destruct (bt_step_ok _ _ _ _ _ _ _ _ Hb H1 H2 H3) as (_ & _ & E) end.
    specialize (E (is_queue qx ∘ wj_permit ∘ pj_job)). lia.
  - apply Forall_app in Hb as [_ [Hb _]%Forall_cons].
    match goal with H1 : bt_state b = _, H2 : bt_receives _ _ _ _ _, H3 : bt_step _ _ = _ |- _ =>
      destruct (bt_step_ok _ _ _ _ _ _ _ _ Hb H1 H2 H3) as (_ & _ & E) end.
    specialize (E (wx ∘ pj_job)). lia.
  - eapply Forall_replace; [exact Hb|]. apply Forall_app in Hb as [_ [Hb _]%Forall_cons]. by eapply bt_step_ok.
  - apply Forall_app. split; [done|]. apply Forall_app in Hb as [_ [Hb _]%Forall_cons]. by eapply bt_step_ok.
  - eapply Forall_replace; [exact Hru|]. apply Forall_app in Hru as [_ [Hx _]%Forall_cons].
    assert (p1 ++ p2 `sublist_of` p1 ++ j :: p2) as Hsub by by apply sublist_app, sublist_cons.
    destruct Hx as [(j' & Hj & Hn)|(key & config & Hcfg & Hlen & Hk)].
    + left. exists j'. split; [by etransitivity|done].
    + right. exists key, config. split; [done|]. split; [apply sublist_length in Hsub; lia|]. by eapply Forall_remove.
  - by eapply Forall_remove.
  - by eapply Forall_remove.
  - intros _. auto.
  - by eapply Forall_remove.
  - by eapply Forall_remove.
Qed.

Local Abbreviation reachable := (rtc (cstep queue_config batch_of limit_allowed) co_start).

Lemma reachable_wf s : reachable s -> cwf s.
Proof.
  intros Hr. remember co_start as s0 eqn:E. assert (cwf s0) as H0 by (subst; apply cwf_start). clear E.
  induction Hr; eauto using cwf_step.
Qed.

Lemma count_occ_weigh (l : list WorkerJob) x :
  count_occ worker_job_eq_dec l x = weigh (fun y => if worker_job_eq_dec y x then 1 else 0) l.
Proof. induction l as [|y l IH]; [done|]. rewrite weigh_cons. cbn. destruct (worker_job_eq_dec y x); by rewrite IH. Qed.


(** The jobs of a queue that execute. *)
Definition executing (q : string) (s : coordinator) : nat :=
  length (List.filter (String.eqb q) (wj_permit <$> (pj_job <$> concat (co_running s)))).

(** C17. The limit of a queue holds from the claim to the end of the execution: the
    active count of its control is exactly the number of permits its
    dispatcher and its jobs hold, wherever these are, and no more jobs execute
    at once than the largest limit it was given. *)
Theorem queue_limit_respected s q : reachable s ->
  active_of (co_controls s) q = permits_out q s /\
  forall L, (forall n, limit_allowed q n -> n <= L) -> executing q s <= permits_out q s <= L.
Proof.
  intros [Hp Hc Hl Hr Hf Hch Hli Hb Hru]%reachable_wf. rewrite permits_out_weigh, <- Hp. split; [done|].
  intros L HL. split.
  - rewrite Hp, flight_weigh. unfold executing. rewrite filter_weigh, !weigh_fmap, weigh_concat.
    replace (weigh (weigh (is_queue q ∘ wj_permit ∘ pj_job)) (co_running s)) with
      (weigh (weigh ((is_queue q ∘ wj_permit) ∘ pj_job)) (co_running s)) by done. lia.
  - unfold active_of. destruct (co_controls s !! q) as [c|] eqn:E; [|lia]. by destruct (Hli q c E L HL).
Qed.

(** ** Shutdown *)

(** Every task of the coordinator has ended. *)
Definition stopped (d : string * stage) : bool := match d.2 with Stopped => true | _ => false end.
Definition finished (b : batcher) : bool := match bt_state b with Finished => true | _ => false end.
Definition at_rest (s : coordinator) : Prop :=
  forallb stopped (co_dispatchers s) = true /\ co_receiving s = false /\ forallb finished (co_batchers s) = true /\
  co_running s = [].

Lemma first_not {A} (f : A -> bool) l : forallb f l = true \/ exists l1 x l2, l = l1 ++ x :: l2 /\ f x = false.
Proof.
  induction l as [|x l IH]; [by left|]. cbn. destruct (f x) eqn:E; [|right; by exists [], x, l].
  destruct IH as [H|(l1 & y & l2 & -> & H)]; [by left|]. right. by exists (x :: l1), y, l2.
Qed.

(** What is left to do. *)
Definition work (s : coordinator) : nat :=
  weigh (fun d => if stopped d then 0 else 1) (co_dispatchers s) + (if co_receiving s then 1 else 0)
  + length (option_list (co_routing s))
  + weigh (fun b => if finished b then 0 else 1 + length (pending_of (bt_state b)) + length (bt_channel b)) (co_batchers s)
  + length (co_running s).

Lemma spawned_le (ls : list (list PendingJob)) size : Forall (batch_ok size) ls -> length ls <= length (concat ls).
Proof. induction 1 as [|l ls [Hl _] _ IH]; cbn; [done|]. rewrite length_app. lia. Qed.

(** A step on the way to the end: the tokens stay as they are and no queue is tracked. *)
Definition quiet_change (s s' : coordinator) : Prop :=
  co_cancelled s' = co_cancelled s /\ co_forced s' = co_forced s /\ (co_dispatchers s').*1 = (co_dispatchers s).*1.

Lemma rest_step s : cwf s -> co_cancelled s = true -> at_rest s \/
  exists s', cstep queue_config batch_of limit_allowed s s' /\ quiet_change s s' /\ work s' < work s.
Proof.
  intros Hs Hc. destruct (first_not stopped (co_dispatchers s)) as [Hd|(d1 & [q st] & d2 & E & Hd)].
  2: { right. destruct st as [| |jid|]; [| | |done]; eexists;
         (split; [first [by eapply cs_dispatch, co_stop_acquiring|by eapply cs_dispatch, co_stop_polling with (lost := None)|by eapply cs_dispatch, co_stop_sending]|]);
         destruct s; cbn in *; subst; (split; [by split_and!; cbn; rewrite ?fmap_app, ?fmap_cons|]); unfold work; cbn; rewrite !weigh_app, !weigh_cons; cbn; lia. }
  destruct (co_receiving s) eqn:Er.
  { right. destruct (co_routing s) as [j|] eqn:Ej; eexists; (split; [first [by eapply cs_load, co_load_cancelled|by eapply cs_life, co_stop_router]|]);
      destruct s; cbn in *; subst; (split; [done|]); unfold work; cbn; lia. }
  destruct (first_not finished (co_batchers s)) as [Hb|(b1 & b & b2 & E & Hb)].
  2: { right. unfold finished in Hb. destruct (bt_state b) as [p|] eqn:Eb; [|done].
       pose proof (w_batchers _ Hs) as Hok. rewrite E in Hok. apply Forall_app in Hok as [_ [Hok _]%Forall_cons].
       destruct Hok as (Hcfg & Hpend & _). pose proof (batches_positive _ _ Hcfg) as Hpos. rewrite Eb in Hpend. cbn in Hpend.
       destruct (flush_spec (batch_size (bt_config b)) Hpos p (bt_channel b) Hpend) as [Hcat Hsz].
       apply spawned_le in Hsz. rewrite Hcat, length_app in Hsz.
       eexists. split; [eapply cs_batch, co_batcher with (ev := EvCancelled (bt_channel b)) (channel := []); [exact E|exact Eb|by constructor|]|].
       { unfold bt_step. rewrite Eb. reflexivity. }
       destruct s; cbn in *; subst. split; [done|]. unfold work, finished. cbn. rewrite !weigh_app, !weigh_cons, length_app, Eb.
       cbn. lia. }
  destruct (co_running s) as [|p r] eqn:Eru; [by left|]. right. eexists. split; [by eapply cs_execute, co_executed with (r1 := [])|].
  destruct s; cbn in *; subst. split; [done|]. unfold work; cbn. lia.
Qed.

Definition quiet_step (s s' : coordinator) : Prop := cstep queue_config batch_of limit_allowed s s' /\ quiet_change s s'.

Lemma comes_to_rest s : cwf s -> co_cancelled s = true -> exists s', rtc quiet_step s s' /\ at_rest s'.
Proof.
  remember (work s) as n eqn:En. revert s En. induction (Nat.lt_wf_0 n) as [n _ IH]. intros s -> Hs Hc.
  destruct (rest_step s Hs Hc) as [?|(s1 & Hstep & Hq & Hw)]; [by exists s|].
  destruct (IH _ Hw s1 eq_refl) as (s' & ? & ?); [by eapply cwf_step|destruct Hq; congruence|].
  exists s'. split; [|done]. by eapply rtc_l.
Qed.

Lemma rest_empty s : cwf s -> at_rest s -> in_flight s = [] /\ concat (polls <$> co_dispatchers s) = [].
Proof.
  intros Hwf (Hd & Hre & Hb & Hru). destruct (w_receiving _ Hwf Hre) as (_ & Hch & Hro). unfold in_flight.
  rewrite Hch, Hro, Hru. cbn [option_list option_rect concat fmap list_fmap].
  assert (concat (sending <$> co_dispatchers s) = [] /\ concat (polls <$> co_dispatchers s) = []) as [-> ->].
  { revert Hd. clear. induction (co_dispatchers s) as [|[q st] ds IH]; [done|]. cbn. intros [Hst Hd]%andb_true_iff.
    destruct st; try done. cbn. auto. }
  assert (concat (batcher_jobs <$> co_batchers s) = []) as ->; [|done].
  pose proof (w_batchers _ Hwf) as Hok. revert Hb Hok. clear.
  induction (co_batchers s) as [|b bs IH]; [done|]. cbn. intros [Hf Hb]%andb_true_iff [(_ & _ & _ & _ & Hfin) Hok]%Forall_cons.
  rewrite (IH Hb Hok), app_nil_r. unfold batcher_jobs. unfold finished in Hf. destruct (bt_state b); [done|]. by rewrite Hfin.
Qed.

(** A coordinator at rest has accounted for its claims and has its permits back. *)
Lemma rest_accounts s : cwf s -> at_rest s ->
  co_claimed s ≡ₚ co_settled s ++ co_left s /\ forall q, active_of (co_controls s) q = 0.
Proof.
  intros Hwf Hrest. destruct (rest_empty s Hwf Hrest) as [Hnone Hpolls]. split.
  - apply (Permutation_count_occ worker_job_eq_dec). intros x.
    rewrite !count_occ_weigh, weigh_app, (w_claims _ Hwf), Hnone, weigh_nil. lia.
  - intros q. by rewrite (w_permits _ Hwf), Hnone, Hpolls.
Qed.

(** C18. A coordinator that is asked to stop can always end, from whatever state it
    is in and without cancelling an execution; once it has, every claim is
    settled or given up for recovery, and every permit is back. *)
Theorem coordinator_stops s : reachable s -> co_cancelled s = true ->
  exists s', rtc (cstep queue_config batch_of limit_allowed) s s' /\ at_rest s' /\ co_forced s' = co_forced s /\
    co_claimed s' ≡ₚ co_settled s' ++ co_left s' /\ forall q, active_of (co_controls s') q = 0.
Proof.
  intros Hr Hc.
  assert (exists s', rtc (cstep queue_config batch_of limit_allowed) s s' /\ at_rest s' /\ co_forced s' = co_forced s)
    as (s' & Hs' & Hrest & Hforced).
  { destruct (comes_to_rest s (reachable_wf s Hr) Hc) as (s' & Hp & Hrest). exists s'.
    clear Hr Hc. induction Hp as [s|s s1 s' [Hstep (_ & Hf & _)] _ IH]; [by split_and!|].
    destruct (IH Hrest) as (? & ? & Hf'). split; [by eapply rtc_l|]. split; [done|congruence]. }
  exists s'. do 3 (split; [done|]). apply rest_accounts; [|done]. apply reachable_wf. by etransitivity.
Qed.
End Invariant.
