(* ===== verification/Collector.v ===== *)
(** * Collecting results ([result_collector.rs])

    The collector's state and what each arm of its [select!] does to it. *)
From S2P Require Import Prelude Errors Redis Envelope Queue Keys Scripts Storage Metrics Stats StatsStorage Resilience.
Open Scope Z_scope.

(** The run's statistics ([Stats]). *)
Record RunStats := { run_processed : Z; run_succeeded : Z; run_panicked : Z; run_failed : Z }.
Definition empty_run_stats : RunStats := Build_RunStats 0 0 0 0.

Record collector := {
  col_metrics : JobMetricsBuffer;
  col_pending : gmap string QueueResultStats;
  col_active : gset string;
  col_stats : RunStats;
  col_failures : Z;           (* the shared counter of Redis failures *)
  col_cancelled : bool;
}.

Definition run_stats_record (r : WorkerResult) (s : RunStats) : RunStats :=
  let '(Build_RunStats p su pn f) := s in
  let n := wr_job_count r in
  let p := u64_sat_add p n in
  match wr_kind r with
  | Success => Build_RunStats p (u64_sat_add su n) pn f
  | Panicked => Build_RunStats p su (u64_sat_add pn n) (u64_sat_add f n)
  | Failed => Build_RunStats p su pn (u64_sat_add f n)
  end.

(** [metrics.record] and [update_stats]. *)
Definition on_result (exit_when_processed : option Z) (now : Z) (r : WorkerResult) (c : collector) : collector :=
  let stats := run_stats_record r (col_stats c) in
  {| col_metrics := buffer_record now r (col_metrics c);
     col_pending := <[wr_queue r := result_stats_record r (default empty_result_stats (col_pending c !! wr_queue r))]>
                      (col_pending c);
     col_active := {[wr_queue r]} ∪ col_active c;
     col_stats := stats;
     col_failures := col_failures c;
     col_cancelled := col_cancelled c ||
       match exit_when_processed with Some n => n <=? run_processed stats | None => false end |}.

Definition set_metrics (c : collector) (m : JobMetricsBuffer) (failures : Z) : collector :=
  {| col_metrics := m; col_pending := col_pending c; col_active := col_active c; col_stats := col_stats c;
     col_failures := failures; col_cancelled := col_cancelled c |}.
Definition set_pending (c : collector) (p : gmap string QueueResultStats) (failures : Z) : collector :=
  {| col_metrics := col_metrics c; col_pending := p; col_active := col_active c; col_stats := col_stats c;
     col_failures := failures; col_cancelled := col_cancelled c |}.
Definition set_active (c : collector) (a : gset string) (failures : Z) : collector :=
  {| col_metrics := col_metrics c; col_pending := col_pending c; col_active := a; col_stats := col_stats c;
     col_failures := failures; col_cancelled := col_cancelled c |}.

(** [prune_active_queues]: a queue stays while its length is not known to be
    zero. *)
Definition prune_active_queues (active : gset string) (lengths : option (gmap string Z)) : gset string :=
  match lengths with
  | None => active
  | Some lengths => filter (fun q => 0 < default 0 (lengths !! q)) active
  end.

Section Flush.
Variable st : StorageInternal.
Variable tolerance : Z.
Open Scope prog_scope.

(** A program that fails with the collector's error and the counter reached. *)
Definition flush_metrics (c : collector) : prog (result OxanaError collector) :=
  if buffer_is_empty (col_metrics c) then Ret (Ok c)
  else
    r <- flush_job_metrics st (col_metrics c) ;;
    Ret (match track_redis_result r tolerance (col_failures c) with
         | (Ok (Some _), failures) => Ok (set_metrics c empty_buffer failures)
         | (Ok None, failures) => Ok (set_metrics c (col_metrics c) failures)
         | (Err e, _) => Err e
         end).

Definition flush_pending_stats (c : collector) : prog (result OxanaError collector) :=
  if decide (col_pending c = ∅) then Ret (Ok c)
  else
    r <- flush_result_stats st (col_pending c) ;;
    Ret (match track_redis_result r tolerance (col_failures c) with
         | (Ok (Some _), failures) => Ok (set_pending c ∅ failures)
         | (Ok None, failures) => Ok (set_pending c (col_pending c) failures)
         | (Err e, _) => Err e
         end).

Definition refresh_active_queue_lengths (now : Z) (c : collector) : prog (result OxanaError collector) :=
  if decide (col_active c = ∅) then Ret (Ok c)
  else
    r <- refresh_queue_length_stats st (elements (col_active c)) now ;;
    Ret (match track_redis_result r tolerance (col_failures c) with
         | (Ok lengths, failures) => Ok (set_active c (prune_active_queues (col_active c) lengths) failures)
         | (Err e, _) => Err e
         end).

Definition flush_before_exit (now : Z) (c : collector) : prog (result OxanaError collector) :=
  c <-? flush_metrics c ;;
  c <-? flush_pending_stats c ;;
  refresh_active_queue_lengths now c.

(** The arms of the [select!]. *)
Inductive collector_event :=
| CollectResult (now : Z) (r : WorkerResult)
| MetricsTick
| StatsTick
| LengthsTick (now : Z)
| SendersGone (now : Z).

Fixpoint collect_run (exit_when_processed : option Z) (evs : list collector_event) (c : collector)
    : prog (result OxanaError collector) :=
  match evs with
  | [] => Ret (Ok c)
  | ev :: evs' =>
      match ev with
      | CollectResult now r => collect_run exit_when_processed evs' (on_result exit_when_processed now r c)
      | MetricsTick => c <-? flush_metrics c ;; collect_run exit_when_processed evs' c
      | StatsTick => c <-? flush_pending_stats c ;; collect_run exit_when_processed evs' c
      | LengthsTick now => c <-? refresh_active_queue_lengths now c ;; collect_run exit_when_processed evs' c
      | SendersGone now => flush_before_exit now c
      end
  end.
End Flush.

(** ** Facts *)

(** Failed flushes lose nothing: the counters that a flush could not write stay
    in the collector for the next one. *)
Lemma flush_pending_keeps st tolerance c c' ks ks' e :
  run_doc (flush_pending_stats st tolerance c) ks = (Ok c', ks') ->
  run_doc (flush_result_stats st (col_pending c)) ks = (Err e, ks') ->
  col_pending c' = col_pending c.
Proof.
  unfold flush_pending_stats. intros H1 H2. case_decide; [cbn in H1; congruence|].
  rewrite run_pbind, H2 in H1. cbn in H1.
  destruct (tolerance <=? u32_wrap (col_failures c + 1)); by inversion H1.
Qed.

(** A collector asked to exit after [n] jobs cancels the run once it has
    counted [n] and not before. *)
Theorem exit_when_processed_cancels n results c :
  col_cancelled c = false -> run_processed (col_stats c) = 0 -> 0 < n <= u64_max ->
  Forall (fun r : Z * WorkerResult => 0 <= wr_job_count r.2) results ->
  let c' := foldl (fun c r => on_result (Some n) r.1 r.2 c) c results in
  col_cancelled c' = true <-> n <= foldr Z.add 0 (wr_job_count <$> results.*2).
Proof.
  intros Hc Hp Hn Hpos.
  assert (forall results c, Forall (fun r : Z * WorkerResult => 0 <= wr_job_count r.2) results ->
    0 <= run_processed (col_stats c) <= u64_max ->
    (col_cancelled c = true <-> n <= run_processed (col_stats c)) ->
    (col_cancelled (foldl (fun c r => on_result (Some n) r.1 r.2 c) c results) = true <->
     n <= run_processed (col_stats c) + foldr Z.add 0 (wr_job_count <$> results.*2))) as H.
  { clear c results Hc Hp Hpos. induction results as [|[now r] results IH]; intros c Hpos Hb Hcc;
      cbn [foldl fmap list_fmap foldr snd fst] in *; [by rewrite Z.add_0_r|].
    apply Forall_cons in Hpos as [Hr Hpos]. cbn in Hr.
    set (c1 := on_result (Some n) now r c).
    assert (run_processed (col_stats c1) = u64_sat_add (run_processed (col_stats c)) (wr_job_count r)) as E1.
    { unfold c1, on_result. cbn. destruct (col_stats c), r as [[] ? ? ? ?]; done. }
    assert (0 <= foldr Z.add 0 (wr_job_count <$> results.*2)) as Hsum.
    { clear -Hpos. induction Hpos as [|[? ?] l H _ IHl]; cbn in *; lia. }
    rewrite (IH c1 Hpos).
    - rewrite E1. unfold u64_sat_add. lia.
    - rewrite E1. apply u64_sat_add_bounds; lia.
    - rewrite E1. unfold c1, on_result. cbn [col_cancelled].
      assert (run_processed (run_stats_record r (col_stats c)) =
        u64_sat_add (run_processed (col_stats c)) (wr_job_count r)) as ->
        by (destruct (col_stats c), r as [[] ? ? ? ?]; done).
      rewrite orb_true_iff, Hcc, Z.leb_le. unfold u64_sat_add. lia. }
  cbn. rewrite (H results c Hpos); rewrite ?Hp, ?Hc; [lia|unfold u64_max; lia|].
  split; [done|lia].
Qed.
