(* ===== verification/Runtime.v ===== *)
(** * The runtime and its shutdown ([runtime.rs], [RuntimeSettings] of
    [config.rs], [launcher.rs])

    A builder method that panics is an option. The launcher is a transition
    system: tasks of its three join sets, the executions its [TaskTracker]
    follows, the heartbeat, and the phase [run] has reached. *)
From S2P Require Import Prelude Errors Envelope Queue Executor Registry.
Open Scope Z_scope.

(** ** Settings *)

Record RuntimeSettings := {
  exit_when_processed : option Z;
  shutdown_timeout : option Duration;
  heartbeat_interval : Duration;
  dead_process_threshold : Duration;
  resurrect_scan_interval : Duration;
  redis_failure_tolerance : Z;
  retry_poll_interval : Duration;
  schedule_poll_interval : Duration;
  cron_initial_offset : Duration;
  cron_lookahead : Duration;
  cron_tick_interval : Duration;
  dequeue_timeout : Duration;
  dispatcher_idle_sleep : Duration;
  throttled_queue_fallback_wait : Duration;
  queue_allowlist : list QueueConfig;
  queue_denylist : list QueueConfig;
}.

Definition DEFAULT_DEAD_PROCESS_THRESHOLD : Duration := from_secs 5.

Definition new_settings : RuntimeSettings := {|
  exit_when_processed := None;
  shutdown_timeout := Some (from_secs 180);
  heartbeat_interval := from_millis 500;
  dead_process_threshold := DEFAULT_DEAD_PROCESS_THRESHOLD;
  resurrect_scan_interval := from_secs 2;
  redis_failure_tolerance := 30;
  retry_poll_interval := from_millis 300;
  schedule_poll_interval := from_millis 300;
  cron_initial_offset := from_secs 3;
  cron_lookahead := from_secs 30;
  cron_tick_interval := from_secs 1;
  dequeue_timeout := from_secs 10;
  dispatcher_idle_sleep := from_secs 1;
  throttled_queue_fallback_wait := from_millis 100;
  queue_allowlist := [];
  queue_denylist := [];
|}.

(** ** [RuntimeBuilder::run]: the checks before the launcher starts *)

#[local] Instance key_le_dec : RelDecision (fun a b => String.leb a b = true).
Proof. intros a b. apply _. Defined.

(** [allowlist.difference(&config.queues)], as sorted keys. *)
Definition missing_queues (selected registered : list QueueConfig) : list string :=
  merge_sort (fun a b => String.leb a b = true)
    (key_or_prefix <$> filter (fun q => queue_set_mem q registered = false) selected).

Definition check_selection {Schedule} (s : RuntimeSettings) (c : @Config Schedule) : result OxanaError unit :=
  match missing_queues (queue_allowlist s) (cfg_queues c) with
  | (_ :: _) as missing => Err (ConfigError ("Selected queues are not registered: " +:+ join ", " missing))
  | [] =>
      match missing_queues (queue_denylist s) (cfg_queues c) with
      | (_ :: _) as missing => Err (ConfigError ("Excluded queues are not registered: " +:+ join ", " missing))
      | [] => Ok tt
      end
  end.

(** The queues [launcher::run] spawns a coordinator for. *)
Definition coordinated {Schedule} (s : RuntimeSettings) (c : @Config Schedule) : list QueueConfig :=
  filter (fun q => runs_queue (queue_allowlist s) (queue_denylist s) q = true) (cfg_queues c).

(** ** [Runtime::fail] and [take_shutdown_error] *)

(** [get_or_insert]. *)
Definition record_failure (slot : option OxanaError) (error : OxanaError) : option OxanaError :=
  match slot with Some e => Some e | None => Some error end.

(** ** The launcher *)

Inductive phase :=
| Running
| DrainCoordinators | DrainLoops | DrainTasks | DrainPing | Cleaning
| ForceCoordinators | ForceLoops | ForceTasks | ForcePing
| Done (answer : result OxanaError unit).

Record launcher := {
  coordinators : nat;          (* coordinator_joinset *)
  loops : nat;                 (* joinset *)
  executions : nat;            (* futures tracked by runtime.tasks *)
  pinging : bool;              (* ping_joinset is not empty *)
  ping_cancelled : bool;       (* ping_cancel_token *)
  cancelled : bool;            (* cancel_token *)
  force_cancelled : bool;      (* force_cancel_token *)
  in_registry : bool;          (* the process record in Redis *)
  shutdown_error : option OxanaError;
  at_phase : phase;
}.

(** What [record_task_result] gets from a join set: [None] is a task that was
    cancelled by the abort. *)
Abbreviation joined := (option (result OxanaError unit)).

Definition record_task_result (r : joined) (slot : option OxanaError) : option OxanaError :=
  match r with Some (Err e) => record_failure slot e | _ => slot end.
Definition is_failure (r : joined) : bool := match r with Some (Err _) => true | _ => false end.

Definition set_phase (p : phase) (s : launcher) : launcher :=
  {| coordinators := coordinators s; loops := loops s; executions := executions s; pinging := pinging s;
     ping_cancelled := ping_cancelled s; cancelled := cancelled s; force_cancelled := force_cancelled s;
     in_registry := in_registry s; shutdown_error := shutdown_error s; at_phase := p |}.
Definition set_executions (n : nat) (s : launcher) : launcher :=
  {| coordinators := coordinators s; loops := loops s; executions := n; pinging := pinging s;
     ping_cancelled := ping_cancelled s; cancelled := cancelled s; force_cancelled := force_cancelled s;
     in_registry := in_registry s; shutdown_error := shutdown_error s; at_phase := at_phase s |}.
(** A task of a join set has been joined with [r]. *)
Definition join_task (coords lps : nat) (ping : bool) (r : joined) (s : launcher) : launcher :=
  {| coordinators := coords; loops := lps; executions := executions s; pinging := ping;
     ping_cancelled := ping_cancelled s; cancelled := cancelled s || is_failure r; force_cancelled := force_cancelled s;
     in_registry := in_registry s; shutdown_error := record_task_result r (shutdown_error s); at_phase := at_phase s |}.
(** [fail]. *)
Definition fail (e : OxanaError) (s : launcher) : launcher :=
  join_task (coordinators s) (loops s) (pinging s) (Some (Err e)) s.
(** [cancel_token.cancel()]; [tasks.close()]. *)
Definition begin_shutdown (s : launcher) : launcher :=
  {| coordinators := coordinators s; loops := loops s; executions := executions s; pinging := pinging s;
     ping_cancelled := ping_cancelled s; cancelled := true; force_cancelled := force_cancelled s;
     in_registry := in_registry s; shutdown_error := shutdown_error s; at_phase := DrainCoordinators |}.
Definition cancel_ping (p : phase) (s : launcher) : launcher :=
  {| coordinators := coordinators s; loops := loops s; executions := executions s; pinging := pinging s;
     ping_cancelled := true; cancelled := cancelled s; force_cancelled := force_cancelled s;
     in_registry := in_registry s; shutdown_error := shutdown_error s; at_phase := p |}.
Definition begin_force (s : launcher) : launcher :=
  {| coordinators := coordinators s; loops := loops s; executions := executions s; pinging := pinging s;
     ping_cancelled := ping_cancelled s; cancelled := cancelled s; force_cancelled := true;
     in_registry := in_registry s; shutdown_error := shutdown_error s; at_phase := ForceCoordinators |}.
Definition deregister (gone : bool) (s : launcher) : launcher :=
  {| coordinators := coordinators s; loops := loops s; executions := executions s; pinging := pinging s;
     ping_cancelled := ping_cancelled s; cancelled := cancelled s; force_cancelled := force_cancelled s;
     in_registry := in_registry s && negb gone; shutdown_error := shutdown_error s; at_phase := at_phase s |}.

(** The answer of [run]. *)
Definition answer (s : launcher) (timed_out : bool) : result OxanaError unit :=
  match shutdown_error s with
  | Some e => Err e
  | None => if timed_out then Err ShutdownTimeout else Ok tt
  end.

Definition draining (p : phase) : bool :=
  match p with DrainCoordinators | DrainLoops | DrainTasks | DrainPing | Cleaning => true | _ => false end.
Definition may_join_coordinators (p : phase) : bool :=
  match p with DrainCoordinators | ForceCoordinators => true | _ => false end.
Definition may_join_loops (p : phase) : bool := match p with DrainLoops | ForceLoops => true | _ => false end.
Definition may_join_ping (p : phase) : bool := match p with DrainPing | ForcePing => true | _ => false end.

Inductive lstep (timeout : bool) : launcher -> launcher -> Prop :=
(* owned tasks work: they spawn and finish executions, and may fail the runtime *)
| l_spawn s : (0 < coordinators s + loops s + executions s)%nat ->
    lstep timeout s (set_executions (S (executions s)) s)
| l_execution_ends s n : executions s = S n -> lstep timeout s (set_executions n s)
| l_task_fails s e : (0 < coordinators s + loops s + executions s)%nat -> lstep timeout s (fail e s)
(* the first [select!] *)
| l_coordinator_ended s n r : at_phase s = Running -> coordinators s = S n ->
    lstep timeout s (begin_shutdown (join_task n (loops s) (pinging s) (Some r) s))
| l_loop_ended s n r : at_phase s = Running -> loops s = S n ->
    lstep timeout s (begin_shutdown (join_task (coordinators s) n (pinging s) (Some r) s))
| l_ping_ended s r : at_phase s = Running -> pinging s = true ->
    lstep timeout s (begin_shutdown (join_task (coordinators s) (loops s) false (Some r) s))
| l_cancelled s : at_phase s = Running -> cancelled s = true -> lstep timeout s (begin_shutdown s)
| l_signal s : at_phase s = Running -> lstep timeout s (begin_shutdown s)
(* joining *)
| l_join_coordinator s n r : (r = None -> force_cancelled s = true) -> may_join_coordinators (at_phase s) = true -> coordinators s = S n ->
    lstep timeout s (join_task n (loops s) (pinging s) r s)
| l_join_loop s n r : (r = None -> force_cancelled s = true) -> may_join_loops (at_phase s) = true -> loops s = S n ->
    lstep timeout s (join_task (coordinators s) n (pinging s) r s)
| l_join_ping s r : (r = None -> force_cancelled s = true) -> may_join_ping (at_phase s) = true -> pinging s = true ->
    lstep timeout s (join_task (coordinators s) (loops s) false r s)
(* the drain, and the forced one *)
| l_coordinators_done s : at_phase s = DrainCoordinators -> coordinators s = 0%nat ->
    lstep timeout s (set_phase DrainLoops s)
| l_loops_done s : at_phase s = DrainLoops -> loops s = 0%nat -> lstep timeout s (set_phase DrainTasks s)
| l_tasks_done s : at_phase s = DrainTasks -> executions s = 0%nat -> lstep timeout s (cancel_ping DrainPing s)
| l_ping_done s : at_phase s = DrainPing -> pinging s = false -> lstep timeout s (set_phase Cleaning s)
| l_cleaned s : at_phase s = Cleaning ->
    lstep timeout s (set_phase (Done (answer s false)) (deregister true s))
| l_clean_failed s e gone : at_phase s = Cleaning ->
    lstep timeout s (set_phase (Done (answer (fail e s) false)) (deregister gone (fail e s)))
| l_deadline s gone : timeout = true -> draining (at_phase s) = true -> (gone = true -> at_phase s = Cleaning) ->
    lstep timeout s (begin_force (deregister gone s))
| l_force_coordinators_done s : at_phase s = ForceCoordinators -> coordinators s = 0%nat ->
    lstep timeout s (set_phase ForceLoops s)
| l_force_loops_done s : at_phase s = ForceLoops -> loops s = 0%nat -> lstep timeout s (set_phase ForceTasks s)
| l_force_tasks_done s : at_phase s = ForceTasks -> executions s = 0%nat -> lstep timeout s (cancel_ping ForcePing s)
| l_force_ping_done s : at_phase s = ForcePing -> pinging s = false ->
    lstep timeout s (set_phase (Done (answer s true)) s).

Definition launched (coords : nat) : launcher :=
  {| coordinators := coords; loops := 5; executions := 0; pinging := true; ping_cancelled := false;
     cancelled := false; force_cancelled := false; in_registry := true; shutdown_error := None; at_phase := Running |}.

(** ** The order of the shutdown *)

(** No coordinator, loop or execution is left. *)
Definition quiescent (s : launcher) : Prop := coordinators s = 0%nat /\ loops s = 0%nat /\ executions s = 0%nat.

Record launcher_wf (s : launcher) : Prop := {
  wf_phase : match at_phase s with
             | Running | DrainCoordinators | ForceCoordinators => True
             | DrainLoops | ForceLoops => coordinators s = 0%nat
             | DrainTasks | ForceTasks => coordinators s = 0%nat /\ loops s = 0%nat
             | DrainPing | ForcePing => ping_cancelled s = true
             | Cleaning | Done _ => ping_cancelled s = true /\ pinging s = false
             end;
  wf_ping : ping_cancelled s = true -> quiescent s;
  wf_registry : in_registry s = false -> ping_cancelled s = true /\ pinging s = false;
  wf_done : forall a, at_phase s = Done a -> a = answer s (force_cancelled s);
  wf_forced : force_cancelled s = match at_phase s with
                                  | ForceCoordinators | ForceLoops | ForceTasks | ForcePing => true
                                  | Done _ => force_cancelled s
                                  | _ => false
                                  end;
}.

Lemma launched_wf n : launcher_wf (launched n).
Proof. constructor; cbn; done. Qed.

Lemma lstep_wf timeout s s' : lstep timeout s s' -> launcher_wf s -> launcher_wf s'.
Proof.
  intros Hstep [H1 H2 H3 H4 H5]. unfold quiescent in *.
  destruct Hstep as [s| s n | | | | | | | | | | | | | | | | | | | | ];
    destruct s as [c l x pg pc ca fc rg se ph]; cbn in *; subst.
  all: try (destruct ph; cbn in *; try discriminate; subst).
  all: constructor; unfold quiescent; cbn.
  all: try (intros; discriminate).
  all: try (intros; assumption).
  all: try reflexivity.
  all: try clear H5.
  all: try (intros a [= <-]; reflexivity).
  all: try solve [try destruct pc; try destruct rg; try destruct gone; cbn; intuition (try lia; try congruence)].
Qed.

Lemma launcher_reachable_wf timeout n s : rtc (lstep timeout) (launched n) s -> launcher_wf s.
Proof. intros H. pose proof (launched_wf n) as Hw. induction H; eauto using lstep_wf. Qed.

(** Heartbeats stop, and the registration goes, only after every coordinator,
    loop and execution has ended; when [run] answers nothing is left running. *)
Theorem shutdown_order timeout n s :
  rtc (lstep timeout) (launched n) s ->
  (ping_cancelled s = true -> quiescent s) /\
  (in_registry s = false -> quiescent s /\ pinging s = false) /\
  (forall a, at_phase s = Done a -> quiescent s /\ pinging s = false /\ a = answer s (force_cancelled s)).
Proof.
  intros Hr. destruct (launcher_reachable_wf _ _ _ Hr) as [H1 H2 H3 H4 _]. split_and!; [done| |].
  - intros Hreg. destruct (H3 Hreg). auto.
  - intros a Ha. rewrite Ha in H1. destruct H1. auto.
Qed.

Lemma first_failure_stays timeout s s' e :
  rtc (lstep timeout) s s' -> shutdown_error s = Some e -> shutdown_error s' = Some e.
Proof.
  induction 1 as [|s s1 s2 Hstep _ IH]; [done|]. intros He. apply IH. clear IH.
  assert (forall r, record_task_result r (Some e) = Some e) as Hrec by (by intros [[|]|]).
  destruct Hstep; cbn -[record_task_result]; rewrite ?He; first [done | apply Hrec].
Qed.

(** The first failure is the answer, whatever fails after it and however the
    shutdown ends. *)
Theorem first_failure_wins timeout n s s' e a :
  rtc (lstep timeout) (launched n) s -> shutdown_error s = Some e ->
  rtc (lstep timeout) s s' -> at_phase s' = Done a -> a = Err e.
Proof.
  intros Hr He Hr' Ha. pose proof (first_failure_stays _ _ _ _ Hr' He) as He'.
  assert (launcher_wf s') as Hw by (eapply launcher_reachable_wf; by etrans).
  rewrite (wf_done _ Hw a Ha). unfold answer. by rewrite He'.
Qed.

(** ** The shutdown is never stuck *)

Section Finishes.
Variable timeout : bool.
(** [run] can answer, without forcing what is not forced yet. *)
Definition finishes (s : launcher) : Prop :=
  exists s' a, rtc (lstep timeout) s s' /\ at_phase s' = Done a /\ force_cancelled s' = force_cancelled s.

Lemma finishes_step s s' : lstep timeout s s' -> force_cancelled s' = force_cancelled s -> finishes s' -> finishes s.
Proof. intros H Hf (s'' & a & Hr & Ha & Hf'). exists s'', a. split; [by eapply rtc_l|]. split; [done|congruence]. Qed.

Lemma finishes_done s a : at_phase s = Done a -> finishes s.
Proof. intros H. exists s, a. split; [apply rtc_refl|done]. Qed.

Lemma finishes_joined s : at_phase s = DrainPing \/ at_phase s = ForcePing -> pinging s = false -> finishes s.
Proof.
  intros [Hp|Hp] E.
  - eapply finishes_step; [by apply l_ping_done|done|]. eapply finishes_step; [by apply l_cleaned|done|]. by eapply finishes_done.
  - eapply finishes_step; [by apply l_force_ping_done|done|]. by eapply finishes_done.
Qed.
Lemma finishes_ping s : at_phase s = DrainPing \/ at_phase s = ForcePing -> finishes s.
Proof.
  intros Hp. destruct (pinging s) eqn:E; [|by apply finishes_joined].
  eapply (finishes_step s (join_task (coordinators s) (loops s) false (Some (Ok tt)) s)); [|done|by apply finishes_joined].
  apply l_join_ping; [done| |done]. by destruct Hp as [-> | ->].
Qed.

Lemma finishes_tasks s : at_phase s = DrainTasks \/ at_phase s = ForceTasks -> finishes s.
Proof.
  remember (executions s) as n eqn:En. revert s En. induction n as [|n IH]; intros s En Hp.
  - destruct Hp as [Hp|Hp].
    + eapply finishes_step; [by apply l_tasks_done|done|]. apply finishes_ping. by left.
    + eapply finishes_step; [by apply l_force_tasks_done|done|]. apply finishes_ping. by right.
  - eapply finishes_step; [by apply (l_execution_ends _ s n)|done|]. by apply IH.
Qed.

Lemma finishes_loops s : at_phase s = DrainLoops \/ at_phase s = ForceLoops -> finishes s.
Proof.
  remember (loops s) as n eqn:En. revert s En. induction n as [|n IH]; intros s En Hp.
  - destruct Hp as [Hp|Hp].
    + eapply finishes_step; [by apply l_loops_done|done|]. apply finishes_tasks. by left.
    + eapply finishes_step; [by apply l_force_loops_done|done|]. apply finishes_tasks. by right.
  - eapply finishes_step; [apply (l_join_loop _ s n (Some (Ok tt))); [done| |done]; by destruct Hp as [-> | ->]|done|].
    by apply IH.
Qed.

Lemma finishes_coordinators s : at_phase s = DrainCoordinators \/ at_phase s = ForceCoordinators -> finishes s.
Proof.
  remember (coordinators s) as n eqn:En. revert s En. induction n as [|n IH]; intros s En Hp.
  - destruct Hp as [Hp|Hp].
    + eapply finishes_step; [by apply l_coordinators_done|done|]. apply finishes_loops. by left.
    + eapply finishes_step; [by apply l_force_coordinators_done|done|]. apply finishes_loops. by right.
  - eapply finishes_step; [apply (l_join_coordinator _ s n (Some (Ok tt))); [done| |done]; by destruct Hp as [-> | ->]|done|].
    by apply IH.
Qed.
End Finishes.

(** From every state the launcher can be in, [run] can still answer. *)
Lemma launcher_finishes timeout s : finishes timeout s.
Proof.
  destruct (at_phase s) eqn:E; eauto using finishes_coordinators, finishes_loops, finishes_tasks, finishes_ping, finishes_done.
  - eapply finishes_step; [by apply l_signal|done|]. apply finishes_coordinators. by left.
  - eapply finishes_step; [by apply l_cleaned|done|]. by eapply finishes_done.
Qed.
