(* ===== verification/Node.v ===== *)
(** * A process: the launcher and its coordinators ([launcher.rs], [coordinator.rs])

    [Runtime] counts the tasks of the launcher; [Pipeline] is one coordinator.
    Here the coordinators of a launcher are those of [Pipeline]: each is a task
    of its join set until it is joined, its dispatchers, batchers and
    executions are what the task tracker follows, and the tokens are shared.
    [view] forgets the coordinators; it simulates the launcher of [Runtime]. *)
From S2P Require Import Prelude Errors Envelope Queue Storage Resilience Permits Executor Registry Dispatcher Coordinator Pipeline Runtime.
Open Scope nat_scope.

Record slot := { sl_queue : QueueConfig; sl_state : coordinator; sl_joined : bool }.
Record node := Build_node { nd_own : launcher; nd_slots : list slot }.

Definition set_state (c : coordinator) (s : slot) : slot := {| sl_queue := sl_queue s; sl_state := c; sl_joined := sl_joined s |}.
Definition joined_as (c : coordinator) (s : slot) : slot := {| sl_queue := sl_queue s; sl_state := c; sl_joined := true |}.

(** The futures of a coordinator that [runtime.tasks] tracks. *)
Definition tracked (c : coordinator) : nat :=
  weigh (fun d => if stopped d then 0 else 1) (co_dispatchers c)
  + weigh (fun b => if finished b then 0 else 1) (co_batchers c) + length (co_running c).
Definition busy (slots : list slot) : nat := weigh (fun s => tracked (sl_state s)) slots.

(** The launcher, all that it tracks counted. [executions] of [nd_own] are the
    other futures: configuration watchers, collectors, cron jobs. *)
Definition view (n : node) : launcher := set_executions (executions (nd_own n) + busy (nd_slots n)) (nd_own n).

(** [cancel_token] and [force_cancel_token] are shared. *)
Definition sync (l : launcher) (c : coordinator) : coordinator :=
  let c := if cancelled l then cancel c else c in if force_cancelled l then force c else c.
Definition sync_slot (l : launcher) (s : slot) : slot := set_state (sync l (sl_state s)) s.

(** The future of [coordinator::run] is dropped. *)
Definition drop_router (c : coordinator) : coordinator :=
  if co_receiving c then stop_router (leave (option_list (co_routing c)) (set_routing None c)) else c.

(** How a coordinator's task ends, under the tokens of [l]: it has left its loop
    (that its executions have ended by then is not asked for: the batches may
    outlive it); it never registered; it is aborted. *)
Inductive ends (l : launcher) : coordinator -> coordinator -> Prop :=
| en_finished c : co_receiving c = false -> ends l c c
| en_unregistered c : cancelled l = true -> c = co_start \/ c = cancel co_start -> ends l c (stop_router (cancel c))
| en_aborted c : force_cancelled l = true -> ends l c (drop_router c).

#[local] Arguments weigh : simpl never.

Section Steps.
Variable batch_of : string -> option WorkerBatchConfig.
Variable limit_allowed : string -> nat -> Prop.
Variable timeout : bool.
Hypothesis batches_positive : forall n c, batch_of n = Some c -> 0 < batch_size c.
Local Abbreviation cstep s := (cstep (sl_queue s) batch_of limit_allowed).
Local Abbreviation cwf s := (cwf (sl_queue s) batch_of limit_allowed).

(** A task of a coordinator moves: once the coordinator is joined, one that is
    still tracked, and no queue is tracked any more. *)
Definition works (n : node) (s : slot) (c' : coordinator) : Prop :=
  cstep s (sl_state s) c' /\
  (sl_joined s = true -> 0 < executions (view n) /\ (co_dispatchers c').*1 = (co_dispatchers (sl_state s)).*1).

Inductive node_step : node -> node -> Prop :=
| nd_work n s1 s s2 c' :
    nd_slots n = s1 ++ s :: s2 -> works n s c' ->
    co_cancelled c' = co_cancelled (sl_state s) -> co_forced c' = co_forced (sl_state s) ->
    node_step n (Build_node (nd_own n) (s1 ++ set_state c' s :: s2))
(** A task fails: [fail]. *)
| nd_fail n s1 s s2 c' e :
    nd_slots n = s1 ++ s :: s2 -> works n s c' -> co_cancelled c' = true -> co_forced c' = co_forced (sl_state s) ->
    node_step n (Build_node (fail e (nd_own n)) (sync_slot (fail e (nd_own n)) <$> s1 ++ set_state c' s :: s2))
(** The launcher moves, or a task that is no coordinator's. *)
| nd_own_step n l' :
    lstep timeout (view n) l' -> coordinators l' = coordinators (nd_own n) -> busy (nd_slots n) <= executions l' ->
    node_step n (Build_node (set_executions (executions l' - busy (nd_slots n)) l') (sync_slot l' <$> nd_slots n))
(** It joins a coordinator. *)
| nd_join n s1 s s2 c' l' :
    nd_slots n = s1 ++ s :: s2 -> sl_joined s = false -> ends l' (sl_state s) c' ->
    lstep timeout (view n) l' -> coordinators (nd_own n) = S (coordinators l') ->
    node_step n (Build_node (set_executions (executions (nd_own n)) l') (sync_slot l' <$> s1 ++ joined_as c' s :: s2)).

Definition node_start (queues : list QueueConfig) : node :=
  {| nd_own := launched (length queues);
     nd_slots := (fun q => {| sl_queue := q; sl_state := co_start; sl_joined := false |}) <$> queues |}.

(** ** The launcher of a node is that of [Runtime] *)

Record slot_ok (l : launcher) (s : slot) : Prop := {
  so_reachable : rtc (cstep s) co_start (sl_state s);
  so_cancelled : co_cancelled (sl_state s) = cancelled l;
  so_forced : co_forced (sl_state s) = force_cancelled l;
  so_joined : sl_joined s = true -> co_receiving (sl_state s) = false;
}.
Definition unjoined (slots : list slot) : nat := weigh (fun s => if sl_joined s then 0 else 1) slots.
Definition tokens_ok (l : launcher) : Prop :=
  (at_phase l = Runtime.Running \/ cancelled l = true) /\ (force_cancelled l = true -> cancelled l = true).
Record node_ok (n : node) : Prop := {
  no_launcher : launcher_wf (view n);
  no_tokens : tokens_ok (nd_own n);
  no_count : coordinators (nd_own n) = unjoined (nd_slots n);
  no_slots : Forall (slot_ok (nd_own n)) (nd_slots n);
}.

Lemma tokens_step s s' : lstep timeout s s' -> tokens_ok s -> tokens_ok s' /\
  (cancelled s = true -> cancelled s' = true) /\ (force_cancelled s = true -> force_cancelled s' = true).
Proof.
  intros Hstep [H1 H2]. unfold tokens_ok. destruct Hstep; destruct s; cbn in *; subst; cbn;
    repeat match goal with H : draining ?p = true |- _ => destruct p; cbn in H; try discriminate H end;
    rewrite ?orb_true_iff; naive_solver.
Qed.

Lemma set_executions_same s : set_executions (executions s) s = s.
Proof. by destruct s. Qed.
Lemma set_executions_twice m k s : set_executions m (set_executions k s) = set_executions m s.
Proof. done. Qed.

(** The tracked futures come and go. *)
Lemma executions_end k s m : executions s = k + m -> rtc (lstep timeout) s (set_executions m s).
Proof.
  revert s. induction k as [|k IH]; intros s E; [cbn in E; rewrite <- E, set_executions_same; apply rtc_refl|].
  eapply rtc_l; [by apply (l_execution_ends _ s (k + m))|]. rewrite <- (set_executions_twice m (k + m) s). by apply IH.
Qed.
Lemma executions_spawn k s : 0 < coordinators s + loops s + executions s -> rtc (lstep timeout) s (set_executions (k + executions s) s).
Proof.
  intros H. induction k as [|k IH]; [rewrite Nat.add_0_l, set_executions_same; apply rtc_refl|].
  eapply rtc_r; [exact IH|]. rewrite <- (set_executions_twice _ (k + executions s) s). apply (l_spawn _ (set_executions _ s)). cbn. lia.
Qed.
Lemma executions_change s m : 0 < coordinators s + loops s + executions s -> rtc (lstep timeout) s (set_executions m s).
Proof.
  intros H. destruct (decide (m <= executions s)).
  - apply (executions_end (executions s - m)). lia.
  - replace m with ((m - executions s) + executions s) by lia. by apply executions_spawn.
Qed.

Lemma tracked_sync l c : tracked (sync l c) = tracked c.
Proof. unfold sync. by destruct c, (cancelled l), (force_cancelled l). Qed.
Lemma busy_sync l slots : busy (sync_slot l <$> slots) = busy slots.
Proof. unfold busy. rewrite weigh_fmap. apply weigh_ext. intros s. apply tracked_sync. Qed.
Lemma unjoined_sync l slots : unjoined (sync_slot l <$> slots) = unjoined slots.
Proof. unfold unjoined. rewrite weigh_fmap. by apply weigh_ext. Qed.

Lemma cstep_receiving s c c' : cstep s c c' -> co_receiving c = false -> co_receiving c' = false.
Proof.
  intros Hstep Hr. destruct Hstep as [H|H|H|H|H|H|H|H]; inversion H; subst; clear H; destruct c; cbn in *;
    repeat match goal with lost : option JobId |- _ => destruct lost end; by cbn in *.
Qed.

(** A coordinator as it may be when the tokens are passed on. *)
Record slot_pre (l : launcher) (s : slot) : Prop := {
  sp_reachable : rtc (cstep s) co_start (sl_state s);
  sp_cancelled : co_cancelled (sl_state s) = true -> cancelled l = true;
  sp_forced : co_forced (sl_state s) = true -> force_cancelled l = true;
  sp_joined : sl_joined s = true -> co_receiving (sl_state s) = false;
}.
Lemma slot_synced l s : (force_cancelled l = true -> cancelled l = true) -> slot_pre l s -> slot_ok l (sync_slot l s).
Proof.
  intros Hl [Hr Hc Hf Hj]. unfold sync_slot. set (c := sl_state s) in *. constructor; cbn [set_state sl_state sl_queue sl_joined].
  - etrans; [exact Hr|]. unfold sync. assert (forall c, rtc (cstep s) c (cancel c)) as H1
      by (intros; apply rtc_once, cs_life, co_cancel).
    destruct (force_cancelled l) eqn:Ef; [rewrite (Hl eq_refl)|by destruct (cancelled l)].
    eapply rtc_r; [apply H1|]. apply cs_life, co_force. by destruct c.
  - unfold sync. destruct (cancelled l) eqn:Ec; destruct (force_cancelled l); destruct c as [??????? []]; cbn in *; by try specialize (Hc eq_refl).
  - unfold sync. destruct (cancelled l), (force_cancelled l) eqn:Ef; destruct c as [???????? []]; cbn in *; by try specialize (Hf eq_refl).
  - intros Ej. specialize (Hj Ej). unfold sync. by destruct (cancelled l), (force_cancelled l), c.
Qed.
Lemma slot_ok_pre l l' s : slot_ok l s -> (cancelled l = true -> cancelled l' = true) ->
  (force_cancelled l = true -> force_cancelled l' = true) -> slot_pre l' s.
Proof. intros [Hr Hc Hf Hj] H1 H2. constructor; [done| | |done]; [rewrite Hc|rewrite Hf]; done. Qed.
Lemma slots_synced l slots : (force_cancelled l = true -> cancelled l = true) -> Forall (slot_pre l) slots ->
  Forall (slot_ok l) (sync_slot l <$> slots).
Proof. intros Hl H. apply Forall_fmap. eapply Forall_impl; [exact H|]. intros s. by apply slot_synced. Qed.
Lemma slots_synced_executions m l slots : (force_cancelled l = true -> cancelled l = true) -> Forall (slot_pre l) slots ->
  Forall (slot_ok (set_executions m l)) (sync_slot l <$> slots).
Proof. intros Hl H. eapply Forall_impl; [by apply slots_synced|]. intros s []. by constructor. Qed.
Lemma slots_pre l l' slots : Forall (slot_ok l) slots -> (cancelled l = true -> cancelled l' = true) ->
  (force_cancelled l = true -> force_cancelled l' = true) -> Forall (slot_pre l') slots.
Proof. intros H H1 H2. eapply Forall_impl; [exact H|]. intros s Hs. by eapply slot_ok_pre. Qed.

(** A coordinator that ends was one that could. *)
Lemma ends_pre l l' s c' : slot_ok l s -> ends l' (sl_state s) c' -> (cancelled l = true -> cancelled l' = true) ->
  force_cancelled l' = force_cancelled l -> (force_cancelled l' = true -> cancelled l' = true) ->
  slot_pre l' (joined_as c' s) /\ tracked c' = tracked (sl_state s).
Proof.
  intros Hs Hends H1 H2 H3. pose proof (slot_ok_pre l l' s Hs H1) as Hpre. rewrite H2 in Hpre. destruct (Hpre ltac:(done)) as [Hr Hc Hf Hj].
  destruct Hs as [_ Hsc Hsf _]. remember (sl_state s) as c eqn:Ec. destruct Hends as [c Hrec|c Hcan Hnew|c Hforce].
  - split; [|done]. by constructor.
  - split; [|by destruct Hnew as [->| ->]]. constructor; cbn [joined_as sl_state sl_queue sl_joined]; [|done| |].
    + etrans; [exact Hr|]. eapply rtc_l; [apply cs_life, co_cancel|]. apply rtc_once, cs_life, co_stop_router; by destruct Hnew as [->| ->].
    + by destruct Hnew as [->| ->].
    + by destruct Hnew as [->| ->].
  - unfold drop_router. destruct (co_receiving c) eqn:Erec; [|by split; [constructor|]].
    rewrite H2, <- Hsf in Hforce. split; [|by destruct c]. constructor; cbn [joined_as sl_state sl_queue sl_joined].
    + eapply rtc_r; [exact Hr|]. by apply cs_life, co_force_router.
    + intros E. apply Hc. by destruct c.
    + intros E. apply Hf. by destruct c.
    + intros _. by destruct c.
Qed.

Lemma busy_change s1 s s2 c' : tracked c' = tracked (sl_state s) ->
  busy (s1 ++ joined_as c' s :: s2) = busy (s1 ++ s :: s2).
Proof. intros E. unfold busy. rewrite !weigh_app, !weigh_cons. cbn [joined_as sl_state]. by rewrite E. Qed.
Lemma unjoined_state s1 s s2 c' : unjoined (s1 ++ set_state c' s :: s2) = unjoined (s1 ++ s :: s2).
Proof. unfold unjoined. rewrite !weigh_app, !weigh_cons. done. Qed.
Lemma unjoined_joined s1 s s2 c' : sl_joined s = false -> unjoined (s1 ++ s :: s2) = S (unjoined (s1 ++ joined_as c' s :: s2)).
Proof. intros E. unfold unjoined. rewrite !weigh_app, !weigh_cons, E. cbn. lia. Qed.

Lemma works_tasks n s1 s s2 c' : node_ok n -> nd_slots n = s1 ++ s :: s2 -> works n s c' ->
  0 < coordinators (view n) + loops (view n) + executions (view n).
Proof.
  intros Hn E [_ Hw]. destruct (sl_joined s) eqn:Ej; [destruct Hw; [done|lia]|].
  pose proof (no_count _ Hn) as Hc. rewrite E, (unjoined_joined _ _ _ (sl_state s) Ej) in Hc. cbn. lia.
Qed.

Lemma works_pre l s n c' : slot_ok l s -> works n s c' -> co_forced c' = co_forced (sl_state s) ->
  forall l', (co_cancelled c' = true -> cancelled l' = true) -> (force_cancelled l = true -> force_cancelled l' = true) ->
  slot_pre l' (set_state c' s).
Proof.
  intros [Hr Hc Hf Hj] [Hstep _] Hforced l' H1 H2. constructor; cbn [set_state sl_state sl_queue sl_joined].
  - by eapply rtc_r.
  - done.
  - rewrite Hforced, Hf. done.
  - intros E. by eapply cstep_receiving, Hj.
Qed.

Lemma view_after l' slots slots' : busy slots' = busy slots -> busy slots <= executions l' ->
  view (Build_node (set_executions (executions l' - busy slots) l') slots') = l'.
Proof.
  intros E Hle. unfold view. cbn [nd_own nd_slots executions set_executions]. rewrite E, set_executions_twice.
  replace (_ - _ + _) with (executions l') by lia. apply set_executions_same.
Qed.

(** Joining a coordinator ends no execution. *)
Lemma join_executions s s' : lstep timeout s s' -> coordinators s = S (coordinators s') ->
  executions s' = executions s /\ force_cancelled s' = force_cancelled s.
Proof. intros Hstep E. destruct Hstep; cbn in *; solve [lia|done]. Qed.

Lemma node_step_ok n n' : node_step n n' -> node_ok n -> rtc (lstep timeout) (view n) (view n') /\ node_ok n'.
Proof.
  intros Hstep Hn. assert (rtc (lstep timeout) (view n) (view n') /\ tokens_ok (nd_own n') /\
    coordinators (nd_own n') = unjoined (nd_slots n') /\ Forall (slot_ok (nd_own n')) (nd_slots n')) as (Hview & ? & ? & ?).
  2: { split; [done|]. constructor; [|done..]. pose proof (no_launcher _ Hn) as Hw.
       clear -Hview Hw. induction Hview; eauto using lstep_wf. }
  pose proof Hn as [_ Ht Hc Hs]. pose proof (proj2 Ht) as Hft.
  destruct Hstep as [n s1 s s2 c' E Hw Hcan Hfor|n s1 s s2 c' e E Hw Hcan Hfor|n l' Hl Hco Hb|n s1 s s2 c' l' E Hj He Hl Hco].
  - pose proof (works_tasks _ _ _ _ _ Hn E Hw) as Hpos. cbn [nd_own nd_slots]. rewrite E in Hs. split_and!; [|done|by rewrite unjoined_state, Hc, E|].
    + unfold view at 2. cbn [nd_own nd_slots].
      rewrite <- (set_executions_twice _ (executions (nd_own n) + busy (nd_slots n)) (nd_own n)). by apply executions_change.
    + apply Forall_app in Hs as [Hs1 [Hs Hs2]%Forall_cons]. apply Forall_app. split; [done|]. constructor; [|done].
      destruct (works_pre _ _ _ _ Hs Hw Hfor (nd_own n)) as [H1 _ _ H4]; [|done|]; [rewrite Hcan; by rewrite (so_cancelled _ _ Hs)|].
      constructor; [done| | |done]; cbn [set_state sl_state]; [rewrite Hcan|rewrite Hfor]; apply Hs.
  - pose proof (works_tasks _ _ _ _ _ Hn E Hw) as Hpos. cbn [nd_own nd_slots]. rewrite E in Hs.
    destruct (tokens_step (view n) (fail e (view n))) as (Ht' & H1 & H2); [by apply l_task_fails|done|].
    split_and!; [|done|by rewrite unjoined_sync, unjoined_state, <- E|].
    + unfold view at 2. cbn [nd_own nd_slots]. rewrite busy_sync. eapply rtc_l; [by apply (l_task_fails _ (view n) e)|].
      match goal with |- rtc _ _ (set_executions ?m (fail e (nd_own n))) =>
        change (set_executions m (fail e (nd_own n))) with (set_executions m (fail e (view n))) end. by apply executions_change.
    + apply slots_synced; [apply Ht'|]. apply Forall_app in Hs as [Hs1 [Hs Hs2]%Forall_cons].
      apply Forall_app. split; [by eapply slots_pre|]. constructor; [|by eapply slots_pre]. eapply works_pre; [done..| |done].
      intros _. cbn. apply orb_true_r.
  - destruct (tokens_step (view n) l' Hl) as (Ht' & H1 & H2); [done|]. cbn [nd_own nd_slots].
    split_and!; [|done|by rewrite unjoined_sync, <- Hc|apply slots_synced_executions; [apply Ht'|by eapply slots_pre]].
    rewrite view_after by (done || apply busy_sync). by apply rtc_once.
  - destruct (tokens_step (view n) l' Hl) as (Ht' & H1 & H2); [done|]. rewrite E in Hs.
    destruct (join_executions (view n) l' Hl Hco) as [Hex Hf].
    apply Forall_app in Hs as [Hs1 [Hs Hs2]%Forall_cons]. destruct (ends_pre _ _ _ _ Hs He H1 Hf (proj2 Ht')) as [Hpre Htr].
    cbn [nd_own nd_slots]. split_and!; [|done| |].
    + replace (executions (nd_own n)) with (executions l' - busy (nd_slots n)) by (rewrite Hex; cbn; lia).
      rewrite view_after; [by apply rtc_once| |rewrite Hex; cbn; lia]. by rewrite busy_sync, busy_change, E.
    + rewrite unjoined_sync. cbn. rewrite E, (unjoined_joined s1 s s2 c' Hj) in Hc. lia.
    + apply slots_synced_executions; [apply Ht'|]. apply Forall_app. split; [by eapply slots_pre|]. constructor; [done|by eapply slots_pre].
Qed.

Lemma node_start_ok queues : node_ok (node_start queues).
Proof.
  assert (busy (nd_slots (node_start queues)) = 0) as Hb.
  { unfold busy, node_start. cbn [nd_slots]. rewrite weigh_fmap. by induction queues. }
  constructor.
  - unfold view. rewrite Hb. apply launched_wf.
  - by split; [left|].
  - unfold unjoined, node_start. cbn [nd_slots nd_own launched coordinators]. rewrite weigh_fmap.
    trans (weigh (fun _ => 1) queues); [|by apply weigh_ext].
    clear Hb. induction queues as [|q queues IH]; [done|]. by rewrite weigh_cons, <- IH.
  - apply Forall_fmap, Forall_true. intros q. by constructor.
Qed.
Lemma node_reachable_ok n n' : rtc node_step n n' -> node_ok n -> node_ok n'.
Proof. induction 1 as [|n n1 n' Hstep _ IH]; [done|]. intros Hn. by apply IH, (node_step_ok n). Qed.

(** ** The end of a process *)

Lemma tracked_rest c : co_receiving c = false -> tracked c = 0 -> at_rest c.
Proof.
  intros Hr Ht. unfold tracked in Ht. assert (forall A (f : A -> bool) l, weigh (fun a => if f a then 0 else 1) l = 0 -> forallb f l = true) as Hall.
  { intros A f l. induction l as [|a l IH]; [done|]. rewrite weigh_cons. cbn. destruct (f a); [|lia]. apply IH. }
  split_and!; [apply Hall; lia|done|apply Hall; lia|]. destruct (co_running c); [done|cbn in Ht; lia].
Qed.
Lemma rest_tracked c : at_rest c -> tracked c = 0.
Proof.
  intros (Hd & _ & Hb & Hru). unfold tracked. rewrite Hru.
  assert (forall A (f : A -> bool) l, forallb f l = true -> weigh (fun a => if f a then 0 else 1) l = 0) as Hall.
  { intros A f l. induction l as [|a l IH]; [done|]. cbn. intros [Ha Hl]%andb_true_iff. rewrite weigh_cons, Ha. auto. }
  by rewrite !Hall.
Qed.
Lemma weigh_zero {A} (w : A -> nat) l : weigh w l = 0 -> Forall (fun a => w a = 0) l.
Proof. induction l as [|a l IH]; [done|]. rewrite weigh_cons. intros H. constructor; [lia|apply IH; lia]. Qed.

Lemma quiescent_rests n : node_ok n -> quiescent (view n) -> Forall (fun s => at_rest (sl_state s)) (nd_slots n).
Proof.
  intros [_ _ Hc Hs] (Hco & _ & Hex). cbn in Hco, Hex. rewrite Hc in Hco. apply weigh_zero in Hco.
  assert (busy (nd_slots n) = 0) as Hb by lia. apply weigh_zero in Hb.
  rewrite Forall_forall in Hco. rewrite Forall_forall in Hb. rewrite Forall_forall in Hs. apply Forall_forall. intros s Hin.
  specialize (Hco s Hin). apply tracked_rest; [|by apply Hb]. apply (so_joined _ _ (Hs s Hin)). by destruct (sl_joined s).
Qed.


(** ** A process can end *)

(** Every coordinator can be brought to rest, whether it is joined or not. *)
Lemma rest_slot own s1 s s2 : cancelled own = true -> node_ok (Build_node own (s1 ++ s :: s2)) ->
  exists c', rtc node_step (Build_node own (s1 ++ s :: s2)) (Build_node own (s1 ++ set_state c' s :: s2)) /\ at_rest c'.
Proof.
  intros Hcan. remember (work (sl_state s)) as k eqn:Ek. revert s Ek.
  induction (Nat.lt_wf_0 k) as [k _ IH]. intros s -> Hn.
  pose proof (no_slots _ Hn) as Hs. cbn [nd_own nd_slots] in Hs. apply Forall_app in Hs as [_ [Hs _]%Forall_cons].
  assert (set_state (sl_state s) s = s) as Hsame by (by destruct s).
  destruct (decide (tracked (sl_state s) = 0 /\ co_receiving (sl_state s) = false)) as [[Ht Hrec]|Hbusy].
  { exists (sl_state s). rewrite Hsame. split; [apply rtc_refl|by apply tracked_rest]. }
  destruct (rest_step (sl_queue s) batch_of limit_allowed batches_positive (sl_state s)) as [Hrest|(c1 & Hstep & (Hc1 & Hf1 & Hd1) & Hw)].
  { apply reachable_wf; [done|]. apply Hs. }
  { by rewrite (so_cancelled _ _ Hs). }
  { destruct Hbusy. split; [by apply rest_tracked|by apply Hrest]. }
  assert (node_step (Build_node own (s1 ++ s :: s2)) (Build_node own (s1 ++ set_state c1 s :: s2))) as Hnode.
  { apply (nd_work (Build_node own (s1 ++ s :: s2)) s1 s s2 c1); [done| |done..]. split; [done|]. intros Ej. split; [|done].
    cbn. pose proof (so_joined _ _ Hs Ej) as Hrec. unfold busy. rewrite weigh_app, weigh_cons.
    destruct (tracked (sl_state s)); [|lia]. by destruct Hbusy. }
  destruct (IH _ Hw (set_state c1 s) eq_refl) as (c' & Hr & Hrest); [by apply (node_step_ok _ _ Hnode)|].
  exists c'. split; [|done]. by eapply rtc_l.
Qed.

Lemma rest_slots own todo : cancelled own = true -> forall done_, Forall (fun s => at_rest (sl_state s)) done_ ->
  node_ok (Build_node own (done_ ++ todo)) ->
  exists slots, rtc node_step (Build_node own (done_ ++ todo)) (Build_node own slots) /\ Forall (fun s => at_rest (sl_state s)) slots.
Proof.
  intros Hcan. induction todo as [|s todo IH]; intros done_ Hd Hn.
  { rewrite app_nil_r in *. exists done_. split; [apply rtc_refl|done]. }
  destruct (rest_slot own done_ s todo Hcan Hn) as (c' & Hr & Hrest).
  replace (done_ ++ set_state c' s :: todo) with ((done_ ++ [set_state c' s]) ++ todo) in Hr by (by rewrite <- app_assoc).
  destruct (IH (done_ ++ [set_state c' s])) as (slots & Hr' & Hall).
  - apply Forall_app. split; [done|]. by constructor.
  - by eapply node_reachable_ok.
  - exists slots. split; [by etrans|done].
Qed.

Lemma rest_sync l c : at_rest c -> at_rest (sync l c).
Proof. unfold sync. intros H. destruct c, (cancelled l), (force_cancelled l); exact H. Qed.
Lemma rests_sync l slots : Forall (fun s => at_rest (sl_state s)) slots -> Forall (fun s => at_rest (sl_state s)) (sync_slot l <$> slots).
Proof. intros H. apply Forall_fmap. eapply Forall_impl; [exact H|]. intros s. apply rest_sync. Qed.
Lemma rests_busy slots : Forall (fun s => at_rest (sl_state s)) slots -> busy slots = 0.
Proof. unfold busy. induction 1 as [|s slots Hs _ IH]; [done|]. by rewrite weigh_cons, (rest_tracked _ Hs), IH. Qed.

(** With the coordinators at rest they can all be joined. *)
Lemma joins_all k : forall n, unjoined (nd_slots n) = k -> node_ok n ->
  may_join_coordinators (at_phase (nd_own n)) = true -> Forall (fun s => at_rest (sl_state s)) (nd_slots n) ->
  exists n', rtc node_step n n' /\ coordinators (view n') = 0 /\ Forall (fun s => at_rest (sl_state s)) (nd_slots n') /\
    force_cancelled (view n') = force_cancelled (view n).
Proof.
  induction k as [|k IH]; intros n Ek Hn Hph Hrest.
  { exists n. split; [apply rtc_refl|]. split; [|done]. cbn. by rewrite (no_count _ Hn). }
  destruct (first_not sl_joined (nd_slots n)) as [Hall|(s1 & s & s2 & E & Hj)].
  { exfalso. revert Ek Hall. clear. unfold unjoined. induction (nd_slots n) as [|s l IHl]; [done|]. rewrite weigh_cons. cbn.
    intros Ek [Hs Hl]%andb_true_iff. rewrite Hs in Ek. auto. }
  set (l' := join_task k (loops (view n)) (pinging (view n)) (Some (Ok tt)) (view n)).
  assert (coordinators (nd_own n) = S k) as Hco by (by rewrite (no_count _ Hn)).
  pose proof Hrest as Hrest'. rewrite E in Hrest'. apply Forall_app in Hrest' as [Hr1 [Hr Hr2]%Forall_cons].
  assert (node_step n (Build_node (set_executions (executions (nd_own n)) l') (sync_slot l' <$> s1 ++ joined_as (sl_state s) s :: s2))) as Hstep.
  { apply (nd_join n s1 s s2 (sl_state s) l'); [done|done|apply en_finished, Hr| |done]. by apply l_join_coordinator. }
  edestruct IH as (n' & Hr' & ? & ? & Hf'); [|exact (proj2 (node_step_ok _ _ Hstep Hn))|..].
  - cbn [nd_slots]. rewrite unjoined_sync. rewrite E, (unjoined_joined s1 s s2 (sl_state s) Hj) in Ek. by injection Ek.
  - done.
  - apply rests_sync, Forall_app. split; [done|]. by constructor.
  - exists n'. split; [by eapply rtc_l|]. split_and!; [done..|]. by rewrite Hf'.
Qed.

(** Once no coordinator is left, the launcher's steps are the node's. *)
Lemma launcher_alone s l' : rtc (lstep timeout) s l' -> forall n, view n = s -> coordinators s = 0 -> busy (nd_slots n) = 0 ->
  exists n', rtc node_step n n' /\ view n' = l'.
Proof.
  induction 1 as [s|s l1 l' Hstep _ IH]; intros n Hv Hco Hb; [by exists n; split; [apply rtc_refl|]|].
  assert (coordinators l1 = 0) as Hco1 by (destruct Hstep; cbn in *; congruence). rewrite <- Hv in Hstep, Hco.
  destruct (IH (Build_node (set_executions (executions l1 - busy (nd_slots n)) l1) (sync_slot l1 <$> nd_slots n))) as (n' & Hr & Hv').
  - apply view_after; [apply busy_sync|lia].
  - done.
  - cbn [nd_slots]. by rewrite busy_sync.
  - exists n'. split; [|done]. eapply rtc_l; [|exact Hr]. apply nd_own_step; [done| |lia]. cbn in Hco. congruence.
Qed.

Lemma node_can_answer n : node_ok n ->
  exists n' a, rtc node_step n n' /\ at_phase (nd_own n') = Done a /\ force_cancelled (nd_own n') = force_cancelled (nd_own n).
Proof.
  intros Hn.
  assert (exists n1, rtc node_step n n1 /\ cancelled (nd_own n1) = true /\ node_ok n1 /\
    force_cancelled (nd_own n1) = force_cancelled (nd_own n) /\ at_phase (nd_own n1) <> Runtime.Running)
    as (n1 & Hr1 & Hc1 & Hn1 & Hf1 & Hp1).
  { destruct (no_tokens _ Hn) as [Ht _]. destruct (at_phase (nd_own n)) eqn:Ep;
      try (exists n; split_and!; [apply rtc_refl|destruct Ht; [congruence|done]|done|done|by rewrite Ep]).
    eexists. split_and!; [apply rtc_once, (nd_own_step n (begin_shutdown (view n))); [by apply l_signal|done|cbn; lia]|done| |done|done].
    eapply node_step_ok; [|exact Hn]. apply nd_own_step; [by apply l_signal|done|cbn; lia]. }
  destruct n1 as [own slots]. destruct (rest_slots own slots Hc1 [] (Forall_nil_2 _) Hn1) as (slots2 & Hr2 & Hrest2).
  pose proof (node_reachable_ok _ _ Hr2 Hn1) as Hn2. set (n2 := Build_node own slots2) in *.
  assert (exists n3, rtc node_step n2 n3 /\ coordinators (view n3) = 0 /\ Forall (fun s => at_rest (sl_state s)) (nd_slots n3) /\
    force_cancelled (view n3) = force_cancelled own) as (n3 & Hr3 & Hc3 & Hrest3 & Hf3).
  { destruct (may_join_coordinators (at_phase own)) eqn:Ej; [by apply (joins_all _ n2 eq_refl Hn2)|].
    exists n2. split; [apply rtc_refl|]. split; [|done]. pose proof (no_launcher _ Hn2) as Hw.
    pose proof (wf_phase _ Hw) as Hph. pose proof (wf_ping _ Hw) as Hq. unfold quiescent in Hq. cbn in *.
    destruct (at_phase own); cbn in *; try done; first [apply Hph|apply Hq, Hph]. }
  destruct (launcher_finishes timeout (view n3)) as (l' & a & Hl & Ha & Hfl).
  destruct (launcher_alone _ _ Hl n3 eq_refl Hc3 (rests_busy _ Hrest3)) as (n4 & Hr4 & Hv4).
  exists n4, a. split; [by do 3 (etrans; [eassumption|])|]. rewrite <- Hv4 in Ha, Hfl. split; [exact Ha|].
  cbn in Hfl, Hf3, Hf1. congruence.
Qed.

(** C21. A process can always end: from every state it can reach, all its coordinators can come to rest and be joined
    and [run] can answer, without forcing the shutdown if the deadline has not passed; no phase waits for a task that
    cannot move. *)
Theorem process_can_answer queues n : rtc node_step (node_start queues) n ->
  exists n' a, rtc node_step n n' /\ at_phase (nd_own n') = Done a /\ force_cancelled (nd_own n') = force_cancelled (nd_own n).
Proof. intros Hr. by apply node_can_answer, (node_reachable_ok _ _ Hr), node_start_ok. Qed.

(** A coordinator at work while the others wait. *)
Definition token_free (s : slot) (c c' : coordinator) : Prop :=
  cstep s c c' /\ co_cancelled c' = co_cancelled c /\ co_forced c' = co_forced c.
Lemma coordinator_works own s1 s s2 c c' : sl_joined s = false -> rtc (token_free s) c c' ->
  rtc node_step (Build_node own (s1 ++ set_state c s :: s2)) (Build_node own (s1 ++ set_state c' s :: s2)).
Proof.
  intros Hj. induction 1 as [c|c c1 c' (Hstep & Hc & Hf) _ IH]; [apply rtc_refl|]. eapply rtc_l; [|exact IH].
  apply (nd_work (Build_node own _) s1 (set_state c s) s2 c1); [done| |done..]. split; [done|]. cbn. congruence.
Qed.
End Steps.
