(* ===== verification/Api.v ===== *)
(** * The monitoring half of the client's handle ([storage.rs])

    [Storage] pairs [StorageInternal] with the settings shared by all clones of
    a handle: the age after which a process counts as dead, which the runtime
    sets and the statistics use. The methods that enqueue or configure queues
    are in [Client]; the ones here hand over to [StorageInternal], some with
    that threshold. A [Queue] argument is only asked for its key. *)
From Stdlib Require Import QArith.
From S2P Require Import Prelude Errors Redis Envelope Queue Keys Scripts Storage Enqueue Metrics Stats StatsStorage Recovery Registry Runtime.
Open Scope Z_scope.

Record Storage := { internal : StorageInternal; monitored_threshold : Duration }.

(** [Storage::new], [set_dead_process_threshold]. *)
Definition storage_handle (st : StorageInternal) : Storage :=
  {| internal := st; monitored_threshold := DEFAULT_DEAD_PROCESS_THRESHOLD |}.
Definition set_dead_process_threshold (threshold : Duration) (s : Storage) : Storage :=
  {| internal := internal s; monitored_threshold := threshold |}.

(** The threshold in the unit of the process scores. *)
Definition threshold_ms (s : Storage) : Z := as_millis (monitored_threshold s).

(** The clock readings of one report: seconds, microseconds, milliseconds. *)
Record Clock := { c_secs : Z; c_micros : Z; c_millis : Z }.

Section Api.
Context `{Se : Serde} `{C : ConfigSerde} `{P : ProcessSerde}.
Variable s : Storage.
Local Abbreviation st := (internal s).
Open Scope prog_scope.

Definition api_namespace : string := namespace (skeys st).

(** ** Counts *)

Definition api_enqueued_count (q : string) : rprog nat := enqueued_count st q.
(** [latency_ms]: the age of the oldest job in milliseconds. *)
Definition api_latency_ms (q : string) (now_micros : Z) : rprog Q :=
  micros <-? latency_micros st q now_micros ;; lift (Ok (micros # 1000)).
Definition api_dead_count : rprog nat := dead_count st.
Definition api_retries_count : rprog nat := retries_count st.
Definition api_scheduled_count : rprog nat := scheduled_count st.
Definition api_jobs_count : rprog nat := jobs_count st.

(** ** Jobs *)

Definition api_delete_job (jid : JobId) : rprog unit := delete_job st jid.
Definition api_get_job (jid : JobId) : rprog (option JobEnvelope) := get_job st jid.
Definition api_enqueue_envelope (fuel : nat) (e : JobEnvelope) : rprog JobId := enqueue st fuel e.
Definition api_list_queue_jobs (q : string) (o : QueueListOpts) : rprog (list JobEnvelope) := list_queue_jobs st q o.
Definition api_list_dead (o : QueueListOpts) : rprog (list JobEnvelope) := list_dead st o.
Definition api_list_retries (o : QueueListOpts) : rprog (list JobEnvelope) := list_retries st o.
Definition api_list_scheduled (o : QueueListOpts) : rprog (list JobEnvelope) := list_scheduled st o.
Definition api_retry_all_now : rprog nat := retry_all_now st.
Definition api_wipe_queue (q : string) : rprog unit := wipe_queue st q.
Definition api_wipe_dead : rprog unit := wipe_dead st.
Definition api_revive_all_dead (fuel : nat) (uuid : string) : rprog nat :=
  revive_all_dead st (enqueue st fuel) uuid.

(** ** Reports *)

Definition api_stats_queues_for (patterns : list string) (c : Clock) : rprog (list QueueStats) :=
  stats_queues_for st patterns (c_secs c) (c_micros c).
Definition api_stats_queues (c : Clock) : rprog (list QueueStats) := stats_queues st (c_secs c) (c_micros c).
Definition api_stats (c : Clock) : rprog StatsReport :=
  stats_report st (threshold_ms s) (c_secs c) (c_micros c) (c_millis c).
Definition api_dashboard_stats (c : Clock) : rprog StatsReport :=
  dashboard_stats st (threshold_ms s) (c_secs c) (c_micros c) (c_millis c).
Definition api_processes (c : Clock) : rprog (list Process) := processes_alive st (threshold_ms s) (c_millis c).
Definition api_job_metrics (query : Z) (c : Clock) : rprog JobMetricsSnapshot := job_metrics st query (c_secs c).
Definition api_job_metrics_for (worker : string) (query : Z) (c : Clock) : rprog JobMetricsDetail :=
  job_metrics_for st worker query (c_secs c).
Definition api_queue_length_metrics (query : Z) (c : Clock) : rprog QueueLengthMetricsSnapshot :=
  queue_length_metrics st query (c_secs c).

(** ** Run-time configuration *)

Definition api_queue_configs (qs : list string) : rprog (gmap string QueueRuntimeConfig) := queue_configs_of st qs.
Definition api_reset_queue_config (q : string) : rprog unit := reset_queue_config st q.
End Api.
