(* ===== verification/Builder.v ===== *)
(** * Building a storage handle and a runtime ([storage_builder.rs],
    [RuntimeBuilder] of [runtime.rs], the signal and the error formatter of
    [config.rs])

    A builder method is a function on the builder, an option where it asserts.
    Connection pools, the environment, the identity of the process and user
    callbacks are parameters. *)
From S2P Require Import Prelude Errors Envelope Queue Keys Storage Executor Registry Resilience Runtime Api.
Open Scope Z_scope.

(** ** [StorageBuilder] *)

Record StorageBuilderTimeouts := { sb_wait : option Duration; sb_create : option Duration; sb_recycle : option Duration }.

Definition new_timeouts (d : Duration) : StorageBuilderTimeouts :=
  {| sb_wait := Some d; sb_create := Some d; sb_recycle := Some d |}.
Definition default_timeouts : StorageBuilderTimeouts :=
  {| sb_wait := Some (from_millis 300); sb_create := Some (from_millis 300); sb_recycle := Some (from_millis 300) |}.
(** [From<StorageBuilderTimeouts> for Timeouts]. *)
Definition pool_timeouts (t : StorageBuilderTimeouts) : Timeouts :=
  {| wait := sb_wait t; create := sb_create t; recycle := sb_recycle t |}.

Record StorageBuilder := {
  sb_namespace : option string;
  sb_max_pool_size : option Z;                                (* usize *)
  sb_timeouts : option StorageBuilderTimeouts;
  sb_claimed_connection_retries : option PoolRetryConfig;
  sb_redis_response_timeout : option Duration;
  sb_dead_job_limit : option Z;                               (* NonZeroUsize *)
}.

Definition DEFAULT_REDIS_RESPONSE_TIMEOUT : Duration := from_secs 60.

Definition new_storage_builder : StorageBuilder :=
  {| sb_namespace := None; sb_max_pool_size := None; sb_timeouts := None;
     sb_claimed_connection_retries := Some default_pool_retry; sb_redis_response_timeout := None;
     sb_dead_job_limit := Some 1000 |}.

(** What the environment answers for a variable: [std::env::VarError]. *)
Inductive VarError := NotPresent | NotUnicode (value : string).

(** What a pool is made of: the manager's connection settings and the pool's. *)
Record PoolSpec := {
  ps_url : string; ps_max_size : Z; ps_timeouts : Timeouts;
  ps_connection_timeout : option Duration; ps_response_timeout : Duration;
}.

(** What [StorageInternal::new] reads of its surroundings. *)
Record Identity := { i_started_at : Z; i_uuid : string; i_hostname : string; i_pid : Z }.

Section Building.
Context {Pool : Type}.
(** deadpool and the monotonic clock. *)
Variable build_pool : PoolSpec -> result OxanaError Pool.
Variable fits : Duration -> bool.
Variable me : Identity.

Record BuiltStorage := {
  built_handle : Api.Storage; built_pool : Pool; built_stats_pool : option Pool;
  built_claimed_retries : option PoolRetryConfig;
}.

Definition build_redis_pool (url : string) (max_pool_size : Z) (timeouts : StorageBuilderTimeouts)
    (redis_response_timeout : Duration) : result OxanaError Pool :=
  build_pool {| ps_url := url; ps_max_size := max_pool_size; ps_timeouts := pool_timeouts timeouts;
                ps_connection_timeout := sb_create timeouts; ps_response_timeout := redis_response_timeout |}.

(** The end of [build_from_pool] and [build_from_pools]. *)
Definition build_with (stats_pool : option Pool) (pool : Pool) (b : StorageBuilder) : result OxanaError BuiltStorage :=
  res_bind (match sb_claimed_connection_retries b with Some c => validate fits c | None => Ok tt end) (fun _ =>
  Ok {| built_handle := storage_handle (with_dead_job_limit (sb_dead_job_limit b)
          (new_storage (sb_namespace b) (bool_decide (is_Some stats_pool)) (i_started_at me) (i_uuid me) (i_hostname me) (i_pid me)));
        built_pool := pool; built_stats_pool := stats_pool;
        built_claimed_retries := sb_claimed_connection_retries b |}).
Definition build_from_pool (pool : Pool) (b : StorageBuilder) : result OxanaError BuiltStorage := build_with None pool b.
Definition build_from_pools (pool stats_pool : Pool) (b : StorageBuilder) : result OxanaError BuiltStorage :=
  build_with (Some stats_pool) pool b.

Definition builder_pool (b : StorageBuilder) (url : string) : result OxanaError Pool :=
  build_redis_pool url (default 50 (sb_max_pool_size b)) (default default_timeouts (sb_timeouts b))
    (default DEFAULT_REDIS_RESPONSE_TIMEOUT (sb_redis_response_timeout b)).

Definition build_from_redis_url (url : string) (b : StorageBuilder) : result OxanaError BuiltStorage :=
  res_bind (builder_pool b url) (fun pool => build_from_pool pool b).
Definition build_from_redis_urls (url stats_url : string) (b : StorageBuilder) : result OxanaError BuiltStorage :=
  res_bind (builder_pool b url) (fun pool =>
  res_bind (builder_pool b stats_url) (fun stats_pool => build_from_pools pool stats_pool b)).

Definition var_reason (e : VarError) : string :=
  match e with NotPresent => "is not set" | NotUnicode _ => "is not valid unicode" end.

Definition build_from_env_var (env : string -> result VarError string) (var_name : string) (b : StorageBuilder)
    : result OxanaError BuiltStorage :=
  res_bind (map_err (fun e => ConfigError (var_name +:+ " " +:+ var_reason e)) (env var_name)) (fun url =>
  match env "REDIS_STATS_URL" with
  | Ok stats_url => build_from_redis_urls url stats_url b
  | Err _ => build_from_redis_url url b
  end).
Definition build_from_env (env : string -> result VarError string) (b : StorageBuilder) : result OxanaError BuiltStorage :=
  build_from_env_var env "REDIS_URL" b.
End Building.

(** ** Settings

    The setters of single fields, which the builder's methods use. *)
Definition put_exit_when_processed (v : option Z) (s : RuntimeSettings) : RuntimeSettings :=
  let '(Build_RuntimeSettings _ st hb dp rs rf rp sp co cl ct dt ds tf qa qd) := s in
  Build_RuntimeSettings v st hb dp rs rf rp sp co cl ct dt ds tf qa qd.
Definition put_shutdown_timeout (v : option Duration) (s : RuntimeSettings) : RuntimeSettings :=
  let '(Build_RuntimeSettings ew _ hb dp rs rf rp sp co cl ct dt ds tf qa qd) := s in
  Build_RuntimeSettings ew v hb dp rs rf rp sp co cl ct dt ds tf qa qd.
Definition put_heartbeat_interval (v : Duration) (s : RuntimeSettings) : RuntimeSettings :=
  let '(Build_RuntimeSettings ew st _ dp rs rf rp sp co cl ct dt ds tf qa qd) := s in
  Build_RuntimeSettings ew st v dp rs rf rp sp co cl ct dt ds tf qa qd.
Definition put_dead_process_threshold (v : Duration) (s : RuntimeSettings) : RuntimeSettings :=
  let '(Build_RuntimeSettings ew st hb _ rs rf rp sp co cl ct dt ds tf qa qd) := s in
  Build_RuntimeSettings ew st hb v rs rf rp sp co cl ct dt ds tf qa qd.
Definition put_resurrect_scan_interval (v : Duration) (s : RuntimeSettings) : RuntimeSettings :=
  let '(Build_RuntimeSettings ew st hb dp _ rf rp sp co cl ct dt ds tf qa qd) := s in
  Build_RuntimeSettings ew st hb dp v rf rp sp co cl ct dt ds tf qa qd.
Definition put_redis_failure_tolerance (v : Z) (s : RuntimeSettings) : RuntimeSettings :=
  let '(Build_RuntimeSettings ew st hb dp rs _ rp sp co cl ct dt ds tf qa qd) := s in
  Build_RuntimeSettings ew st hb dp rs v rp sp co cl ct dt ds tf qa qd.
Definition put_retry_poll_interval (v : Duration) (s : RuntimeSettings) : RuntimeSettings :=
  let '(Build_RuntimeSettings ew st hb dp rs rf _ sp co cl ct dt ds tf qa qd) := s in
  Build_RuntimeSettings ew st hb dp rs rf v sp co cl ct dt ds tf qa qd.
Definition put_schedule_poll_interval (v : Duration) (s : RuntimeSettings) : RuntimeSettings :=
  let '(Build_RuntimeSettings ew st hb dp rs rf rp _ co cl ct dt ds tf qa qd) := s in
  Build_RuntimeSettings ew st hb dp rs rf rp v co cl ct dt ds tf qa qd.
Definition put_cron_initial_offset (v : Duration) (s : RuntimeSettings) : RuntimeSettings :=
  let '(Build_RuntimeSettings ew st hb dp rs rf rp sp _ cl ct dt ds tf qa qd) := s in
  Build_RuntimeSettings ew st hb dp rs rf rp sp v cl ct dt ds tf qa qd.
Definition put_cron_lookahead (v : Duration) (s : RuntimeSettings) : RuntimeSettings :=
  let '(Build_RuntimeSettings ew st hb dp rs rf rp sp co _ ct dt ds tf qa qd) := s in
  Build_RuntimeSettings ew st hb dp rs rf rp sp co v ct dt ds tf qa qd.
Definition put_cron_tick_interval (v : Duration) (s : RuntimeSettings) : RuntimeSettings :=
  let '(Build_RuntimeSettings ew st hb dp rs rf rp sp co cl _ dt ds tf qa qd) := s in
  Build_RuntimeSettings ew st hb dp rs rf rp sp co cl v dt ds tf qa qd.
Definition put_dequeue_timeout (v : Duration) (s : RuntimeSettings) : RuntimeSettings :=
  let '(Build_RuntimeSettings ew st hb dp rs rf rp sp co cl ct _ ds tf qa qd) := s in
  Build_RuntimeSettings ew st hb dp rs rf rp sp co cl ct v ds tf qa qd.
Definition put_dispatcher_idle_sleep (v : Duration) (s : RuntimeSettings) : RuntimeSettings :=
  let '(Build_RuntimeSettings ew st hb dp rs rf rp sp co cl ct dt _ tf qa qd) := s in
  Build_RuntimeSettings ew st hb dp rs rf rp sp co cl ct dt v tf qa qd.
Definition put_throttled_queue_fallback_wait (v : Duration) (s : RuntimeSettings) : RuntimeSettings :=
  let '(Build_RuntimeSettings ew st hb dp rs rf rp sp co cl ct dt ds _ qa qd) := s in
  Build_RuntimeSettings ew st hb dp rs rf rp sp co cl ct dt ds v qa qd.
Definition put_queue_allowlist (v : list QueueConfig) (s : RuntimeSettings) : RuntimeSettings :=
  let '(Build_RuntimeSettings ew st hb dp rs rf rp sp co cl ct dt ds tf _ qd) := s in
  Build_RuntimeSettings ew st hb dp rs rf rp sp co cl ct dt ds tf v qd.
Definition put_queue_denylist (v : list QueueConfig) (s : RuntimeSettings) : RuntimeSettings :=
  let '(Build_RuntimeSettings ew st hb dp rs rf rp sp co cl ct dt ds tf qa _) := s in
  Build_RuntimeSettings ew st hb dp rs rf rp sp co cl ct dt ds tf qa v.

(** ** [RuntimeBuilder] *)

(** The shutdown slot: the default listener until it is replaced; consumed, it
    never fires. *)
Inductive ShutdownSignal (A : Type) := DefaultSignal | UserSignal (fut : A) | NoSignal.
Arguments DefaultSignal {A}.
Arguments UserSignal {A} fut.
Arguments NoSignal {A}.
Definition consume_shutdown_signal {A} (slot : option (ShutdownSignal A)) : ShutdownSignal A * option (ShutdownSignal A) :=
  (default NoSignal slot, None).

(** What users plug in: error values, reporters, futures. *)
Record Callbacks (WorkerError Reporter Fut : Type) := {
  retry_delay_override : option (WorkerError -> Z -> Z -> option Z);
  error_formatter : option (WorkerError -> string);
  failure_reporter : option Reporter;
  shutdown_signal : option (ShutdownSignal Fut);
}.
Arguments retry_delay_override {_ _ _} _.
Arguments error_formatter {_ _ _} _.
Arguments failure_reporter {_ _ _} _.
Arguments shutdown_signal {_ _ _} _.

(** [RuntimeSettings::format_error]; [debug] is [format!("{error:?}")]. *)
Definition format_error {WorkerError Reporter Fut} (debug : WorkerError -> string)
    (c : Callbacks WorkerError Reporter Fut) (e : WorkerError) : string :=
  match error_formatter c with Some f => f e | None => debug e end.

Section Runtime.
Context {Schedule : Type} (parse_schedule : string -> option Schedule).
Context {WorkerError Reporter Fut : Type}.
Local Abbreviation callbacks := (Callbacks WorkerError Reporter Fut).

Record RuntimeBuilder := {
  rb_storage : Api.Storage; rb_config : @Config Schedule; rb_settings : RuntimeSettings; rb_callbacks : callbacks;
}.

Definition new_callbacks : callbacks :=
  {| retry_delay_override := None; error_formatter := None; failure_reporter := None;
     shutdown_signal := Some DefaultSignal |}.
Definition new_config : @Config Schedule := {| cfg_registry := empty_registry; cfg_queues := [] |}.

Definition new_builder (storage : Api.Storage) : RuntimeBuilder :=
  {| rb_storage := storage; rb_config := new_config; rb_settings := new_settings; rb_callbacks := new_callbacks |}.

Definition on_settings (f : RuntimeSettings -> RuntimeSettings) (b : RuntimeBuilder) : RuntimeBuilder :=
  {| rb_storage := rb_storage b; rb_config := rb_config b; rb_settings := f (rb_settings b); rb_callbacks := rb_callbacks b |}.
Definition on_config (f : @Config Schedule -> @Config Schedule) (b : RuntimeBuilder) : RuntimeBuilder :=
  {| rb_storage := rb_storage b; rb_config := f (rb_config b); rb_settings := rb_settings b; rb_callbacks := rb_callbacks b |}.
Definition on_callbacks (f : callbacks -> callbacks) (b : RuntimeBuilder) : RuntimeBuilder :=
  {| rb_storage := rb_storage b; rb_config := rb_config b; rb_settings := rb_settings b; rb_callbacks := f (rb_callbacks b) |}.

(** A setter that asserts its duration. *)
Definition set_non_zero (f : Duration -> RuntimeSettings -> RuntimeSettings) (d : Duration) (b : RuntimeBuilder)
    : option RuntimeBuilder :=
  (fun d => on_settings (f d) b) <$> require_non_zero_duration d.

Definition queue_with (c : QueueConfig) (b : RuntimeBuilder) : RuntimeBuilder := on_config (register_queue_with c) b.

(** [queue_with_concurrency]; [c] is [Q::to_config()]. *)
Definition queue_with_concurrency (c : QueueConfig) (n : nat) (b : RuntimeBuilder) : option RuntimeBuilder :=
  if decide (0 < n)%nat
  then Some (queue_with {| kind := kind c; concurrency := FixedConcurrency n; throttle := throttle c |} b)
  else None.

Definition only_queue (c : QueueConfig) : RuntimeBuilder -> RuntimeBuilder :=
  on_settings (fun s => put_queue_allowlist (queue_set_insert c (queue_allowlist s)) s).
Definition except_queue (c : QueueConfig) : RuntimeBuilder -> RuntimeBuilder :=
  on_settings (fun s => put_queue_denylist (queue_set_insert c (queue_denylist s)) s).

(** [worker]; [None] when the registration panics. *)
Definition worker (register : @Config Schedule -> option (@Config Schedule)) (b : RuntimeBuilder) : option RuntimeBuilder :=
  (fun c => on_config (fun _ => c) b) <$> register (rb_config b).

Definition worker_with (c : WorkerConfig) (b : RuntimeBuilder) : option RuntimeBuilder :=
  worker (fun cfg => (fun r => {| cfg_registry := r; cfg_queues := cfg_queues cfg |})
                       <$> register_worker_with parse_schedule c (cfg_registry cfg)) b.

Definition shutdown_on (fut : Fut) : RuntimeBuilder -> RuntimeBuilder :=
  on_callbacks (fun c => {| retry_delay_override := retry_delay_override c; error_formatter := error_formatter c;
    failure_reporter := failure_reporter c; shutdown_signal := Some (UserSignal fut) |}).

(** The threshold also becomes the one the handle and its clones monitor with. *)
Definition with_dead_process_threshold (d : Duration) (b : RuntimeBuilder) : option RuntimeBuilder :=
  d ← require_non_zero_duration d;
  Some {| rb_storage := set_dead_process_threshold d (rb_storage b); rb_config := rb_config b;
          rb_settings := put_dead_process_threshold d (rb_settings b); rb_callbacks := rb_callbacks b |}.

(** The methods, as calls: what user code can do with a builder. *)
Inductive BuilderCall :=
| QueueWith (c : QueueConfig)
| QueueWithConcurrency (c : QueueConfig) (n : nat)
| OnlyQueue (c : QueueConfig)
| ExceptQueue (c : QueueConfig)
| RegisterWorker (job_type worker_type : string) (t : JobType) (batch : option WorkerBatchConfig)
    (cron_schedule : option string) (cron_queue : option QueueConfig) (resurrect_flag : bool) (template : option Value)
| WorkerWith (c : WorkerConfig)
| ExitWhenProcessed (n : Z)
| ShutdownOn (fut : Fut)
| SetShutdownTimeout (d : Duration)
| DisableShutdownTimeout
| SetCallbacks (f : callbacks -> callbacks)      (* retry_delay_override, error_formatter, failure_reporter *)
| HeartbeatInterval (d : Duration)
| DeadProcessThreshold (d : Duration)
| ResurrectScanInterval (d : Duration)
| RedisFailureTolerance (n : Z)
| RetryPollInterval (d : Duration)
| SchedulePollInterval (d : Duration)
| CronInitialOffset (d : Duration)
| CronLookahead (d : Duration)
| CronTickInterval (d : Duration)
| DequeueTimeout (d : Duration)
| DispatcherIdleSleep (d : Duration)
| ThrottledQueueFallbackWait (d : Duration).

Definition builder_call (call : BuilderCall) (b : RuntimeBuilder) : option RuntimeBuilder :=
  match call with
  | QueueWith c => Some (queue_with c b)
  | QueueWithConcurrency c n => queue_with_concurrency c n b
  | OnlyQueue c => Some (only_queue c b)
  | ExceptQueue c => Some (except_queue c b)
  | RegisterWorker job_type worker_type t batch cron_schedule cron_queue resurrect_flag template =>
      worker (register_worker parse_schedule job_type worker_type t batch cron_schedule cron_queue resurrect_flag template) b
  | WorkerWith c => worker_with c b
  | ExitWhenProcessed n => Some (on_settings (put_exit_when_processed (Some n)) b)
  | ShutdownOn fut => Some (shutdown_on fut b)
  | SetShutdownTimeout d => Some (on_settings (put_shutdown_timeout (Some d)) b)
  | DisableShutdownTimeout => Some (on_settings (put_shutdown_timeout None) b)
  | SetCallbacks f => Some (on_callbacks f b)
  | HeartbeatInterval d => set_non_zero put_heartbeat_interval d b
  | DeadProcessThreshold d => with_dead_process_threshold d b
  | ResurrectScanInterval d => set_non_zero put_resurrect_scan_interval d b
  | RedisFailureTolerance n => Some (on_settings (put_redis_failure_tolerance n) b)
  | RetryPollInterval d => set_non_zero put_retry_poll_interval d b
  | SchedulePollInterval d => set_non_zero put_schedule_poll_interval d b
  | CronInitialOffset d => Some (on_settings (put_cron_initial_offset d) b)
  | CronLookahead d => Some (on_settings (put_cron_lookahead d) b)
  | CronTickInterval d => set_non_zero put_cron_tick_interval d b
  | DequeueTimeout d => set_non_zero put_dequeue_timeout d b
  | DispatcherIdleSleep d => set_non_zero put_dispatcher_idle_sleep d b
  | ThrottledQueueFallbackWait d => set_non_zero put_throttled_queue_fallback_wait d b
  end.

Fixpoint builder_calls (calls : list BuilderCall) (b : RuntimeBuilder) : option RuntimeBuilder :=
  match calls with
  | [] => Some b
  | call :: calls' => builder_call call b ≫= builder_calls calls'
  end.

(** [RuntimeBuilder::catalog], and [run] up to the launcher: the queues that get
    a coordinator, or the error of the checks. *)
Definition builder_catalog (b : RuntimeBuilder) : Catalog := catalog_with_queues (rb_config b) [].
Definition run (b : RuntimeBuilder) : result OxanaError (list QueueConfig) :=
  res_map (fun _ => coordinated (rb_settings b) (rb_config b)) (check_selection (rb_settings b) (rb_config b)).

(** [registry.rs]: what the components of a registry define. A worker's own
    registration is a function on builders: the calls it makes. *)
Inductive ComponentDefinition :=
| ComponentQueue (c : QueueConfig)
| ComponentWorker (w : WorkerConfig)
| ComponentRegistration (calls : list BuilderCall).

Fixpoint register_components (items : list ComponentDefinition) (b : RuntimeBuilder) : option RuntimeBuilder :=
  match items with
  | [] => Some b
  | component :: items' =>
      match component with
      | ComponentQueue q => Some (queue_with q b)
      | ComponentWorker w => worker_with w b
      | ComponentRegistration calls => builder_calls calls b
      end ≫= register_components items'
  end.
End Runtime.

(** ** Facts *)

(** A storage built from the environment: its jobs are in the database of
    REDIS_URL, its statistics in that of REDIS_STATS_URL when there is one,
    both through pools with the builder's settings; the retries of claimed
    connections are valid, and the dead letters limited as asked. *)
Lemma storage_from_env {Pool} (build_pool : PoolSpec -> result OxanaError Pool) fits me env b s :
  build_from_env build_pool fits me env b = Ok s ->
  (exists url, env "REDIS_URL"%string = Ok url /\ builder_pool build_pool b url = Ok (built_pool s)) /\
  match env "REDIS_STATS_URL"%string with
  | Ok u => exists p, builder_pool build_pool b u = Ok p /\ built_stats_pool s = Some p
  | Err _ => built_stats_pool s = None
  end /\
  has_stats_pool (internal (built_handle s)) = bool_decide (is_Some (built_stats_pool s)) /\
  (forall c, built_claimed_retries s = Some c -> validate fits c = Ok tt) /\
  dead_job_limit (internal (built_handle s)) = sb_dead_job_limit b.
Proof.
  assert (forall stats pool, build_with fits me stats pool b = Ok s -> built_pool s = pool /\ built_stats_pool s = stats /\
    has_stats_pool (internal (built_handle s)) = bool_decide (is_Some (built_stats_pool s)) /\
    (forall c, built_claimed_retries s = Some c -> validate fits c = Ok tt) /\
    dead_job_limit (internal (built_handle s)) = sb_dead_job_limit b) as Hwith.
  { intros stats pool. unfold build_with. destruct (sb_claimed_connection_retries b) as [c|];
      [destruct (validate fits c) as [[]|] eqn:Ev; [|done]|]; cbn; intros [= <-]; split_and!; naive_solver. }
  unfold build_from_env, build_from_env_var, build_from_redis_url, build_from_redis_urls, build_from_pool, build_from_pools.
  destruct (env "REDIS_URL"%string) as [url|]; [|done]. cbn [map_err res_bind].
  destruct (env "REDIS_STATS_URL"%string) as [u|]; (destruct (builder_pool build_pool b url) as [p|] eqn:Ep; [|done]); cbn [res_bind].
  - destruct (builder_pool build_pool b u) as [p'|] eqn:Ep'; [|done]. cbn [res_bind].
    intros (-> & ? & ?)%Hwith. split; [by exists url|]. split; [by exists p'|done].
  - intros (-> & ? & ?)%Hwith. split; [by exists url|done].
Qed.

(** What the equality of queue configurations compares. *)
Definition queue_ident (c : QueueConfig) : bool * string := (is_dynamic_kind (kind c), key_or_prefix c).

Lemma queue_config_eq_ident a b : queue_config_eq a b = bool_decide (queue_ident a = queue_ident b).
Proof.
  unfold queue_config_eq, queue_ident, key_or_prefix. destruct (kind a), (kind b); cbn; apply bool_decide_ext || symmetry;
    try (apply bool_decide_eq_false; congruence); split; congruence.
Qed.

Lemma queue_set_mem_ident c s : queue_set_mem c s = bool_decide (queue_ident c ∈ queue_ident <$> s).
Proof.
  unfold queue_set_mem. induction s as [|a s IH]; [done|]. cbn [existsb fmap list_fmap]. rewrite IH, queue_config_eq_ident.
  apply eq_bool_prop_intro. rewrite orb_True, !bool_decide_spec, elem_of_cons. done.
Qed.

Definition distinct (s : list QueueConfig) : Prop := NoDup (queue_ident <$> s).

Lemma insert_distinct c s : distinct s -> distinct (queue_set_insert c s).
Proof.
  intros H. unfold queue_set_insert. rewrite queue_set_mem_ident. case_bool_decide as Hc; [done|].
  unfold distinct. rewrite fmap_app. apply NoDup_app. split; [done|]. split; [|apply NoDup_singleton].
  intros x Hx Hin. apply Hc. cbn in Hin. by apply list_elem_of_singleton in Hin as ->.
Qed.

Lemma replace_distinct c s : distinct s -> distinct (queue_set_replace c s).
Proof.
  intros H. unfold distinct, queue_set_replace. rewrite fmap_app. apply NoDup_app. split_and!; [| |apply NoDup_singleton].
  - eapply sublist_NoDup; [exact H|]. apply fmap_sublist, sublist_filter.
  - intros x (a & -> & [Ha _]%list_elem_of_filter)%list_elem_of_fmap Hin. cbn in Hin. apply list_elem_of_singleton in Hin.
    rewrite queue_config_eq_ident in Ha. apply bool_decide_eq_false in Ha. congruence.
Qed.

(** The intervals at which the runtime's loops wait. *)
Definition intervals (s : RuntimeSettings) : list Duration :=
  [heartbeat_interval s; dead_process_threshold s; resurrect_scan_interval s; retry_poll_interval s;
   schedule_poll_interval s; cron_tick_interval s; dequeue_timeout s; dispatcher_idle_sleep s;
   throttled_queue_fallback_wait s].

(** Registering components is calling the builder, so what holds of its calls
    holds of them. *)
Definition component_calls {WorkerError Reporter Fut} (d : ComponentDefinition (WorkerError := WorkerError) (Reporter := Reporter) (Fut := Fut)) : list BuilderCall :=
  match d with
  | ComponentQueue q => [QueueWith q]
  | ComponentWorker w => [WorkerWith w]
  | ComponentRegistration calls => calls
  end.
Section Sound.
Context {Schedule : Type} (parse_schedule : string -> option Schedule).
Context {WorkerError Reporter Fut : Type}.
Local Abbreviation builder := (RuntimeBuilder (Schedule := Schedule) (WorkerError := WorkerError) (Reporter := Reporter) (Fut := Fut)).

Record builder_sound (b : builder) : Prop := {
  sound_intervals : Forall (fun d => d <> 0) (intervals (rb_settings b));
  sound_allowlist : distinct (queue_allowlist (rb_settings b));
  sound_denylist : distinct (queue_denylist (rb_settings b));
  sound_queues : distinct (cfg_queues (rb_config b));
  sound_registry : registry_wf (cfg_registry (rb_config b));
  sound_threshold : monitored_threshold (rb_storage b) = dead_process_threshold (rb_settings b);
}.

Lemma new_builder_sound storage : monitored_threshold storage = DEFAULT_DEAD_PROCESS_THRESHOLD ->
  builder_sound (new_builder storage).
Proof. intros H. constructor; cbn; [repeat constructor; discriminate|constructor..|apply registry_wf_empty|done]. Qed.

Lemma register_worker_sound job_type worker_type t batch cs cq res template (cfg cfg' : @Config Schedule) :
  register_worker parse_schedule job_type worker_type t batch cs cq res template cfg = Some cfg' ->
  distinct (cfg_queues cfg) -> registry_wf (cfg_registry cfg) -> distinct (cfg_queues cfg') /\ registry_wf (cfg_registry cfg').
Proof.
  unfold register_worker. intros (kd & _ & H)%bind_Some Hq Hr. case_match; [done|]. apply bind_Some in H as (r & Hreg & [= <-]).
  cbn [cfg_queues cfg_registry]. split.
  - destruct kd, cq; cbn; try done. by apply insert_distinct.
  - refine (proj1 (register_worker_with_wf _ _ _ _ _ Hreg)). destruct kd, cq; done.
Qed.

Lemma call_sound call (b b' : builder) : builder_call parse_schedule call b = Some b' -> builder_sound b -> builder_sound b'.
Proof.
  intros Hb [Hi Ha Hd Hq Hr Ht]. destruct b as [st cfg s cb]. destruct s.
  unfold intervals in Hi. cbn in Hi, Ha, Hd, Hq, Hr, Ht. rewrite !Forall_cons in Hi.
  destruct call; cbn in Hb;
    unfold set_non_zero, queue_with_concurrency, with_dead_process_threshold, worker_with, worker, require_non_zero_duration in Hb;
    repeat case_decide; cbn in Hb; try discriminate Hb;
    try (injection Hb as <-; constructor; unfold intervals; cbn; rewrite ?Forall_cons; try done; try tauto;
         auto using insert_distinct, replace_distinct; fail).
  - destruct (register_worker _ _ _ _ _ _ _ _ _ cfg) as [cfg'|] eqn:E; [|done]. injection Hb as <-.
    destruct (register_worker_sound _ _ _ _ _ _ _ _ _ _ E Hq Hr). constructor; unfold intervals; cbn; rewrite ?Forall_cons; done.
  - destruct (register_worker_with _ c _) as [r|] eqn:E; [|done]. injection Hb as <-.
    destruct (register_worker_with_wf _ _ _ _ Hr E). constructor; unfold intervals; cbn; rewrite ?Forall_cons; done.
Qed.

Lemma builder_calls_app calls calls' (b : builder) :
  builder_calls parse_schedule (calls ++ calls') b = builder_calls parse_schedule calls b ≫= builder_calls parse_schedule calls'.
Proof. revert b. induction calls as [|call calls IH]; intros b; cbn; [done|]. destruct (builder_call _ call b); cbn; [apply IH|done]. Qed.

Lemma register_components_calls items (b : builder) :
  register_components parse_schedule items b = builder_calls parse_schedule (concat (component_calls <$> items)) b.
Proof.
  revert b. induction items as [|d items IH]; intros b; cbn; [done|]. rewrite builder_calls_app.
  assert (forall o o' : option builder, o = o' -> o ≫= register_components parse_schedule items
    = o' ≫= builder_calls parse_schedule (concat (component_calls <$> items))) as H
    by (intros [x|] _ <-; cbn; [apply IH|done]).
  apply H. destruct d as [q|w|calls]; cbn [component_calls builder_calls builder_call mbind option_bind]; [done| |done].
  unfold worker_with, worker. by destruct (register_worker_with parse_schedule w _).
Qed.

Lemma calls_sound calls (b b' : builder) : builder_calls parse_schedule calls b = Some b' -> builder_sound b -> builder_sound b'.
Proof.
  revert b. induction calls as [|call calls IH]; intros b; cbn; [by intros [= <-]|].
  intros (b1 & Hc & H)%bind_Some Hs. eapply IH; [exact H|]. by eapply call_sound.
Qed.


Lemma missing_nil selected registered : missing_queues selected registered = [] ->
  forall q, q ∈ selected -> queue_set_mem q registered = true.
Proof.
  intros H q Hq. destruct (queue_set_mem q registered) eqn:E; [done|]. exfalso.
  assert (key_or_prefix q ∈ missing_queues selected registered) as Hin; [|rewrite H in Hin; by apply not_elem_of_nil in Hin].
  unfold missing_queues. rewrite merge_sort_Permutation. apply list_elem_of_fmap. exists q. split; [done|].
  by apply list_elem_of_filter.
Qed.

Lemma runs_queue_ident allow deny q q' : queue_ident q = queue_ident q' -> runs_queue allow deny q = runs_queue allow deny q'.
Proof. intros H. unfold runs_queue. rewrite !queue_set_mem_ident. by rewrite H. Qed.

(** How many of the given queues are [q]. *)
Definition count_queue (q : QueueConfig) (qs : list QueueConfig) : nat := length (List.filter (queue_config_eq q) qs).

Lemma count_distinct q s : distinct s -> count_queue q s = if queue_set_mem q s then 1%nat else 0%nat.
Proof.
  unfold distinct, count_queue. induction s as [|a s IH]; [done|]. intros [Ha Hs]%NoDup_cons. specialize (IH Hs).
  cbn. fold (queue_set_mem q s). destruct (queue_config_eq q a) eqn:E; [|done]. cbn. rewrite IH, queue_set_mem_ident.
  rewrite queue_config_eq_ident in E. apply bool_decide_eq_true in E. by rewrite E, bool_decide_eq_false_2.
Qed.

Lemma count_filter (P : QueueConfig -> bool) q s : (forall q', queue_config_eq q q' = true -> P q' = P q) ->
  count_queue q (filter (fun q' => P q' = true) s) = if P q then count_queue q s else 0%nat.
Proof.
  intros HP. unfold count_queue. induction s as [|a s IH]; [by destruct (P q)|]. rewrite (filter_cons _ a s).
  specialize (HP a). case_decide as Ha; cbn; destruct (queue_config_eq q a); cbn; rewrite ?IH; try done.
  - by rewrite <- HP, Ha.
  - rewrite <- HP by done. by destruct (P a).
Qed.

End Sound.
