(* ===== verification/Worker.v ===== *)
(** * Workers and the jobs bound to them ([worker.rs], [context.rs]; the
    contexts and [run_process] of [executor.rs])

    User code is the fields of [Worker]: how its methods end on what they are
    given, with [None] for a provided method of the trait that is not
    overridden. [format!] of an error and the types' names are arguments. *)
From S2P Require Import Prelude Errors Redis Envelope Queue Keys Scripts Storage JobState Executor ExecutorFacts Registry Coordinator CoordinatorFacts Runtime Builder.
Open Scope Z_scope.

(** ** What a job is given *)

(** [JobContext]: the metadata, and the state as it was when the job was loaded. *)
Record JobContext := { ctx_meta : JobMeta; ctx_state : JobState }.
Record BatchItem := { item_job : Job; item_ctx : JobContext }.

Definition job_context (e : JobEnvelope) : JobContext :=
  {| ctx_meta := meta e; ctx_state := new_job_state (id e) (state (meta e)) |}.
Definition job_contexts (es : list JobEnvelope) : list JobContext := job_context <$> es.

(** ** How a future ends *)

(** The payload of a panic: a [&str], a [String] or anything else. *)
Inductive panic := PanicStr (s : string) | PanicString (s : string) | PanicOther.

Definition panic_message (p : panic) : string :=
  match p with
  | PanicStr s => s
  | PanicString s => s
  | PanicOther => "Unknown panic occurred"
  end.

Inductive ended (E : Type) := Returned (r : result E unit) | Unwound (p : panic).
Arguments Returned {E} r.
Arguments Unwound {E} p.

Definition newline : string := String "010" "".
(** The message of a failed [assert_eq!]. *)
Definition assert_eq_message (message : string) (left_ right_ : nat) : string :=
  "assertion `left == right` failed: " +:+ message +:+ newline +:+ "  left: " +:+ z_to_string (Z.of_nat left_)
  +:+ newline +:+ " right: " +:+ z_to_string (Z.of_nat right_).

Section Workers.
Context {WorkerError Reporter Fut : Type}.
Local Abbreviation callbacks := (Callbacks WorkerError Reporter Fut).
Local Abbreviation ended := (ended WorkerError).

(** ** The [Worker] trait *)

Record Worker := {
  w_type_name : string;                                      (* std::any::type_name::<W>() *)
  w_args_name : string;                                      (* std::any::type_name::<Args>() *)
  w_process : option (Job -> JobContext -> ended);
  w_run_batch : option (list BatchItem -> ended);
  w_max_retries : option (Job -> Z);
  w_retry_delay : option (Job -> Z -> Z);
}.

Definition worker_run_batch (w : Worker) (items : list BatchItem) : ended :=
  match w_run_batch w with
  | Some f => f items
  | None =>
      Unwound (PanicString ("Worker::run_batch is not implemented for worker `" +:+ w_type_name w +:+ "` and job `"
        +:+ w_args_name w +:+ "`; implement `process` for single-job workers or `run_batch` for batch workers"))
  end.
Definition worker_process (w : Worker) (j : Job) (ctx : JobContext) : ended :=
  match w_process w with
  | Some f => f j ctx
  | None => worker_run_batch w [{| item_job := j; item_ctx := ctx |}]
  end.
Definition worker_max_retries (w : Worker) (j : Job) : Z :=
  match w_max_retries w with Some f => f j | None => default_max_retries end.
Definition worker_retry_delay (w : Worker) (j : Job) (retries_ : Z) : Z :=
  match w_retry_delay w with Some f => f j retries_ | None => default_retry_delay retries_ end.

(** ** [run_process]: the future under [catch_unwind] *)

Definition run_process (debug : WorkerError -> string) (c : callbacks) (e : ended) : ExecutionResult :=
  match e with
  | Returned (Ok tt) => ExecSuccess
  | Returned (Err error) =>
      ExecFailed (format_error debug c error)
        (fun retries_ delay => f ← retry_delay_override c; f error retries_ delay)
  | Unwound p => ExecPanicked (panic_message p)
  end.

(** ** [BoundJob] and [BoundBatchJob]

    The statics of the job's type [A], and its decoder. A [None] of the retry
    policies is a panic: the executor asks only for indices below [p_len]. *)
Record JobKind := { jk_name : string; jk_should_resume : bool; jk_decode : Value -> result string Job }.

Definition bound_job_process (w : Worker) (j : Job) (contexts : list JobContext) : ended :=
  match contexts with
  | [ctx] => worker_process w j ctx
  | _ => Unwound (PanicString (assert_eq_message "single job must have one context" (length contexts) 1))
  end.
Definition bound_job_max_retries (w : Worker) (j : Job) (index : nat) : option Z :=
  if decide (index = 0%nat) then Some (worker_max_retries w j) else None.
Definition bound_job_retry_delay (w : Worker) (j : Job) (index : nat) (retries_ : Z) : option Z :=
  if decide (index = 0%nat) then Some (worker_retry_delay w j retries_) else None.

Definition batch_items (js : list Job) (contexts : list JobContext) : list BatchItem :=
  zip_with (fun j ctx => {| item_job := j; item_ctx := ctx |}) js contexts.
Definition bound_batch_process (w : Worker) (js : list Job) (contexts : list JobContext) : ended :=
  if decide (length js = length contexts) then worker_run_batch w (batch_items js contexts)
  else Unwound (PanicString (assert_eq_message "batch jobs and contexts must have the same length" (length js) (length contexts))).
Definition bound_batch_max_retries (w : Worker) (js : list Job) (index : nat) : option Z :=
  worker_max_retries w <$> js !! index.
Definition bound_batch_retry_delay (w : Worker) (js : list Job) (index : nat) (retries_ : Z) : option Z :=
  (fun j => worker_retry_delay w j retries_) <$> js !! index.

Section Bound.
Variables (debug : WorkerError -> string) (c : callbacks) (w : Worker) (kind : JobKind).

Definition bound_job (contexts : list JobContext) (j : Job) : Processable := {|
  p_len := 1; p_job_name := jk_name kind; p_worker_name := w_type_name w;
  p_max_retries := fun index => default 0 (bound_job_max_retries w j index);
  p_retry_delay := fun index retries_ => default 0 (bound_job_retry_delay w j index retries_);
  p_should_resume := jk_should_resume kind;
  p_process := run_process debug c (bound_job_process w j contexts);
|}.
Definition bound_batch_job (contexts : list JobContext) (js : list Job) : Processable := {|
  p_len := length js; p_job_name := jk_name kind; p_worker_name := w_type_name w;
  p_max_retries := fun index => default 0 (bound_batch_max_retries w js index);
  p_retry_delay := fun index retries_ => default 0 (bound_batch_retry_delay w js index retries_);
  p_should_resume := jk_should_resume kind;
  p_process := run_process debug c (bound_batch_process w js contexts);
|}.

(** The factories of the pair, for an execution with these contexts. *)
Definition job_type (contexts : list JobContext) : JobType :=
  {| jt_decode := jk_decode kind; jt_bind := bound_job contexts; jt_bind_batch := bound_batch_job contexts |}.

(** The envelopes as [run_batch] has them when it calls [process]. *)
Definition started (now : Z) (es : list JobEnvelope) : list JobEnvelope :=
  map_meta (set_started_at (Some now)) <$> (if jk_should_resume kind then es else map_meta (set_state None) <$> es).
End Bound.
End Workers.

(** ** Facts *)

Lemma decoded_kept t es : forall index,
  Forall2 (fun e j => jt_decode t (args (job e)) = Ok j) (filter (fun e => decodable t e = true) es)
    (decode_batch t index ((fun e => args (job e)) <$> es)).1.
Proof.
  induction es as [|e es IH]; intros index; cbn [fmap list_fmap decode_batch]; [constructor|].
  specialize (IH (Datatypes.S index)). destruct (decode_batch t (Datatypes.S index) _) as [js invalid].
  unfold decodable in *. destruct (jt_decode t (args (job e))) as [j|error] eqn:E; cbn [fst] in *.
  - rewrite filter_cons_True by (by rewrite E). by constructor.
  - by rewrite filter_cons_False by (by rewrite E).
Qed.

Section Alignment.
Context {WorkerError Reporter Fut : Type} (debug : WorkerError -> string) (c : Callbacks WorkerError Reporter Fut).
Variables (w : Worker (WorkerError := WorkerError)) (kind : JobKind).

Lemma lookup_started now es k e : es !! k = Some e ->
  exists e', started kind now es !! k = Some e' /\ id e' = id e /\ job e' = job e /\ retries (meta e') = retries (meta e) /\
    started_at (meta e') = Some now /\ state (meta e') = if jk_should_resume kind then state (meta e) else None.
Proof.
  intros He. unfold started. rewrite list_lookup_fmap.
  destruct (jk_should_resume kind); rewrite ?list_lookup_fmap, He; cbn; eexists; (split; [reflexivity|]); destruct e as [? ? ? []]; done.
Qed.

(** C23. Every job of a batch is run as itself. Of the jobs of a batch, whichever of
    them do not decode, the worker is given those that do, as many and in the
    order of their envelopes; each comes with the context of its own envelope
    (its state only when the job resumes) and is retried by what the worker
    answers for that very job. *)
Theorem batch_items_aligned now es :
  let ctxs := job_contexts (started kind now (filter (fun e => is_ok (jk_decode kind (args (job e))) = true) es)) in
  let kept := filter (fun e => is_ok (jk_decode kind (args (job e))) = true) es in
  let js := (decode_batch (job_type debug c w kind ctxs) 0 ((fun e => args (job e)) <$> es)).1 in
  let bound := bound_batch_job debug c w kind ctxs js in
  p_len bound = length kept /\
  p_process bound = run_process debug c (worker_run_batch w (batch_items js ctxs)) /\
  length (batch_items js ctxs) = length kept /\
  forall k e, kept !! k = Some e -> exists j e',
    jk_decode kind (args (job e)) = Ok j /\
    batch_items js ctxs !! k = Some {| item_job := j; item_ctx := job_context e' |} /\
    (id e' = id e /\ retries (meta e') = retries (meta e) /\ started_at (meta e') = Some now /\
     state (meta e') = if jk_should_resume kind then state (meta e) else None) /\
    policies bound kept !! k =
      Some {| max_retries := worker_max_retries w j; policy_retry_delay := worker_retry_delay w j (retries (meta e)) |}.
Proof.
  intros ctxs kept js bound.
  pose proof (decoded_kept (job_type debug c w kind ctxs) es 0) as Hkept. fold js in Hkept.
  change (filter _ es) with kept in Hkept. cbn [jt_decode job_type] in Hkept.
  assert (length js = length kept) as Hlen by (symmetry; by eapply Forall2_length).
  assert (length ctxs = length kept) as Hctx.
  { unfold ctxs, job_contexts, started. destruct (jk_should_resume kind); by rewrite !length_fmap. }
  split_and!; [done| | |].
  - cbn. unfold bound_batch_process. by rewrite decide_True by congruence.
  - unfold batch_items. rewrite length_zip_with. lia.
  - intros k e He. destruct (Forall2_lookup_l _ _ _ _ _ Hkept He) as (j & Hj & Hd).
    destruct (lookup_started now kept k e He) as (e' & He' & ? & ? & ? & ? & ?). exists j, e'. split_and!; try done.
    + unfold batch_items. rewrite lookup_zip_with, Hj. cbn. unfold ctxs, job_contexts. rewrite list_lookup_fmap. fold kept. by rewrite He'.
    + unfold policies. rewrite list_lookup_imap, He. cbn. unfold execution_policy. cbn.
      unfold bound_batch_max_retries, bound_batch_retry_delay. by rewrite Hj.
Qed.
End Alignment.
