(* ===== verification/Failure.v ===== *)
(** * Failure reports ([failure.rs], [RuntimeSettings::report_failure])

    Sentry is third-party code: an event carries what this code reads and sets of
    it, and the texts of errors and events come from the caller. An execution's
    hub is the events its processor let through and the panic event it kept;
    what a report does is a list of actions. *)
From S2P Require Import Prelude Errors Redis Envelope Queue Keys Scripts Storage Executor ExecutorFacts Registry Coordinator CoordinatorFacts Runtime Builder Worker.
Open Scope Z_scope.

(** The crate's features [sentry] and [sentry-panic]; the second implies the first. *)
Inductive features := NoSentry | Sentry | SentryPanic.
Definition sentry (f : features) : bool := match f with NoSentry => false | _ => true end.
Definition sentry_panic (f : features) : bool := match f with SentryPanic => true | _ => false end.

(** ** What is reported *)

Inductive WorkerFailure (E : Type) := ErrorFailure (e : E) | PanicFailure (message : string).
Arguments ErrorFailure {E} e.
Arguments PanicFailure {E} message.
Definition failure_kind {E} (f : WorkerFailure E) : string :=
  match f with ErrorFailure _ => "error" | PanicFailure _ => "panic" end.

Record WorkerFailureReport (E : Type) := { rep_failure : WorkerFailure E; rep_metadata : WorkerFailureMetadata }.
Arguments rep_failure {E} _.
Arguments rep_metadata {E} _.

(** ** Sentry's events *)

Record Mechanism := { mech_ty : string; mech_handled : option bool }.
Record Exception := { exc_ty : string; exc_value : option string; exc_mechanism : option Mechanism }.
Inductive Level := LevelError | OtherLevel.
Record Event := { ev_id : string; ev_exceptions : list Exception; ev_level : Level }.

Definition is_panic_integration_event (ev : Event) : bool :=
  existsb (fun x => match exc_mechanism x with Some m => String.eqb (mech_ty m) "panic" | None => false end) (ev_exceptions ev).

(** ** The hub of an execution *)

Record ExecutionSentryHub := { panic_event : option Event }.
Definition take_panic_event (h : ExecutionSentryHub) : option Event := panic_event h.

(** The processor of [execution_sentry_hub], for an event captured while the
    thread does or does not unwind. *)
Definition process_event (f : features) (panicking : bool) (ev : Event) (h : ExecutionSentryHub)
    : option Event * ExecutionSentryHub :=
  if panicking
  then (None, if sentry_panic f && is_panic_integration_event ev && bool_decide (panic_event h = None)
              then {| panic_event := Some ev |} else h)
  else (Some ev, h).

(** The events captured while the future ran: those that are sent, and the hub. *)
Fixpoint captured (f : features) (evs : list (bool * Event)) (h : ExecutionSentryHub) : list Event * ExecutionSentryHub :=
  match evs with
  | [] => ([], h)
  | (panicking, ev) :: evs' =>
      let '(out, h) := process_event f panicking ev h in
      let '(sent, h) := captured f evs' h in
      (match out with Some ev => ev :: sent | None => sent end, h)
  end.
Definition with_execution_sentry_hub (f : features) (evs : list (bool * Event)) : list Event * ExecutionSentryHub :=
  if sentry f then captured f evs {| panic_event := None |} else (evs.*2, {| panic_event := None |}).

(** ** The default report *)

Definition mark_panic_event_handled (ev : Event) : Event := {|
  ev_id := ev_id ev;
  ev_exceptions := match ev_exceptions ev with
                   | [] => []
                   | x :: xs => {| exc_ty := exc_ty x; exc_value := exc_value x;
                                   exc_mechanism := Some {| mech_ty := "oxana.worker_panic"; mech_handled := Some true |} |} :: xs
                   end;
  ev_level := LevelError;
|}.
Definition fallback_panic_event (id_ message : string) : Event := {|
  ev_id := id_;
  ev_exceptions := [{| exc_ty := "panic"; exc_value := Some message;
                       exc_mechanism := Some {| mech_ty := "oxana.worker_panic"; mech_handled := Some true |} |}];
  ev_level := LevelError;
|}.

Definition show_bool (b : bool) : string := if b then "true" else "false".
Definition show_nat (n : nat) : string := z_to_string (Z.of_nat n).

Section Reports.
Context {WorkerError : Type}.
Local Abbreviation json_int n := (VNumber (NumInt n)).

(** [configure_sentry_scope]: the tags, and the context [oxana]. *)
Definition failed_job_json (j : FailedJobMetadata) : Value :=
  VObject [("job_id", VStr (fj_job_id j)); ("args", fj_args j); ("retry_count", json_int (fj_retry_count j));
           ("max_retries", json_int (fj_max_retries j)); ("will_retry", VBool (fj_will_retry j)); ("terminal", VBool (fj_terminal j))].
Definition failure_context (m : WorkerFailureMetadata) : Value :=
  VObject [("jobs", VArray (failed_job_json <$> fm_jobs m)); ("queue", VStr (fm_queue m)); ("job_name", VStr (fm_job_name m));
           ("worker_name", VStr (fm_worker_name m)); ("batch_size", json_int (Z.of_nat (fm_batch_size m)));
           ("will_retry", VBool (fm_will_retry m)); ("terminal", VBool (fm_terminal m))].

Definition configure_sentry_scope (m : WorkerFailureMetadata) : list (string * string) :=
  [("oxana.queue", fm_queue m); ("oxana.job", fm_job_name m); ("oxana.worker", fm_worker_name m);
   ("oxana.batch_size", show_nat (fm_batch_size m)); ("oxana.will_retry", show_bool (fm_will_retry m));
   ("oxana.terminal", show_bool (fm_terminal m))]
  ++ match fm_jobs m with
     | [j] => [("oxana.job_id", fj_job_id j); ("oxana.retry_count", z_to_string (fj_retry_count j));
               ("oxana.max_retries", z_to_string (fj_max_retries j))]
     | _ => []
     end.

(** The hub an event is captured through: that of the execution, with its
    breadcrumbs, or a fresh scope on its client. *)
Inductive hub := ExecutionHub | FreshHub.

Record Captured := {
  cap_event : Event; cap_hub : hub; cap_tags : list (string * string); cap_context : Value;
}.

(** [with_failure_sentry_scope_on_hub] around [capture_event]. *)
Definition with_failure_sentry_scope (h : hub) (report : WorkerFailureReport WorkerError) (ev : Event) : Captured :=
  {| cap_event := ev; cap_hub := h;
     cap_tags := configure_sentry_scope (rep_metadata report) ++ [("oxana.failure_kind", failure_kind (rep_failure report))];
     cap_context := failure_context (rep_metadata report) |}.

(** What leaves the process for a failed execution. *)
Inductive action :=
| Reporter (report : WorkerFailureReport WorkerError)
| Sent (c : Captured).

(** Settings: a reporter, and [sentry_error_event_builder] or its default. *)
Variables (failure_reporter : bool) (error_event : WorkerError -> Event) (fallback_id : string).

Definition default_sentry_report (f : features) (report : WorkerFailureReport WorkerError) (h : ExecutionSentryHub) : list action :=
  match rep_failure report with
  | ErrorFailure e => [Sent (with_failure_sentry_scope ExecutionHub report (error_event e))]
  | PanicFailure message =>
      if sentry_panic f then
        match take_panic_event h with
        | Some ev => [Sent (with_failure_sentry_scope FreshHub report (mark_panic_event_handled ev))]
        | None => [Sent (with_failure_sentry_scope ExecutionHub report (fallback_panic_event fallback_id message))]
        end
      else []
  end.

Definition report_failure (f : features) (report : WorkerFailureReport WorkerError) (h : ExecutionSentryHub) : list action :=
  if failure_reporter then [Reporter report]
  else if sentry f then default_sentry_report f report h else [].

(** What [finish_batch_result] reports of an execution that ended with [e]. *)
Definition finish_reports (f : features) (h : ExecutionSentryHub) (es : list JobEnvelope) (ps : list JobExecutionPolicy)
    (job_name_ worker_name_ : string) (e : ended WorkerError) : list action :=
  let report failure := {| rep_failure := failure; rep_metadata := failure_metadata es ps job_name_ worker_name_ |} in
  match e with
  | Returned (Ok tt) => []
  | Returned (Err error) => report_failure f (report (ErrorFailure error)) h
  | Unwound p => report_failure f (report (PanicFailure (panic_message p))) h
  end.
End Reports.

(** ** Facts *)

Definition hook_events (evs : list (bool * Event)) : list Event :=
  (filter (fun p : bool * Event => p.1 && is_panic_integration_event p.2 = true) evs).*2.

Lemma captured_spec f evs : sentry f = true -> forall h,
  captured f evs h = ((filter (fun p : bool * Event => p.1 = false) evs).*2,
    if sentry_panic f then {| panic_event := match panic_event h with Some ev => Some ev | None => head (hook_events evs) end |} else h).
Proof.
  intros Hf. unfold hook_events. induction evs as [|[panicking ev] evs IH]; intros h; cbn [captured].
  { destruct f; [done..|]. by destruct h as [[]]. }
  unfold process_event. destruct panicking.
  - rewrite (IH _), (filter_cons_False (fun p : bool * Event => p.1 = false)) by done.
    destruct f; [done..|]. cbn [sentry_panic andb]. destruct (is_panic_integration_event ev) eqn:E.
    + rewrite (filter_cons_True (fun p : bool * Event => p.1 && is_panic_integration_event p.2 = true)) by (cbn; by rewrite E).
      by destruct h as [[]].
    + rewrite (filter_cons_False (fun p : bool * Event => p.1 && is_panic_integration_event p.2 = true)) by (cbn; by rewrite E).
      by destruct h as [[]].
  - rewrite (IH _), (filter_cons_True (fun p : bool * Event => p.1 = false)) by done.
    by rewrite (filter_cons_False (fun p : bool * Event => p.1 && is_panic_integration_event p.2 = true)) by done.
Qed.

(** A failed execution is reported exactly once: to the reporter when there is
    one, and by default as one event, with the metadata of the execution. The event
    of a panic is the first one its hook captured, marked as handled and sent
    without the breadcrumbs it already has, or a fallback. Nothing else that is
    captured while the worker unwinds is sent, and everything captured before
    is. A success reports nothing. *)
Theorem failure_reported_once {WorkerError} reporter (error_event : WorkerError -> Event) fallback_id evs es ps jn wn e :
  let '(sent, h) := with_execution_sentry_hub SentryPanic evs in
  let report failure := {| rep_failure := failure; rep_metadata := failure_metadata es ps jn wn |} in
  sent = (filter (fun p : bool * Event => p.1 = false) evs).*2 /\
  finish_reports reporter error_event fallback_id SentryPanic h es ps jn wn e =
    match e with
    | Returned (Ok _) => []
    | Returned (Err error) =>
        if reporter : bool then [Reporter (report (ErrorFailure error))]
        else [Sent (with_failure_sentry_scope ExecutionHub (report (ErrorFailure error)) (error_event error))]
    | Unwound p =>
        let failure := report (PanicFailure (panic_message p)) in
        if reporter then [Reporter failure]
        else [Sent match hook_events evs with
                   | ev :: _ => with_failure_sentry_scope FreshHub failure (mark_panic_event_handled ev)
                   | [] => with_failure_sentry_scope ExecutionHub failure (fallback_panic_event fallback_id (panic_message p))
                   end]
    end.
Proof.
  unfold with_execution_sentry_hub. cbn [sentry]. rewrite captured_spec by done. cbn [sentry_panic panic_event].
  split; [done|]. unfold finish_reports, report_failure, default_sentry_report. cbn.
  destruct e as [[[]|error]|p], reporter; try done. by destruct (hook_events evs).
Qed.
