(* ===== verification/Prometheus.v ===== *)
(** * The Prometheus export ([prometheus.rs])

    A registry of the client library is the list of its metrics, each a family
    of gauges by label set; its text encoding is the library's. f64 gauges are
    rationals. *)
From Stdlib Require Import QArith.
From S2P Require Import Prelude Errors Redis Envelope Queue Keys Metrics Stats StatsStorage Recovery.
Open Scope Z_scope.

Inductive gauge := GaugeI64 (z : Z) | GaugeF64 (q : Q).

(** Label sets, as the pairs they encode to. *)
Abbreviation labels := (list (string * string)).
Definition QueueLabels (queue_ : string) : labels := [("queue", queue_)].
Definition DynamicQueueLabels (queue_ suffix : string) : labels := [("queue", queue_); ("suffix", suffix)].
Definition ProcessLabels (hostname_ pid_ : string) : labels := [("hostname", hostname_); ("pid", pid_)].

Record metric := { m_name : string; m_help : string; m_samples : list (labels * gauge) }.
Record registry := { reg_prefix : string; reg_metrics : list metric }.

Definition register_metric (m : metric) (r : registry) : registry :=
  {| reg_prefix := reg_prefix r; reg_metrics := reg_metrics r ++ [m] |}.
Definition register_i64 (name help : string) (value : Z) : registry -> registry :=
  register_metric {| m_name := name; m_help := help; m_samples := [([], GaugeI64 value)] |}.
Definition register_f64 (name help : string) (value : Q) : registry -> registry :=
  register_metric {| m_name := name; m_help := help; m_samples := [([], GaugeF64 value)] |}.
Definition register_family (name help : string) (family : list (labels * gauge)) : registry -> registry :=
  register_metric {| m_name := name; m_help := help; m_samples := family |}.

(** [family.get_or_create(&labels).set(value)]. *)
Fixpoint family_set (l : labels) (value : gauge) (family : list (labels * gauge)) : list (labels * gauge) :=
  match family with
  | [] => [(l, value)]
  | (l', value') :: family' => if decide (l = l') then (l, value) :: family' else (l', value') :: family_set l value family'
  end.

(** [register_families!]: a family per column, filled item by item. *)
Record column (A : Type) := { col_name : string; col_help : string; col_value : A -> gauge }.
Arguments col_name {A} _.
Arguments col_help {A} _.
Arguments col_value {A} _.
Definition fill {A} (labels_of : A -> labels) (c : column A) (items : list A) : list (labels * gauge) :=
  foldl (fun family item => family_set (labels_of item) (col_value c item) family) [] items.
Definition register_families {A} (labels_of : A -> labels) (items : list A) (columns : list (column A)) (r : registry) : registry :=
  foldl (fun r c => register_family (col_name c) (col_help c) (fill labels_of c items) r) r columns.

Definition global_metrics (g : StatsGlobal) : list (string * string * Z) :=
  [("jobs_total", "Total number of jobs (enqueued + scheduled)", i64_wrap (Z.of_nat (g_jobs g)));
   ("enqueued_total", "Total number of jobs currently enqueued", i64_wrap (g_enqueued g));
   ("processed_total", "Total number of jobs processed", g_processed g);
   ("failed_total", "Total number of jobs failed", g_failed g);
   ("dead_total", "Total number of dead jobs", i64_wrap (Z.of_nat (g_dead g)));
   ("scheduled_total", "Total number of scheduled jobs", i64_wrap (Z.of_nat (g_scheduled g)));
   ("retries_total", "Total number of jobs in retry queue", i64_wrap (Z.of_nat (g_retries g)))].

Definition queue_columns : list (column QueueStats) :=
  [{| col_name := "queue_enqueued"; col_help := "Number of jobs enqueued per queue"; col_value q := GaugeI64 (i64_wrap (qst_enqueued q)) |};
   {| col_name := "queue_processed_total"; col_help := "Total number of jobs processed per queue"; col_value q := GaugeI64 (rs_processed (qst_counts q)) |};
   {| col_name := "queue_succeeded_total"; col_help := "Total number of jobs succeeded per queue"; col_value q := GaugeI64 (rs_succeeded (qst_counts q)) |};
   {| col_name := "queue_panicked_total"; col_help := "Total number of jobs panicked per queue"; col_value q := GaugeI64 (rs_panicked (qst_counts q)) |};
   {| col_name := "queue_failed_total"; col_help := "Total number of jobs failed per queue"; col_value q := GaugeI64 (rs_failed (qst_counts q)) |};
   {| col_name := "queue_latency_seconds"; col_help := "Current latency per queue in seconds"; col_value q := GaugeF64 (qst_latency_s q) |}].

Definition dynamic_queues (queues : list QueueStats) : list (QueueStats * DynamicQueueStats) :=
  concat ((fun q => map (pair q) (qst_queues q)) <$> queues).
Definition dynamic_queue_columns : list (column (QueueStats * DynamicQueueStats)) :=
  [{| col_name := "dynamic_queue_enqueued"; col_help := "Number of jobs enqueued per dynamic sub-queue"; col_value p := GaugeI64 (i64_wrap (dq_enqueued p.2)) |};
   {| col_name := "dynamic_queue_processed_total"; col_help := "Total number of jobs processed per dynamic sub-queue"; col_value p := GaugeI64 (rs_processed (dq_counts p.2)) |};
   {| col_name := "dynamic_queue_succeeded_total"; col_help := "Total number of jobs succeeded per dynamic sub-queue"; col_value p := GaugeI64 (rs_succeeded (dq_counts p.2)) |};
   {| col_name := "dynamic_queue_panicked_total"; col_help := "Total number of jobs panicked per dynamic sub-queue"; col_value p := GaugeI64 (rs_panicked (dq_counts p.2)) |};
   {| col_name := "dynamic_queue_failed_total"; col_help := "Total number of jobs failed per dynamic sub-queue"; col_value p := GaugeI64 (rs_failed (dq_counts p.2)) |};
   {| col_name := "dynamic_queue_latency_seconds"; col_help := "Current latency per dynamic sub-queue in seconds"; col_value p := GaugeF64 (dq_latency_s p.2) |}].

Definition process_columns : list (column Process) :=
  [{| col_name := "process_heartbeat_timestamp_seconds"; col_help := "Last heartbeat timestamp per process"; col_value p := GaugeI64 (heartbeat_at p) |};
   {| col_name := "process_started_timestamp_seconds"; col_help := "Start timestamp per process"; col_value p := GaugeI64 (proc_started_at p) |}].

Definition from_stats_with_prefix (stats : StatsReport) (prefix : string) : registry :=
  let r := {| reg_prefix := prefix; reg_metrics := [] |} in
  let r := foldl (fun r (m : string * string * Z) => register_i64 m.1.1 m.1.2 m.2 r) r (global_metrics (st_global stats)) in
  let r := register_f64 "latency_max_seconds" "Maximum latency across all queues in seconds" (g_latency_s_max (st_global stats)) r in
  let r := register_families (fun q => QueueLabels (qst_key q)) (st_queues stats) queue_columns r in
  let r := register_families (fun p => DynamicQueueLabels (qst_key p.1) (dq_suffix p.2)) (dynamic_queues (st_queues stats))
             dynamic_queue_columns r in
  let r := register_families (fun p => ProcessLabels (hostname p) (z_to_string (pid p))) (st_processes stats) process_columns r in
  register_i64 "processes_count" "Number of active Oxana processes" (i64_wrap (Z.of_nat (length (st_processes stats)))) r.

Definition from_stats (stats : StatsReport) : registry := from_stats_with_prefix stats "oxana".

(** ** Facts *)

Lemma family_set_new l v family : l ∉ family.*1 -> family_set l v family = family ++ [(l, v)].
Proof.
  induction family as [|[l' v'] family IH]; cbn; [done|]. intros [Hn Hf]%not_elem_of_cons. rewrite decide_False by done. by rewrite IH.
Qed.

Lemma fill_distinct {A} (labels_of : A -> labels) (c : column A) items : NoDup (labels_of <$> items) ->
  fill labels_of c items = (fun i => (labels_of i, col_value c i)) <$> items.
Proof.
  intros H. unfold fill. assert (forall family, NoDup (family.*1 ++ (labels_of <$> items)) ->
    foldl (fun family item => family_set (labels_of item) (col_value c item) family) family items
      = family ++ ((fun i => (labels_of i, col_value c i)) <$> items)) as Hgen.
  { clear H. induction items as [|i items IH]; intros family H; cbn; [by rewrite app_nil_r|].
    assert (labels_of i ∉ family.*1) as Hn.
    { intros Hi. apply NoDup_app in H as (_ & H & _). apply (H _ Hi). cbn. by left. }
    rewrite family_set_new, IH by (try done; by rewrite fmap_app, <- app_assoc). by rewrite <- app_assoc. }
  by apply Hgen.
Qed.

Lemma distinct_labels {A K} (label : K -> labels) (key : A -> K) items :
  (forall k k', label k = label k' -> k = k') -> NoDup (key <$> items) -> NoDup ((fun i => label (key i)) <$> items).
Proof.
  intros Hinj. induction items as [|i items IH]; cbn; [constructor|]. intros [Hi Hitems]%NoDup_cons.
  constructor; [|by apply IH]. intros (i' & E & Hi')%list_elem_of_fmap. apply Hi. apply Hinj in E. rewrite E. by apply list_elem_of_fmap_2.
Qed.

Lemma register_families_metrics {A} (labels_of : A -> labels) items (cs : list (column A)) r :
  reg_metrics (register_families labels_of items cs r) =
    reg_metrics r ++ ((fun c => {| m_name := col_name c; m_help := col_help c; m_samples := fill labels_of c items |}) <$> cs).
Proof.
  unfold register_families. revert r. induction cs as [|c cs IH]; intros r; cbn; [by rewrite app_nil_r|].
  rewrite IH. cbn. by rewrite <- app_assoc.
Qed.

(** The export shows the report: each queue, sub-queue and process has one
    sample in each of its families, with its own figure, as long as they have
    distinct labels. Of processes of the same host name and number only the
    last is shown. *)
Theorem export_complete stats :
  NoDup (qst_key <$> st_queues stats) ->
  NoDup ((fun p => (qst_key p.1, dq_suffix p.2)) <$> dynamic_queues (st_queues stats)) ->
  NoDup ((fun p => (hostname p, z_to_string (pid p))) <$> st_processes stats) ->
  let exported := reg_metrics (from_stats stats) in
  (forall c, c ∈ queue_columns -> {| m_name := col_name c; m_help := col_help c;
     m_samples := (fun q => (QueueLabels (qst_key q), col_value c q)) <$> st_queues stats |} ∈ exported) /\
  (forall c, c ∈ dynamic_queue_columns -> {| m_name := col_name c; m_help := col_help c;
     m_samples := (fun p => (DynamicQueueLabels (qst_key p.1) (dq_suffix p.2), col_value c p)) <$> dynamic_queues (st_queues stats) |} ∈ exported) /\
  (forall c, c ∈ process_columns -> {| m_name := col_name c; m_help := col_help c;
     m_samples := (fun p => (ProcessLabels (hostname p) (z_to_string (pid p)), col_value c p)) <$> st_processes stats |} ∈ exported).
Proof.
  intros Hq Hd Hp exported.
  assert (NoDup ((fun q => QueueLabels (qst_key q)) <$> st_queues stats)) as Hq'
    by (apply (distinct_labels (fun k => QueueLabels k) qst_key); [by intros ? ? [=]|done]).
  assert (NoDup ((fun p => DynamicQueueLabels (qst_key p.1) (dq_suffix p.2)) <$> dynamic_queues (st_queues stats))) as Hd'
    by (apply (distinct_labels (fun k => DynamicQueueLabels k.1 k.2) (fun p => (qst_key p.1, dq_suffix p.2))); [|done];
        intros [? ?] [? ?]; cbn; by intros [= -> ->]).
  assert (NoDup ((fun p => ProcessLabels (hostname p) (z_to_string (pid p))) <$> st_processes stats)) as Hp'
    by (apply (distinct_labels (fun k => ProcessLabels k.1 k.2) (fun p => (hostname p, z_to_string (pid p)))); [|done];
        intros [? ?] [? ?]; cbn; by intros [= -> ->]).
  unfold exported, from_stats, from_stats_with_prefix. cbv zeta. generalize (register_f64 "latency_max_seconds"). intros latency.
  assert (forall name help v r, reg_metrics (register_i64 name help v r)
    = reg_metrics r ++ [{| m_name := name; m_help := help; m_samples := [([], GaugeI64 v)] |}]) as Hi by done.
  rewrite Hi, !register_families_metrics.
  split_and!; intros c Hc; rewrite !elem_of_app, !list_elem_of_fmap.
  - do 3 left. right. exists c. by rewrite fill_distinct.
  - do 2 left. right. exists c. by rewrite fill_distinct.
  - do 1 left. right. exists c. by rewrite fill_distinct.
Qed.
