(* ===== verification/ReadOnly.v ===== *)
(** * Operations that only read

    Counting, listing, reading jobs, configurations, statistics and metrics
    sends only commands that read: on any server, with any reply, nothing is
    written. The pages of the dashboard and the tools of the MCP server are
    built from them. *)
From Stdlib Require Import QArith.
From S2P Require Import Prelude Errors Redis Events Envelope Codec Queue Keys Scripts Storage Enqueue Client Metrics Stats StatsStorage Recovery Registry Runtime Api.

Section ReadOnly.
Context {Se : Serde} {C : ConfigSerde} {P : ProcessSerde}.
Implicit Types st : StorageInternal.

Lemma connection_read_only : read_only connection.
Proof. unfold connection. reads. Qed.
Lemma stats_connection_read_only st : read_only (stats_connection st).
Proof. unfold stats_connection. reads. Qed.
#[local] Hint Resolve connection_read_only stats_connection_read_only : read_only.

(** ** Jobs and configurations *)

Lemma get_job_w_conn_read_only st jid : read_only (get_job_w_conn st jid).
Proof. unfold get_job_w_conn. reads. Qed.
#[local] Hint Resolve get_job_w_conn_read_only : read_only.
Lemma get_job_read_only st jid : read_only (get_job st jid).
Proof. unfold get_job. reads. Qed.
Lemma jobs_w_conn_read_only st ids : read_only (jobs_w_conn st ids).
Proof. unfold jobs_w_conn. reads. Qed.
Lemma get_many_read_only st ids : read_only (get_many st ids).
Proof. unfold get_many. reads. Qed.
#[local] Hint Resolve jobs_w_conn_read_only get_many_read_only : read_only.
Lemma jobs_listed_read_only st ids : read_only (jobs_listed st ids).
Proof. unfold jobs_listed. reads. Qed.
#[local] Hint Resolve jobs_listed_read_only : read_only.
Lemma list_queue_jobs_read_only st q o : read_only (list_queue_jobs st q o).
Proof. unfold list_queue_jobs. reads. Qed.
Lemma list_dead_read_only st o : read_only (list_dead st o).
Proof. unfold list_dead. reads. Qed.
Lemma list_zset_read_only st key o : read_only (list_zset st key o).
Proof. unfold list_zset. reads. Qed.
Lemma counts_read_only st q : read_only (enqueued_count st q) /\ read_only (dead_count st) /\ read_only (retries_count st)
  /\ read_only (scheduled_count st) /\ read_only (jobs_count st).
Proof. unfold enqueued_count, dead_count, retries_count, scheduled_count, jobs_count. split_and!; reads. Qed.
Lemma queue_configs_read_only st qs : read_only (queue_configs_of st qs).
Proof. unfold queue_configs_of. reads. Qed.

(** ** Statistics *)

Lemma queues_w_conn_read_only st pattern : read_only (queues_w_conn st pattern).
Proof. unfold queues_w_conn, scan_keys_w_conn. reads. Qed.
Lemma read_hashes_read_only keys : read_only (read_hashes keys).
Proof. unfold read_hashes. reads. Qed.
#[local] Hint Resolve queues_w_conn_read_only read_hashes_read_only : read_only.
Lemma metrics_counter_hashes_for_read_only st minutes w : read_only (metrics_counter_hashes_for st minutes w).
Proof.
  unfold metrics_counter_hashes_for. destruct minutes as [|m ms]; [done|]. unfold read_only. apply guarded_try.
  - apply guarded_pipe_query, Forall_concat, Forall_fmap, Forall_true. intros minute. by apply Forall_fmap, Forall_true.
  - intros replies. reads.
Qed.
Lemma metrics_histogram_read_only st minutes w : read_only (metrics_histogram_counts_for st minutes w).
Proof. unfold metrics_histogram_counts_for. reads. Qed.
#[local] Hint Resolve metrics_counter_hashes_for_read_only metrics_histogram_read_only : read_only.
Lemma job_metrics_read_only st query now : read_only (job_metrics st query now).
Proof. unfold job_metrics, metrics_counter_hashes. reads. Qed.
Lemma job_metrics_for_read_only st w query now : read_only (job_metrics_for st w query now).
Proof. unfold job_metrics_for. reads. Qed.
Lemma queue_length_metrics_read_only st query now : read_only (queue_length_metrics st query now).
Proof. unfold queue_length_metrics, queue_length_metric_hashes. reads. Qed.

Lemma lengths_read_only st now snapshots cs : forall live,
  read_only (lengths_and_latencies_chunks st now snapshots cs live).
Proof. induction cs as [|keys cs IH]; intros live; cbn [lengths_and_latencies_chunks]; reads. Qed.
#[local] Hint Resolve lengths_read_only : read_only.
Lemma build_queue_stats_read_only st qs f r now micros : read_only (build_queue_stats st qs f r now micros).
Proof.
  unfold build_queue_stats, queue_stats_inputs, queue_length_metric_hashes, queue_counter_metric_hashes,
    queue_lengths_and_latencies. reads.
Qed.
#[local] Hint Resolve build_queue_stats_read_only : read_only.
Lemma stats_queues_read_only st now micros : read_only (stats_queues st now micros).
Proof. unfold stats_queues. reads. Qed.

Lemma read_process_chunks_read_only st cs : read_only (read_process_chunks st cs).
Proof. induction cs as [|ids cs IH]; cbn [read_process_chunks]; reads. Qed.
#[local] Hint Resolve read_process_chunks_read_only : read_only.
Lemma processes_w_conn_read_only st threshold now_ms : read_only (processes_w_conn st threshold now_ms).
Proof. unfold processes_w_conn. reads. Qed.
#[local] Hint Resolve processes_w_conn_read_only : read_only.
Lemma processes_alive_read_only st threshold now_ms : read_only (processes_alive st threshold now_ms).
Proof. unfold processes_alive. reads. Qed.
Lemma read_entries_read_only st cs : read_only (read_entries st cs).
Proof. induction cs as [|es cs IH]; cbn [read_entries]; reads. Qed.
#[local] Hint Resolve read_entries_read_only : read_only.
Lemma read_processing_read_only st cs : read_only (read_processing st cs).
Proof. induction cs as [|ps cs IH]; cbn [read_processing]; reads. Qed.
#[local] Hint Resolve read_processing_read_only : read_only.
Lemma stats_with_rates_read_only st threshold rates now micros now_ms :
  read_only (stats_with_rates st threshold rates now micros now_ms).
Proof. unfold stats_with_rates. reads. Qed.
End ReadOnly.

#[export] Hint Resolve get_job_read_only list_queue_jobs_read_only list_dead_read_only list_zset_read_only
  queue_configs_read_only job_metrics_read_only job_metrics_for_read_only queue_length_metrics_read_only
  stats_queues_read_only processes_alive_read_only stats_with_rates_read_only : read_only.
