(* ===== verification/WebConfig.v ===== *)
(** * Queue configuration in the dashboard ([oxana-web/src/handlers.rs],
    [templates.rs])

    What the dashboard shows as a queue's state and concurrency, where the
    concurrency comes from, and the queue value its buttons act on. The
    dashboard knows the queues of the catalog; the configurations stored in
    Redis are read with one HMGET. *)
From S2P Require Import Prelude Errors Redis Envelope Codec Queue Keys Scripts Storage Transitions Enqueue Client Registry Coordinator Sorting.
Open Scope nat_scope.

Inductive QueueConcurrencyStatus :=
| FixedStatus
| DefaultStatus (default_limit : nat)
| OverrideStatus (default_limit : nat).

Record QueueRuntimeConfigView := { view_config : QueueRuntimeConfig; concurrency_status : QueueConcurrencyStatus }.

Section WebConfig.
Context {Schedule : Type}.
Implicit Types (catalog : Catalog (Schedule := Schedule)) (stored_configs : gmap string QueueRuntimeConfig).

Definition base_queue_key (queue_key : string) : string :=
  match split_once "#" queue_key with Some (base, _) => base | None => queue_key end.

(** [catalog.queues.iter().find(|queue| queue.key == key)]. *)
Definition find_queue catalog (key : string) : option QueueInfo :=
  List.find (fun q => bool_decide (qi_key q = key)) (cat_queues catalog).

Definition queue_uses_dynamic_concurrency catalog (queue_key : string) : bool :=
  match find_queue catalog (base_queue_key queue_key) with
  | Some q => qi_dynamic_concurrency q
  | None => false
  end.

Definition default_queue_runtime_config catalog (queue_key : string) : QueueRuntimeConfig :=
  match find_queue catalog (base_queue_key queue_key) with
  | Some q => new_runtime_config (qi_concurrency q)
  | None => new_runtime_config 1
  end.

Definition merge_queue_runtime_config catalog (queue_key : string) (config default_config : QueueRuntimeConfig)
    : QueueRuntimeConfig :=
  let config := if queue_uses_dynamic_concurrency catalog queue_key then config
                else {| rt_concurrency := None; rt_state := rt_state config |} in
  with_defaults config default_config.

Definition queue_runtime_config_from_map catalog stored_configs (queue_key : string) : QueueRuntimeConfig :=
  let base_key := base_queue_key queue_key in
  let base_default := default_queue_runtime_config catalog base_key in
  let base_config :=
    match stored_configs !! base_key with
    | Some config => merge_queue_runtime_config catalog base_key config base_default
    | None => base_default
    end in
  if decide (queue_key = base_key) then base_config
  else match stored_configs !! queue_key with
       | Some config => merge_queue_runtime_config catalog queue_key config base_config
       | None => base_config
       end.

Definition queue_concurrency_status_from_map catalog stored_configs (queue_key : string) : QueueConcurrencyStatus :=
  if negb (queue_uses_dynamic_concurrency catalog queue_key) then FixedStatus
  else
    let base_key := base_queue_key queue_key in
    let configured_default := default 1 (rt_concurrency (default_queue_runtime_config catalog base_key)) in
    let direct_concurrency := stored_configs !! queue_key ≫= rt_concurrency in
    let status (default_limit : nat) :=
      match direct_concurrency with
      | Some n => if decide (n <> default_limit) then OverrideStatus default_limit else DefaultStatus default_limit
      | None => DefaultStatus default_limit
      end in
    if decide (queue_key = base_key) then status configured_default
    else status (default configured_default (rt_concurrency (queue_runtime_config_from_map catalog stored_configs base_key))).

Definition queue_runtime_config_view_from_map catalog stored_configs (queue_key : string) : QueueRuntimeConfigView :=
  {| view_config := queue_runtime_config_from_map catalog stored_configs queue_key;
     concurrency_status := queue_concurrency_status_from_map catalog stored_configs queue_key |}.

Definition queue_runtime_config_keys (queue_key : string) : list string :=
  let base_key := base_queue_key queue_key in
  if decide (base_key = queue_key) then [base_key] else [base_key; queue_key].

(** *** The queue a button acts on *)

Record RawQueue := { raw_key : string; raw_base_key : string; raw_dynamic : bool; raw_concurrency : QueueConcurrency }.

Definition raw_fixed (key : string) : RawQueue :=
  {| raw_key := key; raw_base_key := key; raw_dynamic := false; raw_concurrency := FixedConcurrency 1 |}.

Definition raw_from_catalog catalog (key : string) : RawQueue :=
  let base_key := base_queue_key key in
  let info := find_queue catalog base_key in
  {| raw_key := key; raw_base_key := base_key;
     raw_dynamic := match info with Some q => qi_dynamic q | None => false end;
     raw_concurrency :=
       match info with
       | Some q => if qi_dynamic_concurrency q then DynamicConcurrency (qi_concurrency q)
                   else FixedConcurrency (qi_concurrency q)
       | None => FixedConcurrency 1
       end |}.

(** [RawQueue::config]; a fixed concurrency of 0 panics. *)
Definition raw_config (q : RawQueue) : option QueueConfig :=
  let config := if raw_dynamic q then as_dynamic (raw_base_key q) else as_static (raw_key q) in
  match raw_concurrency q with
  | FixedConcurrency n => with_concurrency n config
  | DynamicConcurrency d => Some (dynamic_concurrency d config)
  end.

(** The [Queue] value handed to the storage. *)
Definition raw_handle (q : RawQueue) : option QueueHandle :=
  (fun config => {| q_key := raw_key q; q_config := config |}) <$> raw_config q.

(** *** What the templates print *)

Definition concurrency_label (v : QueueRuntimeConfigView) : string :=
  match rt_concurrency (view_config v) with Some n => z_to_string (Z.of_nat n) | None => "-" end.

Definition concurrency_default_label (v : QueueRuntimeConfigView) : string :=
  match concurrency_status v with
  | FixedStatus => concurrency_label v
  | DefaultStatus d | OverrideStatus d => z_to_string (Z.of_nat d)
  end.

Definition can_change_concurrency (v : QueueRuntimeConfigView) : bool :=
  match concurrency_status v with FixedStatus => false | _ => true end.

Definition has_concurrency_override (v : QueueRuntimeConfigView) : bool :=
  match concurrency_status v with OverrideStatus _ => true | _ => false end.

Implicit Types (queue_configs : gmap string QueueRuntimeConfigView).

Definition concurrency_for queue_configs (key : string) : string :=
  match queue_configs !! key with Some v => concurrency_label v | None => "-" end.
Definition default_concurrency_for queue_configs (key : string) : string :=
  match queue_configs !! key with Some v => concurrency_default_label v | None => "" end.
Definition has_concurrency_override_for queue_configs (key : string) : bool :=
  match queue_configs !! key with Some v => has_concurrency_override v | None => false end.
Definition state_for queue_configs (key : string) : string :=
  match queue_configs !! key with Some v => state_label (rt_state (view_config v)) | None => "Active" end.
Definition state_class_for queue_configs (key : string) : string :=
  match (fun v => rt_state (view_config v)) <$> queue_configs !! key with
  | Some Paused => "text-yellow-300"
  | _ => "text-green-300"
  end.

Definition queue_action_path (encode : string -> string) (base_path key action : string) : string :=
  base_path +:+ "/queues/" +:+ encode key +:+ "/" +:+ action.

(** ** Facts *)

(** The configuration a worker of a queue applies ([runtime_queue_config] and
    [effective_runtime_config]), as a function of what is stored. *)
Definition worker_config stored_configs (base_key queue_key : string) (qc : QueueConcurrency) : QueueRuntimeConfig :=
  let or_default key d := match stored_configs !! key with Some c => with_defaults c d | None => d end in
  effective_runtime_config qc
    (if decide (queue_key = base_key) then or_default queue_key (stored_runtime_default qc)
     else or_default queue_key (or_default base_key (stored_runtime_default qc))).

Lemma merge_effective catalog qc key config dflt :
  queue_uses_dynamic_concurrency catalog key = is_dynamic qc ->
  effective_runtime_config qc dflt = dflt ->
  merge_queue_runtime_config catalog key config dflt = effective_runtime_config qc (with_defaults config dflt).
Proof.
  intros Hd He. unfold merge_queue_runtime_config. rewrite Hd. destruct dflt as [c s]. unfold effective_runtime_config in *.
  destruct qc as [n|d]; cbn in *; simplify_eq; [done|].
  unfold with_defaults. cbn. f_equal. destruct (rt_concurrency config); [done|]. by destruct c; simplify_eq.
Qed.

Lemma effective_with_defaults qc config dflt :
  effective_runtime_config qc (with_defaults config (effective_runtime_config qc dflt)) =
  effective_runtime_config qc (with_defaults config dflt).
Proof. destruct qc; cbn; [done|]. unfold effective_runtime_config. cbn. by destruct (rt_concurrency config). Qed.

Lemma effective_idem qc config : effective_runtime_config qc (effective_runtime_config qc config) = effective_runtime_config qc config.
Proof. by destruct qc. Qed.

Lemma base_queue_key_plain key : has_char "#" key = false -> base_queue_key key = key.
Proof. intros H. unfold base_queue_key. by rewrite split_once_None. Qed.
Lemma base_queue_key_sub base suffix : has_char "#" base = false -> base_queue_key (base +:+ String "#" suffix) = base.
Proof. intros H. unfold base_queue_key. by rewrite split_once_app. Qed.

(** The catalog's entry of a queue configuration. *)
Lemma default_from_info catalog q key :
  find_queue catalog (base_queue_key key) = Some (queue_info q) ->
  default_queue_runtime_config catalog key = effective_runtime_config (concurrency q) (stored_runtime_default (concurrency q)).
Proof. unfold default_queue_runtime_config. intros ->. cbn. by destruct (concurrency q). Qed.

Lemma uses_dynamic_info catalog q key :
  find_queue catalog (base_queue_key key) = Some (queue_info q) ->
  queue_uses_dynamic_concurrency catalog key = is_dynamic (concurrency q).
Proof. unfold queue_uses_dynamic_concurrency. by intros ->. Qed.

(** State and concurrency on the page are those the worker's configuration
    watcher applies, for a queue of the catalog and every sub-queue. *)
Lemma view_is_worker_config catalog stored_configs q base key :
  has_char "#" base = false -> find_queue catalog base = Some (queue_info q) ->
  key = base \/ (exists suffix, key = base +:+ String "#" suffix) ->
  queue_runtime_config_from_map catalog stored_configs key = worker_config stored_configs base key (concurrency q).
Proof.
  intros Hb Hf Hk.
  assert (base_queue_key key = base) as Hbk.
  { destruct Hk as [->|[suffix ->]]; [by apply base_queue_key_plain|by apply base_queue_key_sub]. }
  pose proof (base_queue_key_plain _ Hb) as Hbb. set (qc := concurrency q).
  assert (default_queue_runtime_config catalog base = effective_runtime_config qc (stored_runtime_default qc)) as Hd.
  { apply default_from_info. by rewrite Hbb. }
  assert (queue_uses_dynamic_concurrency catalog base = is_dynamic qc) as Hub by (apply uses_dynamic_info; by rewrite Hbb).
  assert (queue_uses_dynamic_concurrency catalog key = is_dynamic qc) as Huk by (apply uses_dynamic_info; by rewrite Hbk).
  unfold queue_runtime_config_from_map, worker_config. rewrite Hbk, Hd.
  set (base_config := match stored_configs !! base with Some _ => _ | None => effective_runtime_config _ _ end).
  assert (base_config = effective_runtime_config qc
    (match stored_configs !! base with Some c => with_defaults c (stored_runtime_default qc) | None => stored_runtime_default qc end)) as Hbc.
  { unfold base_config. destruct (stored_configs !! base) as [c|]; [|done].
    rewrite (merge_effective _ qc) by (done || apply effective_idem). apply effective_with_defaults. }
  case_decide as Ek; [by subst key; rewrite Hbc|]. destruct (stored_configs !! key) as [c|]; [|done].
  rewrite (merge_effective _ qc) by (done || rewrite Hbc; apply effective_idem). rewrite Hbc. apply effective_with_defaults.
Qed.

(** An override is shown exactly when the limit in force is not the one the
    queue would fall back to. *)
Lemma status_spec catalog stored_configs q base key :
  has_char "#" base = false -> find_queue catalog base = Some (queue_info q) ->
  key = base \/ (exists suffix, key = base +:+ String "#" suffix) ->
  match concurrency q with
  | FixedConcurrency _ => queue_concurrency_status_from_map catalog stored_configs key = FixedStatus
  | DynamicConcurrency d => exists fallback,
      rt_concurrency (worker_config (<[key := default_runtime_config]> stored_configs) base key (concurrency q)) = Some fallback /\
      queue_concurrency_status_from_map catalog stored_configs key =
        if decide (rt_concurrency (worker_config stored_configs base key (concurrency q)) = Some fallback)
        then DefaultStatus fallback else OverrideStatus fallback
  end.
Proof.
  intros Hb Hf Hk.
  assert (base_queue_key key = base) as Hbk.
  { destruct Hk as [->|[suffix ->]]; [by apply base_queue_key_plain|by apply base_queue_key_sub]. }
  pose proof (base_queue_key_plain _ Hb) as Hbb.
  assert (queue_uses_dynamic_concurrency catalog key = is_dynamic (concurrency q)) as Huk by (apply uses_dynamic_info; by rewrite Hbk).
  assert (default_queue_runtime_config catalog base = effective_runtime_config (concurrency q) (stored_runtime_default (concurrency q))) as Hd.
  { apply default_from_info. by rewrite Hbb. }
  pose proof (view_is_worker_config catalog stored_configs q base base Hb Hf (or_introl eq_refl)) as Hbase.
  unfold queue_concurrency_status_from_map. rewrite Huk, Hbk, Hd, Hbase.
  destruct (concurrency q) as [n|d]; [done|]. cbn [is_dynamic negb]. unfold worker_config. cbn.
  rewrite (decide_True (P := base = base)) by done. rewrite !lookup_insert_eq.
  destruct (decide (key = base)) as [->|Hne].
  - exists d. split; [done|].
    destruct (stored_configs !! base) as [[[n|] s]|]; cbn; repeat case_decide; naive_solver.
  - rewrite lookup_insert_ne by done. eexists. split; [done|].
    destruct (stored_configs !! key) as [[[n|] s]|], (stored_configs !! base) as [[[m|] s']|]; cbn;
      repeat case_decide; naive_solver.
Qed.
End WebConfig.
