(* ===== verification/Derives.v ===== *)
(** * The derive macros ([oxana-macros]: [queue.rs], [worker.rs], [job.rs],
    [registry.rs])

    An expansion is what the generated implementation means: the functions of the
    trait it overrides. Attributes come as darling parses them, except where the
    crate parses itself ([FromMeta]): expressions and metas are the syntax it
    inspects. [abort!] and a compile error of the generated code are an [Err] of
    their text. heck's case conversions are parameters, and so is the user code a
    path names. *)
From S2P Require Import Prelude Errors Redis Envelope Queue Keys Scripts Storage Executor ExecutorFacts Recovery RecoveryFacts Registry Coordinator CoordinatorFacts Runtime Api Builder Worker WebConfig.
Open Scope Z_scope.

(** ** Syntax *)

(** Segments of a path; [get_ident]. *)
Abbreviation path := (list string).
Definition get_ident (p : path) : option string := match p with [x] => Some x | _ => None end.

Inductive Expr :=
| ELitStr (s : string)
| ELitInt (n : Z)              (* its digits' value *)
| ELitOther
| EPath (p : path)
| ECall (func : Expr) (args : list Expr)
| EGroup (e : Expr)
| EOther (tokens : string).

Inductive Meta :=
| MPath (p : path)
| MNameValue (p : path) (value : Expr)
| MList (p : path) (metas : option (list Meta)).       (* [None]: not metas *)

(** [base10_parse] of a literal into an integer type. *)
Definition base10_parse (max n : Z) : result string Z := if n <=? max then Ok n else Err "number too large to fit in target type".

(** ** [#[derive(Queue)]] *)

Inductive ConcurrencyArg := FixedArg (n : nat) | DynamicArg (n : nat).
Definition expected_concurrency : string := "expected Fixed(<integer>) or Dynamic(<integer>)".

Definition parse_concurrency_value (e : Expr) : result string nat :=
  match e with
  | ELitInt n => res_map Z.to_nat (base10_parse u64_max n)
  | _ => Err "expected integer literal"
  end.
Fixpoint parse_concurrency_expr (e : Expr) : result string nat :=
  match e with
  | ELitStr _ | ELitInt _ | ELitOther => parse_concurrency_value e
  | EGroup e' => parse_concurrency_expr e'
  | _ => Err "expected integer literal"
  end.
Definition parse_concurrency_call (func : Expr) (args : list Expr) : result string ConcurrencyArg :=
  match func with
  | EPath p =>
      match get_ident p with
      | None => Err expected_concurrency
      | Some ident =>
          match args with
          | [arg] =>
              res_bind (parse_concurrency_expr arg) (fun value =>
              if String.eqb ident "Fixed" then Ok (FixedArg value)
              else if String.eqb ident "Dynamic" then Ok (DynamicArg value)
              else Err expected_concurrency)
          | _ => Err "expected exactly one integer argument"
          end
      end
  | _ => Err expected_concurrency
  end.
Fixpoint concurrency_from_expr (e : Expr) : result string ConcurrencyArg :=
  match e with
  | ELitStr _ | ELitInt _ | ELitOther => res_map FixedArg (parse_concurrency_value e)
  | ECall func args => parse_concurrency_call func args
  | EGroup e' => concurrency_from_expr e'
  | _ => Err "expected integer literal, Fixed(<integer>), or Dynamic(<integer>)"
  end.

Record QueueArgs := {
  qa_registry : option path; qa_key : option string; qa_prefix : option string; qa_concurrency : option ConcurrencyArg;
  qa_discovery_interval_ms : option Z; qa_throttle : option QueueThrottle;
}.

(** The implementation: [key] of a value by its serialization ([unwrap_or_default]
    makes an error null), [to_config] ([None] is a panic), and the registry. *)
Record DerivedQueue := {
  dv_key : result string Value -> string;
  dv_to_config : option QueueConfig;
  dv_registry : option path;
}.

(** The component registry of a derive; [registry = None] turns it off. *)
Definition component_registry (feature : bool) (registry : option path) : option path :=
  let r := default ["ComponentRegistry"] registry in
  if feature && negb (bool_decide (r = ["None"])) then Some r else None.

Definition derived_to_config (is_dynamic_ : bool) (key : string) (args : QueueArgs) : option QueueConfig :=
  let c := if is_dynamic_ then as_dynamic key else as_static key in
  c ← match qa_concurrency args with
      | Some (FixedArg n) => with_concurrency n c
      | Some (DynamicArg n) => Some (dynamic_concurrency n c)
      | None => Some c
      end;
  c ← match qa_discovery_interval_ms args with
      | Some ms => with_discovery_interval (from_millis ms) c
      | None => Some c
      end;
  Some match qa_throttle args with Some t => with_throttle t c | None => c end.

Definition derived_key (is_dynamic_ : bool) (key : string) (self : result string Value) : string :=
  if is_dynamic_ then key +:+ "#" +:+ value_to_queue_key (default VNull (res_ok self)) else key.

Section Queues.
Variable to_snake_case : string -> string.
Variable feature : bool.                                (* the feature [registry] *)

(** The key or prefix. *)
Definition derived_base_key (ident : string) (num_fields : nat) (args : QueueArgs) : result string string :=
  match qa_key args, num_fields with
  | Some k, O => Ok k
  | Some _, _ => Err "Static queue cannot have struct fields."
  | None, O => Ok (to_snake_case ident)
  | None, _ => match qa_prefix args with
               | Some k => Ok k
               | None => Err "`prefix` must be specified for dynamic queues."
               end
  end.

Definition expand_derive_queue (ident : string) (num_fields : nat) (args : QueueArgs) : result string DerivedQueue :=
  let is_dynamic_ := bool_decide (is_Some (qa_prefix args)) in
  if bool_decide (is_Some (qa_discovery_interval_ms args)) && negb is_dynamic_
  then Err "discovery_interval_ms can only be used with dynamic queues (use `prefix = ...`)"
  else if is_dynamic_ && bool_decide (num_fields = 0%nat) then Err "Dynamic queues must have struct fields."
  else
    res_bind (derived_base_key ident num_fields args) (fun key =>
    if bool_decide (qa_discovery_interval_ms args = Some 0) then Err "discovery_interval_ms must be greater than zero"
    else Ok {| dv_key := derived_key is_dynamic_ key; dv_to_config := derived_to_config is_dynamic_ key args;
               dv_registry := component_registry feature (qa_registry args) |}).
End Queues.

(** ** [#[derive(Worker)]] *)

(** [MaxRetries] and [RetryDelay]: a number or a function's path. *)
Inductive NumOrPath := NumValue (n : Z) | CustomFunc (p : path).

(** [impl_from_meta_for_num_or_path!]; [max] is the integer type's, [name] the
    attribute's. The text of an unsupported value is left out. *)
Definition num_or_path_from_meta (max : Z) (name : string) (m : Meta) : result string NumOrPath :=
  match m with
  | MNameValue _ (ELitInt n) => res_map NumValue (base10_parse max n)
  | MNameValue _ (EPath p) => Ok (CustomFunc p)
  | MNameValue _ _ => Err ("Unsupported " +:+ name +:+ " value")
  | _ => Err (name +:+ " must be a name-value attribute")
  end.

Record WorkerArgs := {
  wa_job : option path; wa_registry : option path;
  wa_max_retries : option NumOrPath; wa_retry_delay : option NumOrPath;
  wa_batch_size : option nat; wa_batch_timeout_ms : option Z;
  wa_cron : option (string * QueueConfig);                 (* schedule, and the queue's [to_config] *)
}.

(** The job type's name when none is given. *)
Definition strip_suffix (suffix s : string) : option string :=
  let n := (String.length s - String.length suffix)%nat in
  if bool_decide (String.substring 0 n s +:+ suffix = s) then Some (String.substring 0 n s) else None.
Definition default_job_ident (ident : string) : string := default ident (strip_suffix "Worker" ident) +:+ "Job".

Section Workers.
Context {WorkerError : Type}.

(** The inherent methods the generated code calls, and the functions paths name. *)
Record WorkerMethods := {
  um_process : Job -> JobContext -> ended WorkerError;
  um_process_batch : list BatchItem -> ended WorkerError;
  um_max_retries : path -> Job -> Z;
  um_retry_delay : path -> Job -> Z -> Z;
}.

Record DerivedWorker := {
  dw_worker : Worker (WorkerError := WorkerError);
  dw_batch_config : option WorkerBatchConfig;
  dw_cron : option (string * QueueConfig);                 (* cron_schedule, cron_queue_config *)
}.

Definition expand_max_retries (u : WorkerMethods) (m : NumOrPath) : Job -> Z :=
  match m with NumValue n => fun _ => n | CustomFunc p => um_max_retries u p end.
Definition expand_retry_delay (u : WorkerMethods) (m : NumOrPath) : Job -> Z -> Z :=
  match m with NumValue n => fun _ _ => n | CustomFunc p => um_retry_delay u p end.

(** [expand_batch_config]; the generated [WorkerBatchConfig::new] does not panic. *)
Definition expand_batch_config (args : WorkerArgs) : result string (option WorkerBatchConfig) :=
  match wa_batch_size args, wa_batch_timeout_ms args with
  | Some size, Some timeout_ms =>
      if bool_decide (size = 0%nat) then Err "batch_size must be greater than zero"
      else Ok (new_batch_config size (from_millis timeout_ms))
  | None, None => Ok None
  | Some _, None => Err "batch_size requires batch_timeout_ms"
  | None, Some _ => Err "batch_timeout_ms requires batch_size"
  end.

Definition expand_worker_impl (type_name args_name : string) (u : WorkerMethods) (args : WorkerArgs)
    : result string DerivedWorker :=
  res_map (fun batch =>
    {| dw_worker := {|
         w_type_name := type_name; w_args_name := args_name;
         w_process := Some (match batch with
                            | Some _ => fun j ctx => um_process_batch u [{| item_job := j; item_ctx := ctx |}]
                            | None => um_process u
                            end);
         w_run_batch := match batch with Some _ => Some (um_process_batch u) | None => None end;
         w_max_retries := expand_max_retries u <$> wa_max_retries args;
         w_retry_delay := expand_retry_delay u <$> wa_retry_delay args |};
       dw_batch_config := batch; dw_cron := wa_cron args |})
    (expand_batch_config args).

(** [expand_derive_worker]; [replaces] is [<Job as oxana::Job>::REPLACES_ON_CONFLICT],
    asserted when the generated code is compiled. *)
Definition expand_derive_worker (replaces : bool) (type_name args_name : string) (u : WorkerMethods) (args : WorkerArgs)
    : result string DerivedWorker :=
  res_bind (expand_worker_impl type_name args_name u args) (fun w =>
  if bool_decide (is_Some (wa_cron args)) && replaces
  then Err "cron jobs do not support `on_conflict = Replace`; use `Skip`"
  else Ok w).

(** [expand_from_context_impl]: which field takes the context. *)
Inductive StructFields := UnitFields | NamedFields (names : list string) | UnnamedFields (count : nat).
Definition expand_from_context (fields : StructFields) : result string (option string) :=
  match fields with
  | UnitFields => Ok None
  | NamedFields [] => Ok None
  | NamedFields [field_name] => Ok (Some field_name)
  | NamedFields names => Err ("Worker structs with " +:+ z_to_string (Z.of_nat (length names)) +:+ " fields cannot auto-derive FromContext.")
  | UnnamedFields _ => Err "Tuple worker structs are not supported. Use named fields or a unit struct."
  end.
End Workers.

(** ** [#[derive(Job)]] *)

Inductive UniqueIdSpec :=
| Shorthand (fmt : string)
| NamedFormatter (fmt : string) (args : list (string * Expr))
| UniqueIdFunc (p : path).

(** The metas of [unique_id(fmt = ..., name = ...)]. *)
Fixpoint unique_id_metas (metas : list Meta) (fmt : option string) (args : list (string * Expr))
    : result string (option string * list (string * Expr)) :=
  match metas with
  | [] => Ok (fmt, args)
  | MNameValue p value :: metas' =>
      if bool_decide (p = ["fmt"]) then
        match value with
        | ELitStr s => unique_id_metas metas' (Some s) args
        | _ => Err "fmt must be a string literal"
        end
      else match get_ident p with
           | Some ident => unique_id_metas metas' fmt (args ++ [(ident, value)])
           | None => Err "expected identifier"
           end
  | _ => Err "Unsupported unique_id syntax"
  end.
Definition unique_id_from_meta (m : Meta) : result string UniqueIdSpec :=
  match m with
  | MNameValue _ (ELitStr s) => Ok (Shorthand s)
  | MNameValue _ (ELitInt _) | MNameValue _ ELitOther => Err "unique_id must be a string literal"
  | MNameValue _ (EPath p) => Ok (UniqueIdFunc p)
  | MNameValue _ _ => Err "Expected string literal or type path."
  | MList _ None => Err "expected a list of metas"
  | MList _ (Some metas) =>
      res_bind (unique_id_metas metas None []) (fun r =>
      match r.1 with
      | Some fmt => Ok (NamedFormatter fmt r.2)
      | None => Err "missing fmt"
      end)
  | MPath _ => Err "Invalid unique_id attribute"
  end.

(** ** Placeholders *)

Definition is_alphanumeric (c : ascii) : bool :=
  let n := N_of_ascii c in
  ((48 <=? n) && (n <=? 57) || (65 <=? n) && (n <=? 90) || (97 <=? n) && (n <=? 122))%N.
Definition is_ascii_digit (c : ascii) : bool := let n := N_of_ascii c in ((48 <=? n) && (n <=? 57))%N.
Fixpoint all_chars (f : ascii -> bool) (s : string) : bool :=
  match s with EmptyString => true | String c s' => f c && all_chars f s' end.
(** The names taken for placeholders, of ASCII templates. *)
Definition is_placeholder (s : string) : bool :=
  match s with
  | EmptyString => false
  | String c _ => all_chars (fun c => is_alphanumeric c || bool_decide (c = "_"%char)) s && negb (is_ascii_digit c)
  end.

(** Up to the closing brace, and the rest after it. *)
Fixpoint until_brace (s : string) : string * string :=
  match s with
  | EmptyString => ("", "")
  | String c s' => if bool_decide (c = "}"%char) then ("", s') else let '(name, rest) := until_brace s' in (String c name, rest)
  end.

(** [extract_format_placeholders]; every round consumes a character. *)
Fixpoint extract_placeholders (fuel : nat) (s : string) (seen : list string) : list string :=
  match fuel with
  | O => []
  | Datatypes.S fuel' =>
      match s with
      | EmptyString => []
      | String c s' =>
          if bool_decide (c = "{"%char) then
            let '(name, rest) := until_brace s' in
            if is_placeholder name && negb (bool_decide (name ∈ seen))
            then name :: extract_placeholders fuel' rest (name :: seen)
            else extract_placeholders fuel' rest seen
          else extract_placeholders fuel' s' seen
      end
  end.
Definition extract_format_placeholders (s : string) : list string := extract_placeholders (Datatypes.S (String.length s)) s [].

(** [format!] of named arguments, without format specifications: [None] is a
    compile error, also of a name given twice. *)
Fixpoint format_go (fuel : nat) (s : string) (args : list (string * string)) : option string :=
  match fuel with
  | O => None
  | Datatypes.S fuel' =>
      match s with
      | EmptyString => Some ""
      | String "{" (String "{" s') => String "{" <$> format_go fuel' s' args
      | String "}" (String "}" s') => String "}" <$> format_go fuel' s' args
      | String "{" s' =>
          let '(name, rest) := until_brace s' in
          text ← list_find (fun p => p.1 = name) args; (fun t => text.2.2 +:+ t) <$> format_go fuel' rest args
      | String "}" _ => None
      | String c s' => String c <$> format_go fuel' s' args
      end
  end.
Definition format_named (s : string) (args : list (string * string)) : option string :=
  if bool_decide (NoDup args.*1) then format_go (Datatypes.S (String.length s)) s args else None.

(** ** The arguments template of on-demand jobs *)

(** A type as far as it is inspected; a path is its last segment with the first
    type among its angle-bracketed arguments. *)
Inductive Ty :=
| TArray
| TWrapped (t : Ty)                                       (* a group, parentheses or a reference *)
| TTuple (ts : list Ty)
| TPath (ident : string) (generic : option Ty)
| TOther.

Definition ends_with (suffix s : string) : bool := bool_decide (is_Some (strip_suffix suffix s)).
Definition looks_like_numeric_id_newtype (ident : string) : bool := ends_with "Id" ident || ends_with "ID" ident.

Definition integer_types : list string :=
  ["i8"; "i16"; "i32"; "i64"; "i128"; "isize"; "u8"; "u16"; "u32"; "u64"; "u128"; "usize"].
Definition sequence_types : list string := ["Vec"; "VecDeque"; "LinkedList"; "HashSet"; "BTreeSet"].

Definition json_template_for_path (template_ : Ty -> Value) (ident : string) (generic : option Ty) : Value :=
  if bool_decide (ident = "Option") then VNull
  else if bool_decide (ident ∈ ["String"; "str"]) then VStr ""
  else if bool_decide (ident = "bool") then VBool false
  else if bool_decide (ident ∈ ["f32"; "f64"]) then VNumber (NumFloat "0.0")
  else if bool_decide (ident ∈ integer_types) then VNumber (NumInt 0)
  else if looks_like_numeric_id_newtype ident then VNumber (NumInt 0)
  else if bool_decide (ident ∈ sequence_types) then VArray []
  else if bool_decide (ident ∈ ["HashMap"; "BTreeMap"]) then VObject []
  else if bool_decide (ident = "Box") then
    match generic with Some t => template_ t | None => VObject [] end
  else VObject [].

Fixpoint json_template_for_type (t : Ty) : Value :=
  match t with
  | TArray => VArray []
  | TWrapped t' => json_template_for_type t'
  | TTuple ts => VArray (map json_template_for_type ts)
  | TPath ident generic => json_template_for_path json_template_for_type ident generic
  | TOther => VObject []
  end.

(** One meta of a serde attribute: its path, and its value when it has one,
    [Some (Some s)] for a string literal. *)
Record SerdeMeta := { sm_path : path; sm_value : option (option string) }.

(** [parse_nested_meta] over the metas of an attribute: the handler answers the
    state, and whether it consumed a value; a value it left, or a value that is not
    the literal it wants, ends the attribute. *)
Fixpoint parse_nested_meta {A} (handler : SerdeMeta -> A -> option (A * bool)) (metas : list SerdeMeta) (a : A) : A :=
  match metas with
  | [] => a
  | m :: metas' =>
      match handler m a with
      | None => a
      | Some (a', consumed) =>
          if consumed || bool_decide (sm_value m = None) then parse_nested_meta handler metas' a' else a'
      end
  end.

Inductive RenameRule := Lowercase | Uppercase | PascalCase | CamelCase | SnakeCase | ScreamingSnakeCase | KebabCase | ScreamingKebabCase.
Definition rename_rule_from_str (value : string) : option RenameRule :=
  if bool_decide (value = "lowercase") then Some Lowercase
  else if bool_decide (value = "UPPERCASE") then Some Uppercase
  else if bool_decide (value = "PascalCase") then Some PascalCase
  else if bool_decide (value = "camelCase") then Some CamelCase
  else if bool_decide (value = "snake_case") then Some SnakeCase
  else if bool_decide (value = "SCREAMING_SNAKE_CASE") then Some ScreamingSnakeCase
  else if bool_decide (value = "kebab-case") then Some KebabCase
  else if bool_decide (value = "SCREAMING-KEBAB-CASE") then Some ScreamingKebabCase
  else None.

(** The attributes named serde, each a list of metas. *)
Definition serde_rename_all (attrs : list (list SerdeMeta)) : option RenameRule :=
  foldl (fun rule metas => parse_nested_meta (fun m rule =>
           if bool_decide (sm_path m = ["rename_all"]) then
             match sm_value m with Some (Some value) => Some (rename_rule_from_str value, true) | _ => None end
           else Some (rule, false)) metas rule) None attrs.

Record SerdeFieldAttrs := { sf_rename : option string; sf_skip : bool }.
Definition serde_field_attrs (attrs : list (list SerdeMeta)) : SerdeFieldAttrs :=
  foldl (fun result metas => parse_nested_meta (fun m result =>
           if bool_decide (sm_path m = ["rename"]) then
             match sm_value m with
             | Some (Some value) => Some ({| sf_rename := Some value; sf_skip := sf_skip result |}, true)
             | _ => None
             end
           else if bool_decide (sm_path m ∈ [["skip"]; ["skip_deserializing"]])
           then Some ({| sf_rename := sf_rename result; sf_skip := true |}, false)
           else Some (result, false)) metas result) {| sf_rename := None; sf_skip := false |} attrs.

Record Field := { fd_ident : string; fd_ty : Ty; fd_attrs : list (list SerdeMeta) }.
Inductive Fields := FieldsNamed (fields : list Field) | FieldsUnnamed (types : list Ty) | FieldsUnit.

Section Jobs.
(** [to_lowercase], [to_uppercase] and heck, by rule. *)
Variable convert : RenameRule -> string -> string.

Definition rename_field (name : string) (rule : option RenameRule) : string :=
  match rule with Some r => convert r name | None => name end.

Definition template_entry (rename_all : option RenameRule) (f : Field) : option (string * Value) :=
  let serde := serde_field_attrs (fd_attrs f) in
  if sf_skip serde then None
  else Some (default (rename_field (fd_ident f) rename_all) (sf_rename serde), json_template_for_type (fd_ty f)).

(** [json!] keeps the last of equal names; serde_json's map decides the order. *)
Definition expand_on_demand_args_template (attrs : list (list SerdeMeta)) (fields : Fields) (on_demand_ : bool) : option Value :=
  if on_demand_ then
    Some match fields with
         | FieldsNamed fs => VObject (omap (template_entry (serde_rename_all attrs)) fs)
         | FieldsUnnamed ts => VArray (json_template_for_type <$> ts)
         | FieldsUnit => VNull
         end
  else None.
End Jobs.

(** ** [expand_derive_job] *)

Record JobArgs := {
  ja_unique_id : option UniqueIdSpec; ja_on_conflict : option string; ja_resurrect : option bool; ja_resume : option bool;
  ja_throttle_cost : option NumOrPath; ja_on_demand : bool;
}.
(** [ThrottleCost]. *)
Definition throttle_cost_from_meta (m : Meta) : result string NumOrPath := num_or_path_from_meta u64_max "throttle_cost" m.

(** What the generated code reads of a job: the texts of its fields and of
    expressions over it ([None] does not compile), and the functions paths name. *)
Record JobUser := {
  ju_fields : list (string * string);
  ju_expr : Expr -> option string;
  ju_unique_id : path -> option string;
  ju_throttle_cost : path -> option Z;
}.

Definition field_text (u : JobUser) (name : string) : option (string * string) :=
  snd <$> list_find (fun p => p.1 = name) (ju_fields u).

(** The answer of [unique_id]; the outer [None] does not compile. *)
Definition expand_unique_id (u : JobUser) (spec : UniqueIdSpec) : option (option string) :=
  match spec with
  | Shorthand fmt => args ← mapM (field_text u) (extract_format_placeholders fmt); Some <$> format_named fmt args
  | NamedFormatter fmt args =>
      args ← mapM (fun a : string * Expr => pair a.1 <$> ju_expr u a.2) args; Some <$> format_named fmt args
  | UniqueIdFunc p => Some (ju_unique_id u p)
  end.
Definition expand_throttle_cost (u : JobUser) (c : NumOrPath) : option Z :=
  match c with NumValue n => Some n | CustomFunc p => ju_throttle_cost u p end.
Definition conflict_strategy (ident : string) : option JobConflictStrategy :=
  if bool_decide (ident = "Replace") then Some Replace else if bool_decide (ident = "Skip") then Some Skip else None.

(** The job as its implementation answers, and [REPLACES_ON_CONFLICT]. *)
Definition expand_derive_job (convert : RenameRule -> string -> string) (type_name : string) (value : result string Value)
    (u : JobUser) (attrs : list (list SerdeMeta)) (fields : Fields) (args : JobArgs) : option (Job * bool) :=
  unique_id ← match ja_unique_id args with Some spec => expand_unique_id u spec | None => Some None end;
  on_conflict_ ← match ja_on_conflict args with Some ident => conflict_strategy ident | None => Some Skip end;
  Some ({| job_name := type_name; job_value := value; job_unique_id := unique_id; job_on_conflict := on_conflict_;
           job_should_resurrect := default true (ja_resurrect args); job_should_resume := default true (ja_resume args);
           job_throttle_cost := ja_throttle_cost args ≫= expand_throttle_cost u;
           job_on_demand_args_template := expand_on_demand_args_template convert attrs fields (ja_on_demand args) |},
        bool_decide (ja_on_conflict args = Some "Replace")).

(** ** [#[derive(Registry)]] *)

(** The arguments of a path's segment; the first angle-bracketed one matters. *)
Inductive GenericArgument := GenericType (t : string) | GenericOther.
Inductive PathArguments := AngleBracketed (args : list GenericArgument) | OtherArguments.
Inductive InnerType := InnerPath (segments : list (string * PathArguments)) | InnerOther.
Inductive RegistryData := StructUnnamed (fields : list InnerType) | StructOther | NotStruct.

(** The implementation of [RegisterComponents], for the registry created under the struct's name. *)
Record DerivedRegistry (Builder : Type) := { dr_context : string; dr_register_components : Builder -> option Builder }.
Arguments dr_context {Builder} _.
Arguments dr_register_components {Builder} _ _.

Definition registry_context (inner : InnerType) : result string string :=
  match inner with
  | InnerPath segments =>
      match last segments with
      | Some (_, AngleBracketed (GenericType t :: _)) => Ok t
      | Some _ => Err "Expected generic argument <WorkerContext>"
      | None => Err "Expected a struct with inner type"
      end
  | InnerOther => Err "Expected a struct with inner type"
  end.

Section Registries.
Context {Schedule : Type} (parse_schedule : string -> option Schedule).
Context {WorkerError Reporter Fut : Type}.
(** inventory: what was submitted to the registry of a name. *)
Variable components : string -> list (ComponentDefinition (WorkerError := WorkerError) (Reporter := Reporter) (Fut := Fut)).
Local Abbreviation builder := (RuntimeBuilder (Schedule := Schedule) (WorkerError := WorkerError) (Reporter := Reporter) (Fut := Fut)).

Definition expand_derive_registry (feature : bool) (ident : string) (data : RegistryData)
    : result string (option (DerivedRegistry builder)) :=
  if negb feature then Ok None
  else match data with
       | StructUnnamed [inner] =>
           res_map (fun context_ty => Some {|
             dr_context := context_ty; dr_register_components := register_components parse_schedule (components ident) |})
             (registry_context inner)
       | StructUnnamed _ | StructOther => Err "Expected a tuple struct with exactly one field"
       | NotStruct => Err "Expected a struct"
       end.
End Registries.

(** ** Queues: facts *)

Lemma derived_config_fields is_dynamic_ key args c : derived_to_config is_dynamic_ key args = Some c ->
  key_or_prefix c = key /\ is_dynamic_kind (kind c) = is_dynamic_.
Proof.
  unfold derived_to_config. intros (c1 & H1 & (c2 & H2 & [= <-])%bind_Some)%bind_Some.
  assert (forall t c, key_or_prefix (with_throttle t c) = key_or_prefix c /\ kind (with_throttle t c) = kind c) as Ht by done.
  assert (key_or_prefix c1 = key /\ is_dynamic_kind (kind c1) = is_dynamic_) as [E1 E2].
  { destruct (qa_concurrency args) as [[n|n]|]; unfold with_concurrency in H1; repeat case_decide; simplify_eq; by destruct is_dynamic_. }
  assert (key_or_prefix c2 = key /\ is_dynamic_kind (kind c2) = is_dynamic_) as [? ?].
  { destruct (qa_discovery_interval_ms args); [|by injection H2 as <-]. unfold with_discovery_interval in H2.
    apply bind_Some in H2 as (d & _ & H2). destruct (kind c1) eqn:E; [done|]. injection H2 as <-. unfold key_or_prefix in *. cbn. by rewrite E in *. }
  by destruct (qa_throttle args).
Qed.

Lemma derived_config_refused is_dynamic_ key args :
  qa_discovery_interval_ms args <> Some 0 -> (is_Some (qa_discovery_interval_ms args) -> is_dynamic_ = true) ->
  derived_to_config is_dynamic_ key args = None <-> qa_concurrency args = Some (FixedArg 0).
Proof.
  intros Hzero Hdyn. unfold derived_to_config, with_discovery_interval, require_non_zero_duration.
  assert (forall ms, qa_discovery_interval_ms args = Some ms -> is_dynamic_ = true /\ from_millis ms <> 0) as Hms.
  { intros ms E. split; [apply Hdyn; by eexists|]. unfold from_millis. intros H0. apply Hzero. rewrite E. f_equal. lia. }
  destruct (qa_concurrency args) as [[[|n]|n]|], (qa_discovery_interval_ms args) as [ms|];
    try (destruct (Hms ms eq_refl) as [-> ?]); cbn -[from_millis]; unfold with_concurrency;
    repeat (case_decide; cbn -[from_millis]); try done; try lia; destruct is_dynamic_; done.
Qed.


(** ** Workers: facts *)

Section WorkerFacts.
Context {WorkerError Reporter Fut : Type} (debug : WorkerError -> string) (c : Callbacks WorkerError Reporter Fut).

(** A derived worker always runs the user's own method, and never the trait's
    panic: without a batch configuration its jobs run [process]; with one a
    batch runs [process_batch] on its items and a single job on that one item,
    and the batch size is positive. Its retries are those of its attributes,
    or the trait's; and a cron worker's job never replaces the one before. *)
Theorem derived_worker_runs replaces type_name args_name u args dw :
  expand_derive_worker replaces type_name args_name u args = Ok dw ->
  (forall kind j ctx, p_process (bound_job debug c (dw_worker dw) kind [ctx] j) =
     run_process debug c (match dw_batch_config dw with
                          | Some _ => um_process_batch u [{| item_job := j; item_ctx := ctx |}]
                          | None => um_process u j ctx
                          end)) /\
  (forall config kind js ctxs, dw_batch_config dw = Some config -> length js = length ctxs ->
     (0 < batch_size config)%nat /\
     p_process (bound_batch_job debug c (dw_worker dw) kind ctxs js) = run_process debug c (um_process_batch u (batch_items js ctxs))) /\
  (forall j n, worker_max_retries (dw_worker dw) j = match wa_max_retries args with
                                                   | Some m => expand_max_retries u m j
                                                   | None => default_max_retries
                                                   end /\
     worker_retry_delay (dw_worker dw) j n = match wa_retry_delay args with
                                             | Some m => expand_retry_delay u m j n
                                             | None => default_retry_delay n
                                             end) /\
  (is_Some (dw_cron dw) -> replaces = false).
Proof.
  unfold expand_derive_worker, expand_worker_impl. intros H.
  destruct (expand_batch_config args) as [batch|] eqn:Eb; [|done]. cbn in H. destruct (_ && _) eqn:Ec in H; [done|]. injection H as <-.
  cbn [dw_worker dw_batch_config dw_cron]. split_and!.
  - intros kind j ctx. cbn. unfold worker_process. cbn. by destruct batch.
  - intros config kind js ctxs -> Hlen. split.
    + unfold expand_batch_config in Eb. destruct (wa_batch_size args) as [size|], (wa_batch_timeout_ms args); try done.
      destruct (bool_decide (size = 0%nat)); [done|]. injection Eb as Eb. unfold new_batch_config in Eb.
      destruct (decide (0 < size)%nat); [|done]. by injection Eb as <-.
    + cbn. unfold bound_batch_process. by rewrite decide_True by done.
  - intros j n. unfold worker_max_retries, worker_retry_delay. cbn. by destruct (wa_max_retries args), (wa_retry_delay args).
  - intros Hs. rewrite bool_decide_eq_true_2 in Ec by done. by destruct replaces.
Qed.
End WorkerFacts.

(** ** Unique IDs: facts *)

(** A template without escapes: texts without braces and fields. *)
Inductive segment := SegText (s : string) | SegField (name : string).
Definition no_braces (s : string) : bool := negb (has_char "{" s) && negb (has_char "}" s).
Definition segment_ok (g : segment) : bool :=
  match g with SegText s => no_braces s | SegField name => is_placeholder name end.
Definition template_text (g : segment) : string :=
  match g with SegText s => s | SegField name => "{" +:+ name +:+ "}" end.
Definition template (gs : list segment) : string := foldr (fun g s => template_text g +:+ s) "" gs.
Definition filled (fields : list (string * string)) (g : segment) : option string :=
  match g with SegText s => Some s | SegField name => (fun p => p.2.2) <$> list_find (fun p => p.1 = name) fields end.

Lemma placeholder_char a : is_alphanumeric a || bool_decide (a = "_"%char) = true ->
  bool_decide (a = "{"%char) = false /\ bool_decide (a = "}"%char) = false.
Proof. destruct a as [[] [] [] [] [] [] [] []]; vm_compute; auto. Qed.

Lemma placeholder_no_braces name : is_placeholder name = true -> no_braces name = true /\ name <> "".
Proof.
  destruct name as [|a name]; [done|]. intros H. split; [|done]. revert H.
  unfold is_placeholder. intros [H _]%andb_true_iff. revert H. generalize (String a name). clear.
  intros s. induction s as [|a s IH]; [done|]. cbn [all_chars]. intros [Ha Hs]%andb_true_iff. specialize (IH Hs).
  unfold no_braces in *. cbn [has_char]. apply andb_true_iff in IH as [H1 H2]. apply negb_true_iff in H1, H2. rewrite H1, H2.
  by destruct (placeholder_char a Ha) as [-> ->].
Qed.

Lemma until_brace_app name rest : has_char "}" name = false -> until_brace (name +:+ String "}" rest) = (name, rest).
Proof.
  induction name as [|a name IH]; intros H; [done|]. rewrite string_app_cons. cbn in H |- *.
  apply orb_false_iff in H as [Ha H]. apply bool_decide_eq_false in Ha. rewrite bool_decide_eq_false_2 by congruence. by rewrite IH.
Qed.

Lemma extract_text s : forall fuel rest seen, has_char "{" s = false ->
  extract_placeholders (String.length s + fuel) (s +:+ rest) seen = extract_placeholders fuel rest seen.
Proof.
  induction s as [|a s IH]; intros fuel rest seen H; [done|]. rewrite string_app_cons. cbn in H |- *.
  apply orb_false_iff in H as [-> H]. by apply IH.
Qed.

Fixpoint fresh_names (names seen : list string) : list string :=
  match names with
  | [] => []
  | n :: names' => if bool_decide (n ∈ seen) then fresh_names names' seen else n :: fresh_names names' (n :: seen)
  end.
Definition fields_of (gs : list segment) : list string :=
  omap (fun g => match g with SegField name => Some name | SegText _ => None end) gs.

Lemma length_append s t : String.length (s +:+ t) = (String.length s + String.length t)%nat.
Proof. induction s as [|a s IH]; [done|]. rewrite string_app_cons. cbn. by rewrite IH. Qed.

Lemma field_text_shape name rest : (("{" +:+ name +:+ "}") +:+ rest = String "{" (name +:+ String "}" rest)).
Proof. by rewrite !string_app_assoc. Qed.

Lemma extract_template gs : forallb segment_ok gs = true -> forall fuel seen, (String.length (template gs) < fuel)%nat ->
  extract_placeholders fuel (template gs) seen = fresh_names (fields_of gs) seen.
Proof.
  induction gs as [|g gs IH]; cbn [forallb]; intros H fuel seen Hf.
  { destruct fuel; [cbn in Hf; lia|done]. }
  apply andb_true_iff in H as [Hg H]. change (template (g :: gs)) with (template_text g +:+ template gs) in *. rewrite length_append in Hf.
  destruct g as [s|name]; cbn [template_text segment_ok] in *.
  - apply andb_true_iff in Hg as [Hg _]. apply negb_true_iff in Hg. cbn [fields_of omap list_omap].
    replace fuel with (String.length s + (fuel - String.length s))%nat by lia. rewrite extract_text by done. apply IH; [done|lia].
  - destruct (placeholder_no_braces _ Hg) as [Hb Hne]. unfold no_braces in Hb. apply andb_true_iff in Hb as [_ Hb]. apply negb_true_iff in Hb.
    rewrite field_text_shape. destruct fuel as [|fuel]; [lia|]. cbn [extract_placeholders]. rewrite bool_decide_eq_true_2 by done.
    rewrite until_brace_app by done. rewrite Hg. rewrite !length_append in Hf. cbn in Hf.
    change (fields_of (SegField name :: gs)) with (name :: fields_of gs). cbn [fresh_names andb].
    destruct (bool_decide (name ∈ seen)); cbn [negb]; rewrite IH; [done|done|lia|done|done|lia].
Qed.

Lemma format_text_char c s fuel args : c <> "{"%char -> c <> "}"%char -> format_go (Datatypes.S fuel) (String c s) args = String c <$> format_go fuel s args.
Proof. intros H1 H2. destruct c as [[] [] [] [] [] [] [] []]; try reflexivity; by destruct s as [|[[] [] [] [] [] [] [] []] s]. Qed.
Lemma format_text s : forall fuel rest args, no_braces s = true ->
  format_go (String.length s + fuel) (s +:+ rest) args = (fun t => s +:+ t) <$> format_go fuel rest args.
Proof.
  induction s as [|a s IH]; intros fuel rest args H.
  { rewrite string_app_nil_l. cbn. destruct (format_go fuel rest args); cbn; by rewrite ?string_app_nil_l. }
  unfold no_braces in *. cbn [has_char] in H. apply andb_true_iff in H as [H1 H2]. apply negb_true_iff, orb_false_iff in H1 as [Ha H1].
  apply negb_true_iff, orb_false_iff in H2 as [Hb H2]. apply bool_decide_eq_false in Ha, Hb. rewrite string_app_cons.
  cbn [String.length Nat.add]. rewrite format_text_char, IH by (done || by rewrite H1, H2).
  by destruct (format_go fuel rest args).
Qed.
Lemma format_field name rest fuel args : is_placeholder name = true ->
  format_go (Datatypes.S fuel) (String "{" (name +:+ String "}" rest)) args =
    (text ← list_find (fun p => p.1 = name) args; (fun t => text.2.2 +:+ t) <$> format_go fuel rest args).
Proof.
  intros H. destruct (placeholder_no_braces _ H) as [Hb Hne]. unfold no_braces in Hb. apply andb_true_iff in Hb as [H1 H2].
  apply negb_true_iff in H1, H2.
  destruct name as [|a name]; [done|]. rewrite string_app_cons. cbn [has_char] in H1. apply orb_false_iff in H1 as [Ha _].
  apply bool_decide_eq_false in Ha.
  assert (until_brace (String a (name +:+ String "}" rest)) = (String a name, rest)) as E by (rewrite <- string_app_cons; by apply until_brace_app).
  destruct a as [[] [] [] [] [] [] [] []]; try (by exfalso; apply Ha); cbn [format_go]; by rewrite E.
Qed.

Lemma list_find_name {A} name (l : list (string * A)) i p : list_find (fun p => p.1 = name) l = Some (i, p) -> p.1 = name.
Proof. intros H. by apply list_find_Some in H as (_ & ? & _). Qed.

(** The arguments of a shorthand: the texts of the fields it names. *)
Lemma shorthand_args (u : JobUser) ns : Forall (fun n => is_Some (field_text u n)) ns ->
  exists args, mapM (field_text u) ns = Some args /\ args.*1 = ns /\
    forall n, n ∈ ns -> (fun p => p.2.2) <$> list_find (fun p => p.1 = n) args = snd <$> field_text u n.
Proof.
  induction 1 as [|n ns [p Hp] _ (args & Hm & Hns & Hl)]; [exists []; split_and!; [done..|by intros n ?%elem_of_nil]|].
  exists (p :: args). split; [cbn; by rewrite Hp; cbn; rewrite Hm|].
  pose proof Hp as Hn. unfold field_text in Hn. apply fmap_Some in Hn as ([i q] & Hq & ->). apply list_find_name in Hq as Hq'. cbn in Hq', Hp.
  split; [cbn; by rewrite Hq', Hns|]. intros n' Hin. cbn. destruct (decide (q.1 = n')) as [E|E].
  - subst n'. rewrite Hq' in *. by rewrite Hp.
  - cbn. rewrite <- Hl by (apply elem_of_cons in Hin as [->|?]; [congruence|done]).
    by destruct (list_find (λ p : string * string, p.1 = n') args) as [[? ?]|].
Qed.

Lemma fresh_names_spec names seen n : n ∈ fresh_names names seen <-> n ∈ names /\ n ∉ seen.
Proof.
  revert seen. induction names as [|a names IH]; intros seen; cbn; [set_solver|].
  case_bool_decide as Ha; rewrite ?elem_of_cons, IH; [set_solver|]. destruct (decide (n = a)); set_solver.
Qed.

Lemma fresh_names_nodup names seen : NoDup (fresh_names names seen).
Proof.
  revert seen. induction names as [|a names IH]; intros seen; cbn; [constructor|]. destruct (bool_decide (a ∈ seen)); [apply IH|].
  constructor; [|apply IH]. rewrite fresh_names_spec. set_solver.
Qed.

Lemma format_template gs fields args : forallb segment_ok gs = true ->
  (forall n, n ∈ fields_of gs -> (fun p => p.2.2) <$> list_find (fun p => p.1 = n) args = filled fields (SegField n)) ->
  forall fuel, (String.length (template gs) < fuel)%nat ->
  format_go fuel (template gs) args = foldr (fun t s => t +:+ s) "" <$> mapM (filled fields) gs.
Proof.
  induction gs as [|g gs IH]; cbn [forallb]; intros H Hargs fuel Hf; [by destruct fuel; [cbn in Hf; lia|]|].
  apply andb_true_iff in H as [Hg H]. change (template (g :: gs)) with (template_text g +:+ template gs) in *. rewrite length_append in Hf.
  destruct g as [s|name]; cbn [template_text segment_ok] in *.
  - replace fuel with (String.length s + (fuel - String.length s))%nat by lia. rewrite format_text, IH by (done || lia). cbn.
    by destruct (mapM (filled fields) gs).
  - rewrite field_text_shape. rewrite !length_append in Hf. cbn in Hf. destruct fuel as [|fuel]; [lia|]. rewrite format_field by done.
    assert (forall n, n ∈ fields_of gs -> (fun p => p.2.2) <$> list_find (fun p => p.1 = n) args = filled fields (SegField n)) as Hrest
      by (intros n Hn; apply Hargs; change (fields_of (SegField name :: gs)) with (name :: fields_of gs); by right).
    specialize (Hargs name ltac:(change (fields_of (SegField name :: gs)) with (name :: fields_of gs); by left)).
    rewrite IH by (done || lia). change (mapM (filled fields) (SegField name :: gs)) with
      (filled fields (SegField name) ≫= fun t => mapM (filled fields) gs ≫= fun ts => Some (t :: ts)).
    rewrite <- Hargs. destruct (list_find _ args) as [[? ?]|]; cbn; [|done]. by destruct (mapM (filled fields) gs).
Qed.

(** The shorthand of a unique ID means what it looks like: a template of texts
    and fields in braces gives the texts with the fields' values in place of
    their names, however often a field occurs. *)
Theorem derived_unique_id u gs texts : forallb segment_ok gs = true ->
  mapM (filled (ju_fields u)) gs = Some texts ->
  expand_unique_id u (Shorthand (template gs)) = Some (Some (foldr (fun t s => t +:+ s) "" texts)).
Proof.
  intros Hgs Htexts. cbn [expand_unique_id]. unfold extract_format_placeholders. rewrite extract_template by (done || lia).
  assert (forall n, n ∈ fields_of gs -> is_Some (field_text u n)) as Hfields.
  { intros n Hn. apply list_elem_of_omap in Hn as ([s|name] & Hg & [= ->]). apply mapM_Some in Htexts.
    apply (Forall2_Forall_l _ (fun g => is_Some (filled (ju_fields u) g))) in Htexts; [|apply Forall_true; by intros ? ? ->].
    rewrite Forall_forall in Htexts. specialize (Htexts _ Hg). cbn in Htexts. unfold field_text.
    destruct (list_find _ (ju_fields u)); [by eexists|by destruct Htexts]. }
  destruct (shorthand_args u (fresh_names (fields_of gs) [])) as (args & -> & Hnames & Hargs).
  { apply Forall_forall. intros n [Hn _]%fresh_names_spec. by apply Hfields. }
  cbn [mbind option_bind]. unfold format_named. rewrite bool_decide_eq_true_2 by (rewrite Hnames; apply fresh_names_nodup).
  rewrite (format_template gs (ju_fields u)), Htexts; [done|done| |lia].
  intros n Hn. rewrite Hargs by (apply fresh_names_spec; split; [done|by intros ?%elem_of_nil]). cbn. unfold field_text.
  by destruct (list_find _ (ju_fields u)).
Qed.

(** ** Keys of sub-queues *)

Lemma join_inj c l k : length l = length k -> Forall (fun s => has_char c s = false) l -> Forall (fun s => has_char c s = false) k ->
  join (String c "") l = join (String c "") k -> l = k.
Proof.
  revert k. induction l as [|s l IH]; intros [|t k] Hlen Hl Hk H; [done..|].
  apply Forall_cons in Hl as [Hs Hl], Hk as [Ht Hk]. destruct l as [|s' l], k as [|t' k]; [by cbn in H; subst|done..|].
  cbn [join] in H. rewrite !string_app_cons, !string_app_nil_l in H.
  assert (split_once c (s +:+ String c (join (String c "") (s' :: l))) = split_once c (t +:+ String c (join (String c "") (t' :: k)))) as E
    by (f_equal; exact H).
  rewrite !split_once_app in E by done. injection E as -> E. f_equal. apply IH; [cbn in *; lia|done..].
Qed.

(** Two values of a dynamic queue with the same key agree in the text of every
    field, as long as no field's text contains a colon. *)
Lemma sub_queue_keys_distinct fs gs : fs.*1 = gs.*1 ->
  Forall (fun f : string * Value => has_char ":" f.1 = false /\ has_char ":" (value_to_queue_key f.2) = false) (fs ++ gs) ->
  value_to_queue_key (VObject fs) = value_to_queue_key (VObject gs) ->
  (fun f => value_to_queue_key f.2) <$> fs = (fun f => value_to_queue_key f.2) <$> gs.
Proof.
  intros Hnames [Hf Hg]%Forall_app H. cbn in H. apply join_inj in H.
  - revert gs Hnames H Hf Hg. induction fs as [|[n v] fs IH]; intros [|[n' v'] gs] Hn H Hf Hg; [done..|]. injection Hn as -> Hn.
    apply Forall_cons in Hf as [_ Hf], Hg as [_ Hg]. injection H as H1 H2. cbn in *.
    apply string_app_inj_l, string_app_inj_l in H1. rewrite H1. f_equal. by apply IH.
  - rewrite !length_map. by rewrite <- (length_fmap fst fs), Hnames, length_fmap.
  - apply Forall_fmap. eapply Forall_impl; [exact Hf|]. intros [n v] [? ?]. cbn in *. rewrite !has_char_app. by rewrite H0, H1.
  - apply Forall_fmap. eapply Forall_impl; [exact Hg|]. intros [n v] [? ?]. cbn in *. rewrite !has_char_app. by rewrite H0, H1.
Qed.

(** With colons they may collide. *)
Example sub_queue_keys_collide :
  value_to_queue_key (VObject [("a", VStr "x:b=y"); ("b", VStr "z")]) = value_to_queue_key (VObject [("a", VStr "x"); ("b", VStr "y:b=z")]).
Proof. reflexivity. Qed.

(** An attribute with a value serde accepts hides the ones after it: the field is
    listed under its own name. *)
Example rename_after_default_ignored convert :
  template_entry convert None {| fd_ident := "a"; fd_ty := TPath "u64" None;
    fd_attrs := [[{| sm_path := ["default"]; sm_value := Some (Some "f") |}; {| sm_path := ["rename"]; sm_value := Some (Some "b") |}]] |}
  = Some ("a", VNumber (NumInt 0)).
Proof. reflexivity. Qed.

(** ** Registries: facts *)

(** A derived registry is a builder method: it makes the calls of what was
    submitted to it, in order, for the context its field names, and for a struct
    of another shape the derive does not compile. *)
Theorem derived_registry_registers {Schedule WorkerError Reporter Fut} (parse_schedule : string -> option Schedule)
    (components : string -> list (ComponentDefinition (WorkerError := WorkerError) (Reporter := Reporter) (Fut := Fut))) ident data :
  match expand_derive_registry parse_schedule components true ident data with
  | Ok (Some dr) =>
      (exists segments name args, data = StructUnnamed [InnerPath (segments ++ [(name, AngleBracketed (GenericType (dr_context dr) :: args))])]) /\
      forall b, dr_register_components dr b = builder_calls parse_schedule (concat (component_calls <$> components ident)) b
  | Ok None => False
  | Err _ => forall segments name t args, data <> StructUnnamed [InnerPath (segments ++ [(name, AngleBracketed (GenericType t :: args))])]
  end.
Proof.
  destruct data as [[|inner [|? ?]]| |]; cbn; try (intros; discriminate).
  destruct inner as [segments|]; cbn; [|intros; discriminate].
  destruct (last segments) as [[name [[|[t|] args]|]]|] eqn:E; cbn; try (intros ????; intros [= ->]; rewrite last_snoc in E; by simplify_eq).
  apply last_Some in E as [l ->]. split; [by exists l, name, args|]. intros b. apply register_components_calls.
Qed.
