(* ===== verification/WebTree.v ===== *)
(** * The module tree of the cron and on-demand pages
    ([oxana-web/src/handlers.rs], [templates.rs])

    Both pages list jobs under the module path of their type name, as indented
    rows. A [BTreeMap] is an association list in key order. The facts say that
    the indentation tells the truth: reading it back gives every job once,
    under the path of its name. *)
From S2P Require Import Prelude Envelope Queue Registry Sorting.
Open Scope nat_scope.

(** ** Names *)

(** [name.split("::")]. *)
Fixpoint split_path (s : string) : list string :=
  match s with
  | EmptyString => [""]
  | String a s' =>
      match s' with
      | String b s'' =>
          if decide (a = ":"%char /\ b = ":"%char) then "" :: split_path s''
          else match split_path s' with seg :: segs => String a seg :: segs | [] => [String a ""] end
      | EmptyString => [String a ""]
      end
  end.

(** [type_tree_parts]: the groups, and the last two segments as one name. *)
Definition type_tree_parts (name : string) : list string * string :=
  let segments := split_path name in
  let split := length segments - 2 in
  (take split segments, join "::" (drop split segments)).

(** ** The tree *)

Section Tree.
Context {T : Type}.

Inductive TypeTreeNode := Node (children : list (string * TypeTreeNode)) (entries : list T).
Definition children (n : TypeTreeNode) := match n with Node cs _ => cs end.
Definition entries (n : TypeTreeNode) := match n with Node _ es => es end.
Definition new_node : TypeTreeNode := Node [] [].

(** [children.entry(key).or_insert_with(d)], updated with [f]. *)
Fixpoint btree_entry (key : string) (f : TypeTreeNode -> TypeTreeNode) (d : TypeTreeNode)
    (l : list (string * TypeTreeNode)) : list (string * TypeTreeNode) :=
  match l with
  | [] => [(key, f d)]
  | (k, v) :: l' =>
      match String.compare key k with
      | Eq => (k, f v) :: l'
      | Lt => (key, f d) :: l
      | Gt => (k, v) :: btree_entry key f d l'
      end
  end.

Fixpoint insert_type_tree_entry (root : TypeTreeNode) (group_segments : list string) (entry : T) : TypeTreeNode :=
  match group_segments with
  | [] => Node (children root) (entries root ++ [entry])
  | seg :: segs =>
      Node (btree_entry seg (fun n => insert_type_tree_entry n segs entry) new_node (children root)) (entries root)
  end.

(** [CronRow], [OnDemandRow]. *)
Inductive TypeRow :=
| GroupRow (name : string) (depth : nat)
| EntryRow (view : T) (depth : nat).

Definition row_depth (r : TypeRow) : nat := match r with GroupRow _ d | EntryRow _ d => d end.
Definition indent_px (r : TypeRow) : nat := row_depth r * 20.

Fixpoint flatten (depth : nat) (node : TypeTreeNode) : list TypeRow :=
  match node with
  | Node cs es =>
      (fix groups (cs : list (string * TypeTreeNode)) : list TypeRow :=
         match cs with
         | [] => []
         | (name, child) :: cs' => GroupRow name depth :: flatten (S depth) child ++ groups cs'
         end) cs
      ++ ((fun e => EntryRow e depth) <$> es)
  end.

(** [build_cron_rows], [build_on_demand_rows] on what they make of each job. *)
Definition build_tree (jobs : list (string * T)) : TypeTreeNode :=
  foldl (fun root p => insert_type_tree_entry root (type_tree_parts p.1).1 p.2) new_node jobs.
Definition build_rows (jobs : list (string * T)) : list TypeRow := flatten 0 (build_tree jobs).

(** ** Facts *)

(** What the indentation says: the group a row belongs to is the last one of
    each smaller depth. *)
Fixpoint read_rows (path : list string) (rows : list TypeRow) : list (list string * T) :=
  match rows with
  | [] => []
  | GroupRow name d :: rows' => read_rows (take d path ++ [name]) rows'
  | EntryRow e d :: rows' => (take d path, e) :: read_rows path rows'
  end.

Fixpoint last_path (path : list string) (rows : list TypeRow) : list string :=
  match rows with
  | [] => path
  | GroupRow name d :: rows' => last_path (take d path ++ [name]) rows'
  | EntryRow _ _ :: rows' => last_path path rows'
  end.

Lemma read_rows_app path r1 r2 : read_rows path (r1 ++ r2) = read_rows path r1 ++ read_rows (last_path path r1) r2.
Proof. revert path. induction r1 as [|[n d|e d] r1 IH]; intros path; cbn; [done|apply IH|]. by rewrite IH. Qed.
Lemma last_path_app path r1 r2 : last_path path (r1 ++ r2) = last_path (last_path path r1) r2.
Proof. revert path. induction r1 as [|[n d|e d] r1 IH]; intros path; cbn; auto. Qed.

Fixpoint located (path : list string) (node : TypeTreeNode) : list (list string * T) :=
  match node with
  | Node cs es =>
      (fix groups (cs : list (string * TypeTreeNode)) : list (list string * T) :=
         match cs with [] => [] | (name, child) :: cs' => located (path ++ [name]) child ++ groups cs' end) cs
      ++ (pair path <$> es)
  end.
Definition located_children (path : list string) (cs : list (string * TypeTreeNode)) : list (list string * T) :=
  concat ((fun p => located (path ++ [p.1]) p.2) <$> cs).

Lemma located_eq path n : located path n = located_children path (children n) ++ (pair path <$> entries n).
Proof. destruct n as [cs es]. cbn. f_equal. induction cs as [|[k v] cs IH]; cbn; [done|]. by rewrite IH. Qed.

Section NodeInd.
Variable P : TypeTreeNode -> Prop.
Hypothesis Hnode : forall cs es, Forall (fun p => P p.2) cs -> P (Node cs es).
Fixpoint node_rect (n : TypeTreeNode) : P n :=
  match n with
  | Node cs es => Hnode cs es ((fix all (cs : list (string * TypeTreeNode)) : Forall (fun p => P p.2) cs :=
      match cs with [] => Forall_nil_2 _ | p :: cs' => Forall_cons_2 _ _ _ (node_rect p.2) (all cs') end) cs)
  end.
End NodeInd.

Lemma take_le_eq {A} (m n : nat) (l l' : list A) : m <= n -> take n l = take n l' -> take m l = take m l'.
Proof. intros Hm H. rewrite <- (Nat.min_l m n) by done. rewrite <- !take_take. by rewrite H. Qed.

Lemma flatten_reads n : forall depth path stack, length path = depth -> take depth stack = path ->
  read_rows stack (flatten depth n) = located path n /\ take depth (last_path stack (flatten depth n)) = path.
Proof.
  induction n as [cs es Hcs] using node_rect. intros depth path stack Hlen Hstack. cbn [flatten located].
  rewrite !read_rows_app, last_path_app.
  assert (forall stack, take depth stack = path ->
    read_rows stack ((fun e => EntryRow e depth) <$> es) = (pair path <$> es) /\
    last_path stack ((fun e => EntryRow e depth) <$> es) = stack) as Hes.
  { clear stack Hstack. intros stack Hstack. induction es as [|e es IH]; cbn; [done|]. destruct IH as [-> ->]. by rewrite Hstack. }
  match goal with |- read_rows _ (?f cs) ++ _ = ?g cs ++ _ /\ _ =>
    assert (read_rows stack (f cs) = g cs /\ take depth (last_path stack (f cs)) = path) as [H1 H2] end.
  { clear Hes. revert stack Hstack. induction Hcs as [|[name child] cs Hc _ IH]; intros stack Hstack; [done|].
    cbn [read_rows last_path]. rewrite read_rows_app, last_path_app, Hstack.
    destruct (Hc (S depth) (path ++ [name]) (path ++ [name])) as [Hr Hl].
    { rewrite length_app. cbn. lia. } { rewrite take_ge; [done|]. rewrite length_app. cbn. lia. }
    cbn [snd] in *. rewrite Hr.
    assert (take depth (last_path (path ++ [name]) (flatten (S depth) child)) = path) as Hd.
    { trans (take depth (path ++ [name])); [|by apply take_app_length'].
      apply (take_le_eq depth (S depth)); [lia|]. rewrite Hl. symmetry. apply take_ge. rewrite length_app. cbn. lia. }
    destruct (IH _ Hd) as [-> ->]. done. }
  rewrite H1. destruct (Hes _ H2) as [-> ->]. done.
Qed.

Lemma located_new path : located path new_node = [].
Proof. done. Qed.

Lemma btree_entry_located path key f l x :
  (forall n, located (path ++ [key]) (f n) ≡ₚ x :: located (path ++ [key]) n) ->
  located_children path (btree_entry key f new_node l) ≡ₚ x :: located_children path l.
Proof.
  intros Hf. unfold located_children. induction l as [|[k v] l IH]; cbn [btree_entry].
  - cbn. by rewrite Hf, located_new.
  - destruct (String.compare key k) eqn:E; cbn.
    + apply String.compare_eq_iff in E as <-. by rewrite Hf.
    + by rewrite Hf, located_new.
    + by rewrite IH, Permutation_middle.
Qed.

Lemma insert_located segs e : forall path root,
  located path (insert_type_tree_entry root segs e) ≡ₚ (path ++ segs, e) :: located path root.
Proof.
  induction segs as [|seg segs IH]; intros path root; cbn [insert_type_tree_entry]; rewrite !located_eq; cbn [children entries].
  - rewrite fmap_app, app_nil_r. cbn [fmap list_fmap]. rewrite app_assoc. by rewrite Permutation_app_comm.
  - rewrite (btree_entry_located _ _ _ _ (path ++ seg :: segs, e)); [done|].
    intros n. rewrite IH. by rewrite <- app_assoc.
Qed.

Lemma build_tree_located jobs :
  located [] (build_tree jobs) ≡ₚ (fun p => ((type_tree_parts p.1).1, p.2)) <$> jobs.
Proof.
  unfold build_tree. assert (forall root, located [] (foldl (fun root p => insert_type_tree_entry root (type_tree_parts p.1).1 p.2) root jobs)
    ≡ₚ ((fun p => ((type_tree_parts p.1).1, p.2)) <$> jobs) ++ located [] root) as H.
  { induction jobs as [|j jobs IH]; intros root; cbn [foldl fmap list_fmap]; [done|].
    rewrite IH, insert_located. cbn. by rewrite <- Permutation_middle. }
  rewrite H, located_new. by rewrite app_nil_r.
Qed.

Lemma rows_located jobs :
  read_rows [] (build_rows jobs) ≡ₚ (fun p => ((type_tree_parts p.1).1, p.2)) <$> jobs.
Proof.
  unfold build_rows. destruct (flatten_reads (build_tree jobs) 0 [] []) as [-> _]; [done..|]. apply build_tree_located.
Qed.
End Tree.

(** ** Names *)

Lemma join_cons_char a seg segs : join "::" (String a seg :: segs) = String a (join "::" (seg :: segs)).
Proof. destruct segs; cbn; [done|]. by rewrite string_app_cons. Qed.

Lemma split_path_cons a b s : split_path (String a (String b s)) =
  if decide (a = ":"%char /\ b = ":"%char) then "" :: split_path s
  else match split_path (String b s) with seg :: segs => String a seg :: segs | [] => [String a ""] end.
Proof. done. Qed.

Lemma split_path_nonempty s : split_path s <> [].
Proof.
  destruct s as [|a [|b s]]; [done..|]. rewrite split_path_cons. case_decide; [done|].
  by destruct (split_path (String b s)).
Qed.

Lemma join_split_path s : join "::" (split_path s) = s.
Proof.
  assert (forall n s, String.length s <= n -> join "::" (split_path s) = s) as H; [|by eapply H].
  clear s. induction n as [|n IH]; intros [|a [|b s]] Hn; cbn in Hn; try done; try lia.
  rewrite split_path_cons.
  case_decide as E.
  - destruct E as [-> ->]. pose proof (IH s ltac:(lia)) as Hs. pose proof (split_path_nonempty s) as Hne.
    destruct (split_path s) as [|seg segs]; [done|]. change (join "::" ("" :: seg :: segs)) with ("" +:+ "::" +:+ join "::" (seg :: segs)).
    by rewrite Hs.
  - pose proof (IH (String b s) ltac:(cbn; lia)) as Hs. pose proof (split_path_nonempty (String b s)) as Hne.
    destruct (split_path (String b s)) as [|seg segs]; [done|]. by rewrite join_cons_char, Hs.
Qed.

Lemma join_app l1 l2 : l2 <> [] -> join "::" (l1 ++ l2) = join "::" (l1 ++ [join "::" l2]).
Proof.
  intros Hne. induction l1 as [|s l1 IH]; [done|]. cbn [app].
  destruct l1 as [|s' l1]; cbn [app] in *.
  - destruct l2 as [|x l2]; [done|]. done.
  - change (join "::" (s :: s' :: l1 ++ l2)) with (s +:+ "::" +:+ join "::" (s' :: l1 ++ l2)).
    change (join "::" (s :: s' :: l1 ++ [join "::" l2])) with (s +:+ "::" +:+ join "::" (s' :: l1 ++ [join "::" l2])).
    by rewrite IH.
Qed.

(** A name is its groups and its short name, joined again. *)
Lemma type_tree_parts_join name :
  join "::" ((type_tree_parts name).1 ++ [(type_tree_parts name).2]) = name.
Proof.
  unfold type_tree_parts. cbn [fst snd]. rewrite <- join_app, take_drop; [apply join_split_path|].
  intros H. apply (f_equal length) in H. rewrite length_drop in H. cbn in H.
  pose proof (split_path_nonempty name). destruct (split_path name); [done|]. cbn in *. lia.
Qed.

(** The rows of the cron and on-demand pages list every job exactly once,
    under the groups of its module path: the groups its indentation puts it in,
    joined with its short name, spell the name it is registered under. *)
Theorem rows_spell_paths {T} (jobs : list (string * T)) :
  exists paths : list (list string),
    Forall2 (fun path p => join "::" (path ++ [(type_tree_parts p.1).2]) = p.1) paths jobs /\
    read_rows [] (build_rows jobs) ≡ₚ zip paths (snd <$> jobs).
Proof.
  exists ((fun p => (type_tree_parts p.1).1) <$> jobs). split.
  - apply Forall2_fmap_l, Forall_Forall2_diag, Forall_true. intros p. apply type_tree_parts_join.
  - rewrite rows_located. induction jobs as [|p jobs IH]; [done|]. cbn [fmap list_fmap zip zip_with]. by rewrite IH.
Qed.
