(* ===== verification/WebJobs.v ===== *)
(** * The job pages of the dashboard ([oxana-web/src/handlers.rs],
    [pagination.rs], [lib.rs])

    The handlers that list, show, delete, revive and enqueue jobs, as programs
    over the monitoring API. A template is the record of what it is given, a
    redirect its location. The URL encoder, serde_json's parser and printer of
    values and the cron library's schedules are parameters; clock readings and
    UUIDs are arguments. *)
From S2P Require Import Prelude Errors Redis Envelope Codec Queue Keys Scripts Storage Transitions Promotion Queries Enqueue Registry Stats Recovery Api WebConfig WebTree.
Open Scope Z_scope.

(** ** Pages ([pagination.rs]) *)

Definition JOBS_PER_PAGE : Z := 50.

Record JobPage := { jp_jobs : list JobEnvelope; jp_number : Z; jp_total : Z; jp_has_next : bool }.

Definition div_ceil (a b : Z) : Z := (a + b - 1) / b.
(** [JobPage::clamp_number], [list_opts], [new]; [usize] arithmetic wraps. *)
Definition clamp_number (page total : Z) : Z := Z.min (Z.max page 1) (Z.max (div_ceil total JOBS_PER_PAGE) 1).
Definition list_opts (page : Z) : QueueListOpts :=
  {| opt_count := JOBS_PER_PAGE + 1; opt_offset := u64_wrap ((Z.max page 1 - 1) * JOBS_PER_PAGE) |}.
Definition new_page (page total : Z) (jobs : list JobEnvelope) : JobPage :=
  {| jp_jobs := take (Z.to_nat JOBS_PER_PAGE) jobs; jp_number := Z.max page 1; jp_total := total;
     jp_has_next := bool_decide (JOBS_PER_PAGE < Z.of_nat (length jobs)) |}.
Definition range_start (p : JobPage) : Z := u64_wrap ((jp_number p - 1) * JOBS_PER_PAGE + 1).
Definition range_end (p : JobPage) : Z :=
  Z.min (u64_wrap ((jp_number p - 1) * JOBS_PER_PAGE + Z.of_nat (length (jp_jobs p)))) (jp_total p).

(** ** Templates *)

Inductive JobListKind := DeadList | RetriesList | ScheduledList.
Definition kind_path (k : JobListKind) : string :=
  match k with DeadList => "/dead" | RetriesList => "/retries" | ScheduledList => "/scheduled" end.
Definition kind_title (k : JobListKind) : string :=
  match k with DeadList => "Dead Jobs" | RetriesList => "Retries" | ScheduledList => "Scheduled" end.
Definition kind_label (k : JobListKind) : string :=
  match k with DeadList => "dead jobs" | RetriesList => "retrying jobs" | ScheduledList => "scheduled jobs" end.
Definition kind_empty_label (k : JobListKind) : string :=
  match k with DeadList => "No dead jobs" | RetriesList => "No retrying jobs" | ScheduledList => "No scheduled jobs" end.
Definition kind_border_class (k : JobListKind) : string :=
  match k with DeadList => "border-red-900/50" | RetriesList => "border-orange-900/50" | ScheduledList => "border-yellow-900/50" end.
Definition kind_is_dead (k : JobListKind) : bool := match k with DeadList => true | _ => false end.
Definition kind_is_retries (k : JobListKind) : bool := match k with RetriesList => true | _ => false end.
Definition kind_dot_class (k : JobListKind) : string :=
  match k with DeadList => "bg-red-400" | RetriesList => "bg-orange-400" | ScheduledList => "bg-yellow-400" end.

Record GlobalJobsTemplate := { gj_base_path : string; gj_active_tab : string; gj_kind : JobListKind; gj_page : JobPage }.
Record JobDetailTemplate := {
  jd_base_path : string; jd_active_tab : string; jd_job_id : string; jd_job : option JobEnvelope; jd_is_dead : bool;
}.

Record CronWorkerView := {
  cv_name : string; cv_short_name : string; cv_schedule : string; cv_queue_key : string; cv_next_run_micros : option Z;
}.
Record CronTemplate := {
  ct_base_path : string; ct_active_tab : string; ct_rows : list (TypeRow (T := CronWorkerView)); ct_total : nat;
  ct_enqueued_job_id : option string;
}.
Record OnDemandJobView := { ov_name : string; ov_short_name : string; ov_args_template_json : string }.
Record OnDemandQueueView := { oq_key : string; oq_selected : bool }.
Record OnDemandFormError := { fe_name : string; fe_queue : string; fe_args : string; fe_message : string }.
Record OnDemandTemplate := {
  ot_base_path : string; ot_active_tab : string; ot_rows : list (TypeRow (T := OnDemandJobView));
  ot_queues : list OnDemandQueueView; ot_total : nat; ot_scheduled : bool; ot_form_error : option OnDemandFormError;
}.

(** The form shown again after an error is the one that was sent. *)
Definition submitted_for (t : OnDemandTemplate) (j : OnDemandJobView) : option OnDemandFormError :=
  form ← ot_form_error t; if decide (fe_name form = ov_name j) then Some form else None.
Definition has_error (t : OnDemandTemplate) (j : OnDemandJobView) : bool := bool_decide (is_Some (submitted_for t j)).
Definition args_for (t : OnDemandTemplate) (j : OnDemandJobView) : string :=
  match submitted_for t j with Some form => fe_args form | None => ov_args_template_json j end.
Definition error_for (t : OnDemandTemplate) (j : OnDemandJobView) : string :=
  match submitted_for t j with Some form => fe_message form | None => "" end.
Definition queue_selected (t : OnDemandTemplate) (j : OnDemandJobView) (q : OnDemandQueueView) : bool :=
  match submitted_for t j with Some form => bool_decide (fe_queue form = oq_key q) | None => oq_selected q end.

Record Redirect := { location : string }.
(** [OnDemandTemplate] with status 422, or a redirect. *)
Inductive OnDemandResponse := Unprocessable (t : OnDemandTemplate) | OnDemandRedirect (r : Redirect).

(** ** Forms *)

Record DeleteJobParams := { dp_page : Z; dp_busy : bool }.
Record EnqueueJobForm := {
  ef_queue : string; ef_name : string; ef_args : string; ef_state : option string; ef_redirect : option string;
}.
Record OnDemandEnqueueJobForm := { of_queue : string; of_name : string; of_args : string }.

(** Text and JSON values ([serde_json::from_str], [to_string_pretty], [Display]),
    percent-encoding, and the schedules of the cron library. *)
Class WebLibraries (Schedule : Type) := {
  json_from_str : string -> result string Value;
  json_pretty : Value -> result string string;
  json_display : Value -> string;
  url_encode : string -> string;
  schedule_text : Schedule -> string;
  schedule_next : Schedule -> Z -> option Z;
}.

Record OxanaWebState (Schedule : Type) := {
  web_storage : Api.Storage; web_catalog : Catalog (Schedule := Schedule); web_base_path : string;
}.
Arguments web_storage {Schedule} _.
Arguments web_catalog {Schedule} _.
Arguments web_base_path {Schedule} _.

(** The clock reading and the UUID of an envelope built here. *)
Record Stamp := { s_now : Z; s_uuid : string }.

Section WebJobs.
Context `{Se : Serde} `{C : ConfigSerde} `{P : ProcessSerde} {Schedule : Type} `{W : WebLibraries Schedule}.
Variable state_ : OxanaWebState Schedule.
Local Abbreviation api := (web_storage state_).
Local Abbreviation base_path := (web_base_path state_).
Local Abbreviation catalog := (web_catalog state_).
Open Scope prog_scope.

Definition redirect_to (path : string) : Redirect := {| location := base_path +:+ path |}.

(** ** Lists *)

Definition global_jobs (page : Z) (k : JobListKind) : rprog GlobalJobsTemplate :=
  let opts := list_opts page in
  let template total jobs :=
    lift (Ok {| gj_base_path := base_path; gj_active_tab := kind_path k; gj_kind := k;
                gj_page := new_page page (Z.of_nat total) jobs |}) in
  match k with
  | ScheduledList => total <-? api_scheduled_count api ;; jobs <-? api_list_scheduled api opts ;; template total jobs
  | DeadList => total <-? api_dead_count api ;; jobs <-? api_list_dead api opts ;; template total jobs
  | RetriesList => total <-? api_retries_count api ;; jobs <-? api_list_retries api opts ;; template total jobs
  end.
Definition scheduled_jobs (page : Z) := global_jobs page ScheduledList.
Definition dead_jobs (page : Z) := global_jobs page DeadList.
Definition retry_jobs (page : Z) := global_jobs page RetriesList.

Definition wipe_dead_handler : rprog Redirect := _ <-? api_wipe_dead api ;; lift (Ok (redirect_to "/dead")).
Definition revive_all_dead_handler (fuel : nat) (uuid : string) : rprog Redirect :=
  _ <-? api_revive_all_dead api fuel uuid ;; lift (Ok (redirect_to "/dead")).
Definition retry_all_now_handler : rprog Redirect := _ <-? api_retry_all_now api ;; lift (Ok (redirect_to "/retries")).

(** ** One job *)

(** A job by its ID, among the dead letters when it has no payload. *)
Definition find_job (jid : string) : rprog (option JobEnvelope * bool) :=
  found <-? api_get_job api jid ;;
  match found with
  | Some e => lift (Ok (Some e, false))
  | None =>
      n <-? api_dead_count api ;;
      match n with
      | O => lift (Ok (None, false))
      | _ =>
          dead_jobs <-? api_list_dead api {| opt_count := Z.of_nat n; opt_offset := 0 |} ;;
          lift (Ok match List.find (fun e => bool_decide (id e = jid)) dead_jobs with
                   | Some e => (Some e, true)
                   | None => (None, false)
                   end)
      end
  end.

Definition job_detail (jid : string) : rprog JobDetailTemplate :=
  found <-? find_job jid ;;
  lift (Ok {| jd_base_path := base_path; jd_active_tab := "/jobs"; jd_job_id := jid; jd_job := found.1; jd_is_dead := found.2 |}).

Definition delete_job_redirect (queue_key : string) (params : DeleteJobParams) : Redirect :=
  if dp_busy params then redirect_to "/busy"
  else redirect_to ("/queues/" +:+ url_encode queue_key +:+ "?page=" +:+ z_to_string (Z.max (dp_page params) 1)).

Definition delete_job_handler (queue_key jid : string) (params : DeleteJobParams) : rprog Redirect :=
  _ <-? api_delete_job api jid ;; lift (Ok (delete_job_redirect queue_key params)).

(** ** Enqueueing from a form *)

Definition immediate_envelope (q n : string) (v : Value) (s : option Value) (r : bool) (t : Stamp) : JobEnvelope :=
  {| id := s_uuid t; queue := q; job := {| name := n; args := v |};
     meta := {| meta_id := s_uuid t; on_demand := None; retries := 0; unique := false; on_conflict := None;
                created_at := s_now t; scheduled_at := s_now t; started_at := None; state := s; resurrect := r;
                error := None; throttle_cost := None |} |}.

Definition parse_json (input : string) : result OxanaError Value := map_err JsonError (json_from_str input).
Definition parse_optional_json (input : option string) : result OxanaError (option Value) :=
  transpose (parse_json <$> (s ← input; if decide (s = ""%string) then None else Some s)).

Definition enqueue_job (fuel : nat) (form : EnqueueJobForm) (t : Stamp) : rprog Redirect :=
  v <-? lift (parse_json (ef_args form)) ;;
  s <-? lift (parse_optional_json (ef_state form)) ;;
  _ <-? api_enqueue_envelope api fuel (immediate_envelope (ef_queue form) (ef_name form) v s true t) ;;
  lift (Ok (redirect_to (default "/dead"%string (ef_redirect form)))).

Definition cron_envelope_from_form (form_name : string) (t : Stamp) : result OxanaError JobEnvelope :=
  match List.find (fun j => bool_decide (cw_name j = form_name)) (cat_cron_workers catalog) with
  | Some j => Ok (immediate_envelope (cw_queue_key j) (cw_name j) (VObject []) None (cw_resurrect j) t)
  | None => Err (GenericError ("Cron job " +:+ form_name +:+ " is not registered"))
  end.

Definition cron_enqueued_redirect (jid : string) : Redirect := redirect_to ("/cron?enqueued=" +:+ url_encode jid).

Definition enqueue_cron_job (fuel : nat) (form_name : string) (t : Stamp) : rprog Redirect :=
  e <-? lift (cron_envelope_from_form form_name t) ;;
  jid <-? api_enqueue_envelope api fuel e ;;
  lift (Ok (cron_enqueued_redirect jid)).

Definition on_demand_envelope_from_form (form : OnDemandEnqueueJobForm) (uuid : string) (now_c now_s : Z)
    : result OxanaError JobEnvelope :=
  if existsb (fun q => negb (qi_dynamic q) && bool_decide (qi_key q = of_queue form)) (cat_queues catalog) then
    match List.find (fun j => bool_decide (odi_name j = of_name form)) (cat_on_demand catalog) with
    | Some j => res_bind (parse_json (of_args form)) (fun v => enqueue_envelope_of j (of_queue form) v uuid now_c now_s)
    | None => Err (GenericError ("Job " +:+ of_name form +:+ " is not registered for on-demand enqueue"))
    end
  else Err (GenericError ("Queue " +:+ of_queue form +:+ " is not a registered static queue")).

(** ** The cron and on-demand pages *)

Definition cron_view (now : Z) (j : CronWorkerInfo) : CronWorkerView :=
  {| cv_name := cw_name j; cv_short_name := (type_tree_parts (cw_name j)).2; cv_schedule := schedule_text (cw_schedule j);
     cv_queue_key := cw_queue_key j; cv_next_run_micros := schedule_next (cw_schedule j) now |}.
Definition build_cron_rows (now : Z) : list TypeRow :=
  build_rows ((fun j => (cw_name j, cron_view now j)) <$> cat_cron_workers catalog).
Definition cron_jobs (now : Z) (enqueued : option string) : CronTemplate :=
  {| ct_base_path := base_path; ct_active_tab := "/cron"; ct_rows := build_cron_rows now;
     ct_total := length (cat_cron_workers catalog); ct_enqueued_job_id := enqueued |}.

Definition on_demand_view (j : OnDemandJobInfo) : OnDemandJobView :=
  let template := od_args_template (odi_registration j) in
  {| ov_name := odi_name j; ov_short_name := (type_tree_parts (odi_name j)).2;
     ov_args_template_json := match json_pretty template with Ok s => s | Err _ => json_display template end |}.
Definition build_on_demand_rows : list TypeRow :=
  build_rows ((fun j => (odi_name j, on_demand_view j)) <$> cat_on_demand catalog).

Definition selected_queue : option string :=
  List.find (fun candidate => existsb (fun q => negb (qi_dynamic q) && bool_decide (qi_key q = candidate)) (cat_queues catalog))
    ["on_demand"; "default"; "main"]%string.
Definition build_on_demand_queue_views : list OnDemandQueueView :=
  (fun q => {| oq_key := qi_key q; oq_selected := bool_decide (selected_queue = Some (qi_key q)) |})
    <$> List.filter (fun q => negb (qi_dynamic q)) (cat_queues catalog).

Definition on_demand_template (scheduled_ : bool) (form_error : option OnDemandFormError) : OnDemandTemplate :=
  {| ot_base_path := base_path; ot_active_tab := "/on-demand"; ot_rows := build_on_demand_rows;
     ot_queues := build_on_demand_queue_views; ot_total := length (cat_on_demand catalog); ot_scheduled := scheduled_;
     ot_form_error := form_error |}.
Definition on_demand_jobs (scheduled_ : option string) : OnDemandTemplate :=
  on_demand_template (bool_decide (scheduled_ = Some "1"%string)) None.

Definition enqueue_on_demand_job (fuel : nat) (form : OnDemandEnqueueJobForm) (uuid : string) (now_c now_s : Z)
    : rprog OnDemandResponse :=
  match on_demand_envelope_from_form form uuid now_c now_s with
  | Ok e =>
      _ <-? api_enqueue_envelope api fuel e ;;
      lift (Ok (OnDemandRedirect (redirect_to "/on-demand?scheduled=1")))
  | Err (JsonError text) =>
      lift (Ok (Unprocessable (on_demand_template false
        (Some {| fe_name := of_name form; fe_queue := of_queue form; fe_args := of_args form;
                 fe_message := "Invalid arguments: " +:+ text |}))))
  | Err e => lift (Err e)
  end.
End WebJobs.

(** ** Facts *)

Section Facts.
Context {R : RedisServer} {L : LawfulRedis R} {Se : Serde} {LS : LawfulSerde Se} {C : ConfigSerde}.
Context {Schedule : Type} {W : WebLibraries Schedule}.
Variable state_ : OxanaWebState Schedule.
Local Abbreviation st := (internal (web_storage state_)).
Local Abbreviation keys := (skeys st).

(** What each entry of a list is shown as. *)
Definition listing {ks} (k : JobListKind) (js : job_store st ks) : list (option JobEnvelope) :=
  match k with
  | DeadList => (fun text => res_ok (from_str text)) <$> dead_letters js
  | RetriesList => shown (payloads js) <$> (zset_sorted (retrying js)).*1
  | ScheduledList => shown (payloads js) <$> (zset_sorted (scheduled js)).*1
  end.

Lemma list_opts_ok page : 1 <= page -> page * JOBS_PER_PAGE < i64_max ->
  opts_ok (list_opts page) /\ opt_offset (list_opts page) = (page - 1) * JOBS_PER_PAGE.
Proof.
  unfold opts_ok, list_opts, JOBS_PER_PAGE, i64_max. intros Hp Hm. cbn [opt_count opt_offset].
  rewrite Z.max_l by lia. rewrite u64_wrap_small by (unfold u64_max; lia). lia.
Qed.

Lemma omap_listed {A} (f : A -> option JobEnvelope) o l all : f <$> l = Some <$> all -> omap f (slice o l) = slice o all.
Proof.
  intros H. assert (omap f (slice o l) = omap Datatypes.id (f <$> slice o l)) as ->.
  { generalize (slice o l) as l'. induction l' as [|x l' IH]; cbn; [done|]. by destruct (f x); cbn; rewrite IH. }
  rewrite slice_fmap, H, <- slice_fmap. generalize (slice o all) as l'.
  induction l' as [|x l' IH]; cbn; [done|]. by f_equal.
Qed.

Lemma readable_listed h ids all : shown h <$> ids = Some <$> all -> Forall (fun jid => unreadable h jid = false) ids.
Proof.
  intros H. apply Forall_forall. intros jid Hin. unfold unreadable.
  assert (is_Some (shown h jid)) as [e He].
  { apply (list_elem_of_fmap_2 (shown h)) in Hin. rewrite H in Hin. apply list_elem_of_fmap in Hin as (e & -> & _). eauto. }
  unfold shown in He. destruct (h !! jid) as [text|]; [|done]. by destruct (from_str text).
Qed.

(** The page of a listing. *)
Lemma new_page_slice page all : 1 <= page -> page * JOBS_PER_PAGE < i64_max ->
  new_page page (Z.of_nat (length all)) (slice (list_opts page) all) =
  {| jp_jobs := take 50 (drop (50 * (Z.to_nat page - 1)) all); jp_number := page; jp_total := Z.of_nat (length all);
     jp_has_next := bool_decide (50 * page < Z.of_nat (length all)) |}.
Proof.
  intros Hp Hm. destruct (list_opts_ok page Hp Hm) as [_ Ho]. unfold new_page, slice. rewrite Ho. unfold JOBS_PER_PAGE in *.
  replace (Z.to_nat ((page - 1) * 50)) with (50 * (Z.to_nat page - 1))%nat by lia. cbn [opt_count list_opts].
  f_equal.
  - by rewrite take_take.
  - lia.
  - apply bool_decide_ext. rewrite length_take, length_drop. change (Z.to_nat (JOBS_PER_PAGE + 1)) with 51%nat. lia.
Qed.

Lemma pages_concat {A} (l : list A) n : concat ((fun i => take 50 (drop (50 * i) l)) <$> seq 0 n) = take (50 * n) l.
Proof.
  induction n as [|n IH]; [done|]. rewrite seq_S, fmap_app, concat_app, IH. cbn [fmap list_fmap concat].
  rewrite app_nil_r. replace (50 * S n)%nat with (50 * n + 50)%nat by lia. rewrite Nat.add_0_l.
  by rewrite take_take_drop.
Qed.

End Facts.
