(* ===== verification/WebQueues.v ===== *)
(** * The queue pages of the dashboard ([oxana-web/src/handlers.rs],
    [templates.rs])

    Overviews with the configuration of every queue, the sortable table of
    queues, one queue's page and its buttons. Rates and latencies are exact
    rationals, so comparing them never fails. *)
From Stdlib Require Import QArith.
From S2P Require Import Prelude Errors Redis Envelope Codec Queue Keys Scripts Storage Transitions Enqueue Client Metrics Stats StatsStorage Recovery Registry Coordinator Sorting Api WebConfig WebTree WebJobs.
Open Scope Z_scope.

Definition DEFAULT_QUEUE_SORT : string := "enqueued".
Definition DEFAULT_QUEUE_SORT_DIRECTION : string := "desc".

Record QueuesParams := { qp_sort : option string; qp_dir : option string; qp_minutes : option Z }.

Record DashboardTemplate := {
  da_base_path : string; da_active_tab : string; da_stats : StatsReport; da_queue_configs : gmap string QueueRuntimeConfigView;
}.
Record BusyTemplate := {
  bu_base_path : string; bu_active_tab : string; bu_stats : StatsReport; bu_queue_configs : gmap string QueueRuntimeConfigView;
}.
Record QueuesTemplate := {
  qt_base_path : string; qt_active_tab : string; qt_stats : StatsReport; qt_queue_configs : gmap string QueueRuntimeConfigView;
  qt_queue_lengths : QueueLengthMetricsSnapshot; qt_sort : string; qt_dir : string;
}.
Record QueueDetailTemplate := {
  qd_base_path : string; qd_active_tab : string; qd_queue_key : string; qd_queue_stats : option QueueStats;
  qd_queue_config : QueueRuntimeConfigView; qd_active_jobs : list StatsProcessing; qd_busy : nat; qd_page : JobPage;
}.
Inductive QueueDetailResponse := QueueDetailPage (t : QueueDetailTemplate) | QueueDetailRedirect (r : Redirect).

(** ** Counts of running jobs *)

Definition busy_for (s : StatsReport) (key : string) : nat :=
  length (filter (fun p => queue (sp_job_envelope p) = key) (st_processing s)).
Definition busy_for_process (s : StatsReport) (p : Process) : nat :=
  length (filter (fun q => sp_process_id q = process_id p) (st_processing s)).

(** ** The table's order *)

Definition compare_eta (a b : option Q) (desc : bool) : comparison :=
  let cmp := match a, b with
             | Some a, Some b => Qcompare a b
             | Some _, None => Lt
             | None, Some _ => Gt
             | None, None => Eq
             end in
  if desc then cmp_reverse cmp else cmp.

Definition queue_state_order (configs : gmap string QueueRuntimeConfigView) (key : string) : nat :=
  match (fun v => rt_state (view_config v)) <$> configs !! key with Some Paused => 1%nat | _ => 0%nat end.

Definition concurrency_order (configs : gmap string QueueRuntimeConfigView) (key : string) : nat :=
  default 0%nat (configs !! key ≫= fun v => rt_concurrency (view_config v)).

Definition compare_column (configs : gmap string QueueRuntimeConfigView) (sort : string) (a b : QueueStats) : comparison :=
  if decide (sort = "enqueued"%string) then Z.compare (qst_enqueued a) (qst_enqueued b)
  else if decide (sort = "processed"%string) then Z.compare (rs_processed (qst_counts a)) (rs_processed (qst_counts b))
  else if decide (sort = "succeeded"%string) then Z.compare (rs_succeeded (qst_counts a)) (rs_succeeded (qst_counts b))
  else if decide (sort = "failed"%string) then Z.compare (rs_failed (qst_counts a)) (rs_failed (qst_counts b))
  else if decide (sort = "panicked"%string) then Z.compare (rs_panicked (qst_counts a)) (rs_panicked (qst_counts b))
  else if decide (sort = "rate"%string) then Qcompare (processed_per_minute (qst_rate a)) (processed_per_minute (qst_rate b))
  else if decide (sort = "concurrency"%string) then
    Nat.compare (concurrency_order configs (qst_key a)) (concurrency_order configs (qst_key b))
  else if decide (sort = "state"%string) then
    Nat.compare (queue_state_order configs (qst_key a)) (queue_state_order configs (qst_key b))
  else if decide (sort = "latency"%string) then Qcompare (qst_latency_s a) (qst_latency_s b)
  else String.compare (qst_key a) (qst_key b).

Definition compare_queues (configs : gmap string QueueRuntimeConfigView) (sort : string) (desc : bool) (a b : QueueStats)
    : comparison :=
  let cmp := if decide (sort = "eta"%string) then compare_eta (eta_s (qst_rate a)) (eta_s (qst_rate b)) desc
             else let cmp := compare_column configs sort a b in if desc then cmp_reverse cmp else cmp in
  cmp_then cmp (String.compare (qst_key a) (qst_key b)).

Definition sort_queues (queues : list QueueStats) (configs : gmap string QueueRuntimeConfigView) (sort : string)
    (desc : bool) : list QueueStats := sort_by (compare_queues configs sort desc) queues.

Definition sort_queues_for_params (queues : list QueueStats) (configs : gmap string QueueRuntimeConfigView)
    (params : QueuesParams) : list QueueStats * (string * string) :=
  let sort := default DEFAULT_QUEUE_SORT (qp_sort params) in
  let default_dir := match qp_sort params with None => DEFAULT_QUEUE_SORT_DIRECTION | Some _ => "asc"%string end in
  let dir := default default_dir (qp_dir params) in
  (sort_queues queues configs sort (bool_decide (dir = "desc"%string)), (sort, dir)).

(** Links of the table's headers. *)
Definition next_dir (t : QueuesTemplate) (col : string) : string :=
  if decide (qt_sort t = col) then (if decide (qt_dir t = "desc"%string) then "asc" else "desc") else "desc".
Definition sort_arrow (t : QueuesTemplate) (col : string) : string :=
  if decide (qt_sort t = col) then (if decide (qt_dir t = "asc"%string) then " ▲" else " ▼") else "".
Definition sort_href (t : QueuesTemplate) (col : string) : string :=
  qt_base_path t +:+ "/queues?sort=" +:+ col +:+ "&dir=" +:+ next_dir t col +:+ "&minutes="
  +:+ z_to_string (Z.of_nat (qls_minutes (qt_queue_lengths t))).

(** The data of the chart of queue lengths. *)
Definition queue_length_chart_data (t : QueuesTemplate) : Value :=
  let lengths := qt_queue_lengths t in
  let timestamps :=
    match qls_queues lengths with
    | [] => (fun idx => qls_starts_at lengths + Z.of_nat idx * 60) <$> seq 0 (qls_minutes lengths)
    | q :: _ => ql_timestamp <$> qs_series q
    end in
  VObject [("timestamps", VArray ((fun z => VNumber (NumInt z)) <$> timestamps));
           ("series", VArray ((fun q => VObject [("label", VStr (qs_queue q));
              ("data", VArray ((fun p => VNumber (NumInt (ql_enqueued p))) <$> qs_series q))]) <$> qls_queues lengths))]%string.

(** ** Statistics of one queue *)

Definition queue_stats_with_live_enqueued (q : QueueStats) (live_enqueued : Z) : QueueStats :=
  let r := qst_rate q in
  {| qst_key := qst_key q; qst_enqueued := live_enqueued; qst_counts := qst_counts q; qst_latency_s := qst_latency_s q;
     qst_rate := {| window_minutes := window_minutes r; processed_per_minute := processed_per_minute r;
                    succeeded_per_minute := succeeded_per_minute r; failed_per_minute := failed_per_minute r;
                    growth_per_minute := growth_per_minute r; effective_drain_per_minute := effective_drain_per_minute r;
                    eta_s := eta live_enqueued (effective_drain_per_minute r) |};
     qst_queues := qst_queues q |}.

Definition queue_detail_queue_stats (s : StatsReport) (queue_key : string) (live_enqueued : Z) : option QueueStats :=
  match List.find (fun q => bool_decide (qst_key q = queue_key)) (st_queues s) with
  | Some q => Some (queue_stats_with_live_enqueued q live_enqueued)
  | None =>
      '(prefix, suffix) ← split_once "#" queue_key;
      parent ← List.find (fun q => bool_decide (qst_key q = prefix)) (st_queues s);
      dynamic_queue ← List.find (fun q => bool_decide (dq_suffix q = suffix)) (qst_queues parent);
      Some (queue_stats_with_live_enqueued
        {| qst_key := queue_key; qst_enqueued := dq_enqueued dynamic_queue; qst_counts := dq_counts dynamic_queue;
           qst_latency_s := dq_latency_s dynamic_queue; qst_rate := dq_rate dynamic_queue; qst_queues := [] |} live_enqueued)
  end.

Section WebQueues.
Context `{Se : Serde} `{C : ConfigSerde} `{P : ProcessSerde} {Schedule : Type} `{W : WebLibraries Schedule}.
Variable state_ : OxanaWebState Schedule.
Local Abbreviation api := (web_storage state_).
Local Abbreviation st := (internal (web_storage state_)).
Local Abbreviation base_path := (web_base_path state_).
Local Abbreviation catalog := (web_catalog state_).
Open Scope prog_scope.

(** ** Configurations *)

Definition queue_config_keys (s : StatsReport) : list string :=
  (qi_key <$> cat_queues catalog)
  ++ concat ((fun q => qst_key q :: ((fun d => dynamic_key (qst_key q) (dq_suffix d)) <$> qst_queues q)) <$> st_queues s).

Definition queue_config_map (s : StatsReport) : rprog (gmap string QueueRuntimeConfigView) :=
  let keys := dedup (sort_by String.compare (queue_config_keys s)) in
  stored_configs <-? api_queue_configs api keys ;;
  lift (Ok (list_to_map ((fun key => (key, queue_runtime_config_view_from_map catalog stored_configs key)) <$> keys))).

Definition queue_runtime_config_for (queue_key : string) : rprog QueueRuntimeConfigView :=
  stored_configs <-? api_queue_configs api (queue_runtime_config_keys queue_key) ;;
  lift (Ok (queue_runtime_config_view_from_map catalog stored_configs queue_key)).

(** ** Overviews *)

Definition dashboard (c : Clock) : rprog DashboardTemplate :=
  s <-? api_dashboard_stats api c ;;
  configs <-? queue_config_map s ;;
  lift (Ok {| da_base_path := base_path; da_active_tab := ""; da_stats := s; da_queue_configs := configs |}).

Definition busy (c : Clock) : rprog BusyTemplate :=
  s <-? api_dashboard_stats api c ;;
  configs <-? queue_config_map s ;;
  lift (Ok {| bu_base_path := base_path; bu_active_tab := "/busy"; bu_stats := s; bu_queue_configs := configs |}).

Definition queues_list (params : QueuesParams) (c : Clock) : rprog QueuesTemplate :=
  s <-? api_stats api c ;;
  configs <-? queue_config_map s ;;
  lengths <-? api_queue_length_metrics api (default 0 (qp_minutes params)) c ;;
  let '(sorted, (sort, dir)) := sort_queues_for_params (st_queues s) configs params in
  lift (Ok {| qt_base_path := base_path; qt_active_tab := "/queues";
              qt_stats := {| st_global := st_global s; st_processing := st_processing s; st_processes := st_processes s;
                             st_queues := sorted |};
              qt_queue_configs := configs; qt_queue_lengths := lengths; qt_sort := sort; qt_dir := dir |}).

(** ** One queue *)

Definition is_dynamic_parent_queue (queue_key : string) : bool :=
  negb (has_char "#" queue_key)
  && existsb (fun q => bool_decide (qi_key q = queue_key) && qi_dynamic q) (cat_queues catalog).

Definition queue_detail (queue_key : string) (page : Z) (c : Clock) : rprog QueueDetailResponse :=
  if is_dynamic_parent_queue queue_key then lift (Ok (QueueDetailRedirect (redirect_to state_ "/queues")))
  else
    s <-? api_stats api c ;;
    config <-? queue_runtime_config_for queue_key ;;
    live_enqueued <-? api_enqueued_count api queue_key ;;
    let live := Z.of_nat live_enqueued in
    let page_number := clamp_number page live in
    let active_jobs := filter (fun p => queue (sp_job_envelope p) = queue_key) (st_processing s) in
    jobs <-? api_list_queue_jobs api queue_key (list_opts page_number) ;;
    lift (Ok (QueueDetailPage
      {| qd_base_path := base_path; qd_active_tab := "/queues"; qd_queue_key := queue_key;
         qd_queue_stats := queue_detail_queue_stats s queue_key live; qd_queue_config := config;
         qd_active_jobs := active_jobs; qd_busy := length active_jobs; qd_page := new_page page_number live jobs |})).

(** ** Buttons *)

Definition queue_redirect (queue_key : string) : Redirect := redirect_to state_ ("/queues/" +:+ url_encode queue_key).

Definition wipe_queue_handler (queue_key : string) : rprog Redirect :=
  _ <-? api_wipe_queue api queue_key ;; lift (Ok (queue_redirect queue_key)).

(** [set_queue_state]; [None] when building the queue's configuration panics. *)
Definition web_set_queue_state (queue_key : string) (s : QueueState) : option (rprog unit) :=
  (fun q => client_set_queue_state st q s) <$> raw_handle (raw_from_catalog catalog queue_key).
Definition set_state_handler (queue_key : string) (s : QueueState) : option (rprog Redirect) :=
  (fun p => _ <-? p ;; lift (Ok (queue_redirect queue_key))) <$> web_set_queue_state queue_key s.
Definition pause_queue_handler (queue_key : string) : option (rprog Redirect) := set_state_handler queue_key Paused.
Definition unpause_queue_handler (queue_key : string) : option (rprog Redirect) := set_state_handler queue_key Active.

Definition set_queue_concurrency_handler (queue_key : string) (form_concurrency : nat) : option (rprog Redirect) :=
  if decide (form_concurrency = 0%nat) then Some (lift (Err (ConfigError "Queue concurrency must be at least 1")))
  else (fun q => _ <-? set_queue_concurrency st q form_concurrency ;; lift (Ok (queue_redirect queue_key)))
         <$> raw_handle (raw_from_catalog catalog queue_key).
End WebQueues.

(** ** The table of queues *)

#[export] Instance total_cmp_eta desc : TotalCmp (fun a b => compare_eta a b desc).
Proof.
  assert (TotalCmp (fun a b => compare_eta a b false)) as H.
  { unfold compare_eta. split; [intros [x|] [y|]; try done; apply cmp_sym|].
    intros [x|] [y|] [z|]; try done. apply cmp_trans. }
  destruct desc; [|done]. exact (total_cmp_reverse _ H).
Qed.

Lemma total_cmp_column configs sort : TotalCmp (compare_column configs sort).
Proof.
  unfold compare_column. repeat (case_decide; [exact (total_cmp_on _ _ _)|]). exact (total_cmp_on _ _ _).
Qed.

#[export] Instance total_cmp_queues configs sort desc : TotalCmp (compare_queues configs sort desc).
Proof.
  unfold compare_queues. pose proof (total_cmp_column configs sort) as Hc.
  assert (TotalCmp (fun a b => String.compare (qst_key a) (qst_key b))) as Hk by exact (total_cmp_on _ _ _).
  case_decide.
  - exact (total_cmp_then _ _ (total_cmp_on (fun a b => compare_eta a b desc) (fun q => eta_s (qst_rate q)) _) Hk).
  - destruct desc; [exact (total_cmp_then _ _ (total_cmp_reverse _ Hc) Hk)|exact (total_cmp_then _ _ Hc Hk)].
Qed.

Lemma compare_queues_tie configs sort desc a b : compare_queues configs sort desc a b = Eq -> qst_key a = qst_key b.
Proof.
  unfold compare_queues, cmp_then. intros H. apply String.compare_eq_iff. by destruct (if decide _ then _ else _).
Qed.

(** Whatever column and direction are asked for, known or not, the table
    lists the same queues, in the order of that column; as no two queues share
    a key, the order does not depend on how the statistics were listed. *)
Theorem queue_table_sorted configs params qs qs' : NoDup (qst_key <$> qs) -> qs ≡ₚ qs' ->
  let sorted := (sort_queues_for_params qs configs params).1 in
  let '(sort, dir) := (sort_queues_for_params qs configs params).2 in
  sorted ≡ₚ qs /\
  StronglySorted (cmp_le (compare_queues configs sort (bool_decide (dir = "desc"%string)))) sorted /\
  (sort_queues_for_params qs' configs params).1 = sorted.
Proof.
  intros Hnd Hp. cbn. split_and!; [apply sort_by_perm|apply sort_by_sorted; apply _|].
  symmetry. apply sort_by_unique; [apply _| |done]. intros a b Ha Hb H%compare_queues_tie.
  apply list_elem_of_lookup in Ha as [i Ha]. apply list_elem_of_lookup in Hb as [j Hb].
  assert (i = j) as ->; [|by simplify_eq].
  eapply (NoDup_lookup (qst_key <$> qs)); [done|by rewrite list_lookup_fmap, Ha|]. rewrite list_lookup_fmap, Hb, H. done.
Qed.
