(* ===== verification/WebFacts.v ===== *)
(** * What the configuration pages show and their buttons do

    The pages of the dashboard against the workers: the same configuration is
    shown and applied, and a limit set with the form is the one both go by. *)
From S2P Require Import Prelude Errors Redis Envelope Codec Queue Keys Scripts Storage Transitions Enqueue Client Registry Coordinator Recovery Api WebConfig WebTree WebJobs WebQueues.
Open Scope nat_scope.

Section Facts.
Context {R : RedisServer} {L : LawfulRedis R} {Se : Serde} {C : ConfigSerde} {LC : LawfulConfigSerde C}.
Context {Schedule : Type} {W : WebLibraries Schedule}.
Variable state_ : OxanaWebState Schedule.
Local Abbreviation st := (internal (web_storage state_)).
Local Abbreviation keys := (skeys st).
Local Abbreviation catalog := (web_catalog state_).
Implicit Types (ks : keyspace) (configs : gmap string string).

(** ** Reading *)

Definition readable_config configs (key : string) : Prop := exists c, stored_config configs key = Ok c.

Lemma configs_of_found qs configs : Forall (readable_config configs) qs ->
  exists m, configs_of qs ((fun f => configs !! f) <$> qs) = Ok m /\
    forall q, q ∈ qs -> stored_config configs q = Ok (m !! q).
Proof.
  induction 1 as [|q qs [c Hc] _ (m & Hm & Hin)]; cbn [configs_of fmap list_fmap].
  { exists ∅. split; [done|]. by intros q []%elem_of_nil. }
  pose proof Hc as Hc'. unfold stored_config in Hc'. destruct (configs !! q) as [text|] eqn:Eq; cbn in Hc'.
  - destruct (parse_config text) as [c'|]; [|done]. cbn. rewrite Hm. cbn. eexists. split; [done|].
    simplify_eq. intros k Hk. destruct (decide (k = q)) as [->|Hne]; [by rewrite lookup_insert_eq|].
    rewrite lookup_insert_ne by done. apply Hin. set_solver.
  - rewrite Hm. eexists. split; [done|]. intros k Hk. destruct (decide (k ∈ qs)) as [?|Hn]; [by apply Hin|].
    assert (k = q) as -> by set_solver. rewrite Hc. simplify_eq. f_equal. symmetry.
    apply eq_None_not_Some. intros [x Hx]. apply Hn.
    assert (forall qs (cs : list (option string)) m, configs_of qs cs = Ok m -> forall k, is_Some (m !! k) -> k ∈ qs) as Hdom.
    { clear. induction qs as [|q qs IH]; intros [|c cs] m; cbn; try by (intros [= <-] k [? ?]).
      destruct c as [c|].
      - destruct (parse_config c) as [c'|]; [|done]. cbn. destruct (configs_of qs cs) as [m'|] eqn:E; [|done].
        cbn. intros [= <-] k. destruct (decide (k = q)) as [->|Hne]; [set_solver|].
        rewrite lookup_insert_ne by done. intros ?%(IH _ _ E). by right.
      - intros H k Hk. right. by eapply IH. }
    by eapply Hdom.
Qed.

Lemma queue_configs_run qs ks configs : hash_at ks (queue_configs keys) = Some configs ->
  Forall (readable_config configs) qs ->
  exists m, run_doc (queue_configs_of st qs) ks = (Ok m, ks) /\ forall q, q ∈ qs -> stored_config configs q = Ok (m !! q).
Proof.
  intros Hh Hqs. destruct (configs_of_found qs configs Hqs) as (m & Hm & Hin). unfold queue_configs_of.
  destruct qs as [|q qs]; [exists ∅; split; [done|]; by intros q []%elem_of_nil|].
  exists m. split; [|done]. unfold connection. run_simp. by rewrite Hm.
Qed.

(** What is stored for a queue and its base. *)
Definition stored_pair configs (base key : string) (b k : option QueueRuntimeConfig) : Prop :=
  stored_config configs base = Ok b /\ stored_config configs key = Ok k.

Definition member base key : Prop := key = base \/ (exists suffix, key = base +:+ String "#" suffix).

(** The configuration a worker goes by, for what is stored. *)
Definition worker_goes_by (qc : QueueConcurrency) (base key : string) (b k : option QueueRuntimeConfig) : QueueRuntimeConfig :=
  let or_default c d := match c with Some c => with_defaults c d | None => d end in
  effective_runtime_config qc
    (if decide (key = base) then or_default k (stored_runtime_default qc)
     else or_default k (or_default b (stored_runtime_default qc))).

Lemma runtime_queue_config_run qc base key ks configs b k : hash_at ks (queue_configs keys) = Some configs ->
  stored_pair configs base key b k ->
  exists config, run_doc (runtime_queue_config st key base (stored_runtime_default qc)) ks = (Ok config, ks) /\
    effective_runtime_config qc config = worker_goes_by qc base key b k.
Proof.
  intros Hh [Hb Hk]. unfold runtime_queue_config, worker_goes_by. case_decide as E.
  - rewrite (queue_config_or_default_run _ _ _ _ configs), Hk by done. eexists. split; [done|]. done.
  - rewrite run_try, (queue_config_or_default_run _ _ _ _ configs), Hb by done. cbn [res_map].
    rewrite (queue_config_or_default_run _ _ _ _ configs), Hk by done. eexists. split; done.
Qed.

Lemma config_page_run q base key ks configs b k :
  has_char "#" base = false -> find_queue catalog base = Some (queue_info q) -> member base key ->
  hash_at ks (queue_configs keys) = Some configs -> stored_pair configs base key b k ->
  exists v, run_doc (queue_runtime_config_for state_ key) ks = (Ok v, ks) /\
    view_config v = worker_goes_by (concurrency q) base key b k /\
    concurrency_status v =
      match concurrency q with
      | FixedConcurrency _ => FixedStatus
      | DynamicConcurrency d =>
          let fallback := if decide (key = base) then d else default d (b ≫= rt_concurrency) in
          if decide (rt_concurrency (view_config v) = Some fallback) then DefaultStatus fallback else OverrideStatus fallback
      end.
Proof.
  intros Hbase Hf Hm Hh [Hb Hk].
  assert (base_queue_key key = base) as Hbk.
  { destruct Hm as [->|[suffix ->]]; [by apply base_queue_key_plain|by apply base_queue_key_sub]. }
  assert (base ∈ queue_runtime_config_keys key /\ key ∈ queue_runtime_config_keys key /\
    Forall (readable_config configs) (queue_runtime_config_keys key)) as (Hib & Hik & Hall).
  { unfold queue_runtime_config_keys. rewrite Hbk. case_decide as E.
    - subst. split_and!; [set_solver..|]. constructor; [by eexists|done].
    - split_and!; [set_solver..|]. constructor; [by eexists|]. constructor; [by eexists|done]. }
  destruct (queue_configs_run _ ks configs Hh Hall) as (m & Hrun & Hin).
  pose proof (Hin _ Hib) as Hb'. pose proof (Hin _ Hik) as Hk'. rewrite Hb in Hb'. rewrite Hk in Hk'.
  assert (b = m !! base) as -> by congruence. assert (k = m !! key) as -> by congruence.
  exists (queue_runtime_config_view_from_map catalog m key). unfold queue_runtime_config_for, api_queue_configs.
  rewrite run_try, Hrun. split; [done|].
  assert (view_config (queue_runtime_config_view_from_map catalog m key) = worker_goes_by (concurrency q) base key (m !! base) (m !! key)) as ->.
  { cbn. rewrite (view_is_worker_config catalog m q base key) by done. done. }
  split; [done|]. pose proof (status_spec catalog m q base key Hbase Hf Hm) as Hs. cbn.
  destruct (concurrency q) as [n|d] eqn:Ec; [done|]. destruct Hs as (fallback & Hfb & ->).
  assert (fallback = if decide (key = base) then d else default d (m !! base ≫= rt_concurrency)) as ->; [|done].
  unfold worker_config in Hfb. rewrite lookup_insert_eq in Hfb. case_decide as E; [cbn in Hfb; congruence|].
  rewrite lookup_insert_ne in Hfb by done. destruct (m !! base) as [[[x|] s]|]; cbn in *; congruence.
Qed.


(** ** Setting a limit *)

Lemma raw_handle_info q key : find_queue catalog (base_queue_key key) = Some (queue_info q) ->
  is_dynamic (concurrency q) = true ->
  exists h, raw_handle (raw_from_catalog catalog key) = Some h /\ q_key h = key /\
    concurrency (q_config h) = concurrency q /\
    (forall prefix i, kind (q_config h) = Dynamic prefix i -> prefix = base_queue_key key) /\
    (is_dynamic_kind (kind q) = true -> exists i, kind (q_config h) = Dynamic (base_queue_key key) i).
Proof.
  intros Hf Hd. unfold raw_handle, raw_from_catalog. rewrite Hf. cbn. unfold raw_config. cbn. rewrite Hd.
  destruct (concurrency q) as [n|n]; [done|]. cbn. eexists. split; [done|]. cbn.
  destruct (kind q); cbn; split_and!; try done; [by intros ? ? [=]|eauto].
Qed.

(** The limit that was set is in force afterwards, with the state of before. *)
Lemma limit_in_force n d0 base stored :
  worker_goes_by (DynamicConcurrency d0) base base (concurrency_stored n d0 stored) (concurrency_stored n d0 stored) =
  {| rt_concurrency := Some n;
     rt_state := rt_state (worker_goes_by (DynamicConcurrency d0) base base stored stored) |}.
Proof.
  unfold worker_goes_by, concurrency_stored. rewrite !decide_True by done.
  destruct (decide (n = d0)) as [->|Hne], stored as [[[m|] s]|]; cbn; repeat case_bool_decide; cbn;
    repeat case_decide; try done; congruence.
Qed.

(** A limit set with the form of a queue of dynamic concurrency is the one
    its page then shows and its workers go by; the state does not change, the
    page calls it an override exactly when it is not the queue's default, and
    no other queue's configuration is touched. *)
Theorem web_concurrency_takes_effect q base d0 n d configs stored :
  has_char "#" base = false -> find_queue catalog base = Some (queue_info q) ->
  concurrency q = DynamicConcurrency d0 -> 0 < n ->
  hash_at (view d) (queue_configs keys) = Some configs -> stored_config configs base = Ok stored ->
  exists p, set_queue_concurrency_handler state_ base n = Some p /\
    yields p d (Ok (queue_redirect state_ base)) (fun ks' =>
      exists configs' v, hash_at ks' (queue_configs keys) = Some configs' /\
        (forall k, k <> base -> stored_config configs' k = stored_config configs k) /\
        run_doc (queue_runtime_config_for state_ base) ks' = (Ok v, ks') /\
        view_config v = {| rt_concurrency := Some n;
                           rt_state := rt_state (worker_goes_by (concurrency q) base base stored stored) |} /\
        concurrency_status v = (if decide (n = d0) then DefaultStatus d0 else OverrideStatus d0)).
Proof.
  intros Hbase Hf Ec Hn Hh Hst. pose proof (base_queue_key_plain _ Hbase) as Hbb.
  destruct (raw_handle_info q base) as (h & Hraw & Hk & Hhc & Hpre & _); [by rewrite Hbb|by rewrite Ec|].
  unfold set_queue_concurrency_handler. rewrite decide_False by lia. rewrite Hraw. eexists. split; [done|].
  destruct (set_queue_concurrency_run st h n d0 stored (view d) configs stored) as (ks' & configs' & Hrun & _ & Hh' & Hs' & Ho);
    [by rewrite Hhc|done|by rewrite Hk|intros prefix i Hp; by rewrite (Hpre _ _ Hp), Hbb|].
  assert (reset_default (q_key h) (kind (q_config h)) d0 stored = d0) as Hdef.
  { unfold reset_default. destruct (kind (q_config h)) as [|prefix i] eqn:Ek; [done|].
    rewrite decide_True; [done|]. by rewrite Hk, (Hpre _ _ eq_refl), Hbb. }
  rewrite Hk, Hdef in *. apply yields_doc. exists ks'. rewrite run_try, Hrun. split; [done|].
  destruct (config_page_run q base base ks' configs' (concurrency_stored n d0 stored) (concurrency_stored n d0 stored))
    as (v & Hv & Hc & Hstat); [done..|by left|done|done|].
  exists configs', v. split_and!; [done|done|done| |].
  - by rewrite Hc, Ec, limit_in_force.
  - rewrite Hstat, Hc, Ec, limit_in_force, (decide_True (P := base = base)) by done. cbn.
    repeat case_decide; congruence.
Qed.

End Facts.
