(* ===== verification/WebMetrics.v ===== *)
(** * The metrics pages of the dashboard ([oxana-web/src/handlers.rs],
    [templates.rs])

    The sortable table of workers and the series of the charts, which are
    drawn from buckets of 1, 5 or 15 minutes. The chart data is JSON; floats
    are exact rationals, printed by the parameter [json_float]. *)
From Stdlib Require Import QArith.
From S2P Require Import Prelude Errors Redis Envelope Queue Keys Scripts Storage Enqueue Metrics Stats StatsStorage Recovery Registry Sorting Api WebConfig WebTree WebJobs.
Open Scope Z_scope.

Record MetricsParams := { mq_sort : option string; mq_dir : option string; mq_minutes : option Z }.
Record MetricDetailParams := { md_worker : string; md_minutes : option Z }.

Record MetricsTemplate := {
  mx_base_path : string; mx_active_tab : string; mx_metrics : JobMetricsSnapshot;
  mx_table_workers : list WorkerMetricsSummary; mx_sort : string; mx_dir : string;
}.
Record MetricDetailTemplate := { mdt_base_path : string; mdt_active_tab : string; mdt_metrics : JobMetricsDetail }.

(** ** The table *)

Definition valid_metric_sort (sort : string) : bool :=
  bool_decide (sort ∈ ["processed"; "succeeded"; "failed"; "total_time"; "avg_time"]%string).

Definition compare_metric (sort : string) (a b : WorkerMetricsSummary) : comparison :=
  let a := ws_totals a in let b := ws_totals b in
  if decide (sort = "processed"%string) then Z.compare (mt_processed a) (mt_processed b)
  else if decide (sort = "succeeded"%string) then Z.compare (mt_succeeded a) (mt_succeeded b)
  else if decide (sort = "failed"%string) then Z.compare (mt_failed a) (mt_failed b)
  else if decide (sort = "avg_time"%string) then Qcompare (average_execution_ms a) (average_execution_ms b)
  else Z.compare (mt_execution_ms a) (mt_execution_ms b).

Definition compare_workers (sort : string) (desc : bool) (a b : WorkerMetricsSummary) : comparison :=
  let cmp := compare_metric sort a b in
  cmp_then (if desc then cmp_reverse cmp else cmp) (String.compare (ws_worker a) (ws_worker b)).

Definition sorted_worker_metrics (workers : list WorkerMetricsSummary) (sort : string) (desc : bool)
    : list WorkerMetricsSummary := sort_by (compare_workers sort desc) workers.

(** The column and direction of a request. *)
Definition metrics_order (params : MetricsParams) : string * string :=
  let sort := match mq_sort params with
              | Some s => if valid_metric_sort s then s else ""%string
              | None => ""%string
              end in
  let dir := if negb (bool_decide (sort = ""%string)) && bool_decide (mq_dir params = Some "asc"%string)
             then "asc"%string else "desc"%string in
  (sort, dir).

Definition metrics_effective_sort (sort : string) : string := if decide (sort = ""%string) then "total_time" else sort.

(** *** Links of the table's headers *)

Definition metrics_has_sort (t : MetricsTemplate) : bool := negb (bool_decide (mx_sort t = ""%string)).
Definition metrics_next_dir (t : MetricsTemplate) (col : string) : string :=
  if decide (metrics_effective_sort (mx_sort t) = col) then (if decide (mx_dir t = "desc"%string) then "asc" else "desc")
  else "desc".
Definition metrics_sort_arrow (t : MetricsTemplate) (col : string) : string :=
  if decide (metrics_effective_sort (mx_sort t) = col) then (if decide (mx_dir t = "asc"%string) then " ▲" else " ▼") else "".
Definition metrics_sort_href (t : MetricsTemplate) (col : string) : string :=
  mx_base_path t +:+ "/metrics?sort=" +:+ col +:+ "&dir=" +:+ metrics_next_dir t col +:+ "&minutes="
  +:+ z_to_string (Z.of_nat (snap_minutes (mx_metrics t))).

(** [worker.rsplit("::").next()]: the last segment of the path. *)
Definition metric_identity_label (worker : string) : string := default worker (last (split_path worker)).

(** ** Charts *)

Definition metrics_chart_bucket_minutes (window_minutes : nat) : nat :=
  if decide (window_minutes <= 120)%nat then 1%nat else if decide (window_minutes <= 480)%nat then 5%nat else 15%nat.

(** The fold of [downsample_job_metrics_points]. *)
Definition sum_points (sum point : JobMetricsTotals) : JobMetricsTotals :=
  {| mt_processed := u64_sat_add (mt_processed sum) (mt_processed point);
     mt_succeeded := u64_sat_add (mt_succeeded sum) (mt_succeeded point);
     mt_failed := u64_sat_add (mt_failed sum) (mt_failed point);
     mt_panicked := u64_sat_add (mt_panicked sum) (mt_panicked point);
     mt_successful_executions := u64_sat_add (mt_successful_executions sum) (mt_successful_executions point);
     mt_failed_executions := u64_sat_add (mt_failed_executions sum) (mt_failed_executions point);
     mt_panicked_executions := u64_sat_add (mt_panicked_executions sum) (mt_panicked_executions point);
     mt_execution_ms := u64_sat_add (mt_execution_ms sum) (mt_execution_ms point) |}.

Definition downsample_chunk (chunk : list JobMetricsPoint) : JobMetricsPoint :=
  {| mp_timestamp := match chunk with point :: _ => mp_timestamp point | [] => 0 end;
     mp_counts := foldl (fun sum point => sum_points sum (mp_counts point)) empty_totals chunk |}.

Definition downsample_job_metrics_points (points : list JobMetricsPoint) (window_minutes : nat) : list JobMetricsPoint :=
  let bucket_minutes := metrics_chart_bucket_minutes window_minutes in
  if decide (bucket_minutes = 1%nat) then points else downsample_chunk <$> chunks bucket_minutes points.

Section Charts.
Variable json_float : Q -> Number.

Definition int_array (l : list Z) : Value := VArray ((fun z => VNumber (NumInt z)) <$> l).
Definition float_array (l : list Q) : Value := VArray ((fun q => VNumber (json_float q)) <$> l).

Definition summary_chart_data (m : JobMetricsSnapshot) (value : JobMetricsPoint -> Q) : Value :=
  let timestamps := mp_timestamp <$> downsample_job_metrics_points (snap_series m) (snap_minutes m) in
  let series := (fun w => VObject
      [("label", VStr (metric_identity_label (ws_worker w))); ("fullLabel", VStr (ws_worker w));
       ("data", float_array (value <$> downsample_job_metrics_points (ws_series w) (snap_minutes m)))]%string)
    <$> snap_workers m in
  VObject [("timestamps", int_array timestamps); ("series", VArray series)]%string.

Definition execution_chart_data (t : MetricsTemplate) : Value :=
  summary_chart_data (mx_metrics t) (fun p => inject_Z (mt_execution_ms (mp_counts p)) / 1000)%Q.
Definition processed_chart_data (t : MetricsTemplate) : Value :=
  summary_chart_data (mx_metrics t) (fun p => inject_Z (mt_processed (mp_counts p))).

Definition detail_points (t : MetricDetailTemplate) : list JobMetricsPoint :=
  downsample_job_metrics_points (det_series (mdt_metrics t)) (det_minutes (mdt_metrics t)).
Definition detail_average_chart_data (t : MetricDetailTemplate) : Value :=
  let points := detail_points t in
  VArray [int_array (mp_timestamp <$> points); float_array ((fun p => average_execution_ms (mp_counts p)) <$> points)].
Definition detail_total_chart_data (t : MetricDetailTemplate) : Value :=
  let points := detail_points t in
  VArray [int_array (mp_timestamp <$> points);
          int_array ((fun p => mt_successful_executions (mp_counts p)) <$> points);
          int_array ((fun p => failed_executions_without_panics (mp_counts p)) <$> points);
          int_array ((fun p => mt_panicked_executions (mp_counts p)) <$> points)].
End Charts.

(** [max_histogram_count]: the counts are unsigned. *)
Definition max_histogram_count (t : MetricDetailTemplate) : Z :=
  foldr Z.max 0 (hb_count <$> det_histogram (mdt_metrics t)).

(** ** Handlers *)

Section Handlers.
Context {Se : Serde} {Schedule : Type}.
Variable state_ : OxanaWebState Schedule.
Open Scope prog_scope.

Definition metrics (params : MetricsParams) (c : Clock) : rprog MetricsTemplate :=
  m <-? api_job_metrics (web_storage state_) (default 0 (mq_minutes params)) c ;;
  let '(sort, dir) := metrics_order params in
  lift (Ok {| mx_base_path := web_base_path state_; mx_active_tab := "/metrics"; mx_metrics := m;
              mx_table_workers := sorted_worker_metrics (snap_workers m) (metrics_effective_sort sort)
                                    (bool_decide (dir = "desc"%string));
              mx_sort := sort; mx_dir := dir |}).

Definition metric_detail (params : MetricDetailParams) (c : Clock) : rprog MetricDetailTemplate :=
  m <-? api_job_metrics_for (web_storage state_) (md_worker params) (default 0 (md_minutes params)) c ;;
  lift (Ok {| mdt_base_path := web_base_path state_; mdt_active_tab := "/metrics"; mdt_metrics := m |}).
End Handlers.

(** ** Facts *)

#[export] Instance total_cmp_workers sort desc : TotalCmp (compare_workers sort desc).
Proof.
  assert (TotalCmp (compare_metric sort)) as Hc.
  { unfold compare_metric. repeat (case_decide;
      [exact (total_cmp_on _ (fun a => _ (ws_totals a)) _)|]). exact (total_cmp_on _ (fun a => _ (ws_totals a)) _). }
  assert (TotalCmp (fun a b => String.compare (ws_worker a) (ws_worker b))) as Hk by exact (total_cmp_on _ _ _).
  unfold compare_workers. destruct desc; [exact (total_cmp_then _ _ (total_cmp_reverse _ Hc) Hk)|exact (total_cmp_then _ _ Hc Hk)].
Qed.

(** One of the eight counters of a chart's points, summed up. *)
Definition counters : list (JobMetricsTotals -> Z) :=
  [mt_processed; mt_succeeded; mt_failed; mt_panicked; mt_successful_executions; mt_failed_executions;
   mt_panicked_executions; mt_execution_ms].
Definition total_of (f : JobMetricsTotals -> Z) (points : list JobMetricsPoint) : Z :=
  foldr Z.add 0 ((fun p => f (mp_counts p)) <$> points).

Lemma sum_points_counter f a b : f ∈ counters -> f (sum_points a b) = u64_sat_add (f a) (f b).
Proof. unfold counters. rewrite !elem_of_cons. intros H. destruct_or? H; subst; try done. by apply elem_of_nil in H. Qed.
Lemma empty_totals_counter f : f ∈ counters -> f empty_totals = 0.
Proof. unfold counters. rewrite !elem_of_cons. intros H. destruct_or? H; subst; try done. by apply elem_of_nil in H. Qed.

Lemma total_of_app f l1 l2 : total_of f (l1 ++ l2) = total_of f l1 + total_of f l2.
Proof. unfold total_of. induction l1 as [|p l1 IH]; cbn in *; lia. Qed.
Lemma total_of_nonneg f l : Forall (fun p => 0 <= f (mp_counts p)) l -> 0 <= total_of f l.
Proof. unfold total_of. induction 1; cbn in *; lia. Qed.

Lemma downsample_chunk_total f chunk : f ∈ counters -> Forall (fun p => 0 <= f (mp_counts p)) chunk ->
  total_of f chunk <= u64_max -> f (mp_counts (downsample_chunk chunk)) = total_of f chunk.
Proof.
  intros Hf Hpos. cbn. assert (forall acc, 0 <= f acc -> f acc + total_of f chunk <= u64_max ->
    f (foldl (fun sum point => sum_points sum (mp_counts point)) acc chunk) = f acc + total_of f chunk) as H.
  { induction Hpos as [|p l Hp Hl IH]; intros acc Ha Hm; cbn [foldl]; [unfold total_of; cbn; lia|].
    pose proof (total_of_nonneg f l Hl) as Hn. change (total_of f (p :: l)) with (f (mp_counts p) + total_of f l) in *.
    assert (f (sum_points acc (mp_counts p)) = f acc + f (mp_counts p)) as E.
    { rewrite sum_points_counter by done. unfold u64_sat_add. lia. }
    rewrite IH; rewrite ?E; lia. }
  intros Hm. rewrite H; rewrite empty_totals_counter by done; lia.
Qed.

Lemma downsample_chunks_total f cs : f ∈ counters -> Forall (fun p => 0 <= f (mp_counts p)) (concat cs) ->
  total_of f (concat cs) <= u64_max -> total_of f (downsample_chunk <$> cs) = total_of f (concat cs).
Proof.
  intros Hf. induction cs as [|c cs IH]; cbn [concat fmap list_fmap]; [done|]. rewrite total_of_app.
  intros [Hc Hcs]%Forall_app Hm. pose proof (total_of_nonneg f c Hc). pose proof (total_of_nonneg f (concat cs) Hcs).
  change (total_of f (downsample_chunk c :: (downsample_chunk <$> cs))) with
    (f (mp_counts (downsample_chunk c)) + total_of f (downsample_chunk <$> cs)).
  rewrite IH, downsample_chunk_total by (done || lia). done.
Qed.

(** The charts lose nothing: whatever the window, each of the eight counters
    summed over the points that are drawn is the sum over the minutes of the
    series (as long as that sum fits a u64), and every drawn point carries the
    time of a minute of the series. *)
Theorem downsample_conserves points window f : f ∈ counters ->
  Forall (fun p => 0 <= f (mp_counts p)) points -> total_of f points <= u64_max ->
  total_of f (downsample_job_metrics_points points window) = total_of f points /\
  (mp_timestamp <$> downsample_job_metrics_points points window) ⊆ (mp_timestamp <$> points).
Proof.
  intros Hf Hpos Hm. unfold downsample_job_metrics_points. case_decide as Eb; [done|].
  assert (0 < metrics_chart_bucket_minutes window)%nat as Hb by (unfold metrics_chart_bucket_minutes; repeat case_decide; lia).
  pose proof (concat_chunks (metrics_chart_bucket_minutes window) points Hb) as Hc.
  split; [rewrite <- Hc at 2; rewrite <- Hc in Hpos, Hm; by apply downsample_chunks_total|].
  intros t [p [-> [c [-> Hin]]%list_elem_of_fmap]]%list_elem_of_fmap. rewrite <- Hc. apply list_elem_of_fmap.
  assert (c <> []) as Hne.
  { intros ->. revert Hin. unfold chunks. generalize (length points) as fuel. intros fuel. clear -Hb. revert points.
    induction fuel as [|fuel IH]; intros [|x l]; cbn; try by intros ?%elem_of_nil.
    rewrite elem_of_cons. intros [H|H]; [|by eapply IH]. destruct (metrics_chart_bucket_minutes window); [lia|done]. }
  destruct c as [|p c]; [done|]. exists p. split; [done|]. apply list_elem_of_In, in_concat. exists (p :: c).
  split; [by apply list_elem_of_In|by left].
Qed.
