(* ===== verification/WebFormat.v ===== *)
(** * How values are shown ([oxana-web/src/filters.rs])

    The filters of the dashboard's templates: relative times, durations, rates,
    grouped numbers, the arguments of a job and its progress. An f64 is the exact
    rational, printed as Rust prints it (rounded half to even); clocks are
    arguments. *)
From Stdlib Require Import QArith.
From S2P Require Import Prelude Errors Redis Envelope Queue Stats JobState.
Open Scope Z_scope.

Definition Qlt_bool (x y : Q) : bool := negb (Qle_bool y x).

(** ** Formatting of Rust's standard library *)

Definition round_half_even (n d : Z) : Z :=
  let q := n / d in
  match 2 * (n mod d) ?= d with
  | Lt => q
  | Gt => q + 1
  | Eq => if Z.even q then q else q + 1
  end.

(** [format!("{n:0w$}")] of a number that is not negative. *)
Fixpoint zeros (n : nat) : string := match n with O => "" | S n' => String "0" (zeros n') end.
Definition zero_pad (w : nat) (n : Z) : string :=
  let s := z_to_string n in zeros (w - String.length s) +:+ s.

(** [format!("{x:.d$}")]. *)
Definition fixed (d : nat) (x : Q) : string :=
  let scale := 10 ^ Z.of_nat d in
  let r := round_half_even (Z.abs (Qnum x) * scale) (Zpos (Qden x)) in
  (if Qnum x <? 0 then "-" else "") +:+ z_to_string (r / scale)
  +:+ (match d with O => "" | _ => "." +:+ zero_pad d (r mod scale) end).

(** [format!("{x:+.d$}")]. *)
Definition fixed_signed (d : nat) (x : Q) : string := (if Qnum x <? 0 then "" else "+") +:+ fixed d x.

(** ** Times *)

(** [i64::abs] wraps on [i64::MIN]. *)
Definition format_relative (diff_secs : Z) : string :=
  let abs := i64_wrap (Z.abs diff_secs) in
  if abs <? 15 then "now"
  else
    let '(prefix, suffix) := if 0 <? diff_secs then ("", " ago")%string else ("in ", "")%string in
    if abs <? 60 then prefix +:+ z_to_string abs +:+ "s" +:+ suffix
    else if abs <? 3600 then prefix +:+ z_to_string (abs / 60) +:+ "m" +:+ suffix
    else
      let h := abs / 3600 in
      let m := abs mod 3600 / 60 in
      if m =? 0 then prefix +:+ z_to_string h +:+ "h" +:+ suffix
      else prefix +:+ z_to_string h +:+ "h" +:+ z_to_string m +:+ "m" +:+ suffix.

Definition relative_time (now ts : Z) : string := format_relative (i64_wrap (now - ts)).
Definition relative_time_micros (now_micros ts : Z) : string :=
  format_relative (Z.quot (i64_wrap (now_micros - ts)) 1000000).
(** "—" in UTF-8. *)
Definition em_dash : string := String "226" (String "128" (String "148" "")).
Definition relative_time_micros_opt (now_micros : Z) (ts : option Z) : string :=
  match ts with Some ts => relative_time_micros now_micros ts | None => em_dash end.

Definition format_latency (secs : Q) : string :=
  if Qlt_bool 3600 secs then fixed 1 (secs / 3600) +:+ "h"
  else if Qlt_bool 600 secs then fixed 1 (secs / 60) +:+ "m"
  else fixed 1 secs +:+ "s".

Definition format_duration_from_ms (ms : Q) : string :=
  if Qle_bool 3600000 ms then fixed 1 (ms / 3600000) +:+ "h"
  else if Qle_bool 60000 ms then fixed 1 (ms / 60000) +:+ "m"
  else if Qle_bool 1000 ms then fixed 2 (ms / 1000) +:+ "s"
  else fixed 0 ms +:+ "ms".
Definition format_duration_ms (n : Z) : string := format_duration_from_ms (inject_Z n).

Definition format_duration_from_secs (secs : Q) : string :=
  if Qle_bool 3600 secs then fixed 1 (secs / 3600) +:+ "h"
  else if Qle_bool 60 secs then fixed 1 (secs / 60) +:+ "m"
  else fixed 1 secs +:+ "s".

Definition format_rate_per_minute (x : Q) : string := fixed 1 x +:+ "/min".
Definition format_signed_rate_per_minute (x : Q) : string := fixed_signed 1 x +:+ "/min".
Definition format_eta_s (o : option Q) : string := default em_dash (format_duration_from_secs <$> o).

(** ** Numbers *)

(** The loop of [format_with_commas]: the groups, the lowest first. A [u64] has
    at most seven. *)
Fixpoint groups (fuel : nat) (n : Z) : list Z :=
  match fuel with
  | O => []
  | S fuel => if 0 <? n then n mod 1000 :: groups fuel (n / 1000) else []
  end.

Definition format_with_commas (n : Z) : string :=
  if n =? 0 then "0"
  else
    match rev (groups 7 n) with
    | [] => ""
    | g :: gs => foldl (fun result g => result +:+ "," +:+ zero_pad 3 g) (z_to_string g) gs
    end.

Definition format_number_i64 (n : Z) : string :=
  (if n <? 0 then "-" else "") +:+ format_with_commas (Z.abs n).

(** ** Arguments *)

Definition has_args (v : Value) : bool :=
  negb (match v with VNull => true | VObject m => bool_decide (m = []) | _ => false end).

Record SimpleArgPill := { pill_key : string; pill_value : string }.

Definition empty_quotes : string := String "034" (String "034" "").

Definition simple_arg_value (v : Value) : option string :=
  match v with
  | VNull => Some "null"
  | VBool b => Some (if b then "true" else "false")
  | VNumber n => Some (number_to_string n)
  | VStr s => Some (if decide (s = "") then empty_quotes else s)
  | VArray _ | VObject _ => None
  end%string.

Definition simple_args_for (v : Value) : list SimpleArgPill :=
  match v with
  | VObject args => omap (fun '(k, v) => (fun s => {| pill_key := k; pill_value := s |}) <$> simple_arg_value v) args
  | _ => []
  end.

Definition should_show_args_json (v : Value) : bool :=
  match v with
  | VNull => false
  | VObject [] => false
  | VObject args => existsb (fun '(_, v) => bool_decide (simple_arg_value v = None)) args
  | VArray _ | VBool _ | VNumber _ | VStr _ => true
  end.

(** ** Progress *)

Definition progress_parts (v : Value) : option JobProgress := res_ok (progress_of_value v).

Record ProgressView := { pv_summary : string; pv_percent : string; pv_note : string; pv_eta : string }.

Definition progress_eta_s (p : JobProgress) (started_at_micros : option Z) (now_micros : Z) : option Q :=
  started ← started_at_micros;
  if (total p <=? 0) || (cursor p <=? 0) || (started <=? 0) then None
  else
    let remaining := Z.max (i64_sat_sub (total p) (cursor p)) 0 in
    if remaining =? 0 then Some 0%Q
    else
      let elapsed_s := (inject_Z (i64_wrap (now_micros - started)) / 1000000)%Q in
      if Qle_bool elapsed_s 0 then None
      else Some (elapsed_s * (inject_Z remaining / inject_Z (Z.max (cursor p) 0)))%Q.

Definition clamp (lo hi x : Q) : Q := if Qlt_bool x lo then lo else if Qlt_bool hi x then hi else x.

Definition percent_of (p : JobProgress) : Q :=
  clamp 0 100 (inject_Z (Z.max (cursor p) 0) / inject_Z (total p) * 100)%Q.

Definition progress_view (state : Value) (started_at_micros : option Z) (now_micros : Z) : option ProgressView :=
  p ← progress_parts state;
  if total p <=? 0 then None
  else
    let percent := fixed 0 (percent_of p) in
    Some {|
      pv_summary := format_with_commas (Z.max (cursor p) 0) +:+ " / " +:+ format_with_commas (total p)
                    +:+ " (" +:+ percent +:+ "%)";
      pv_percent := percent;
      pv_note := default "" (note p);
      pv_eta := default em_dash (format_duration_from_secs <$> progress_eta_s p started_at_micros now_micros);
    |}.

(** The crate's own tests. *)
Example progress_example :
  progress_view (VArray [VNumber (NumInt 1250); VNumber (NumInt 5000); VStr "Importing"]) (Some 1000000) 11000000
  = Some {| pv_summary := "1,250 / 5,000 (25%)"; pv_percent := "25"; pv_note := "Importing"; pv_eta := "30.0s" |}.
Proof. vm_compute. reflexivity. Qed.
Example complete_example :
  progress_view (VArray [VNumber (NumInt 15); VNumber (NumInt 10)]) (Some 1000000) 11000000
  = Some {| pv_summary := "15 / 10 (100%)"; pv_percent := "100"; pv_note := ""; pv_eta := "0.0s" |}.
Proof. vm_compute. reflexivity. Qed.

(** ** Grouped numbers

    The reference: a comma goes wherever a multiple of three characters follows. *)
Fixpoint insert_commas (s : string) : string :=
  match s with
  | EmptyString => ""
  | String a s' =>
      String a ((if (0 <? String.length s')%nat && (String.length s' mod 3 =? 0)%nat then "," else "") +:+ insert_commas s')
  end.

Lemma length_app_string s t : String.length (s +:+ t) = (String.length s + String.length t)%nat.
Proof. induction s as [|a s IH]; [done|]. rewrite string_app_cons. cbn. by rewrite IH. Qed.

Lemma insert_commas_app s t : String.length t = 3%nat -> s <> ""%string ->
  insert_commas (s +:+ t) = insert_commas s +:+ "," +:+ t.
Proof.
  intros Ht. induction s as [|a s IH]; [done|]. intros _. rewrite string_app_cons. cbn [insert_commas].
  rewrite length_app_string, Ht. destruct s as [|b s].
  - rewrite string_app_nil_l. cbn. destruct t as [|x [|y [|z [|]]]]; try discriminate Ht. done.
  - rewrite IH by done. rewrite !string_app_cons. f_equal. rewrite !string_app_assoc. f_equal.
    replace (String.length (String b s) + 3)%nat with (String.length (String b s) + 1 * 3)%nat by lia.
    rewrite Nat.Div0.mod_add. done.
Qed.

Lemma pretty_N_go_app x s : pretty_N_go x s = pretty_N_go x "" +:+ s.
Proof.
  revert s. induction (N.lt_wf_0 x) as [x _ IH]. intros s. destruct (decide (0 < x)%N) as [Hx|Hx].
  - rewrite !(pretty_N_go_step x) by done. assert (x `div` 10 < x)%N as Hlt by (apply N.div_lt; lia).
    rewrite IH, (IH _ Hlt (String _ "")) by done. by rewrite string_app_assoc, string_app_cons, string_app_nil_l.
  - replace x with 0%N by lia. rewrite !pretty_N_go_0. by rewrite string_app_nil_l.
Qed.

Definition three (g : N) : string :=
  String (pretty_N_char (g / 100)) (String (pretty_N_char ((g / 10) mod 10)) (String (pretty_N_char (g mod 10)) "")).

Lemma zero_pad_three g : (g < 1000)%N -> zero_pad 3 (Z.of_N g) = three g.
Proof.
  intros Hg. assert (forallb (fun i => String.eqb (zero_pad 3 (Z.of_nat i)) (three (N.of_nat i))) (seq 0 1000) = true) as H
    by (vm_compute; reflexivity).
  rewrite forallb_forall in H. specialize (H (N.to_nat g)). rewrite String.eqb_eq, N2Nat.id, N_nat_Z in H.
  apply H, in_seq. lia.
Qed.

Lemma z_to_string_N x : z_to_string (Z.of_N x) = pretty x.
Proof. by destruct x. Qed.

Lemma Z_as_N n : 0 <= n -> exists x, n = Z.of_N x.
Proof. intros Hn. exists (Z.to_N n). by rewrite Z2N.id. Qed.

Lemma z_to_string_thousand n : 1000 <= n -> z_to_string n = z_to_string (n / 1000) +:+ zero_pad 3 (n mod 1000).
Proof.
  intros Hn. destruct (Z_as_N n) as [x ->]; [lia|].
  replace (Z.of_N x / 1000) with (Z.of_N (x / 1000)) by (by rewrite N2Z.inj_div).
  replace (Z.of_N x mod 1000) with (Z.of_N (x mod 1000)) by (by rewrite N2Z.inj_mod).
  rewrite !z_to_string_N, zero_pad_three by (by apply N.mod_lt). unfold pretty, pretty_N.
  rewrite !decide_False by (zify; Z.to_euclidean_division_equations; lia).
  rewrite (pretty_N_go_step x) by lia. rewrite (pretty_N_go_step (x / 10)) by (zify; Z.to_euclidean_division_equations; lia).
  rewrite (pretty_N_go_step (x / 10 / 10)) by (zify; Z.to_euclidean_division_equations; lia).
  replace (x / 10 / 10 / 10)%N with (x / 1000)%N by (zify; Z.to_euclidean_division_equations; lia).
  rewrite pretty_N_go_app. f_equal. unfold three.
  replace ((x mod 1000) / 100)%N with ((x / 10 / 10) mod 10)%N by (zify; Z.to_euclidean_division_equations; lia).
  replace ((x mod 1000) / 10 mod 10)%N with ((x / 10) mod 10)%N by (zify; Z.to_euclidean_division_equations; lia).
  replace ((x mod 1000) mod 10)%N with (x mod 10)%N by (zify; Z.to_euclidean_division_equations; lia). done.
Qed.

Definition render (gs : list Z) : string :=
  match rev gs with
  | [] => ""
  | g :: gs => foldl (fun result g => result +:+ "," +:+ zero_pad 3 g) (z_to_string g) gs
  end.

Lemma render_cons g gs : gs <> [] -> render (g :: gs) = render gs +:+ "," +:+ zero_pad 3 g.
Proof.
  intros Hgs. unfold render. cbn [rev]. destruct (rev gs) as [|h t] eqn:E.
  - apply (f_equal (@rev Z)) in E. rewrite rev_involutive in E. done.
  - cbn [app]. by rewrite foldl_app.
Qed.

Lemma groups_render fuel n : 0 < n < 1000 ^ Z.of_nat fuel -> groups fuel n <> [] /\ render (groups fuel n) = insert_commas (z_to_string n).
Proof.
  revert n. induction fuel as [|fuel IH]; intros n Hn; [cbn in Hn; lia|].
  rewrite Nat2Z.inj_succ, Z.pow_succ_r in Hn by lia. cbn [groups]. rewrite (proj2 (Z.ltb_lt 0 n)) by lia. split; [done|].
  destruct (decide (n < 1000)) as [Hs|Hs].
  - rewrite Z.mod_small, Z.div_small by lia. replace (groups fuel 0) with (@nil Z) by by destruct fuel.
    cbn [render rev app foldl]. unfold render. cbn [rev app foldl].
    destruct (Z_as_N n) as [x ->]; [lia|]. rewrite z_to_string_N.
    assert (forallb (fun i => String.eqb (pretty (N.of_nat i)) (insert_commas (pretty (N.of_nat i)))) (seq 0 1000) = true) as H
      by (vm_compute; reflexivity).
    rewrite forallb_forall in H. specialize (H (N.to_nat x)). rewrite String.eqb_eq, N2Nat.id in H. apply H, in_seq. lia.
  - destruct (IH (n / 1000)) as [Hne IHn].
    { split; [apply Z.div_str_pos; lia|apply Z.div_lt_upper_bound; lia]. }
    rewrite render_cons, IHn, (z_to_string_thousand n) by first [done|lia]. symmetry. apply insert_commas_app.
    + destruct (Z_as_N (n mod 1000)) as [g Hg]; [by apply Z.mod_pos_bound|]. rewrite Hg, zero_pad_three; [done|].
      pose proof (Z.mod_pos_bound n 1000). lia.
    + intros E. apply (f_equal String.length) in E.
      pose proof (z_of_string_to_string (n / 1000)) as H. destruct (z_to_string (n / 1000)); done.
Qed.

(** Numbers are grouped as one reads them: every u64 is shown as its decimal
    digits with a comma exactly before each group of three from the right. *)
Theorem numbers_grouped n : 0 <= n <= u64_max -> format_with_commas n = insert_commas (z_to_string n).
Proof.
  intros Hn. unfold format_with_commas. destruct (Z.eqb_spec n 0) as [->|Hz]; [done|].
  apply (groups_render 7). unfold u64_max in Hn. cbn. lia.
Qed.

(** ** Progress *)

Lemma round_half_even_near n d : 0 <= n -> 0 < d ->
  Z.abs (2 * (round_half_even n d * d - n)) <= d /\ 0 <= round_half_even n d.
Proof.
  intros Hn Hd. unfold round_half_even. pose proof (Z.div_mod n d). pose proof (Z.mod_pos_bound n d).
  pose proof (Z.div_pos n d). destruct (Z.compare_spec (2 * (n mod d)) d); [destruct (Z.even _)| |]; nia.
Qed.

Lemma fixed_0 n (d : positive) : 0 <= n -> fixed 0 (n # d) = z_to_string (round_half_even n (Zpos d)).
Proof.
  intros Hn. unfold fixed. cbn [Qnum Qden Z.of_nat]. rewrite (proj2 (Z.ltb_ge n 0)) by done.
  rewrite Z.pow_0_r, Z.mul_1_r, Z.div_1_r, Z.abs_eq by done. by rewrite string_app_nil_l, string_app_nil_r.
Qed.

(** The percentage, as a fraction of two integers. *)
Lemma percent_of_fraction c (t : positive) : 0 <= c ->
  (inject_Z c / inject_Z (Zpos t) * 100 = (c * 100 # t))%Q.
Proof. intros Hc. unfold inject_Z, Qdiv, Qinv, Qmult. cbn. rewrite Z.mul_1_r. f_equal. lia. Qed.

(** The progress of a job is shown as a percentage of its total: a whole number
    between 0 and 100, which is 100 once the total is reached and otherwise
    differs from the exact percentage by at most a half; nothing is shown for
    a state that is no progress or has no total. *)
Theorem progress_percentage state_ started now :
  match progress_parts state_, progress_view state_ started now with
  | Some p, Some v => 0 < total p /\ exists k,
      pv_percent v = z_to_string k /\ 0 <= k <= 100 /\ (total p <= cursor p -> k = 100) /\
      (cursor p < total p -> Z.abs (2 * (k * total p - 100 * Z.max (cursor p) 0)) <= total p)
  | Some p, None => total p <= 0
  | None, r => r = None
  end.
Proof.
  unfold progress_view. destruct (progress_parts state_) as [[c t n]|]; cbn; [|done].
  destruct (Z.leb_spec t 0) as [Ht|Ht]; [done|]. cbn. split; [done|]. unfold percent_of. cbn [cursor total].
  destruct t as [|t|t]; try lia. rewrite percent_of_fraction by lia. set (m := Z.max c 0). assert (0 <= m) as Hm by lia.
  unfold clamp, Qlt_bool, Qle_bool. cbn [Qnum Qden]. rewrite (proj2 (Z.leb_le (0 * Zpos t) (m * 100 * 1))) by lia. cbn [negb].
  destruct (Z.leb_spec (m * 100 * 1) (100 * Zpos t)) as [Hle|Hlt]; cbn [negb].
  - exists (round_half_even (m * 100) (Zpos t)). rewrite fixed_0 by lia.
    pose proof (round_half_even_near (m * 100) (Zpos t)) as [Hr Hp]; [lia..|]. split; [done|].
    assert (Zpos t <= c -> round_half_even (m * 100) (Zpos t) = 100) as Hfull.
    { intros Hc. replace m with (Zpos t) in * by lia. nia. }
    split; [|split; [done|intros; lia]]. nia.
  - exists 100. split; [reflexivity|]. split; [lia|]. split; [done|]. intros. lia.
Qed.

(** ** Arguments *)

(** The page of a job shows all of its arguments: where it offers no JSON
    there are none, or every argument has its pill, in order and with its
    value. *)
Theorem arguments_shown v : should_show_args_json v = false ->
  v = VNull \/ exists args, v = VObject args /\
    Forall2 (fun pill '(k, a) => pill_key pill = k /\ simple_arg_value a = Some (pill_value pill)) (simple_args_for v) args.
Proof.
  destruct v as [| | | | |args]; try discriminate; [by left|]. intros H. right. exists args. split; [done|].
  assert (existsb (fun '(_, v) => bool_decide (simple_arg_value v = None)) args = false) as Hall by by destruct args.
  clear H. cbn [simple_args_for]. induction args as [|[k a] args IH]; [constructor|]. cbn in Hall.
  apply orb_false_iff in Hall as [Ha Hall]. apply bool_decide_eq_false in Ha.
  cbn [omap list_omap]. destruct (simple_arg_value a) as [s|] eqn:E; [|done]. cbn [fmap option_fmap option_map].
  constructor; [done|by apply IH].
Qed.
