(* ===== verification/WebRoutes.v ===== *)
(** * The routes of the dashboard ([oxana-web/src/lib.rs], [error.rs])

    A request is what axum's extractors hand to a handler; [handle] is the
    handler it is routed to. What is sent back is the page, the redirect, or a
    500 without a body when the storage fails. *)
From Stdlib Require Import QArith.
From S2P Require Import Prelude Errors Redis Events Envelope Codec Queue Keys Scripts Storage Enqueue Client Metrics Stats StatsStorage Recovery Registry Coordinator Runtime Api ReadOnly WebConfig WebTree WebJobs WebQueues WebMetrics.
Open Scope Z_scope.

Inductive Method := GET | POST.

(** What the extractors of each handler take from a request. *)
Inductive WebRequest :=
| Dashboard
| Busy
| Queues (params : QueuesParams)
| Metrics (params : MetricsParams)
| MetricDetail (params : MetricDetailParams)
| Cron (enqueued : option string)
| CronEnqueue (name : string)
| OnDemand (scheduled : option string)
| OnDemandEnqueue (form : OnDemandEnqueueJobForm)
| Scheduled (page : Z)
| DeadJobs (page : Z)
| ReviveAll
| WipeDead
| Retries (page : Z)
| RetryAllNow
| JobDetail (job_id : string)
| QueueDetail (queue_key : string) (page : Z)
| EnqueueJob (form : EnqueueJobForm)
| Pause (queue_key : string)
| Unpause (queue_key : string)
| SetConcurrency (queue_key : string) (concurrency : nat)
| WipeQueue (queue_key : string)
| DeleteJob (queue_key job_id : string) (params : DeleteJobParams).

(** [router]: the method and the path of each route. *)
Definition route (r : WebRequest) : Method * string :=
  match r with
  | Dashboard => (GET, "/")
  | Busy => (GET, "/busy")
  | Queues _ => (GET, "/queues")
  | Metrics _ => (GET, "/metrics")
  | MetricDetail _ => (GET, "/metrics/job")
  | Cron _ => (GET, "/cron")
  | CronEnqueue _ => (POST, "/cron/enqueue")
  | OnDemand _ => (GET, "/on-demand")
  | OnDemandEnqueue _ => (POST, "/on-demand/enqueue")
  | Scheduled _ => (GET, "/scheduled")
  | DeadJobs _ => (GET, "/dead")
  | ReviveAll => (POST, "/dead/revive_all")
  | WipeDead => (POST, "/dead/wipe")
  | Retries _ => (GET, "/retries")
  | RetryAllNow => (POST, "/retries/retry_all_now")
  | JobDetail _ => (GET, "/jobs/{*job_id}")
  | QueueDetail _ _ => (GET, "/queues/{queue_key}")
  | EnqueueJob _ => (POST, "/enqueue")
  | Pause _ => (POST, "/queues/{queue_key}/pause")
  | Unpause _ => (POST, "/queues/{queue_key}/unpause")
  | SetConcurrency _ _ => (POST, "/queues/{queue_key}/concurrency")
  | WipeQueue _ => (POST, "/queues/{queue_key}/wipe")
  | DeleteJob _ _ _ => (POST, "/queues/{queue_key}/jobs/{job_id}/delete")
  end%string.

Inductive WebResponse :=
| DashboardPage (t : DashboardTemplate)
| BusyPage (t : BusyTemplate)
| QueuesPage (t : QueuesTemplate)
| MetricsPage (t : MetricsTemplate)
| MetricDetailPage (t : MetricDetailTemplate)
| CronPage (t : CronTemplate)
| OnDemandPage (t : OnDemandTemplate)
| OnDemandResult (r : OnDemandResponse)
| JobsPage (t : GlobalJobsTemplate)
| JobPage_ (t : JobDetailTemplate)
| QueuePage (r : QueueDetailResponse)
| Redirected (r : Redirect)
(** [OxanaWebError::into_response]. *)
| InternalServerError.

(** [IntoResponse] of a handler's result: the error is not shown. *)
Definition respond {A} (page : A -> WebResponse) (p : rprog A) : prog WebResponse :=
  pbind p (fun r => Ret (match r with Ok a => page a | Err _ => InternalServerError end)).

(** The clock and the randomness a handler reads. *)
Record Surroundings := { s_clock : Clock; s_stamp : Stamp; s_started : Z; s_claim : string; s_fuel : nat }.

Section Routes.
Context `{Se : Serde} `{C : ConfigSerde} `{P : ProcessSerde} {Schedule : Type} `{W : WebLibraries Schedule}.
Variable state_ : OxanaWebState Schedule.

(** The handler of a request; [None] when building a queue's configuration
    panics. *)
Definition handle (r : WebRequest) (env : Surroundings) : option (prog WebResponse) :=
  let c := s_clock env in
  match r with
  | Dashboard => Some (respond DashboardPage (dashboard state_ c))
  | Busy => Some (respond BusyPage (busy state_ c))
  | Queues params => Some (respond QueuesPage (queues_list state_ params c))
  | Metrics params => Some (respond MetricsPage (metrics state_ params c))
  | MetricDetail params => Some (respond MetricDetailPage (metric_detail state_ params c))
  | Cron enqueued => Some (Ret (CronPage (cron_jobs state_ (c_micros c) enqueued)))
  | CronEnqueue name => Some (respond Redirected (enqueue_cron_job state_ (s_fuel env) name (s_stamp env)))
  | OnDemand scheduled => Some (Ret (OnDemandPage (on_demand_jobs state_ scheduled)))
  | OnDemandEnqueue form =>
      Some (respond OnDemandResult (enqueue_on_demand_job state_ (s_fuel env) form (s_uuid (s_stamp env)) (s_now (s_stamp env))
        (s_started env)))
  | Scheduled page => Some (respond JobsPage (scheduled_jobs state_ page))
  | DeadJobs page => Some (respond JobsPage (dead_jobs state_ page))
  | ReviveAll => Some (respond Redirected (revive_all_dead_handler state_ (s_fuel env) (s_claim env)))
  | WipeDead => Some (respond Redirected (wipe_dead_handler state_))
  | Retries page => Some (respond JobsPage (retry_jobs state_ page))
  | RetryAllNow => Some (respond Redirected (retry_all_now_handler state_))
  | JobDetail job_id => Some (respond JobPage_ (job_detail state_ job_id))
  | QueueDetail queue_key page => Some (respond QueuePage (queue_detail state_ queue_key page c))
  | EnqueueJob form => Some (respond Redirected (enqueue_job state_ (s_fuel env) form (s_stamp env)))
  | Pause queue_key => respond Redirected <$> pause_queue_handler state_ queue_key
  | Unpause queue_key => respond Redirected <$> unpause_queue_handler state_ queue_key
  | SetConcurrency queue_key n => respond Redirected <$> set_queue_concurrency_handler state_ queue_key n
  | WipeQueue queue_key => Some (respond Redirected (wipe_queue_handler state_ queue_key))
  | DeleteJob queue_key job_id params => Some (respond Redirected (delete_job_handler state_ queue_key job_id params))
  end.
End Routes.

(** ** Pages only read *)

Section Facts.
Context {R : RedisServer} {L : LawfulRedis R} {Se : Serde} {C : ConfigSerde} {P : ProcessSerde}.
Context {Schedule : Type} {W : WebLibraries Schedule}.
Variable state_ : OxanaWebState Schedule.

Lemma respond_read_only {A} (page : A -> WebResponse) (p : rprog A) : read_only p -> read_only (respond page p).
Proof. intros Hp. unfold respond. apply guarded_pbind; [done|]. intros r. done. Qed.

Lemma queue_config_map_read_only s : read_only (queue_config_map state_ s).
Proof. unfold queue_config_map, api_queue_configs. reads. Qed.
Lemma queue_runtime_config_for_read_only key : read_only (queue_runtime_config_for state_ key).
Proof. unfold queue_runtime_config_for, api_queue_configs. reads. Qed.
Lemma global_jobs_read_only page k : read_only (global_jobs state_ page k).
Proof.
  destruct (counts_read_only (internal (web_storage state_)) "") as (_ & ? & ? & ? & _).
  unfold global_jobs, api_scheduled_count, api_dead_count, api_retries_count, api_list_scheduled, api_list_dead,
    api_list_retries, list_retries, list_scheduled. destruct k; reads.
Qed.
#[local] Hint Resolve queue_config_map_read_only queue_runtime_config_for_read_only global_jobs_read_only : read_only.

Lemma find_job_read_only jid : read_only (find_job state_ jid).
Proof.
  destruct (counts_read_only (internal (web_storage state_)) "") as (_ & ? & _).
  unfold find_job, api_get_job, api_dead_count, api_list_dead. reads.
Qed.
#[local] Hint Resolve find_job_read_only : read_only.

Lemma queue_detail_read_only key page c : read_only (queue_detail state_ key page c).
Proof.
  destruct (counts_read_only (internal (web_storage state_)) key) as (? & _).
  unfold queue_detail, api_stats, stats_report, api_enqueued_count, api_list_queue_jobs. reads.
Qed.

(** C33. The pages of the dashboard are safe to fetch: no GET request, whatever its
    parameters, path and the state of the storage, changes anything in Redis;
    only the POST routes write. *)
Theorem get_requests_change_nothing r env p d :
  (route r).1 = GET -> handle state_ r env = Some p -> view (snd (run p d)) = view d.
Proof.
  intros Hm Hp. apply read_only_keeps. destruct r; try discriminate Hm; cbn [handle] in Hp; injection Hp as <-;
    try exact Logic.I; apply respond_read_only.
  - unfold dashboard, api_dashboard_stats, dashboard_stats. reads.
  - unfold busy, api_dashboard_stats, dashboard_stats. reads.
  - unfold queues_list, api_stats, stats_report, api_queue_length_metrics. reads.
  - unfold metrics, api_job_metrics. reads.
  - unfold metric_detail, api_job_metrics_for. reads.
  - unfold scheduled_jobs. reads.
  - unfold dead_jobs. reads.
  - unfold retry_jobs. reads.
  - unfold job_detail. reads.
  - apply queue_detail_read_only.
Qed.
End Facts.
