(* ===== verification/Mcp.v ===== *)
(** * The MCP server ([oxana-mcp/src/lib.rs], [server.rs])

    Read-only monitoring tools behind a bearer token. Transport, routing and
    the JSON of the library's own records (derived by serde) are parameters:
    [to_json]. The facts: the middleware lets through exactly the requests that
    carry the token; every tool only reads; no answer depends on the arguments
    or the resumable state of a job, and none on the storage's error. *)
From Stdlib Require Import QArith.
From S2P Require Import Prelude Errors Redis Events Envelope Codec Queue Keys Scripts Storage Transitions Promotion Queries Enqueue Client Metrics Stats StatsStorage Recovery Registry Runtime Api ReadOnly.
Open Scope Z_scope.

(** ** The token *)

(** [trim_end_matches], [trim_start_matches] with one character. *)
Fixpoint trim_start (c : ascii) (s : string) : string :=
  match s with String a s' => if decide (a = c) then trim_start c s' else s | EmptyString => "" end.
Fixpoint trim_end (c : ascii) (s : string) : string :=
  match s with
  | EmptyString => ""
  | String a s' =>
      let rest := trim_end c s' in
      if decide (rest = ""%string /\ a = c) then "" else String a rest
  end.

Definition in_range (lo hi a : ascii) : bool := (nat_of_ascii lo <=? nat_of_ascii a)%nat && (nat_of_ascii a <=? nat_of_ascii hi)%nat.
Definition token_byte (a : ascii) : bool :=
  in_range "0" "9" a || in_range "a" "z" a || in_range "A" "Z" a
  || bool_decide (a ∈ ["-"; "."; "_"; "~"; "+"; "/"]%char).

Fixpoint all_bytes (f : ascii -> bool) (s : string) : bool :=
  match s with EmptyString => true | String a s' => f a && all_bytes f s' end.

(** [router]: the token it will expect, or [InvalidBearerToken]. *)
Definition router_token (token : string) : option string :=
  let unpadded := trim_end "=" token in
  if bool_decide (unpadded = ""%string) || negb (all_bytes token_byte unpadded) then None else Some token.

(** [eq_ignore_ascii_case]. *)
Definition to_ascii_lowercase (a : ascii) : ascii :=
  if in_range "A" "Z" a then ascii_of_nat (nat_of_ascii a + 32) else a.
Fixpoint eq_ignore_ascii_case (s t : string) : bool :=
  match s, t with
  | EmptyString, EmptyString => true
  | String a s', String b t' => bool_decide (to_ascii_lowercase a = to_ascii_lowercase b) && eq_ignore_ascii_case s' t'
  | _, _ => false
  end.

Section Authenticate.
(** [ConstantTimeEq::ct_eq] on bytes; a header value as [to_str] reads it:
    [None] when it is not visible ASCII. *)
Variable ct_eq : string -> string -> bool.

(** [authenticate]: whether the request goes on; otherwise it is answered 401. *)
Definition authenticate (expected : string) (authorization : list (option string)) : bool :=
  let supplied :=
    value ← (match authorization with v :: _ => v | [] => None end);
    '(scheme, token) ← split_once " " value;
    if eq_ignore_ascii_case scheme "Bearer" then Some (trim_start " " token) else None in
  match authorization with _ :: _ :: _ => false | _ => true end
  && match supplied with Some token => ct_eq token expected | None => false end.
End Authenticate.

(** ** Requests and replies *)

Inductive JobList := Queue | Dead | Retries | Scheduled.
#[export] Instance job_list_eq_dec : EqDecision JobList.
Proof. solve_decision. Defined.

Record ListJobsRequest := { rq_list : JobList; rq_queue : option string; rq_limit : option Z; rq_offset : option Z }.

(** [rmcp]'s [ErrorData] and [CallToolResult] as the server builds them. *)
Inductive ErrorData := InvalidParams (message : string).
Inductive CallToolResult :=
| StructuredResult (v : Value)
| ToolError (text : string).

Definition options (r : ListJobsRequest) : result ErrorData QueueListOpts :=
  let count := default 20 (rq_limit r) in
  let offset := default 0 (rq_offset r) in
  if negb ((1 <=? count) && (count <=? 100)) || (u64_sat_sub i64_max count <? offset)
  then Err (InvalidParams "invalid limit or offset")
  else Ok {| opt_count := count; opt_offset := offset |}.

Inductive ToolCall :=
| GetOverview
| ListQueues
| ListProcesses
| GetJob (id : string)
| ListJobs (request : ListJobsRequest)
| GetJobMetrics (minutes : option Z)
| GetQueueMetrics (minutes : option Z).

Definition json_opt {A} (f : A -> Value) (o : option A) : Value := match o with Some a => f a | None => VNull end.
Definition json_int (z : Z) : Value := VNumber (NumInt z).

(** [job_summary]: the fields of a job that are shown. *)
Definition job_summary (e : JobEnvelope) : Value :=
  VObject [("id", VStr (id e)); ("worker", VStr (name (job e))); ("queue", VStr (queue e));
           ("retries", json_int (retries (meta e))); ("unique", VBool (unique (meta e)));
           ("created_at", json_int (created_at (meta e))); ("scheduled_at", json_int (scheduled_at (meta e)));
           ("started_at", json_opt json_int (started_at (meta e))); ("error", json_opt VStr (error (meta e)))]%string.

(** [serde_json::to_value] on the library's records; the derived
    implementations do not fail. *)
Class ToJson (A : Type) := to_json : A -> Value.

Section Server.
Context `{Se : Serde} `{P : ProcessSerde}.
Context `{JG : ToJson StatsGlobal} `{JQ : ToJson (list QueueStats)} `{JP : ToJson (list Process)}.
Context `{JM : ToJson JobMetricsSnapshot} `{JL : ToJson QueueLengthMetricsSnapshot}.
Variable storage : Api.Storage.
Open Scope prog_scope.

(** [respond]: a storage error is replaced by a fixed text. *)
Definition respond (observed_at : string) {A} (data : A -> Value) (p : rprog A) : rprog CallToolResult :=
  pbind p (fun r => Ret (Ok match r with
    | Ok a => StructuredResult (VObject [("namespace", VStr (api_namespace storage)); ("observed_at", VStr observed_at);
                                         ("data", data a)]%string)
    | Err _ => ToolError "Could not read Oxana storage"
    end)).

Definition overview_json (s : StatsReport) : Value :=
  VObject [("global", to_json (st_global s)); ("queues", to_json (st_queues s)); ("processes", to_json (st_processes s));
           ("processing", VArray ((fun p => VObject [("process_id", VStr (sp_process_id p));
                                                     ("job", job_summary (sp_job_envelope p))]) <$> st_processing s))]%string.

(** The tool that lists jobs: which list, and with what options. *)
Definition list_jobs_of (r : ListJobsRequest) : result ErrorData (QueueListOpts * rprog (list JobEnvelope)) :=
  res_bind (options r) (fun o =>
  match rq_list r, rq_queue r with
  | Queue, Some q =>
      if decide (q = ""%string) then Err (InvalidParams "queue is required")
      else Ok (o, api_list_queue_jobs storage q o)
  | Queue, None => Err (InvalidParams "queue is required")
  | _, Some _ => Err (InvalidParams "queue only applies to list=queue")
  | Dead, None => Ok (o, api_list_dead storage o)
  | Retries, None => Ok (o, api_list_retries storage o)
  | Scheduled, None => Ok (o, api_list_scheduled storage o)
  end).

Definition jobs_json (o : QueueListOpts) (js : list JobEnvelope) : Value :=
  VObject [("jobs", VArray (job_summary <$> js)); ("offset", json_int (opt_offset o)); ("limit", json_int (opt_count o))]%string.

(** A call: invalid parameters are refused before the storage is asked. *)
Definition call_tool (t : ToolCall) (observed_at : string) (c : Clock) : result ErrorData (rprog CallToolResult) :=
  match t with
  | GetOverview => Ok (respond observed_at overview_json (api_stats storage c))
  | ListQueues => Ok (respond observed_at to_json (api_stats_queues storage c))
  | ListProcesses => Ok (respond observed_at to_json (api_processes storage c))
  | GetJob jid => Ok (respond observed_at (json_opt job_summary) (api_get_job storage jid))
  | ListJobs r => res_map (fun '(o, p) => respond observed_at (jobs_json o) p) (list_jobs_of r)
  | GetJobMetrics minutes => Ok (respond observed_at to_json (api_job_metrics storage (default 0 minutes) c))
  | GetQueueMetrics minutes => Ok (respond observed_at to_json (api_queue_length_metrics storage (default 0 minutes) c))
  end.
End Server.

(** ** The token *)

Fixpoint spaces (n : nat) : string := match n with O => "" | Datatypes.S n => String " " (spaces n) end.

(** Documented behaviour of [ct_eq]: it compares. *)
Class ConstantTimeEq (ct_eq : string -> string -> bool) : Prop := ct_eq_spec : forall a b, ct_eq a b = true <-> a = b.

Lemma split_once_sound c s l r : split_once c s = Some (l, r) -> s = l +:+ String c r.
Proof.
  revert l r. induction s as [|a s IH]; intros l r; cbn [split_once]; [done|]. case_decide as Ha.
  - intros [= <- <-]. by subst.
  - destruct (split_once c s) as [[l' r']|]; [|done]. cbn. intros [= <- <-]. by rewrite string_app_cons, (IH l' r').
Qed.

Lemma trim_start_spaces s : exists n, s = spaces n +:+ trim_start " " s.
Proof.
  induction s as [|a s [n IH]]; [by exists O|]. cbn [trim_start]. case_decide as Ha.
  - exists (Datatypes.S n). cbn [spaces]. by rewrite string_app_cons, <- IH, Ha.
  - by exists O.
Qed.

Lemma trim_start_app n a s : a <> " "%char -> trim_start " " (spaces n +:+ String a s) = String a s.
Proof.
  intros Ha. induction n as [|n IH]; cbn [spaces]; rewrite ?string_app_cons, ?string_app_nil_l; cbn [trim_start].
  - by rewrite decide_False.
  - by rewrite decide_True.
Qed.

Lemma router_token_first token : is_Some (router_token token) -> exists a s, token = String a s /\ a <> " "%char.
Proof.
  unfold router_token. destruct token as [|a s]; cbn [trim_end]; [by intros [? ?]|]. case_decide as E.
  { by intros [? ?]. }
  intros [t Ht]. exists a, s. split; [done|]. intros ->. cbn [all_bytes] in Ht. by rewrite orb_true_r in Ht.
Qed.

Lemma bearer_no_space scheme : eq_ignore_ascii_case scheme "Bearer" = true -> has_char " " scheme = false.
Proof.
  assert (forall s t, eq_ignore_ascii_case s t = true -> all_bytes (fun b => negb (bool_decide (to_ascii_lowercase b = " "%char))) t = true ->
    has_char " " s = false) as H; [|intros Hs; by eapply H].
  clear scheme. induction s as [|a s IH]; intros [|b t]; try done. cbn.
  rewrite !andb_true_iff, bool_decide_eq_true, negb_true_iff, bool_decide_eq_false. intros [Hab Hs] [Hb Ht].
  apply orb_false_iff. split; [|by eapply IH]. apply bool_decide_eq_false. intros ->. by rewrite <- Hab in Hb.
Qed.

(** C35. The server answers a request only if it carries the token: it goes past
    the middleware exactly when it has one Authorization header and that is
    the scheme "Bearer", in any case, at least one space, and the configured
    token. *)
Theorem token_required ct_eq `{!ConstantTimeEq ct_eq} token expected authorization :
  router_token token = Some expected ->
  authenticate ct_eq expected authorization = true <->
  exists scheme n, eq_ignore_ascii_case scheme "Bearer" = true /\
    authorization = [Some (scheme +:+ String " " (spaces n +:+ token))].
Proof.
  intros Ht. assert (expected = token) as ->.
  { unfold router_token in Ht. by destruct (_ || _); simplify_eq. }
  destruct (router_token_first token) as (a & s & -> & Ha); [by eexists|]. unfold authenticate. split.
  - destruct authorization as [|v [|]]; [done| |done]. cbn [andb]. destruct v as [value|]; [|done]. cbn [mbind option_bind].
    destruct (split_once " " value) as [[scheme rest]|] eqn:E; [|done]. cbn [mbind option_bind].
    apply split_once_sound in E as ->. destruct (eq_ignore_ascii_case scheme "Bearer") eqn:Es; [|done].
    intros Hc%ct_eq_spec. destruct (trim_start_spaces rest) as [n Hn]. exists scheme, n. split; [done|]. by rewrite <- Hc, <- Hn.
  - intros (scheme & n & Hs & ->). cbn [andb mbind option_bind].
    rewrite split_once_app by (by apply bearer_no_space). cbn [mbind option_bind]. rewrite Hs, trim_start_app by done.
    by apply ct_eq_spec.
Qed.

(** ** The tools *)

Section Facts.
Context {R : RedisServer} {L : LawfulRedis R} {Se : Serde} {P : ProcessSerde}.
Context {JG : ToJson StatsGlobal} {JQ : ToJson (list QueueStats)} {JP : ToJson (list Process)}.
Context {JM : ToJson JobMetricsSnapshot} {JL : ToJson QueueLengthMetricsSnapshot}.
Variable storage : Api.Storage.
Local Abbreviation st := (internal storage).
Local Abbreviation keys := (skeys st).

Lemma answer_read_only observed_at {A} (data : A -> Value) (p : rprog A) :
  read_only p -> read_only (respond storage observed_at data p).
Proof. intros Hp. unfold respond. apply guarded_pbind; [done|]. intros r. done. Qed.

Lemma list_jobs_read_only r o p : list_jobs_of storage r = Ok (o, p) -> read_only p.
Proof.
  unfold list_jobs_of. destruct (options r) as [o'|]; [|done]. cbn [res_bind].
  destruct (rq_list r), (rq_queue r); try discriminate; repeat case_decide; try discriminate; intros [= <- <-];
    unfold api_list_queue_jobs, api_list_dead, api_list_retries, api_list_scheduled, list_retries, list_scheduled;
    auto with read_only.
Qed.

(** Every tool of the MCP server does what its annotation says, it only
    reads: whatever it is asked, whatever the storage holds and answers, Redis
    is left as it was. *)
Theorem mcp_tools_read_only t observed_at c p d :
  call_tool storage t observed_at c = Ok p -> view (snd (run p d)) = view d.
Proof.
  intros Hp. apply read_only_keeps. destruct t; cbn [call_tool] in Hp.
  6,7: injection Hp as <-; apply answer_read_only; unfold api_job_metrics, api_queue_length_metrics; auto with read_only.
  1-4: injection Hp as <-; apply answer_read_only; unfold api_stats, stats_report, api_stats_queues, api_processes, api_get_job;
    auto with read_only.
  destruct (list_jobs_of storage request) as [[o q]|] eqn:E; [|done]. injection Hp as <-.
  apply answer_read_only. by eapply list_jobs_read_only.
Qed.

(** ** What the tools hide *)

(** The same job, but for its arguments and its resumable state. *)
Definition alike (e e' : JobEnvelope) : Prop :=
  exists v s, e' = {| id := id e; job := {| name := name (job e); args := v |}; queue := queue e;
                      meta := set_state s (meta e) |}.

Lemma job_summary_alike e e' : alike e e' -> job_summary e' = job_summary e.
Proof. by intros (v & s & ->). Qed.

Definition same_answer {A B} (f : A -> B) (r r' : result OxanaError A) : Prop :=
  match r, r' with Ok a, Ok a' => f a' = f a | Err _, Err _ => True | _, _ => False end.

Definition alike_text (s s' : string) : Prop :=
  match from_str s, from_str s' with Ok e, Ok e' => alike e e' | Err _, Err _ => True | _, _ => False end.

(** Two storages that hold the same jobs in the same places, up to arguments
    and state. *)
Record indistinguishable {ks ks'} (js : job_store st ks) (js' : job_store st ks') : Prop := {
  alike_payloads : map_relation (fun _ => alike_text) (fun _ _ => False) (fun _ _ => False) (payloads js) (payloads js');
  alike_dead : Forall2 alike_text (dead_letters js) (dead_letters js');
  same_scheduled : scheduled js' = scheduled js;
  same_retrying : retrying js' = retrying js;
  same_queues : forall q, list_at ks' (namespace_queue keys q) = list_at ks (namespace_queue keys q);
}.

Lemma alike_lookup (h h' : gmap string string) jid :
  map_relation (fun _ => alike_text) (fun _ _ => False) (fun _ _ => False) h h' ->
  match h !! jid, h' !! jid with Some s, Some s' => alike_text s s' | None, None => True | _, _ => False end.
Proof. intros H. specialize (H jid). destruct (h !! jid), (h' !! jid); cbn in H; done. Qed.

Lemma collect_alike ids (h h' : gmap string string) :
  map_relation (fun _ => alike_text) (fun _ _ => False) (fun _ _ => False) h h' ->
  same_answer (fmap job_summary)
    (collect (parse_job <$> omap (fun text => text) ((fun f => h !! f) <$> ids)))
    (collect (parse_job <$> omap (fun text => text) ((fun f => h' !! f) <$> ids))).
Proof.
  intros Hh. induction ids as [|jid ids IH]; [done|]. cbn [fmap list_fmap omap list_omap].
  pose proof (alike_lookup h h' jid Hh) as Hj. destruct (h !! jid) as [s|], (h' !! jid) as [s'|]; try done.
  cbn [fmap list_fmap collect]. unfold parse_job at 1 3. unfold alike_text in Hj.
  destruct (from_str s) as [e|], (from_str s') as [e'|]; try done. cbn [map_err].
  revert IH. destruct (collect _) as [es|], (collect _) as [es'|]; cbn; try done. intros IH.
  by rewrite (job_summary_alike e e' Hj), IH.
Qed.

Lemma omap_alike l l' : Forall2 alike_text l l' ->
  job_summary <$> omap (fun s => res_ok (from_str s)) l' = job_summary <$> omap (fun s => res_ok (from_str s)) l.
Proof.
  induction 1 as [|s s' l l' Hs _ IH]; [done|]. cbn [omap list_omap]. unfold alike_text in Hs.
  destruct (from_str s) as [e|], (from_str s') as [e'|]; try done. cbn [res_ok fmap list_fmap].
  by rewrite (job_summary_alike e e' Hs), IH.
Qed.

Lemma Forall2_lrange start stop l l' : Forall2 alike_text l l' -> Forall2 alike_text (lrange start stop l) (lrange start stop l').
Proof.
  intros H. unfold lrange. rewrite (Forall2_length _ _ _ H). case_match; [done|]. by apply Forall2_take, Forall2_drop.
Qed.

Section Hidden.
Context {ks ks' : keyspace} (js : job_store st ks) (js' : job_store st ks') (Hi : indistinguishable js js').
Local Abbreviation answers p := (same_answer (fmap job_summary) (fst (run_doc p ks)) (fst (run_doc p ks'))).

Lemma jobs_listed_hidden ids : answers (jobs_listed st ids).
Proof.
  open_store js. open_store js'. unfold jobs_listed. destruct ids as [|i ids]; [done|]. unfold get_many. op_simp.
  exact (collect_alike (i :: ids) _ _ (alike_payloads _ _ Hi)).
Qed.

Lemma list_queue_jobs_hidden q o : answers (list_queue_jobs st q o).
Proof.
  unfold list_queue_jobs, connection. rewrite !run_try, !run_checkout, !run_try, !run_call. cbn [documented fst snd].
  unfold read_list. rewrite (same_queues _ _ Hi). destruct (list_at ks _) as [l|]; [|done]. cbn [fst snd map_err].
  apply jobs_listed_hidden.
Qed.

Lemma list_zset_hidden key o : zset_at ks' key = zset_at ks key -> answers (list_zset st key o).
Proof.
  intros Hz. unfold list_zset, connection. rewrite !run_try, !run_checkout, !run_try, !run_call. cbn [documented fst snd].
  unfold read_zset. rewrite Hz. destruct (zset_at ks _) as [z|]; [|done]. cbn [fst snd map_err]. apply jobs_listed_hidden.
Qed.

Lemma list_dead_hidden o : answers (list_dead st o).
Proof.
  open_store js. open_store js'. unfold list_dead. op_simp. cbn. apply omap_alike, Forall2_lrange, (alike_dead _ _ Hi).
Qed.

Lemma list_jobs_hidden r o p : list_jobs_of storage r = Ok (o, p) -> answers p.
Proof.
  open_store js. open_store js'. unfold list_jobs_of. destruct (options r) as [o'|]; [|done]. cbn [res_bind].
  destruct (rq_list r), (rq_queue r); try discriminate; repeat case_decide; try discriminate; intros [= <- <-].
  - apply list_queue_jobs_hidden.
  - apply list_dead_hidden.
  - apply list_zset_hidden. pose proof (same_retrying _ _ Hi). congruence.
  - apply list_zset_hidden. pose proof (same_scheduled _ _ Hi). congruence.
Qed.

Lemma get_job_hidden jid :
  same_answer (json_opt job_summary) (fst (run_doc (get_job st jid) ks)) (fst (run_doc (get_job st jid) ks')).
Proof.
  open_store js. open_store js'. unfold get_job, get_job_w_conn. op_simp.
  pose proof (alike_lookup _ _ jid (alike_payloads _ _ Hi)) as Hj.
  destruct (payloads js !! jid) as [s|], (payloads js' !! jid) as [s'|]; try done. cbn.
  unfold parse_job. unfold alike_text in Hj. destruct (from_str s), (from_str s'); try done. by apply job_summary_alike.
Qed.

Lemma respond_hidden observed_at {A} (data : A -> Value) (p : rprog A) :
  same_answer data (fst (run_doc p ks)) (fst (run_doc p ks')) ->
  fst (run_doc (respond storage observed_at data p) ks') = fst (run_doc (respond storage observed_at data p) ks).
Proof.
  unfold respond. rewrite !run_pbind. destruct (run_doc p ks) as [[a|e] ?], (run_doc p ks') as [[a'|e'] ?]; cbn; try done.
  by intros ->.
Qed.
End Hidden.

(** C34. [get_job] and [list_jobs] reveal neither the arguments nor the resumable
    state of any job: on two storages that hold the same jobs in the same
    places, with any arguments and states, they answer the same. *)
Theorem mcp_hides_arguments t observed_at c p d d' (js : job_store st (view d)) (js' : job_store st (view d')) :
  (exists jid, t = GetJob jid) \/ (exists r, t = ListJobs r) ->
  call_tool storage t observed_at c = Ok p -> indistinguishable js js' ->
  fst (run p d') = fst (run p d).
Proof.
  intros Ht Hp Hi. pose proof (f_equal fst (run_documented p d)) as H. pose proof (f_equal fst (run_documented p d')) as H'.
  cbn in H, H'. rewrite H, H'. clear H H'. destruct Ht as [[jid ->]|[r ->]]; cbn [call_tool] in Hp.
  - injection Hp as <-. apply respond_hidden. by eapply get_job_hidden.
  - destruct (list_jobs_of storage r) as [[o q]|] eqn:E; [|done]. injection Hp as <-. apply respond_hidden.
    pose proof (list_jobs_hidden js js' Hi r o q E) as Ha. unfold same_answer in *.
    destruct (fst (run_doc q (view d))), (fst (run_doc q (view d'))); try done. unfold jobs_json. by rewrite Ha.
Qed.
End Facts.
