(* ===== verification/Cron.v ===== *)
(** * Cron jobs ([cron_job_loop] and [unique_cron_action] of
    [storage_internal.rs])

    The occurrences of a schedule are a list of times (microseconds). Every
    round of a waiting loop consumes a [cron_tick]: the token was cancelled, or
    the clock reads [now] (and [now'] when it is read again after the lookup).
    The shared failure counter is threaded through. *)
From S2P Require Import Prelude Errors Redis Envelope Queue Keys Scripts Storage Enqueue Resilience.
Open Scope Z_scope.

Inductive UniqueCronAction := CronEnqueue | CronWait | CronSkip.

Definition unique_cron_action (existing_job previously_observed_existing_job : bool) (scheduled_at now : Z)
    : UniqueCronAction :=
  if (scheduled_at <=? now) && (existing_job || previously_observed_existing_job) then CronSkip
  else if existing_job then CronWait
  else CronEnqueue.

Inductive cron_tick := CronCancelled | CronTick (now now' : Z).

(** How a waiting loop ends: the token was cancelled, or it is left with the
    ticks that remain. *)
Inductive waited (A : Type) := Interrupted | Left (a : A) (rest : list cron_tick).
Arguments Interrupted {A}.
Arguments Left {A} a rest.

(** The time up to which occurrences are scheduled; chrono's additions are
    clamped at [max_time]. *)
Definition max_schedule_time (max_time lookahead now : Z) : Z := Z.min (now + lookahead) max_time.

(** The first loop: until the occurrence is near and the previous one is due. *)
Fixpoint wait_for_turn (max_time lookahead next : Z) (previous : option Z) (ticks : list cron_tick)
    : result OxanaError (waited Z) :=
  match ticks with
  | [] => Err StillRunning
  | CronCancelled :: _ => Ok Interrupted
  | CronTick now _ :: ticks' =>
      if max_schedule_time max_time lookahead now <? next then wait_for_turn max_time lookahead next previous ticks'
      else match previous with
           | Some previous' =>
               if now <? previous' then wait_for_turn max_time lookahead next previous ticks'
               else Ok (Left now ticks')
           | None => Ok (Left now ticks')
           end
  end.

Section CronLoop.
Context `{S : Serde}.
Variable st : StorageInternal.
Variables (tolerance max_time lookahead : Z) (fuel : nat).
Open Scope prog_scope.

(** The loop of a job that declares a unique ID: whether to enqueue. *)
Fixpoint unique_turn (jid : JobId) (scheduled_at : Z) (observed : bool) (ticks : list cron_tick) (failures : Z)
    : prog (result OxanaError (waited bool) * Z) :=
  match ticks with
  | [] => Ret (Err StillRunning, failures)
  | CronCancelled :: _ => Ret (Ok Interrupted, failures)
  | CronTick _ now :: ticks' =>
      r <- get_job st jid ;;
      match track_redis_result r tolerance failures with
      | (Err e, failures') => Ret (Err e, failures')
      | (Ok None, failures') => unique_turn jid scheduled_at observed ticks' failures'
      | (Ok (Some existing), failures') =>
          let existing_job := bool_decide (existing <> None) in
          match unique_cron_action existing_job observed scheduled_at now with
          | CronSkip => Ret (Ok (Left false ticks'), failures')
          | CronEnqueue => Ret (Ok (Left true ticks'), failures')
          | CronWait => unique_turn jid scheduled_at (observed || existing_job) ticks' failures'
          end
      end
  end.

(** The loop around [enqueue_at]. *)
Fixpoint enqueue_turn (e : JobEnvelope) (ticks : list cron_tick) (failures : Z)
    : prog (result OxanaError (waited unit) * Z) :=
  match ticks with
  | [] => Ret (Err StillRunning, failures)
  | CronCancelled :: _ => Ret (Ok Interrupted, failures)
  | CronTick now _ :: ticks' =>
      r <- enqueue_at st fuel e now ;;
      match track_redis_result r tolerance failures with
      | (Err error, failures') => Ret (Err error, failures')
      | (Ok None, failures') => enqueue_turn e ticks' failures'
      | (Ok (Some _), failures') => Ret (Ok (Left tt ticks'), failures')
      end
  end.

(** [cron_job_loop] over the occurrences after the start. *)
Fixpoint cron_job_loop (envelope_factory : Z -> result OxanaError (JobEnvelope * bool))
    (occurrences : list Z) (previous : option Z) (ticks : list cron_tick) (failures : Z)
    : prog (result OxanaError unit * Z) :=
  match occurrences with
  | [] => Ret (Ok tt, failures)
  | next :: occurrences' =>
      match wait_for_turn max_time lookahead next previous ticks with
      | Err e => Ret (Err e, failures)
      | Ok Interrupted => Ret (Ok tt, failures)
      | Ok (Left _ ticks) =>
          match envelope_factory next with
          | Err e => Ret (Err e, failures)
          | Ok (e, declared_unique) =>
              turn <- (if declared_unique : bool then unique_turn (id e) next false ticks failures
                       else Ret (Ok (Left true ticks), failures)) ;;
              match turn with
              | (Err error, failures) => Ret (Err error, failures)
              | (Ok Interrupted, failures) => Ret (Ok tt, failures)
              | (Ok (Left false ticks), failures) =>
                  cron_job_loop envelope_factory occurrences' (Some next) ticks failures
              | (Ok (Left true ticks), failures) =>
                  done_ <- enqueue_turn e ticks failures ;;
                  match done_ with
                  | (Err error, failures) => Ret (Err error, failures)
                  | (Ok Interrupted, failures) => Ret (Ok tt, failures)
                  | (Ok (Left _ ticks), failures) =>
                      cron_job_loop envelope_factory occurrences' (Some next) ticks failures
                  end
              end
          end
      end
  end.
End CronLoop.

(** ** Facts *)

(** An occurrence is handled only within the lookahead and only once the
    previous one is due: at most one occurrence of a job is ahead of the clock. *)
Theorem cron_turn_taken max_time lookahead next previous ticks now rest :
  wait_for_turn max_time lookahead next previous ticks = Ok (Left now rest) ->
  next <= now + lookahead /\ (forall p, previous = Some p -> p <= now) /\
  exists waited_ now', ticks = waited_ ++ CronTick now now' :: rest /\ Forall (fun t => t <> CronCancelled) waited_.
Proof.
  induction ticks as [|[|n n'] ticks IH]; cbn; [done|done|].
  destruct (max_schedule_time max_time lookahead n <? next) eqn:E1.
  { intros H. destruct (IH H) as (? & ? & w & now' & -> & ?). split_and!; [done..|].
    exists (CronTick n n' :: w), now'. split; [done|by constructor]. }
  apply Z.ltb_ge in E1. unfold max_schedule_time in E1.
  destruct previous as [p|].
  - destruct (n <? p) eqn:E2.
    { intros H. destruct (IH H) as (? & ? & w & now' & -> & ?). split_and!; [done..|].
      exists (CronTick n n' :: w), now'. split; [done|by constructor]. }
    apply Z.ltb_ge in E2. intros [= -> ->]. split_and!; [lia|by intros ? [= <-]|]. exists [], n'. by split.
  - intros [= -> ->]. split_and!; [lia|done|]. exists [], n'. by split.
Qed.

(** The answer of a program whose events meet the given keyspaces, one after
    another: between two events other clients may do anything. *)
Fixpoint run_over {A} (p : prog A) (kss : list keyspace) : option A :=
  match p, kss with
  | Ret a, _ => Some a
  | Op e k, ks :: kss' => run_over (k (fst (@run_event MemRedis _ e ks))) kss'
  | Op _ _, [] => None
  end.

Section UniqueCron.
Context `{S : Serde}.
Variables (st : StorageInternal) (tolerance : Z) (jid : JobId) (scheduled_at : Z).

(** A lookup of the job: whether a keyspace it met stores it, and the time at
    which the answer was judged. *)
Definition looked_up (ticks : list cron_tick) (kss : list keyspace) (l : bool * Z) : Prop :=
  (exists now, CronTick now l.2 ∈ ticks) /\
  exists ks h, ks ∈ kss /\ hash_at ks (jobs (skeys st)) = Some h /\ l.1 = bool_decide (is_Some (h !! jid)).

Lemma looked_up_weaken t ticks ks ks' kss l :
  looked_up ticks kss l -> looked_up (t :: ticks) (ks :: ks' :: kss) l.
Proof.
  intros [(now & Hn) (k & h & Hk & ?)]. split; [exists now; by right|]. exists k, h. split; [|done].
  by do 2 right.
Qed.

Lemma unique_turn_enqueues ticks : forall observed failures kss rest failures',
  run_over (unique_turn st tolerance jid scheduled_at observed ticks failures) kss
    = Some (Ok (Left true rest), failures') ->
  exists prefix now, Forall (fun l => l.1 = true /\ l.2 < scheduled_at) prefix /\
    (observed = true \/ prefix <> [] -> now < scheduled_at) /\
    Forall (looked_up ticks kss) (prefix ++ [(false, now)]).
Proof.
  induction ticks as [|[|t now] ticks IH]; intros observed failures kss rest failures' Hrun; [done|done|].
  cbn [unique_turn] in Hrun. unfold get_job, get_job_w_conn, connection, try, call, perform, lift in Hrun.
  cbn [pbind] in Hrun. destruct kss as [|ks1 kss]; [done|]. cbn [run_over run_event take_connection MemRedis fst pbind] in Hrun.
  destruct kss as [|ks2 kss]; [done|]. cbn [run_over run_event exec MemRedis documented] in Hrun. unfold read_hash in Hrun.
  assert (forall observed' f, run_over (unique_turn st tolerance jid scheduled_at observed' ticks f) kss
      = Some (Ok (Left true rest), failures') ->
    exists prefix now', Forall (fun l => l.1 = true /\ l.2 < scheduled_at) prefix /\
      (observed' = true \/ prefix <> [] -> now' < scheduled_at) /\
      Forall (looked_up (CronTick t now :: ticks) (ks1 :: ks2 :: kss)) (prefix ++ [(false, now')])) as Hrest.
  { intros observed' f H. destruct (IH _ _ _ _ _ H) as (prefix & now' & ? & ? & Hl). exists prefix, now'.
    split_and!; [done..|]. eapply Forall_impl; [exact Hl|]. intros l. apply looked_up_weaken. }
  destruct (hash_at ks2 (jobs (skeys st))) as [h|] eqn:Eh; cbn [fst map_err pbind] in Hrun.
  2: { cbn in Hrun. destruct (tolerance <=? u32_wrap (failures + 1)); [done|].
       destruct (Hrest _ _ Hrun) as (prefix & now' & ? & ? & ?). by exists prefix, now'. }
  assert (forall b, b = bool_decide (is_Some (h !! jid)) ->
    looked_up (CronTick t now :: ticks) (ks1 :: ks2 :: kss) (b, now)) as Hhere.
  { intros b ->. split; [exists t; by left|]. exists ks2, h. split; [|done]. right. by left. }
  destruct (h !! jid) as [text|] eqn:Et; cbn [fmap option_fmap option_map transpose] in Hrun.
  - destruct (parse_job text) as [e|error]; cbn in Hrun.
    + unfold unique_cron_action in Hrun. destruct (scheduled_at <=? now) eqn:Edue; [done|]. cbn in Hrun.
      destruct (Hrest _ _ Hrun) as (prefix & now' & Hp & Hn & Hl). apply Z.leb_gt in Edue.
      exists ((true, now) :: prefix), now'. split_and!.
      * by constructor.
      * intros _. apply Hn. left. by rewrite orb_true_r.
      * cbn [app]. constructor; [by apply Hhere|done].
    + destruct (tolerance <=? u32_wrap (failures + 1)); [done|].
      destruct (Hrest _ _ Hrun) as (prefix & now' & ? & ? & ?). by exists prefix, now'.
  - cbn in Hrun. unfold unique_cron_action in Hrun.
    cbn in Hrun. destruct ((scheduled_at <=? now) && observed) eqn:Edue; [done|].
    exists [], now. split_and!; [done| |repeat constructor; by apply Hhere].
    intros [->|[]]; [|done]. rewrite andb_true_r in Edue. by apply Z.leb_gt.
Qed.

End UniqueCron.
