(* ===== verification/Startup.v ===== *)
(** * The start of a runtime ([launcher.rs]: [run], [register],
    [coordinator_loop], [resurrect_loop], [cron_loop]; the loops of
    [storage_internal.rs])

    The background loops are programs over the ticks of their timers. A starting
    runtime is a transition system: the loops that run at once, the tasks that
    wait on the one registration they share, and whatever the released ones
    then spawn. [su_trace] is every event the process sent, with its answer. *)
From S2P Require Import Prelude Errors Redis Events Envelope Queue Keys Scripts Storage Enqueue Resilience Recovery Executor Registry Runtime Cron.
Open Scope Z_scope.

(** ** The loops *)

Section Loops.
Context `{S : Serde} `{P : ProcessSerde}.
Variable st : StorageInternal.
Variable tolerance : Z.
Local Abbreviation loop := (prog (result OxanaError unit * Z)).

(** Each tick carries what the clock reads. *)
Definition retry_loop (ticks : list Z) (failures : Z) : loop :=
  poll_redis tolerance (enqueue_scheduled st (retry (skeys st)) <$> ticks) failures.
Definition schedule_loop (ticks : list Z) (failures : Z) : loop :=
  poll_redis tolerance (enqueue_scheduled st (schedule (skeys st)) <$> ticks) failures.
Definition cleanup_loop (fuel : nat) (ticks : list Z) (failures : Z) : loop :=
  poll_redis tolerance (cleanup st fuel <$> ticks) failures.
Definition pings (ticks : list (Z * Z)) : list (rprog unit) := (fun t => ping st t.1 t.2) <$> ticks.
Definition ping_loop (ticks : list (Z * Z)) (failures : Z) : loop := poll_redis tolerance (pings ticks) failures.
Definition resurrect_loop (threshold : Z) (ticks : list Z) (failures : Z) : loop :=
  poll_redis tolerance (resurrect_dead st threshold <$> ticks) failures.

(** [cron_loop] spawns a loop for each schedule whose queue this runtime runs. *)
Context {Schedule : Type}.
Definition cron_loop (settings : RuntimeSettings) (r : @WorkerRegistry Schedule) : list (string * @CronJob Schedule) :=
  filter (fun p : string * @CronJob Schedule =>
            runs_static_queue (queue_allowlist settings) (queue_denylist settings) (cj_queue_key p.2) = true)
    (map_to_list (wr_schedules r)).

(** What a timer, the clock and chrono give the cron loop of a job. *)
Record cron_clock := { cc_max_time : Z; cc_occurrences : list Z; cc_ticks : list cron_tick; cc_now : Z; cc_fuel : nat }.

Definition cron_job (settings : RuntimeSettings) (r : @WorkerRegistry Schedule) (clock : cron_clock)
    (name : string) (failures : Z) : loop :=
  cron_job_loop st tolerance (cc_max_time clock) (cron_lookahead settings) (cc_fuel clock)
    (fun scheduled_at => default (Err (GenericError "panic")) (cron_envelope r name scheduled_at (cc_now clock)))
    (cc_occurrences clock) None (cc_ticks clock) failures.

(** ** The tasks of a starting runtime *)

Inductive observed :=
| Observed {X : Type} (e : event X) (r : result OxanaError X).

Record startup := {
  su_registered : option bool;                              (* Runtime::registered *)
  su_registering : option (prog (result OxanaError bool * Z));
  su_waiting : nat;                                         (* tasks that await [register] *)
  su_released : nat;                                        (* tasks it let go on *)
  su_programs : list loop;
  su_trace : list observed;
}.

(** [launcher::run] up to its select: a ping, retry, schedule and cleanup loop and the
    cron loops act; the resurrect loop and the coordinators wait. *)
Definition launch (settings : RuntimeSettings) (cfg : @Config Schedule) (fuel : nat) (ping_ticks : list (Z * Z))
    (retry_ticks schedule_ticks cleanup_ticks : list Z) (clock : string -> cron_clock) (failures : Z) : startup :=
  {| su_registered := None; su_registering := None; su_waiting := 1 + length (coordinated settings cfg); su_released := 0;
     su_programs := ping_loop ping_ticks failures :: retry_loop retry_ticks failures ::
       schedule_loop schedule_ticks failures :: cleanup_loop fuel cleanup_ticks failures ::
       ((fun p => cron_job settings (cfg_registry cfg) (clock p.1) p.1 failures) <$> cron_loop settings (cfg_registry cfg));
     su_trace := [] |}.

Definition su_saw (e : observed) (programs : list loop) (registering : option (prog (result OxanaError bool * Z)))
    (s : startup) : startup :=
  {| su_registered := su_registered s; su_registering := registering; su_waiting := su_waiting s;
     su_released := su_released s; su_programs := programs; su_trace := su_trace s ++ [e] |}.
Definition su_set (registered : option bool) (registering : option (prog (result OxanaError bool * Z)))
    (waiting released : nat) (programs : list loop) (s : startup) : startup :=
  {| su_registered := registered; su_registering := registering; su_waiting := waiting; su_released := released;
     su_programs := programs; su_trace := su_trace s |}.

(** A step of one task; the replies are those of some keyspace, or lost. *)
Inductive su_step (s : startup) : startup -> Prop :=
(** A program sends its next event, ends or is dropped. *)
| su_event ps1 ps2 X (e : event X) k r :
    su_programs s = ps1 ++ Op e k :: ps2 -> possible_reply (fun _ => True) e r ->
    su_step s (su_saw (Observed e r) (ps1 ++ k r :: ps2) (su_registering s) s)
| su_end ps1 p ps2 :
    su_programs s = ps1 ++ p :: ps2 ->
    su_step s (su_set (su_registered s) (su_registering s) (su_waiting s) (su_released s) (ps1 ++ ps2) s)
(** [register]: [get_or_try_init] lets one task at a time ping. *)
| su_begin n ticks failures :
    su_registered s = None -> su_registering s = None -> su_waiting s = Datatypes.S n ->
    su_step s (su_set None (Some (register tolerance (pings ticks) failures)) n (su_released s) (su_programs s) s)
| su_ping X (e : event X) k r :
    su_registering s = Some (Op e k) -> possible_reply (fun _ => True) e r ->
    su_step s (su_saw (Observed e r) (su_programs s) (Some (k r)) s)
| su_done b failures :
    su_registering s = Some (Ret (Ok b, failures)) ->
    su_step s (su_set (Some b) None (su_waiting s) (if b : bool then Datatypes.S (su_released s) else su_released s) (su_programs s) s)
| su_failed error failures :
    su_registering s = Some (Ret (Err error, failures)) ->
    su_step s (su_set (su_registered s) None (su_waiting s) (su_released s) (su_programs s) s)
(** The cell holds an answer: a task that waits goes on, or ends. *)
| su_cached n b :
    su_registered s = Some b -> su_waiting s = Datatypes.S n ->
    su_step s (su_set (su_registered s) (su_registering s) n (if b : bool then Datatypes.S (su_released s) else su_released s) (su_programs s) s)
(** A coordinator or the resurrect loop, past its registration, spawns whatever it runs. *)
| su_spawn n p :
    su_released s = Datatypes.S n ->
    su_step s (su_set (su_registered s) (su_registering s) (su_waiting s) (su_released s) (p :: su_programs s) s).

(** ** What acts on processing lists *)

(** A claim moves a job to a processing list; a sweep starts with the scan for
    processing lists. *)
Definition claims_or_sweeps {X} (e : event X) : Prop :=
  match e with
  | Cmd (LMOVE _ _) | Cmd (SCAN _) => True
  | _ => False
  end.

Definition claimed_or_swept (o : observed) : Prop := match o with Observed e _ => claims_or_sweeps e end.

(** An acknowledged heartbeat of this process. *)
Definition heartbeat (o : observed) : Prop :=
  exists now_ms, o = Observed (Cmd (ZADD (processes (skeys st)) now_ms (own_process_id st))) (Ok tt).

Definition quiet {X} (e : event X) : Prop := ~ claims_or_sweeps e.
Definition quiet_prog {A} (p : prog A) : Prop := guarded (fun _ => True) (@quiet) p.
End Loops.

(** ** Facts *)

Create HintDb quiet.
Ltac quiet_side := idtac; first [by intros [] | repeat (apply Forall_cons_2; [by intros []|]); by apply Forall_nil_2 | apply Forall_fmap, Forall_true; by intros ? []].
Ltac known_quiet := idtac; match goal with |- guarded _ _ ?p => change (quiet_prog p); solve [eauto with quiet] end.
Ltac quiets := unfold quiet_prog; walk quiet_side known_quiet.

Section Facts.
Context `{S : Serde} `{P : ProcessSerde}.
Implicit Types (st : StorageInternal).

Lemma quiet_connection : quiet_prog connection.
Proof. unfold connection. quiets. Qed.
#[local] Hint Resolve quiet_connection : quiet.

Lemma quiet_snapshot st jid : quiet_prog (transition_snapshot st jid).
Proof. unfold transition_snapshot, get_job_w_conn. quiets. Qed.
#[local] Hint Resolve quiet_snapshot : quiet.

Lemma quiet_promote st sq due n : quiet_prog (promote_scheduled_jobs st sq due n).
Proof. revert n. induction due as [|[jid at_] due IH]; intros n; cbn [promote_scheduled_jobs]; quiets. Qed.
#[local] Hint Resolve quiet_promote : quiet.
Lemma quiet_enqueue_scheduled st sq now : quiet_prog (enqueue_scheduled st sq now).
Proof. unfold enqueue_scheduled. quiets. Qed.

Lemma quiet_scan_cleanable st fuel cursor now acc : quiet_prog (scan_cleanable st fuel cursor now acc).
Proof. revert cursor acc. induction fuel as [|fuel IH]; intros cursor acc; cbn [scan_cleanable]; quiets. Qed.
#[local] Hint Resolve quiet_scan_cleanable : quiet.
Lemma quiet_cleanup st fuel now : quiet_prog (cleanup st fuel now).
Proof. unfold cleanup. quiets. Qed.
Lemma quiet_ping st now_ms now : quiet_prog (ping st now_ms now).
Proof. unfold ping. quiets. Qed.
#[local] Hint Resolve quiet_enqueue_scheduled quiet_cleanup quiet_ping : quiet.

Lemma quiet_poll {T} tolerance (ticks : list (rprog T)) failures : Forall quiet_prog ticks -> quiet_prog (poll_redis tolerance ticks failures).
Proof. intros H. revert failures. induction H; intros failures; cbn [poll_redis]; quiets. Qed.
Lemma quiet_pings st ticks : Forall quiet_prog (pings st ticks).
Proof. apply Forall_fmap, Forall_true. intros t. apply quiet_ping. Qed.
Lemma quiet_register st tolerance ticks failures : quiet_prog (register tolerance (pings st ticks) failures).
Proof.
  generalize (quiet_pings st ticks). generalize (pings st ticks) as ps. intros ps Hps. revert failures.
  induction Hps; intros failures; cbn [register]; quiets.
Qed.

Lemma quiet_enqueue_loop st fuel dest pending snaps written : quiet_prog (enqueue_loop st fuel dest pending snaps written).
Proof. revert snaps. induction fuel as [|fuel IH]; intros snaps; cbn [enqueue_loop]; quiets. Qed.
#[local] Hint Resolve quiet_enqueue_loop : quiet.
Lemma quiet_read_snapshots st ids : quiet_prog (read_snapshots st ids).
Proof. unfold read_snapshots. quiets. Qed.
Lemma quiet_ordinary st dest es cmds : collect (ordinary_commands st dest <$> es) = Ok cmds ->
  Forall (fun c => quiet (Cmd c)) (concat cmds).
Proof.
  revert cmds. induction es as [|e es IH]; intros cmds; cbn; [by intros [= <-]|]. unfold ordinary_commands at 1.
  destruct (print_job e) as [text|]; cbn; [|done]. destruct (collect _) as [cs|] eqn:E; cbn; [|done]. intros [= <-]. cbn.
  constructor; [by intros []|]. constructor; [destruct dest; by intros []|by apply IH].
Qed.
Lemma quiet_enqueue_ordinary st dest es : quiet_prog (enqueue_ordinary st dest es).
Proof. apply guarded_lift_try. intros cmds Hc. by eapply guarded_pipe, quiet_ordinary. Qed.
#[local] Hint Resolve quiet_read_snapshots quiet_enqueue_ordinary : quiet.
Lemma quiet_enqueue_chunk st fuel dest es written : quiet_prog (enqueue_chunk st fuel dest es written).
Proof. unfold enqueue_chunk, read_existing_skips. quiets. Qed.
#[local] Hint Resolve quiet_enqueue_chunk : quiet.
Lemma quiet_enqueue_at st fuel e now : quiet_prog (enqueue_at st fuel e now).
Proof. unfold enqueue_at, enqueue, enqueue_w_conn. quiets. Qed.
Lemma quiet_get_job st jid : quiet_prog (get_job st jid).
Proof. unfold get_job, get_job_w_conn. quiets. Qed.
#[local] Hint Resolve quiet_enqueue_at quiet_get_job : quiet.

Lemma quiet_unique_turn st tolerance jid at_ observed_ ticks failures :
  quiet_prog (unique_turn st tolerance jid at_ observed_ ticks failures).
Proof. revert observed_ failures. induction ticks as [|[|] ticks IH]; intros o f; cbn [unique_turn]; quiets. Qed.
Lemma quiet_enqueue_turn st tolerance fuel e ticks failures : quiet_prog (enqueue_turn st tolerance fuel e ticks failures).
Proof. revert failures. induction ticks as [|[|] ticks IH]; intros f; cbn [enqueue_turn]; quiets. Qed.
#[local] Hint Resolve quiet_unique_turn quiet_enqueue_turn : quiet.
Lemma quiet_cron_loop st tolerance max_time lookahead fuel factory occurrences previous ticks failures :
  quiet_prog (cron_job_loop st tolerance max_time lookahead fuel factory occurrences previous ticks failures).
Proof.
  revert previous ticks failures. induction occurrences as [|next occurrences IH]; intros previous ticks failures;
    cbn [cron_job_loop]; quiets.
Qed.
End Facts.

(** ** Registration *)

Section Registration.
Context `{S : Serde} `{P : ProcessSerde} {Schedule : Type}.
Variables (st : StorageInternal) (tolerance : Z).

(** [leads p seen post]: whatever the replies, the answer of [p] has [post], told
    whether a heartbeat was acknowledged by then. *)
Fixpoint leads {A} (p : prog A) (seen : Prop) (post : A -> Prop -> Prop) : Prop :=
  match p with
  | Ret a => post a seen
  | Op e k => forall r, leads (k r) (seen \/ heartbeat st (Observed e r)) post
  end.

Lemma leads_pbind {A B} (p : prog A) (f : A -> prog B) seen post1 post :
  leads p seen post1 -> (forall a s, post1 a s -> leads (f a) s post) -> leads (pbind p f) seen post.
Proof. revert seen. induction p as [a|X e k IH]; intros seen Hp Hf; cbn in *; [by apply Hf|]. intros r. by apply IH. Qed.

Lemma leads_impl {A} (p : prog A) (seen seen' : Prop) post : (forall a (s s' : Prop), (s -> s') -> post a s -> post a s') ->
  (seen -> seen') -> leads p seen post -> leads p seen' post.
Proof.
  intros Hpost. revert seen seen'. induction p as [a|X e k IH]; intros seen seen' Hs; cbn; [by apply Hpost|].
  intros H r. eapply IH; [|exact (H r)]. tauto.
Qed.

Lemma ping_leads now_ms now seen : leads (ping st now_ms now) seen (fun r s => r = Ok tt -> s).
Proof.
  unfold ping, connection, try, perform, lift. cbn. intros [[]|e]; [|by intros]. cbn.
  destruct (map_err _ _) as [text|e]; [|by intros]. cbn. intros r1 r2. destruct r1 as [[]|e]; [|by intros].
  cbn. intros _. left. right. by exists now_ms.
Qed.

Definition registers (r : result OxanaError bool * Z) (seen : Prop) : Prop := r.1 = Ok true -> seen.

Lemma register_leads ticks failures seen : leads (register tolerance (pings st ticks) failures) seen registers.
Proof.
  revert failures seen. induction ticks as [|[now_ms now] ticks IH]; intros failures seen; cbn [pings fmap list_fmap register]; [done|].
  eapply leads_pbind; [apply ping_leads|]. intros r s Hs. unfold track_redis_result. destruct r as [[]|e].
  - cbn. intros _. by apply Hs.
  - destruct (record_redis_failure failures tolerance) as [[|] count]; [done|apply IH].
Qed.

(** What holds while a runtime starts. *)
Record starting (s : startup) : Prop := {
  sta_quiet : Forall quiet_prog (su_programs s) \/ Exists (heartbeat st) (su_trace s);
  sta_registering : forall p, su_registering s = Some p ->
    quiet_prog p /\ leads p (Exists (heartbeat st) (su_trace s)) registers;
  sta_released : su_released s <> 0%nat \/ su_registered s = Some true -> Exists (heartbeat st) (su_trace s);
  sta_trace : forall t1 o t2, su_trace s = t1 ++ o :: t2 -> claimed_or_swept o -> Exists (heartbeat st) t1;
}.

Lemma launch_starting settings (cfg : @Config Schedule) fuel pt rt sct ct clock failures :
  starting (launch st tolerance settings cfg fuel pt rt sct ct clock failures).
Proof.
  constructor; cbn; [|done|by intros [|]|by intros []]. left.
  assert (forall A (f : A -> rprog nat) l, (forall a, quiet_prog (f a)) -> quiet_prog (poll_redis tolerance (f <$> l) failures)) as Hpoll
    by (intros A f l Hf; by apply quiet_poll, Forall_fmap, Forall_true).
  repeat apply Forall_cons_2.
  - apply quiet_poll, quiet_pings.
  - apply Hpoll. intros. apply quiet_enqueue_scheduled.
  - apply Hpoll. intros. apply quiet_enqueue_scheduled.
  - apply Hpoll. intros. apply quiet_cleanup.
  - apply Forall_fmap, Forall_true. intros. apply quiet_cron_loop.
Qed.

Lemma saw_trace t o : (~ claimed_or_swept o \/ Exists (heartbeat st) t) ->
  (forall t1 o' t2, t = t1 ++ o' :: t2 -> claimed_or_swept o' -> Exists (heartbeat st) t1) ->
  forall t1 o' t2, t ++ [o] = t1 ++ o' :: t2 -> claimed_or_swept o' -> Exists (heartbeat st) t1.
Proof.
  intros Ho Ht t1 o' t2 E Hc. destruct t2 as [|x t2 _] using rev_ind.
  - apply app_inj_tail in E as [-> ->]. tauto.
  - rewrite app_comm_cons, app_assoc in E. apply app_inj_tail in E as [E _]. by eapply Ht.
Qed.

Lemma starting_step s s' : starting s -> su_step st tolerance s s' -> starting s'.
Proof.
  intros [Hq Hr Hf Ht] Hstep.
  assert (forall p o, leads p (Exists (heartbeat st) (su_trace s)) registers ->
    leads p (Exists (heartbeat st) (su_trace s ++ [o])) registers) as Hmono.
  { intros p o. apply leads_impl; [unfold registers; tauto|]. rewrite Exists_app. by left. }
  destruct Hstep as [ps1 ps2 X e k r E Hrep|ps1 p ps2 E|n ticks failures E1 E2 E3|X e k r E Hrep|b failures E|error failures E|n b E1 E2|n p E];
    constructor; cbn; rewrite ?Exists_app; try done; try tauto.
  - rewrite E in Hq. destruct Hq as [[Hl [[_ Hk] Hps]%Forall_cons]%Forall_app|]; [left|by right; left].
    apply Forall_app. split; [done|]. constructor; [by apply Hk|done].
  - intros p Hp. destruct (Hr p Hp) as [Hp1 Hp2]. split; [done|]. by apply Hmono.
  - apply saw_trace; [|done]. rewrite E in Hq. destruct Hq as [[_ [[He _] _]%Forall_cons]%Forall_app|]; [by left|by right].
  - rewrite E in Hq. destruct Hq as [[? [_ ?]%Forall_cons]%Forall_app|]; [left|by right]. by apply Forall_app.
  - intros p [= <-]. split; [apply quiet_register|apply register_leads].
  - intros [H|H]; [|done]. apply Hf. by left.
  - intros p [= <-]. destruct (Hr _ E) as [[He Hk] Hl]. split; [by apply Hk|]. cbn in Hl.
    eapply leads_impl; [unfold registers; tauto| |exact (Hl r)]. rewrite Exists_app, Exists_cons, Exists_nil. tauto.
  - apply saw_trace; [|done]. left. by destruct (Hr _ E) as [[He _] _].
  - intros H. destruct (Hr _ E) as [_ Hl]. cbn in Hl. unfold registers in Hl. cbn in Hl. destruct b; [by apply Hl|].
    destruct H as [H|H]; [|done]. apply Hf. by left.
  - intros H. apply Hf. destruct b; [by right|]. destruct H; tauto.
  - right. apply Hf. left. by rewrite E.
Qed.

(** C19. A process claims nothing before it is registered: whatever Redis answers
    and however its tasks interleave, the first job it moves to a processing
    list and the first sweep for processing lists come after a heartbeat of its
    own that Redis acknowledged. So its claims are never a dead process's to a
    peer, nor its sweep's. *)
Theorem claims_wait_for_registration settings (cfg : @Config Schedule) fuel pt rt sct ct clock failures s t1 o t2 :
  rtc (su_step st tolerance) (launch st tolerance settings cfg fuel pt rt sct ct clock failures) s ->
  su_trace s = t1 ++ o :: t2 -> claimed_or_swept o -> Exists (heartbeat st) t1.
Proof.
  intros Hs. assert (starting s) as Hst.
  { pose proof (launch_starting settings cfg fuel pt rt sct ct clock failures) as H. induction Hs; eauto using starting_step. }
  by apply sta_trace.
Qed.
End Registration.
