(* ===== verification/TestKit.v ===== *)
(** * What the crate's own tests need, to be run on the model

    The suites (EnqueueTests, TransitionTests, StorageTests, ...) translate the
    tests of the crate, each under its own name, and evaluate them: a check that
    the model behaves as its authors expect the program to. A test is a
    computation over a bench: Redis as documented and a supply of random strings.
    It has no answer when it panics (an assertion fails) or returns an error
    ([TestResult]). The clock stands still at [now]; a test that spans time says
    so in its arguments. [RedisProxy] (test_helper.rs,
    tests/integration/claim_recovery/redis_proxy.rs) acts on one run of a
    program: its first event with the given words is held, rejected or loses its
    reply. Tasks run together one event each in turn. *)
From S2P Require Import Prelude Errors Redis Envelope Codec Queue Keys Storage Recovery.

(** ** Equality of what the tests compare *)

#[export] Instance value_eq_dec : EqDecision Value.
Proof.
  refine (fun v w => cast_if (decide (value_tree v = value_tree w))).
  - apply (f_equal tree_value) in e. by rewrite !tree_value_value_tree in e.
  - by intros ->.
Defined.
#[export] Instance job_envelope_eq_dec : EqDecision JobEnvelope.
Proof.
  assert (EqDecision JobData) by solve_decision. assert (EqDecision JobMeta) by solve_decision.
  solve_decision.
Defined.

(** ** Processes

    The text of the records other processes read. *)
Definition process_text (p : Process) : string :=
  digits (encode (hostname p, pid p, instance_id p, heartbeat_at p, proc_started_at p)).
Definition process_of_text (s : string) : result string Process :=
  match undigits s ≫= decode with
  | Some (h, n, i, t, u) =>
      Ok {| hostname := h; pid := n; instance_id := i; heartbeat_at := t; proc_started_at := u |}
  | None => Err "invalid"
  end.

Lemma process_of_text_text p : process_of_text (process_text p) = Ok p.
Proof. destruct p. unfold process_of_text, process_text. by rewrite undigits_digits; cbn; rewrite decode_encode. Qed.

#[export] Instance BitsProcessSerde : ProcessSerde := {|
  process_to_string p := Ok (process_text p);
  process_from_str := process_of_text;
|}.

(** ** Tests *)

Record bench := { bench_keys : keyspace; bench_random : nat }.

Definition test (A : Type) : Type := bench -> option (A * bench).

Definition tret {A} (a : A) : test A := fun b => Some (a, b).
Definition tbind {A B} (t : test A) (f : A -> test B) : test B :=
  fun b => match t b with Some (a, b') => f a b' | None => None end.

Declare Scope test_scope.
Delimit Scope test_scope with test.
Notation "x <- t ;; k" := (tbind t (fun x => k))
  (at level 100, t at next level, right associativity) : test_scope.
Notation "t ;;; k" := (tbind t (fun _ => k)) (at level 100, right associativity) : test_scope.
Open Scope test_scope.

(** [assert!], [assert_eq!], [Option::unwrap]. *)
Definition assert (c : bool) : test unit := fun b => if c then Some (tt, b) else None.
Definition assert_eq {A} `{EqDecision A} (x y : A) : test unit := assert (bool_decide (x = y)).
Definition unwrap {A} (o : option A) : test A := fun b => (fun a => (a, b)) <$> o.

Definition for_each {A} (l : list A) (f : A -> test unit) : test unit :=
  foldr (fun x k => f x ;;; k) (tret tt) l.
Fixpoint map_each {A B} (f : A -> test B) (l : list A) : test (list B) :=
  match l with
  | [] => tret []
  | x :: l' => y <- f x ;; ys <- map_each f l' ;; tret (y :: ys)
  end.

(** ** Random strings *)

(** [random_string], [Uuid::new_v4]: different every time, and none is the prefix of another. *)
Definition random_string : test string :=
  fun b => Some ("r" +:+ pretty (bench_random b) +:+ ".",
                 {| bench_keys := bench_keys b; bench_random := Datatypes.S (bench_random b) |}).

Fixpoint repeat_test (n : nat) (t : test unit) : test unit :=
  match n with O => tret tt | Datatypes.S n' => t ;;; repeat_test n' t end.

(** [chrono::Utc::now], in the units the code reads it. *)
Definition now : Z := 1700000000000000.
Definition now_ms : Z := now / 1000.
Definition now_secs : Z := now / 1000000.

(** ** Programs *)

Definition on_redis {A} (f : keyspace -> A * keyspace) : test A :=
  fun b => let '(a, ks) := f (bench_keys b) in
           Some (a, {| bench_keys := ks; bench_random := bench_random b |}).

(** [program.await]; [program.await?]. *)
Definition result_of {A} (p : prog A) : test A := on_redis (run_doc p).
Definition ok {A} (r : result OxanaError A) : test A := unwrap (res_ok r).
Definition await {A} (p : rprog A) : test A := r <- result_of p ;; ok r.
(** [assert!(program.await.is_err())]. *)
Definition fails {A} (p : rprog A) : test unit := r <- result_of p ;; assert (negb (is_ok r)).

(** A command of the test itself. *)
Definition redis {X} (c : rcmd X) : test X := await (call c).
(** [redis.set(key, text)], [redis.get::<_, String>(key)]. *)
Definition redis_set (key text : string) : test unit := on_redis (fun ks => (tt, <[key := VString text]> ks)).
Definition redis_get (key : string) : test string :=
  o <- on_redis (fun ks => (ks !! key, ks)) ;;
  match o with Some (VString text) => tret text | _ => unwrap None end.

(** [StorageInternal::new(redis_pool().await?, Some(namespace))]. *)
Definition storage_of (namespace : string) : test StorageInternal :=
  uuid <- random_string ;;
  tret (new_storage (Some namespace) false now_secs uuid "host" 4242).
Definition random_storage : test StorageInternal := ns <- random_string ;; storage_of ns.

(** [currently_processing_job_ids], a method compiled for tests. *)
Definition currently_processing_job_ids (st : StorageInternal) : rprog (list JobId) :=
  (_ <-? connection ;;
   job_id <-? call (LINDEX (current_processing_queue st) 0) ;;
   lift (Ok (option_list job_id)))%prog.

Section Envelopes.
Context `{S : Serde}.

(** [JobEnvelope::new(queue, job)?]. *)
Definition envelope_new (queue : string) (j : Job) : test JobEnvelope :=
  uuid <- random_string ;; ok (new_envelope queue j uuid now now).

(** [assert_eq!(serde_json::to_string(&a)?, serde_json::to_string(&b)?)]. *)
Definition assert_same_json (a b : JobEnvelope) : test unit :=
  x <- ok (print_job a) ;; y <- ok (print_job b) ;; assert_eq x y.
End Envelopes.

(** [usize::from(bool)]. *)
Definition usize_from (b : bool) : nat := if b then 1 else 0.

(** [envelope.queue = q], [envelope.job.args = v], [envelope.id = i], and fields of its [meta]. *)
Definition set_queue (q : string) (e : JobEnvelope) : JobEnvelope :=
  {| id := id e; queue := q; job := job e; meta := meta e |}.
Definition set_args (v : Value) (e : JobEnvelope) : JobEnvelope :=
  {| id := id e; queue := queue e; job := {| name := name (job e); args := v |}; meta := meta e |}.
Definition set_id (i : JobId) (e : JobEnvelope) : JobEnvelope :=
  {| id := i; queue := queue e; job := job e; meta := meta e |}.
Definition set_unique (u : bool) (m : JobMeta) : JobMeta :=
  {| meta_id := meta_id m; on_demand := on_demand m; retries := retries m; unique := u;
     on_conflict := on_conflict m; created_at := created_at m; scheduled_at := scheduled_at m;
     started_at := started_at m; state := state m; resurrect := resurrect m; error := error m;
     throttle_cost := throttle_cost m |}.
Definition set_on_conflict (c : option JobConflictStrategy) (m : JobMeta) : JobMeta :=
  {| meta_id := meta_id m; on_demand := on_demand m; retries := retries m; unique := unique m;
     on_conflict := c; created_at := created_at m; scheduled_at := scheduled_at m;
     started_at := started_at m; state := state m; resurrect := resurrect m; error := error m;
     throttle_cost := throttle_cost m |}.
Definition set_resurrect (r : bool) (m : JobMeta) : JobMeta :=
  {| meta_id := meta_id m; on_demand := on_demand m; retries := retries m; unique := unique m;
     on_conflict := on_conflict m; created_at := created_at m; scheduled_at := scheduled_at m;
     started_at := started_at m; state := state m; resurrect := r; error := error m;
     throttle_cost := throttle_cost m |}.
Definition set_created_at (t : Z) (m : JobMeta) : JobMeta :=
  {| meta_id := meta_id m; on_demand := on_demand m; retries := retries m; unique := unique m;
     on_conflict := on_conflict m; created_at := t; scheduled_at := scheduled_at m;
     started_at := started_at m; state := state m; resurrect := resurrect m; error := error m;
     throttle_cost := throttle_cost m |}.

(** ** The proxy *)

(** The first words of the request an event sends; a script is sent by its hash. *)
Definition command_words {X} (c : rcmd X) : list string :=
  match c with
  | HGET k f => ["HGET"; k; f]
  | HMGET k fs => "HMGET" :: k :: fs
  | HEXISTS k f => ["HEXISTS"; k; f]
  | HSET k f v => ["HSET"; k; f; v]
  | HSETM k _ => ["HMSET"; k]
  | LPUSH k v => ["LPUSH"; k; v]
  | LRANGE k _ _ => ["LRANGE"; k]
  | LREM k n v => ["LREM"; k; pretty n; v]
  | LMOVE src dst => ["LMOVE"; src; dst]
  | _ => []
  end.
Definition words {X} (e : event X) : list string :=
  match e with
  | Cmd c => command_words c
  | Script _ => ["EVALSHA"]
  | _ => []
  end.
Definition starts_with_words (prefix ws : list string) : bool := bool_decide (take (length prefix) ws = prefix).

(** A request the proxy answers with an error itself. *)
Definition rejected : OxanaError :=
  DeadpoolRedisError {| is_io_error := false; error_kind := Some OtherServerError |}.

(** The rest of the program when the first matching reply is held back. *)
Fixpoint run_until {A} (prefix : list string) (p : prog A) (ks : keyspace) : option (prog A) * keyspace :=
  match p with
  | Ret _ => (None, ks)
  | Op e k =>
      let '(r, ks') := @run_event MemRedis _ e ks in
      if starts_with_words prefix (words e) then (Some (k r), ks') else run_until prefix (k r) ks'
  end.

Inductive fault := Reject | LoseReply.

(** The answer, and whether the fault was injected. *)
Fixpoint run_faulty {A} (f : fault) (prefix : list string) (p : prog A) (ks : keyspace) : (A * bool) * keyspace :=
  match p with
  | Ret a => ((a, false), ks)
  | Op e k =>
      if starts_with_words prefix (words e) then
        let '(r, ks') := match f with
                         | Reject => (Err rejected, ks)
                         | LoseReply => (Err lost_reply, snd (@run_event MemRedis _ e ks))
                         end in
        let '(a, ks'') := run_doc (k r) ks' in ((a, true), ks'')
      else let '(r, ks') := @run_event MemRedis _ e ks in run_faulty f prefix (k r) ks'
  end.

(** [RedisProxy::pause_once] and [wait_until_paused]: the task to resume. *)
Definition pause_once {A} (prefix : list string) (p : prog A) : test (prog A) :=
  o <- on_redis (run_until prefix p) ;; unwrap o.

(** [assert!(program.await.is_err())] and [assert!(proxy.injected())]. *)
Definition fails_injected {A} (f : fault) (prefix : list string) (p : rprog A) : test unit :=
  r <- on_redis (run_faulty f prefix p) ;;
  assert (negb (is_ok r.1)) ;;; assert r.2.

(** ** Tasks that run together *)

Fixpoint one_turn {A} (ps : list (prog A)) (ks : keyspace) : list (prog A) * keyspace :=
  match ps with
  | [] => ([], ks)
  | p :: ps' =>
      let '(p', ks') := match p with
                        | Ret a => (Ret a, ks)
                        | Op e k => let '(r, ks') := @run_event MemRedis _ e ks in (k r, ks')
                        end in
      let '(ps'', ks'') := one_turn ps' ks' in (p' :: ps'', ks'')
  end.

Definition returned {A} (p : prog A) : option A := match p with Ret a => Some a | Op _ _ => None end.

Fixpoint in_turn {A} (turns : nat) (ps : list (prog A)) (ks : keyspace) : option (list A) * keyspace :=
  match mapM returned ps, turns with
  | Some answers, _ => (Some answers, ks)
  | None, O => (None, ks)
  | None, Datatypes.S turns' => let '(ps', ks') := one_turn ps ks in in_turn turns' ps' ks'
  end.

(** [JoinSet], [tokio::join!]; none of the tests takes as many turns as this. *)
Definition together {A} (ps : list (rprog A)) : test (list A) :=
  o <- on_redis (in_turn 500 ps) ;; rs <- unwrap o ;; ok (collect rs).

(** ** Running a test *)

Definition passes (t : test unit) : bool :=
  bool_decide (is_Some (t {| bench_keys := ∅; bench_random := 0 |})).

(** Evaluates every test of a suite. *)
Ltac all_pass := repeat (apply Forall_cons_2; [vm_compute; reflexivity|]); apply Forall_nil_2.
