(* ===== verification/EnqueueTests.v ===== *)
(** * The enqueueing tests of the crate ([storage_internal/enqueue_tests.rs])

    Each test under its name; see TestKit. Left out are those that measure bytes
    on the wire ([skipping_duplicates_does_not_transfer_the_stored_payload],
    [skipping_existing_jobs_does_not_transfer_incoming_payloads],
    [replacement_snapshots_do_not_retransmit_large_arguments_or_state],
    [replacement_does_not_retry_for_saved_state_changes_with_the_same_queue]) and
    the one about the layout of the JSON text
    ([replacement_validates_the_root_queue_across_json_layouts]). *)
From S2P Require Import Prelude Errors Redis Envelope Codec Queue Keys Storage Enqueue TestKit.
Open Scope test_scope.

(** [EnqueueJob], a unit struct. *)
Definition EnqueueJob : Job := default_job "EnqueueJob" (Ok VNull).

(** The rounds of the enqueue loop: more than any of the tests needs. *)
Definition rounds : nat := 100.

Definition fixture (strategy : JobConflictStrategy) : test (StorageInternal * JobEnvelope) :=
  storage <- random_storage ;;
  queue <- random_string ;;
  envelope <- envelope_new queue EnqueueJob ;;
  tret (storage, map_meta (fun m => set_on_conflict (Some strategy) (set_unique true m)) envelope).

(** [enqueue_script_prefix]: the script the methods run by its hash. *)
Definition enqueue_script_prefix : list string := ["EVALSHA"].

Definition num (n : Z) : Value := VNumber (NumInt n).
Definition in_a_minute : Z := now + 60000000.

(** [storage.dequeue(&e.queue)] claims the job, and it is acknowledged. *)
Definition claim_and_finish (storage : StorageInternal) (e : JobEnvelope) : test unit :=
  claimed <- await (dequeue storage (queue e)) ;;
  assert_eq claimed (Some (id e)) ;;;
  await (finish_with_success storage e).

Definition assert_enqueued (storage : StorageInternal) (q : string) (n : nat) : test unit :=
  count <- await (enqueued_count storage q) ;; assert_eq count n.

Definition saved_job (storage : StorageInternal) (jid : JobId) : test JobEnvelope :=
  found <- await (get_job storage jid) ;; unwrap found.

Definition bulk_skip_remembers_jobs_it_wrote_after_workers_finish_between_chunks : test unit :=
  for_each [false; true] (fun initially_present =>
    f <- fixture Skip ;; let '(storage, original) := f in
    (if initially_present then await (enqueue storage rounds original) ;;; tret tt else tret tt) ;;;
    let prefix := if initially_present then ["HEXISTS"; jobs (skeys storage); id original]
                  else enqueue_script_prefix in
    let envelopes := (fun marker => set_args (VObject [("marker", num (Z.of_nat marker))]) original) <$> seq 0 101 in
    task <- pause_once prefix (enqueue_list storage rounds envelopes) ;;
    claim_and_finish storage original ;;;
    answer <- await task ;;
    assert_eq answer (replicate 101 (id original)) ;;;
    assert_enqueued storage (queue original) (usize_from initially_present) ;;;
    remaining <- await (get_job storage (id original)) ;;
    if initially_present then
      e <- unwrap remaining ;; assert_eq (value_get "marker" (args (job e))) (Some (num 100))
    else assert (bool_decide (remaining = None))).

Definition concurrent_replacements_across_queues_all_succeed : test unit :=
  for_each [false; true] (fun initially_present =>
    f <- fixture Replace ;; let '(storage, original) := f in
    (if initially_present then await (enqueue storage rounds original) ;;; tret tt else tret tt) ;;;
    queues <- map_each (fun _ => random_string) (seq 0 24) ;;
    for_each (seq 0 4) (fun _ =>
      answers <- together ((fun q => enqueue storage rounds (set_queue q original)) <$> queues) ;;
      for_each answers (fun answer => assert_eq answer (id original)) ;;;
      saved <- saved_job storage (id original) ;;
      assert_enqueued storage (queue original) 0 ;;;
      for_each queues (fun q =>
        assert_enqueued storage q (usize_from (bool_decide (q = queue saved)))))).

Definition concurrent_unique_skip_keeps_one_destination : test unit :=
  for_each [Some Skip; None] (fun strategy =>
    f <- fixture Skip ;; let '(storage, envelope) := f in
    let envelope := map_meta (fun m => set_scheduled_at in_a_minute (set_on_conflict strategy m)) envelope in
    queues <- map_each (fun _ => random_string) (seq 0 24) ;;
    let task := fun (p : nat * string) =>
      let '(index, q) := p in
      let e := set_args (VObject [("producer", num (Z.of_nat index))]) (set_queue q envelope) in
      (match (index mod 3)%nat with
       | 0%nat => i <-? enqueue storage rounds e ;; lift (Ok [i])
       | 1%nat => i <-? enqueue_at storage rounds e now ;; lift (Ok [i])
       | _ => enqueue_list storage rounds [e; e]
       end)%prog in
    answers <- together (task <$> zip (seq 0 24) queues) ;;
    for_each answers (fun answer => assert (forallb (fun i => bool_decide (i = id envelope)) answer)) ;;;
    saved <- saved_job storage (id envelope) ;;
    producer <- unwrap (value_get "producer" (args (job saved))) ;;
    counts <- map_each (fun q =>
      count <- await (enqueued_count storage q) ;;
      (if decide (count = 0%nat) then tret tt else assert_eq q (queue saved)) ;;;
      tret count) queues ;;
    scheduled <- await (scheduled_count storage) ;;
    assert_eq (list_sum counts + scheduled)%nat 1%nat ;;;
    assert_eq scheduled (match producer with
                         | VNumber (NumInt n) => usize_from (bool_decide (n mod 3 = 1)%Z) | _ => 2%nat end) ;;;
    count <- await (jobs_count storage) ;; assert_eq count 1%nat).

Definition skip_rechecks_absence_before_inserting : test unit :=
  f <- fixture Skip ;; let '(storage, original) := f in
  task <- pause_once ["HEXISTS"; jobs (skeys storage)] (enqueue storage rounds original) ;;
  queue' <- random_string ;;
  let concurrent := map_meta (set_scheduled_at in_a_minute) (set_queue queue' original) in
  await (enqueue_at storage rounds concurrent now) ;;;
  answer <- await task ;;
  assert_eq answer (id original) ;;;
  assert_enqueued storage (queue original) 0 ;;;
  scheduled <- await (scheduled_count storage) ;; assert_eq scheduled 1%nat ;;;
  saved <- saved_job storage (id original) ;;
  assert_same_json saved concurrent.

Definition try_enqueue_reports_skip_when_another_producer_wins_after_preflight : test unit :=
  f <- fixture Skip ;; let '(storage, original) := f in
  task <- pause_once ["HEXISTS"; jobs (skeys storage)] (try_enqueue storage rounds original) ;;
  let winner := set_args (VObject [("producer", VStr "winner")]) original in
  await (enqueue storage rounds winner) ;;;
  answer <- await task ;;
  assert_eq answer None ;;;
  assert_enqueued storage (queue original) 1 ;;;
  saved <- saved_job storage (id original) ;;
  assert_eq (args (job saved)) (args (job winner)).

Definition try_enqueue_preserves_skip_after_the_existing_job_finishes : test unit :=
  f <- fixture Skip ;; let '(storage, original) := f in
  await (enqueue storage rounds original) ;;;
  task <- pause_once ["HEXISTS"; jobs (skeys storage)] (try_enqueue storage rounds original) ;;
  claim_and_finish storage original ;;;
  answer <- await task ;;
  assert_eq answer None ;;;
  found <- await (get_job storage (id original)) ;; assert_eq found None ;;;
  assert_enqueued storage (queue original) 0.

Definition try_enqueue_preserves_success_after_the_written_job_finishes : test unit :=
  for_each [None; Some Skip; Some Replace] (fun strategy =>
    f <- fixture Skip ;; let '(storage, original) := f in
    let original := map_meta (fun m =>
      set_on_conflict strategy (set_unique (bool_decide (is_Some strategy)) m)) original in
    (if bool_decide (strategy = Some Replace) then await (enqueue storage rounds original) ;;; tret tt else tret tt) ;;;
    let prefix := if unique (meta original) then enqueue_script_prefix
                  else ["LPUSH"; namespace_queue (skeys storage) (queue original)] in
    task <- pause_once prefix (try_enqueue storage rounds original) ;;
    claim_and_finish storage original ;;;
    answer <- await task ;;
    assert_eq answer (Some (id original)) ;;;
    found <- await (get_job storage (id original)) ;; assert_eq found None ;;;
    assert_enqueued storage (queue original) 0).

Definition concurrent_unique_replace_keeps_the_last_payload_of_one_batch : test unit :=
  f <- fixture Replace ;; let '(storage, envelope) := f in
  let marked := fun (producer : nat) last =>
    set_args (VObject [("producer", num (Z.of_nat producer)); ("last", VBool last)]) envelope in
  let task := fun producer =>
    (if Nat.even producer
     then i <-? enqueue storage rounds (marked producer true) ;; lift (Ok [i])
     else enqueue_list storage rounds [marked producer false; marked producer true])%prog in
  answers <- together (task <$> seq 0 24) ;;
  for_each answers (fun answer => assert (forallb (fun i => bool_decide (i = id envelope)) answer)) ;;;
  assert_enqueued storage (queue envelope) 1 ;;;
  saved <- saved_job storage (id envelope) ;;
  assert_eq (value_get "last" (args (job saved))) (Some (VBool true)).

Definition replacement_retries_changed_snapshots_without_reordering_the_batch : test unit :=
  for_each [false; true] (fun bulk =>
    f <- fixture Replace ;; let '(storage, original) := f in
    await (enqueue storage rounds original) ;;;
    ordinary_queue <- random_string ;; ordinary <- envelope_new ordinary_queue EnqueueJob ;;
    first_queue <- random_string ;; let first := set_queue first_queue original in
    last_queue <- random_string ;;
    let last := set_args (VObject [("value", num u64_max)]) (set_queue last_queue first) in
    let envelopes := if bulk then [ordinary; first; last] else [last] in
    task <- pause_once ["HMGET"; jobs (skeys storage)]
      (if bulk then enqueue_list storage rounds envelopes
       else i <-? enqueue storage rounds last ;; lift (Ok [i]))%prog ;;
    queue' <- random_string ;; let concurrent := set_queue queue' original in
    await (enqueue storage rounds concurrent) ;;;
    answer <- await task ;;
    assert_eq answer (id <$> envelopes) ;;;
    for_each [queue original; queue concurrent; queue first] (fun q => assert_enqueued storage q 0) ;;;
    assert_enqueued storage (queue last) 1 ;;;
    assert_enqueued storage (queue ordinary) (usize_from bulk) ;;;
    saved <- saved_job storage (id last) ;;
    assert_same_json saved last).

Definition replacement_retries_jobs_created_or_finished_after_its_snapshot : test unit :=
  for_each [false; true] (fun initially_present =>
  for_each [false; true] (fun scheduled =>
    f <- fixture Replace ;; let '(storage, original) := f in
    (if initially_present then await (enqueue storage rounds original) ;;; tret tt else tret tt) ;;;
    queue' <- random_string ;;
    let replacement := map_meta (set_scheduled_at in_a_minute) (set_queue queue' original) in
    task <- pause_once ["HMGET"; jobs (skeys storage)]
      (if scheduled then enqueue_at storage rounds replacement now else enqueue storage rounds replacement) ;;
    (if initially_present then claim_and_finish storage original
     else await (enqueue storage rounds original) ;;; tret tt) ;;;
    answer <- await task ;;
    assert_eq answer (id replacement) ;;;
    assert_enqueued storage (queue original) 0 ;;;
    assert_enqueued storage (queue replacement) (usize_from (negb scheduled)) ;;;
    count <- await (scheduled_count storage) ;; assert_eq count (usize_from scheduled) ;;;
    saved <- saved_job storage (id replacement) ;;
    assert_same_json saved replacement)).

Definition malformed_replacement_snapshot_preserves_the_entire_chunk : test unit :=
  for_each [false; true] (fun changed_after_read =>
    f <- fixture Replace ;; let '(storage, original) := f in
    await (enqueue storage rounds original) ;;;
    let spoil := redis (HSET (jobs (skeys storage)) (id original) "{invalid json") in
    (if changed_after_read then tret tt else spoil) ;;;
    ordinary_queue <- random_string ;; ordinary <- envelope_new ordinary_queue EnqueueJob ;;
    queue' <- random_string ;; let replacement := set_queue queue' original in
    task <- pause_once ["HMGET"; jobs (skeys storage)] (enqueue_list storage rounds [ordinary; replacement]) ;;
    (if changed_after_read then spoil else tret tt) ;;;
    fails task ;;;
    found <- await (get_job storage (id ordinary)) ;; assert_eq found None ;;;
    assert_enqueued storage (queue ordinary) 0 ;;;
    assert_enqueued storage (queue original) 1 ;;;
    text <- redis (HGET (jobs (skeys storage)) (id original)) ;;
    assert_eq text (Some "{invalid json")).

Definition replacement_uses_preceding_ordinary_write_instead_of_stored_payload : test unit :=
  for_each [false; true] (fun preceding_skip =>
    f <- fixture Skip ;; let '(storage, original) := f in
    redis (HSET (jobs (skeys storage)) (id original) "{invalid json") ;;;
    let skipped := if preceding_skip then [original] else [] in
    let original := map_meta (set_unique false) original in
    queue' <- random_string ;;
    let replacement := set_queue queue'
      (map_meta (fun m => set_on_conflict (Some Replace) (set_unique true m)) original) in
    await (enqueue_list storage rounds (skipped ++ [original; replacement])) ;;;
    assert_enqueued storage (queue original) 0 ;;;
    assert_enqueued storage (queue replacement) 1 ;;;
    saved <- saved_job storage (id replacement) ;;
    assert_same_json saved replacement).

Definition enqueue_type_errors_preserve_the_entire_chunk : test unit :=
  for_each ["destination"; "schedule"; "retry"] (fun broken_key =>
    f <- fixture Replace ;; let '(storage, original) := f in
    await (enqueue storage rounds original) ;;;
    ordinary_queue <- random_string ;; ordinary <- envelope_new ordinary_queue EnqueueJob ;;
    queue' <- random_string ;; let replacement := set_queue queue' original in
    let key := if decide (broken_key = "schedule") then schedule (skeys storage)
               else if decide (broken_key = "retry") then retry (skeys storage)
               else namespace_queue (skeys storage) (queue replacement) in
    redis_set key "wrong type" ;;;
    fails (enqueue_list storage rounds [ordinary; replacement]) ;;;
    assert_enqueued storage (queue original) 1 ;;;
    assert_enqueued storage (queue ordinary) 0 ;;;
    found <- await (get_job storage (id ordinary)) ;; assert_eq found None ;;;
    text <- redis_get key ;; assert_eq text "wrong type" ;;;
    saved <- saved_job storage (id original) ;;
    assert_same_json saved original).

Definition enqueue_rejects_queue_aliases_before_creating_the_jobs_hash : test unit :=
  f <- fixture Skip ;; let '(storage, envelope) := f in
  fails (enqueue storage rounds (set_queue (jobs (skeys storage)) envelope)) ;;;
  count <- await (jobs_count storage) ;; assert_eq count 0%nat.

Definition retrying_unique_enqueue_after_a_lost_reply_does_not_duplicate_jobs : test unit :=
  for_each [Skip; Replace] (fun strategy =>
    f <- fixture strategy ;; let '(storage, first) := f in
    let last := set_args (VObject [("last", VBool true)]) first in
    fails_injected LoseReply enqueue_script_prefix (enqueue_list storage rounds [first; last]) ;;;
    answer <- await (enqueue_list storage rounds [first; last]) ;;
    assert_eq answer [id first; id first] ;;;
    assert_enqueued storage (queue first) 1 ;;;
    let expected := match strategy with Skip => first | Replace => last end in
    saved <- saved_job storage (id expected) ;;
    assert_same_json saved expected).

Definition replacement_clears_ready_scheduled_and_retry_memberships : test unit :=
  f <- fixture Replace ;; let '(storage, original) := f in
  let original := set_queue (namespace_queue (skeys storage) (queue original)) original in
  await (enqueue storage rounds original) ;;;
  redis (ZADD (retry (skeys storage)) 1 (id original)) ;;;
  queue' <- random_string ;;
  let scheduled := map_meta (set_scheduled_at in_a_minute) (set_queue queue' original) in
  await (enqueue_at storage rounds scheduled now) ;;;
  assert_enqueued storage (queue original) 0 ;;;
  assert_enqueued storage (queue scheduled) 0 ;;;
  retries <- await (retries_count storage) ;; assert_eq retries 0%nat ;;;
  count <- await (scheduled_count storage) ;; assert_eq count 1%nat ;;;
  score <- redis (ZSCORE (schedule (skeys storage)) (id original)) ;;
  assert_eq score (Some (scheduled_at (meta scheduled))) ;;;
  queue'' <- random_string ;; let ready := set_queue queue'' scheduled in
  await (enqueue storage rounds ready) ;;;
  count <- await (scheduled_count storage) ;; assert_eq count 0%nat ;;;
  assert_enqueued storage (queue ready) 1 ;;;
  count <- await (jobs_count storage) ;; assert_eq count 1%nat.

Definition unique_skip_preserves_malformed_existing_payloads : test unit :=
  for_each [""; "{invalid json"] (fun payload =>
    f <- fixture Skip ;; let '(storage, envelope) := f in
    redis (HSET (jobs (skeys storage)) (id envelope) payload) ;;;
    await (enqueue storage rounds envelope) ;;;
    text <- redis (HGET (jobs (skeys storage)) (id envelope)) ;;
    assert_eq text (Some payload) ;;;
    assert_enqueued storage (queue envelope) 0).

Lemma enqueue_tests_pass : Forall (fun t => passes t = true)
  [bulk_skip_remembers_jobs_it_wrote_after_workers_finish_between_chunks;
   concurrent_replacements_across_queues_all_succeed;
   concurrent_unique_skip_keeps_one_destination;
   skip_rechecks_absence_before_inserting;
   try_enqueue_reports_skip_when_another_producer_wins_after_preflight;
   try_enqueue_preserves_skip_after_the_existing_job_finishes;
   try_enqueue_preserves_success_after_the_written_job_finishes;
   concurrent_unique_replace_keeps_the_last_payload_of_one_batch;
   replacement_retries_changed_snapshots_without_reordering_the_batch;
   replacement_retries_jobs_created_or_finished_after_its_snapshot;
   malformed_replacement_snapshot_preserves_the_entire_chunk;
   replacement_uses_preceding_ordinary_write_instead_of_stored_payload;
   enqueue_type_errors_preserve_the_entire_chunk;
   enqueue_rejects_queue_aliases_before_creating_the_jobs_hash;
   retrying_unique_enqueue_after_a_lost_reply_does_not_duplicate_jobs;
   replacement_clears_ready_scheduled_and_retry_memberships;
   unique_skip_preserves_malformed_existing_payloads].
Proof. all_pass. Qed.
