(* ===== verification/TransitionTests.v ===== *)
(** * The tests of the transitions ([storage_internal/transition_tests.rs])

    Retries, promotion, recovery and acknowledgement under malformed payloads,
    rejected commands, lost replies and competitors, each test under its name;
    see TestKit. *)
From S2P Require Import Prelude Errors Redis Envelope Codec Queue Keys Scripts Storage Enqueue Recovery TestKit.
Open Scope test_scope.

(** [TransitionJob], a unit struct. *)
Definition TransitionJob : Job := default_job "TransitionJob" (Ok VNull).

Definition enqueue_job (storage : StorageInternal) (e : JobEnvelope) : test unit :=
  await (enqueue storage 1 e) ;;; tret tt.

Definition fixture : test (StorageInternal * JobEnvelope) :=
  storage <- random_storage ;;
  q <- random_string ;;
  envelope <- envelope_new q TransitionJob ;;
  enqueue_job storage envelope ;;;
  tret (storage, envelope).

Definition schedule (storage : StorageInternal) (e : JobEnvelope) (is_retry : bool) : test string :=
  let key := if is_retry then retry (skeys storage) else Keys.schedule (skeys storage) in
  redis (LREM (namespace_queue (skeys storage) (queue e)) 1 (id e)) ;;;
  redis (ZADD key 1 (id e)) ;;;
  tret key.

(** [script_prefix]: the script the methods run by its hash. *)
Definition script_prefix : list string := ["EVALSHA"].

(** [storage.resurrect(Duration::from_secs(5))]. *)
Definition resurrect_5s (storage : StorageInternal) : rprog unit := resurrect_dead storage 5000 now_ms.

Definition assert_enqueued (storage : StorageInternal) (q : string) (n : nat) : test unit :=
  count <- await (enqueued_count storage q) ;; assert_eq count n.
Definition assert_claimed (storage : StorageInternal) (ids : list JobId) : test unit :=
  claimed <- await (currently_processing_job_ids storage) ;; assert_eq claimed ids.
Definition assert_claims (storage : StorageInternal) (n : nat) : test unit :=
  claimed <- await (currently_processing_job_ids storage) ;; assert_eq (length claimed) n.
Definition assert_stored (storage : StorageInternal) (jid : JobId) : test unit :=
  found <- await (get_job storage jid) ;; assert (bool_decide (is_Some found)).
Definition assert_counts (p : rprog nat) (n : nat) : test unit := count <- await p ;; assert_eq count n.
Definition claim (storage : StorageInternal) (q : string) : test unit := await (dequeue storage q) ;;; tret tt.
(** A second handle on the same keys, as another process would have. *)
Definition another_process (storage : StorageInternal) : test StorageInternal :=
  storage_of (namespace (skeys storage)).

Definition regression_retry_missing_payload_releases_only_its_claim : test unit :=
  f <- fixture ;; let '(storage, envelope) := f in
  claim storage (queue envelope) ;;;
  redis (HDEL (jobs (skeys storage)) [id envelope]) ;;;
  await (retry_in storage (id envelope) 0 "failed" now) ;;;
  claims <- redis (LLEN (current_processing_queue storage)) ;; assert_eq claims 0%nat ;;;
  assert_counts (retries_count storage) 0 ;;;
  assert_counts (jobs_count storage) 0.

Definition regression_missing_payload_claim_cleanup_errors_are_propagated : test unit :=
  f <- fixture ;; let '(storage, envelope) := f in
  claim storage (queue envelope) ;;;
  redis (HDEL (jobs (skeys storage)) [id envelope]) ;;;
  fails_injected Reject ["LREM"; current_processing_queue storage] (retry_in storage (id envelope) 0 "failed" now) ;;;
  assert_claimed storage [id envelope] ;;;
  assert_counts (retries_count storage) 0.

Definition regression_malformed_scheduled_payload_does_not_block_healthy_jobs : test unit :=
  for_each [false; true] (fun is_retry =>
    f <- fixture ;; let '(storage, malformed) := f in
    source <- schedule storage malformed is_retry ;;
    healthy <- envelope_new (queue malformed) TransitionJob ;;
    enqueue_job storage healthy ;;;
    schedule storage healthy is_retry ;;;
    redis (HSET (jobs (skeys storage)) (id malformed) "{invalid json") ;;;
    redis (ZADD source 2 (id healthy)) ;;;
    assert_counts (enqueue_scheduled storage source now) 1 ;;;
    assert_counts (enqueue_scheduled storage source now) 0 ;;;
    retained <- redis (ZRANGE source 0 (-1)) ;; assert_eq retained.*1 [id malformed] ;;;
    text <- redis (HGET (jobs (skeys storage)) (id malformed)) ;; assert_eq text (Some "{invalid json") ;;;
    assert_enqueued storage (queue healthy) 1 ;;;
    await (update_job storage malformed) ;;;
    assert_counts (enqueue_scheduled storage source now) 1 ;;;
    left <- redis (ZCARD source) ;; assert_eq left 0%nat ;;;
    assert_enqueued storage (queue healthy) 2).

Definition regression_malformed_claims_do_not_block_recovery : test unit :=
  f <- fixture ;; let '(storage, first) := f in
  others <- map_each (fun _ =>
    job <- envelope_new (queue first) TransitionJob ;; enqueue_job storage job ;;; tret job) (seq 0 24) ;;
  let all := first :: others in
  for_each all (fun _ => claim storage (queue first)) ;;;
  uuid <- random_string ;; let other := for_new_process now_secs uuid storage in
  other_job <- envelope_new (queue first) TransitionJob ;;
  enqueue_job other other_job ;;;
  claim other (queue first) ;;;
  middle <- unwrap (all !! 12%nat) ;; end_ <- unwrap (last all) ;;
  let malformed := [first; middle; end_] in
  for_each malformed (fun e => redis (HSET (jobs (skeys storage)) (id e) "{invalid json")) ;;;
  repeat_test 2 (
    await (resurrect_5s storage) ;;;
    assert_enqueued storage (queue first) 23 ;;;
    retained <- redis (LRANGE (current_processing_queue storage) 0 (-1)) ;;
    assert_eq (length retained) (length malformed) ;;;
    for_each malformed (fun e =>
      assert (bool_decide (id e ∈ retained)) ;;;
      text <- redis (HGET (jobs (skeys storage)) (id e)) ;; assert_eq text (Some "{invalid json")) ;;;
    claims <- redis (LLEN (current_processing_queue other)) ;; assert_eq claims 0%nat) ;;;
  for_each malformed (fun e => await (update_job storage e)) ;;;
  await (resurrect_5s storage) ;;;
  assert_enqueued storage (queue first) 26 ;;;
  claims <- redis (LLEN (current_processing_queue storage)) ;; assert_eq claims 0%nat.

(** [committed]: the reply is lost after the script has run; otherwise the command is rejected. *)
Definition fault_of (committed : bool) : fault := if committed then LoseReply else Reject.

Definition scheduled_and_retry_transfers_survive_rejected_commands_and_lost_replies : test unit :=
  for_each [false; true] (fun is_retry =>
  for_each [false; true] (fun committed =>
    f <- fixture ;; let '(storage, envelope) := f in
    source <- schedule storage envelope is_retry ;;
    through_proxy <- another_process storage ;;
    fails_injected (fault_of committed) script_prefix (enqueue_scheduled through_proxy source now) ;;;
    left <- redis (ZCARD source) ;; assert_eq left (usize_from (negb committed)) ;;;
    assert_enqueued storage (queue envelope) (usize_from committed) ;;;
    assert_stored storage (id envelope) ;;;
    await (enqueue_scheduled storage source now) ;;;
    await (enqueue_scheduled storage source now) ;;;
    left <- redis (ZCARD source) ;; assert_eq left 0%nat ;;;
    assert_enqueued storage (queue envelope) 1)).

Definition scheduled_payload_read_failure_keeps_the_source : test unit :=
  f <- fixture ;; let '(storage, envelope) := f in
  source <- schedule storage envelope true ;;
  through_proxy <- another_process storage ;;
  fails_injected Reject ["HGET"; jobs (skeys storage)] (retry_all_now through_proxy) ;;;
  assert_counts (retries_count storage) 1 ;;;
  assert_counts (enqueue_scheduled storage source now) 1.

Definition invalid_ready_queue_keeps_scheduled_work_recoverable : test unit :=
  f <- fixture ;; let '(storage, envelope) := f in
  source <- schedule storage envelope false ;;
  let ready := namespace_queue (skeys storage) (queue envelope) in
  redis_set ready "wrong type" ;;;
  fails (enqueue_scheduled storage source now) ;;;
  assert_counts (scheduled_count storage) 1 ;;;
  assert_stored storage (id envelope) ;;;
  redis (DEL ready) ;;;
  assert_counts (enqueue_scheduled storage source now) 1.

Definition competing_schedulers_enqueue_each_job_once : test unit :=
  f <- fixture ;; let '(storage, envelope) := f in
  source <- schedule storage envelope true ;;
  counts <- together [enqueue_scheduled storage source now; enqueue_scheduled storage source now] ;;
  assert_eq (list_sum counts) 1%nat ;;;
  assert_enqueued storage (queue envelope) 1.

Definition stale_scheduler_does_not_promote_a_new_retry : test unit :=
  f <- fixture ;; let '(storage, envelope) := f in
  source <- schedule storage envelope true ;;
  redis (ZADD source 2 (id envelope)) ;;;
  assert_counts (promote_scheduled_jobs storage source [(id envelope, 1%Z)] 0) 0 ;;;
  assert_counts (retries_count storage) 1 ;;;
  assert_enqueued storage (queue envelope) 0.

Definition recovery_survives_rejected_commands_and_lost_replies : test unit :=
  for_each [false; true] (fun committed =>
    f <- fixture ;; let '(storage, envelope) := f in
    claim storage (queue envelope) ;;;
    through_proxy <- another_process storage ;;
    fails_injected (fault_of committed) script_prefix (resurrect_5s through_proxy) ;;;
    assert_claims storage (usize_from (negb committed)) ;;;
    assert_enqueued storage (queue envelope) (usize_from committed) ;;;
    assert_stored storage (id envelope) ;;;
    await (resurrect_5s storage) ;;;
    await (resurrect_5s storage) ;;;
    assert_claimed storage [] ;;;
    assert_enqueued storage (queue envelope) 1).

Definition recovery_payload_read_failure_keeps_the_claim : test unit :=
  f <- fixture ;; let '(storage, envelope) := f in
  claim storage (queue envelope) ;;;
  through_proxy <- another_process storage ;;
  fails_injected Reject ["HGET"; jobs (skeys storage)] (resurrect_5s through_proxy) ;;;
  assert_claimed storage [id envelope] ;;;
  await (resurrect_5s storage) ;;;
  assert_enqueued storage (queue envelope) 1.

Definition invalid_ready_queue_keeps_recovery_claims : test unit :=
  f <- fixture ;; let '(storage, envelope) := f in
  claim storage (queue envelope) ;;;
  let ready := namespace_queue (skeys storage) (queue envelope) in
  redis_set ready "wrong type" ;;;
  fails (resurrect_5s storage) ;;;
  assert_claimed storage [id envelope] ;;;
  assert_stored storage (id envelope) ;;;
  redis (DEL ready) ;;;
  await (resurrect_5s storage) ;;;
  assert_enqueued storage (queue envelope) 1.

(** Thirteen jobs, all claimed by one process. *)
Definition claimed_thirteen : test (StorageInternal * JobEnvelope) :=
  f <- fixture ;; let '(storage, envelope) := f in
  repeat_test 12 (e <- envelope_new (queue envelope) TransitionJob ;; enqueue_job storage e) ;;;
  repeat_test 13 (claim storage (queue envelope)) ;;;
  tret (storage, envelope).

Definition competing_recovery_processes_do_not_duplicate_claims : test unit :=
  f <- claimed_thirteen ;; let '(storage, envelope) := f in
  together [resurrect_5s storage; resurrect_5s storage] ;;;
  assert_claimed storage [] ;;;
  assert_enqueued storage (queue envelope) 13.

Definition recovery_snapshot_survives_concurrent_claim_removal : test unit :=
  f <- claimed_thirteen ;; let '(storage, envelope) := f in
  let processing := current_processing_queue storage in
  let ready := namespace_queue (skeys storage) (queue envelope) in
  through_proxy <- another_process storage ;;
  recovery <- pause_once ["LRANGE"; processing] (resurrect_5s through_proxy) ;;
  (* LMOVE processing ready LEFT LEFT *)
  repeat_test 5 (
    first <- redis (LINDEX processing 0) ;; first <- unwrap first ;;
    redis (LTRIM processing 1 (-1)) ;;;
    redis (LPUSH ready first)) ;;;
  await recovery ;;;
  claims <- redis (LLEN processing) ;; assert_eq claims 0%nat ;;;
  recovered <- redis (LRANGE ready 0 (-1)) ;;
  assert_eq (length recovered) 13%nat ;;;
  assert_eq (size (list_to_set recovered : gset string)) 13%nat.

Definition recovery_removes_missing_and_non_resurrectable_jobs : test unit :=
  for_each [false; true] (fun missing =>
    f <- fixture ;; let '(storage, envelope) := f in
    claim storage (queue envelope) ;;;
    (if missing then redis (HDEL (jobs (skeys storage)) [id envelope])
     else await (update_job storage (map_meta (set_resurrect false) envelope))) ;;;
    await (resurrect_5s storage) ;;;
    assert_claimed storage [] ;;;
    assert_counts (jobs_count storage) 0 ;;;
    assert_enqueued storage (queue envelope) 0).

Definition acknowledgments_survive_rejected_commands_and_lost_replies : test unit :=
  for_each [false; true] (fun committed =>
    f <- fixture ;; let '(storage, envelope) := f in
    claim storage (queue envelope) ;;;
    fails_injected (fault_of committed) script_prefix (finish_with_success storage envelope) ;;;
    assert_claims storage (usize_from (negb committed)) ;;;
    assert_counts (jobs_count storage) (usize_from (negb committed)) ;;;
    await (finish_with_success storage envelope) ;;;
    await (finish_with_success storage envelope) ;;;
    assert_claimed storage [] ;;;
    assert_counts (jobs_count storage) 0).

Definition invalid_acknowledgment_key_does_not_delete_payloads : test unit :=
  f <- fixture ;; let '(storage, envelope) := f in
  redis_set (current_processing_queue storage) "wrong type" ;;;
  fails (finish_with_success storage envelope) ;;;
  assert_stored storage (id envelope).

Definition transfers_ignore_payloads_replaced_after_the_snapshot : test unit :=
  for_each [false; true] (fun recovery =>
    f <- fixture ;; let '(storage, envelope) := f in
    source <- (if recovery then claim storage (queue envelope) ;;; tret (current_processing_queue storage)
               else schedule storage envelope false) ;;
    snapshot <- await (transition_snapshot storage (id envelope)) ;;
    text <- unwrap snapshot.1 ;;
    q <- random_string ;; let replacement := set_queue q envelope in
    await (update_job storage replacement) ;;;
    let ready := namespace_queue (skeys storage) (queue envelope) in
    let script := if recovery
                  then resurrect_claim_lua (jobs (skeys storage)) source ready (id envelope) text true
                  else promote_scheduled_lua (jobs (skeys storage)) source ready (id envelope) text 1 in
    moved <- await (perform (Script script)) ;; assert_eq moved 0%nat ;;;
    assert_enqueued storage (queue envelope) 0 ;;;
    (if recovery
     then assert_claimed storage [id envelope] ;;; await (resurrect_5s storage)
     else assert_counts (scheduled_count storage) 1 ;;;
          await (enqueue_scheduled storage source now) ;;; tret tt) ;;;
    assert_enqueued storage (queue replacement) 1).

Definition scheduled_missing_payload_is_cleaned_without_an_empty_job : test unit :=
  f <- fixture ;; let '(storage, envelope) := f in
  source <- schedule storage envelope true ;;
  redis (HDEL (jobs (skeys storage)) [id envelope]) ;;;
  assert_counts (enqueue_scheduled storage source now) 0 ;;;
  assert_counts (retries_count storage) 0 ;;;
  assert_enqueued storage (queue envelope) 0.

Lemma transition_tests_pass : Forall (fun t => passes t = true)
  [regression_retry_missing_payload_releases_only_its_claim;
   regression_missing_payload_claim_cleanup_errors_are_propagated;
   regression_malformed_scheduled_payload_does_not_block_healthy_jobs;
   regression_malformed_claims_do_not_block_recovery;
   scheduled_and_retry_transfers_survive_rejected_commands_and_lost_replies;
   scheduled_payload_read_failure_keeps_the_source;
   invalid_ready_queue_keeps_scheduled_work_recoverable;
   competing_schedulers_enqueue_each_job_once;
   stale_scheduler_does_not_promote_a_new_retry;
   recovery_survives_rejected_commands_and_lost_replies;
   recovery_payload_read_failure_keeps_the_claim;
   invalid_ready_queue_keeps_recovery_claims;
   competing_recovery_processes_do_not_duplicate_claims;
   recovery_snapshot_survives_concurrent_claim_removal;
   recovery_removes_missing_and_non_resurrectable_jobs;
   acknowledgments_survive_rejected_commands_and_lost_replies;
   invalid_acknowledgment_key_does_not_delete_payloads;
   transfers_ignore_payloads_replaced_after_the_snapshot;
   scheduled_missing_payload_is_cleaned_without_an_empty_job].
Proof. all_pass. Qed.
