(* ===== verification/StorageTests.v ===== *)
(** * The tests of the storage ([mod tests] of storage_internal.rs)

    Jobs, latency, recovery, cleanup, queue configuration, dead letters and
    batches, each test under its name; see TestKit. Those about statistics are in
    StatsTests. Left out are [claimed_payload_read_retries_pool_saturation] (a
    saturated pool), and [polling_waits_before_each_operation_and_finishes_in_flight_work]
    and [polling_cancels_while_waiting_without_starting_an_operation] (timers). *)
From Stdlib Require Import QArith.
From S2P Require Import Prelude Errors Redis Envelope Codec Queue Keys Storage Enqueue Resilience Recovery Cron Api TestKit.
Open Scope list_scope.
Open Scope nat_scope.
Open Scope test_scope.

(** [TestJob {}]. *)
Definition TestJob : Job := default_job "TestJob" (Ok (VObject [])).

(** [DEAD_PROCESS_THRESHOLD], in milliseconds. *)
Definition DEAD_PROCESS_THRESHOLD : Z := 5000.

Definition expire_heartbeat (storage : StorageInternal) : test unit :=
  redis (ZADD (processes (skeys storage)) (now_ms - DEAD_PROCESS_THRESHOLD - 1000) (own_process_id storage)).

Definition enqueue_job (storage : StorageInternal) (e : JobEnvelope) : test unit :=
  await (enqueue storage 1 e) ;;; tret tt.
Definition assert_count (p : rprog nat) (n : nat) : test unit := count <- await p ;; assert_eq count n.
Definition assert_dequeues (storage : StorageInternal) (q : string) (e : JobEnvelope) : test unit :=
  claimed <- await (dequeue storage q) ;; assert_eq claimed (Some (id e)).
Definition assert_processing (storage : StorageInternal) (ids : list JobId) : test unit :=
  claimed <- await (currently_processing_job_ids storage) ;; assert_eq claimed ids.
Definition assert_exists (storage : StorageInternal) (e : JobEnvelope) (expected : bool) : test unit :=
  found <- await (get_job storage (id e)) ;; assert_eq (bool_decide (is_Some found)) expected.
Definition with_times (created scheduled : Z) (e : JobEnvelope) : JobEnvelope :=
  map_meta (fun m => set_scheduled_at scheduled (set_created_at created m)) e.
Definition days (n : Z) : Z := n * 86400 * 1000000.

Definition malformed_retry_or_dead_destination_preserves_payload_and_claim : test unit :=
  for_each [false; true] (fun terminal =>
    storage <- random_storage ;;
    q <- random_string ;;
    j <- envelope_new q TestJob ;;
    enqueue_job storage j ;;;
    assert_dequeues storage q j ;;;
    redis_set (if terminal then dead (skeys storage) else retry (skeys storage)) "wrong type" ;;;
    fails (if terminal then kill storage j "failed" else retry_in storage (id j) 0 "failed" now) ;;;
    found <- await (get_job storage (id j)) ;; e <- unwrap found ;;
    assert_eq (retries (meta e)) 0%Z ;;;
    claimed <- redis (LRANGE (current_processing_queue storage) 0 (-1)) ;;
    assert_eq claimed [id j]).

Definition claimed_payload_read_does_not_retry_corrupt_json : test unit :=
  storage <- random_storage ;;
  job_id <- random_string ;;
  redis (HSET (jobs (skeys storage)) job_id "invalid json") ;;;
  r <- result_of (get_claimed_job storage job_id (replicate 10 true)) ;;
  assert (match r with Err (JsonError _) => true | _ => false end).

(** The calls are counted in Redis; the token is never cancelled before the loop stops. *)
Definition polling_shares_failure_tracking_and_resets_it_after_success : test unit :=
  let failure := @Err OxanaError unit (GenericError "redis failure") in
  let '(first, failures) := track_redis_result failure 2 0 in
  tracked <- ok first ;; assert_eq tracked None ;;;
  let tick (success : bool) := (_ <-? call (RPUSH "calls" ["call"]) ;; lift (if success then Ok tt else failure))%prog in
  r <- result_of (poll_redis 2 (replicate 9 (tick false)) failures) ;;
  let '(answer, failures) := r in
  assert (negb (is_ok answer)) ;;;
  calls <- redis (LLEN "calls") ;; assert_eq calls 1%nat ;;;
  redis (DEL "calls") ;;;
  r <- result_of (poll_redis 2 (tick <$> ([true; false; true; false; false] ++ replicate 9 true)) failures) ;;
  assert (negb (is_ok r.1)) ;;;
  calls <- redis (LLEN "calls") ;; assert_eq calls 5%nat.

Definition unique_cron_skips_an_observed_occurrence_if_it_vanishes_after_due : test unit :=
  let is_action (a b : UniqueCronAction) :=
    match a, b with CronEnqueue, CronEnqueue | CronWait, CronWait | CronSkip, CronSkip => true | _, _ => false end in
  assert (is_action (unique_cron_action true false 2000 1000) CronWait) ;;;
  assert (is_action (unique_cron_action true true 2000 2000) CronSkip) ;;;
  assert (is_action (unique_cron_action false false 2000 1000) CronEnqueue) ;;;
  assert (is_action (unique_cron_action false true 2000 2000) CronSkip).

Definition enqueue_list_chunks_batches_by_one_hundred : test unit :=
  q <- random_string ;;
  envelopes <- map_each (fun _ => envelope_new q TestJob) (seq 0 (ENQUEUE_LIST_CHUNK_SIZE * 2 + 1)) ;;
  assert_eq ENQUEUE_LIST_CHUNK_SIZE 100%nat ;;;
  assert_eq (length <$> enqueue_list_chunks envelopes) [100; 100; 1]%nat.

Definition redis_failure_tolerance_controls_escalation : test unit :=
  let transient := @Err OxanaError unit (GenericError "transient") in
  let '(first, failures) := track_redis_result transient 2 0 in
  tracked <- ok first ;; assert_eq tracked None ;;;
  assert (negb (is_ok (track_redis_result transient 2 failures).1)).

Definition test_ping : test unit :=
  storage <- random_storage ;;
  await (ping storage now_ms now_secs) ;;;
  found <- await (processes_alive storage DEAD_PROCESS_THRESHOLD now_ms) ;;
  assert_eq (length found) 1%nat ;;;
  process <- unwrap (head found) ;;
  assert_eq (process_id process) (own_process_id storage) ;;;
  assert_eq (hostname process) (storage_hostname storage) ;;;
  assert_eq (pid process) (storage_pid storage) ;;;
  assert (bool_decide (now_secs - 3 < heartbeat_at process)%Z).

(** [assert_latency_micros_in_measurement_window], [assert_latency_ms_in_measurement_window], with
    no time between the readings. *)
Definition assert_latency_micros (storage : StorageInternal) (q : string) (at_micros : Z) : test unit :=
  latency <- await (latency_micros storage q now) ;; assert_eq latency (now - at_micros)%Z.
Definition assert_latency_ms (storage : StorageInternal) (q : string) (at_micros : Z) : test unit :=
  latency <- await (api_latency_ms (storage_handle storage) q now) ;; assert (Qeq_bool latency ((now - at_micros) # 1000)).

Definition test_latency : test unit :=
  storage <- random_storage ;;
  q <- random_string ;;
  e <- envelope_new q TestJob ;;
  let past := (now - 7777 * 1000)%Z in
  enqueue_job storage (with_times past past e) ;;;
  assert_latency_ms storage q past.

Definition test_latency_multiple_jobs : test unit :=
  storage <- random_storage ;;
  q <- random_string ;;
  latency <- await (api_latency_ms (storage_handle storage) q now) ;; assert (Qeq_bool latency 0) ;;;
  latency <- await (latency_micros storage q now) ;; assert_eq latency 0%Z ;;;
  e <- envelope_new q TestJob ;;
  let past := (now - 7777 * 1000)%Z in
  enqueue_job storage (with_times past past e) ;;;
  assert_latency_ms storage q past ;;;
  assert_latency_micros storage q past ;;;
  e2 <- envelope_new q TestJob ;;
  let past2 := (now - 5000 * 1000)%Z in
  enqueue_job storage (with_times past2 past2 e2) ;;;
  assert_latency_ms storage q past ;;;
  assert_latency_micros storage q past.

Definition sweep (storage : StorageInternal) : rprog nat := cleanup storage 10 now_secs.

Definition test_cleanup : test unit :=
  storage <- random_storage ;;
  q <- random_string ;;
  let old := ((now_secs - JOB_EXPIRE_TIME - 1) * 1000000)%Z in
  e1 <- envelope_new q TestJob ;; let expired1 := with_times old old e1 in
  e2 <- envelope_new q TestJob ;; let expired2 := with_times old 0 e2 in
  active <- envelope_new q TestJob ;;
  for_each [expired1; expired2; active] (enqueue_job storage) ;;;
  for_each [expired1; expired2; active] (fun e => assert_exists storage e true) ;;;
  assert_count (sweep storage) 2 ;;;
  assert_exists storage expired1 false ;;;
  assert_exists storage expired2 false ;;;
  assert_exists storage active true.

Definition test_cleanup_preserves_future_scheduled_job_until_due : test unit :=
  storage <- random_storage ;;
  q <- random_string ;;
  let created := (now - days 8)%Z in
  uuid <- random_string ;;
  e <- ok (new_scheduled q TestJob (created + days 10) uuid now now now) ;;
  let envelope := map_meta (set_created_at created) e in
  await (enqueue_at storage 1 envelope now) ;;;
  assert_count (sweep storage) 0 ;;;
  assert_exists storage envelope true ;;;
  assert_count (scheduled_count storage) 1 ;;;
  assert_count (enqueue_scheduled storage (schedule (skeys storage)) now) 0 ;;;
  let envelope := map_meta (set_scheduled_at (now - 1000000)) envelope in
  await (update_jobs storage [envelope]) ;;;
  redis (ZADD (schedule (skeys storage)) (scheduled_at (meta envelope)) (id envelope)) ;;;
  assert_count (sweep storage) 0 ;;;
  assert_count (enqueue_scheduled storage (schedule (skeys storage)) now) 1 ;;;
  assert_count (scheduled_count storage) 0 ;;;
  assert_count (sweep storage) 0 ;;;
  assert_dequeues storage q envelope ;;;
  assert_exists storage envelope true ;;;
  await (finish_with_success storage envelope).

Definition test_cleanup_uses_later_creation_or_scheduled_time : test unit :=
  storage <- random_storage ;;
  q <- random_string ;;
  for_each [(10, 6, false); (6, 10, false); (10, 8, true)]%Z (fun c =>
    let '(created_days_ago, scheduled_days_ago, should_expire) := c in
    e <- envelope_new q TestJob ;;
    let envelope := with_times (now - days created_days_ago) (now - days scheduled_days_ago) e in
    enqueue_job storage envelope ;;;
    assert_count (sweep storage) (usize_from should_expire) ;;;
    assert_exists storage envelope (negb should_expire)).

Definition test_cleanup_empty : test unit := storage <- random_storage ;; assert_count (sweep storage) 0.

(** Claimed, then swept: the job waits again and is not claimed. *)
Definition assert_resurrected (storage : StorageInternal) (q : string) (sweep : rprog unit) : test unit :=
  await sweep ;;;
  assert_count (enqueued_count storage q) 1 ;;;
  assert_processing storage [].
Definition enqueue_and_claim (storage : StorageInternal) (q : string) (e : JobEnvelope) : test unit :=
  enqueue_job storage e ;;;
  assert_count (enqueued_count storage q) 1 ;;;
  assert_processing storage [] ;;;
  assert_dequeues storage q e ;;;
  assert_count (enqueued_count storage q) 0 ;;;
  assert_processing storage [id e].
Definition resurrect_now (storage : StorageInternal) : rprog unit := resurrect_dead storage DEAD_PROCESS_THRESHOLD now_ms.

Definition test_resurrect : test unit :=
  storage <- random_storage ;;
  q <- random_string ;;
  envelope <- envelope_new q TestJob ;;
  enqueue_and_claim storage q envelope ;;;
  expire_heartbeat storage ;;;
  assert_resurrected storage q (resurrect_now storage).

Definition test_resurrect_unique_job : test unit :=
  storage <- random_storage ;;
  q <- random_string ;;
  cron <- ok (new_cron q "CronWorker-1234567890" TestJob 1234567890 true now) ;;
  let envelope := cron.1 in
  assert (unique (meta envelope)) ;;;
  assert_eq (on_conflict (meta envelope)) (Some Skip) ;;;
  enqueue_job storage envelope ;;;
  assert_count (enqueued_count storage q) 1 ;;;
  assert_processing storage [] ;;;
  assert_exists storage envelope true ;;;
  assert_dequeues storage q envelope ;;;
  assert_count (enqueued_count storage q) 0 ;;;
  assert_processing storage [id envelope] ;;;
  expire_heartbeat storage ;;;
  assert_resurrected storage q (resurrect_now storage) ;;;
  assert_exists storage envelope true.

Definition test_resurrect_when_process_is_missing : test unit :=
  storage <- random_storage ;;
  q <- random_string ;;
  envelope <- envelope_new q TestJob ;;
  enqueue_and_claim storage q envelope ;;;
  assert_resurrected storage q (resurrect_now storage).

Definition test_resurrect_after_restart_with_same_hostname_and_pid : test unit :=
  ns <- random_string ;;
  crashed <- storage_of ns ;;
  q <- random_string ;;
  envelope <- envelope_new q TestJob ;;
  enqueue_job crashed envelope ;;;
  assert_dequeues crashed q envelope ;;;
  expire_heartbeat crashed ;;;
  restarted <- storage_of ns ;;
  await (ping restarted now_ms now_secs) ;;;
  await (resurrect_now restarted) ;;;
  assert_count (enqueued_count restarted q) 1 ;;;
  assert_processing crashed [].

Definition test_a_process_registered_after_the_scan_is_not_dead : test unit :=
  ns <- random_string ;;
  peer <- storage_of ns ;;
  q <- random_string ;;
  envelope <- envelope_new q TestJob ;;
  enqueue_job peer envelope ;;;
  started <- storage_of ns ;;
  assert_dequeues started q envelope ;;;
  let scanned := {[ current_processing_queue started ]} : gset string in
  await (ping started now_ms now_secs) ;;;
  dead <- await (_ <-? connection ;; dead_process_ids_in peer scanned DEAD_PROCESS_THRESHOLD now_ms)%prog ;;
  assert (bool_decide (own_process_id started ∉ dead)).

Definition test_queue_discovery_only_returns_queue_keys : test unit :=
  storage <- random_storage ;;
  let ks := skeys storage in
  let queue_a := namespace_queue ks "prefix-a" in
  let queue_b := namespace_queue ks "prefix#fast" in
  let queue_c := namespace_queue ks "other" in
  redis (LPUSH queue_a "job-a") ;;;
  redis (LPUSH queue_b "job-b") ;;;
  redis (LPUSH queue_c "job-c") ;;;
  redis_set (namespace ks +:+ ":misc") "not-a-queue" ;;;
  redis (HSET (jobs ks) "job-1" "payload") ;;;
  queue_keys <- await (_ <-? connection ;; scan_keys_w_conn (namespace_queue ks "prefix*"))%prog ;;
  assert (bool_decide (queue_keys = {[queue_a; queue_b]})) ;;;
  queues <- await (queues storage "*") ;;
  assert_eq (length queues) 3 ;;;
  assert (bool_decide (list_to_set queues = ({["other"; "prefix#fast"; "prefix-a"]} : gset string))).

Definition test_queue_config_defaults_and_updates : test unit :=
  storage <- random_storage ;;
  q <- random_string ;;
  let default_config := new_runtime_config 3 in
  config <- await (queue_config_or_default storage q default_config) ;;
  assert_eq config default_config ;;;
  stored <- await (queue_config storage q) ;; assert_eq stored None ;;;
  configs <- await (queue_configs_of storage [q]) ;; assert (bool_decide (configs = ∅)) ;;;
  changed <- await (queue_config_or_default storage q (new_runtime_config 5)) ;;
  assert_eq changed {| rt_concurrency := Some 5; rt_state := Active |} ;;;
  stored <- await (queue_config storage q) ;; assert_eq stored None ;;;
  await (set_queue_config storage q (new_runtime_config 7)) ;;;
  await (set_queue_state storage q Paused) ;;;
  stored <- await (queue_config storage q) ;;
  assert_eq stored (Some {| rt_concurrency := Some 7; rt_state := Paused |}) ;;;
  preserved <- await (queue_config_or_default storage q (new_runtime_config 1)) ;;
  assert_eq preserved {| rt_concurrency := Some 7; rt_state := Paused |} ;;;
  configs <- await (queue_configs_of storage [q]) ;; assert_eq (configs !! q) (Some preserved) ;;;
  await (reset_queue_config storage q) ;;;
  stored <- await (queue_config storage q) ;; assert_eq stored None.

Definition test_queue_state_update_without_config_does_not_store_concurrency : test unit :=
  storage <- random_storage ;;
  q <- random_string ;;
  await (set_queue_state storage q Paused) ;;;
  stored <- await (queue_config storage q) ;;
  assert_eq stored (Some {| rt_concurrency := None; rt_state := Paused |}) ;;;
  runtime_config <- await (queue_config_or_default storage q (new_runtime_config 4)) ;;
  assert_eq runtime_config {| rt_concurrency := Some 4; rt_state := Paused |} ;;;
  stored <- await (queue_config storage q) ;;
  assert_eq stored (Some {| rt_concurrency := None; rt_state := Paused |}).

(** Three jobs of one queue, enqueued. *)
Definition three_enqueued : test (StorageInternal * string * list JobEnvelope) :=
  storage <- random_storage ;;
  q <- random_string ;;
  envelopes <- map_each (fun _ => envelope_new q TestJob) (seq 0 3) ;;
  for_each envelopes (enqueue_job storage) ;;;
  tret (storage, q, envelopes).

Definition test_get_many_with_missing_jobs : test unit :=
  f <- three_enqueued ;; let '(storage, q, envelopes) := f in
  envelope2 <- unwrap (envelopes !! 1) ;;
  await (delete_job storage (id envelope2)) ;;;
  found <- await (get_many storage (id <$> envelopes)) ;;
  assert_eq (length found) 2 ;;;
  for_each envelopes (fun e =>
    assert_eq (bool_decide (id e ∈ id <$> found)) (negb (bool_decide (e = envelope2)))).

Definition test_delete_job_cleans_up_corrupt_job_memberships : test unit :=
  storage <- random_storage ;;
  q <- random_string ;;
  envelope <- envelope_new q TestJob ;;
  let job_id := id envelope in
  enqueue_job storage envelope ;;;
  redis (HSET (jobs (skeys storage)) job_id "{invalid json") ;;;
  redis (ZADD (schedule (skeys storage)) 1 job_id) ;;;
  redis (ZADD (retry (skeys storage)) 1 job_id) ;;;
  redis (LPUSH (current_processing_queue storage) job_id) ;;;
  await (delete_job storage job_id) ;;;
  payload_exists <- redis (HEXISTS (jobs (skeys storage)) job_id) ;; assert (negb payload_exists) ;;;
  assert_count (enqueued_count storage q) 0 ;;;
  assert_count (scheduled_count storage) 0 ;;;
  assert_count (retries_count storage) 0 ;;;
  assert_processing storage [].

Definition test_list_queue_jobs : test unit :=
  f <- three_enqueued ;; let '(storage, q, envelopes) := f in
  for_each [(10, 0, 3); (2, 0, 2); (10, 1, 2); (10, 5, 0)]%Z (fun c =>
    let '(count, offset, expected) := c in
    listed <- await (list_queue_jobs storage q {| opt_count := count; opt_offset := offset |}) ;;
    assert_eq (Z.of_nat (length listed)) expected).

(** Two new jobs of one queue. *)
Definition two_jobs : test (StorageInternal * string * JobEnvelope * JobEnvelope) :=
  storage <- random_storage ;;
  q <- random_string ;;
  envelope1 <- envelope_new q TestJob ;;
  envelope2 <- envelope_new q TestJob ;;
  tret (storage, q, envelope1, envelope2).

Definition test_wipe_queue : test unit :=
  f <- two_jobs ;; let '(storage, q, envelope1, envelope2) := f in
  for_each [envelope1; envelope2] (enqueue_job storage) ;;;
  assert_count (enqueued_count storage q) 2 ;;;
  for_each [envelope1; envelope2] (fun e => assert_exists storage e true) ;;;
  await (wipe_queue storage q) ;;;
  assert_count (enqueued_count storage q) 0 ;;;
  for_each [envelope1; envelope2] (fun e => assert_exists storage e false).

Definition test_wipe_dead : test unit :=
  f <- two_jobs ;; let '(storage, q, envelope1, envelope2) := f in
  await (kill storage envelope1 "first failed") ;;;
  await (kill storage envelope2 "second failed") ;;;
  assert_count (dead_count storage) 2 ;;;
  await (wipe_dead storage) ;;;
  assert_count (dead_count storage) 0 ;;;
  listed <- await (list_dead storage {| opt_count := 10; opt_offset := 0 |}) ;;
  assert_eq listed [].

Definition test_revive_all_dead : test unit :=
  f <- two_jobs ;; let '(storage, q, envelope1, envelope2) := f in
  await (kill storage envelope1 "first failed") ;;;
  await (kill storage envelope2 "second failed") ;;;
  assert_count (dead_count storage) 2 ;;;
  assert_count (enqueued_count storage q) 0 ;;;
  uuid <- random_string ;;
  assert_count (revive_all_dead storage (enqueue storage 1) uuid) 2 ;;;
  assert_count (dead_count storage) 0 ;;;
  assert_count (enqueued_count storage q) 2 ;;;
  for_each [envelope1; envelope2] (fun e => assert_exists storage e true).

Definition test_restore_claimed_dead_entries_skips_already_revived_entries : test unit :=
  storage <- random_storage ;;
  q <- random_string ;; revived <- envelope_new q TestJob ;;
  q' <- random_string ;; remaining <- envelope_new q' TestJob ;;
  revived_entry <- ok (print_job revived) ;;
  remaining_entry <- ok (print_job remaining) ;;
  uuid <- random_string ;;
  let claim_key := reviving_key storage uuid in
  redis (RPUSH claim_key [revived_entry; remaining_entry]) ;;;
  await (restore_claimed_dead_entries storage claim_key [remaining_entry]) ;;;
  claim_exists <- redis (EXISTS claim_key) ;; assert (negb claim_exists) ;;;
  restored <- redis (LRANGE (dead (skeys storage)) 0 (-1)) ;;
  assert_eq restored [remaining_entry] ;;;
  assert (bool_decide (revived_entry ∉ restored)).

Definition test_retry_all_now_enqueues_all_pending_retries : test unit :=
  f <- two_jobs ;; let '(storage, q, envelope1, envelope2) := f in
  for_each [envelope1; envelope2] (enqueue_job storage) ;;;
  for_each [envelope1; envelope2] (assert_dequeues storage q) ;;;
  await (retry_in storage (id envelope1) 3600 "first failed" now) ;;;
  await (retry_in storage (id envelope2) 3600 "second failed" now) ;;;
  assert_count (retries_count storage) 2 ;;;
  assert_count (enqueued_count storage q) 0 ;;;
  assert_count (retry_all_now storage) 2 ;;;
  assert_count (retries_count storage) 0 ;;;
  assert_count (enqueued_count storage q) 2.

Definition test_set_started_at_batch : test unit :=
  f <- two_jobs ;; let '(storage, q, envelope1, envelope2) := f in
  for_each [envelope1; envelope2] (fun e => assert_eq (started_at (meta e)) None ;;; enqueue_job storage e) ;;;
  started <- result_of (set_started_at_batch storage now [envelope1; envelope2]) ;;
  ok started.2 ;;;
  for_each started.1 (fun e =>
    assert_eq (started_at (meta e)) (Some now) ;;;
    found <- await (get_job storage (id e)) ;; persisted <- unwrap found ;;
    assert_eq (started_at (meta persisted)) (Some now)).

Definition test_finish_with_success_batch : test unit :=
  f <- two_jobs ;; let '(storage, q, envelope1, envelope2) := f in
  for_each [envelope1; envelope2] (enqueue_job storage) ;;;
  for_each [envelope1; envelope2] (assert_dequeues storage q) ;;;
  processing_before <- redis (LRANGE (current_processing_queue storage) 0 (-1)) ;;
  assert_eq (length processing_before) 2 ;;;
  await (finish_with_success_batch storage [envelope1; envelope2]) ;;;
  for_each [envelope1; envelope2] (fun e => assert_exists storage e false) ;;;
  assert_count (enqueued_count storage q) 0 ;;;
  assert_count (jobs_count storage) 0 ;;;
  processing_after <- redis (LRANGE (current_processing_queue storage) 0 (-1)) ;;
  assert_eq processing_after [].

(** The envelope literal of the tests below. *)
Definition my_args : Value := VObject [("key", VStr "value")].
Definition my_envelope (i q : string) (is_unique : bool) (conflict : option JobConflictStrategy) : JobEnvelope :=
  {| id := i; queue := q; job := {| name := "MyWorker"; args := my_args |};
     meta := {| meta_id := i; on_demand := None; retries := 0; unique := is_unique; on_conflict := conflict;
                created_at := now; scheduled_at := now; started_at := None; state := None; resurrect := true;
                error := None; throttle_cost := None |} |}.

Definition assert_my_job (storage : StorageInternal) (i q : string) : test JobEnvelope :=
  found <- await (get_job storage i) ;; e <- unwrap found ;;
  assert_eq (queue e) q ;;;
  assert_eq (name (job e)) "MyWorker" ;;;
  assert_eq (args (job e)) my_args ;;;
  assert_eq (retries (meta e)) 0%Z ;;;
  assert_eq (error (meta e)) None ;;;
  tret e.

Definition test_enqueue_envelope : test unit :=
  storage <- random_storage ;;
  q <- random_string ;; i <- random_string ;;
  returned_id <- await (enqueue storage 1 (my_envelope i q false None)) ;;
  assert_eq returned_id i ;;;
  assert_count (enqueued_count storage q) 1 ;;;
  assert_my_job storage i q ;;; tret tt.

(** The random delay is one of these. *)
Definition test_enqueue_in_envelope : test unit :=
  for_each [1; 60; 3599]%Z (fun delay_s =>
    storage <- random_storage ;;
    q <- random_string ;; i <- random_string ;;
    returned_id <- await (enqueue_in storage 1 (my_envelope i q false None) delay_s now now now) ;;
    assert_eq returned_id i ;;;
    assert_count (enqueued_count storage q) 0 ;;;
    assert_count (scheduled_count storage) 1 ;;;
    e <- assert_my_job storage i q ;;
    assert_eq (scheduled_at (meta e)) (now + delay_s * 1000000)%Z).

Definition UniqueTestJob : Job :=
  {| job_name := "UniqueTestJob"; job_value := Ok VNull; job_unique_id := Some "singleton"; job_on_conflict := Skip;
     job_should_resurrect := true; job_should_resume := true; job_throttle_cost := None;
     job_on_demand_args_template := None |}.
Definition first_at : Z := now + 60 * 1000000.
Definition second_at : Z := first_at + 60 * 1000000.

Definition test_enqueue_at_unique_skip_keeps_existing_occurrence : test unit :=
  storage <- random_storage ;;
  q <- random_string ;;
  envelope <- envelope_new q UniqueTestJob ;;
  await (enqueue_at storage 1 (with_scheduled_at first_at now envelope) now) ;;;
  await (enqueue_at storage 1 (with_scheduled_at second_at now envelope) now) ;;;
  assert_count (scheduled_count storage) 1 ;;;
  found <- await (get_job storage (id envelope)) ;; e <- unwrap found ;;
  assert_eq (scheduled_at (meta e)) first_at.

Definition test_enqueue_at_unique_replace_envelope : test unit :=
  storage <- random_storage ;;
  q <- random_string ;; i <- random_string ;;
  let envelope := my_envelope i q true (Some Replace) in
  await (enqueue_at storage 1 (with_scheduled_at first_at now envelope) now) ;;;
  returned_id <- await (enqueue_at storage 1 (with_scheduled_at second_at now envelope) now) ;;
  assert_eq returned_id i ;;;
  assert_count (scheduled_count storage) 1 ;;;
  assert_count (enqueued_count storage q) 0 ;;;
  found <- await (get_job storage i) ;; e <- unwrap found ;;
  assert_eq (scheduled_at (meta e)) second_at.

Definition test_envelope_new_scheduled : test unit :=
  for_each [1; 60; 3599]%Z (fun delay_s =>
    q <- random_string ;; uuid <- random_string ;;
    let at_micros := (now + delay_s * 1000000)%Z in
    envelope <- ok (new_scheduled q TestJob at_micros uuid now now now) ;;
    assert_eq (scheduled_at (meta envelope)) at_micros).

Lemma storage_tests_pass : Forall (fun t => passes t = true)
  [malformed_retry_or_dead_destination_preserves_payload_and_claim;
   claimed_payload_read_does_not_retry_corrupt_json;
   polling_shares_failure_tracking_and_resets_it_after_success;
   unique_cron_skips_an_observed_occurrence_if_it_vanishes_after_due;
   enqueue_list_chunks_batches_by_one_hundred;
   redis_failure_tolerance_controls_escalation;
   test_ping;
   test_latency;
   test_latency_multiple_jobs;
   test_cleanup;
   test_cleanup_preserves_future_scheduled_job_until_due;
   test_cleanup_uses_later_creation_or_scheduled_time;
   test_cleanup_empty;
   test_resurrect;
   test_resurrect_unique_job;
   test_resurrect_when_process_is_missing;
   test_resurrect_after_restart_with_same_hostname_and_pid;
   test_a_process_registered_after_the_scan_is_not_dead;
   test_queue_discovery_only_returns_queue_keys;
   test_queue_config_defaults_and_updates;
   test_queue_state_update_without_config_does_not_store_concurrency;
   test_get_many_with_missing_jobs;
   test_delete_job_cleans_up_corrupt_job_memberships;
   test_list_queue_jobs;
   test_wipe_queue;
   test_wipe_dead;
   test_revive_all_dead;
   test_restore_claimed_dead_entries_skips_already_revived_entries;
   test_retry_all_now_enqueues_all_pending_retries;
   test_set_started_at_batch;
   test_finish_with_success_batch;
   test_enqueue_envelope;
   test_enqueue_in_envelope;
   test_enqueue_at_unique_skip_keeps_existing_occurrence;
   test_enqueue_at_unique_replace_envelope;
   test_envelope_new_scheduled].
Proof. all_pass. Qed.
