(* ===== verification/StatsTests.v ===== *)
(** * The statistics tests of the storage ([mod tests] of storage_internal.rs)

    The counters, lengths, rates and reports, each test under its name; see TestKit.
    A comparison of floats within a tolerance is one of exact numbers here. *)
From Stdlib Require Import QArith.
From S2P Require Import Prelude Errors Redis Envelope Codec Queue Keys Storage Enqueue.
From S2P Require Import Metrics Stats StatsStorage Recovery TestKit.
Open Scope list_scope.
Open Scope Z_scope.
Open Scope test_scope.

(** [TestJob {}]. *)
Definition TestJob : Job := default_job "TestJob" (Ok (VObject [])).

Definition enqueue_new (storage : StorageInternal) (q : string) : test unit :=
  e <- envelope_new q TestJob ;; await (enqueue storage 1 e) ;;; tret tt.

(** [storage.stats(threshold)], [storage.dashboard_stats(threshold)]; the threshold in seconds. *)
Definition stats_of (storage : StorageInternal) (threshold_s : Z) : rprog StatsReport :=
  stats_report storage (threshold_s * 1000) now_secs now now_ms.
Definition dashboard_of (storage : StorageInternal) (threshold_s : Z) : rprog StatsReport :=
  dashboard_stats storage (threshold_s * 1000) now_secs now now_ms.

(** [stats.queues.iter().find(..).expect(..)], and the same among the sub-queues of one. *)
Definition queue_in (report : StatsReport) (key : string) : test QueueStats :=
  unwrap (List.find (fun v => bool_decide (qst_key v = key)) (st_queues report)).
Definition sub_queue_in (v : QueueStats) (suffix : string) : test DynamicQueueStats :=
  unwrap (List.find (fun d => bool_decide (dq_suffix d = suffix)) (qst_queues v)).

Definition assert_counts (s : QueueResultStats) (processed succeeded panicked failed : Z) : test unit :=
  assert_eq [rs_processed s; rs_succeeded s; rs_panicked s; rs_failed s] [processed; succeeded; panicked; failed].
Definition assert_close (actual expected : Q) : test unit := assert (Qeq_bool actual expected).

Definition test_flush_result_stats_batches_counts : test unit :=
  storage <- random_storage ;;
  static_queue <- random_string ;;
  dynamic_prefix <- random_string ;;
  let dynamic_queue := dynamic_prefix +:+ "#fast" in
  await (flush_result_stats storage
    {[ static_queue := {| rs_processed := 3; rs_succeeded := 1; rs_panicked := 1; rs_failed := 2 |};
       dynamic_queue := {| rs_processed := 2; rs_succeeded := 2; rs_panicked := 0; rs_failed := 0 |} ]}) ;;;
  stats <- await (stats_of storage 5) ;;
  static_stats <- queue_in stats static_queue ;;
  assert_counts (qst_counts static_stats) 3 1 1 2 ;;;
  dynamic_stats <- queue_in stats dynamic_prefix ;;
  assert_counts (qst_counts dynamic_stats) 2 2 0 0 ;;;
  assert_eq (dq_suffix <$> qst_queues dynamic_stats) ["fast"] ;;;
  fast <- sub_queue_in dynamic_stats "fast" ;;
  assert_eq (rs_processed (dq_counts fast)) 2 ;;;
  assert_eq (rs_succeeded (dq_counts fast)) 2.

(** Processes are told apart by their identifiers, so this sorts the triples. *)
Definition by_process (a b : string * string * string) : Prop := String.leb a.1.1 b.1.1 = true.
#[export] Instance by_process_dec : RelDecision by_process.
Proof. intros a b. unfold by_process. apply _. Defined.

(** A process with a missing and a stored claim, for each index. *)
Definition test_stats_batch_processing_with_one_connection : test unit :=
  storage <- random_storage ;;
  let ks := skeys storage in
  expected <- map_each (fun index : nat =>
    let own := current_process now_secs storage in
    let process := {| hostname := hostname own; pid := pid own; instance_id := "process-" +:+ pretty index;
                      heartbeat_at := heartbeat_at own; proc_started_at := proc_started_at own |} in
    let i := process_id process in
    envelope <- envelope_new ("queue-" +:+ pretty index) TestJob ;;
    process_text <- unwrap (res_ok (process_to_string process)) ;;
    envelope_text <- ok (print_job envelope) ;;
    await (pipe [ZADD (processes ks) now_ms i; HSET (processes_data ks) i process_text;
                 HSET (jobs ks) (id envelope) envelope_text;
                 RPUSH (processing_queue ks i) ["missing"; id envelope]]) ;;;
    tret (i, id envelope, queue envelope)) (seq 0 (Datatypes.S STATS_READ_BATCH_SIZE)) ;;
  redis (ZADD (processes ks) now_ms "missing-process") ;;;
  stats <- await (stats_of storage 60) ;;
  assert_eq (length (st_processes stats)) (STATS_READ_BATCH_SIZE + 1)%nat ;;;
  assert_eq (g_jobs (st_global stats)) (STATS_READ_BATCH_SIZE + 1)%nat ;;;
  let actual := (fun p => (sp_process_id p, id (sp_job_envelope p), queue (sp_job_envelope p))) <$> st_processing stats in
  assert_eq (merge_sort by_process actual) (merge_sort by_process expected).

Definition test_stats_batch_queue_heads_and_snapshot_lengths : test unit :=
  storage <- random_storage ;;
  let ks := skeys storage in
  let indices := seq 0 (Datatypes.S STATS_READ_BATCH_SIZE) in
  let key_of (index : nat) := "queue-" +:+ pretty index in
  for_each indices (fun index =>
    match (index mod 3)%nat with
    | 0%nat =>
        e <- envelope_new (key_of index) TestJob ;;
        let envelope := map_meta (set_scheduled_at (now - 60000000)) e in
        text <- ok (print_job envelope) ;;
        await (pipe [HSET (jobs ks) (id envelope) text; RPUSH (namespace_queue ks (key_of index)) [id envelope]])
    | 1%nat => redis (RPUSH (namespace_queue ks (key_of index)) ["missing-job"])
    | _ => tret tt
    end) ;;;
  let snapshots := list_to_map ((fun i => (key_of i, 42)) <$> filter (fun i => Nat.even i = true) indices) : gmap string Z in
  values <- await (queue_lengths_and_latencies storage (key_of <$> indices) snapshots now) ;;
  for_each indices (fun index =>
    value <- unwrap (values !! key_of index) ;;
    assert_eq value.1 (if Nat.even index then 42 else if decide (index mod 3 = 2)%nat then 0 else 1) ;;;
    assert_close value.2 (if decide (index mod 3 = 0)%nat then 60 else 0)) ;;;
  none <- await (queue_lengths_and_latencies storage [] ∅ now) ;;
  assert_eq (size none) 0%nat.

(** What the two reports must agree on. *)
Definition same_counts (a b : StatsReport) : bool :=
  let counts r := (g_enqueued (st_global r), g_jobs (st_global r), g_dead (st_global r), g_scheduled (st_global r),
                   g_retries (st_global r), length (st_processes r)) in
  let lengths r := (fun v => (qst_key v, qst_enqueued v, (fun d => (dq_suffix d, dq_enqueued d)) <$> qst_queues v)) <$> st_queues r in
  bool_decide (counts a = counts b) && bool_decide (lengths a = lengths b)
  && forallb (fun p => Qeq_bool (qst_latency_s p.1) (qst_latency_s p.2)) (zip (st_queues a) (st_queues b)).

Definition test_dashboard_stats_skip_history_and_preserve_counts : test unit :=
  storage <- random_storage ;;
  let ks := skeys storage in
  empty <- await (dashboard_of storage 60) ;;
  assert_eq (length (st_queues empty), length (st_processing empty), length (st_processes empty)) (0, 0, 0)%nat ;;;
  await (ping storage now_ms now_secs) ;;;
  for_each ["static"; "dynamic#a"; "dynamic#b"] (enqueue_new storage) ;;;
  full <- await (stats_of storage 60) ;;
  dashboard <- await (dashboard_of storage 60) ;;
  assert (same_counts full dashboard) ;;;
  for_each (st_queues dashboard) (fun v =>
    assert_eq (window_minutes (qst_rate v)) 0 ;;;
    for_each (qst_queues v) (fun d => assert_eq (window_minutes (dq_rate d)) 0)) ;;;
  (* keys of the wrong type prove that the dashboard never reads the history *)
  for_each (metric_minutes now_secs 10) (fun minute =>
    redis_set (metrics_queue_length_key ks minute) "not-a-hash" ;;;
    redis_set (metrics_queue_counter_key ks minute) "not-a-hash") ;;;
  dashboard <- await (dashboard_of storage 60) ;;
  assert_eq (g_enqueued (st_global dashboard)) 3 ;;;
  fails (stats_of storage 60).

Definition worker_result (k : WorkerResultKind) (q : string) (count : Z) : WorkerResult :=
  {| wr_kind := k; wr_worker_name := "Worker"; wr_queue := q; wr_execution_ms := 10; wr_job_count := count |}.

(** Processed, succeeded, failed, growth and effective drain per minute; no ETA. *)
Definition assert_rates (r : QueueRateStats) (processed succeeded failed growth drain : Q) : test unit :=
  assert_close (processed_per_minute r) processed ;;;
  assert_close (succeeded_per_minute r) succeeded ;;;
  assert_close (failed_per_minute r) failed ;;;
  assert_close (growth_per_minute r) growth ;;;
  assert_close (effective_drain_per_minute r) drain ;;;
  assert (match eta_s r with None => true | Some _ => false end).

Definition test_stats_include_queue_rates_from_historical_counters : test unit :=
  storage <- random_storage ;;
  static_queue <- random_string ;;
  dynamic_prefix <- random_string ;;
  let dynamic_queue_a := dynamic_prefix +:+ "#a" in
  let dynamic_queue_b := dynamic_prefix +:+ "#b" in
  let metrics := foldl (fun b r => buffer_record now_secs r b) empty_buffer
    [worker_result Success static_queue 4; worker_result Failed static_queue 2;
     worker_result Success dynamic_queue_a 4; worker_result Panicked dynamic_queue_b 2] in
  await (flush_job_metrics storage metrics) ;;;
  await (flush_result_stats storage
    {[ static_queue := {| rs_processed := 6; rs_succeeded := 4; rs_panicked := 0; rs_failed := 2 |};
       dynamic_queue_a := {| rs_processed := 4; rs_succeeded := 4; rs_panicked := 0; rs_failed := 0 |};
       dynamic_queue_b := {| rs_processed := 2; rs_succeeded := 0; rs_panicked := 2; rs_failed := 2 |} ]}) ;;;
  repeat_test 3 (enqueue_new storage static_queue) ;;;
  repeat_test 2 (enqueue_new storage dynamic_queue_a) ;;;
  enqueue_new storage dynamic_queue_b ;;;
  stats <- await (stats_of storage 5) ;;
  static_stats <- queue_in stats static_queue ;;
  assert_rates (qst_rate static_stats) (6 # 10) (4 # 10) (2 # 10) (3 # 10) 0 ;;;
  dynamic_stats <- queue_in stats dynamic_prefix ;;
  assert_rates (qst_rate dynamic_stats) (6 # 10) (4 # 10) (2 # 10) (3 # 10) 0 ;;;
  b <- sub_queue_in dynamic_stats "b" ;;
  assert_rates (dq_rate b) (2 # 10) 0 (2 # 10) (1 # 10) 0.

Definition test_refresh_queue_length_stats_reports_llen : test unit :=
  storage <- random_storage ;;
  let ks := skeys storage in
  static_queue <- random_string ;;
  dynamic_prefix <- random_string ;;
  let dynamic_queue := dynamic_prefix +:+ "#fast" in
  repeat_test 2 (enqueue_new storage static_queue) ;;;
  repeat_test 3 (enqueue_new storage dynamic_queue) ;;;
  reported <- await (refresh_queue_length_stats storage [static_queue; dynamic_queue] now_secs) ;;
  assert_eq (reported !! static_queue) (Some 2) ;;;
  assert_eq (reported !! dynamic_queue) (Some 3) ;;;
  static_enqueued <- redis (HGET (stats ks) (static_queue +:+ ":enqueued")) ;;
  assert_eq static_enqueued (Some "2") ;;;
  refreshed_at <- redis (HGET (stats ks) (static_queue +:+ ":enqueued_at")) ;;
  refreshed_at <- unwrap (refreshed_at ≫= z_of_string) ;;
  assert (now_secs - 3 <=? refreshed_at) ;;;
  stats <- await (stats_of storage 5) ;;
  static_stats <- queue_in stats static_queue ;;
  assert_eq (qst_enqueued static_stats) 2 ;;;
  dynamic_stats <- queue_in stats dynamic_prefix ;;
  assert_eq (qst_enqueued dynamic_stats) 3 ;;;
  assert_eq ((fun d => (dq_suffix d, dq_enqueued d)) <$> qst_queues dynamic_stats) [("fast", 3)] ;;;
  lengths <- await (queue_length_metrics storage 2 now_secs) ;;
  for_each [(static_queue, 2); (dynamic_queue, 3)] (fun expected =>
    series <- unwrap (List.find (fun s => bool_decide (qs_queue s = expected.1)) (qls_queues lengths)) ;;
    assert_eq (foldr Z.max 0 (ql_enqueued <$> qs_series series)) expected.2).

(** [:enqueued] and [:enqueued_at] of a queue. *)
Definition write_snapshot (storage : StorageInternal) (q : string) (count refreshed_at : Z) : test unit :=
  redis (HSET (stats (skeys storage)) (q +:+ ":enqueued") (z_to_string count)) ;;;
  redis (HSET (stats (skeys storage)) (q +:+ ":enqueued_at") (z_to_string refreshed_at)).

Definition test_stats_use_fresh_queue_length_snapshots : test unit :=
  storage <- random_storage ;;
  static_queue <- random_string ;;
  dynamic_prefix <- random_string ;;
  write_snapshot storage static_queue 42 now_secs ;;;
  write_snapshot storage (dynamic_prefix +:+ "#a") 3 now_secs ;;;
  write_snapshot storage (dynamic_prefix +:+ "#b") 4 now_secs ;;;
  stats <- await (stats_of storage 5) ;;
  assert_eq (g_enqueued (st_global stats)) 49 ;;;
  static_stats <- queue_in stats static_queue ;;
  assert_eq (qst_enqueued static_stats) 42 ;;;
  dynamic_stats <- queue_in stats dynamic_prefix ;;
  assert_eq (qst_enqueued dynamic_stats) 7 ;;;
  assert_eq ((fun d => (dq_suffix d, dq_enqueued d)) <$> qst_queues dynamic_stats) [("a", 3); ("b", 4)].

Definition test_stats_ignore_zero_queue_length_snapshots_without_other_stats : test unit :=
  storage <- random_storage ;;
  static_queue <- random_string ;;
  dynamic_prefix <- random_string ;;
  write_snapshot storage static_queue 0 now_secs ;;;
  write_snapshot storage (dynamic_prefix +:+ "#empty") 0 now_secs ;;;
  stats <- await (stats_of storage 5) ;;
  assert_eq (g_enqueued (st_global stats)) 0 ;;;
  assert (bool_decide (static_queue ∉ qst_key <$> st_queues stats)) ;;;
  assert (bool_decide (dynamic_prefix ∉ qst_key <$> st_queues stats)).

Definition test_stats_use_live_llen_when_queue_length_snapshot_is_stale : test unit :=
  storage <- random_storage ;;
  q <- random_string ;;
  repeat_test 2 (enqueue_new storage q) ;;;
  write_snapshot storage q 42 (now_secs - QUEUE_LENGTH_SNAPSHOT_TTL_SECS - 1) ;;;
  stats <- await (stats_of storage 5) ;;
  queue_stats <- queue_in stats q ;;
  assert_eq (qst_enqueued queue_stats) 2.

Lemma stats_tests_pass : Forall (fun t => passes t = true)
  [test_flush_result_stats_batches_counts;
   test_stats_batch_processing_with_one_connection;
   test_stats_batch_queue_heads_and_snapshot_lengths;
   test_dashboard_stats_skip_history_and_preserve_counts;
   test_stats_include_queue_rates_from_historical_counters;
   test_refresh_queue_length_stats_reports_llen;
   test_stats_use_fresh_queue_length_snapshots;
   test_stats_ignore_zero_queue_length_snapshots_without_other_stats;
   test_stats_use_live_llen_when_queue_length_snapshot_is_stale].
Proof. all_pass. Qed.
