(* ===== verification/WebTests.v ===== *)
(** * The tests of the dashboard ([mod tests] of oxana-web's handlers.rs, filters.rs, pagination.rs,
    and the three test modules of templates.rs)

    Each test under its name; see TestKit. Left out are those about rendered HTML
    and about axum's routes. [serde_json] and the percent-encoding are instances
    that know what the tests use. *)
From Stdlib Require Import QArith.
From S2P Require Import Prelude Errors Redis Envelope Codec Queue Keys Storage Enqueue Metrics Stats Recovery JobState.
From S2P Require Import Registry Api Sorting WebConfig WebTree WebJobs WebQueues WebMetrics WebFormat TestKit.
From S2P Require Import StatsStorage.
Open Scope list_scope.
Open Scope Z_scope.
Open Scope test_scope.

Definition num (n : Z) : Value := VNumber (NumInt n).
Definition assert_none {A} (o : option A) : test unit := assert (match o with None => true | Some _ => false end).
Definition assert_close (actual expected : Q) : test unit := assert (Qeq_bool actual expected).

(** ** Queues ([handlers.rs]) *)

Definition queue_with_eta (key : string) (e : option Q) : QueueStats :=
  {| qst_key := key; qst_enqueued := 0; qst_counts := empty_result_stats; qst_latency_s := 0;
     qst_rate := {| window_minutes := 0; processed_per_minute := 0; succeeded_per_minute := 0; failed_per_minute := 0;
                    growth_per_minute := 0; effective_drain_per_minute := 0; eta_s := e |};
     qst_queues := [] |}.
Definition with_enqueued (n : Z) (q : QueueStats) : QueueStats :=
  {| qst_key := qst_key q; qst_enqueued := n; qst_counts := qst_counts q; qst_latency_s := qst_latency_s q;
     qst_rate := qst_rate q; qst_queues := qst_queues q |}.

Definition queues_default_sort_is_enqueued_descending : test unit :=
  let queues := [with_enqueued 2 (queue_with_eta "lightly-loaded" None); with_enqueued 20 (queue_with_eta "beta" None);
                 with_enqueued 20 (queue_with_eta "alpha" None)] in
  let '(queues, order) := sort_queues_for_params queues ∅ {| qp_sort := None; qp_dir := None; qp_minutes := None |} in
  assert_eq order ("enqueued", "desc") ;;;
  assert_eq (qst_key <$> queues) ["alpha"; "beta"; "lightly-loaded"].

Definition explicit_queue_sort_without_direction_remains_ascending : test unit :=
  let queues := [queue_with_eta "beta" None; queue_with_eta "alpha" None] in
  let '(queues, order) := sort_queues_for_params queues ∅ {| qp_sort := Some "key"; qp_dir := None; qp_minutes := None |} in
  assert_eq order ("key", "asc") ;;;
  assert_eq (qst_key <$> queues) ["alpha"; "beta"].

Definition stats_with_queues (queues : list QueueStats) : StatsReport :=
  {| st_global := {| g_jobs := 0; g_enqueued := 0; g_processed := 0; g_failed := 0; g_dead := 0; g_scheduled := 0;
                     g_retries := 0; g_latency_s_max := 0 |};
     st_processing := []; st_processes := []; st_queues := queues |}.

Definition queue_info (key : string) (dynamic : bool) : QueueInfo :=
  {| qi_key := key; qi_dynamic := dynamic; qi_concurrency := 1; qi_dynamic_concurrency := false; qi_throttle := None |}.
Definition dynamic_tenant (concurrency : nat) : QueueInfo :=
  {| qi_key := "tenant"; qi_dynamic := true; qi_concurrency := concurrency; qi_dynamic_concurrency := true;
     qi_throttle := None |}.
Definition catalog_of (queues : list QueueInfo) : Catalog (Schedule := string) :=
  {| cat_workers := []; cat_cron_workers := []; cat_queues := queues; cat_on_demand := [] |}.

(** The dashboard of a catalog. *)
Definition web_state (catalog : Catalog (Schedule := string)) : test (OxanaWebState string) :=
  storage <- random_storage ;;
  tret {| web_storage := storage_handle storage; web_catalog := catalog; web_base_path := "/admin" |}.

Definition dynamic_parent_queue_detail_redirect_only_applies_to_parent : test unit :=
  state <- web_state (catalog_of [queue_info "default" false; queue_info "tenant" true]) ;;
  assert (is_dynamic_parent_queue state "tenant") ;;;
  assert (negb (is_dynamic_parent_queue state "tenant#acme")) ;;;
  assert (negb (is_dynamic_parent_queue state "default")).

Definition queue_detail_queue_stats_uses_live_enqueued_for_static_queue : test unit :=
  let queue := {| qst_key := "default"; qst_enqueued := 42;
                  qst_counts := {| rs_processed := 7; rs_succeeded := 0; rs_panicked := 0; rs_failed := 0 |};
                  qst_latency_s := 0;
                  qst_rate := {| window_minutes := 0; processed_per_minute := 0; succeeded_per_minute := 0;
                                 failed_per_minute := 0; growth_per_minute := 0; effective_drain_per_minute := 2;
                                 eta_s := Some 1260%Q |};
                  qst_queues := [] |} in
  detail <- unwrap (queue_detail_queue_stats (stats_with_queues [queue]) "default" 2) ;;
  assert_eq (qst_key detail) "default" ;;;
  assert_eq (qst_enqueued detail) 2 ;;;
  assert_eq (rs_processed (qst_counts detail)) 7 ;;;
  e <- unwrap (eta_s (qst_rate detail)) ;; assert_close e 60.

Definition queue_detail_queue_stats_uses_live_enqueued_for_dynamic_child_queue : test unit :=
  let parent := queue_with_eta "tenant" None in
  let parent := {| qst_key := qst_key parent; qst_enqueued := 42; qst_counts := qst_counts parent;
                   qst_latency_s := qst_latency_s parent; qst_rate := qst_rate parent;
                   qst_queues := [{| dq_suffix := "acme"; dq_enqueued := 42;
                     dq_counts := {| rs_processed := 11; rs_succeeded := 10; rs_panicked := 0; rs_failed := 1 |};
                     dq_latency_s := 35 # 10; dq_rate := default_rate |}] |} in
  detail <- unwrap (queue_detail_queue_stats (stats_with_queues [parent]) "tenant#acme" 3) ;;
  assert_eq (qst_key detail) "tenant#acme" ;;;
  assert_eq (qst_enqueued detail) 3 ;;;
  assert_eq [rs_processed (qst_counts detail); rs_succeeded (qst_counts detail); rs_failed (qst_counts detail)] [11; 10; 1] ;;;
  assert_close (qst_latency_s detail) (35 # 10) ;;;
  assert_eq (length (qst_queues detail)) 0%nat.

Definition raw_queue_from_catalog_preserves_dynamic_concurrency_mode : test unit :=
  let queue := raw_from_catalog (catalog_of [dynamic_tenant 7]) "tenant#acme" in
  assert_eq (raw_key queue) "tenant#acme" ;;;
  config <- unwrap (raw_config queue) ;;
  assert (match concurrency config with DynamicConcurrency d => Nat.eqb d 7 | FixedConcurrency _ => false end) ;;;
  assert (match kind config with Dynamic prefix _ => bool_decide (prefix = "tenant") | Static _ => false end).

Definition override (n : nat) (s : QueueState) : QueueRuntimeConfig := {| rt_concurrency := Some n; rt_state := s |}.

Definition dynamic_child_queue_inherits_base_runtime_override : test unit :=
  let stored_configs := {[ "tenant" := override 5 Paused ]} in
  assert_eq (queue_runtime_config_from_map (catalog_of [dynamic_tenant 3]) stored_configs "tenant#acme") (override 5 Paused).

Definition dynamic_child_queue_override_wins_over_base_runtime_override : test unit :=
  let stored_configs := {[ "tenant" := override 5 Paused; "tenant#acme" := override 9 Active ]} in
  assert_eq (queue_runtime_config_from_map (catalog_of [dynamic_tenant 3]) stored_configs "tenant#acme") (override 9 Active).

Definition is_override (s : QueueConcurrencyStatus) (default_limit : nat) : bool :=
  match s with OverrideStatus n => Nat.eqb n default_limit | _ => false end.
Definition is_default (s : QueueConcurrencyStatus) (default_limit : nat) : bool :=
  match s with DefaultStatus n => Nat.eqb n default_limit | _ => false end.

Definition dynamic_base_queue_reports_runtime_concurrency_override : test unit :=
  let stored_configs := {[ "tenant" := override 5 Active ]} in
  let view := queue_runtime_config_view_from_map (catalog_of [dynamic_tenant 3]) stored_configs "tenant" in
  assert_eq (rt_concurrency (view_config view)) (Some 5%nat) ;;;
  assert (is_override (concurrency_status view) 3).

Definition dynamic_child_queue_treats_inherited_base_concurrency_as_default : test unit :=
  let stored_configs := {[ "tenant" := override 5 Active ]} in
  assert (is_default (queue_concurrency_status_from_map (catalog_of [dynamic_tenant 3]) stored_configs "tenant#acme") 5).

Definition dynamic_child_queue_reports_direct_override_defaulting_to_base_concurrency : test unit :=
  let stored_configs := {[ "tenant" := override 5 Active; "tenant#acme" := override 9 Active ]} in
  assert (is_override (queue_concurrency_status_from_map (catalog_of [dynamic_tenant 3]) stored_configs "tenant#acme") 5).

Definition eta_sort_ascending_places_unknown_last : test unit :=
  let queues := [queue_with_eta "never" None; queue_with_eta "slow" (Some 30%Q); queue_with_eta "fast" (Some 10%Q)] in
  assert_eq (qst_key <$> sort_queues queues ∅ "eta" false) ["fast"; "slow"; "never"].

Definition eta_sort_descending_places_unknown_first : test unit :=
  let queues := [queue_with_eta "fast" (Some 10%Q); queue_with_eta "never" None; queue_with_eta "slow" (Some 30%Q)] in
  assert_eq (qst_key <$> sort_queues queues ∅ "eta" true) ["never"; "slow"; "fast"].

Definition queue_config_view (config : QueueRuntimeConfig) : QueueRuntimeConfigView :=
  {| view_config := config; concurrency_status := FixedStatus |}.

Definition state_sort_uses_runtime_queue_config : test unit :=
  let queues := (fun key => queue_with_eta key None) <$> ["active"; "paused"; "missing"] in
  let queue_configs := {[ "active" := queue_config_view (new_runtime_config 1);
                          "paused" := queue_config_view (override 1 Paused) ]} in
  assert_eq (qst_key <$> sort_queues queues queue_configs "state" false) ["active"; "missing"; "paused"].

(** ** Worker metrics *)

Definition worker_metrics (worker : string) (processed succeeded failed execution_ms successful_executions : Z)
    : WorkerMetricsSummary :=
  {| ws_worker := worker;
     ws_totals := {| mt_processed := processed; mt_succeeded := succeeded; mt_failed := failed; mt_panicked := 0;
                     mt_successful_executions := successful_executions; mt_failed_executions := 0;
                     mt_panicked_executions := 0; mt_execution_ms := execution_ms |};
     ws_series := [] |}.

Definition worker_metrics_sort_defaults_to_descending_metric_values : test unit :=
  let workers := [worker_metrics "fast" 5 5 0 100 5; worker_metrics "busy" 20 18 2 90 10; worker_metrics "idle" 1 1 0 500 1] in
  assert_eq (ws_worker <$> sorted_worker_metrics workers "processed" true) ["busy"; "fast"; "idle"].

Definition worker_metrics_sort_uses_average_execution_time : test unit :=
  let workers := [worker_metrics "quick" 5 5 0 100 5; worker_metrics "slow" 2 2 0 600 2; worker_metrics "medium" 3 3 0 300 3] in
  assert_eq (ws_worker <$> sorted_worker_metrics workers "avg_time" true) ["slow"; "medium"; "quick"].

(** ** Forms *)

(** Texts of JSON values, and percent-encoding of all but the unreserved characters. *)
Definition value_text (v : Value) : string := digits (encode (value_tree v)).
Definition value_of_text (s : string) : result string Value :=
  match undigits s ≫= decode with Some t => Ok (tree_value t) | None => Err "EOF while parsing an object" end.

Definition hex (n : nat) : string := String.substring n 1 "0123456789ABCDEF".
Definition unreserved (c : ascii) : bool :=
  let n := nat_of_ascii c in
  ((48 <=? n) && (n <=? 57) || (65 <=? n) && (n <=? 90) || (97 <=? n) && (n <=? 122))%nat
  || bool_decide (c ∈ ["-"; "_"; "."; "~"]%char).
Fixpoint percent_encode (s : string) : string :=
  match s with
  | "" => ""
  | String c s' =>
      (if unreserved c then String c ""
       else "%" +:+ hex (nat_of_ascii c / 16) +:+ hex (nat_of_ascii c mod 16)) +:+ percent_encode s'
  end.

#[local] Instance test_libraries : WebLibraries string := {|
  json_from_str := value_of_text;
  json_pretty v := Ok (value_text v);
  json_display := value_text;
  url_encode := percent_encode;
  schedule_text s := s;
  schedule_next _ _ := None;
|}.

Definition CRON_WORKER_NAME : string := "test::CleanupCronWorker".
Definition cron_catalog : Catalog (Schedule := string) :=
  {| cat_workers := [];
     cat_cron_workers := [{| cw_name := CRON_WORKER_NAME; cw_schedule := "*/5 * * * * *"; cw_queue_key := "default";
                             cw_resurrect := false |}];
     cat_queues := []; cat_on_demand := [] |}.

Definition is_generic_error {A} (r : result OxanaError A) : bool :=
  match r with Err (GenericError _) => true | _ => false end.

Definition cron_form_rejects_unknown_jobs : test unit :=
  state <- web_state cron_catalog ;;
  assert (is_generic_error (cron_envelope_from_form state "missing" {| s_now := now; s_uuid := "uuid" |})).

Definition cron_form_builds_immediate_envelope : test unit :=
  state <- web_state cron_catalog ;;
  envelope <- ok (cron_envelope_from_form state CRON_WORKER_NAME {| s_now := now; s_uuid := "uuid" |}) ;;
  assert_eq (queue envelope) "default" ;;;
  assert_eq (name (job envelope)) CRON_WORKER_NAME ;;;
  assert_eq (args (job envelope)) (VObject []) ;;;
  assert (negb (unique (meta envelope))) ;;;
  assert_eq (on_conflict (meta envelope)) None ;;;
  assert (negb (resurrect (meta envelope))) ;;;
  assert_eq (scheduled_at (meta envelope)) (created_at (meta envelope)).

Definition cron_enqueue_redirects_to_cron_notice : test unit :=
  state <- web_state cron_catalog ;;
  assert_eq (location (cron_enqueued_redirect state "crate::Worker/type-123"))
    "/admin/cron?enqueued=crate%3A%3AWorker%2Ftype-123".

(** [OnDemandJob], with the deserialization and the unique identifier its derives generate. *)
Definition on_demand_args (i : Z) (payload : string) : Value := VObject [("id", num i); ("payload", VStr payload)].
Definition on_demand_job (i : Z) (payload : string) : Job :=
  {| job_name := "OnDemandJob"; job_value := Ok (on_demand_args i payload);
     job_unique_id := Some ("on_demand_" +:+ z_to_string i); job_on_conflict := Skip; job_should_resurrect := true;
     job_should_resume := true; job_throttle_cost := None; job_on_demand_args_template := None |}.
Definition on_demand_factory (q : string) (v : Value) (uuid : string) (now_c now_s : Z) : result OxanaError JobEnvelope :=
  match value_get "id" v, value_get "payload" v with
  | Some (VNumber (NumInt i)), Some (VStr payload) => new_envelope q (on_demand_job i payload) uuid now_c now_s
  | _, _ => Err (JsonError "invalid type")
  end.
Definition on_demand_catalog : Catalog (Schedule := string) :=
  {| cat_workers := ["OnDemandWorker"]; cat_cron_workers := [];
     cat_queues := [queue_info "default" false; queue_info "tenant" true];
     cat_on_demand := [{| odi_name := "OnDemandJob";
                          odi_registration := {| od_args_template := on_demand_args 0 ""; od_factory := on_demand_factory |} |}] |}.
Definition form (q n text : string) : OnDemandEnqueueJobForm := {| of_queue := q; of_name := n; of_args := text |}.

Definition on_demand_form_rejects_dynamic_or_unknown_queues : test unit :=
  state <- web_state on_demand_catalog ;;
  let args := value_text (on_demand_args 1 "hello") in
  assert (is_generic_error (on_demand_envelope_from_form state (form "tenant#tenant=acme" "OnDemandJob" args) "uuid" now now)).

Definition on_demand_form_rejects_unknown_jobs : test unit :=
  state <- web_state on_demand_catalog ;;
  assert (is_generic_error (on_demand_envelope_from_form state (form "default" "missing" (value_text (VObject []))) "uuid" now now)).

Definition on_demand_form_builds_typed_envelope : test unit :=
  state <- web_state on_demand_catalog ;;
  let args := value_text (on_demand_args 42 "hello") in
  envelope <- ok (on_demand_envelope_from_form state (form "default" "OnDemandJob" args) "uuid" now now) ;;
  assert_eq (on_demand (meta envelope)) (Some true) ;;;
  assert_eq (queue envelope) "default" ;;;
  assert_eq (id envelope) "OnDemandJob/on_demand_42" ;;;
  assert_eq (Envelope.args (job envelope)) (on_demand_args 42 "hello").

(** The keys preselected among these queues. *)
Definition preselected (queues : list QueueInfo) : test (list string) :=
  state <- web_state (catalog_of queues) ;;
  tret (oq_key <$> List.filter oq_selected (build_on_demand_queue_views state)).

Definition on_demand_queue_views_preselect_on_demand_queue : test unit :=
  keys <- preselected [queue_info "alpha" false; queue_info "on_demand" false; queue_info "default" false; queue_info "main" false] ;;
  assert_eq keys ["on_demand"].

Definition on_demand_queue_views_preselect_default_when_on_demand_is_missing : test unit :=
  keys <- preselected [queue_info "alpha" false; queue_info "default" false; queue_info "main" false] ;;
  assert_eq keys ["default"].

Definition on_demand_queue_views_preselect_main_when_default_is_missing : test unit :=
  keys <- preselected [queue_info "default" true; queue_info "main" false; queue_info "worker" false] ;;
  assert_eq keys ["main"].

Definition on_demand_queue_views_do_not_preselect_other_queues : test unit :=
  keys <- preselected [queue_info "alpha" false; queue_info "worker" false] ;;
  assert_eq keys [].

Definition delete_job_returns_to_source_page : test unit :=
  state <- web_state (catalog_of []) ;;
  for_each [(3, false, "/admin/queues/tenant%23acme?page=3"); (0, false, "/admin/queues/tenant%23acme?page=1");
            (3, true, "/admin/busy")]
    (fun c => let '(page, busy, expected) := c in
      assert_eq (location (delete_job_redirect state "tenant#acme" {| dp_page := page; dp_busy := busy |})) expected).

(** ** Templates ([templates.rs]) *)

Definition queues_template (lengths : QueueLengthMetricsSnapshot) : QueuesTemplate :=
  {| qt_base_path := "/admin"; qt_active_tab := "/queues"; qt_stats := stats_with_queues []; qt_queue_configs := ∅;
     qt_queue_lengths := lengths; qt_sort := "key"; qt_dir := "asc" |}.
Definition length_snapshot (starts_at ends_at : Z) (minutes : nat) (queues : list QueueLengthMetricsSeries)
    : QueueLengthMetricsSnapshot :=
  {| qls_starts_at := starts_at; qls_ends_at := ends_at; qls_minutes := minutes; qls_queues := queues |}.

Definition queue_sort_href_preserves_chart_window : test unit :=
  assert_eq (sort_href (queues_template (length_snapshot 0 0 120 [])) "enqueued")
    "/admin/queues?sort=enqueued&dir=desc&minutes=120".

Definition queue_length_chart_data_json_uses_window_when_no_queues_exist : test unit :=
  let payload := queue_length_chart_data (queues_template (length_snapshot 60 120 2 [])) in
  assert_eq (value_get "timestamps" payload) (Some (VArray [num 60; num 120])) ;;;
  assert_eq (value_get "series" payload) (Some (VArray [])).

Definition queue_length_chart_data_json_serializes_queue_series : test unit :=
  let series := {| qs_queue := "default"; qs_series := [{| ql_timestamp := 60; ql_enqueued := 2 |};
                                                        {| ql_timestamp := 120; ql_enqueued := 5 |}] |} in
  let payload := queue_length_chart_data (queues_template (length_snapshot 60 120 2 [series])) in
  assert_eq (value_get "timestamps" payload) (Some (VArray [num 60; num 120])) ;;;
  assert_eq (value_get "series" payload)
    (Some (VArray [VObject [("label", VStr "default"); ("data", VArray [num 2; num 5])]])).

Definition metrics_snapshot (minutes : nat) (series : list JobMetricsPoint) (workers : list WorkerMetricsSummary)
    : JobMetricsSnapshot :=
  {| snap_starts_at := 0; snap_ends_at := 0; snap_minutes := minutes; snap_totals := empty_totals; snap_series := series;
     snap_workers := workers |}.
Definition metrics_template_of (m : JobMetricsSnapshot) (sort dir : string) : MetricsTemplate :=
  {| mx_base_path := "/admin"; mx_active_tab := "/metrics"; mx_metrics := m; mx_table_workers := []; mx_sort := sort;
     mx_dir := dir |}.
Definition metrics_template (sort dir : string) : MetricsTemplate := metrics_template_of (metrics_snapshot 120 [] []) sort dir.

Definition metric_point (idx : nat) (processed successful_executions failed_executions_without_panics panicked_executions
    execution_ms : Z) : JobMetricsPoint :=
  let failed_executions := u64_sat_add failed_executions_without_panics panicked_executions in
  {| mp_timestamp := 60 + Z.of_nat idx * 60;
     mp_counts := {| mt_processed := processed; mt_succeeded := u64_sat_sub processed failed_executions;
                     mt_failed := failed_executions; mt_panicked := panicked_executions;
                     mt_successful_executions := successful_executions; mt_failed_executions := failed_executions;
                     mt_panicked_executions := panicked_executions; mt_execution_ms := execution_ms |} |}.

Definition metrics_chart_bucket_policy_matches_selected_windows : test unit :=
  for_each [(60, 1); (120, 1); (240, 5); (480, 5); (1440, 15)]%nat (fun c =>
    assert_eq (metrics_chart_bucket_minutes c.1) c.2).

Definition metrics_sort_href_preserves_chart_window_and_defaults_descending : test unit :=
  assert_eq (metrics_sort_href (metrics_template "" "desc") "processed") "/admin/metrics?sort=processed&dir=desc&minutes=120".

Definition metrics_sort_href_toggles_current_column : test unit :=
  assert_eq (metrics_sort_href (metrics_template "processed" "desc") "processed")
    "/admin/metrics?sort=processed&dir=asc&minutes=120".

Definition metrics_default_sort_shows_total_time_indicator : test unit :=
  let template := metrics_template "" "desc" in
  assert_eq (metrics_sort_arrow template "total_time") " ▼" ;;;
  assert_eq (metrics_sort_href template "total_time") "/admin/metrics?sort=total_time&dir=asc&minutes=120".

(** Floats are printed exactly; [payload[series][i][field]]. *)
Definition exact (q : Q) : Number := NumInt (Qnum (Qred q)).
Definition series_field (payload : Value) (i : nat) (field : string) : test Value :=
  series <- unwrap (value_get "series" payload) ;;
  worker <- unwrap (match series with VArray l => l !! i | _ => None end) ;;
  unwrap (value_get field worker).

Definition timed_worker (worker : string) (execution_ms : Z) : WorkerMetricsSummary :=
  let w := worker_metrics worker 0 0 0 execution_ms 1 in
  {| ws_worker := worker; ws_totals := ws_totals w; ws_series := [metric_point 0 1 1 0 0 execution_ms] |}.

Definition metrics_chart_data_uses_snapshot_worker_order : test unit :=
  let template :=
    {| mx_base_path := "/admin"; mx_active_tab := "/metrics";
       mx_metrics := metrics_snapshot 120 [{| mp_timestamp := 60; mp_counts := empty_totals |}]
                       [timed_worker "ChartFirst" 100; timed_worker "ChartSecond" 200];
       mx_table_workers := [timed_worker "TableFirst" 300; timed_worker "TableSecond" 400];
       mx_sort := "processed"; mx_dir := "desc" |} in
  let payload := execution_chart_data exact template in
  first <- series_field payload 0 "fullLabel" ;; assert_eq first (VStr "ChartFirst") ;;;
  second <- series_field payload 1 "fullLabel" ;; assert_eq second (VStr "ChartSecond").

Definition metrics_chart_data_downsamples_four_hour_window_to_five_minute_buckets : test unit :=
  let series := (fun idx => let value := Z.of_nat idx + 1 in metric_point idx value 1 0 0 (value * 1000)) <$> seq 0 10 in
  let worker := {| ws_worker := "Worker"; ws_totals := empty_totals; ws_series := series |} in
  let template := metrics_template_of (metrics_snapshot 240 series [worker]) "processed" "desc" in
  for_each [execution_chart_data exact template; processed_chart_data exact template] (fun payload =>
    assert_eq (value_get "timestamps" payload) (Some (VArray [num 60; num 360])) ;;;
    data <- series_field payload 0 "data" ;; assert_eq data (VArray [num 15; num 40])).

Definition metric_detail_template (minutes : nat) (series : list JobMetricsPoint) : MetricDetailTemplate :=
  {| mdt_base_path := "/admin"; mdt_active_tab := "/metrics";
     mdt_metrics := {| det_worker := "Worker"; det_starts_at := 0; det_ends_at := 0; det_minutes := minutes;
                       det_totals := empty_totals; det_series := series; det_histogram := [] |} |}.

Definition metric_detail_chart_data_downsamples_24_hour_window_to_fifteen_minute_buckets : test unit :=
  let template := metric_detail_template 1440
    ((fun idx => if (idx <? 15)%nat then metric_point idx 1 1 0 0 100 else metric_point idx 2 2 0 0 600) <$> seq 0 30) in
  assert_eq (detail_average_chart_data exact template) (VArray [VArray [num 60; num 960]; VArray [num 100; num 300]]) ;;;
  assert_eq (detail_total_chart_data template)
    (VArray [VArray [num 60; num 960]; VArray [num 15; num 30]; VArray [num 0; num 0]; VArray [num 0; num 0]]).

Definition card_envelope : JobEnvelope :=
  {| id := "job-1"; queue := "default"; job := {| name := "crate::ImportGame"; Envelope.args := VObject [] |};
     meta := {| meta_id := "job-1"; on_demand := None; retries := 0; unique := false; on_conflict := None;
                created_at := 1000000; scheduled_at := 1000000; started_at := None; state := None; resurrect := true;
                error := None; throttle_cost := None |} |}.

Definition pagination_normalizes_zero_and_does_not_infer_next_page_from_total : test unit :=
  assert_eq (opt_offset (list_opts 0), opt_count (list_opts 0)) (0, 51) ;;;
  assert_eq (opt_offset (list_opts 2)) 50 ;;;
  let page := new_page 0 100 [card_envelope] in
  assert_eq (jp_number page) 1 ;;;
  assert_eq (range_start page, range_end page) (1, 1) ;;;
  assert (negb (jp_has_next page)) ;;;
  assert_eq (range_end (new_page 2 50 [card_envelope])) 50.

(** [pagination.rs]. *)
Definition page_number_tracks_last_available_page_after_deletion : test unit :=
  for_each [(3, 101, 3); (3, 100, 2); (3, 0, 1); (0, 100, 1)] (fun c =>
    let '(page, total, expected) := c in assert_eq (clamp_number page total) expected).

(** ** Filters ([filters.rs]) *)

Definition fields (l : list (string * Value)) : Value := VObject l.
Definition view_is (v : option ProgressView) (summary percent note eta : string) : bool :=
  match v with
  | Some v => bool_decide ([pv_summary v; pv_percent v; pv_note v; pv_eta v] = [summary; percent; note; eta])
  | None => false
  end.

Definition progress_view_formats_object_and_tuple_states_identically : test unit :=
  for_each [fields [("cursor", num 1250); ("total", num 5000); ("note", VStr "Importing")];
            VArray [num 1250; num 5000; VStr "Importing"]] (fun state =>
    assert (view_is (progress_view state (Some 1000000) 11000000) "1,250 / 5,000 (25%)" "25" "Importing" "30.0s")).

Definition progress_view_clamps_percent_and_preserves_unknown_eta : test unit :=
  assert (view_is (progress_view (VArray [num (-1); num 10]) None 0) "0 / 10 (0%)" "0" "" em_dash) ;;;
  assert (view_is (progress_view (VArray [num 15; num 10]) (Some 1000000) 11000000) "15 / 10 (100%)" "100" "" "0.0s").

Definition pills (v : Value) : list (string * string) := (fun p => (pill_key p, pill_value p)) <$> simple_args_for v.

Definition simple_args_include_top_level_scalar_values : test unit :=
  assert_eq (pills (fields [("game_id", num 12345); ("league", VStr "nba"); ("dry_run", VBool true); ("missing", VNull)]))
    [("game_id", "12345"); ("league", "nba"); ("dry_run", "true"); ("missing", "null")].

Definition simple_args_include_scalar_values_from_mixed_args : test unit :=
  assert_eq (pills (fields [("game_id", num 12345); ("metadata", fields [("season", num 2026)])])) [("game_id", "12345")].

Definition simple_args_require_an_object : test unit :=
  assert_eq (pills (num 12345)) [] ;;; assert_eq (pills (VArray [VStr "game_id"; num 12345])) [].

Definition args_json_only_shows_when_pills_do_not_cover_everything : test unit :=
  assert (negb (should_show_args_json (fields []))) ;;;
  assert (negb (should_show_args_json (fields [("game_id", num 12345); ("dry_run", VBool false)]))) ;;;
  assert (should_show_args_json (fields [("game_id", num 12345); ("metadata", fields [("season", num 2026)])])) ;;;
  assert (should_show_args_json (num 12345)).

Definition parts_are (v : Value) (c t : Z) (n : option string) : test unit :=
  p <- unwrap (progress_parts v) ;; assert_eq (cursor p, total p, note p) (c, t, n).

Definition progress_parts_recognizes_update_progress_state : test unit :=
  parts_are (fields [("cursor", num 25); ("total", num 100); ("note", VStr "importing users")]) 25 100 (Some "importing users") ;;;
  parts_are (num 42) (cursor (progress_of_cursor 42)) (total (progress_of_cursor 42)) (note (progress_of_cursor 42)) ;;;
  parts_are (VArray [num 25; num 100]) 25 100 None.

Definition should_show_progress (v : Value) : bool := bool_decide (is_Some (progress_view v None 0)).

Definition progress_display_requires_total : test unit :=
  assert (negb (should_show_progress (num 42))) ;;;
  assert (negb (should_show_progress (fields [("cursor", num 42); ("total", num 0)]))) ;;;
  assert (should_show_progress (VArray [num 1; num 100])) ;;;
  assert (should_show_progress (fields [("cursor", num 42); ("total", num 100)])).

Definition eta_of (v : Value) (started : option Z) (at_micros : Z) : option Q :=
  p ← progress_parts v; progress_eta_s p started at_micros.
Definition eta_is (v : Value) (started : option Z) (at_micros : Z) (expected : Q) : test unit :=
  e <- unwrap (eta_of v started at_micros) ;; assert_close e expected.

Definition progress_eta_uses_started_time_and_progress_rate : test unit :=
  eta_is (fields [("cursor", num 25); ("total", num 100)]) (Some 9000000) 19000000 30.

Definition progress_eta_ignores_time_spent_waiting_in_queue : test unit :=
  eta_is (fields [("cursor", num 25); ("total", num 100)]) (Some 43201000000) 43211000000 30.

Definition progress_eta_is_unknown_without_rate : test unit :=
  assert_none (eta_of (fields [("cursor", num 0); ("total", num 100)]) (Some 1000000) 11000000) ;;;
  assert_none (eta_of (VArray [num 25; num 100]) None 11000000).

Definition progress_eta_is_zero_when_complete : test unit :=
  eta_is (VArray [num 100; num 100]) (Some 1000000) 11000000 0 ;;;
  eta_is (VArray [num 125; num 100]) (Some 1000000) 11000000 0.

Lemma web_tests_pass : Forall (fun t => passes t = true)
  [queues_default_sort_is_enqueued_descending;
   explicit_queue_sort_without_direction_remains_ascending;
   dynamic_parent_queue_detail_redirect_only_applies_to_parent;
   queue_detail_queue_stats_uses_live_enqueued_for_static_queue;
   queue_detail_queue_stats_uses_live_enqueued_for_dynamic_child_queue;
   raw_queue_from_catalog_preserves_dynamic_concurrency_mode;
   dynamic_child_queue_inherits_base_runtime_override;
   dynamic_child_queue_override_wins_over_base_runtime_override;
   dynamic_base_queue_reports_runtime_concurrency_override;
   dynamic_child_queue_treats_inherited_base_concurrency_as_default;
   dynamic_child_queue_reports_direct_override_defaulting_to_base_concurrency;
   eta_sort_ascending_places_unknown_last;
   eta_sort_descending_places_unknown_first;
   state_sort_uses_runtime_queue_config;
   worker_metrics_sort_defaults_to_descending_metric_values;
   worker_metrics_sort_uses_average_execution_time;
   cron_form_rejects_unknown_jobs;
   cron_form_builds_immediate_envelope;
   cron_enqueue_redirects_to_cron_notice;
   on_demand_form_rejects_dynamic_or_unknown_queues;
   on_demand_form_rejects_unknown_jobs;
   on_demand_form_builds_typed_envelope;
   on_demand_queue_views_preselect_on_demand_queue;
   on_demand_queue_views_preselect_default_when_on_demand_is_missing;
   on_demand_queue_views_preselect_main_when_default_is_missing;
   on_demand_queue_views_do_not_preselect_other_queues;
   delete_job_returns_to_source_page;
   queue_sort_href_preserves_chart_window;
   queue_length_chart_data_json_uses_window_when_no_queues_exist;
   queue_length_chart_data_json_serializes_queue_series;
   metrics_chart_bucket_policy_matches_selected_windows;
   metrics_sort_href_preserves_chart_window_and_defaults_descending;
   metrics_sort_href_toggles_current_column;
   metrics_default_sort_shows_total_time_indicator;
   metrics_chart_data_uses_snapshot_worker_order;
   metrics_chart_data_downsamples_four_hour_window_to_five_minute_buckets;
   metric_detail_chart_data_downsamples_24_hour_window_to_fifteen_minute_buckets;
   pagination_normalizes_zero_and_does_not_infer_next_page_from_total;
   page_number_tracks_last_available_page_after_deletion;
   progress_view_formats_object_and_tuple_states_identically;
   progress_view_clamps_percent_and_preserves_unknown_eta;
   simple_args_include_top_level_scalar_values;
   simple_args_include_scalar_values_from_mixed_args;
   simple_args_require_an_object;
   args_json_only_shows_when_pills_do_not_cover_everything;
   progress_parts_recognizes_update_progress_state;
   progress_display_requires_total;
   progress_eta_uses_started_time_and_progress_rate;
   progress_eta_ignores_time_spent_waiting_in_queue;
   progress_eta_is_unknown_without_rate;
   progress_eta_is_zero_when_complete].
Proof. all_pass. Qed.
