(* ===== verification/DataTests.v ===== *)
(** * The tests of the data ([mod tests] of job_envelope.rs, job_state.rs, queue.rs, metrics.rs, stats.rs,
    storage_internal/queue_stats.rs, result_collector.rs, throttler.rs, semaphores_map.rs,
    storage_builder.rs)

    Each test under its name; see TestKit. Left out are those about the JSON text
    of an absent field ([absent_on_demand_metadata_is_omitted_and_defaults_to_none],
    [test_serde_backward_compatibility]), the expiry of a throttler's key
    ([throttle_expiry_preserves_milliseconds]) and a socket's time-outs
    ([configured_response_timeout_applies_during_connection_setup]). *)
From Stdlib Require Import QArith.
From S2P Require Import Prelude Errors Redis Envelope Codec Queue Keys Storage JobState Metrics Stats.
From S2P Require Import StatsStorage Resilience Recovery Permits Throttle Collector Registry Runtime Api Builder Derives TestKit.
Open Scope list_scope.
Open Scope Z_scope.
Open Scope test_scope.

Definition num (n : Z) : Value := VNumber (NumInt n).
Definition assert_none {A} (o : option A) : test unit := assert (match o with None => true | Some _ => false end).
Definition assert_close (actual expected : Q) : test unit := assert (Qeq_bool actual expected).

(** ** [job_envelope.rs] *)

Definition make_meta (scheduled : Z) (started : option Z) : JobMeta :=
  {| meta_id := "test"; on_demand := None; retries := 0; unique := false; on_conflict := None; created_at := scheduled;
     scheduled_at := scheduled; started_at := started; state := None; resurrect := true; error := None;
     throttle_cost := None |}.
Definition test_envelope (started : option Z) : JobEnvelope :=
  {| id := "test"; queue := "default"; job := {| name := "TestJob"; args := VObject [] |};
     meta := make_meta 1000000 started |}.
Definition TestJob : Job := default_job "TestJob" (Ok (VObject [])).

Definition test_started_at_none : test unit := assert_none (started_at (make_meta 1000000 None)).

Definition on_demand_metadata_survives_serialization_and_retries : test unit :=
  envelope <- envelope_new "default" TestJob ;;
  assert_eq (on_demand (meta envelope)) None ;;;
  let envelope := map_meta (set_on_demand (Some true)) envelope in
  json <- ok (print_job envelope) ;;
  restored <- ok (parse_job json) ;;
  assert_eq (on_demand (meta restored)) (Some true) ;;;
  assert_eq (on_demand (meta (with_retries_incremented "retry" restored))) (Some true).

Definition scheduled : Z := 1700000000000000.

Definition test_started_at_some : test unit :=
  assert_eq (started_at (make_meta scheduled (Some (scheduled + 5500000)))) (Some (scheduled + 5500000)).

Definition test_latency_uses_started_at_when_available : test unit :=
  let meta := make_meta scheduled (Some (scheduled + 5500000)) in
  assert_eq (Envelope.latency_micros now meta) 5500000 ;;;
  assert_eq (latency_millis now meta) 5500.

Definition test_latency_falls_back_to_now_without_started_at : test unit :=
  let latency := Envelope.latency_micros now (make_meta (now - 2000000) None) in
  assert ((2000000 <=? latency) && (latency <? 3000000)).

Definition test_latency_clamped_to_zero : test unit :=
  assert_eq (Envelope.latency_micros now (make_meta scheduled (Some (scheduled - 100)))) 0.

Definition test_with_retries_incremented_resets_started_at : test unit :=
  let retried := with_retries_incremented "something went wrong" (test_envelope (Some 2000000)) in
  assert_eq (retries (meta retried)) 1 ;;;
  assert_none (started_at (meta retried)) ;;;
  assert_eq (error (meta retried)) (Some "something went wrong").

Definition drift_is_small (at_micros : Z) : bool := (0 <=? now - at_micros) && (now - at_micros <? 1000000).

Definition test_cannot_schedule_in_past : test unit :=
  let envelope := with_scheduled_at (now - 3600 * 1000000) now (test_envelope None) in
  assert (drift_is_small (scheduled_at (meta envelope))) ;;;
  assert_eq (on_demand (meta envelope)) None.

Definition test_cannot_schedule_cron_in_past : test unit :=
  cron <- ok (new_cron "default" "cron-job-1" (default_job "CronJob" (Ok (VObject []))) (now - 3600000000) true now) ;;
  assert (drift_is_small (scheduled_at (meta cron.1))).

(** The text the error's message must contain. *)
Definition contains (s part : string) : bool :=
  match String.index 0 part s with Some _ => true | None => false end.

Definition cron_envelope_rejects_replace_conflict : test unit :=
  let ReplaceCronJob :=
    {| job_name := "ReplaceCronJob"; job_value := Ok (VObject []); job_unique_id := None; job_on_conflict := Replace;
       job_should_resurrect := true; job_should_resume := true; job_throttle_cost := None;
       job_on_demand_args_template := None |} in
  assert (match new_cron "default" "CronJob-123" ReplaceCronJob now true now with
          | Err (GenericError text) => contains text "cron jobs do not support `on_conflict = Replace`; use `Skip`"
          | _ => false
          end).

(** ** [job_state.rs] *)

Definition is_progress (p : JobProgress) (c t : Z) (n : option string) : test unit :=
  assert_eq (cursor p, total p, note p) (c, t, n).

Definition job_progress_converts_from_supported_values : test unit :=
  is_progress (progress_of_cursor 7) 7 0 None ;;;
  is_progress (progress_of_pair 7 10) 7 10 None ;;;
  is_progress (progress_of_triple 7 10 (Some "chunk imported")) 7 10 (Some "chunk imported").

Definition job_progress_deserializes_from_supported_shapes : test unit :=
  p <- ok (progress_of_value (num 7)) ;; is_progress p 7 0 None ;;;
  p <- ok (progress_of_value (VArray [num 7; num 10])) ;; is_progress p 7 10 None ;;;
  p <- ok (progress_of_value (VArray [num 7; num 10; VStr "chunk imported"])) ;; is_progress p 7 10 (Some "chunk imported") ;;;
  p <- ok (progress_of_value (progress_to_value (progress_of_pair 7 10))) ;; is_progress p 7 10 None.

(** ** [queue.rs] *)

(** [TestStaticQueue] has the default key of its configuration; [TestDynamicQueue] makes its own. *)
Definition test_queue_key : test unit :=
  key <- unwrap (queue_key_default (as_static "test_static_queue")) ;;
  assert_eq key "test_static_queue" ;;;
  let dynamic_queue := VObject [("name", VStr "John"); ("age", num 30); ("is_student", VBool true)] in
  assert_eq ("test_dynamic_queue#" +:+ value_to_queue_key dynamic_queue) "test_dynamic_queue#name=John:age=30:is_student=true".

Definition default_dynamic_queue_key_panics : test unit := assert_none (queue_key_default (as_dynamic "manual_dynamic")).

(** heck's snake case, on the names of the test. *)
Definition snake_case (ident : string) : string :=
  if decide (ident = "DefaultQueue") then "default_queue"
  else if decide (ident = "QueueWithConcurrency") then "queue_with_concurrency"
  else if decide (ident = "QueueWithThrottle") then "queue_with_throttle"
  else ident.
Definition no_args : QueueArgs :=
  {| qa_registry := None; qa_key := None; qa_prefix := None; qa_concurrency := None; qa_discovery_interval_ms := None;
     qa_throttle := None |}.
Definition with_key (key prefix : option string) (c : option ConcurrencyArg) : QueueArgs :=
  {| qa_registry := None; qa_key := key; qa_prefix := prefix; qa_concurrency := c; qa_discovery_interval_ms := None;
     qa_throttle := None |}.
(** The concurrency of [#[oxana(concurrency = ...)]]: a literal, [Fixed(n)] or [Dynamic(n)]. *)
Definition concurrency_arg (e : Expr) : test ConcurrencyArg := unwrap (res_ok (concurrency_from_expr e)).
Definition fixed_call (n : Z) : Expr := ECall (EPath ["Fixed"]) [ELitInt n].
Definition dynamic_call (n : Z) : Expr := ECall (EPath ["Dynamic"]) [ELitInt n].

Definition is_fixed (c : QueueConcurrency) (n : nat) : bool :=
  match c with FixedConcurrency m => Nat.eqb m n | DynamicConcurrency _ => false end.
Definition is_dynamic_of (c : QueueConcurrency) (n : nat) : bool :=
  match c with DynamicConcurrency m => Nat.eqb m n | FixedConcurrency _ => false end.

(** A derived queue: the key of the value [self], and the configuration. *)
Definition derived (ident : string) (fields : list (string * Value)) (a : QueueArgs) : test (string * QueueConfig) :=
  d <- unwrap (res_ok (expand_derive_queue snake_case true ident (length fields) a)) ;;
  config <- unwrap (dv_to_config d) ;;
  tret (dv_key d (Ok (VObject fields)), config).

Definition test_define_queue_with_macro : test unit :=
  q <- derived "DefaultQueue" [] no_args ;;
  assert_eq q.1 "default_queue" ;;; assert (is_fixed (concurrency q.2) 1) ;;;
  q <- derived "QueueWithKey" [] (with_key (Some "static_queue") None None) ;;
  assert_eq q.1 "static_queue" ;;; assert (is_fixed (concurrency q.2) 1) ;;;
  two <- concurrency_arg (ELitInt 2) ;;
  q <- derived "QueueWithConcurrency" [] (with_key None None (Some two)) ;;
  assert_eq q.1 "queue_with_concurrency" ;;; assert (is_fixed (concurrency q.2) 2) ;;;
  fixed <- concurrency_arg (fixed_call 2) ;;
  q <- derived "QueueWithFixedConcurrency" [] (with_key None None (Some fixed)) ;;
  assert (is_fixed (concurrency q.2) 2) ;;;
  dynamic <- concurrency_arg (dynamic_call 2) ;;
  q <- derived "QueueWithDynamicConcurrency" [] (with_key None None (Some dynamic)) ;;
  assert (is_dynamic_of (concurrency q.2) 2) ;;;
  q <- derived "QueueWithThrottle" []
    {| qa_registry := None; qa_key := None; qa_prefix := None; qa_concurrency := Some two; qa_discovery_interval_ms := None;
       qa_throttle := Some {| window_ms := 3; limit := 4 |} |} ;;
  assert_eq q.1 "queue_with_throttle" ;;; assert (is_fixed (concurrency q.2) 2) ;;;
  t <- unwrap (throttle q.2) ;; assert_eq (window_ms t, limit t) (3, 4) ;;;
  q <- derived "QueueWithKeyAndConcurrency" [] (with_key (Some "static_queue_key") None (Some two)) ;;
  assert_eq q.1 "static_queue_key" ;;; assert (is_fixed (concurrency q.2) 2) ;;;
  three <- concurrency_arg (ELitInt 3) ;;
  q <- derived "QueueWithKeyAndConcurrency1" [] (with_key (Some "static_queue_key") None (Some three)) ;;
  assert_eq q.1 "static_queue_key" ;;; assert (is_fixed (concurrency q.2) 3) ;;;
  q <- derived "DynQueue" [("i", num 2)]
    {| qa_registry := None; qa_key := None; qa_prefix := Some "dyn_queue"; qa_concurrency := Some two;
       qa_discovery_interval_ms := Some 250; qa_throttle := None |} ;;
  assert_eq q.1 "dyn_queue#i=2" ;;; assert (is_fixed (concurrency q.2) 2) ;;;
  assert (match kind q.2 with Dynamic _ interval => bool_decide (interval = from_millis 250) | Static _ => false end) ;;;
  four <- concurrency_arg (dynamic_call 4) ;;
  q <- derived "RuntimeQueue" [] (with_key (Some "runtime_queue") None (Some four)) ;;
  assert_eq q.1 "runtime_queue" ;;; assert (is_dynamic_of (concurrency q.2) 4).

(** All but the text of the configuration. *)
Definition runtime_config_can_store_state_without_concurrency : test unit :=
  let config := {| rt_concurrency := rt_concurrency default_runtime_config; rt_state := Paused |} in
  assert_eq (default 4%nat (rt_concurrency config)) 4%nat ;;;
  assert_eq (with_defaults config (new_runtime_config 4)) {| rt_concurrency := Some 4%nat; rt_state := Paused |}.

Definition dynamic_queue_discovery_interval_rejects_zero : test unit :=
  assert_none (with_discovery_interval 0 (as_dynamic "tenant")).

Definition static_queue_discovery_interval_rejects_configuration : test unit :=
  assert_none (with_discovery_interval (from_millis 250) (as_static "static_queue")).

(** ** [metrics.rs] *)

Definition histogram_bucket_boundaries_use_configured_thresholds : test unit :=
  for_each [(0, 0); (24, 0); (25, 1); (49, 1); (50, 2); (299999, 12); (300000, 13)] (fun c =>
    assert_eq (Z.of_nat (histogram_bucket_index c.1)) c.2).

(** The commands' counters are the [u16] fields named here; [OVERFLOW SAT] is the documented behaviour of
    [BITFIELD_INCR]. *)
Definition bitfield_increment_args_use_saturated_u16_counters : test unit :=
  let buckets := <[13%nat := 70000]> (<[0%nat := 2]> (replicate HISTOGRAM_BUCKET_COUNT 0)) in
  assert_eq (histogram_increments buckets) [(0%nat, 2); (13%nat, 70000)] ;;;
  redis (BITFIELD_INCR "histogram" (histogram_increments buckets)) ;;;
  counts <- redis (BITFIELD_GET "histogram" [0; 13]%nat) ;;
  assert_eq counts [2; 65535].

Definition metric_increment_iterators_preserve_key_order : test unit :=
  let job_metrics := Build_PendingJobMetrics 1 2 3 4 5 6 7 (pj_histogram empty_pending) in
  assert_eq (job_increments job_metrics).*1 JOB_METRIC_KEYS ;;;
  assert_eq (job_increments job_metrics).*2 [1; 2; 3; 4; 5; 6; 7] ;;;
  assert_eq (queue_increments (Build_QueueCounterTotals 8 9 10))
    [(QUEUE_METRIC_PROCESSED_JOBS, 8); (QUEUE_METRIC_SUCCEEDED_JOBS, 9); (QUEUE_METRIC_FAILED_JOBS, 10)].

Definition hash_of (identity : string) (counters : list (string * Z)) : gmap string Z :=
  list_to_map ((fun c => (metric_field identity c.1, c.2)) <$> counters).
(** Processed, failed, panicked, succeeded; the executions that succeeded, failed, panicked; the time. *)
Definition counts_of (t : JobMetricsTotals) : list Z :=
  [mt_processed t; mt_failed t; mt_panicked t; mt_succeeded t; mt_successful_executions t; mt_failed_executions t;
   mt_panicked_executions t; mt_execution_ms t].

Definition query_aggregation_computes_totals_and_clamps_minutes : test unit :=
  let minutes := metric_minutes 10000 10000 in
  assert_eq (Z.of_nat (length minutes)) MAX_METRIC_MINUTES ;;;
  let first_hash := hash_of "WorkerA"
    [(METRIC_PROCESSED_JOBS, 3); (METRIC_FAILED_JOBS, 1); (METRIC_SUCCESSFUL_EXECUTIONS, 2);
     (METRIC_FAILED_EXECUTIONS, 1); (METRIC_EXECUTION_MS, 250)] in
  let second_hash := hash_of "WorkerB"
    [(METRIC_PROCESSED_JOBS, 2); (METRIC_FAILED_JOBS, 1); (METRIC_PANICKED_JOBS, 1); (METRIC_SUCCESSFUL_EXECUTIONS, 1);
     (METRIC_FAILED_EXECUTIONS, 1); (METRIC_PANICKED_EXECUTIONS, 1); (METRIC_EXECUTION_MS, 100)] in
  let hashes := first_hash :: second_hash :: replicate (length minutes - 2) ∅ in
  let aggregation := aggregate_counter_hashes minutes hashes None in
  assert_eq (counts_of (ag_totals aggregation)) [5; 2; 1; 3; 3; 2; 1; 350] ;;;
  assert_eq (failed_executions_without_panics (ag_totals aggregation)) 1 ;;;
  assert_eq (length (ag_workers aggregation)) 2%nat ;;;
  first_worker <- unwrap (head (ag_workers aggregation)) ;;
  assert_eq (Z.of_nat (length (ws_series first_worker))) MAX_METRIC_MINUTES ;;;
  first_point <- unwrap (head (ws_series first_worker)) ;;
  let p := mp_counts first_point in
  assert_eq [mt_processed p; mt_failed p; mt_succeeded p; mt_successful_executions p; mt_execution_ms p] [3; 1; 2; 2; 250] ;;;
  second_worker <- unwrap (ag_workers aggregation !! 1%nat) ;;
  let t := ws_totals second_worker in
  assert_eq [mt_panicked t; mt_failed_executions t; mt_panicked_executions t; failed_executions_without_panics t] [1; 1; 1; 0] ;;;
  let filtered := aggregate_counter_hashes minutes hashes (Some "WorkerA") in
  let t := ag_totals filtered in
  assert_eq [mt_processed t; mt_failed t; mt_succeeded t; mt_successful_executions t; mt_execution_ms t] [3; 1; 2; 2; 250] ;;;
  assert_eq (length (ag_workers filtered)) 1%nat ;;;
  filtered_worker <- unwrap (head (ag_workers filtered)) ;;
  empty_point <- unwrap (ws_series filtered_worker !! 1%nat) ;;
  assert_eq (mt_processed (mp_counts empty_point)) 0.

Definition metric_identity_round_trips_with_delimiters : test unit :=
  assert_eq (from_field_key (field_key "crate::worker|Name")) (Some "crate::worker|Name").

Definition queue_counter_hashes_aggregate_with_missing_fields_as_zero : test unit :=
  let queue := "critical:tenant|fast" in
  let second_hash := {[ queue_metric_field queue QUEUE_METRIC_PROCESSED_JOBS := 5;
                        queue_metric_field queue QUEUE_METRIC_FAILED_JOBS := 2 ]} : gmap string Z in
  totals <- unwrap (aggregate_queue_counter_hashes [∅; second_hash] !! queue) ;;
  assert_eq [qc_processed totals; qc_succeeded totals; qc_failed totals] [5; 0; 2].

Definition worker_result (k : WorkerResultKind) (worker queue : string) (ms count : Z) : WorkerResult :=
  {| wr_kind := k; wr_worker_name := worker; wr_queue := queue; wr_execution_ms := ms; wr_job_count := count |}.

Definition job_metrics_buffer_records_queue_counters : test unit :=
  let buffer := buffer_record now_secs (worker_result Panicked "Worker" "default" 10 1)
    (buffer_record now_secs (worker_result Success "Worker" "default" 10 3) empty_buffer) in
  match map_to_list (queue_entries buffer) with
  | [((_, queue), counters)] =>
      assert_eq queue "default" ;;;
      assert_eq [qc_processed counters; qc_succeeded counters; qc_failed counters] [4; 3; 1]
  | _ => unwrap None
  end.

Definition queue_length_series_aggregates_and_sorts_by_peak_length : test unit :=
  let hashes := [{[ "default" := 2 ]}; {[ "critical" := 7 ]}; {[ "default" := 4; "critical" := 0 ]}] : list (gmap string Z) in
  let queues := queue_length_series_from_hashes [10; 11; 12] hashes in
  assert_eq (qs_queue <$> queues) ["critical"; "default"] ;;;
  critical <- unwrap (head queues) ;;
  point <- unwrap (head (qs_series critical)) ;;
  assert_eq (ql_timestamp point) 600 ;;;
  assert_eq ((fun q => ql_enqueued <$> qs_series q) <$> queues) [[0; 7; 0]; [2; 0; 4]].

Definition metric_identity_reads_legacy_worker_queue_keys_as_worker_only : test unit :=
  assert_eq (from_field_key "6:Workerdefault") (Some "Worker").

(** ** [stats.rs] *)

Definition process_run (instance : string) : Process :=
  {| hostname := "host"; pid := 1; instance_id := instance; heartbeat_at := 0; proc_started_at := 0 |}.

Definition process_id_tells_apart_two_runs_with_the_same_hostname_and_pid : test unit :=
  assert_eq (process_id (process_run "a")) "host-1-a" ;;;
  assert (negb (bool_decide (process_id (process_run "a") = process_id (process_run "b")))).

(** A record without the field has the empty identifier ([serde(default)]). *)
Definition process_id_of_a_record_without_instance_id_keeps_the_legacy_form : test unit :=
  assert_eq (process_id (process_run "")) "host-1".

Definition eta_close (r : QueueRateStats) (expected : Q) : test unit := e <- unwrap (eta_s r) ;; assert_close e expected.

Definition queue_rate_calculates_eta_when_effective_drain_is_positive : test unit :=
  let rate := rate_calculate 10 10 30 50 40 10 in
  assert_close (processed_per_minute rate) 5 ;;;
  assert_close (succeeded_per_minute rate) 4 ;;;
  assert_close (failed_per_minute rate) 1 ;;;
  assert_close (growth_per_minute rate) (-2) ;;;
  assert_close (effective_drain_per_minute rate) 2 ;;;
  eta_close rate 300.

Definition queue_rate_eta_is_unknown_when_queue_grows_despite_processing : test unit :=
  let rate := rate_calculate 10 20 0 100 100 0 in
  assert_close (processed_per_minute rate) 10 ;;;
  assert_close (growth_per_minute rate) 2 ;;;
  assert_close (effective_drain_per_minute rate) 0 ;;;
  assert_none (eta_s rate).

Definition queue_rate_eta_is_zero_for_empty_queue : test unit :=
  let rate := rate_calculate 10 0 10 0 0 0 in
  assert_close (growth_per_minute rate) (-1) ;;;
  eta_close rate 0.

Definition queue_rate_eta_is_unknown_without_processing_rate : test unit :=
  let rate := rate_calculate 10 10 20 0 0 0 in
  assert_close (growth_per_minute rate) (-1) ;;;
  assert_close (effective_drain_per_minute rate) 0 ;;;
  assert_none (eta_s rate).

Definition queue_rate_aggregates_dynamic_children : test unit :=
  let rate := rate_aggregate 10 30 [rate_calculate 10 10 20 30 25 5; rate_calculate 10 20 30 40 35 5] in
  assert_close (processed_per_minute rate) 7 ;;;
  assert_close (succeeded_per_minute rate) 6 ;;;
  assert_close (failed_per_minute rate) 1 ;;;
  assert_close (growth_per_minute rate) (-2) ;;;
  assert_close (effective_drain_per_minute rate) 2 ;;;
  eta_close rate 900.

(** ** [queue_stats.rs] *)

Definition stats_hash (l : list (string * Z)) : gmap string Z := list_to_map l.
Definition queue_named (queues : list QueueStats) (key : string) : test QueueStats :=
  unwrap (List.find (fun q => bool_decide (qst_key q = key)) queues).
Definition assert_counts (s : QueueResultStats) (expected : list Z) : test unit :=
  assert_eq [rs_processed s; rs_succeeded s; rs_panicked s; rs_failed s] expected.

Definition groups_live_and_historical_queues_without_duplicate_children : test unit :=
  let '(queues, snapshots) := aggregate_queue_stats ["active"; "batch#north"; "batch#north"]
    (stats_hash [("static:processed", 10); ("batch:processed", 2); ("batch#north:processed", 4); ("batch#north:succeeded", 3);
                 ("batch#north:panicked", 1); ("batch#north:failed", 1); ("batch#south:processed", 6);
                 ("batch#south:succeeded", 6); ("tenant:jobs#a#b:processed", 7); ("legacy:unknown", 99); ("malformed", 99)])
    false 1000 in
  assert (bool_decide (snapshots = ∅)) ;;;
  assert_eq (length queues) 5%nat ;;;
  active <- queue_named queues "active" ;; assert_eq (rs_processed (qst_counts active)) 0 ;;;
  static <- queue_named queues "static" ;; assert_eq (rs_processed (qst_counts static)) 10 ;;;
  legacy <- queue_named queues "legacy" ;; assert_eq (rs_processed (qst_counts legacy)) 0 ;;;
  batch <- queue_named queues "batch" ;;
  assert_counts (qst_counts batch) [12; 9; 1; 1] ;;;
  assert_eq (length (qst_queues batch)) 2%nat ;;;
  north <- unwrap (List.find (fun d => bool_decide (dq_suffix d = "north")) (qst_queues batch)) ;;
  assert_counts (dq_counts north) [4; 3; 1; 1] ;;;
  tenant <- queue_named queues "tenant:jobs" ;;
  assert_eq (rs_processed (qst_counts tenant)) 7 ;;;
  assert_eq (dq_suffix <$> qst_queues tenant) ["a#b"].

Definition filtering_keeps_sibling_counters_and_snapshots : test unit :=
  let stored := stats_hash [("batch:processed", 9); ("batch#south:processed", 4); ("batch#east:enqueued", 2);
    ("batch#east:enqueued_at", 1000); ("other:processed", 99); ("other:enqueued", 99); ("other:enqueued_at", 1000)] in
  let '(queues, snapshots) := aggregate_queue_stats ["batch#north"] stored true 1000 in
  assert_eq (length queues) 1%nat ;;;
  batch <- queue_named queues "batch" ;;
  assert_eq (rs_processed (qst_counts batch)) 13 ;;;
  let suffixes := dq_suffix <$> qst_queues batch in
  assert_eq (length suffixes) 3%nat ;;;
  assert (bool_decide (list_to_set suffixes = ({["east"; "north"; "south"]} : gset string))) ;;;
  assert (bool_decide (snapshots = {[ "batch#east" := 2 ]})) ;;;
  let '(queues, snapshots) := aggregate_queue_stats [] stored true 1000 in
  assert_eq (length queues) 0%nat ;;; assert (bool_decide (snapshots = ∅)).

Definition only_positive_fresh_snapshots_create_queues : test unit :=
  let '(queues, snapshots) := aggregate_queue_stats ["live"]
    (stats_hash [("live:enqueued", 0); ("live:enqueued_at", 1000); ("historical:processed", 3); ("historical:enqueued", 0);
      ("historical:enqueued_at", 1000); ("snapshot#busy:enqueued", 5); ("snapshot#busy:enqueued_at", 1000);
      ("snapshot#empty:enqueued", 0); ("snapshot#empty:enqueued_at", 1000); ("empty:enqueued", 0);
      ("empty:enqueued_at", 1000); ("stale:enqueued", 7); ("stale:enqueued_at", 879); ("incomplete:enqueued", 8);
      ("negative:enqueued", -1); ("negative:enqueued_at", 1000)]) false 1000 in
  assert_eq (length queues) 3%nat ;;;
  live <- queue_named queues "live" ;; assert_eq (rs_processed (qst_counts live)) 0 ;;;
  historical <- queue_named queues "historical" ;; assert_eq (rs_processed (qst_counts historical)) 3 ;;;
  snapshot <- queue_named queues "snapshot" ;; assert_eq (dq_suffix <$> qst_queues snapshot) ["busy"] ;;;
  assert (bool_decide (snapshots = {[ "live" := 0; "historical" := 0; "snapshot#busy" := 5; "snapshot#empty" := 0;
                                      "empty" := 0 ]})).

Definition snapshot_freshness_includes_the_ttl_boundary_and_future_timestamps : test unit :=
  for_each [(Some 5, Some 880, Some 5); (Some 5, Some 879, None); (Some 5, Some 1001, Some 5); (Some 0, Some 1000, Some 0);
            (Some (-1), Some 1000, None); (None, Some 1000, None); (Some 5, None, None)] (fun c =>
    let '(enqueued, refreshed_at, expected) := c in
    assert_eq (fresh_enqueued 1000 {| sl_enqueued := enqueued; sl_refreshed_at := refreshed_at |}) expected).

(** ** [result_collector.rs] *)

(** The first result reaches the limit and cancels; the second is drained; then the senders are gone. *)
Definition result_collector_drains_results_after_cancellation : test unit :=
  storage <- random_storage ;;
  let start := {| col_metrics := empty_buffer; col_pending := ∅; col_active := ∅; col_stats := empty_run_stats;
                  col_failures := 0; col_cancelled := false |} in
  first <- await (collect_run storage 10 (Some 1) [CollectResult now_secs (worker_result Success "CollectorWorker" "collector" 25 1)] start) ;;
  assert (col_cancelled first) ;;;
  c <- await (collect_run storage 10 (Some 1)
    [CollectResult now_secs (worker_result Success "CollectorWorker" "collector" 50 1); SendersGone now_secs] first) ;;
  assert_eq (run_processed (col_stats c), run_succeeded (col_stats c)) (2, 2) ;;;
  metrics <- await (job_metrics_for storage "CollectorWorker" DEFAULT_METRIC_MINUTES now_secs) ;;
  let t := det_totals metrics in
  assert_eq [mt_processed t; mt_succeeded t; mt_successful_executions t; mt_execution_ms t] [2; 2; 2; 75].

Definition active_queue_pruning_drops_zero_length_queue : test unit :=
  assert (bool_decide ("empty" ∉ prune_active_queues {["empty"]} (Some {[ "empty" := 0 ]}))).
Definition active_queue_pruning_keeps_nonzero_queue : test unit :=
  assert (bool_decide ("busy" ∈ prune_active_queues {["busy"]} (Some {[ "busy" := 1 ]}))).
Definition active_queue_pruning_skips_pruning_when_refresh_failed : test unit :=
  assert (bool_decide ("unknown" ∈ prune_active_queues {["unknown"]} None)).

(** ** [throttler.rs] *)

Definition consume_once (t : Throttler) (cost : option Z) : test ThrottlerState :=
  uuids <- map_each (fun _ => random_string) (seq 0 (Z.to_nat (default 1 cost))) ;;
  await (consume t cost uuids now now).

Definition test_consume : test unit :=
  key <- random_string ;;
  let rate_limiter := new_throttler key 2 60000 in
  s <- consume_once rate_limiter None ;; assert (is_allowed s) ;;;
  s <- consume_once rate_limiter None ;; assert (is_allowed s) ;;;
  repeat_test 2 (
    s <- consume_once rate_limiter None ;;
    assert (negb (is_allowed s)) ;;;
    throttled <- unwrap (throttled_for s) ;; assert (60000 <=? throttled)).

Definition test_consume_with_cost : test unit :=
  key <- random_string ;;
  let rate_limiter := new_throttler key 4 60000 in
  s <- consume_once rate_limiter (Some 2) ;; assert (is_allowed s) ;;;
  s <- consume_once rate_limiter (Some 2) ;; assert (is_allowed s) ;;;
  s <- consume_once rate_limiter (Some 1) ;; assert (negb (is_allowed s)).

(** ** [semaphores_map.rs]: [acquire] would return at once *)

Definition paused_control_blocks_until_active : test unit :=
  let control := new_control {| rt_concurrency := Some 1%nat; rt_state := Paused |} in
  assert_none (try_acquire control) ;;;
  unwrap (try_acquire (apply_config (new_runtime_config 1) control)) ;;; tret tt.

Definition reducing_concurrency_waits_for_active_permits_to_finish : test unit :=
  let control := new_control (new_runtime_config 2) in
  control <- unwrap (try_acquire control) ;;
  control <- unwrap (try_acquire control) ;;
  let control := apply_config (new_runtime_config 1) control in
  assert_none (try_acquire control) ;;;
  let control := release control in
  assert_none (try_acquire control) ;;;
  unwrap (try_acquire (release control)) ;;; tret tt.

(** ** [storage_builder.rs] *)

(** Pools are named by their URL; every moment fits the clock. *)
Definition named_pool (spec : PoolSpec) : result OxanaError string := Ok (ps_url spec).
Definition any_moment (_ : Duration) : bool := true.
Definition me : Identity := {| i_started_at := now_secs; i_uuid := "uuid"; i_hostname := "host"; i_pid := 1 |}.

Definition build_from_redis_url_uses_primary_pool_for_stats : test unit :=
  storage <- ok (build_from_redis_url named_pool any_moment me "redis://127.0.0.1/0" new_storage_builder) ;;
  assert (negb (has_stats_pool (internal (built_handle storage)))).

Definition build_from_redis_urls_uses_dedicated_stats_pool : test unit :=
  storage <- ok (build_from_redis_urls named_pool any_moment me "redis://127.0.0.1/0" "redis://127.0.0.1/1" new_storage_builder) ;;
  assert (has_stats_pool (internal (built_handle storage))).

Definition build_from_env_var_missing_returns_config_error : test unit :=
  assert (match build_from_env_var named_pool any_moment me (fun _ => Err NotPresent)
                  "OXANA_TEST_DEFINITELY_UNSET_REDIS_URL" new_storage_builder with
          | Err (ConfigError _) => true | _ => false end).

Lemma data_tests_pass : Forall (fun t => passes t = true)
  [test_started_at_none;
   on_demand_metadata_survives_serialization_and_retries;
   test_started_at_some;
   test_latency_uses_started_at_when_available;
   test_latency_falls_back_to_now_without_started_at;
   test_latency_clamped_to_zero;
   test_with_retries_incremented_resets_started_at;
   test_cannot_schedule_in_past;
   test_cannot_schedule_cron_in_past;
   cron_envelope_rejects_replace_conflict;
   job_progress_converts_from_supported_values;
   job_progress_deserializes_from_supported_shapes;
   test_queue_key;
   default_dynamic_queue_key_panics;
   test_define_queue_with_macro;
   runtime_config_can_store_state_without_concurrency;
   dynamic_queue_discovery_interval_rejects_zero;
   static_queue_discovery_interval_rejects_configuration;
   histogram_bucket_boundaries_use_configured_thresholds;
   bitfield_increment_args_use_saturated_u16_counters;
   metric_increment_iterators_preserve_key_order;
   query_aggregation_computes_totals_and_clamps_minutes;
   metric_identity_round_trips_with_delimiters;
   queue_counter_hashes_aggregate_with_missing_fields_as_zero;
   job_metrics_buffer_records_queue_counters;
   queue_length_series_aggregates_and_sorts_by_peak_length;
   metric_identity_reads_legacy_worker_queue_keys_as_worker_only;
   process_id_tells_apart_two_runs_with_the_same_hostname_and_pid;
   process_id_of_a_record_without_instance_id_keeps_the_legacy_form;
   queue_rate_calculates_eta_when_effective_drain_is_positive;
   queue_rate_eta_is_unknown_when_queue_grows_despite_processing;
   queue_rate_eta_is_zero_for_empty_queue;
   queue_rate_eta_is_unknown_without_processing_rate;
   queue_rate_aggregates_dynamic_children;
   groups_live_and_historical_queues_without_duplicate_children;
   filtering_keeps_sibling_counters_and_snapshots;
   only_positive_fresh_snapshots_create_queues;
   snapshot_freshness_includes_the_ttl_boundary_and_future_timestamps;
   result_collector_drains_results_after_cancellation;
   active_queue_pruning_drops_zero_length_queue;
   active_queue_pruning_keeps_nonzero_queue;
   active_queue_pruning_skips_pruning_when_refresh_failed;
   test_consume;
   test_consume_with_cost;
   paused_control_blocks_until_active;
   reducing_concurrency_waits_for_active_permits_to_finish;
   build_from_redis_url_uses_primary_pool_for_stats;
   build_from_redis_urls_uses_dedicated_stats_pool;
   build_from_env_var_missing_returns_config_error].
Proof. all_pass. Qed.
