(* ===== verification/RuntimeTests.v ===== *)
(** * The tests of runtimes, their configuration and the coordinator ([mod tests] of config.rs, runtime.rs,
    storage.rs, coordinator.rs; storage_internal/connection_tests.rs, coordinator/connection_tests.rs)

    Each test under its name; see TestKit. Left out are
    [cron_envelopes_compute_unique_id_from_each_job_instance], whose
    deserialization counts its calls, and of each job the fields nothing reads.
    The permits are those of [Pipeline], where they are accounted for on every
    path: the tests' checks of them are left out, and so is the capacity of a
    dispatcher that is cancelled
    ([cancelled_dispatcher_does_not_acquire_available_capacity] of dispatcher.rs)
    and that of connections ([dispatcher_retries_connection_failure_before_claiming],
    [idle_dispatcher_does_not_hold_pool_connection]). *)
From S2P Require Import Prelude Errors Redis Envelope Codec Queue Keys Storage Enqueue Metrics JobState Resilience Executor Registry.
From S2P Require Import Dispatcher Coordinator Runtime Api Builder Worker TestKit DataTests.
Open Scope list_scope.
Open Scope Z_scope.
Open Scope test_scope.

(** ** [config.rs] *)

(** A worker of [impl_test_worker!]: every batch succeeds. *)
Definition test_worker (worker_name job_ident : string) : Worker (WorkerError := string) :=
  {| w_type_name := worker_name; w_args_name := job_ident; w_process := None;
     w_run_batch := Some (fun _ => Returned (Ok tt)); w_max_retries := None; w_retry_delay := None |}.
Definition no_callbacks : Callbacks string unit unit := new_callbacks.
Definition test_job_type (worker_name job_ident : string) (decode : Value -> result string Job) : JobType :=
  job_type (fun e => e) no_callbacks (test_worker worker_name job_ident)
    {| jk_name := job_ident; jk_should_resume := true; jk_decode := decode |} [].

(** cron's parser, as the identity. *)
Definition any_schedule (text : string) : option string := Some text.

(** [PlainJob], [ZetaJob]: a string field. *)
Definition string_job (job_ident : string) (template : option Value) (v : Value) : result string Job :=
  match value_get "value" v with
  | Some (VStr s) =>
      Ok {| job_name := job_ident; job_value := Ok (VObject [("value", VStr s)]); job_unique_id := None; job_on_conflict := Skip;
            job_should_resurrect := true; job_should_resume := true; job_throttle_cost := None;
            job_on_demand_args_template := template |}
  | _ => Err "missing field `value`"
  end.
Definition PlainJob : Value -> result string Job := string_job "PlainJob" None.
Definition zeta_template : Value := VObject [("value", VStr "")].
Definition ZetaJob : Value -> result string Job := string_job "ZetaJob" (Some zeta_template).

Definition alpha_template : Value := VObject [("id", num 0); ("cost", num 0)].
Definition AlphaJob (v : Value) : result string Job :=
  match value_get "id" v, value_get "cost" v with
  | Some (VNumber (NumInt i)), Some (VNumber (NumInt cost)) =>
      Ok {| job_name := "AlphaJob"; job_value := Ok (VObject [("id", num i); ("cost", num cost)]);
            job_unique_id := Some ("alpha_" +:+ z_to_string i); job_on_conflict := Replace; job_should_resurrect := true;
            job_should_resume := true; job_throttle_cost := Some cost; job_on_demand_args_template := Some alpha_template |}
  | _, _ => Err "missing field"
  end.

Local Abbreviation config := (@Config string).

(** [register_worker::<Worker, Job>()] of a worker without a schedule. *)
Definition register_test_worker (worker_name job_ident : string) (decode : Value -> result string Job) (template : option Value)
    (c : config) : test config :=
  unwrap (register_worker any_schedule job_ident worker_name (test_job_type worker_name job_ident decode) None None None true template c).
Definition register_plain : config -> test config := register_test_worker "PlainWorker" "PlainJob" PlainJob None.
Definition register_zeta : config -> test config := register_test_worker "ZetaWorker" "ZetaJob" ZetaJob (Some zeta_template).
Definition register_alpha : config -> test config := register_test_worker "AlphaWorker" "AlphaJob" AlphaJob (Some alpha_template).

Definition describe (_ : OxanaError) : string := "error".

Definition manual_cron_worker_config_requires_typed_factory : test unit :=
  let t := test_job_type "PlainWorker" "PlainJob" PlainJob in
  assert_none (register_worker_with any_schedule
    {| wc_name := "PlainJob"; wc_legacy_names := [];
       wc_factories := {| wf_factory := job_factory t; wf_batch_factory := job_batch_factory t; wf_batch_config := None; wf_cron := None |};
       wc_on_demand := None; wc_kind := Cron "*/5 * * * * *" "default" true |} empty_registry).

Definition worker_registration_accepts_canonical_and_legacy_worker_names : test unit :=
  c <- register_plain new_config ;;
  let job := VObject [("value", VStr "hello")] in
  canonical <- ok (build describe (cfg_registry c) "PlainJob" job) ;;
  assert_eq (p_len canonical) 1%nat ;;;
  legacy <- ok (build describe (cfg_registry c) "PlainWorker" job) ;;
  assert_eq (p_len legacy) 1%nat ;;;
  batch <- ok (build_batch describe (cfg_registry c) "PlainWorker" [job]) ;;
  bound <- unwrap (bb_job batch) ;;
  assert_eq (p_len bound) 1%nat ;;;
  assert_eq (cat_workers (catalog_with_queues c [])) ["PlainJob"].

Definition cron_worker_uses_canonical_catalog_and_legacy_consumer_alias : test unit :=
  let t := test_job_type "CronCompatWorker" "CronCompatJob" (fun _ => Ok (default_job "CronCompatJob" (Ok (VObject [])))) in
  c <- unwrap (register_worker any_schedule "CronCompatJob" "CronCompatWorker" t None (Some "*/5 * * * * *")
                 (Some (as_static "cron_compat")) true None new_config) ;;
  assert (bool_decide (is_Some (wr_schedules (cfg_registry c) !! "CronCompatJob"))) ;;;
  assert_none (wr_schedules (cfg_registry c) !! "CronCompatWorker") ;;;
  assert_eq (cw_name <$> cat_cron_workers (catalog_with_queues c [])) ["CronCompatJob"] ;;;
  legacy <- ok (build describe (cfg_registry c) "CronCompatWorker" (VObject [])) ;;
  assert_eq (p_len legacy) 1%nat.

Definition catalog_lists_only_on_demand_jobs_sorted : test unit :=
  c <- register_plain new_config ;; c <- register_zeta c ;; c <- register_alpha c ;;
  assert_eq (odi_name <$> cat_on_demand (catalog_with_queues c [])) ["AlphaJob"; "ZetaJob"].

Definition on_demand_factory_preserves_job_hooks : test unit :=
  c <- register_alpha new_config ;;
  job <- unwrap (List.find (fun j => bool_decide (odi_name j = "AlphaJob")) (cat_on_demand (catalog_with_queues c []))) ;;
  uuid <- random_string ;;
  envelope <- ok (enqueue_envelope_of job "manual" (VObject [("id", num 7); ("cost", num 3)]) uuid now now) ;;
  assert_eq (queue envelope) "manual" ;;;
  assert_eq (on_demand (meta envelope)) (Some true) ;;;
  assert_eq (id envelope) "AlphaJob/alpha_7" ;;;
  assert (unique (meta envelope)) ;;;
  assert_eq (on_conflict (meta envelope)) (Some Replace) ;;;
  assert_eq (throttle_cost (meta envelope)) (Some 3).

(** ** [runtime.rs] *)

Definition test_storage : test Api.Storage :=
  s <- ok (build_from_redis_url named_pool any_moment me "redis://127.0.0.1/0" new_storage_builder) ;;
  tret (built_handle s).

Local Abbreviation runtime_builder := (RuntimeBuilder (Schedule := string) (WorkerError := string) (Reporter := unit) (Fut := unit)).
Local Abbreviation builder_call_of := (BuilderCall (WorkerError := string) (Reporter := unit) (Fut := unit)).

(** [test_storage().runtime(())] with these calls. *)
Definition runtime_with (calls : list builder_call_of) : test runtime_builder :=
  s <- test_storage ;; unwrap (builder_calls any_schedule calls (new_builder s)).

Definition QueueOne : QueueConfig := as_static "one".
Definition QueueTwo : QueueConfig := as_static "two".
Definition DynamicQueue : QueueConfig := as_dynamic "dynamic".

Definition runs (b : runtime_builder) (q : QueueConfig) : bool :=
  runs_queue (queue_allowlist (rb_settings b)) (queue_denylist (rb_settings b)) q.
Definition runs_static (b : runtime_builder) (key : string) : bool :=
  runs_static_queue (queue_allowlist (rb_settings b)) (queue_denylist (rb_settings b)) key.

(** The catalog has the three queues. *)
Definition assert_catalog_complete (b : runtime_builder) : test unit :=
  let queues := cat_queues (builder_catalog b) in
  assert_eq (length queues) 3%nat ;;;
  assert (existsb (fun q => String.eqb (qi_key q) "one") queues) ;;;
  assert (existsb (fun q => String.eqb (qi_key q) "two") queues) ;;;
  assert (existsb (fun q => String.eqb (qi_key q) "dynamic" && qi_dynamic q) queues).

Definition only_queue_builds_an_allowlist_without_changing_the_catalog : test unit :=
  b <- runtime_with [QueueWith QueueOne; QueueWith QueueTwo; QueueWith DynamicQueue; OnlyQueue QueueOne; OnlyQueue DynamicQueue] ;;
  assert (runs b QueueOne) ;;;
  assert (negb (runs b QueueTwo)) ;;;
  assert (runs b DynamicQueue) ;;;
  assert (runs_static b "one") ;;;
  assert (negb (runs_static b "two")) ;;;
  assert_catalog_complete b.

Definition except_queue_builds_a_denylist_without_changing_the_catalog : test unit :=
  b <- runtime_with [QueueWith QueueOne; QueueWith QueueTwo; QueueWith DynamicQueue; ExceptQueue QueueTwo; ExceptQueue DynamicQueue] ;;
  assert (runs b QueueOne) ;;;
  assert (negb (runs b QueueTwo)) ;;;
  assert (negb (runs b DynamicQueue)) ;;;
  assert (runs_static b "one") ;;;
  assert (negb (runs_static b "two")) ;;;
  assert_catalog_complete b.

Definition runtime_runs_all_queues_without_an_allowlist : test unit :=
  b <- runtime_with [QueueWith QueueOne; QueueWith DynamicQueue] ;;
  assert (runs b QueueOne) ;;; assert (runs b DynamicQueue) ;;; assert (runs_static b "any-static-queue").

Definition assert_rejected (b : runtime_builder) (text : string) : test unit :=
  assert (match run b with Err (ConfigError message) => String.eqb message text | _ => false end).

Definition run_rejects_an_unregistered_selected_queue : test unit :=
  b <- runtime_with [OnlyQueue QueueTwo] ;; assert_rejected b "Selected queues are not registered: two".
Definition run_rejects_an_unregistered_excluded_queue : test unit :=
  b <- runtime_with [ExceptQueue QueueTwo] ;; assert_rejected b "Excluded queues are not registered: two".

Definition dynamic_queue_selection_matches_the_parent_configuration : test unit :=
  b <- runtime_with [QueueWith DynamicQueue; OnlyQueue DynamicQueue] ;;
  selected <- unwrap (head (queue_allowlist (rb_settings b))) ;;
  assert (is_dynamic_kind (kind selected)) ;;; assert (runs b DynamicQueue).
Definition dynamic_queue_exclusion_matches_the_parent_configuration : test unit :=
  b <- runtime_with [QueueWith DynamicQueue; ExceptQueue DynamicQueue] ;;
  excluded <- unwrap (head (queue_denylist (rb_settings b))) ;;
  assert (is_dynamic_kind (kind excluded)) ;;; assert (negb (runs b DynamicQueue)).

(** ** [storage.rs] *)

Definition runtime_settings_defaults_match_existing_behavior : test unit :=
  b <- runtime_with [] ;;
  let settings := rb_settings b in
  assert_eq (heartbeat_interval settings) (from_millis 500) ;;;
  assert_eq (dead_process_threshold settings) (from_secs 5) ;;;
  assert_eq (resurrect_scan_interval settings) (from_secs 2) ;;;
  assert_eq (redis_failure_tolerance settings) 30 ;;;
  assert_eq (retry_poll_interval settings) (from_millis 300) ;;;
  assert_eq (schedule_poll_interval settings) (from_millis 300) ;;;
  assert_eq (cron_initial_offset settings) (from_secs 3) ;;;
  assert_eq (cron_lookahead settings) (from_secs 30) ;;;
  assert_eq (cron_tick_interval settings) (from_secs 1) ;;;
  assert_eq (dequeue_timeout settings) (from_secs 10) ;;;
  assert_eq (dispatcher_idle_sleep settings) (from_secs 1) ;;;
  assert_eq (throttled_queue_fallback_wait settings) (from_millis 100) ;;;
  assert_eq (shutdown_timeout settings) (Some (from_secs 180)) ;;;
  assert_eq (exit_when_processed settings) None.

Definition runtime_setting_setters_override_defaults : test unit :=
  b <- runtime_with
    [HeartbeatInterval (from_millis 11); DeadProcessThreshold (from_millis 12); ResurrectScanInterval (from_millis 13);
     RedisFailureTolerance 14; RetryPollInterval (from_millis 15); SchedulePollInterval (from_millis 16);
     CronInitialOffset (from_millis 17); CronLookahead (from_millis 18); CronTickInterval (from_millis 19);
     DequeueTimeout (from_millis 20); DispatcherIdleSleep (from_millis 21); ThrottledQueueFallbackWait (from_millis 22);
     SetShutdownTimeout (from_millis 23); ExitWhenProcessed 24] ;;
  let settings := rb_settings b in
  assert_eq (heartbeat_interval settings) (from_millis 11) ;;;
  assert_eq (dead_process_threshold settings) (from_millis 12) ;;;
  assert_eq (resurrect_scan_interval settings) (from_millis 13) ;;;
  assert_eq (redis_failure_tolerance settings) 14 ;;;
  assert_eq (retry_poll_interval settings) (from_millis 15) ;;;
  assert_eq (schedule_poll_interval settings) (from_millis 16) ;;;
  assert_eq (cron_initial_offset settings) (from_millis 17) ;;;
  assert_eq (cron_lookahead settings) (from_millis 18) ;;;
  assert_eq (cron_tick_interval settings) (from_millis 19) ;;;
  assert_eq (dequeue_timeout settings) (from_millis 20) ;;;
  assert_eq (dispatcher_idle_sleep settings) (from_millis 21) ;;;
  assert_eq (throttled_queue_fallback_wait settings) (from_millis 22) ;;;
  assert_eq (shutdown_timeout settings) (Some (from_millis 23)) ;;;
  assert_eq (exit_when_processed settings) (Some 24) ;;;
  assert_eq (monitored_threshold (rb_storage b)) (from_millis 12).

Definition cron_lookahead_allows_values_above_the_default : test unit :=
  b <- runtime_with [CronLookahead (from_secs 60)] ;;
  assert_eq (cron_lookahead (rb_settings b)) (from_secs 60).

Definition assert_zero_duration_panics (call : Duration -> builder_call_of) : test unit :=
  s <- test_storage ;; assert_none (builder_calls any_schedule [call 0] (new_builder s)).

Definition runtime_loop_cadence_setters_reject_zero : test unit :=
  for_each [HeartbeatInterval; ResurrectScanInterval; RetryPollInterval; SchedulePollInterval; CronTickInterval; DequeueTimeout;
            DispatcherIdleSleep; ThrottledQueueFallbackWait] assert_zero_duration_panics.

(** ** [coordinator.rs] *)

Definition UnsortedInvalidJob : Job := default_job "UnsortedInvalidJob" (Ok VNull).
Definition UnsortedInvalidWorker : JobType :=
  test_job_type "UnsortedInvalidWorker" "UnsortedInvalidJob"
    (fun v => match v with VNull => Ok UnsortedInvalidJob | _ => Err "invalid type" end).

Definition unsorted_invalid_batch_factory (_ : list Value) : result OxanaError BatchBuild :=
  Ok {| bb_job := None;
        bb_invalid := [{| inv_index := 1; inv_error := "second invalid" |}; {| inv_index := 0; inv_error := "first invalid" |}] |}.

(** A registry with one worker for batches. *)
Definition batch_worker (worker_name : string) (factory : Value -> result OxanaError Processable)
    (batch_factory : list Value -> result OxanaError BatchBuild) (size : nat) : test (WorkerRegistry (Schedule := string)) :=
  unwrap (register_worker_with any_schedule
    {| wc_name := worker_name; wc_legacy_names := [];
       wc_factories := {| wf_factory := factory; wf_batch_factory := batch_factory;
                          wf_batch_config := new_batch_config size (from_millis 100); wf_cron := None |};
       wc_on_demand := None; wc_kind := Normal |} empty_registry).
Definition unsorted_invalid_registry : test (WorkerRegistry (Schedule := string)) :=
  batch_worker "UnsortedInvalidJob" (job_factory UnsortedInvalidWorker) unsorted_invalid_batch_factory 2.

(** [process_pending_batch] with a runtime's registry. *)
Definition process_batch (r : WorkerRegistry (Schedule := string)) (storage : StorageInternal) (es : list JobEnvelope)
    : rprog (option (ExecutionOutcome * list OxanaError)) :=
  let built := match es with
               | e :: _ => build_batch describe r (name (job e)) ((fun e => args (job e)) <$> es)
               | [] => Err (GenericError "")
               end in
  process_pending_batch storage describe built es 0 now now.

(** Jobs that are enqueued and claimed. *)
Definition enqueued_and_claimed (storage : StorageInternal) (q : string) (count : nat) : test (list JobEnvelope) :=
  map_each (fun _ =>
    envelope <- envelope_new q UnsortedInvalidJob ;;
    await (enqueue storage 1 envelope) ;;; await (dequeue storage q) ;;; tret envelope) (seq 0 count).

Definition missing_job_cleanup_error_is_propagated : test unit :=
  storage <- random_storage ;; q <- random_string ;;
  claimed <- enqueued_and_claimed storage q 1 ;; envelope <- unwrap (head claimed) ;;
  redis (HDEL (jobs (skeys storage)) [id envelope]) ;;;
  redis_set (schedule (skeys storage)) "wrong-type" ;;;
  result <- result_of (load_pending_job storage (id envelope) false [true]) ;;
  assert (match result with Err (DeadpoolRedisError e) => bool_decide (e = wrongtype) | _ => false end).

(** A pool that is closed: nothing is handed out, nothing is sent. *)
Definition closed_pool : RedisServer := {|
  db := keyspace; view := fun ks => ks;
  exec := fun X _ ks => (Err {| is_io_error := true; error_kind := None |}, ks);
  take_connection := fun _ ks => (Err (DeadpoolRedisPoolError PoolOther), ks);
|}.

Inductive InvalidDispatch := Single | BatchFactory | BatchItems.

Definition invalid_job_cleanup_error (dispatch : InvalidDispatch) : test unit :=
  storage <- random_storage ;; q <- random_string ;;
  registered <- unsorted_invalid_registry ;;
  let registry := match dispatch with BatchItems => registered | _ => empty_registry end in
  let count := match dispatch with Single => 1%nat | _ => 2%nat end in
  pending <- enqueued_and_claimed storage q count ;;
  first <- unwrap (head pending) ;;
  result <- on_redis (@Redis.run closed_pool _ (match dispatch with
    | Single => process_pending_job storage describe (build describe registry (name (job first)) (args (job first))) first 0 now now
    | BatchFactory | BatchItems => process_batch registry storage pending
    end)) ;;
  assert (match result with Err (DeadpoolRedisPoolError _) => true | _ => false end) ;;;
  retained <- redis (LLEN (current_processing_queue storage)) ;;
  assert_eq retained count.

Definition invalid_single_job_cleanup_error_is_propagated : test unit := invalid_job_cleanup_error Single.
Definition invalid_batch_factory_cleanup_error_is_propagated : test unit := invalid_job_cleanup_error BatchFactory.
Definition invalid_batch_items_cleanup_error_is_propagated : test unit := invalid_job_cleanup_error BatchItems.

Definition process_pending_batch_handles_unsorted_invalid_indexes : test unit :=
  storage <- random_storage ;; q <- random_string ;;
  registry <- unsorted_invalid_registry ;;
  envelopes <- enqueued_and_claimed storage q 2 ;;
  await (process_batch registry storage envelopes) ;;;
  dead <- await (dead_count storage) ;; assert_eq dead 2%nat ;;;
  jobs <- await (jobs_count storage) ;; assert_eq jobs 0%nat.

(** [PermitCheckJob], whose worker succeeds when it is given what is expected. *)
Definition permit_check_job (value : Z) : Job := default_job "PermitCheckJob" (Ok (VObject [("value", num value)])).
Definition decode_permit_check (v : Value) : result string Job :=
  match value_get "value" v with
  | Some (VNumber (NumInt n)) => if 0 <=? n then Ok (permit_check_job n) else Err "invalid value"
  | _ => Err "invalid type"
  end.
Definition observed (item : BatchItem) : option Value * JobId :=
  (res_ok (job_value (item_job item)) ≫= value_get "value", meta_id (ctx_meta (item_ctx item))).
Definition PermitCheckWorker (expected : list (option Value * JobId)) : Worker (WorkerError := string) :=
  {| w_type_name := "PermitCheckWorker"; w_args_name := "PermitCheckJob"; w_process := None;
     w_run_batch := Some (fun items =>
       Returned (if bool_decide (observed <$> items = expected) then Ok tt else Err "unexpected"));
     w_max_retries := None; w_retry_delay := None |}.

Definition mixed_batch_preserves_job_context_order_and_permit_lifetimes : test unit :=
  storage <- random_storage ;; q <- random_string ;;
  pending <- map_each (fun value =>
    envelope <- envelope_new q (permit_check_job value) ;;
    let envelope := if Z.even value then envelope else set_args (VObject [("value", VStr "invalid")]) envelope in
    await (enqueue storage 1 envelope) ;;; await (dequeue storage q) ;;; tret envelope) [0; 1; 2; 3] ;;
  let valid := filter (fun e => is_ok (decode_permit_check (args (job e))) = true) pending in
  assert_eq (length valid) 2%nat ;;;
  let expected := (fun e => (value_get "value" (args (job e)), id e)) <$> valid in
  let kind := {| jk_name := "PermitCheckJob"; jk_should_resume := true; jk_decode := decode_permit_check |} in
  let t := job_type (fun e => e) no_callbacks (PermitCheckWorker expected) kind (job_contexts (started kind now valid)) in
  registry <- batch_worker "PermitCheckJob" (job_factory t) (fun values =>
    res_map (fun batch => {| bb_job := bb_job batch;
                             bb_invalid := rev (bb_invalid batch) ++
                               [{| inv_index := 1; inv_error := "duplicate index" |};
                                {| inv_index := 1000; inv_error := "out-of-range index" |}] |})
      (job_batch_factory t values)) 4 ;;
  finished <- await (process_batch registry storage pending) ;;
  outcome <- unwrap finished ;;
  result <- unwrap (process_result outcome.1 valid) ;;
  assert (match wr_kind result with Success => true | _ => false end) ;;;
  assert_eq (wr_job_count result) 2 ;;;
  dead <- await (dead_count storage) ;; assert_eq dead 2%nat ;;;
  jobs <- await (jobs_count storage) ;; assert_eq jobs 0%nat.

(** A task's error is passed to [fail]. *)
Definition queue_task_errors_initiate_shutdown : test unit :=
  let runtime := fail (GenericError "dispatcher failed") (launched 1) in
  assert (cancelled runtime) ;;;
  assert_eq (shutdown_error runtime) (Some (GenericError "dispatcher failed")).

(** ** [storage_internal/connection_tests.rs]: how a claimed job gets its connection

    A checkout is what each attempt does: how long it takes, how it ends, and the
    jitter before it. *)

(** A pool whose slots are all held; a pool that has one. *)
Definition held (takes_ : Duration) (jitter_ : Z) : attempt := {| jitter := jitter_; takes := takes_; outcome := Err PoolTimeout |}.
Definition released (takes_ : Duration) (jitter_ : Z) : attempt := {| jitter := jitter_; takes := takes_; outcome := Ok tt |}.
Definition pool_times (t : StorageBuilderTimeouts) (c : option PoolRetryConfig) : list attempt -> option (Duration * result OxanaError unit) :=
  claimed_checkout c any_moment (pool_timeouts t).
Definition retry_config (window : Duration) (initial max : Duration) : PoolRetryConfig :=
  {| retry_window := Some window; initial_backoff := initial; max_backoff := max |}.
Definition is_wait_timeout (r : result OxanaError unit) : bool :=
  match r with Err (DeadpoolRedisPoolError PoolTimeout) => true | _ => false end.
(** [is_timeout]: an I/O error. *)
Definition is_response_timeout (r : result OxanaError unit) : bool :=
  match r with Err (DeadpoolRedisError e) => is_io_error e | _ => false end.

Definition ConnectionJob : Job := default_job "ConnectionJob" (Ok VNull).

Inductive Transition := StartJob | SuccessJob | RetryJob | DeadJob.
Definition transition (storage : StorageInternal) (kind : Transition) (e : JobEnvelope) : rprog unit :=
  match kind with
  | StartJob => pbind (set_started_at_batch storage now [e]) (fun r => Ret r.2)
  | SuccessJob => finish_with_success storage e
  | RetryJob => retry_in storage (id e) 60 "failed" now
  | DeadJob => kill storage e "failed"
  end.

Definition claims_of (storage : StorageInternal) : test (list JobId) := redis (LRANGE (current_processing_queue storage) 0 (-1)).

Definition claimed_transitions_retry_pool_wait_without_consuming_job_retries : test unit :=
  for_each [StartJob; SuccessJob; RetryJob; DeadJob] (fun kind =>
    storage <- random_storage ;; q <- random_string ;; job <- envelope_new q ConnectionJob ;;
    await (enqueue storage 1 job) ;;;
    claimed <- await (dequeue storage q) ;; assert_eq claimed (Some (id job)) ;;;
    (* the slot is held for one attempt *)
    let timeouts := {| sb_wait := Some (from_millis 20); sb_create := None; sb_recycle := None |} in
    checked_out <- unwrap (pool_times timeouts (Some default_pool_retry) [held (from_millis 20) 0; released 0 128]) ;;
    assert (is_ok checked_out.2) ;;;
    await (transition storage kind job) ;;;
    stored <- await (get_job storage (id job)) ;;
    claims <- claims_of storage ;;
    match kind with
    | StartJob =>
        stored <- unwrap stored ;;
        assert (bool_decide (is_Some (started_at (meta stored)))) ;;;
        assert_eq (retries (meta stored)) 0 ;;;
        assert_eq claims [id job]
    | SuccessJob => assert_none stored ;;; assert_eq claims []
    | RetryJob =>
        stored <- unwrap stored ;;
        assert_eq (retries (meta stored)) 1 ;;;
        assert_eq claims [] ;;;
        retrying <- redis (ZRANGE (retry (skeys storage)) 0 (-1)) ;; assert_eq retrying.*1 [id job]
    | DeadJob =>
        assert_none stored ;;; assert_eq claims [] ;;;
        dead <- redis (LRANGE (dead (skeys storage)) 0 (-1)) ;;
        match dead with
        | [text] => e <- ok (parse_job text) ;; assert_eq (id e) (id job) ;;; assert_eq (retries (meta e)) 0
        | _ => assert false
        end
    end).

(** Half of the total budget is left after the first attempt. *)
Definition claimed_connection_recovers_after_long_pool_wait_timeouts : test unit :=
  for_each [0; 255] (fun j =>
    r <- unwrap (pool_times (new_timeouts (from_secs 3)) (Some default_pool_retry) [held (from_secs 3) 0; released (from_secs 1) j]) ;;
    assert (is_ok r.2)).

Definition claimed_connection_exhausts_default_and_scaled_pool_wait_budgets : test unit :=
  for_each [(from_millis 300, from_secs 2); (from_secs 3, from_secs 6)] (fun c =>
    let '(wait_, budget) := c in
    for_each [0; 128; 255] (fun j =>
      r <- unwrap (pool_times (new_timeouts wait_) (Some default_pool_retry) (repeat (held wait_ j) 20)) ;;
      assert (is_wait_timeout r.2) ;;;
      assert (budget <=? r.1) ;;;
      assert (r.1 <=? budget + from_millis 10))).

Definition claimed_connection_does_not_retry_closed_pool : test unit :=
  r <- unwrap (pool_times default_timeouts (Some default_pool_retry) [{| jitter := 0; takes := 0; outcome := Err PoolOther |}]) ;;
  assert (match r.2 with Err (DeadpoolRedisPoolError PoolOther) => true | _ => false end).

(** Without time-outs of its own an attempt would wait as long as the slot is held. *)
Definition claimed_connection_bounds_the_first_acquisition_without_pool_timeouts : test unit :=
  r <- unwrap (pool_times {| sb_wait := None; sb_create := None; sb_recycle := None |} (Some default_pool_retry) [held duration_max 0]) ;;
  assert (is_response_timeout r.2) ;;;
  assert ((from_secs 2 <=? r.1) && (r.1 <=? from_secs 2 + from_millis 1)).

Definition custom_retry_window_limits_the_first_acquisition : test unit :=
  r <- unwrap (pool_times (new_timeouts (from_secs 3)) (Some (retry_config (from_millis 150) (from_millis 100) (from_secs 1)))
                 [held (from_secs 3) 0]) ;;
  assert (is_response_timeout r.2) ;;;
  assert ((from_millis 150 <=? r.1) && (r.1 <=? from_millis 150 + from_millis 1)).

(** The delay before each retry is within half to all of its ceiling, and the next attempt follows it. *)
Definition claimed_connection_uses_configured_exponential_backoff_with_jitter : test unit :=
  let wait_ := from_millis 20 in
  let c := retry_config (from_secs 30) (from_secs 2) (from_secs 5) in
  for_each [0; 1; 128; 254; 255] (fun j =>
    for_each [(0, 2); (1, 4); (2, 5); (3, 5)] (fun r =>
      let '(retry_, ceiling) := r in
      let before := repeat (held wait_ j) (Z.to_nat retry_) in
      first <- unwrap (pool_times (new_timeouts wait_) (Some c) (before ++ [released wait_ j])) ;;
      next <- unwrap (pool_times (new_timeouts wait_) (Some c) (before ++ [held wait_ j; released wait_ j])) ;;
      let delay := next.1 - first.1 - wait_ in
      assert (is_ok next.2) ;;;
      assert ((from_secs ceiling / 2 <=? delay) && (delay <=? from_secs ceiling + from_millis 1)))).

(** The pool a program's first checkout asks. *)
Definition first_checkout {A} (p : prog A) : option checkout :=
  match p with
  | Op e _ => match e with Checkout c => Some c | _ => None end
  | Ret _ => None
  end.
Definition is_claimed (c : checkout) : bool := match c with Claimed _ => true | _ => false end.

Definition custom_retries_only_extend_claimed_connections_and_follow_new_processes : test unit :=
  let wait_ := from_millis 20 in
  storage <- random_storage ;;
  for_each [first_checkout (Recovery.ping storage now_ms now_secs); first_checkout (stats_connection storage); first_checkout connection] (fun c =>
    c <- unwrap c ;; assert (negb (is_claimed c))) ;;;
  disabled <- unwrap (pool_times (new_timeouts wait_) None [held wait_ 0]) ;;
  assert (negb (is_ok disabled.2)) ;;; assert (disabled.1 <=? from_millis 30) ;;;
  claimed <- unwrap (first_checkout (claimed_connection "start")) ;; assert (is_claimed claimed) ;;;
  r <- unwrap (pool_times (new_timeouts wait_) (Some (retry_config (from_millis 750) (from_millis 10) (from_millis 50))) (repeat (held wait_ 255) 40)) ;;
  assert (negb (is_ok r.2)) ;;;
  assert ((from_millis 750 <=? r.1) && (r.1 <=? from_millis 750 + from_millis 1)).

Definition builder_with (c : option PoolRetryConfig) : StorageBuilder :=
  {| sb_namespace := None; sb_max_pool_size := None; sb_timeouts := None; sb_claimed_connection_retries := c;
     sb_redis_response_timeout := None; sb_dead_job_limit := Some 1000 |}.
(** Every way to build a storage; moments beyond [duration_max] do not fit the clock. *)
Definition before_the_end (d : Duration) : bool := d <? duration_max.
Definition all_builds (c : option PoolRetryConfig) : list (result OxanaError BuiltStorage) :=
  let url := "redis://127.0.0.1/0" in
  [build_from_redis_url named_pool before_the_end me url (builder_with c);
   build_from_redis_urls named_pool before_the_end me url url (builder_with c);
   build_from_pool before_the_end me url (builder_with c); build_from_pools before_the_end me url url (builder_with c)].

Definition same_policy (a b : option PoolRetryConfig) : bool :=
  let parts c := (fun c => (retry_window c, initial_backoff c, max_backoff c)) <$> c in bool_decide (parts a = parts b).
Definition all_builders_preserve_the_claimed_connection_policy : test unit :=
  for_each [None; Some default_pool_retry; Some (retry_config (from_secs 5) (from_millis 250) (from_secs 2))] (fun c =>
    for_each (all_builds c) (fun r => s <- ok r ;; assert (same_policy (built_claimed_retries s) c))).

Definition all_builders_reject_invalid_claimed_connection_policies : test unit :=
  for_each
    [retry_config 0 (from_millis 100) (from_secs 1); retry_config duration_max (from_millis 100) (from_secs 1);
     {| retry_window := None; initial_backoff := 0; max_backoff := from_secs 1 |};
     {| retry_window := None; initial_backoff := from_millis 100; max_backoff := from_millis 50 |};
     {| retry_window := None; initial_backoff := from_millis 100; max_backoff := duration_max |}] (fun c =>
    for_each (all_builds (Some c)) (fun r => assert (match r with Err (ConfigError _) => true | _ => false end))).

Definition claimed_start_does_not_retry_command_errors : test unit :=
  storage <- random_storage ;; q <- random_string ;; job <- envelope_new q ConnectionJob ;;
  redis_set (jobs (skeys storage)) "wrong type" ;;;
  result <- result_of (transition storage StartJob job) ;;
  assert (match result with Err (DeadpoolRedisError _) => true | _ => false end).

(** ** [coordinator/connection_tests.rs]: whole executions while connections fail

    A checkout answers when its retries are over. Shutdown while one waits
    ([graceful_shutdown_drains_a_batch_waiting_for_a_connection],
    [force_cancel_drops_connection_retry_and_retains_claims]) is a matter of
    [Pipeline]'s steps. *)

(** Every checkout exhausts its retries. *)
Definition no_connections : RedisServer := {|
  db := keyspace; view := fun ks => ks;
  exec := fun X _ ks => (Err {| is_io_error := true; error_kind := None |}, ks);
  take_connection := fun _ ks => (Err (DeadpoolRedisPoolError PoolTimeout), ks);
|}.

Definition claimed_jobs (storage : StorageInternal) (count : nat) : test (list JobEnvelope) :=
  map_each (fun _ =>
    e <- envelope_new "connection_test" ConnectionJob ;;
    await (enqueue storage 1 e) ;;;
    claimed <- await (dequeue storage (queue e)) ;; assert_eq claimed (Some (id e)) ;;; tret e) (seq 0 count).

Definition connection_worker (run_batch : list BatchItem -> ended string) (max : option Z) : Worker (WorkerError := string) :=
  {| w_type_name := "ConnectionWorker"; w_args_name := "ConnectionJob"; w_process := None; w_run_batch := Some run_batch;
     w_max_retries := (fun m _ => m) <$> max; w_retry_delay := None |}.
(** A registry with that worker, for executions of these jobs. *)
Definition connection_registry (w : Worker (WorkerError := string)) (es : list JobEnvelope) : test (WorkerRegistry (Schedule := string)) :=
  let kind := {| jk_name := "ConnectionJob"; jk_should_resume := true; jk_decode := fun _ => Ok ConnectionJob |} in
  let t := job_type (fun e => e) no_callbacks w kind (job_contexts (started kind now es)) in
  batch_worker "ConnectionJob" (job_factory t) (job_batch_factory t) 1.

Definition brief_create_timeout_does_not_restart_single_or_batch_workers : test unit :=
  for_each [1; 18]%nat (fun count =>
    storage <- random_storage ;;
    pending <- claimed_jobs storage count ;;
    (* longer than the time-out of 100 milliseconds *)
    checked_out <- unwrap (pool_times (new_timeouts (from_millis 100)) (Some default_pool_retry)
                             [held (from_millis 100) 0; held (from_millis 100) 255; released 0 128]) ;;
    assert (is_ok checked_out.2) ;;;
    registry <- connection_registry (connection_worker (fun items =>
      Returned (if bool_decide (length items = count) then Ok tt else Err "jobs are missing")) None) pending ;;
    finished <- await (process_batch registry storage pending) ;;
    outcome <- unwrap finished ;;
    assert (match out_kind outcome.1 with Success => true | _ => false end) ;;;
    assert_eq outcome.2 [] ;;;
    claims <- claims_of storage ;; assert_eq claims [] ;;;
    jobs <- await (jobs_count storage) ;; assert_eq jobs 0%nat).

(** Jobs that are still claimed, have not been retried, and may have been started. *)
Definition assert_still_claimed (storage : StorageInternal) (es : list JobEnvelope) (was_started : bool) : test unit :=
  claims <- claims_of storage ;;
  assert_eq (list_to_set claims : gset string) (list_to_set (id <$> es)) ;;;
  assert_eq (length claims) (length es) ;;;
  for_each es (fun e =>
    found <- await (get_job storage (id e)) ;; stored <- unwrap found ;;
    assert_eq (bool_decide (is_Some (started_at (meta stored)))) was_started ;;;
    assert_eq (retries (meta stored)) 0).

Definition sustained_create_timeout_preserves_claims_and_stops_runtime : test unit :=
  storage <- random_storage ;;
  pending <- claimed_jobs storage 2 ;;
  checked_out <- unwrap (pool_times (new_timeouts (from_millis 100)) (Some default_pool_retry) (repeat (held (from_millis 100) 0) 40)) ;;
  assert (is_wait_timeout checked_out.2) ;;; assert (from_secs 2 <=? checked_out.1) ;;;
  registry <- connection_registry (connection_worker (fun _ => Returned (Ok tt)) None) pending ;;
  result <- on_redis (@Redis.run no_connections _ (process_batch registry storage pending)) ;;
  match result with
  | Err e => assert (is_wait_timeout (Err e)) ;;; assert (cancelled (fail e (launched 1)))
  | Ok _ => assert false
  end ;;;
  assert_still_claimed storage pending false.

Definition lost_start_reply_is_not_replayed_and_keeps_claims : test unit :=
  storage <- random_storage ;;
  pending <- claimed_jobs storage 2 ;;
  registry <- connection_registry (connection_worker (fun _ => Returned (Ok tt)) None) pending ;;
  fails_injected LoseReply ["HMSET"; jobs (skeys storage)] (process_batch registry storage pending) ;;;
  assert_still_claimed storage pending true.

(** Connections are lost while the worker runs. *)
Definition stops_after_first_transition_connection_failure (panics : bool) : test unit :=
  for_each [false; true] (fun terminal =>
    storage <- random_storage ;;
    pending <- claimed_jobs storage 4 ;;
    registry <- connection_registry (connection_worker (fun _ =>
      if panics then Unwound (PanicStr "injected batch panic") else Returned (Err "injected batch failure"))
      (Some (if terminal then 0 else 2))) pending ;;
    rest <- pause_once ["HMSET"; jobs (skeys storage)] (process_batch registry storage pending) ;;
    result <- on_redis (@Redis.run no_connections _ rest) ;;
    finished <- ok result ;; outcome <- unwrap finished ;;
    assert_eq outcome.2 [DeadpoolRedisPoolError PoolTimeout] ;;;
    assert_still_claimed storage pending true ;;;
    retrying <- await (retries_count storage) ;; assert_eq retrying 0%nat ;;;
    dead <- await (dead_count storage) ;; assert_eq dead 0%nat).

Definition failed_batch_stops_after_first_transition_connection_failure : test unit :=
  stops_after_first_transition_connection_failure false.
Definition panicked_batch_stops_after_first_transition_connection_failure : test unit :=
  stops_after_first_transition_connection_failure true.

Lemma runtime_tests_pass : Forall (fun t => passes t = true)
  [manual_cron_worker_config_requires_typed_factory;
   worker_registration_accepts_canonical_and_legacy_worker_names;
   cron_worker_uses_canonical_catalog_and_legacy_consumer_alias;
   catalog_lists_only_on_demand_jobs_sorted;
   on_demand_factory_preserves_job_hooks;
   only_queue_builds_an_allowlist_without_changing_the_catalog;
   except_queue_builds_a_denylist_without_changing_the_catalog;
   runtime_runs_all_queues_without_an_allowlist;
   run_rejects_an_unregistered_selected_queue;
   run_rejects_an_unregistered_excluded_queue;
   dynamic_queue_selection_matches_the_parent_configuration;
   dynamic_queue_exclusion_matches_the_parent_configuration;
   runtime_settings_defaults_match_existing_behavior;
   runtime_setting_setters_override_defaults;
   cron_lookahead_allows_values_above_the_default;
   runtime_loop_cadence_setters_reject_zero;
   missing_job_cleanup_error_is_propagated;
   invalid_single_job_cleanup_error_is_propagated;
   invalid_batch_factory_cleanup_error_is_propagated;
   invalid_batch_items_cleanup_error_is_propagated;
   process_pending_batch_handles_unsorted_invalid_indexes;
   mixed_batch_preserves_job_context_order_and_permit_lifetimes;
   queue_task_errors_initiate_shutdown;
   claimed_transitions_retry_pool_wait_without_consuming_job_retries;
   claimed_connection_recovers_after_long_pool_wait_timeouts;
   claimed_connection_exhausts_default_and_scaled_pool_wait_budgets;
   claimed_connection_does_not_retry_closed_pool;
   claimed_connection_bounds_the_first_acquisition_without_pool_timeouts;
   custom_retry_window_limits_the_first_acquisition;
   claimed_connection_uses_configured_exponential_backoff_with_jitter;
   custom_retries_only_extend_claimed_connections_and_follow_new_processes;
   all_builders_preserve_the_claimed_connection_policy;
   all_builders_reject_invalid_claimed_connection_policies;
   claimed_start_does_not_retry_command_errors;
   brief_create_timeout_does_not_restart_single_or_batch_workers;
   sustained_create_timeout_preserves_claims_and_stops_runtime;
   lost_start_reply_is_not_replayed_and_keeps_claims;
   failed_batch_stops_after_first_transition_connection_failure;
   panicked_batch_stops_after_first_transition_connection_failure].
Proof. all_pass. Qed.
