(* ===== verification/WorkerTests.v ===== *)
(** * The tests of workers, jobs and failure reports ([mod tests] of worker.rs and failure.rs)

    Each test under its name; see TestKit. The derives are given the syntax of the
    attributes. The processes of workers are user code nothing here runs. Left out
    are the tests of failure.rs about what only Sentry knows: scopes of concurrent
    tasks ([concurrent_reports_do_not_leak_scope_metadata]), frames and breadcrumbs
    ([error_event_builder_avoids_debug_and_preserves_scope_and_metadata]), panics
    outside an execution ([panic_hook_outside_worker_scope_is_unaffected]), and, in
    the others, users and breadcrumbs. *)
From S2P Require Import Prelude Errors Redis Envelope Codec Queue Keys Storage JobState Executor Registry Runtime Builder Worker Derives Failure.
From S2P Require Import TestKit DataTests.
Open Scope list_scope.
Open Scope Z_scope.
Open Scope test_scope.

(** ** Deriving *)

(** [heck], as far as the tests use it. *)
Definition upper (c : ascii) : ascii :=
  let n := N_of_ascii c in if ((97 <=? n) && (n <=? 122))%N then ascii_of_N (n - 32) else c.
Fixpoint camel_case (s : string) : string :=
  match s with
  | String "_" (String c s') => String (upper c) (camel_case s')
  | String c s' => String c (camel_case s')
  | EmptyString => EmptyString
  end.
Definition test_convert (r : RenameRule) (s : string) : string := match r with CamelCase => camel_case s | _ => s end.

Definition no_job_args : JobArgs :=
  {| ja_unique_id := None; ja_on_conflict := None; ja_resurrect := None; ja_resume := None; ja_throttle_cost := None;
     ja_on_demand := false |}.
Definition conflict_args (ident : string) : JobArgs :=
  {| ja_unique_id := None; ja_on_conflict := Some ident; ja_resurrect := None; ja_resume := None; ja_throttle_cost := None;
     ja_on_demand := false |}.
(** [#[oxana(unique_id ...)]], and a throttle cost's path. *)
Definition unique_args (m : Meta) (throttle_cost_ : option path) : test JobArgs :=
  spec <- unwrap (res_ok (unique_id_from_meta m)) ;;
  tret {| ja_unique_id := Some spec; ja_on_conflict := None; ja_resurrect := None; ja_resume := None;
          ja_throttle_cost := CustomFunc <$> throttle_cost_; ja_on_demand := false |}.

(** A job's fields and functions. *)
Definition no_user : JobUser :=
  {| ju_fields := []; ju_expr _ := None; ju_unique_id _ := None; ju_throttle_cost _ := None |}.
Definition derive_job (type_name : string) (u : JobUser) (a : JobArgs) : test Job :=
  r <- unwrap (expand_derive_job test_convert type_name (Ok (VObject [])) u [] FieldsUnit a) ;; tret r.1.

Definition no_worker_args : WorkerArgs :=
  {| wa_job := None; wa_registry := None; wa_max_retries := None; wa_retry_delay := None; wa_batch_size := None;
     wa_batch_timeout_ms := None; wa_cron := None |}.
Definition succeeds : WorkerMethods (WorkerError := string) :=
  {| um_process _ _ := Returned (Ok tt); um_process_batch _ := Returned (Ok tt); um_max_retries _ _ := 9;
     um_retry_delay _ _ retries_ := retries_ * 2 |}.
Definition derive_worker (type_name : string) (a : WorkerArgs) : test (DerivedWorker (WorkerError := string)) :=
  unwrap (res_ok (expand_derive_worker false type_name (default_job_ident type_name) succeeds a)).
(** [max_retries = m, retry_delay = d]. *)
Definition retry_args (m d : Expr) : test WorkerArgs :=
  max <- unwrap (res_ok (num_or_path_from_meta (2 ^ 32 - 1) "max_retries" (MNameValue ["max_retries"] m))) ;;
  delay <- unwrap (res_ok (num_or_path_from_meta u64_max "retry_delay" (MNameValue ["retry_delay"] d))) ;;
  tret {| wa_job := None; wa_registry := None; wa_max_retries := Some max; wa_retry_delay := Some delay;
          wa_batch_size := None; wa_batch_timeout_ms := None; wa_cron := None |}.

(** ** [worker.rs] *)

(** The parts of [test_define_worker_with_macro]. *)
Definition defines_defaults : test unit :=
  w <- derive_worker "TestWorker" no_worker_args ;; j <- derive_job "TestJob" no_user no_job_args ;;
  assert_eq (worker_max_retries (dw_worker w) j) 2 ;;;
  assert_eq (job_name j) "TestJob".

Definition defines_numbers : test unit :=
  args <- retry_args (ELitInt 3) (ELitInt 10) ;;
  w <- derive_worker "TestWorkerCustomError" args ;;
  j <- derive_job "TestWorkerCustomErrorJob" no_user (conflict_args "Replace") ;;
  assert_eq (worker_max_retries (dw_worker w) j) 3 ;;;
  assert_eq (worker_retry_delay (dw_worker w) j 1) 10 ;;;
  assert_eq (job_on_conflict j) Replace.

Definition defines_unique_id : test unit :=
  args <- unique_args (MNameValue ["unique_id"] (ELitStr "test_worker_{id}")) None ;;
  let job_with i := derive_job "TestWorkerUniqueIdJob"
    {| ju_fields := [("id", i); ("_1", "0")]; ju_expr _ := None; ju_unique_id _ := None; ju_throttle_cost _ := None |} args in
  w <- derive_worker "TestWorkerUniqueId" no_worker_args ;; j <- job_with "0" ;;
  assert_eq (worker_max_retries (dw_worker w) j) 2 ;;;
  j <- job_with "1" ;; assert_eq (job_unique_id j) (Some "test_worker_1") ;;;
  j <- job_with "12" ;; assert_eq (job_unique_id j) (Some "test_worker_12").

Definition defines_nested_unique_id : test unit :=
  args <- unique_args (MList ["unique_id"] (Some
    [MNameValue ["fmt"] (ELitStr "test_worker_{id}_{task}"); MNameValue ["id"] (EOther "self.id");
     MNameValue ["task"] (EOther "self.task.name")])) None ;;
  let job_with i task := derive_job "TestWorkerNestedUniqueIdJob"
    {| ju_fields := [("id", i)];
       ju_expr e := match e with EOther "self.id" => Some i | EOther "self.task.name" => Some task | _ => None end;
       ju_unique_id _ := None; ju_throttle_cost _ := None |} args in
  j <- job_with "1" "task1" ;; assert_eq (job_unique_id j) (Some "test_worker_1_task1") ;;;
  j <- job_with "2" "task2" ;; assert_eq (job_unique_id j) (Some "test_worker_2_task2").

(** Jobs whose identifier and cost come from functions, named [prefix::unique_id] and [prefix::throttle_cost]. *)
Definition job_with_functions (prefix type_name unique_id : string) (cost : Z) : test Job :=
  args <- unique_args (MNameValue ["unique_id"] (EPath [prefix; "unique_id"])) (Some [prefix; "throttle_cost"]) ;;
  derive_job type_name
    {| ju_fields := []; ju_expr _ := None;
       ju_unique_id p := if bool_decide (p = [prefix; "unique_id"]) then Some unique_id else None;
       ju_throttle_cost p := if bool_decide (p = [prefix; "throttle_cost"]) then Some cost else None |} args.
Definition custom_job (i : Z) (task : string) : Z -> test Job :=
  job_with_functions "Self" "TestWorkerCustomUniqueIdJob" ("worker_id_" +:+ z_to_string i +:+ "_task_" +:+ task).
Definition explicit_job (i : Z) : Z -> test Job :=
  job_with_functions "TestWorkerExplicitJobHooksJob" "TestWorkerExplicitJobHooksJob" ("explicit_job_" +:+ z_to_string i).

Definition defines_functions : test unit :=
  j <- custom_job 1 "11" 3 ;; assert_eq (job_unique_id j) (Some "worker_id_1_task_11") ;;;
  j <- custom_job 2 "22" 5 ;;
  assert_eq (job_unique_id j) (Some "worker_id_2_task_22") ;;;
  assert_eq (job_throttle_cost j) (Some 5) ;;;
  args <- retry_args (EPath ["Self"; "max_retries"]) (EPath ["Self"; "retry_delay"]) ;;
  w <- derive_worker "TestWorkerCustomUniqueId" args ;;
  assert_eq (worker_retry_delay (dw_worker w) j 1) 2 ;;;
  assert_eq (worker_retry_delay (dw_worker w) j 2) 4 ;;;
  assert_eq (worker_max_retries (dw_worker w) j) 9 ;;;
  j <- custom_job 3 "33" 7 ;; envelope <- envelope_new "default" j ;;
  assert_eq (throttle_cost (meta envelope)) (Some 7) ;;;
  j <- explicit_job 4 9 ;;
  assert_eq (job_unique_id j) (Some "explicit_job_4") ;;;
  assert_eq (job_throttle_cost j) (Some 9) ;;;
  j <- explicit_job 5 11 ;; envelope <- envelope_new "default" j ;;
  assert_eq (throttle_cost (meta envelope)) (Some 11).

Definition defines_batch : test unit :=
  w <- derive_worker "TestWorkerBatch"
    {| wa_job := None; wa_registry := None; wa_max_retries := None; wa_retry_delay := None; wa_batch_size := Some 25%nat;
       wa_batch_timeout_ms := Some 150; wa_cron := None |} ;;
  batch_config <- unwrap (dw_batch_config w) ;;
  assert_eq (batch_size batch_config) 25%nat ;;;
  assert_eq (batch_timeout batch_config) (from_millis 150).

Definition test_define_worker_with_macro : test unit :=
  defines_defaults ;;; defines_numbers ;;; defines_unique_id ;;; defines_nested_unique_id ;;; defines_functions ;;; defines_batch.

Definition default_worker_run_batch_panics_instead_of_recursing : test unit :=
  let missing : Worker (WorkerError := string) :=
    {| w_type_name := "MissingWorkerHook"; w_args_name := "MissingWorkerHookJob"; w_process := None; w_run_batch := None;
       w_max_retries := None; w_retry_delay := None |} in
  let j := default_job "MissingWorkerHookJob" (Ok VNull) in
  envelope <- envelope_new "default" j ;;
  match worker_process missing j (job_context envelope) with
  | Unwound (PanicString message) =>
      assert (contains message "Worker::run_batch is not implemented") ;;;
      assert (contains message "MissingWorkerHook") ;;;
      assert (contains message "MissingWorkerHookJob")
  | _ => assert false
  end.

Definition test_define_cron_worker_with_macro : test unit :=
  args <- unique_args (MNameValue ["unique_id"] (ELitStr "test_cron")) None ;;
  j <- derive_job "TestCronJob" no_user
    {| ja_unique_id := ja_unique_id args; ja_on_conflict := Some "Skip"; ja_resurrect := None; ja_resume := None;
       ja_throttle_cost := None; ja_on_demand := false |} ;;
  default_queue <- derived "DefaultQueue" [] no_args ;;
  w <- derive_worker "TestCronWorker"
    {| wa_job := None; wa_registry := None; wa_max_retries := None; wa_retry_delay := None; wa_batch_size := None;
       wa_batch_timeout_ms := None; wa_cron := Some ("*/1 * * * * *", default_queue.2) |} ;;
  cron <- unwrap (dw_cron w) ;;
  assert_eq cron.1 "*/1 * * * * *" ;;;
  assert (queue_config_eq cron.2 default_queue.2) ;;;
  assert (job_should_resurrect j).

Definition test_define_worker_with_resurrect_false : test unit :=
  j <- derive_job "NoResurrectJob" no_user
    {| ja_unique_id := None; ja_on_conflict := None; ja_resurrect := Some false; ja_resume := None; ja_throttle_cost := None;
       ja_on_demand := false |} ;;
  assert (negb (job_should_resurrect j)) ;;;
  j <- derive_job "DefaultResurrectJob" no_user no_job_args ;; assert (job_should_resurrect j).

Definition test_define_job_with_resume_false : test unit :=
  j <- derive_job "NoResumeJob" no_user
    {| ja_unique_id := None; ja_on_conflict := None; ja_resurrect := None; ja_resume := Some false; ja_throttle_cost := None;
       ja_on_demand := false |} ;;
  assert (negb (job_should_resume j)) ;;;
  j <- derive_job "DefaultResumeJob" no_user no_job_args ;; assert (job_should_resume j).

(** The template of an on-demand job with these attributes and fields. *)
Definition template_of (attrs : list (list SerdeMeta)) (fields : Fields) (on_demand_ : bool) : option Value :=
  expand_on_demand_args_template test_convert attrs fields on_demand_.
Definition plain_field (name : string) (t : Ty) : Field := {| fd_ident := name; fd_ty := t; fd_attrs := [] |}.
Definition type_path (ident : string) : Ty := TPath ident None.

Definition test_on_demand_args_template_macro : test unit :=
  assert_eq (template_of [] (FieldsNamed [plain_field "value" (type_path "String")]) false) None ;;;
  let named :=
    [plain_field "name" (type_path "String"); plain_field "count" (type_path "u32"); plain_field "enabled" (type_path "bool");
     plain_field "ratio" (type_path "f64"); plain_field "optional" (TPath "Option" (Some (type_path "String")));
     plain_field "tags" (TPath "Vec" (Some (type_path "String"))); plain_field "labels" (TPath "HashMap" (Some (type_path "String")));
     plain_field "nested" (type_path "NestedTask"); plain_field "customer_id" (type_path "CustomerId");
     {| fd_ident := "renamed_id"; fd_ty := type_path "u64";
        fd_attrs := [[{| sm_path := ["rename"]; sm_value := Some (Some "custom_id") |}]] |};
     {| fd_ident := "skipped"; fd_ty := type_path "String"; fd_attrs := [[{| sm_path := ["skip"]; sm_value := None |}]] |}] in
  assert_eq (template_of [[{| sm_path := ["rename_all"]; sm_value := Some (Some "camelCase") |}]] (FieldsNamed named) true)
    (Some (VObject [("name", VStr ""); ("count", num 0); ("enabled", VBool false); ("ratio", VNumber (NumFloat "0.0"));
                    ("optional", VNull); ("tags", VArray []); ("labels", VObject []); ("nested", VObject []);
                    ("customerId", num 0); ("custom_id", num 0)])) ;;;
  assert_eq (template_of [] (FieldsUnnamed [type_path "String"; type_path "u64"; TPath "Option" (Some (type_path "bool"));
                                            TPath "Vec" (Some (type_path "String"))]) true)
    (Some (VArray [VStr ""; num 0; VNull; VArray []])) ;;;
  assert_eq (template_of [] FieldsUnit true) (Some VNull).

(** ** [failure.rs] *)

Definition failed (job_id : string) (retry_count max : Z) : FailedJobMetadata :=
  let will_retry := retry_count <? max in
  {| fj_job_id := job_id; fj_args := VObject [("source", VStr job_id)]; fj_retry_count := retry_count; fj_max_retries := max;
     fj_will_retry := will_retry; fj_terminal := negb will_retry |}.
Definition metadata (q : string) (jobs : list FailedJobMetadata) : WorkerFailureMetadata :=
  let will_retry := existsb fj_will_retry jobs in
  {| fm_batch_size := length jobs; fm_jobs := jobs; fm_queue := q; fm_job_name := "test::EmailJob";
     fm_worker_name := "test::EmailWorker"; fm_will_retry := will_retry; fm_terminal := negb will_retry |}.

(** [ConcreteWorkerError], by its text, and the event Sentry makes of it and its source. *)
Definition ConcreteWorkerError : string := "concrete worker error".
Definition event_from_error (e : string) : Event :=
  {| ev_id := "event"; ev_level := LevelError;
     ev_exceptions := [{| exc_ty := "RootCause"; exc_value := Some "root cause"; exc_mechanism := None |};
                       {| exc_ty := "ConcreteWorkerError"; exc_value := Some e; exc_mechanism := None |}] |}.

(** [report_failure] with the default settings, or with a reporter. *)
Definition reported (custom_reporter : bool) (report : WorkerFailureReport string) : list action :=
  report_failure custom_reporter event_from_error "event" SentryPanic report {| panic_event := None |}.
Definition error_report (m : WorkerFailureMetadata) : WorkerFailureReport string :=
  {| rep_failure := ErrorFailure ConcreteWorkerError; rep_metadata := m |}.

(** The only event that is sent. *)
Definition one_event (actions : list (action (WorkerError := string))) : test Captured :=
  match actions with [Sent c] => tret c | _ => unwrap None end.
Definition tag (c : Captured) (key : string) : option string := snd ∘ snd <$> list_find (fun p : string * string => p.1 = key) (cap_tags c).
Definition oxana_context (c : Captured) (key : string) : option Value := value_get key (cap_context c).

Definition custom_reporter_replaces_default_and_receives_concrete_error : test unit :=
  match reported true (error_report (metadata "custom" [failed "custom-id" 0 1])) with
  | [Reporter report] =>
      assert_eq (fj_args <$> fm_jobs (rep_metadata report)) [VObject [("source", VStr "custom-id")]] ;;;
      assert (match rep_failure report with ErrorFailure e => String.eqb e ConcreteWorkerError | _ => false end)
  | _ => assert false
  end.

Definition failure_reporter_takes_precedence_over_error_event_builder : test unit :=
  match reported true (error_report (metadata "custom" [failed "job-123" 0 1])) with
  | [Reporter _] => tret tt
  | _ => assert false
  end.

Definition returned_error_creates_one_enriched_report : test unit :=
  event <- one_event (reported false (error_report (metadata "mailers" [failed "job-123" 1 3]))) ;;
  for_each [("oxana.queue", "mailers"); ("oxana.job", "test::EmailJob"); ("oxana.worker", "test::EmailWorker");
            ("oxana.job_id", "job-123"); ("oxana.retry_count", "1"); ("oxana.max_retries", "3"); ("oxana.batch_size", "1");
            ("oxana.will_retry", "true"); ("oxana.failure_kind", "error")]
    (fun p => assert_eq (tag event p.1) (Some p.2)) ;;;
  assert_eq (exc_value <$> ev_exceptions (cap_event event)) [Some "root cause"; Some "concrete worker error"] ;;;
  assert_eq (oxana_context event "queue") (Some (VStr "mailers")) ;;;
  assert_eq (oxana_context event "jobs")
    (Some (VArray [VObject [("job_id", VStr "job-123"); ("args", VObject [("source", VStr "job-123")]); ("retry_count", num 1);
                            ("max_retries", num 3); ("will_retry", VBool true); ("terminal", VBool false)]])).

(** The worker's diagnostic is sent as it is; the report has its own scope over the worker's. *)
Definition final_report_reuses_worker_scope_without_exposing_args_to_worker_events : test unit :=
  let diagnostic := {| ev_id := "diagnostic"; ev_exceptions := []; ev_level := OtherLevel |} in
  let '(sent, h) := with_execution_sentry_hub SentryPanic [(false, diagnostic)] in
  assert_eq (ev_id <$> sent) ["diagnostic"] ;;;
  failure <- one_event (report_failure false event_from_error "event" SentryPanic
                         (error_report (metadata "mailers" [failed "job-123" 1 3])) h) ;;
  assert (match cap_hub failure with ExecutionHub => true | FreshHub => false end) ;;;
  assert_eq (tag failure "oxana.job_id") (Some "job-123") ;;;
  jobs <- unwrap (oxana_context failure "jobs") ;;
  match jobs with
  | VArray (first :: _) => args <- unwrap (value_get "args" first) ;; assert_eq (value_get "source" args) (Some (VStr "job-123"))
  | _ => assert false
  end.

Definition batch_report_contains_per_job_retry_metadata : test unit :=
  event <- one_event (reported false (error_report (metadata "batch" [failed "retrying" 0 2; failed "terminal" 2 2]))) ;;
  assert_eq (tag event "oxana.batch_size") (Some "2") ;;;
  assert_none (tag event "oxana.retry_count") ;;;
  assert_none (tag event "oxana.max_retries") ;;;
  assert_eq (tag event "oxana.will_retry") (Some "true") ;;;
  assert_none (tag event "oxana.job_id") ;;;
  match oxana_context event "jobs" with
  | Some (VArray [retrying_job; terminal_job]) =>
      for_each [(retrying_job, "retrying", true, false); (terminal_job, "terminal", false, true)] (fun c =>
        let '(j, job_id, will_retry, terminal) := c in
        assert_eq (value_get "job_id" j) (Some (VStr job_id)) ;;;
        assert_eq (value_get "args" j) (Some (VObject [("source", VStr job_id)])) ;;;
        assert_eq (value_get "will_retry" j) (Some (VBool will_retry)) ;;;
        assert_eq (value_get "terminal" j) (Some (VBool terminal)))
  | _ => assert false
  end.

Definition retrying_and_non_retrying_executions_are_filterable : test unit :=
  retrying <- one_event (reported false (error_report (metadata "retrying" [failed "retrying" 0 1]))) ;;
  terminal <- one_event (reported false (error_report (metadata "terminal" [failed "terminal" 1 1]))) ;;
  let shown event := tag event <$> ["oxana.queue"; "oxana.will_retry"; "oxana.terminal"] in
  assert_eq (shown retrying) [Some "retrying"; Some "true"; Some "false"] ;;;
  assert_eq (shown terminal) [Some "terminal"; Some "false"; Some "true"].

(** What is captured while the worker unwinds: the hook's event, and what a destructor captures. *)
Definition panic_exception (message mechanism : string) (handled : option bool) : Exception :=
  {| exc_ty := "panic"; exc_value := Some message; exc_mechanism := Some {| mech_ty := mechanism; mech_handled := handled |} |}.
Definition unwinding (with_hook : bool) : list (bool * Event) :=
  let diagnostic := {| ev_id := "diagnostic"; ev_exceptions := []; ev_level := LevelError |} in
  if with_hook then
    [(true, {| ev_id := "hook"; ev_exceptions := [panic_exception "worker panicked" "panic" (Some false)]; ev_level := OtherLevel |});
     (true, diagnostic);
     (true, {| ev_id := "duplicate"; ev_exceptions := [panic_exception "duplicate from destructor" "panic" None]; ev_level := LevelError |})]
  else [(true, diagnostic)].

Definition panic_case (f : features) (with_hook custom_reporter : bool) (batch : nat) : test unit :=
  let m := metadata "panics" ((fun i => failed ("panic-" +:+ pretty i) (Z.of_nat i) 1) <$> seq 0 batch) in
  let '(sent, h) := with_execution_sentry_hub f (unwinding with_hook) in
  assert_eq (length sent) 0%nat ;;;
  let actions := report_failure custom_reporter event_from_error "event" f
    {| rep_failure := PanicFailure "worker panicked"; rep_metadata := m |} h in
  if custom_reporter then
    match actions with
    | [Reporter report] =>
        assert (match rep_failure report with PanicFailure message => String.eqb message "worker panicked" | _ => false end) ;;;
        assert_eq (fm_batch_size (rep_metadata report)) batch
    | _ => assert false
    end
  else if sentry_panic f then
    event <- one_event actions ;;
    exception <- unwrap (head (ev_exceptions (cap_event event))) ;;
    assert_eq (exc_value exception) (Some "worker panicked") ;;;
    mechanism <- unwrap (exc_mechanism exception) ;;
    assert_eq (mech_ty mechanism) "oxana.worker_panic" ;;;
    assert_eq (mech_handled mechanism) (Some true) ;;;
    assert (bool_decide (ev_id (cap_event event) = "hook") || negb with_hook) ;;;
    assert_eq (tag event "oxana.failure_kind") (Some "panic") ;;;
    assert_eq (tag event "oxana.batch_size") (Some (pretty batch)) ;;;
    assert_eq (oxana_context event "jobs") (Some (VArray (failed_job_json <$> fm_jobs m)))
  else assert_eq (length actions) 0%nat.

Definition panic_reporting_respects_features_and_reporter_during_unwind : test unit :=
  for_each [Sentry; SentryPanic] (fun f =>
  for_each [false; true] (fun with_hook =>
  for_each [false; true] (fun custom_reporter =>
  for_each [1; 2]%nat (panic_case f with_hook custom_reporter)))).

Lemma worker_tests_pass : Forall (fun t => passes t = true)
  [defines_defaults;
   defines_numbers;
   defines_unique_id;
   defines_nested_unique_id;
   defines_functions;
   defines_batch;
   test_define_worker_with_macro;
   default_worker_run_batch_panics_instead_of_recursing;
   test_define_cron_worker_with_macro;
   test_define_worker_with_resurrect_false;
   test_define_job_with_resume_false;
   test_on_demand_args_template_macro;
   custom_reporter_replaces_default_and_receives_concrete_error;
   failure_reporter_takes_precedence_over_error_event_builder;
   returned_error_creates_one_enriched_report;
   final_report_reuses_worker_scope_without_exposing_args_to_worker_events;
   batch_report_contains_per_job_retry_metadata;
   retrying_and_non_retrying_executions_are_filterable;
   panic_reporting_respects_features_and_reporter_during_unwind].
Proof. all_pass. Qed.
