(* ===== verification/McpTests.v ===== *)
(** * The tests of the MCP server ([oxana-mcp/src/tests.rs])

    Each test under its name; see TestKit. HTTP and the protocol are axum's and
    rmcp's: a request is its authorization headers, a call its parameters. Left out
    are [transport_rejects_untrusted_host_and_origin] and the handshake of
    [authenticated_clients_can_initialize_and_discover_only_read_tools]. Of the
    library's own records the JSON has the fields the tests read. *)
From S2P Require Import Prelude Errors Redis Envelope Codec Queue Keys Storage Enqueue Metrics Stats StatsStorage Recovery Runtime Api Mcp.
From S2P Require Import TestKit DataTests RuntimeTests.
Open Scope list_scope.
Open Scope Z_scope.
Open Scope test_scope.

#[export] Instance StatsGlobalJson : ToJson StatsGlobal := fun _ => VObject [].
#[export] Instance QueuesJson : ToJson (list QueueStats) := fun qs => VArray ((fun q => VStr (qst_key q)) <$> qs).
#[export] Instance ProcessesJson : ToJson (list Process) := fun ps => VArray ((fun p => VStr (process_id p)) <$> ps).
#[export] Instance JobMetricsJson : ToJson JobMetricsSnapshot := fun m => VObject [("minutes", num (Z.of_nat (snap_minutes m)))].
#[export] Instance QueueLengthsJson : ToJson QueueLengthMetricsSnapshot := fun m => VObject [("minutes", num (Z.of_nat (qls_minutes m)))].

Definition TOKEN : string := "test-token-do-not-use-in-production".

(** The byte string of "é". *)
Definition e_acute : string := String "195" (String "169" "").

Definition invalid_tokens_fail_at_construction : test unit :=
  for_each [""; " "; "a b"; "a" +:+ String "010" "b"; "Bearer token"; "="; "a=b"; e_acute] (fun token =>
    assert_none (router_token token)).

(** The server's answer to a request with these headers: whether it goes on. *)
Definition authorized (headers : list (option string)) : test bool :=
  expected <- unwrap (router_token TOKEN) ;; tret (authenticate String.eqb expected headers).

Definition authentication_covers_every_method_and_rejects_ambiguous_headers : test unit :=
  for_each [[]; [Some "Bearer wrong"]; [Some "Basic test"]; [Some "Bearer "]] (fun headers =>
    passed <- authorized headers ;; assert (negb passed)) ;;;
  passed <- authorized [Some ("Bearer " +:+ TOKEN); Some "Bearer other"] ;; assert (negb passed).

Definition authenticated_clients_can_initialize_and_discover_only_read_tools : test unit :=
  passed <- authorized [Some ("bearer " +:+ TOKEN)] ;; assert passed ;;;
  passed <- authorized [] ;; assert (negb passed).

(** ** Calls *)

Definition clock : Clock := {| c_secs := now_secs; c_micros := now; c_millis := now_ms |}.
Definition tool (s : Api.Storage) (t : ToolCall) : result ErrorData (rprog CallToolResult) := call_tool s t "observed" clock.

(** A call that is answered with structured content. *)
Definition call_ok (s : Api.Storage) (t : ToolCall) : test Value :=
  p <- unwrap (res_ok (tool s t)) ;; answer <- await p ;;
  match answer with StructuredResult v => tret v | ToolError _ => unwrap None end.
Definition data_of (v : Value) : test Value := unwrap (value_get "data" v).
Definition jobs_of (v : Value) : test (list Value) :=
  data <- data_of v ;;
  match value_get "jobs" data with Some (VArray js) => tret js | _ => unwrap None end.

(** Every text of a value. *)
Fixpoint texts (v : Value) : list string :=
  match v with
  | VStr s => [s]
  | VNumber (NumFloat s) => [s]
  | VArray vs => List.flat_map texts vs
  | VObject fs => List.flat_map (fun f => f.1 :: texts f.2) fs
  | _ => []
  end.
Definition assert_no_text (part : string) (v : Value) : test unit :=
  assert (forallb (fun s => negb (contains s part)) (texts v)).

Definition list_request (l : JobList) (q : option string) (limit offset : option Z) : ToolCall :=
  ListJobs {| rq_list := l; rq_queue := q; rq_limit := limit; rq_offset := offset |}.

Definition invalid_queries_are_rejected_before_storage_access : test unit :=
  storage <- random_storage ;;
  let s := storage_handle storage in
  for_each [list_request Queue None None None; list_request Queue (Some "") None None; list_request Dead (Some "default") None None;
            list_request Dead None (Some 0) None; list_request Dead None (Some 101) None; list_request Dead None None (Some u64_max)]
    (fun t => assert (match tool s t with Err (InvalidParams _) => true | Ok _ => false end)) ;;;
  p <- unwrap (res_ok (tool s (GetJob "missing"))) ;;
  answer <- on_redis (@Redis.run closed_pool _ p) ;;
  assert (match answer with Ok (ToolError text) => negb (contains text "127.0.0.1") | _ => false end).

Definition secret_job (i : string) : JobEnvelope :=
  {| id := i; queue := "mcp-test"; job := {| name := "ExampleJob"; args := VObject [("secret", VStr "private-payload")] |};
     meta := {| meta_id := i; on_demand := None; retries := 0; unique := false; on_conflict := None; created_at := 1;
                scheduled_at := 1; started_at := None; state := Some (VObject [("secret", VStr "private-state")]);
                resurrect := default_resurrect; error := Some "example failure"; throttle_cost := None |} |}.

Definition monitoring_tools_read_real_storage_and_omit_payloads : test unit :=
  storage <- random_storage ;;
  let s := storage_handle storage in
  let namespace := VStr (api_namespace s) in
  await (api_enqueue_envelope s 1 (secret_job "test-job")) ;;;
  await (api_enqueue_envelope s 1 (secret_job "second-job")) ;;;
  result <- call_ok s (GetJob "test-job") ;;
  assert_eq (value_get "namespace" result) (Some namespace) ;;;
  assert (match value_get "observed_at" result with Some (VStr _) => true | _ => false end) ;;;
  data <- data_of result ;;
  assert_eq (value_get "id" data) (Some (VStr "test-job")) ;;;
  assert_eq (value_get "error" data) (Some (VStr "example failure")) ;;;
  assert_no_text "private-" result ;;;
  first <- call_ok s (list_request Queue (Some "mcp-test") (Some 1) None) ;;
  second <- call_ok s (list_request Queue (Some "mcp-test") (Some 1) (Some 1)) ;;
  first_jobs <- jobs_of first ;; second_jobs <- jobs_of second ;;
  assert_eq (length first_jobs) 1%nat ;;;
  assert (negb (bool_decide ((value_get "id" <$> first_jobs) = (value_get "id" <$> second_jobs)))) ;;;
  assert_no_text "private-" first ;;;
  for_each [Dead; Retries; Scheduled] (fun l =>
    response <- call_ok s (list_request l None None None) ;; js <- jobs_of response ;; assert_eq js []) ;;;
  for_each [GetOverview; ListQueues; ListProcesses; GetJobMetrics None; GetQueueMetrics None] (fun t =>
    response <- call_ok s t ;; assert_eq (value_get "namespace" response) (Some namespace)) ;;;
  for_each [GetJobMetrics; GetQueueMetrics] (fun t =>
    for_each [(None, 60); (Some 0, 60); (Some 5, 5); (Some 1441, 1440)] (fun c =>
      response <- call_ok s (t c.1) ;; data <- data_of response ;; assert_eq (value_get "minutes" data) (Some (num c.2)))) ;;;
  missing <- call_ok s (GetJob "absent") ;; data <- data_of missing ;; assert_eq data VNull ;;;
  await (api_delete_job s "test-job") ;;; await (api_delete_job s "second-job").

Lemma mcp_tests_pass : Forall (fun t => passes t = true)
  [invalid_tokens_fail_at_construction;
   authentication_covers_every_method_and_rejects_ambiguous_headers;
   authenticated_clients_can_initialize_and_discover_only_read_tools;
   invalid_queries_are_rejected_before_storage_access;
   monitoring_tools_read_real_storage_and_omit_payloads].
Proof. all_pass. Qed.
