(* ===== verification/Witnesses.v ===== *)
(** * Concrete inputs

    Inputs at which the theorems of the development apply: the hypotheses of
    each are shown to hold there, and the theorem is applied. The server is the
    in-memory one ([MemRedis]), the codecs those of Codec and Queue. *)
From S2P Require Import Prelude Errors Redis Envelope Codec Queue Keys Scripts Storage.
From S2P Require Import Transitions Promotion JobState Queries Enqueue EnqueueScript Delivery Contention Client Metrics.
From S2P Require Import MetricsFacts Stats Resilience Recovery RecoveryFacts Permits Throttle Executor ExecutorFacts.
From S2P Require Import Typing Registry Dispatcher Coordinator CoordinatorFacts Pipeline Collector Runtime Node Api Builder Cron Startup Worker.

Local Abbreviation keys := (skeys sample_storage).
Local Abbreviation job_a := (sample_envelope "a" "q" false None).

(** ** The transitions of a claimed job *)

Lemma retry_in_branches_witness :
  from_str <$> payloads sample_store !! "a" = Some (Ok job_a) /\
  @yields MemRedis _ (retry_in sample_storage "a" 5 "boom" 7) sample_ks (Ok tt) (fun ks' =>
    exists js' : job_store sample_storage ks', retrying js' = {[ "a" := 5000007%Z ]}).
Proof.
  split; [reflexivity|].
  destruct (@retry_in_branches MemRedis mem_lawful BitsSerde bits_lawful sample_storage "a" 5 "boom" 7
    sample_ks sample_store) as (d' & Hrun & js' & _ & _ & Hr & _).
  exists d'. split; [exact Hrun|]. exists js'. rewrite Hr. reflexivity.
Defined.

Lemma kill_buries_witness :
  @yields MemRedis _ (kill sample_storage job_a "boom") sample_ks (Ok tt) (fun ks' =>
    exists js' : job_store sample_storage ks', payloads js' !! "a" = None /\ claims js' = []).
Proof.
  destruct (@kill_buries MemRedis mem_lawful BitsSerde bits_lawful sample_storage job_a "boom"
    sample_ks sample_store) as (d' & Hrun & js' & text & _ & _ & Hp & Hc & _).
  exists d'. split; [exact Hrun|]. exists js'. split; [exact Hp|exact Hc].
Defined.

Lemma finish_batch_acknowledges_witness :
  @yields MemRedis _ (finish_with_success_batch sample_storage [job_a]) sample_ks (Ok tt) (fun ks' =>
    exists js' : job_store sample_storage ks', payloads js' !! "a" = None /\ occurrences "a" (claims js') = 0%nat).
Proof.
  destruct (@finish_batch_acknowledges MemRedis mem_lawful sample_storage [job_a]
    sample_ks sample_store) as (d' & Hrun & js' & _ & Hp & Hc).
  exists d'. split; [exact Hrun|]. exists js'. split; [rewrite Hp|rewrite Hc]; reflexivity.
Defined.

(** A server whose jobs key holds a list: the transition fails. *)
Definition wrong_ks : keyspace := <[jobs keys := VList ["x"]]> ∅.


(** ** Enqueueing *)

Definition replace_arg (i q : string) : EnqueueArg :=
  {| in_id := i; in_payload := "p"; in_queue := q; in_conflict := OnReplace; in_score := 3 |}.

Lemma enqueue_lua_sequential_witness :
  fst (script_doc (enqueue_lua "jobs" "schedule" "retry" DestQueue [] [replace_arg "a" "q"; replace_arg "a" "r"]) ∅)
    = Ok ([], [1; 2]%nat).
Proof.
  destruct (enqueue_lua_sequential "jobs" "schedule" "retry" DestQueue []
    [replace_arg "a" "q"; replace_arg "a" "r"] ∅ ∅) as [(ks' & qs & os & Hall & Hrun)|[[e He] _]].
  - vm_compute; reflexivity.
  - etransitivity; [exact (f_equal fst Hrun)|]. apply (f_equal snd) in Hall. vm_compute in Hall. rewrite <- Hall. reflexivity.
  - apply (f_equal (fun r => is_ok r.1)) in He. vm_compute in He. discriminate.
Defined.

Definition empty_store : job_store sample_storage ∅.
Proof. refine (Build_job_store _ _ ∅ ∅ ∅ [] [] _ _ _ _ _); vm_compute; reflexivity. Defined.

Lemma enqueue_list_fifo_witness :
  @yields MemRedis _ (_ <-? enqueue_list sample_storage 3 [job_a; sample_envelope "b" "q" false None] ;;
    dequeue_times sample_storage "q" 2)%prog ∅ (Ok [Some "a"; Some "b"]) (fun ks' =>
    exists js' : job_store sample_storage ks', claims js' = ["b"; "a"]).
Proof.
  destruct (@enqueue_list_fifo MemRedis mem_lawful BitsSerde bits_lawful sample_storage 3 "q"
    [job_a; sample_envelope "b" "q" false None] ∅ empty_store) as (d' & Hrun & js' & Hc & _).
  - reflexivity.
  - vm_compute; reflexivity.
  - repeat constructor.
  - apply (bool_decide_unpack (NoDup _)). vm_compute. exact I.
  - exists d'. split; [exact Hrun|]. exists js'. exact Hc.
Defined.

Local Abbreviation unique_a q c := (sample_envelope "a" q true c).

Lemma unique_replace_witness :
  @yields MemRedis _ (try_enqueue sample_storage 1 (unique_a "r" (Some Replace))) sample_ks (Ok (Some "a")) (fun ks' =>
    list_at ks' (namespace_queue keys "r") = Some ["a"] /\ list_at ks' (namespace_queue keys "q") = Some []).
Proof.
  destruct (@unique_replace MemRedis mem_lawful BitsSerde bits_lawful sample_storage 0 (unique_a "r" (Some Replace))
    job_a sample_text sample_ks sample_store [] [])
    as (d' & Hrun & js' & _ & _ & _ & _ & _ & Hnew & Hold); [vm_compute; reflexivity..|].
  exists d'. split; [exact Hrun|]. split; [exact Hnew|]. apply Hold. discriminate.
Defined.

Lemma unique_skip_witness :
  @yields MemRedis _ (try_enqueue sample_storage 1 (unique_a "r" None)) sample_ks (Ok None) (fun ks' => ks' = sample_ks).
Proof.
  destruct (@unique_skip MemRedis mem_lawful BitsSerde bits_lawful sample_storage 0 (unique_a "r" None)
    sample_ks sample_store []) as (d' & Hrun & Hks);
    [reflexivity|discriminate|reflexivity|vm_compute; reflexivity|].
  exists d'. split; [exact Hrun|exact Hks].
Defined.

(** Another client deletes the job between the snapshot and the script: the first run is told so, the second commits. *)
Lemma enqueue_rounds_bounded_witness :
  let e := unique_a "r" (Some Replace) in
  let env := [(fun ks => ks); (fun ks => ks); (fun ks => snd (run_doc (delete_job sample_storage "a") ks))] in
  disturbances sample_storage ["a"] env (enqueue_list sample_storage 2 [e]) sample_ks = 1%nat /\
  (run_amid env (enqueue_list sample_storage 1 [e]) sample_ks).1.1 = Err StillRunning /\
  (run_amid env (enqueue_list sample_storage 2 [e]) sample_ks).1.1 = Ok ["a"] /\
  (run_amid env (enqueue_list sample_storage 99 [e]) sample_ks).1.1 = Ok ["a"].
Proof.
  intros e env.
  assert ((run_amid env (enqueue_list sample_storage 2 [e]) sample_ks).1.1 = Ok ["a"]) as Hrun by (vm_compute; reflexivity).
  split; [vm_compute; reflexivity|]. split; [vm_compute; reflexivity|]. split; [exact Hrun|].
  destruct (enqueue_rounds_bounded sample_storage 2 [e] env sample_ks) as [_ Hmore].
  - apply (bool_decide_unpack _). vm_compute. exact I.
  - rewrite (Hmore 99%nat) by lia. exact Hrun.
Defined.

(** ** Failures, recovery and promotion *)

Lemma failed_batch_settled_witness :
  let js := [(job_a, {| max_retries := 2; policy_retry_delay := 5 |})] in
  @yields MemRedis _ (handle_errs sample_storage "boom" (fun _ p => policy_retry_delay p) 7 js) sample_ks [] (fun ks' =>
    exists js' : job_store sample_storage ks', retrying js' !! "a" = Some 5000007%Z).
Proof.
  intros js.
  destruct (@failed_batch_settled MemRedis mem_lawful BitsSerde bits_lawful sample_storage "boom"
    (fun _ p => policy_retry_delay p) 7 js sample_ks sample_store) as (d' & Hrun & js' & Hends & _).
  - apply (bool_decide_unpack (NoDup _)). vm_compute. exact I.
  - constructor; [|constructor]. exists job_a, sample_text. repeat split.
  - exists d'. split; [exact Hrun|]. exists js'. apply Forall_cons in Hends as [Hends _]. apply Hends.
Defined.

Lemma sample_queues_typed (ks : keyspace) :
  ks !! namespace_queue keys "" = None -> ks !! namespace_queue keys "q" = None ->
  queues_typed sample_storage {[ "a" := sample_text ]} ks.
Proof.
  intros H1 H2. unfold queues_typed, list_at. rewrite H1. split; [by eexists|].
  intros jid q. unfold target. destruct (decide (jid = "a")) as [->|Hne].
  - rewrite lookup_singleton_eq. intros H. assert (q = "q") as -> by (vm_compute in H; congruence).
    split; [reflexivity|]. rewrite H2. by eexists.
  - by rewrite lookup_singleton_ne.
Defined.

Definition claimed_ks : keyspace :=
  <[jobs keys := VHash {[ "a" := sample_text ]}]> (<[processing_queue keys "p" := VList ["a"]]> ∅).


Definition silent_ks : keyspace :=
  <[processes keys := VZset {[ "p" := 5%Z ]}]> (<[processing_queue keys "r" := VList ["b"]]> ∅).


Definition scheduled_ks : keyspace :=
  <[jobs keys := VHash {[ "a" := sample_text ]}]> (<[schedule keys := VZset {[ "a" := 5%Z ]}]> ∅).
Definition scheduled_store : job_store sample_storage scheduled_ks.
Proof.
  refine (Build_job_store _ _ {[ "a" := sample_text ]} {[ "a" := 5%Z ]} ∅ [] [] _ _ _ _ _); vm_compute; reflexivity.
Defined.

Lemma due_jobs_promoted_witness :
  @yields MemRedis _ (enqueue_scheduled sample_storage (schedule keys) 9) scheduled_ks (Ok 1%nat) (fun ks' =>
    list_at ks' (namespace_queue keys "q") = Some ["a"]).
Proof.
  destruct (@due_jobs_promoted MemRedis mem_lawful BitsSerde bits_lawful sample_storage (schedule keys) 9
    scheduled_ks scheduled_store {[ "a" := 5%Z ]}) as (d' & Hrun & _ & Hq & _).
  - by left.
  - vm_compute; reflexivity.
  - apply sample_queues_typed; vm_compute; reflexivity.
  - exists d'. split; [exact Hrun|]. rewrite (Hq "q" []) by (vm_compute; reflexivity). vm_compute. reflexivity.
Defined.

(** ** Resuming an iteration, listing, configuring *)

Lemma iteration_resumes_witness :
  exists it, @yields MemRedis _ (it <-? iter_new sample_storage "a" ["x"; "y"; "z"] 3 None ;;
      iter_nexts sample_storage "a" 2 it)%prog sample_ks (Ok ([Some "x"; Some "y"], it)) (fun ks' =>
    progress_at sample_storage "a" 1 ks').
Proof.
  destruct (@iteration_resumes MemRedis mem_lawful BitsSerde bits_lawful sample_storage "a" _ ["x"; "y"; "z"]
    1 sample_ks 0 3 None) as (it & d' & Hrun & Hp & _).
  - exists {[ "a" := sample_text ]}, sample_text, job_a. repeat split.
  - cbn; lia.
  - vm_compute; discriminate.
  - vm_compute; reflexivity.
  - exists it, d'. split; [exact Hrun|exact Hp].
Defined.

Definition waiting_ks : keyspace :=
  <[jobs keys := VHash {[ "a" := sample_text ]}]> (<[namespace_queue keys "q" := VList ["b"; "a"]]> ∅).
Definition waiting_store : job_store sample_storage waiting_ks.
Proof. refine (Build_job_store _ _ {[ "a" := sample_text ]} ∅ ∅ [] [] _ _ _ _ _); vm_compute; reflexivity. Defined.

Definition dynamic_queue : QueueHandle :=
  {| q_key := "q"; q_config := {| kind := Static "q"; concurrency := DynamicConcurrency 4; throttle := None |} |}.

(** ** Permits and throttling *)

Definition one_permit : QueueRuntimeConfig := {| rt_concurrency := Some 1%nat; rt_state := Active |}.
Definition one_held : system :=
  {| control := {| ctl_concurrency := 1; ctl_state := Active; ctl_active := 1 |}; generation := 0; unnotified := 0;
     tasks := [Holding] |}.

Lemma one_held_reached : rtc step (initial one_permit) one_held.
Proof.
  eapply rtc_l; [apply step_spawn|]. eapply rtc_l; [by eapply (step_create _ [] [])|].
  eapply rtc_l; [by eapply (step_acquire _ [] _ [])|]. apply rtc_refl.
Defined.

Lemma permits_exact_no_lost_wakeup_witness : ctl_active (control one_held) = Permits.held (tasks one_held).
Proof. exact (proj1 (permits_exact_no_lost_wakeup one_permit one_held one_held_reached)). Defined.

Definition throttler_ks : keyspace := <[throttler_key "t" := VZset {[ "u" := 5%Z; "v" := 2000005%Z ]}]> ∅.

Lemma throttler_window_witness :
  exists s d', @Redis.run MemRedis _ (throttler_state (new_throttler "t" 1 1000) 2000006) throttler_ks = (Ok s, d') /\
    requests s = 1.
Proof.
  destruct (@throttler_window MemRedis mem_lawful (new_throttler "t" 1 1000) 2000006 throttler_ks
    {[ "u" := 5%Z; "v" := 2000005%Z ]}) as (s & d' & Hrun & _ & Hreq & _); [vm_compute; reflexivity|].
  exists s, d'. split; [exact Hrun|]. rewrite Hreq. vm_compute. reflexivity.
Defined.


Lemma throttled_for_exceeds_window_witness :
  throttled_for (state_of (new_throttler "t" 1 1000) 2000006 [("v", 1500000%Z)] 1) = Some 1501%Z /\ 1000 < 1501.
Proof.
  assert (throttled_for (state_of (new_throttler "t" 1 1000) 2000006 [("v", 1500000%Z)] 1) = Some 1501%Z) as E
    by (vm_compute; reflexivity).
  split; [exact E|].
  refine (proj1 (throttled_for_exceeds_window (new_throttler "t" 1 1000) 2000006 [("v", 1500000%Z)] 1 1501 _ _ E)).
  - cbn. lia.
  - repeat constructor; cbn; unfold window_micros; cbn; lia.
Defined.

(** ** The dispatcher's batches, the runtime, cron *)

Lemma batcher_conserves_jobs_witness :
  batcher_run 2 false (Coordinator.Running [1%nat]) [EvJob 2; EvJob 3; EvClosed]%nat = (Finished, [[1; 2]; [3]]%nat) /\
  concat [[1; 2]; [3]]%nat = [1; 2; 3]%nat.
Proof.
  split; [reflexivity|].
  pose proof (batcher_conserves_jobs 2 false ltac:(lia) [EvJob 2; EvJob 3; EvClosed]%nat (Coordinator.Running [1%nat]) Finished
    [[1; 2]; [3]]%nat) as H. destruct H as [H _]; [cbn; lia|reflexivity|]. exact H.
Defined.

Definition no_worker : Processable :=
  {| p_len := 1; p_job_name := "j"; p_worker_name := "w"; p_max_retries _ := 2; p_retry_delay _ _ := 5;
     p_should_resume := false; p_process := ExecSuccess |}.
Definition null_jobs : JobType :=
  {| jt_decode v := match v with VNull => Ok (default_job "j" (Ok VNull)) | _ => Err "invalid" end;
     jt_bind _ := no_worker; jt_bind_batch _ := no_worker |}.
Definition bool_job : JobEnvelope :=
  {| id := "b"; job := {| name := "w"; args := VBool true |}; queue := "q"; meta := meta job_a |}.



(** A run that is signalled, or whose task failed, and drains. *)
Lemma drains (failed : joined) : failed = None \/ failed = Some (Err ShutdownTimeout) ->
  exists s, rtc (lstep false) (join_task 1 5 true failed (launched 1)) s /\ at_phase s = Done (default (Ok tt) failed).
Proof.
  intros Hf. eexists. split.
  - eapply rtc_l; [by apply l_signal|]. cbn. eapply rtc_l; [by apply (l_join_coordinator _ _ 0 (Some (Ok tt)))|].
    eapply rtc_l; [by apply l_coordinators_done|].
    eapply rtc_l; [by apply (l_join_loop _ _ 4 (Some (Ok tt)))|]. eapply rtc_l; [by apply (l_join_loop _ _ 3 (Some (Ok tt)))|].
    eapply rtc_l; [by apply (l_join_loop _ _ 2 (Some (Ok tt)))|]. eapply rtc_l; [by apply (l_join_loop _ _ 1 (Some (Ok tt)))|].
    eapply rtc_l; [by apply (l_join_loop _ _ 0 (Some (Ok tt)))|]. eapply rtc_l; [by apply l_loops_done|].
    eapply rtc_l; [by apply l_tasks_done|]. eapply rtc_l; [by apply (l_join_ping _ _ (Some (Ok tt)))|].
    eapply rtc_l; [by apply l_ping_done|]. eapply rtc_l; [by apply l_cleaned|]. apply rtc_refl.
  - by destruct Hf as [-> | ->].
Qed.

Lemma shutdown_order_witness :
  exists s, rtc (lstep false) (launched 1) s /\ at_phase s = Done (Ok tt) /\ quiescent s.
Proof.
  destruct (drains None (or_introl eq_refl)) as (s & Hr & Hd). exists s. split; [exact Hr|]. split; [exact Hd|].
  destruct (shutdown_order false 1 s Hr) as (_ & _ & Hdone). exact (proj1 (Hdone _ Hd)).
Defined.

(** ** Results and metrics *)

Definition sample_result (k : WorkerResultKind) (n : Z) : WorkerResult :=
  {| wr_kind := k; wr_worker_name := "w"; wr_queue := "q"; wr_execution_ms := 3; wr_job_count := n |}.

Definition fresh_collector : collector :=
  {| col_metrics := empty_buffer; col_pending := ∅; col_active := ∅; col_stats := empty_run_stats; col_failures := 0;
     col_cancelled := false |}.

(** ** Resilience, policies, registration *)

Definition slow_attempt : attempt := {| jitter := 0; takes := from_millis 300; outcome := Err PoolTimeout |}.

Lemma checkout_loop_deadline_witness :
  checkout_loop default_pool_retry (from_millis 500) 0 (from_millis 100) (Err PoolTimeout) (replicate 2 slow_attempt)
    = Some (from_millis 500, Err (DeadpoolRedisPoolError PoolTimeout)) /\ from_millis 500 <= from_millis 500.
Proof.
  assert (checkout_loop default_pool_retry (from_millis 500) 0 (from_millis 100) (Err PoolTimeout)
    (replicate 2 slow_attempt) = Some (from_millis 500, Err (DeadpoolRedisPoolError PoolTimeout))) as E
    by (vm_compute; reflexivity).
  split; [exact E|].
  refine (proj1 (checkout_loop_deadline default_pool_retry _ _ (from_millis 500) _ (replicate 2 slow_attempt) 0
    (from_millis 100) (Err PoolTimeout) _ _ _) _ _ E);
    [vm_compute; discriminate .. | | |].
  - vm_compute. split; discriminate.
  - vm_compute. split; discriminate.
  - repeat constructor; vm_compute; discriminate.
Defined.

Definition null_factories : WorkerFactories :=
  {| wf_factory := job_factory null_jobs; wf_batch_factory := job_batch_factory null_jobs; wf_batch_config := None;
     wf_cron := None |}.
Definition null_config : WorkerConfig :=
  {| wc_name := "j"; wc_legacy_names := ["w"; "j"]; wc_factories := null_factories; wc_on_demand := None;
     wc_kind := Normal |}.


(** ** Builders *)

Definition plain_calls : list (BuilderCall (WorkerError := string) (Reporter := unit) (Fut := unit)) :=
  [QueueWith (as_static "a"); QueueWithConcurrency (as_dynamic "b") 3; QueueWith (as_static "c"); ExceptQueue (as_static "c");
   HeartbeatInterval (from_secs 1); DeadProcessThreshold (from_secs 9); WorkerWith null_config].
Definition plain_builder :=
  default (new_builder (storage_handle sample_storage))
    (builder_calls (Some : string -> option string) plain_calls (new_builder (storage_handle sample_storage))).



(** ** A job on its way through a coordinator *)

Definition one_slot : QueueRuntimeConfig := {| rt_concurrency := Some 1%nat; rt_state := Active |}.
Definition claimed_a : WorkerJob := {| wj_job_id := "a"; wj_permit := "q" |}.
Definition at_most_one (q : string) (n : nat) : Prop := (n <= 1)%nat.

Definition executing_one : coordinator := {|
  co_controls := {[ "q" := {| ctl_concurrency := 1; ctl_active := 1; ctl_state := Active |} ]};
  co_dispatchers := [("q", Acquiring)]; co_channel := []; co_receiving := true; co_routing := None; co_batchers := [];
  co_running := [[{| pj_job := claimed_a; pj_envelope := job_a |}]]; co_cancelled := false; co_forced := false;
  co_claimed := [claimed_a]; co_settled := []; co_left := [];
|}.

Definition slot_q : slot := {| sl_queue := as_static "q"; sl_state := co_start; sl_joined := false |}.
Lemma executing_one_works : rtc (token_free (fun _ => None) at_most_one slot_q) co_start executing_one.
Proof.
  assert (config_allowed at_most_one "q" one_slot) as Hlimit by (exists 1%nat; split; [reflexivity|unfold at_most_one; lia]).
  eapply rtc_l; [split; [eapply cs_watch, (co_track _ co_start "q" one_slot); [apply not_elem_of_nil|exact Hlimit|reflexivity]|done]|].
  eapply rtc_l; [split; [eapply cs_dispatch, (co_acquire _ _ [] "q" []); reflexivity|done]|].
  eapply rtc_l; [split; [eapply cs_dispatch, (co_dispatched _ _ [] "q" [] 30 0 (Ok (Some "a"%string, 0))); reflexivity|done]|].
  eapply rtc_l; [split; [eapply cs_dispatch, (co_send _ _ [] "q" "a" []); [reflexivity|reflexivity|cbn; lia]|done]|].
  eapply rtc_l; [split; [eapply cs_load, (co_receive _ claimed_a []); reflexivity|done]|].
  eapply rtc_l; [split; [eapply cs_route, (co_spawn _ _ claimed_a job_a); reflexivity|done]|].
  assert (forall x y : coordinator, x = y -> rtc (token_free (fun _ => None) at_most_one slot_q) x y) as H
    by (intros x y ->; apply rtc_refl).
  apply H. vm_compute. reflexivity.
Qed.
Lemma executing_one_reached : rtc (cstep (as_static "q") (fun _ => None) at_most_one) co_start executing_one.
Proof. eapply rtc_subrel; [|exact executing_one_works]. intros c c' [H _]. exact H. Qed.


Lemma queue_limit_respected_witness : executing "q" executing_one = 1%nat /\ (executing "q" executing_one <= 1)%nat.
Proof.
  split; [reflexivity|].
  destruct (queue_limit_respected (as_static "q") (fun _ => None) at_most_one
    ltac:(intros ? ? E; discriminate E) executing_one "q" executing_one_reached) as [_ H].
  destruct (H 1%nat ltac:(intros n Hn; exact Hn)). lia.
Defined.

Lemma coordinator_stops_witness :
  exists s', rtc (cstep (as_static "q") (fun _ => None) at_most_one) (cancel executing_one) s' /\ at_rest s' /\
    active_of (co_controls s') "q" = 0%nat.
Proof.
  destruct (coordinator_stops (as_static "q") (fun _ => None) at_most_one ltac:(intros ? ? E; discriminate E)
    (cancel executing_one)) as (s' & Hs & Hr & _ & _ & Ha).
  - eapply rtc_r; [exact executing_one_reached|apply cs_life, co_cancel].
  - reflexivity.
  - exists s'. split; [exact Hs|]. split; [exact Hr|exact (Ha "q"%string)].
Defined.

(** ** A process with one coordinator *)

Definition node_executing : node :=
  {| nd_own := launched 1; nd_slots := [{| sl_queue := as_static "q"; sl_state := executing_one; sl_joined := false |}] |}.
Local Abbreviation node_step_q := (node_step (fun _ => None) at_most_one false).

Lemma node_executing_reached : rtc node_step_q (node_start [as_static "q"]) node_executing.
Proof. exact (coordinator_works (fun _ => None) at_most_one false (launched 1) [] slot_q [] co_start executing_one eq_refl executing_one_works). Qed.
Lemma no_batches (n : string) (c : WorkerBatchConfig) : None = Some c -> (0 < batch_size c)%nat.
Proof. discriminate. Qed.


Lemma process_can_answer_witness :
  exists n a, rtc node_step_q node_executing n /\ at_phase (nd_own n) = Done a /\ force_cancelled (nd_own n) = false.
Proof.
  exact (process_can_answer (fun _ => None) at_most_one false no_batches [as_static "q"] node_executing node_executing_reached).
Defined.

(** ** A runtime that starts *)

#[local] Instance named_process : ProcessSerde :=
  {| process_to_string := fun _ => Ok "p"; process_from_str := fun _ => Err "not a process" |}.

Definition starting_one : startup :=
  launch sample_storage 30 new_settings (rb_config plain_builder) 9 [] [] [] [] (fun _ => Build_cron_clock 0 [] [] 0 0) 0.
Definition claiming : prog (result OxanaError unit * Z) := pbind (dequeue sample_storage "q") (fun _ => Ret (Ok tt, 0%Z)).
Definition acknowledged : list observed :=
  [Observed (Checkout Primary) (Ok tt); Observed (Cmd (ZADD (processes keys) 5000 (own_process_id sample_storage))) (Ok tt);
   Observed (Cmd (HSET (processes_data keys) (own_process_id sample_storage) "p")) (Ok tt); Observed (Checkout Primary) (Ok tt)].
Definition first_claim : observed :=
  Observed (Cmd (LMOVE (namespace_queue keys "q") (current_processing_queue sample_storage))) (Ok None).

Lemma first_claim_reached : exists s, rtc (su_step sample_storage 30) starting_one s /\ su_trace s = acknowledged ++ [first_claim].
Proof.
  assert (forall X (e : event X) r, r = fst (@run_event MemRedis _ e ∅) -> possible_reply (fun _ => True) e r) as Hrep
    by (intros X e r ->; right; exists ∅; split; [exact Logic.I|reflexivity]).
  eexists. split.
  - eapply rtc_l; [eapply (su_begin _ _ _ _ [(5000, 5)%Z] 0); reflexivity|].
    eapply rtc_l; [eapply su_ping; [reflexivity|by apply Hrep]|].
    eapply rtc_l; [eapply su_ping; [reflexivity|by apply Hrep]|].
    eapply rtc_l; [eapply su_ping; [reflexivity|by apply Hrep]|].
    eapply rtc_l; [eapply (su_done _ _ _ true); reflexivity|].
    eapply rtc_l; [eapply (su_spawn _ _ _ _ claiming); reflexivity|].
    eapply rtc_l; [eapply (su_event _ _ _ []); [reflexivity|by apply Hrep]|].
    eapply rtc_l; [eapply (su_event _ _ _ []); [reflexivity|by apply Hrep]|].
    apply rtc_refl.
  - reflexivity.
Qed.

Lemma claims_wait_for_registration_witness : exists s,
  rtc (su_step sample_storage 30) starting_one s /\ su_trace s = acknowledged ++ [first_claim] /\
  Exists (heartbeat sample_storage) acknowledged.
Proof.
  destruct first_claim_reached as (s & Hs & Ht). exists s. split; [exact Hs|]. split; [exact Ht|].
  exact (claims_wait_for_registration sample_storage 30 _ _ _ _ _ _ _ _ _ s acknowledged first_claim [] Hs Ht Logic.I).
Defined.

(** ** A batch whose first job does not decode *)

Definition null_kind : JobKind := {| jk_name := "j"; jk_should_resume := false; jk_decode := jt_decode null_jobs |}.
Definition no_callbacks : Callbacks string unit unit := new_callbacks.
Definition batch_worker : Worker (WorkerError := string) :=
  {| w_type_name := "W"; w_args_name := "A"; w_process := None;
     w_run_batch := Some (fun items => match items with [_] => Returned (Ok tt) | _ => Unwound PanicOther end);
     w_max_retries := Some (fun _ => 7); w_retry_delay := None |}.

Lemma batch_items_aligned_witness :
  let ctxs := job_contexts (started null_kind 9 [job_a]) in
  let js := (decode_batch (job_type (fun s => s) no_callbacks batch_worker null_kind ctxs) 0
               ((fun e => args (job e)) <$> [bool_job; job_a])).1 in
  p_process (bound_batch_job (fun s => s) no_callbacks batch_worker null_kind ctxs js) = ExecSuccess /\
  exists j e', batch_items js ctxs !! 0%nat = Some {| item_job := j; item_ctx := job_context e' |} /\ id e' = "a" /\
    policies (bound_batch_job (fun s => s) no_callbacks batch_worker null_kind ctxs js) [job_a] =
      [{| max_retries := 7; policy_retry_delay := 25 |}].
Proof.
  destruct (batch_items_aligned (fun s => s) no_callbacks batch_worker null_kind 9 [bool_job; job_a]) as (_ & _ & _ & H).
  split; [vm_compute; reflexivity|].
  destruct (H 0%nat job_a eq_refl) as (j & e' & Hj & Hi & (He & _) & Hp). exists j, e'. split; [|split; [exact He|]].
  - exact Hi.
  - vm_compute in Hj. injection Hj as <-. vm_compute. reflexivity.
Defined.
