(* ===== verification/WebWitnesses.v ===== *)
(** * Concrete inputs of the dashboard's theorems

    A catalog with one dynamic queue, a stored configuration and a schedule
    with one job, at which the theorems of the dashboard apply. *)
From Stdlib Require Import QArith.
From S2P Require Import Prelude Errors Redis Envelope Codec Queue Keys Scripts Storage Transitions Enqueue Client Metrics Stats StatsStorage Recovery Registry Coordinator Api WebConfig WebTree WebJobs WebQueues WebFacts WebMetrics WebFormat WebRoutes Mcp Worker Derives Witnesses.

#[local] Instance plain_libraries : WebLibraries unit :=
  {| json_from_str _ := Ok VNull; json_pretty _ := Ok "null"; json_display _ := "null"; url_encode s := s;
     schedule_text _ := "never"; schedule_next _ _ := None |}.

Definition mail_queue : QueueConfig :=
  {| kind := Dynamic "mail" (from_secs 5); concurrency := DynamicConcurrency 4; throttle := None |}.

Definition sample_state : OxanaWebState unit :=
  {| web_storage := storage_handle sample_storage;
     web_catalog := {| cat_workers := []; cat_cron_workers := []; cat_queues := [queue_info mail_queue]; cat_on_demand := [] |};
     web_base_path := "/admin" |}.
Local Abbreviation keys := (skeys sample_storage).


(** The dynamic queue is paused, with a limit of its own; nothing is stored for
    its sub-queues. *)
Definition paused_configs : gmap string string := {[ "mail" := "p3" ]}.
Definition paused_mail : QueueRuntimeConfig := {| rt_concurrency := Some 3%nat; rt_state := Paused |}.
Definition paused_ks : keyspace := <[queue_configs keys := VHash paused_configs]> ∅.



(** ** Numbers *)

(** ** Requests and tools *)

#[local] Instance null_processes : ProcessSerde := {| process_to_string _ := Ok "p"; process_from_str _ := Err "not a process"%string |}.
#[local] Instance null_json {A} : ToJson A := fun _ => VNull.
#[local] Instance string_eqb : ConstantTimeEq String.eqb := String.eqb_eq.

Definition some_time : Clock := {| c_secs := 60; c_millis := 60000; c_micros := 60000000 |}.
Definition surroundings : Surroundings :=
  {| s_clock := some_time; s_stamp := {| s_now := 60; s_uuid := "u" |}; s_started := 0; s_claim := "c"; s_fuel := 3 |}.

Lemma get_requests_change_nothing_witness :
  exists p, handle sample_state (JobDetail "a") surroundings = Some p /\ snd (@Redis.run MemRedis _ p sample_ks) = sample_ks.
Proof.
  eexists. split; [reflexivity|].
  exact (@get_requests_change_nothing MemRedis mem_lawful BitsSerde SimpleConfigSerde null_processes unit plain_libraries
    sample_state (JobDetail "a") surroundings _ sample_ks eq_refl eq_refl).
Defined.

Lemma token_required_witness :
  router_token "abc" = Some "abc"%string /\ authenticate String.eqb "abc" [Some "bEARER  abc"%string] = true.
Proof.
  split; [reflexivity|]. refine (proj2 (token_required String.eqb "abc" "abc" _ eq_refl) _).
  exists "bEARER"%string, 1%nat. split; reflexivity.
Defined.

(** The stored job with other arguments and a resumable state. *)
Definition other_envelope : JobEnvelope :=
  let e := sample_envelope "a" "q" false None in
  {| id := id e; job := {| name := name (job e); args := VStr "secret" |}; queue := queue e;
     meta := set_state (Some (VStr "half way")) (meta e) |}.
Definition other_text : string := sample_payload other_envelope.
Definition other_ks : keyspace :=
  <[jobs keys := VHash {[ "a" := other_text ]}]>
  (<[current_processing_queue sample_storage := VList ["a"]]> ∅).
Definition other_store : job_store sample_storage other_ks.
Proof.
  refine (Build_job_store _ _ {[ "a" := other_text ]} ∅ ∅ [] ["a"] _ _ _ _ _); vm_compute; reflexivity.
Defined.

Lemma mcp_hides_arguments_witness :
  exists p, call_tool (storage_handle sample_storage) (GetJob "a") "now" some_time = Ok p /\
    fst (@Redis.run MemRedis _ p other_ks) = fst (@Redis.run MemRedis _ p sample_ks) /\ other_text <> sample_text.
Proof.
  eexists. split; [reflexivity|]. split; [|vm_compute; discriminate].
  refine (@mcp_hides_arguments MemRedis mem_lawful BitsSerde null_processes null_json null_json null_json null_json null_json
    (storage_handle sample_storage) (GetJob "a") "now" some_time _ sample_ks other_ks sample_store other_store _ eq_refl _).
  - left. by eexists.
  - constructor; try reflexivity.
    + intros jid. cbn. destruct (decide (jid = "a"%string)) as [->|Hn].
      * rewrite !lookup_singleton_eq. cbn. exists (VStr "secret"), (Some (VStr "half way")). vm_compute. reflexivity.
      * rewrite !lookup_singleton_ne by done. constructor.
    + constructor.
    + intros q. change (skeys (internal (storage_handle sample_storage))) with keys. change (list_at other_ks (namespace_queue keys q) = list_at sample_ks (namespace_queue keys q)).
      unfold list_at, other_ks, sample_ks.
      destruct (decide (jobs keys = namespace_queue keys q)) as [<-|Hn].
      * by rewrite !lookup_insert_eq.
      * do 2 rewrite (lookup_insert_ne _ (jobs keys)) by done. reflexivity.
Defined.

(** ** A derived queue, and a derived unique ID *)

Definition mail_args : QueueArgs :=
  {| qa_registry := None; qa_key := None; qa_prefix := Some "mail"; qa_concurrency := Some (DynamicArg 3);
     qa_discovery_interval_ms := None; qa_throttle := None |}.


Definition order_job : JobUser :=
  {| ju_fields := [("id", "7"); ("shop", "x")]; ju_expr _ := None; ju_unique_id _ := None; ju_throttle_cost _ := None |}.
Definition order_template : list segment := [SegText "order:"; SegField "shop"; SegText "/"; SegField "id"; SegField "id"].

Lemma derived_unique_id_witness :
  template order_template = "order:{shop}/{id}{id}" /\
  expand_unique_id order_job (Shorthand "order:{shop}/{id}{id}") = Some (Some "order:x/77").
Proof.
  split; [reflexivity|]. exact (derived_unique_id order_job order_template ["order:"; "x"; "/"; "7"; "7"] eq_refl eq_refl).
Defined.
